(* ===== verification/_CoqProject ===== *)
-Q . S2P
Prelude.v
CList.v
Libc.v
Buf.v
Cf.v
Interp.v
Value.v
Att.v
Pathcomp.v
PathSpec.v
PathLoad.v
PathEval.v
PathIter.v
Standalone.v
LuaObject.v
LuaZio.v
LuaBit.v
LuaOpcodes.v
LuaCheck.v
LuaDump.v
LuaStr.v
LuaLex.v
LuaMatch.v
LuaPattern.v
LuaTab.v
LuaNumber.v
LuaTable.v
LuaTabChain.v
LuaTabOk.v
LuaTabInsert.v
LuaTabStore.v
LuaTabCount.v
LuaTabRehash.v
LuaTabMap.v
LuaTabNext.v
LuaCode.v
LuaJump.v
LuaCond.v
LuaConst.v
LuaCodeFlaws.v
LuaHeap.v
LuaGC.v
LuaGCMark.v
LuaGCInv.v
LuaGCTri.v
LuaGCAtomic.v
LuaGCFinal.v
LuaGCPhase.v
LuaGCSweep.v
LuaGCClose.v
LuaGCStep.v
LuaGCMut.v
LuaGCStore.v
LuaGCUpval.v
LuaState.v
LuaGCOpen.v
LuaGCCycle.v
LuaGCOps.v
LuaGCNew.v
LuaGCSafe.v
LuaGCFlaws.v
LuaGCKeep.v
LuaIntern.v
