(* ===== verification/Prelude.v ===== *)
(** A verification development for libpathcomp.

    libpathcomp composes pathnames. A composer (src/src/pathcomp.c) has named
    attributes, each with a list of alternative values; a value is a string, an
    integer or the body of a Lua function, which can read the other attributes of
    the composer as [self.name]. The attributes come from a configuration file
    with sections and key-value pairs, in which a section can copy from others,
    and from the program. A path is composed from the attributes [root] and
    [compose]; the library iterates over all combinations of alternatives, looks
    for paths that exist and creates parent directories. A command-line program
    gives access to all of it.

    ** Files

    - [Prelude] (this file): outcomes of C code, machine integers, characters,
      allocation, automation.
    - [CList]: the linked lists of src/src/list.c, on a heap of cells with an
      allocator that may fail.
    - [Libc]: what the sources use of <string.h> and of printf().
    - [Buf]: the growable buffers of src/src/buf.c, byte by byte.
    - [Cf]: the configuration parser of src/src/cf.c, working on buffers as the
      code does; [Cf.Spec] is the language it implements, on lists of characters.
    - [Interp]: the global state (the static variables of interpreter.c and
      pathcomp.c, the heap of strings, standard error), src/src/log.c,
      src/src/interpreter.c, and the part of the Lua API the library calls.
    - [Value]: src/src/value.c; what values mean and which strings they own.
    - [Att]: src/src/att.c.
    - [Pathcomp]: the operations of src/src/pathcomp.c.
    - [PathSpec]: the meaning of composers, and that the operations that change,
      copy and free them implement it.
    - [PathLoad]: what a composer gets from the configuration.
    - [PathEval]: evaluation of attributes and composition of paths.
    - [PathIter]: iteration, search and creation of directories.
    - [Standalone]: the program of src/src/standalone.c.

    The library embeds Lua 5.1 (src/liblua), of which the parts that work on bytes
    and strings, the tables, the code generator and the garbage collector are
    modelled as well:

    - [LuaObject]: function prototypes (lobject.h) and the conversions of
      lobject.c; errors of Lua as outcomes ([lres]).
    - [LuaZio]: the input streams of lzio.c.
    - [LuaBit]: the bit operations of lbitlib.c.
    - [LuaOpcodes]: the instruction formats of lopcodes.h and lopcodes.c.
    - [LuaCheck]: the checker of precompiled code in ldebug.c, and what the main
      loop of lvm.c does to the program counter.
    - [LuaDump]: writing and loading of precompiled code, ldump.c and lundump.c.
    - [LuaStr]: the string library, lstrlib.c, without patterns.
    - [LuaLex]: the lexical analyser, llex.c.
    - [LuaMatch]: the pattern matching of lstrlib.c: match(), string.find,
      string.match, string.gmatch and string.gsub.
    - [LuaPattern]: what patterns mean, and that match() finds the first meaning.
    - [LuaTab]: the table library, ltablib.c, against an interface of what access
      to a table promises ([RawTable]).
    - [LuaNumber]: numbers and the keys of tables. [LuaTable]: tables, ltable.c,
      with their array part and the chains of their hash part. [LuaTabChain],
      [LuaTabOk], [LuaTabInsert], [LuaTabStore], [LuaTabCount], [LuaTabRehash]:
      chains under insertion, well-formed tables and searches, newkey(), stores,
      the counts of rehash(), resize() and rehash(). [LuaTabMap], [LuaTabNext]:
      tables as finite maps, traversal and length.
    - [LuaCode]: the code generator, lcode.c, with the state of a function of
      lparser.h. [LuaJump], [LuaCond], [LuaConst], [LuaCodeFlaws]: jump lists,
      conditions in registers, OP_LOADNIL and constants, and functions on which it
      goes wrong.
    - [LuaHeap], [LuaGC]: collectable objects, their marks, and the garbage
      collector, lgc.c, with upvalues (lfunc.c) and the string table (lstring.c).
      [LuaState]: new states and threads (lstate.c), new closures, and the
      functions of lapi.c and lvm.c that store in objects. [LuaGCMark], [LuaGCInv],
      [LuaGCTri], [LuaGCAtomic], [LuaGCFinal], [LuaGCPhase], [LuaGCSweep],
      [LuaGCClose], [LuaGCStep]: marking, the structure of the heap, the mark phase,
      its end, weak tables and finalizers, the invariant, the sweep of strings and
      of objects, and a step. [LuaGCMut], [LuaGCStore], [LuaGCUpval], [LuaGCOpen],
      [LuaGCOps], [LuaGCNew]: what the interpreter does between two steps keeps the
      invariant. [LuaGCCycle], [LuaGCSafe], [LuaGCFlaws]: cycles, runs of the
      interpreter and the collector together, and runs that go wrong.
      [LuaGCKeep]: what a step does to the contents of objects. [LuaIntern]:
      the string table holds every string once.

    ** How C is modelled

    A C function becomes a function with the name it has in the source, which
    takes and returns the state it works on and has a result of type [res]: [Ok],
    or the [fault] that makes a run of the code undefined ([NullDeref],
    [OutOfBounds], [UninitRead], [UseAfterFree], [DoubleFree], ...) or stops it
    ([AssertFail]). That a theorem concludes with [Ok] says that the code is safe
    under its hypotheses. Loops and recursion that are not structural take fuel
    and end with [OutOfFuel] without it; for each of them it is proved how much is
    enough, or, for the recursion over [copy-from], exactly when there is no
    amount that is.

    An object that only one place of the code can refer to (a buffer, a section of
    the configuration, the name of an attribute) is a value. The result of a value
    (value_t.result) is different: pathcomp_eval_nocopy() hands out pointers to it
    while evaluation may free it. These strings live in an explicit heap
    ([Interp.heap]) whose addresses are never used twice, so that reading a freed
    string is a fault. A pointer to a value inside a composer is a [Value.lens].
    Linked lists are Rocq lists outside of [CList], which proves what the list
    operations do to cells; a pointer into a list is a position ([Att.node]).

    [int] is 32 bits, [size_t] 64 bits and wraps around, [char] is signed.

    ** Parameters

    Running Lua code is a parameter ([Interp.LuaInterp]): a source text loads to an error or to
    a tree of accesses to [self] that ends with a result or an error. The depth at
    which the interpreter refuses to nest calls is an argument of the evaluation
    functions, and the theorems hold for every depth. The file system is a
    parameter ([Pathcomp.OS]), files are sequences of read events ([Buf.file]), and
    the results of getopt() are an argument of [Standalone.opt_new].

    In the files on Lua the conversion of numerals, sprintf(), the writer of
    dumped code, the functions and tables given to string.gsub and the initial
    contents of the captures are arguments.

    ** What the theorems show

    - Lists: [list_push], [list_remove], [list_free], [list_transform] and the
      traversals do what they say to the cells and to nothing else.
    - Buffers: every operation stays inside its block, reads only bytes that were
      written and has the obvious effect on the contents ([buf_rep]), as long as
      the contents stay below [Buf.buf_limit]; reading files survives
      interruptions.
    - Parser: it implements [Cf.Spec] on every text, printing and parsing is a
      round trip, and two kinds of input it mistreats are pinned down.
    - Values and attributes: the classification of texts, evaluation outside of a
      composer, copies that share nothing with the original.
    - Composers: [comp_rep F c s w] relates a composer to its meaning [s] and
      divides the heap into the strings it owns and the rest [F]. Setting, adding,
      cloning, freeing ([PathSpec]) and creating ([PathLoad]) refine the operations
      on meanings and preserve [F], so nothing leaks and nothing foreign is
      touched. The attributes of a class have a closed form
      ([PathLoad.expected]). Evaluation, through the interpreter, its stack and the
      callback, computes a function of the meaning ([PathEval.den_eval]) and never
      faults. The iteration is a counter that visits every combination once;
      [pathcomp_find] and [pathcomp_mkdir] do what they promise.
    - Program: with [-a] it prints the path of every combination and releases all
      it has allocated.
    - Lua, precompiled code: what is dumped is read back, whatever is read is an
      error or a function that the checker accepts, and accepted code keeps the
      program counter, the registers and the indices of constants within the
      function. One gap of the checker is pinned down
      ([loadbool_skip_unchecked]).
    - Lua, strings: substrings, formats and patterns never leave their buffers,
      for every argument. A pattern is given a meaning as a list of possible
      matches in the order of preference; the search with captures updated in place
      returns the head of that list, and it is equivalent to the plain search where
      string.find replaces one by the other.
    - Lua, source text: the lexical analyser ends on every text, and reads back
      what string.format quotes.
    - Lua, tables: table.sort returns a sorted permutation for every strict weak
      order, table.insert and table.remove are inverse, table.concat joins. An
      order function that is not an order can make the sort leave its range
      ([sort_leaves_range]).
    - Lua, hash tables: a table is a finite map ([rawset_rawget], [table_history]):
      the chains of colliding nodes stay intact when a node moves, and a table that
      is rehashed has room for the new key, so that the calls nest twice. A
      traversal gives every element once, the length is a boundary, and the array
      part has the largest power of two that is more than half in use. The class
      [RawTable] that the table library is proved against has these tables as an
      instance ([hash_table]).
    - Lua, garbage collection: in every run of the interpreter and the collector,
      with steps of the collector at any time, nothing that can be reached is freed
      and no assertion fails ([gc_safe]); a step keeps the contents of what is
      reached without weak tables ([collector_transparent]); a cycle ends
      ([cycle_ends]); no string is there twice ([strings_interned]). Two functions of
      lapi.c store without the barrier that is needed, and the collector then reads
      freed objects ([setupvalue_use_after_free], [replace_registry_use_after_free]);
      an assertion of the barrier can fail ([barrierf_phase_fails]).
    - Lua, code generation: jump lists are lists of positions, and patching sends
      each jump to its target and changes nothing else ([jumps_to_here]); the value
      of a condition gets into its register ([condition_value]); the optimization
      of OP_LOADNIL is sound ([luaK_nil_equiv]); constants are shared
      ([constants_found]). A word behind OP_SETLIST can be taken for an instruction
      ([setlist_word_patched], [setlist_word_read]), and two zeros for one constant
      ([numberK_zero_sign]).
    The theorems whose names say so ([yield_dangling_root], [pathcomp_mkdir_null],
    [copy_from_cycle_diverges], [index_with_table_aborts], [cf_backslash_at_end],
    [cf_non_ascii_truncates]) are about inputs on which the code goes wrong.

    ** Not modelled

    The rest of Lua: its parser, the effect of most instructions on values, calls,
    the remaining libraries; for the library they are the parameter above. The
    sizes of the C stack and of the buffers of Lua are not bounded. Of the garbage
    collector, the amounts of memory, which decide when a
    step is taken, and what a finalizer does, which is part of the run.

    Failing allocation outside of [CList]; the release of memory by cf_free(),
    kv_free() and opt_free(), whose objects are values here; memory errors of
    Lua; calls of the metamethod of a composer other than through indexing; the
    tests and the build system. *)

From Corelib Require Import ssreflect.
From stdpp Require Import base list numbers gmap strings.
From Stdlib Require Import ZArith Lia.

#[global] Open Scope general_if_scope.
#[global] Open Scope Z_scope.

Coercion Z.of_nat : nat >-> Z.
#[global] Arguments Z.of_nat : simpl never.
#[global] Arguments Z.to_nat : simpl never.
#[global] Arguments Z.pow : simpl never.

(** ** Outcomes of C code *)

(** What makes a run of the C code undefined, aborted or endless. *)
Inductive fault :=
| AssertFail        (* assert() failed, or a reachable assert(0) *)
| NullDeref         (* a null pointer was dereferenced *)
| OutOfBounds       (* an access outside an allocated block *)
| UninitRead        (* a read of an indeterminate byte *)
| UseAfterFree      (* a read or write through a pointer to a freed object *)
| DoubleFree        (* free() of something that is not a live block *)
| SignedOverflow    (* arithmetic overflow of a signed int *)
| StaticClobber     (* a store that changes a shared static object *)
| OutOfFuel.        (* the loop bound of the model was exhausted *)

#[export] Instance fault_eq_dec : EqDecision fault.
Proof. solve_decision. Defined.

Inductive res (A : Type) :=
| Ok (a : A)
| Err (f : fault).
Arguments Ok {A} a.
Arguments Err {A} f.

#[export] Instance res_ret : MRet res := @Ok.
#[export] Instance res_bind : MBind res :=
  fun A B k c => match c with Ok a => k a | Err f => Err f end.
#[export] Instance res_fmap : FMap res :=
  fun A B g c => match c with Ok a => Ok (g a) | Err f => Err f end.

#[export] Instance res_eq_dec {A} `{EqDecision A} : EqDecision (res A).
Proof. solve_decision. Defined.

(** [assert(b)] of <assert.h>. *)
Definition c_assert (b : bool) : res unit := if b then Ok () else Err AssertFail.

Definition is_ok {A} (r : res A) : bool := match r with Ok _ => true | Err _ => false end.

(** ** Machine integers and characters *)

Declare Scope c_scope.
Delimit Scope c_scope with c.

(** [size_t] is 64 bits wide and wraps around. *)
Definition size_max : Z := 2 ^ 64.
Definition sz (z : Z) : Z := z mod size_max.
Notation "a '+z' b" := (sz (a + b)) (at level 50, left associativity) : c_scope.
Notation "a '-z' b" := (sz (a - b)) (at level 50, left associativity) : c_scope.
Notation "a '*z' b" := (sz (a * b)) (at level 40, left associativity) : c_scope.

(** [int] is 32 bits wide. *)
Definition int_min : Z := - 2 ^ 31.
Definition int_max : Z := 2 ^ 31 - 1.
Definition to_int (z : Z) : Z := (z + 2 ^ 31) mod 2 ^ 32 - 2 ^ 31.

(** [char] is signed and 8 bits wide, as on the platforms the library is built for. *)
Abbreviation char := Z (only parsing).
Definition to_char (z : Z) : char := (z + 128) mod 256 - 128.
Definition is_char (c : char) : Prop := -128 <= c <= 127.

(** A C string is its characters without the terminating null. *)
Abbreviation cstring := (list Z) (only parsing).
Definition NUL : char := 0.
Definition EOF : Z := -1.

(** Character constants of the sources. *)
Definition ch_nl : char := 10.          (* '\n' *)
Definition ch_hash : char := 35.        (* '#' *)
Definition ch_plus : char := 43.        (* '+' *)
Definition ch_slash : char := 47.       (* '/' *)
Definition ch_semicolon : char := 59.   (* ';' *)
Definition ch_equals : char := 61.      (* '=' *)
Definition ch_lbracket : char := 91.    (* '[' *)
Definition ch_backslash : char := 92.
Definition ch_rbracket : char := 93.    (* ']' *)
Definition ch_lbrace : char := 123.     (* '{' *)
Definition ch_rbrace : char := 125.     (* '}' *)

(** String literals of the C sources, as characters. *)
Definition chr (a : Ascii.ascii) : char := to_char (Z.of_N (Ascii.N_of_ascii a)).
Definition lit (s : string) : cstring := chr <$> String.list_ascii_of_string s.
Arguments lit s%_string.

(** [isspace()] in the C locale; it is false of every negative argument, EOF included. *)
Definition isspace (ch : Z) : bool := bool_decide (ch = 32) || bool_decide (9 <= ch <= 13).

(** A C string holds characters other than the null. *)
Definition is_cstr (s : cstring) : Prop := Forall (fun ch => is_char ch /\ ch <> NUL) s.

(** ** Arithmetic of the machine types *)

Lemma sz_small z : 0 <= z < size_max -> sz z = z.
Proof. apply Z.mod_small. Qed.

Lemma to_int_small z : int_min <= z <= int_max -> to_int z = z.
Proof.
  rw /to_int /int_min /int_max. intros ?. rw Z.mod_small; lia.
Qed.

(** A difference of sizes that fits an [int] survives the conversion to [int]. *)
Lemma to_int_sz z : int_min <= z <= int_max -> to_int (sz z) = z.
Proof.
  rw /to_int /int_min /int_max /sz /size_max => ?. destruct (decide (0 <= z)).
  - rw (Z.mod_small z); [lia|]. rw Z.mod_small; lia.
  - rw -(Z.mod_add z 1 (2 ^ 64)) // (Z.mod_small (z + _)); [lia|].
    replace (z + 1 * 2 ^ 64 + 2 ^ 31) with (z + 2 ^ 31 + 2 ^ 32 * 2 ^ 32) by lia.
    rw Z.mod_add // Z.mod_small; lia.
Qed.

Lemma to_char_small ch : is_char ch -> to_char ch = ch.
Proof. rw /to_char /is_char. intros ?. rw Z.mod_small; lia. Qed.

Lemma to_char_is_char z : is_char (to_char z).
Proof.
  rw /to_char /is_char. pose proof (Z.mod_pos_bound (z + 128) 256 ltac:(lia)). lia.
Qed.

(** ** Allocation *)

(** Addresses of heap objects; a C pointer is [option loc], [None] being NULL. *)
Abbreviation loc := positive.

(** [malloc()]: given the addresses in use it returns a fresh one, or NULL. *)
Class Allocator := {
  malloc : gset loc -> option loc;
  malloc_fresh : forall X l, malloc X = Some l -> l ∉ X
}.

(** An allocator that never fails, for concrete runs. *)
#[program] Definition total_allocator : Allocator :=
  {| malloc := fun X => Some (fresh X) |}.
Next Obligation.
intros X l [= <-]. apply is_fresh.
Qed.

(** An allocator that always fails. *)
#[program] Definition empty_allocator : Allocator :=
  {| malloc := fun _ => None |}.
Next Obligation.
discriminate.
Qed.

(** ** Automation *)

(** Invert binds of [res]: from [x ← c; k = Ok v], the value [c] returned. *)
Lemma bind_Ok {A B} (c : res A) (k : A -> res B) (b : B) :
  (c ≫= k) = Ok b <-> exists a, c = Ok a /\ k a = Ok b.
Proof. destruct c; simpl; [naive_solver|]. by split; [|intros (? & ? & ?)]. Qed.

Lemma Ok_bind {A B} (a : A) (k : A -> res B) : (Ok a ≫= k) = k a.
Proof. done. Qed.

(** One step of a computation that has returned a value. *)
Ltac ok_step := rw Ok_bind; lazy beta iota zeta.

Ltac inv_bind :=
  repeat match goal with
  | H : (_ ≫= _) = Ok _ |- _ => apply bind_Ok in H as (? & ? & ?)
  | H : Ok _ = Ok _ |- _ => injection H as H; subst
  | H : Err _ = Ok _ |- _ => discriminate H
  | H : Ok _ = Err _ |- _ => discriminate H
  end.

(** Split the tests of the goal, or of the hypotheses, into their cases. *)
Ltac case_tests :=
  repeat (case_bool_decide || case_decide || case_match); simplify_eq/=.

Create HintDb pathcomp discriminated.
