(* ===== verification/CList.v ===== *)
(** CList: the singly linked lists of src/src/list.c, on an explicit heap of cells.

    A [list_t] is a heap cell; a pointer to one is [option loc]. Every loop of
    the C code follows [next] pointers and is bounded here by the number of
    cells of the heap, which an acyclic list cannot exceed: the theorems show
    that the bound is never the reason a call on a well-formed list ends.
    [is_list h p ls xs] says that from [p] the cells at addresses [ls] are
    linked in this order, end in NULL and hold the elements [xs]. *)

From Corelib Require Import ssreflect.
From stdpp Require Import base list numbers gmap strings.
From Stdlib Require Import ZArith Lia.
From S2P Require Import Prelude.

(** ** Data: [struct list_t] and the heap of cells *)

Record list_t (A : Type) := Cell { next : option loc; el : A }.
Arguments Cell {A} next el.
Arguments next {A} _.
Arguments el {A} _.

Section list_ops.
Context {A : Type} {alloc : Allocator}.

Abbreviation heap := (gmap loc (list_t A)).

(** Reading [*p]. *)
Definition deref (h : heap) (p : option loc) : res (list_t A) :=
  match p with
  | None => Err NullDeref
  | Some l => match h !! l with Some c => Ok c | None => Err UseAfterFree end
  end.

(** [free(p)]. *)
Definition free_cell (h : heap) (l : loc) : res heap :=
  match h !! l with Some _ => Ok (delete l h) | None => Err DoubleFree end.

(** ** Operations *)

Definition list_new (h : heap) (e : A) : option loc * heap :=
  match malloc (dom h) with
  | None => (None, h)
  | Some l => (Some l, <[l := Cell None e]> h)
  end.

Fixpoint list_free_loop (fuel : nat) (h : heap) (p : option loc) : res heap :=
  match p, fuel with
  | None, _ => Ok h
  | Some _, O => Err OutOfFuel
  | Some l, S fuel =>
      cell ← deref h p;
      h ← free_cell h l;
      list_free_loop fuel h (next cell)
  end.

Definition list_free (h : heap) (list : option loc) : res heap :=
  list_free_loop (size h) h list.

Fixpoint list_length_loop (fuel : nat) (h : heap) (p : option loc) (n : Z) : res Z :=
  match p, fuel with
  | None, _ => Ok n
  | Some _, O => Err OutOfFuel
  | Some _, S fuel =>
      if decide (n = int_max) then Err SignedOverflow
      else cell ← deref h p; list_length_loop fuel h (next cell) (n + 1)
  end.

Definition list_length (h : heap) (list : option loc) : res Z :=
  list_length_loop (size h) h list 0.

(** [while (p->next) p = p->next; p->next = new;] *)
Fixpoint list_push_walk (fuel : nat) (h : heap) (p new : loc) : res heap :=
  cell ← deref h (Some p);
  match next cell, fuel with
  | None, _ => Ok (<[p := Cell (Some new) (el cell)]> h)
  | Some _, O => Err OutOfFuel
  | Some q, S fuel => list_push_walk fuel h q new
  end.

Definition list_push (h : heap) (list : option loc) (e : A) : res (option loc * heap) :=
  match malloc (dom h) with
  | None => Ok (None, h)
  | Some new =>
      let h := <[new := Cell None e]> h in
      match list with
      | None => Ok (Some new, h)
      | Some p => h ← list_push_walk (size h) h p new; Ok (list, h)
      end
  end.

(** The variable arguments of [list_from], up to and with the terminating null. *)
Fixpoint list_from_loop (h : heap) (lst : option loc) (args : list (option A))
    : res (option loc * heap) :=
  match args with
  | [] => Err OutOfBounds
  | None :: _ => Ok (lst, h)
  | Some e :: args =>
      '(lst, h) ← list_push h lst e;
      list_from_loop h lst args
  end.

Definition list_from (h : heap) (args : list (option A)) : res (option loc * heap) :=
  list_from_loop h None args.

(** The user data of the traversals is the state [U] the callback updates. *)
Fixpoint list_foreach_loop {U} (fuel : nat) (h : heap) (p : option loc)
    (f : A -> U -> U) (userdata : U) : res U :=
  match p, fuel with
  | None, _ => Ok userdata
  | Some _, O => Err OutOfFuel
  | Some _, S fuel =>
      cell ← deref h p;
      list_foreach_loop fuel h (next cell) f (f (el cell) userdata)
  end.

Definition list_foreach_byval {U} (h : heap) (list : option loc) (f : A -> U -> U)
    (userdata : U) : res U :=
  list_foreach_loop (size h) h list f userdata.

Fixpoint list_find_first_loop (fuel : nat) (h : heap) (p : option loc) (f : A -> bool)
    : res (option loc) :=
  match p, fuel with
  | None, _ => Ok None
  | Some _, O => Err OutOfFuel
  | Some _, S fuel =>
      cell ← deref h p;
      if f (el cell) then Ok p else list_find_first_loop fuel h (next cell) f
  end.

Definition list_find_first (h : heap) (list : option loc) (f : A -> bool)
    : res (option loc) :=
  list_find_first_loop (size h) h list f.

(** The body of the loop of [list_remove] once [p == link]. *)
Definition list_unlink (h : heap) (list : option loc) (link : loc) (prev : option loc)
    : res (option loc * heap) :=
  lcell ← deref h (Some link);
  '(list, h) ←
    match prev with
    | Some q => pcell ← deref h prev; Ok (list, <[q := Cell (next lcell) (el pcell)]> h)
    | None => Ok (next lcell, h)
    end;
  lcell ← deref h (Some link);
  Ok (list, <[link := Cell None (el lcell)]> h).

Fixpoint list_remove_loop (fuel : nat) (h : heap) (list link p prev : option loc)
    : res (option loc * heap) :=
  match p, fuel with
  | None, _ => Ok (list, h)
  | Some _, O => Err OutOfFuel
  | Some l, S fuel =>
      if decide (p = link) then list_unlink h list l prev
      else
        cell ← deref h p;
        list_remove_loop fuel h list link (next cell) p
  end.

Definition list_remove (h : heap) (list link : option loc) : res (option loc * heap) :=
  list_remove_loop (size h) h list link list None.

Fixpoint list_transform_loop (fuel : nat) (h : heap) (dst src : option loc) (f : A -> A)
    : res (option loc * heap) :=
  match src, fuel with
  | None, _ => Ok (dst, h)
  | Some _, O => Err OutOfFuel
  | Some _, S fuel =>
      cell ← deref h src;
      '(dst, h) ← list_push h dst (f (el cell));
      list_transform_loop fuel h dst (next cell) f
  end.

Definition list_transform (h : heap) (src : option loc) (f : A -> A)
    : res (option loc * heap) :=
  list_transform_loop (size h) h None src f.

(** ** The shape of a well-formed list *)

(** A list segment: from [p] the cells at [ls], holding [xs], lead to [q]. *)
Fixpoint is_seg (h : heap) (p : option loc) (ls : list loc) (xs : list A) (q : option loc) : Prop :=
  match ls, xs with
  | [], [] => p = q
  | l :: ls, x :: xs => p = Some l /\ exists r, h !! l = Some (Cell r x) /\ is_seg h r ls xs q
  | _, _ => False
  end.

Definition is_list (h : heap) (p : option loc) (ls : list loc) (xs : list A) : Prop :=
  is_seg h p ls xs None.

(** ** Lemmas on the shape *)

Lemma is_seg_length h p ls xs q : is_seg h p ls xs q -> length ls = length xs.
Proof.
  revert p xs. induction ls as [|l ls IH]; intros p [|x xs]; simpl; try done.
  intros (_ & r & _ & ?). f_equal. eauto.
Qed.

Lemma is_seg_dom h p ls xs q l : is_seg h p ls xs q -> l ∈ ls -> is_Some (h !! l).
Proof.
  revert p xs. induction ls as [|l' ls IH]; intros p [|x xs]; simpl; try done.
  { by intros _ ?%elem_of_nil. }
  intros (_ & r & ? & ?) [->|?]%elem_of_cons; eauto.
Qed.

(** Segments do not depend on the cells outside them. *)
Lemma is_seg_frame h h' p ls xs q :
  (forall l, l ∈ ls -> h' !! l = h !! l) -> is_seg h p ls xs q -> is_seg h' p ls xs q.
Proof.
  revert p xs. induction ls as [|l ls IH]; intros p [|x xs] Hfr; simpl; try done.
  intros (-> & r & Hl & ?). split; [done|]. exists r. split.
  - rw Hfr; [set_solver|done].
  - eapply IH; [|done]. set_solver.
Qed.

Lemma is_seg_app h p ls1 xs1 q ls2 xs2 r :
  is_seg h p ls1 xs1 q -> is_seg h q ls2 xs2 r -> is_seg h p (ls1 ++ ls2) (xs1 ++ xs2) r.
Proof.
  revert p xs1. induction ls1 as [|l ls IH]; intros p [|x xs1]; simpl; try done.
  - by intros ->.
  - intros (-> & q' & ? & ?) ?. naive_solver.
Qed.

Lemma is_seg_app_inv h p ls1 ls2 xs r :
  is_seg h p (ls1 ++ ls2) xs r ->
  exists xs1 xs2 q, xs = xs1 ++ xs2 /\ is_seg h p ls1 xs1 q /\ is_seg h q ls2 xs2 r.
Proof.
  revert p xs. induction ls1 as [|l ls IH]; intros p xs; simpl.
  - intros ?. by exists [], xs, p.
  - destruct xs as [|x xs]; [done|]. intros (-> & q & ? & (xs1&xs2&q'&->&?&?)%IH).
    exists (x :: xs1), xs2, q'. naive_solver.
Qed.

(** The cells a list ending in NULL is made of are determined by its head. *)
Lemma is_list_functional h p ls xs ls' xs' :
  is_list h p ls xs -> is_list h p ls' xs' -> ls = ls' /\ xs = xs'.
Proof.
  unfold is_list. revert p xs ls' xs'.
  induction ls as [|l ls IH]; intros p [|x xs] [|l' ls'] [|x' xs']; simpl; try naive_solver.
  intros (-> & q & Hq & Hs) ([= ->] & q' & Hq' & Hs'). simplify_map_eq.
  destruct (IH _ _ _ _ Hs Hs'). naive_solver.
Qed.

(** A list ending in NULL is acyclic. *)
Lemma is_list_NoDup h p ls xs : is_list h p ls xs -> NoDup ls.
Proof.
  unfold is_list. revert p xs. induction ls as [|l ls IH]; intros p [|x xs]; simpl; try done.
  { intros _. constructor. }
  intros (-> & q & Hl & Hs). constructor; [|eauto].
  intros (ls1 & ls2 & ->)%list_elem_of_split.
  destruct (is_seg_app_inv _ _ _ _ _ _ Hs) as (xs1 & xs2 & r & -> & Hs1 & Hs2).
  assert (r = Some l) as -> by (destruct xs2; naive_solver).
  assert (is_list h (Some l) (l :: ls1 ++ l :: ls2) (x :: xs1 ++ xs2)) as Hcyc.
  { split; [done|]. eauto. }
  destruct (is_list_functional _ _ _ _ _ _ Hcyc Hs2) as [Heq _].
  apply (f_equal length) in Heq. revert Heq. rw /= length_app /=. lia.
Qed.

(** The bound of the loops: a list has no more cells than the heap. *)
Lemma is_list_size h p ls xs : is_list h p ls xs -> (length ls <= size h)%nat.
Proof.
  intros Hl. rw -(size_list_to_set (C:=gset loc) ls); first by eapply is_list_NoDup.
  rw -(size_dom (D:=gset loc)). apply subseteq_size.
  intros l ?%elem_of_list_to_set. apply elem_of_dom. by eapply is_seg_dom.
Qed.

(** ** The loops on well-formed lists *)

Lemma deref_Some h l c : h !! l = Some c -> deref h (Some l) = Ok c.
Proof. by intros H; rw /deref H. Qed.

Lemma list_length_loop_spec fuel h p ls xs n :
  is_list h p ls xs -> (length ls <= fuel)%nat -> n + length xs <= int_max ->
  list_length_loop fuel h p n = Ok (n + length xs).
Proof.
  unfold is_list. revert fuel p xs n.
  induction ls as [|l ls IH]; intros fuel p [|x xs] n; simpl; try done.
  { intros -> _ _. destruct fuel; simpl; f_equal; lia. }
  intros (-> & q & Hl & Hs) Hf Hn. destruct fuel as [|fuel]; [lia|]. simpl.
  case_decide; [lia|]. rw Hl /= (IH fuel q xs); [done|lia|lia|].
  f_equal. lia.
Qed.

Lemma list_free_loop_spec fuel h p ls xs :
  is_list h p ls xs -> (length ls <= fuel)%nat ->
  exists h', list_free_loop fuel h p = Ok h' /\
    forall l, h' !! l = if decide (l ∈ ls) then None else h !! l.
Proof.
  intros Hs. pose proof (is_list_NoDup _ _ _ _ Hs) as Hnd. unfold is_list in Hs.
  revert fuel h p xs Hs. induction ls as [|l ls IH]; intros fuel h p [|x xs]; simpl; try done.
  { intros -> _. exists h. split; [by destruct fuel|]. done. }
  apply NoDup_cons in Hnd as [Hnin Hnd].
  intros (-> & q & Hl & Hs) Hf. destruct fuel as [|fuel]; [lia|]. rw /= /free_cell Hl /=.
  destruct (IH Hnd fuel (delete l h) q xs) as (h' & -> & Hh'); [|lia|].
  { eapply is_seg_frame; [|done]. intros l' ?. rw lookup_delete_ne; [set_solver|done]. }
  exists h'. split; [done|]. intros l'. rw Hh' lookup_delete.
  repeat case_decide; set_solver.
Qed.

Lemma list_push_walk_spec fuel h p ls xs new e :
  is_list h (Some p) ls xs -> h !! new = Some (Cell None e) -> new ∉ ls ->
  (length ls <= fuel)%nat ->
  exists h', list_push_walk fuel h p new = Ok h' /\
    is_list h' (Some p) (ls ++ [new]) (xs ++ [e]) /\
    forall l, l ∉ ls -> h' !! l = h !! l.
Proof.
  intros Hs. pose proof (is_list_NoDup _ _ _ _ Hs) as Hnd. unfold is_list in *.
  revert fuel p xs Hs. induction ls as [|l ls IH]; intros fuel p [|x xs]; simpl; try done.
  apply NoDup_cons in Hnd as [Hnin Hnd].
  intros ([= <-] & q & Hl & Hs) Hnew Hni Hf. apply not_elem_of_cons in Hni as [Hne Hni].
  destruct fuel as [|fuel]; [lia|]. rw /= Hl /=. destruct q as [q|].
  - destruct (IH Hnd fuel q xs Hs) as (h' & -> & Hs' & Hfr); [done|done|lia|].
    exists h'. split; [done|]. split.
    + split; [done|]. exists (Some q). by rw Hfr.
    + intros l' [? ?]%not_elem_of_cons. by apply Hfr.
  - destruct ls as [|? ?]; [|by destruct xs; naive_solver]. destruct xs; [|done].
    eexists. split; [done|]. split.
    + split; [done|]. exists (Some new). rw lookup_insert_eq. split; [done|].
      split; [done|]. exists None. by rw lookup_insert_ne.
    + intros l' ?%not_elem_of_cons. by rw lookup_insert_ne; naive_solver.
Qed.

Lemma list_push_ok h p ls xs e new :
  is_list h p ls xs -> malloc (dom h) = Some new ->
  exists p' h', list_push h p e = Ok (p', h') /\
    is_list h' p' (ls ++ [new]) (xs ++ [e]) /\
    (new ∉ dom h) /\
    (forall l, l ∉ ls -> l <> new -> h' !! l = h !! l).
Proof.
  intros Hs Hm. rw /list_push Hm. pose proof (malloc_fresh _ _ Hm) as Hfr.
  destruct p as [p|].
  - assert (new ∉ ls) as Hni.
    { intros ?. apply Hfr, elem_of_dom. by eapply is_seg_dom. }
    assert (is_list (<[new:=Cell None e]> h) (Some p) ls xs) as Hs1.
    { eapply is_seg_frame; [|done]. intros l ?. rw lookup_insert_ne; [set_solver|done]. }
    destruct (list_push_walk_spec (size (<[new:=Cell None e]> h)) (<[new:=Cell None e]> h)
      p ls xs new e) as (h' & -> & Hs' & Hfr'); [done|by rw lookup_insert_eq|done| |].
    { by eapply is_list_size. }
    do 2 eexists. split; [done|]. split; [done|]. split; [done|].
    intros l ? ?. rw Hfr'; [done|]. by rw lookup_insert_ne.
  - unfold is_list in *. destruct ls; [|by destruct xs; naive_solver]. destruct xs; [|done].
    do 2 eexists. split; [done|]. split.
    + split; [done|]. exists None. by rw lookup_insert_eq.
    + split; [done|]. intros. by rw lookup_insert_ne.
Qed.

Lemma list_foreach_loop_spec {U} fuel h p ls xs (f : A -> U -> U) u :
  is_list h p ls xs -> (length ls <= fuel)%nat ->
  list_foreach_loop fuel h p f u = Ok (foldl (fun u x => f x u) u xs).
Proof.
  unfold is_list. revert fuel p xs u.
  induction ls as [|l ls IH]; intros fuel p [|x xs] u; simpl; try done.
  { intros -> _. by destruct fuel. }
  intros (-> & q & Hl & Hs) Hf. destruct fuel as [|fuel]; [lia|]. rw /= Hl /=.
  apply IH; [done|lia].
Qed.

Lemma list_find_first_loop_spec fuel h p ls xs f :
  is_list h p ls xs -> (length ls <= fuel)%nat ->
  list_find_first_loop fuel h p f = Ok (list_find f xs ≫= fun '(i, _) => ls !! i).
Proof.
  unfold is_list. revert fuel p xs.
  induction ls as [|l ls IH]; intros fuel p [|x xs]; simpl; try done.
  { intros -> _. by destruct fuel. }
  intros (-> & q & Hl & Hs) Hf. destruct fuel as [|fuel]; [lia|]. rw /= Hl /=.
  case_decide as Hx; rw Is_true_true in Hx || idtac.
  - destruct (f x); done.
  - destruct (f x); [done|]. rw (IH fuel q xs); [done|lia|].
    by destruct (list_find f xs) as [[i y]|].
Qed.

(** ** Removal *)

Lemma list_unlink_spec h p ls1 xs1 l x q ls2 xs2 :
  is_seg h p ls1 xs1 (Some l) -> h !! l = Some (Cell q x) -> is_list h q ls2 xs2 ->
  NoDup (ls1 ++ l :: ls2) ->
  exists p' h', list_unlink h p l (last ls1) = Ok (p', h') /\
    is_list h' p' (ls1 ++ ls2) (xs1 ++ xs2) /\
    h' !! l = Some (Cell None x) /\
    (forall l', l' ∉ ls1 -> l' <> l -> h' !! l' = h !! l').
Proof.
  intros Hs1 Hl Hs2 Hnd. rw /list_unlink (deref_Some _ _ _ Hl) /=.
  apply NoDup_app in Hnd as (Hnd1 & Hdisj & [Hl2 _]%NoDup_cons).
  destruct ls1 as [|r ls1 _] using rev_ind.
  - simpl. destruct xs1; [|done]. rw Hl /=. do 2 eexists. split; [done|]. split.
    { eapply is_seg_frame; [|done]. intros l' ?. rw lookup_insert_ne; [set_solver|done]. }
    rw lookup_insert_eq. split; [done|]. intros. by rw lookup_insert_ne.
  - apply is_seg_app_inv in Hs1 as (xsa & xsb & t & -> & Hsa & Hsb).
    destruct xsb as [|y [|? ?]]; simpl in Hsb; try naive_solver.
    destruct Hsb as (-> & ? & Hr & ->).
    assert (r <> l) as Hne by set_solver.
    apply NoDup_app in Hnd1 as (_ & Hra & _).
    rw last_snoc /= Hr /= lookup_insert_ne // Hl /=. do 2 eexists. split; [done|]. split.
    + eapply is_seg_app; [eapply is_seg_app; [eapply is_seg_frame; [|exact Hsa]|]|].
      * intros l' ?. rw lookup_insert_ne; [set_solver|]. rw lookup_insert_ne; [set_solver|done].
      * split; [done|]. exists q. rw lookup_insert_ne // lookup_insert_eq. done.
      * eapply is_seg_frame; [|exact Hs2].
        intros l' ?. rw lookup_insert_ne; [set_solver|]. rw lookup_insert_ne; [set_solver|done].
    + rw lookup_insert_eq. split; [done|]. intros l' ? ?.
      rw lookup_insert_ne; [done|]. rw lookup_insert_ne; [set_solver|done].
Qed.

Lemma list_remove_loop_spec fuel h p lsa xsa cur ls1 xs1 l x q ls2 xs2 :
  is_seg h p lsa xsa cur -> is_seg h cur ls1 xs1 (Some l) ->
  h !! l = Some (Cell q x) -> is_list h q ls2 xs2 ->
  NoDup (lsa ++ ls1 ++ l :: ls2) -> (length ls1 < fuel)%nat ->
  exists p' h', list_remove_loop fuel h p (Some l) cur (last lsa) = Ok (p', h') /\
    is_list h' p' (lsa ++ ls1 ++ ls2) (xsa ++ xs1 ++ xs2) /\
    h' !! l = Some (Cell None x) /\
    (forall l', l' ∉ lsa ++ ls1 -> l' <> l -> h' !! l' = h !! l').
Proof.
  revert fuel lsa xsa cur xs1. induction ls1 as [|r ls1 IH]; intros fuel lsa xsa cur [|y xs1];
    simpl; try done; intros Hsa Hs1 Hl Hs2 Hnd Hf; (destruct fuel as [|fuel]; [lia|]); simpl.
  - subst cur. rw decide_True //. destruct (list_unlink_spec h p lsa xsa l x q ls2 xs2)
      as (p' & h' & -> & ? & ? & Hfr); [done..|]. do 2 eexists.
    split; [done|]. split; [done|]. split; [done|]. intros. apply Hfr; set_solver.
  - destruct Hs1 as (-> & t & Hr & Hs1). rw decide_False.
    { intros [= ->]. apply NoDup_app in Hnd as (_ & _ & [? _]%NoDup_cons). set_solver. }
    rw /= Hr /=. destruct (IH fuel (lsa ++ [r]) (xsa ++ [y]) t xs1)
      as (p' & h' & Heq & Hs' & Hl' & Hfr); [|done|done|done| |lia|].
    + eapply is_seg_app; [done|]. split; [done|]. exists t. split; [done|]. done.
    + by rw -assoc_L.
    + rw last_snoc in Heq. exists p', h'. split; [done|]. rw -!assoc_L in Hs'.
      split; [done|]. split; [done|]. intros. apply Hfr; set_solver.
Qed.

Lemma list_remove_loop_absent fuel h p link cur prev ls xs :
  is_list h cur ls xs -> (forall l, link = Some l -> l ∉ ls) -> (length ls <= fuel)%nat ->
  list_remove_loop fuel h p link cur prev = Ok (p, h).
Proof.
  unfold is_list. revert fuel cur prev xs.
  induction ls as [|l ls IH]; intros fuel cur prev [|x xs]; simpl; try done.
  { intros -> _ _. by destruct fuel. }
  intros (-> & q & Hl & Hs) Hni Hf. destruct fuel as [|fuel]; [lia|]. simpl.
  rw decide_False; [intros <-; set_solver|]. rw Hl /=.
  apply IH with xs; [done|set_solver|lia].
Qed.

(** ** Copying *)

Lemma list_transform_loop_spec fuel h dst ms ys src ls xs f :
  (forall X, malloc X <> None) ->
  is_list h src ls xs -> is_list h dst ms ys -> ls ## ms -> (length ls <= fuel)%nat ->
  exists dst' h' ms', list_transform_loop fuel h dst src f = Ok (dst', h') /\
    is_list h' dst' (ms ++ ms') (ys ++ (f <$> xs)) /\
    (forall l, l ∈ ms' -> l ∉ dom h) /\
    (forall l, l ∈ dom h -> l ∉ ms -> h' !! l = h !! l).
Proof.
  intros Hmal. revert fuel h dst ms ys src xs.
  induction ls as [|l ls IH]; intros fuel h dst ms ys src [|x xs] Hs Hd Hdisj Hf;
    try done; unfold is_list in Hs; simpl in Hs.
  { subst src. exists dst, h, []. rw !app_nil_r. split; [by destruct fuel|].
    split; [done|]. set_solver. }
  destruct Hs as (-> & q & Hl & Hs). destruct fuel as [|fuel]; simpl in Hf; [lia|].
  rw /= Hl /=. destruct (malloc (dom h)) as [new|] eqn:Hm; [|by destruct (Hmal (dom h))].
  destruct (list_push_ok h dst ms ys (f x) new Hd Hm) as (dst1 & h1 & -> & Hd1 & Hnew & Hfr1).
  assert (is_list h1 q ls xs) as Hs1.
  { eapply is_seg_frame; [|exact Hs]. intros l' Hl'. apply Hfr1; [set_solver|].
    intros ->. apply Hnew, elem_of_dom. eapply is_seg_dom; [exact Hs|done]. }
  assert (ls ## ms ++ [new]) as Hdisj1.
  { intros l' Hl' [?|Heq%list_elem_of_singleton]%elem_of_app; [set_solver|].
    subst l'. apply Hnew, elem_of_dom. eapply is_seg_dom; [exact Hs|done]. }
  destruct (IH fuel h1 dst1 (ms ++ [new]) (ys ++ [f x]) q xs Hs1 Hd1 Hdisj1)
    as (dst' & h' & ms' & Heq & Hd' & Hfresh & Hfr'); [lia|].
  assert (forall l', l' ∈ dom h -> l' ∈ dom h1) as Hdom.
  { intros l' Hl'. destruct (decide (l' ∈ ms)).
    - apply elem_of_dom. eapply is_seg_dom; [exact Hd1|]. set_solver.
    - apply elem_of_dom. rw Hfr1 //; [by intros ->|]. by apply elem_of_dom. }
  exists dst', h', (new :: ms'). split; [done|]. split; [|split].
  - rw -!assoc_L in Hd'. done.
  - intros l' [->|?]%elem_of_cons; [done|]. intros ?. by eapply Hfresh, Hdom.
  - intros l' Hl' Hni. rw Hfr'; [by apply Hdom| |].
    + intros [?|Hl2%list_elem_of_singleton]%elem_of_app; [done|]. by subst l'.
    + apply Hfr1; [done|]. by intros ->.
Qed.

(** ** Correctness of the operations *)

(** On a well-formed list [list_push] appends one element at the end, in one
    freshly allocated cell, and touches no cell outside the list; when malloc
    fails it returns NULL and leaves the heap as it was. *)
Theorem list_push_spec h p ls xs e :
  is_list h p ls xs ->
  match malloc (dom h) with
  | None => list_push h p e = Ok (None, h)
  | Some new =>
      exists p' h', list_push h p e = Ok (p', h') /\
        is_list h' p' (ls ++ [new]) (xs ++ [e]) /\
        (new ∉ dom h) /\
        (forall l, l ∉ ls -> l <> new -> h' !! l = h !! l)
  end.
Proof.
  intros Hs. destruct (malloc (dom h)) as [new|] eqn:Hm.
  - by apply list_push_ok.
  - by rw /list_push Hm.
Qed.

(** [list_remove] unlinks exactly the given cell: the other cells keep their
    order and elements, the unlinked cell stays allocated with a null [next];
    a link that is not in the list leaves list and heap unchanged. *)
Theorem list_remove_spec h p ls xs link :
  is_list h p ls xs ->
  match link with
  | Some l => forall i, ls !! i = Some l ->
      exists p' h' x, list_remove h p link = Ok (p', h') /\ xs !! i = Some x /\
        is_list h' p' (delete i ls) (delete i xs) /\
        h' !! l = Some (Cell None x) /\
        (forall l', l' ∉ ls -> h' !! l' = h !! l')
  | None => True
  end /\
  ((forall l, link = Some l -> l ∉ ls) -> list_remove h p link = Ok (p, h)).
Proof.
  intros Hs. split; last first.
  { intros Hni. eapply list_remove_loop_absent; [done|done|by eapply is_list_size]. }
  destruct link as [l|]; [|done]. intros i Hi. pose proof (is_list_NoDup _ _ _ _ Hs) as Hnd.
  pose proof (is_list_size _ _ _ _ Hs) as Hsz.
  assert (length (take i ls) = i) as Hlen.
  { apply length_take_le. apply lookup_lt_Some in Hi. lia. }
  rw -(take_drop_middle _ _ _ Hi) in Hs Hnd Hsz.
  unfold is_list in Hs. apply is_seg_app_inv in Hs as (xs1 & xs2 & r & -> & Hs1 & Hs2).
  destruct xs2 as [|x xs2]; [done|]. destruct Hs2 as (-> & q & Hl & Hs2).
  pose proof (is_seg_length _ _ _ _ _ Hs1) as Hlen1.
  destruct (list_remove_loop_spec (size h) h p [] [] p (take i ls) xs1 l x q
    (drop (S i) ls) xs2) as (p' & h' & Heq & Hs' & Hl' & Hfr); [done..| |].
  { rw length_app /= Hlen in Hsz. rw Hlen. lia. }
  assert (xs1 ++ xs2 = delete i (xs1 ++ x :: xs2)) as Hdel.
  { rw delete_take_drop take_app_length' ?drop_app_ge; [lia..|].
    by replace (S i - length xs1)%nat with 1%nat by lia. }
  exists p', h', x. split; [done|]. split; [rw lookup_app_r; [lia|]|].
  { by replace (i - length xs1)%nat with 0%nat by lia. }
  rw -Hdel delete_take_drop. split; [done|]. split; [done|].
  intros l' Hl2. apply Hfr.
  - simpl. intros Hin. apply Hl2. by eapply elem_of_take in Hin as (? & ?%list_elem_of_lookup_2 & _).
  - intros ->. apply Hl2. by eapply list_elem_of_lookup_2.
Qed.

(** [list_free] releases every cell of the list once and nothing else. *)
Theorem list_free_spec h p ls xs :
  is_list h p ls xs ->
  exists h', list_free h p = Ok h' /\
    forall l, h' !! l = if decide (l ∈ ls) then None else h !! l.
Proof. intros Hs. eapply list_free_loop_spec; [done|by eapply is_list_size]. Qed.

(** With an allocator that does not fail, [list_transform] builds, in fresh
    cells, the list of the images in order, and leaves every cell that was
    allocated before (the source list among them) as it was. *)
Theorem list_transform_spec h src ls xs f :
  (forall X, malloc X <> None) -> is_list h src ls xs ->
  exists dst h' ms, list_transform h src f = Ok (dst, h') /\
    is_list h' dst ms (f <$> xs) /\ is_list h' src ls xs /\
    (forall l, l ∈ ms -> l ∉ dom h) /\
    (forall l, l ∈ dom h -> h' !! l = h !! l).
Proof.
  intros Hmal Hs.
  destruct (list_transform_loop_spec (size h) h None [] [] src ls xs f)
    as (dst & h' & ms & Heq & Hd & Hfresh & Hfr);
    [done|done|done|set_solver|by eapply is_list_size|].
  exists dst, h', ms. split; [done|]. split; [done|]. split; [|set_solver].
  eapply is_seg_frame; [|done]. intros l Hl. apply Hfr; [|set_solver].
  apply elem_of_dom. by eapply is_seg_dom.
Qed.

(** The read-only traversals agree with their list counterparts:
    [list_length] counts the cells (while an [int] can hold the count),
    [list_foreach] folds the callback over the elements from first to last, and
    [list_find_first] returns the first cell whose element passes the test. *)
Theorem list_traversals_spec {U} h p ls xs (f : A -> bool) (g : A -> U -> U) u :
  is_list h p ls xs -> length xs <= int_max ->
  list_length h p = Ok (length xs : Z) /\
  list_foreach_byval h p g u = Ok (foldl (fun u x => g x u) u xs) /\
  list_find_first h p f = Ok (list_find f xs ≫= fun '(i, _) => ls !! i).
Proof.
  intros Hs Hlen. pose proof (is_list_size _ _ _ _ Hs). split; [|split].
  - unfold list_length. by erewrite list_length_loop_spec.
  - by eapply list_foreach_loop_spec.
  - by eapply list_find_first_loop_spec.
Qed.

End list_ops.

(** ** Concrete runs *)

Definition demo_heap : gmap loc (list_t Z) :=
  <[1%positive := Cell (Some 2%positive) 10]> (<[2%positive := Cell None 20]> ∅).

Lemma demo_heap_list : is_list demo_heap (Some 1%positive) [1%positive; 2%positive] [10; 20].
Proof. split; [done|]. exists (Some 2%positive). split; [done|]. split; [done|]. by exists None. Qed.

Lemma list_push_spec_witness :
  exists p' h', list_push (alloc:=total_allocator) demo_heap (Some 1%positive) 30 = Ok (p', h') /\
    is_list h' p' [1%positive; 2%positive; 3%positive] [10; 20; 30].
Proof.
  pose proof (list_push_spec (alloc:=total_allocator) demo_heap _ _ _ 30 demo_heap_list)
    as (p' & h' & H1 & H2 & _).
  exists p', h'. split; [exact H1|exact H2].
Defined.

Lemma list_remove_spec_witness :
  exists p' h', list_remove demo_heap (Some 1%positive) (Some 1%positive) = Ok (p', h') /\
    is_list h' p' [2%positive] [20].
Proof.
  destruct (list_remove_spec demo_heap _ _ _ (Some 1%positive) demo_heap_list) as [H _].
  destruct (H 0%nat eq_refl) as (p' & h' & x & H1 & _ & H2 & _).
  exists p', h'. split; [exact H1|exact H2].
Defined.

Lemma list_free_spec_witness :
  exists h', list_free demo_heap (Some 1%positive) = Ok h' /\ h' !! 2%positive = None.
Proof.
  destruct (list_free_spec demo_heap _ _ _ demo_heap_list) as (h' & H1 & H2).
  exists h'. split; [exact H1|]. by rw H2.
Defined.

Lemma list_transform_spec_witness :
  exists dst h' ms,
    list_transform (alloc:=total_allocator) demo_heap (Some 1%positive) (Z.add 1) = Ok (dst, h') /\
    is_list h' dst ms [11; 21].
Proof.
  destruct (list_transform_spec (alloc:=total_allocator) demo_heap _ _ _ (Z.add 1)
    (fun X => ltac:(discriminate)) demo_heap_list) as (dst & h' & ms & H1 & H2 & _).
  exists dst, h', ms. split; [exact H1|exact H2].
Defined.

Lemma list_traversals_spec_witness :
  list_length demo_heap (Some 1%positive) = Ok 2 /\
  list_find_first demo_heap (Some 1%positive) (Z.eqb 20) = Ok (Some 2%positive).
Proof.
  destruct (list_traversals_spec demo_heap _ _ _ (Z.eqb 20) Z.add 0 demo_heap_list)
    as (H1 & _ & H3); [done|].
  split; [exact H1|exact H3].
Defined.
