(* ===== verification/Libc.v ===== *)
(** Libc: the parts of the C library the sources use on strings.

    Searching and comparing null-terminated strings, and the conversions of
    printf() the sources need: [%d], [%x], [%s] and [%c]. Strings are the lists
    of their characters without the terminating null. *)

From Corelib Require Import ssreflect.
From stdpp Require Import base list numbers gmap strings.
From Stdlib Require Import ZArith Lia.
From S2P Require Import Prelude.

(** ** <string.h> *)

(** [strcmp(a, b) == 0]. *)
Definition streq (a b : cstring) : bool := bool_decide (a = b).

(** [strncmp(a, b, n) == 0]. *)
Definition strneq (a b : cstring) (n : nat) : bool := bool_decide (take n a = take n b).

(** [strchr(s, ch) - s], if [ch] occurs. *)
Definition strchr (s : cstring) (ch : char) : option nat := fst <$> list_find (eq ch) s.

(** [strrchr(s, ch) - s], if [ch] occurs. *)
Fixpoint strrchr (s : cstring) (ch : char) : option nat :=
  match s with
  | [] => None
  | x :: s =>
      match strrchr s ch with
      | Some i => Some (S i)
      | None => if decide (x = ch) then Some 0%nat else None
      end
  end.

(** ** <stdio.h>: printf() conversions *)

Definition digit_char (d : Z) : char := if decide (d < 10) then 48 + d else 87 + d.

Fixpoint digits_loop (fuel : nat) (base n : Z) (acc : cstring) : cstring :=
  match fuel with
  | O => acc
  | S fuel =>
      let acc := digit_char (n mod base) :: acc in
      if decide (n / base = 0) then acc else digits_loop fuel base (n / base) acc
  end.

(** The digits of [n >= 0]; a number of [k] bits has at most [k] digits. *)
Definition digits (base n : Z) : cstring := digits_loop (S (Z.to_nat (Z.log2 n))) base n [].

Definition fmt_d (z : Z) : cstring :=
  if decide (z < 0) then 45 :: digits 10 (- z) else digits 10 z.

(** [%x] reads an unsigned int. *)
Definition fmt_x (z : Z) : cstring := digits 16 (z mod 2 ^ 32).

Inductive fmt_arg :=
| AInt (z : Z)
| AStr (s : cstring)
| AChr (ch : char)
| APtr (p : Z).

(** The text [fmt] and its arguments denote; [None] when they do not fit. *)
Fixpoint vformat (fmt : cstring) (args : list fmt_arg) {struct fmt} : option cstring :=
  match fmt with
  | [] => Some []
  | x :: fmt' =>
      if decide (x = 37) then
        match fmt', args with
        | conv :: fmt', arg :: args =>
            out ← (if decide (conv = 100) then match arg with AInt z => Some (fmt_d z) | _ => None end
                   else if decide (conv = 115) then match arg with AStr s => Some s | _ => None end
                   else if decide (conv = 99) then match arg with AChr ch => Some [ch] | _ => None end
                   else if decide (conv = 120) then match arg with APtr p => Some (fmt_x p) | _ => None end
                   else None);
            (app out) <$> vformat fmt' args
        | _, _ => None
        end
      else (cons x) <$> vformat fmt' args
  end.

(** ** Reading a decimal number back *)

Definition digit_val (ch : char) : Z := if decide (ch < 58) then ch - 48 else ch - 87.
Definition undigits (base : Z) (s : cstring) : Z := foldl (fun n ch => n * base + digit_val ch) 0 s.

(** What [atoi()] reads from a decimal numeral. *)
Definition read_d (s : cstring) : Z :=
  match s with
  | 45 :: s => - undigits 10 s
  | _ => undigits 10 s
  end.

Lemma digit_val_char d : 0 <= d < 16 -> digit_val (digit_char d) = d.
Proof. intros ?. rw /digit_val /digit_char. repeat case_decide; lia. Qed.

Lemma undigits_app base s1 s2 n :
  foldl (fun n ch => n * base + digit_val ch) n (s1 ++ s2) =
  foldl (fun n ch => n * base + digit_val ch) (foldl (fun n ch => n * base + digit_val ch) n s1) s2.
Proof. apply foldl_app. Qed.

Lemma digits_loop_acc fuel base n acc :
  digits_loop fuel base n acc = digits_loop fuel base n [] ++ acc.
Proof.
  revert n acc. induction fuel as [|fuel IH]; intros n acc; simpl; [done|].
  case_decide; [done|]. rw IH (IH _ [_]) -assoc_L. done.
Qed.

Lemma digits_loop_val (fuel : nat) base n :
  2 <= base <= 16 -> 0 <= n < 2 ^ fuel -> undigits base (digits_loop fuel base n []) = n.
Proof.
  intros Hb. revert n. induction fuel as [|fuel IH]; intros n Hn.
  { assert (n = 0) as -> by (simpl in Hn; lia). done. }
  assert (0 <= n mod base < base) by (apply Z.mod_pos_bound; lia).
  pose proof (Z.div_mod n base ltac:(lia)).
  assert (0 <= n / base) by (apply Z.div_pos; lia).
  simpl. case_decide as Hq.
  { unfold undigits. simpl. rw digit_val_char; lia. }
  rw digits_loop_acc /undigits undigits_app.
  change (foldl _ 0 (digits_loop fuel base (n / base) []))
    with (undigits base (digits_loop fuel base (n / base) [])).
  rw IH /=; [|rw digit_val_char; lia].
  split; [done|]. apply Z.div_lt_upper_bound; [lia|].
  replace (2 ^ S fuel) with (2 * 2 ^ fuel) in Hn by (rw Nat2Z.inj_succ Z.pow_succ_r; lia).
  assert (2 * 2 ^ fuel <= base * 2 ^ fuel) by (apply Z.mul_le_mono_nonneg_r; lia). lia.
Qed.

Lemma digits_val base n : 2 <= base <= 16 -> 0 <= n -> undigits base (digits base n) = n.
Proof.
  intros Hb Hn. apply digits_loop_val; [done|]. split; [done|].
  rw Nat2Z.inj_succ Z2Nat.id; [apply Z.log2_nonneg|].
  destruct (decide (n = 0)) as [->|]; [simpl; lia|]. apply Z.log2_spec. lia.
Qed.

Lemma digits_loop_chars fuel base n acc :
  2 <= base <= 16 -> Forall (fun ch => 48 <= ch <= 102) acc ->
  Forall (fun ch => 48 <= ch <= 102) (digits_loop fuel base n acc).
Proof.
  intros Hb. revert n acc. induction fuel as [|fuel IH]; intros n acc Hacc; simpl; [done|].
  assert (Forall (fun ch => 48 <= ch <= 102) (digit_char (n mod base) :: acc)).
  { constructor; [|done]. assert (0 <= n mod base < base) by (apply Z.mod_pos_bound; lia).
    unfold digit_char. case_decide; lia. }
  case_decide; auto.
Qed.

Lemma digits_head base n : 2 <= base <= 16 ->
  exists ch s, digits base n = ch :: s /\ 48 <= ch.
Proof.
  intros Hb. pose proof (digits_loop_chars (S (Z.to_nat (Z.log2 n))) base n [] Hb ltac:(constructor)).
  unfold digits. destruct (digits_loop _ _ _ _) as [|ch s] eqn:Heq.
  - exfalso. revert Heq. simpl. case_decide; [done|]. rw digits_loop_acc. by destruct digits_loop.
  - inv H. exists ch, s. split; [done|lia].
Qed.

(** [%d] is injective: the printed number reads back. *)
Lemma fmt_d_read z : read_d (fmt_d z) = z.
Proof.
  unfold fmt_d. case_decide.
  - simpl. rw digits_val; lia.
  - destruct (digits_head 10 z) as (ch & s & Heq & ?); [lia|].
    assert (read_d (digits 10 z) = undigits 10 (digits 10 z)) as ->.
    { rw Heq. unfold read_d. repeat case_match; lia || done. }
    apply digits_val; lia.
Qed.

Lemma fmt_d_inj z1 z2 : fmt_d z1 = fmt_d z2 -> z1 = z2.
Proof. intros Heq. by rw -(fmt_d_read z1) -(fmt_d_read z2) Heq. Qed.

(** The numeral of an [int] is short and contains no null. *)
Lemma digits_loop_length fuel base n acc :
  (length (digits_loop fuel base n acc) <= fuel + length acc)%nat.
Proof.
  revert n acc. induction fuel as [|fuel IH]; intros n acc; simpl; [done|].
  case_decide; simpl; [lia|]. etrans; [apply IH|]. simpl. lia.
Qed.

Lemma digits_int n : 0 <= n <= 2 ^ 31 -> (length (digits 10 n) <= 32)%nat.
Proof.
  intros ?. rw /digits. etrans; [apply digits_loop_length|]. simpl.
  assert (Z.log2 n <= 31) by (change 31 with (Z.log2 (2 ^ 31)); apply Z.log2_le_mono; lia). lia.
Qed.

Lemma fmt_d_length z : int_min <= z <= int_max -> (length (fmt_d z) <= 33)%nat.
Proof.
  rw /int_min /int_max => ?. rw /fmt_d. case_decide; simpl.
  - pose proof (digits_int (- z)). lia.
  - pose proof (digits_int z). lia.
Qed.

Lemma fmt_d_no_nul z : NUL ∉ fmt_d z.
Proof.
  assert (forall n, NUL ∉ digits 10 n) as Hd.
  { intros n Hin. pose proof (digits_loop_chars (S (Z.to_nat (Z.log2 n))) 10 n [] ltac:(lia) ltac:(constructor)) as Hf.
    apply (proj1 (Forall_forall _ _) Hf) in Hin. rw /NUL in Hin. lia. }
  rw /fmt_d. case_decide; [|done]. rw not_elem_of_cons. split; [by rw /NUL|done].
Qed.

Lemma vformat_d z : vformat (lit "%d") [AInt z] = Some (fmt_d z).
Proof. by rw /= app_nil_r. Qed.
