(* ===== verification/Buf.v ===== *)
(** Buf: the growable byte buffers of src/src/buf.c.

    A buffer keeps its storage, the size allocated for it, the length of its
    contents and a read position. The storage is modelled byte by byte: a byte
    is [None] while it is indeterminate, every access is checked against the
    size of the block, and sizes are 64-bit numbers that wrap around. So a
    result [Ok] of an operation says that it stays inside its block and reads
    only bytes it has written, and the theorems give the conditions under which
    that is the case: the contents stay below [buf_limit]. *)

From Corelib Require Import ssreflect.
From stdpp Require Import base list numbers gmap strings.
From Stdlib Require Import ZArith Lia.
From S2P Require Import Prelude Libc.

Open Scope c_scope.

(** ** Storage *)

Abbreviation byte := (option Z).

(** [buf->buf]: the static [buf_initial], NULL, or a block of the heap. *)
Inductive block :=
| BInitial
| BNull
| BHeap (bytes : list byte).

(** [struct buf_t]. *)
Record buf_t := MkBuf {
  bbuf : block;
  balloc : Z;
  blen : Z;
  bpos : Z
}.

(** [blk[i] = v]. *)
Definition store (blk : block) (i : Z) (v : char) : res block :=
  match blk with
  | BNull => Err NullDeref
  | BInitial =>
      if decide (i = 0) then if decide (v = NUL) then Ok BInitial else Err StaticClobber
      else Err OutOfBounds
  | BHeap d =>
      if decide (0 <= i < length d) then Ok (BHeap (<[Z.to_nat i := Some v]> d))
      else Err OutOfBounds
  end.

(** [blk[i]]. *)
Definition load (blk : block) (i : Z) : res char :=
  match blk with
  | BNull => Err NullDeref
  | BInitial => if decide (i = 0) then Ok NUL else Err OutOfBounds
  | BHeap d =>
      if decide (0 <= i < length d) then
        match d !! Z.to_nat i with Some (Some v) => Ok v | _ => Err UninitRead end
      else Err OutOfBounds
  end.

(** The [n] bytes at offset [i], for memcpy() and memmove(). *)
Definition load_range (blk : block) (i n : Z) : res (list byte) :=
  if decide (n = 0) then Ok []
  else match blk with
  | BNull => Err NullDeref
  | BInitial => if decide (i = 0 /\ n = 1) then Ok [Some NUL] else Err OutOfBounds
  | BHeap d =>
      if decide (0 <= i /\ 0 <= n /\ i + n <= length d)
      then Ok (take (Z.to_nat n) (drop (Z.to_nat i) d)) else Err OutOfBounds
  end.

Definition store_range (blk : block) (i : Z) (bs : list byte) : res block :=
  if decide (bs = []) then Ok blk
  else match blk with
  | BNull => Err NullDeref
  | BInitial => Err StaticClobber
  | BHeap d =>
      if decide (0 <= i /\ i + length bs <= length d)
      then Ok (BHeap (take (Z.to_nat i) d ++ bs ++ drop (Z.to_nat i + length bs) d))
      else Err OutOfBounds
  end.

(** [realloc(p, n)]: the old bytes are kept, the new ones are indeterminate; an
    object larger than PTRDIFF_MAX cannot be allocated. *)
Definition ptrdiff_max : Z := 2 ^ 63 - 1.

Definition realloc (blk : block) (n : Z) : res block :=
  match blk with
  | BInitial => Err DoubleFree
  | BNull => if decide (n <= ptrdiff_max) then Ok (BHeap (replicate (Z.to_nat n) None)) else Ok BNull
  | BHeap d =>
      if decide (n <= ptrdiff_max)
      then Ok (BHeap (take (Z.to_nat n) d ++ replicate (Z.to_nat n - length d) None))
      else Ok BNull
  end.

(** ** Allocation: [buf_init], [buf_grow], [buf_release], [buf_detach] *)

Definition GROW_N (n : Z) : Z := ((n +z 16) *z 3) / 2.

(** The macro [GROW(p, want, cur)]. *)
Definition GROW (p : block) (want cur : Z) : res (block * Z) :=
  if decide (want > cur) then
    let cur := if decide (GROW_N cur < want) then want else GROW_N cur in
    p ← realloc p cur;
    Ok (p, cur)
  else Ok (p, cur).

Definition buf_grow (buf : buf_t) (extra : Z) : res buf_t :=
  let new_buf := bool_decide (balloc buf = 0) in
  let p := if new_buf then BNull else bbuf buf in
  '(p, cur) ← GROW p (blen buf +z extra +z 1) (balloc buf);
  p ← (if new_buf then store p 0 NUL else Ok p);
  Ok (MkBuf p cur (blen buf) (bpos buf)).

Definition buf_init (hint : Z) : res buf_t :=
  let buf := MkBuf BInitial 0 0 0 in
  if decide (hint <> 0) then buf_grow buf hint else Ok buf.

Definition buf_release (buf : buf_t) : res buf_t :=
  if decide (balloc buf <> 0) then
    match bbuf buf with BInitial => Err DoubleFree | _ => buf_init 0 end
  else Ok buf.

(** The detached block, the length stored through [len], and the buffer. *)
Definition buf_detach (buf : buf_t) : res (block * Z * buf_t) :=
  buf ← buf_grow buf 0;
  buf' ← buf_init 0;
  Ok (bbuf buf, blen buf, buf').

(** ** Contents *)

Definition buf_setlen (buf : buf_t) (len : Z) : res buf_t :=
  _ ← c_assert (if decide (balloc buf <> 0) then bool_decide (len < balloc buf)
                else bool_decide (len = 0));
  p ← store (bbuf buf) len NUL;
  Ok (MkBuf p (balloc buf) len (if decide (bpos buf > len) then len else bpos buf)).

Definition buf_avail (buf : buf_t) : Z :=
  if decide (balloc buf <> 0) then balloc buf -z blen buf -z 1 else 0.

Definition buf_addch (buf : buf_t) (ch : Z) : res buf_t :=
  buf ← buf_grow buf 1;
  p ← store (bbuf buf) (blen buf) (to_char ch);
  let len := blen buf +z 1 in
  p ← store p len NUL;
  Ok (MkBuf p (balloc buf) len (bpos buf)).

(** [data] is the object pointed to (NULL: [None]), [len] the number of bytes to add. *)
Definition buf_add (buf : buf_t) (data : option (list char)) (len : Z) : res buf_t :=
  match data with
  | None => Ok buf
  | Some d =>
      buf ← buf_grow buf len;
      if decide (len <= length d) then
        p ← store_range (bbuf buf) (blen buf) (Some <$> take (Z.to_nat len) d);
        buf_setlen (MkBuf p (balloc buf) (blen buf) (bpos buf)) (blen buf +z len)
      else Err OutOfBounds
  end.

Definition buf_addstr (buf : buf_t) (s : cstring) : res buf_t :=
  buf_add buf (Some s) (length s).

(** [vsnprintf(blk + off, size, ...)] of a text [out]: what it stores and returns. *)
Definition vsnprintf (blk : block) (off size : Z) (out : cstring) : res (block * Z) :=
  blk ← (if decide (size = 0) then Ok blk
         else store_range blk off
                ((Some <$> take (Z.to_nat (size - 1)) out) ++ [Some NUL]));
  Ok (blk, if decide (length out <= int_max) then length out : Z else -1).

Definition buf_vaddf (buf : buf_t) (fmt : cstring) (ap : list fmt_arg) : res buf_t :=
  match vformat fmt ap with
  | None => Err OutOfBounds   (* the arguments do not match the format *)
  | Some out =>
      buf ← (if decide (buf_avail buf = 0) then buf_grow buf 64 else Ok buf);
      '(p, n) ← vsnprintf (bbuf buf) (blen buf) (balloc buf -z blen buf) out;
      let buf := MkBuf p (balloc buf) (blen buf) (bpos buf) in
      _ ← c_assert (bool_decide (n >= 0));
      '(buf, n) ←
        (if decide (n > buf_avail buf) then
           buf ← buf_grow buf n;
           '(p, n) ← vsnprintf (bbuf buf) (blen buf) (balloc buf -z blen buf) out;
           let buf := MkBuf p (balloc buf) (blen buf) (bpos buf) in
           _ ← c_assert (bool_decide (n <= buf_avail buf));
           Ok (buf, n)
         else Ok (buf, n));
      buf_setlen buf (blen buf +z n)
  end.

Definition buf_addf (buf : buf_t) (fmt : cstring) (ap : list fmt_arg) : res buf_t :=
  buf_vaddf buf fmt ap.

(** ** Reading from streams and descriptors *)

(** A stream is the bytes it has left; [fread] is short only at its end. *)
Definition buf_fread (buf : buf_t) (size : Z) (f : list char) : res (buf_t * Z * list char) :=
  let oldalloc := balloc buf in
  buf ← buf_grow buf size;
  let got := take (Z.to_nat size) f in
  p ← store_range (bbuf buf) (blen buf) (Some <$> got);
  let buf := MkBuf p (balloc buf) (blen buf) (bpos buf) in
  buf ← (if decide (length got > 0) then buf_setlen buf (blen buf +z length got)
         else if decide (oldalloc = 0) then buf_release buf else Ok buf);
  Ok (buf, length got : Z, drop (Z.to_nat size) f).

(** What successive calls of read(2) on a descriptor will meet: bytes that are
    ready, an interruption (EAGAIN or EINTR), or an error. No event is the end
    of the file. *)
Inductive read_event :=
| RdData (bs : list char)
| RdRetry
| RdFail.

(** One return of [read(fd, buf, count)]: [Some bs] or -1. *)
Fixpoint try_read (fd : list read_event) (count : nat) : option (list char) * list read_event :=
  match fd with
  | [] => (Some [], [])
  | RdRetry :: fd => try_read fd count
  | RdFail :: fd => (None, fd)
  | RdData bs :: fd =>
      (Some (take count bs),
       if decide (length bs <= count)%nat then fd else RdData (drop count bs) :: fd)
  end.

Fixpoint buf_read_loop (fuel : nat) (buf : buf_t) (oldalloc oldlen : Z) (fd : list read_event)
    : res (buf_t * Z * list read_event) :=
  match fuel with
  | O => Err OutOfFuel
  | S fuel =>
      match try_read fd (Z.to_nat (buf_avail buf)) with
      | (Some [], fd) =>
          p ← store (bbuf buf) (blen buf) NUL;
          Ok (MkBuf p (balloc buf) (blen buf) (bpos buf), to_int (blen buf -z oldlen), fd)
      | (None, fd) =>
          buf ← (if decide (oldalloc <> 0) then buf_setlen buf oldlen else buf_release buf);
          Ok (buf, -1, fd)
      | (Some bs, fd) =>
          p ← store_range (bbuf buf) (blen buf) (Some <$> bs);
          buf ← buf_grow (MkBuf p (balloc buf) (blen buf +z length bs) (bpos buf)) 8192;
          buf_read_loop fuel buf oldalloc oldlen fd
      end
  end.

(** The bytes and events a descriptor still has: every iteration consumes one. *)
Definition fd_size (fd : list read_event) : nat :=
  foldr (fun ev n => match ev with RdData bs => S (length bs) + n | _ => S n end)%nat 0%nat fd.

Definition buf_read (buf : buf_t) (fd : list read_event) (hint : Z)
    : res (buf_t * Z * list read_event) :=
  let oldalloc := balloc buf in
  let oldlen := blen buf in
  buf ← buf_grow buf (if decide (hint <> 0) then hint else 8192);
  buf_read_loop (S (fd_size fd)) buf oldalloc oldlen fd.

(** A file: whether open() succeeds, what read() meets, whether close() succeeds. *)
Record file := MkFile { f_open : bool; f_events : list read_event; f_close : bool }.

Definition buf_read_file (buf : buf_t) (f : file) (hint : Z) : res (buf_t * Z) :=
  if f_open f then
    '(buf, len, _) ← buf_read buf (f_events f) hint;
    if f_close f then Ok (buf, len) else Ok (buf, -1)
  else Ok (buf, -1).

(** ** Trimming and splicing *)

(** [while (b < end && isspace( *b)) ++b;] from offset [b], [n] bytes left. *)
Fixpoint ltrim_scan (blk : block) (b : Z) (n : nat) : res Z :=
  match n with
  | O => Ok b
  | S n => ch ← load blk b; if isspace ch then ltrim_scan blk (b + 1) n else Ok b
  end.

Definition buf_ltrim (buf : buf_t) : res buf_t :=
  b ← ltrim_scan (bbuf buf) 0 (Z.to_nat (blen buf));
  let pos := if decide (bpos buf < b) then 0 else bpos buf -z b in
  bs ← load_range (bbuf buf) b (blen buf - b);
  p ← store_range (bbuf buf) 0 bs;
  buf_setlen (MkBuf p (balloc buf) (blen buf) pos) (blen buf - b).

(** [while (len > 0 && isspace(buf->buf[len-1])) --len;] *)
Fixpoint rtrim_scan (blk : block) (len : nat) : res nat :=
  match len with
  | O => Ok 0%nat
  | S n => ch ← load blk n; if isspace ch then rtrim_scan blk n else Ok len
  end.

Definition buf_rtrim (buf : buf_t) : res buf_t :=
  len ← rtrim_scan (bbuf buf) (Z.to_nat (blen buf));
  buf_setlen buf (Z.of_nat len).

Definition buf_splice (buf : buf_t) (off len : Z) (data : option (list char)) (data_len : Z)
    : res buf_t :=
  let delta := to_int (data_len -z len) in
  let off := if decide (off < 0) then to_int (blen buf +z off) else off in
  _ ← c_assert (bool_decide (off >= 0) && bool_decide (off <= blen buf));
  _ ← c_assert (bool_decide (off +z len <= blen buf));
  _ ← c_assert (bool_decide (data_len = 0) || bool_decide (data <> None));
  buf ← (if decide (delta > 0) then buf_grow buf delta else Ok buf);
  p ← (if decide (delta <> 0) then
         bs ← load_range (bbuf buf) (off + len) (blen buf -z off -z len);
         store_range (bbuf buf) (off + data_len) bs
       else Ok (bbuf buf));
  p ← (if decide (data_len <> 0) then
         if decide (data_len <= length (default [] data)) then
           store_range p off (Some <$> take (Z.to_nat data_len) (default [] data))
         else Err OutOfBounds
       else Ok p);
  buf_setlen (MkBuf p (balloc buf) (blen buf) (bpos buf)) (blen buf +z delta).

Definition buf_splicestr (buf : buf_t) (off len : Z) (s : option cstring) : res buf_t :=
  buf_splice buf off len s (match s with Some s => length s : Z | None => 0 end).

(** ** The stream interface *)

Definition buf_fgetc (buf : buf_t) : res (Z * buf_t) :=
  if decide (bpos buf < blen buf) then
    ch ← load (bbuf buf) (bpos buf);
    Ok (ch, MkBuf (bbuf buf) (balloc buf) (blen buf) (bpos buf +z 1))
  else Ok (EOF, buf).

Definition buf_ungetc (buf : buf_t) (ch : Z) : res (Z * buf_t) :=
  if decide (bpos buf > 0) then
    let pos := bpos buf -z 1 in
    p ← store (bbuf buf) pos (to_char ch);
    Ok (to_char ch, MkBuf p (balloc buf) (blen buf) pos)
  else Ok (EOF, buf).

Definition buf_ftell (buf : buf_t) : Z := bpos buf.

Definition buf_rewind (buf : buf_t) : buf_t := MkBuf (bbuf buf) (balloc buf) (blen buf) 0.

(** ** The abstract value of a buffer *)

(** Below this size no size computation of the buffer code can overflow. *)
Definition buf_limit : Z := 2 ^ 61.

(** [buf_rep b s p]: [b] is in a valid state and holds the characters [s], with
    read position [p]. An empty buffer may still point to the static initial
    block; otherwise the block has the allocated size and holds the contents, a
    terminating null and then indeterminate bytes. *)
Definition buf_rep (b : buf_t) (s : cstring) (p : Z) : Prop :=
  blen b = length s /\ bpos b = p /\ 0 <= p <= length s /\
  match bbuf b with
  | BInitial => balloc b = 0 /\ s = []
  | BNull => False
  | BHeap d =>
      balloc b = length d /\ length d <= 2 ^ 62 /\
      exists junk, d = (Some <$> s) ++ Some NUL :: junk
  end.

#[global] Arguments store : simpl never.
#[global] Arguments load : simpl never.
#[global] Arguments store_range : simpl never.
#[global] Arguments load_range : simpl never.
#[global] Arguments realloc : simpl never.
#[global] Arguments buf_init : simpl never.

(** ** Lemmas on storage *)

Lemma store_at (l1 l2 : list byte) x v (i : Z) :
  i = length l1 -> store (BHeap (l1 ++ x :: l2)) i v = Ok (BHeap (l1 ++ Some v :: l2)).
Proof.
  intros ->. rw /store decide_True; [rw length_app /=; lia|].
  by rw Nat2Z.id insert_app_r_alt // Nat.sub_diag.
Qed.

Lemma load_at (l1 l2 : list byte) v (i : Z) :
  i = length l1 -> load (BHeap (l1 ++ Some v :: l2)) i = Ok v.
Proof.
  intros ->. rw /load decide_True; [rw length_app /=; lia|].
  by rw Nat2Z.id list_lookup_middle.
Qed.

Lemma store_range_at (l1 l2 bs : list byte) (i : Z) :
  i = length l1 -> (length bs <= length l2)%nat ->
  store_range (BHeap (l1 ++ l2)) i bs = Ok (BHeap (l1 ++ bs ++ drop (length bs) l2)).
Proof.
  intros -> Hle. rw /store_range. case_decide as Hbs; [by subst bs|].
  rw decide_True; [rw length_app; lia|]. rw Nat2Z.id take_app_length.
  by rw drop_app_add'.
Qed.

Lemma load_range_at (l1 l2 l3 : list byte) (i n : Z) :
  i = length l1 -> n = length l2 -> load_range (BHeap (l1 ++ l2 ++ l3)) i n = Ok l2.
Proof.
  intros -> ->. rw /load_range. case_decide as Hn.
  { by destruct l2. }
  rw decide_True; [rw !length_app; lia|]. by rw !Nat2Z.id drop_app_length take_app_length.
Qed.

(** ** Allocation *)

Lemma GROW_N_small n : 0 <= n <= buf_limit -> GROW_N n = (n + 16) * 3 / 2.
Proof.
  rw /buf_limit /GROW_N. intros ?. rw (sz_small (n + 16)); [|rw sz_small //];
    rw /size_max; lia.
Qed.

Lemma realloc_prefix d n :
  length d <= n <= ptrdiff_max ->
  exists junk, realloc (BHeap d) n = Ok (BHeap (d ++ junk)) /\ length (d ++ junk) = Z.to_nat n.
Proof.
  intros ?. rw /realloc decide_True; [lia|]. rw take_ge; [lia|].
  eexists. split; [done|]. rw length_app length_replicate. lia.
Qed.

(** [GROW] never asks for less than it is asked for. *)
Lemma GROW_size want cur :
  0 <= cur < want -> want <= buf_limit ->
  want <= (if decide (GROW_N cur < want) then want else GROW_N cur) <= 2 ^ 62.
Proof.
  intros ? Hw. rw GROW_N_small; [lia|]. rw /buf_limit in Hw.
  pose proof (Z.div_lt_upper_bound ((cur + 16) * 3) 2 (2 ^ 62 + 1)).
  case_decide; lia.
Qed.

(** A buffer in the heap that holds [s], with [rest] after it: the state between
    the steps of an operation, when the terminating null may not be in place. *)
Definition buf_raw (b : buf_t) (s : cstring) (rest : list byte) (p : Z) : Prop :=
  bbuf b = BHeap ((Some <$> s) ++ rest) /\ balloc b = length s + length rest /\
  balloc b <= 2 ^ 62 /\ blen b = length s /\ bpos b = p /\ rest <> [].

Lemma buf_raw_rep b s junk p :
  buf_raw b s (Some NUL :: junk) p -> 0 <= p <= length s -> buf_rep b s p.
Proof.
  intros (Hb & Ha & Hle & Hl & Hp & _) ?. rw /buf_rep Hb Ha Hl Hp.
  rw length_app length_fmap. repeat split; try (done || lia). eauto.
Qed.

Lemma buf_grow_raw b s rest p extra :
  buf_raw b s rest p -> 0 <= extra -> length s + extra < buf_limit ->
  exists b' junk, buf_grow b extra = Ok b' /\ buf_raw b' s (rest ++ junk) p /\
    extra < length (rest ++ junk).
Proof.
  intros (Hb & Ha & Hle & Hlen & Hp & Hrest) Hextra Hlim.
  assert (0 < length rest) as Hrl by (destruct rest; simpl in *; [done|lia]).
  rw /buf_grow Hlen !(sz_small (_ + _)); [rw /size_max /buf_limit in Hlim *; lia..|].
  rw /GROW bool_decide_false; [lia|]. rw Hb. case_decide as Hw.
  - pose proof (GROW_size (length s + extra + 1) (balloc b) ltac:(lia) ltac:(lia)) as Hg.
    set (cur := if decide _ then _ else _) in *.
    destruct (realloc_prefix ((Some <$> s) ++ rest) cur) as (junk & -> & Hj).
    { rw length_app length_fmap /ptrdiff_max. lia. }
    rw !length_app length_fmap in Hj. eexists _, junk. split; [done|]. rw length_app. split; [|lia].
    rw /buf_raw /= length_app -assoc_L. repeat split; try (done || lia). by destruct rest.
  - eexists _, []. split; [done|]. rw app_nil_r. split; [done|lia].
Qed.

Lemma buf_grow_rep b s p extra :
  buf_rep b s p -> 0 <= extra -> length s + extra < buf_limit ->
  exists b' junk, buf_grow b extra = Ok b' /\ buf_raw b' s (Some NUL :: junk) p /\
    extra <= length junk.
Proof.
  intros (Hlen & Hpos & Hp & Hblk) Hextra Hlim.
  destruct (bbuf b) as [| |d] eqn:Hb; [destruct Hblk as [Ha ->]|done|].
  - simpl in Hlen, Hlim.
    rw /buf_grow Hlen /= !(sz_small (_ + _)); [rw /size_max /buf_limit in Hlim *; lia..|].
    rw /GROW Ha /=. rw decide_True; [lia|].
    pose proof (GROW_size (extra + 1) 0 ltac:(lia) ltac:(lia)) as Hg.
    set (cur := if decide _ then _ else _) in *.
    rw /realloc decide_True; [rw /ptrdiff_max; lia|]. rw /= /store.
    rw decide_True; [rw length_replicate; lia|].
    destruct (Z.to_nat cur) as [|n] eqn:Hn; [lia|]. simpl.
    eexists _, (replicate n None). split; [done|]. rw /buf_raw /= length_replicate.
    repeat split; try (done || lia).
  - destruct Hblk as (Ha & Hle & junk & ->). rw length_app length_fmap /= in Ha Hle.
    destruct (buf_grow_raw b s (Some NUL :: junk) p extra) as (b' & junk' & -> & Hr & Hl);
      [|done|done|].
    { rw /buf_raw Hb Ha /=. repeat split; try (done || lia). }
    eexists _, (junk ++ junk'). split; [done|]. split; [done|]. simpl in Hl. lia.
Qed.

Lemma buf_init_rep hint :
  0 <= hint < buf_limit -> exists b, buf_init hint = Ok b /\ buf_rep b [] 0.
Proof.
  intros ?. rw /buf_init. case_decide.
  - destruct (buf_grow_rep (MkBuf BInitial 0 0 0) [] 0 hint) as (b & junk & -> & Hr & _);
      [done|lia|simpl; lia|]. eexists. split; [done|]. by eapply buf_raw_rep.
  - by eexists.
Qed.

Lemma buf_release_rep b s p :
  buf_rep b s p -> exists b', buf_release b = Ok b' /\ buf_rep b' [] 0 /\ balloc b' = 0.
Proof.
  intros (Hlen & Hpos & Hp & Hblk). rw /buf_release.
  destruct (bbuf b) as [| |d] eqn:Hb; [destruct Hblk as [Ha ->]|done|].
  - rw decide_False; [lia|]. eexists. split; [done|]. simpl in *.
    rw /buf_rep Hb. repeat split; try (done || (simpl; lia)).
  - destruct Hblk as (Ha & _ & junk & ->). rw length_app /= in Ha. rw decide_True; [lia|].
    by eexists.
Qed.

Lemma buf_detach_rep b s p :
  buf_rep b s p -> length s < buf_limit ->
  exists junk, buf_detach b =
    Ok (BHeap ((Some <$> s) ++ Some NUL :: junk), length s : Z, MkBuf BInitial 0 0 0).
Proof.
  intros Hr ?. destruct (buf_grow_rep b s p 0 Hr) as (b' & junk & Hg & (Hb & _ & _ & Hl & _) & _);
    [lia..|]. exists junk. by rw /buf_detach Hg /= Hb Hl.
Qed.

(** ** Contents *)

Lemma buf_setlen_raw b s x rest p :
  buf_raw b s (x :: rest) p -> 0 <= p ->
  exists b', buf_setlen b (length s) = Ok b' /\ buf_rep b' s (p `min` length s).
Proof.
  intros (Hb & Ha & Hle & Hlen & Hp & _) ?. simpl in Ha. rw /buf_setlen (decide_True (P:=balloc b <> 0)); [lia|].
  rw bool_decide_true; [lia|]. rw Hb /=. rw store_at; [by rw length_fmap|].
  eexists. split; [done|]. rw /buf_rep /= length_app length_fmap /=.
  repeat split; try (done || lia || (case_decide; lia)). eauto.
Qed.

Lemma buf_setlen_rep b s p n :
  buf_rep b s p -> (n <= length s)%nat ->
  exists b', buf_setlen b n = Ok b' /\ buf_rep b' (take n s) (p `min` n).
Proof.
  intros (Hlen & Hpos & Hp & Hblk) Hn.
  destruct (bbuf b) as [| |d] eqn:Hb; [destruct Hblk as [Ha ->]|done|].
  - assert (n = 0%nat) as -> by (simpl in Hn; lia). rw /buf_setlen (decide_False (P:=balloc b <> 0)); [lia|].
    rw Hb /=. eexists. split; [done|]. simpl in *.
    rw /buf_rep /=. repeat split; try (done || lia || (case_decide; lia)).
  - destruct Hblk as (Ha & Hle & junk & ->). rw length_app length_fmap /= in Ha Hle.
    assert (length (take n s) = n) as Hlt by (rw length_take; lia).
    assert (exists x rest, (Some <$> s) ++ Some NUL :: junk = (Some <$> take n s) ++ x :: rest
      /\ (length s + S (length junk) = n + S (length rest))%nat) as (x & rest & Heq & Hl).
    { destruct (drop n s) as [|y s'] eqn:Hd.
      - exists (Some NUL), junk. apply (f_equal length) in Hd. rw length_drop /= in Hd.
        rw take_ge; [lia|]. split; [done|lia].
      - exists (Some y), ((Some <$> s') ++ Some NUL :: junk).
        rw -{1}(take_drop n s) Hd fmap_app -assoc_L. split; [done|].
        apply (f_equal length) in Hd. rw length_drop /= in Hd.
        rw length_app length_fmap /=. lia. }
    destruct (buf_setlen_raw (MkBuf (bbuf b) (balloc b) (length (take n s)) p)
      (take n s) x rest p) as (b' & Hs & Hr); [|lia|].
    { rw /buf_raw /= Hb Heq. repeat split; try (done || lia). }
    rw Hlt in Hs Hr. exists b'. split; [|done]. rw -Hs /buf_setlen /=. by subst p.
Qed.

Lemma fmap_snoc_app (s : cstring) v (rest : list byte) :
  (Some <$> s) ++ Some v :: rest = (Some <$> (s ++ [v])) ++ rest.
Proof. by rw fmap_app -assoc_L. Qed.

Lemma fmap_app_app (s t : cstring) (rest : list byte) :
  (Some <$> s) ++ (Some <$> t) ++ rest = (Some <$> (s ++ t)) ++ rest.
Proof. by rw fmap_app -assoc_L. Qed.

Lemma buf_addch_rep b s p ch :
  buf_rep b s p -> length s + 1 < buf_limit ->
  exists b', buf_addch b ch = Ok b' /\ buf_rep b' (s ++ [to_char ch]) p.
Proof.
  intros Hrep Hlim. pose proof Hrep as (_ & _ & Hp & _).
  destruct (buf_grow_rep b s p 1 Hrep) as (b' & junk & Hg & (Hb & Ha & Hle & Hl & Hpos & _) & Hj);
    [lia..|].
  destruct junk as [|y junk]; simpl in Hj; [lia|].
  rw /buf_addch Hg /= Hb Hl store_at; [by rw length_fmap|]. simpl.
  rw sz_small; [rw /size_max /buf_limit in Hlim *; lia|].
  rw fmap_snoc_app store_at; [rw length_fmap length_app /=; lia|]. simpl.
  eexists. split; [done|]. eapply buf_raw_rep; [|rw length_app; lia].
  rw /buf_raw /= length_app /=. simpl in Ha. repeat split; try (done || lia).
Qed.

Lemma buf_add_rep b s p d len :
  buf_rep b s p -> 0 <= len <= length d -> length s + len < buf_limit ->
  exists b', buf_add b (Some d) len = Ok b' /\ buf_rep b' (s ++ take (Z.to_nat len) d) p.
Proof.
  intros Hrep Hlen Hlim. pose proof Hrep as (_ & _ & Hp & _).
  destruct (buf_grow_rep b s p len Hrep) as (b' & junk & Hg & (Hb & Ha & Hle & Hl & Hpos & _) & Hj);
    [lia..|].
  assert (length (take (Z.to_nat len) d) = Z.to_nat len) as Ht by (rw length_take; lia).
  rw /buf_add Hg /= (decide_True (P:=len <= length d)); [lia|]. rw Hb Hl.
  rw store_range_at; [by rw length_fmap|rw length_fmap /= Ht; lia|]. simpl.
  rw length_fmap Ht fmap_app_app.
  destruct (drop (Z.to_nat len) (Some NUL :: junk)) as [|x rest] eqn:Hd.
  { apply (f_equal length) in Hd. rw length_drop /= in Hd. lia. }
  apply (f_equal length) in Hd. rw length_drop /= in Hd.
  rw sz_small; [rw /size_max /buf_limit in Hlim *; lia|].
  destruct (buf_setlen_raw (MkBuf (BHeap ((Some <$> (s ++ take (Z.to_nat len) d)) ++ x :: rest))
    (balloc b') (length s + len) (bpos b')) (s ++ take (Z.to_nat len) d) x rest p)
    as (b'' & Hs & Hr); [|lia|].
  - rw /buf_raw /= length_app Ht. simpl in Ha. repeat split; try (done || lia).
  - exists b''. rw length_app Ht Z.min_l in Hr; [lia|]. split; [|done].
    rw -Hs length_app Ht Nat2Z.inj_add Z2Nat.id; [lia|]. by rw /buf_setlen.
Qed.

Lemma buf_addstr_rep b s p t :
  buf_rep b s p -> length s + length t < buf_limit ->
  exists b', buf_addstr b t = Ok b' /\ buf_rep b' (s ++ t) p.
Proof.
  intros Hr Hlim. destruct (buf_add_rep b s p t (length t) Hr) as (b' & ? & Hr'); [lia..|].
  exists b'. by rw Nat2Z.id firstn_all in Hr'.
Qed.

Lemma buf_avail_raw b s rest p :
  buf_raw b s rest p -> buf_avail b = length rest - 1.
Proof.
  intros (Hb & Ha & Hle & Hl & Hpos & Hne). destruct rest as [|x rest]; [done|]. simpl in *.
  rw /buf_avail decide_True; [lia|].
  rw Ha Hl !sz_small; rw ?sz_small; rw /size_max; lia.
Qed.

Lemma buf_rep_raw b s p :
  buf_rep b s p -> balloc b <> 0 -> exists junk, buf_raw b s (Some NUL :: junk) p.
Proof.
  intros (Hlen & Hpos & Hp & Hblk) Hne.
  destruct (bbuf b) as [| |d] eqn:Hb; [by destruct Hblk|done|].
  destruct Hblk as (Ha & Hle & junk & ->). rw length_app length_fmap /= in Ha Hle.
  exists junk. rw /buf_raw Hb Ha /=. repeat split; try (done || lia).
Qed.

Lemma vsnprintf_raw b s rest p out :
  buf_raw b s rest p -> length out <= int_max ->
  exists rest', vsnprintf (bbuf b) (blen b) (balloc b -z blen b) out =
      Ok (BHeap ((Some <$> s) ++ rest'), length out : Z) /\
    length rest' = length rest /\
    ((length out < length rest)%nat -> exists junk, rest' = (Some <$> out) ++ Some NUL :: junk).
Proof.
  intros (Hb & Ha & Hle & Hl & Hpos & Hne) Hout.
  assert (0 < length rest)%nat as Hrl by (destruct rest; simpl in *; [done|lia]).
  rw /vsnprintf Hb Ha Hl sz_small; [rw /size_max; lia|].
  replace (length s + length rest - length s) with (length rest : Z) by lia.
  rw (decide_False (P:=length rest = 0 :> Z)); [lia|].
  rw (decide_True (P:=length out <= int_max)) //.
  assert (length (take (Z.to_nat (length rest - 1)) out) <= length rest - 1)%nat as Ht.
  { rw length_take. lia. }
  rw store_range_at; [by rw length_fmap|rw length_app length_fmap /=; lia|].
  eexists. split; [done|]. split.
  - rw !length_app length_drop ?length_app !length_fmap /=. lia.
  - intros ?. rw take_ge; [lia|]. rw -assoc_L. by eexists.
Qed.

Lemma buf_setlen_end b s rest p (len : Z) :
  buf_raw b s rest p -> 0 <= p -> len = length s ->
  exists b', buf_setlen b len = Ok b' /\ buf_rep b' s (p `min` len).
Proof.
  intros Hr Hp ->. destruct rest as [|x rest]; [|by eapply buf_setlen_raw].
  by destruct Hr as (_ & _ & _ & _ & _ & []).
Qed.

Lemma buf_addf_finish b s out junk p :
  buf_raw b s ((Some <$> out) ++ Some NUL :: junk) p ->
  0 <= p <= length s -> length s + length out < buf_limit ->
  exists b', buf_setlen b (length s +z length out) = Ok b' /\ buf_rep b' (s ++ out) p.
Proof.
  intros (Hb & Ha & Hle & Hl & Hpos & Hne) Hp Hlim.
  rw sz_small; [rw /size_max /buf_limit in Hlim *; lia|].
  destruct (buf_setlen_end (MkBuf (bbuf b) (balloc b) (length s + length out) p) (s ++ out)
    (Some NUL :: junk) p (length s + length out)) as (b' & Hs & Hr); [|lia|rw length_app; lia|].
  - rw /buf_raw /= Hb fmap_app_app Ha !length_app length_fmap /=. simpl in *.
    repeat split; try (done || lia). rw Ha !length_app length_fmap /= in Hle. lia.
  - exists b'. rw Z.min_l in Hr; [lia|]. split; [|done]. rw -Hs /buf_setlen /=. by subst p.
Qed.

Lemma buf_addf_rep b s p fmt ap out :
  buf_rep b s p -> vformat fmt ap = Some out -> length out <= int_max ->
  length s + length out + 64 < buf_limit ->
  exists b', buf_addf b fmt ap = Ok b' /\ buf_rep b' (s ++ out) p.
Proof.
  intros Hrep Hf Hout Hlim. pose proof Hrep as (_ & _ & Hp & _).
  rw /buf_addf /buf_vaddf Hf.
  assert (exists b1 rest, (if decide (buf_avail b = 0) then buf_grow b 64 else Ok b) = Ok b1 /\
    buf_raw b1 s rest p) as (b1 & rest & -> & Hr1).
  { case_decide as Hav.
    - destruct (buf_grow_rep b s p 64 Hrep) as (b1 & junk & -> & ? & _); [lia..|]. eauto.
    - destruct (buf_rep_raw b s p Hrep) as (junk & ?); [|eauto].
      intros Hz. apply Hav. by rw /buf_avail Hz. }
  destruct (vsnprintf_raw b1 s rest p out Hr1 Hout) as (rest1 & Hv & Hlr & Hfit). simpl.
  rw Hv /=. rw bool_decide_true; [lia|]. simpl.
  destruct Hr1 as (Hb1 & Ha1 & Hle1 & Hl1 & Hp1 & Hne1).
  set (b2 := MkBuf _ _ _ _).
  assert (buf_raw b2 s rest1 p) as Hr2.
  { rw /buf_raw /b2 /=. repeat split; try (done || lia). by destruct rest1, rest. }
  rw (buf_avail_raw _ _ _ _ Hr2). case_decide as Hfull.
  - destruct (buf_grow_raw b2 s rest1 p (length out)) as (b3 & junk & -> & Hr3 & Hj);
      [done|lia..|].
    destruct (vsnprintf_raw b3 s _ p out Hr3 Hout) as (rest3 & Hv3 & Hlr3 & Hfit3). simpl.
    rw Hv3 /=. destruct Hr3 as (Hb3 & Ha3 & Hle3 & Hl3 & Hp3 & Hne3).
    destruct Hfit3 as (junk3 & ->); [lia|].
    set (b4 := MkBuf _ _ _ _).
    assert (buf_raw b4 s ((Some <$> out) ++ Some NUL :: junk3) p) as Hr4.
    { rw /buf_raw /b4 /=. repeat split; try (done || lia). by destruct out. }
    rw (buf_avail_raw _ _ _ _ Hr4) bool_decide_true; [rw Hlr3; lia|]. simpl.
    rw Hl3. apply (buf_addf_finish b4 s out junk3 p Hr4); lia.
  - destruct Hfit as (junk & ->); [lia|]. simpl.
    rw Hl1. apply (buf_addf_finish b2 s out junk p Hr2); lia.
Qed.

(** ** The stream interface *)

Lemma buf_load_rep b s p i ch :
  buf_rep b s p -> s !! i = Some ch -> load (bbuf b) (Z.of_nat i) = Ok ch.
Proof.
  intros (Hlen & _ & _ & Hblk) Hi.
  destruct (bbuf b) as [| |d]; [by destruct Hblk as [_ ->]|done|].
  destruct Hblk as (_ & _ & junk & ->). rw -(take_drop_middle _ _ _ Hi) fmap_app fmap_cons -assoc_L /=.
  apply load_at. apply lookup_lt_Some in Hi. rw length_fmap length_take. lia.
Qed.

Lemma buf_rep_bound b s p : buf_rep b s p -> length s < 2 ^ 62.
Proof.
  intros (_ & _ & _ & Hblk). destruct (bbuf b) as [| |d]; [destruct Hblk as [_ ->]|done|].
  - simpl. lia.
  - destruct Hblk as (_ & Hle & junk & ->). rw length_app length_fmap /= in Hle. lia.
Qed.

Lemma buf_rep_pos b s p p' :
  buf_rep b s p -> 0 <= p' <= length s -> buf_rep (MkBuf (bbuf b) (balloc b) (blen b) p') s p'.
Proof. intros (? & ? & ? & ?) ?. done. Qed.

Lemma buf_fgetc_rep b s p ch :
  buf_rep b s p -> s !! Z.to_nat p = Some ch ->
  exists b', buf_fgetc b = Ok (ch, b') /\ buf_rep b' s (p + 1).
Proof.
  intros Hr Hch. pose proof (buf_rep_bound _ _ _ Hr). pose proof Hr as (Hlen & Hpos & Hp & _).
  pose proof (lookup_lt_Some _ _ _ Hch).
  rw /buf_fgetc Hpos Hlen decide_True; [lia|].
  pose proof (buf_load_rep _ _ _ _ _ Hr Hch) as Hld. rw Z2Nat.id in Hld; [lia|]. rw Hld /=.
  rw sz_small; [rw /size_max; lia|]. eexists. split; [done|].
  rw -Hlen. apply (buf_rep_pos b s p); [done|lia].
Qed.

Lemma buf_fgetc_eof b s p :
  buf_rep b s p -> p = length s -> buf_fgetc b = Ok (EOF, b).
Proof. intros (Hlen & Hpos & _) ->. rw /buf_fgetc Hlen Hpos decide_False //. lia. Qed.

Lemma buf_ungetc_rep b s p ch :
  buf_rep b s p -> 0 < p ->
  exists b', buf_ungetc b ch = Ok (to_char ch, b') /\
    buf_rep b' (<[Z.to_nat (p - 1) := to_char ch]> s) (p - 1).
Proof.
  intros Hr Hp0. pose proof (buf_rep_bound _ _ _ Hr). destruct Hr as (Hlen & Hpos & Hp & Hblk).
  rw /buf_ungetc Hpos decide_True; [lia|]. rw sz_small; [rw /size_max; lia|].
  destruct (bbuf b) as [| |d]; [destruct Hblk as [_ ->]; simpl in Hp; lia|done|].
  destruct Hblk as (Ha & Hle & junk & ->).
  destruct (lookup_lt_is_Some_2 s (Z.to_nat (p - 1))) as [x Hx]; [lia|].
  rw -{1}(take_drop_middle _ _ _ Hx) fmap_app fmap_cons -assoc_L /=.
  rw store_at; [rw length_fmap length_take; lia|]. eexists. split; [done|].
  assert (<[Z.to_nat (p - 1) := to_char ch]> s =
    take (Z.to_nat (p - 1)) s ++ to_char ch :: drop (S (Z.to_nat (p - 1))) s) as ->.
  { rw insert_take_drop //. lia. }
  rw /buf_rep /= !length_app !length_fmap /= length_app length_fmap /= length_take length_drop.
  rw length_app length_fmap /= in Ha Hle. repeat split; try (done || lia).
  exists junk. by rw fmap_app -assoc_L.
Qed.

Lemma buf_ungetc_start b s ch : buf_rep b s 0 -> buf_ungetc b ch = Ok (EOF, b).
Proof. intros (_ & Hpos & _). by rw /buf_ungetc Hpos. Qed.

Lemma buf_rewind_rep b s p : buf_rep b s p -> buf_rep (buf_rewind b) s 0.
Proof. intros Hr. eapply buf_rep_pos; [done|lia]. Qed.

(** ** Trimming *)

Fixpoint ltrim (s : cstring) : cstring :=
  match s with
  | [] => []
  | ch :: s' => if isspace ch then ltrim s' else s
  end.

Definition rtrim (s : cstring) : cstring := reverse (ltrim (reverse s)).

Lemma ltrim_scan_rep b s p s1 s2 :
  buf_rep b s p -> s = s1 ++ s2 ->
  ltrim_scan (bbuf b) (length s1) (length s2) = Ok (length s - length (ltrim s2)).
Proof.
  intros Hr Hs. revert s1 Hs. induction s2 as [|ch s2 IH]; intros s1 ->; simpl.
  { f_equal. rw app_nil_r. lia. }
  rw (buf_load_rep b (s1 ++ ch :: s2) p (length s1) ch); [done|by rw list_lookup_middle|]. simpl.
  destruct (isspace ch).
  - specialize (IH (s1 ++ [ch])). rw length_app -assoc_L /= Nat2Z.inj_add in IH. by apply IH.
  - f_equal. rw length_app /=. lia.
Qed.

Lemma ltrim_split s : exists w, s = w ++ ltrim s /\ Forall (fun ch => isspace ch = true) w /\
  (forall ch, head (ltrim s) = Some ch -> isspace ch = false).
Proof.
  induction s as [|ch s (w & Hs & Hw & Hh)]; simpl; [by exists []|].
  destruct (isspace ch) eqn:Hch.
  - exists (ch :: w). simpl. split; [congruence|]. split; [by constructor|done].
  - exists []. split; [done|]. split; [done|]. by intros ? [= <-].
Qed.

Lemma buf_ltrim_rep b s p :
  buf_rep b s p ->
  exists b', buf_ltrim b = Ok b' /\
    buf_rep b' (ltrim s) (0 `max` (p - (length s - length (ltrim s)))).
Proof.
  intros Hr. pose proof (buf_rep_bound _ _ _ Hr) as Hbd.
  pose proof (ltrim_scan_rep b s p [] s Hr eq_refl) as Hscan.
  pose proof Hr as (Hlen & Hpos & Hp & Hblk).
  rw /buf_ltrim Hlen Nat2Z.id Hscan /=. destruct (ltrim_split s) as (s1 & Hs & _).
  set (t := ltrim s) in *. clearbody t. subst s. rw length_app in Hp Hbd *.
  replace ((length s1 + length t)%nat - length t) with (length s1 : Z) by lia.
  replace ((length s1 + length t)%nat - length s1) with (length t : Z) by lia.
  set (pos := if decide _ then _ else _).
  assert (pos = 0 `max` (p - length s1)) as ->.
  { rw /pos Hpos. case_decide; [lia|]. rw sz_small; [rw /size_max|]; lia. }
  destruct (bbuf b) as [| |d]; [destruct Hblk as [Ha Hnil]|done|].
  - apply app_eq_nil in Hnil as [-> ->]. rw /load_range /= /store_range /=. simpl in Hp.
    rw /buf_setlen /= Ha /=. eexists. split; [done|].
    rw /buf_rep /= (decide_False (P:=_ > _)); [lia|]. repeat split; try (done || lia).
  - destruct Hblk as (Ha & Hle & junk & ->). rw !fmap_app -assoc_L in Ha Hle *.
    rw load_range_at; [by rw length_fmap..|]. simpl.
    rw (store_range_at [] _ (Some <$> t)); [done|rw !length_app; lia|].
    rw !length_app !length_fmap /= in Ha Hle.
    set (rest := drop (length (Some <$> t)) _).
    assert (length rest = length s1 + S (length junk))%nat as Hlr.
    { rw /rest length_drop !length_app !length_fmap /=. lia. }
    destruct (buf_setlen_end (MkBuf (BHeap ((Some <$> t) ++ rest)) (balloc b) (length t)
      (0 `max` (p - length s1))) t rest (0 `max` (p - length s1)) (length t))
      as (b' & Hset & Hr'); [|lia|done|].
    + rw /buf_raw /= Hlr. repeat split; try (done || lia). intros Hnil. rw Hnil /= in Hlr. lia.
    + exists b'. rw Z.min_l in Hr'; [lia|]. split; [|done]. by rw -Hset /buf_setlen.
Qed.

Lemma rtrim_snoc s ch : rtrim (s ++ [ch]) = if isspace ch then rtrim s else s ++ [ch].
Proof.
  rw /rtrim reverse_snoc /=. destruct (isspace ch); [done|].
  by rw reverse_cons reverse_involutive.
Qed.

Lemma rtrim_split s : exists w, s = rtrim s ++ w /\ Forall (fun ch => isspace ch = true) w /\
  (forall ch, last (rtrim s) = Some ch -> isspace ch = false).
Proof.
  induction s as [|ch s (w & Hs & Hw & Hh)] using rev_ind; [by exists []|].
  rw rtrim_snoc. destruct (isspace ch) eqn:Hch.
  - exists (w ++ [ch]). rw assoc_L. split; [congruence|]. split; [|done].
    apply Forall_app. split; [done|by constructor].
  - exists []. rw app_nil_r. split; [done|]. split; [done|]. rw last_snoc. by intros ? [= <-].
Qed.

Lemma rtrim_scan_rep b s p s1 s2 :
  buf_rep b s p -> s = s1 ++ s2 -> rtrim_scan (bbuf b) (length s1) = Ok (length (rtrim s1)).
Proof.
  intros Hr. revert s2. induction s1 as [|ch s1 IH] using rev_ind; intros s2 Hs; [done|].
  rw length_app Nat.add_comm /=.
  rw (buf_load_rep b s p (length s1) ch); [done| |].
  { by rw Hs -assoc_L list_lookup_middle. }
  rw rtrim_snoc /=. destruct (isspace ch).
  - apply (IH (ch :: s2)). by rw Hs -assoc_L.
  - f_equal. rw length_app /=. lia.
Qed.

Lemma buf_rtrim_rep b s p :
  buf_rep b s p ->
  exists b', buf_rtrim b = Ok b' /\ buf_rep b' (rtrim s) (p `min` length (rtrim s)).
Proof.
  intros Hr. rw /buf_rtrim. pose proof Hr as (Hlen & _). rw Hlen Nat2Z.id.
  rw (rtrim_scan_rep b s p s [] Hr) /=; [by rw app_nil_r|].
  destruct (rtrim_split s) as (s2 & Hs & _).
  destruct (buf_setlen_rep b s p (length (rtrim s)) Hr) as (b' & ? & Hr').
  { rw {2}Hs length_app. lia. }
  assert (take (length (rtrim s)) s = rtrim s) as Ht by rw {2}Hs take_app_length //.
  exists b'. split; [done|]. by rw Ht in Hr'.
Qed.

(** ** Splicing *)

(** The two copies of [buf_splice] on the bytes after the offset: the tail [t]
    moves to its new place and the new text is put before it. *)
Lemma splice_bytes (a m t r : list byte) (d : cstring) blk :
  blk = a ++ m ++ t ++ r -> (length d + length t <= length m + length t + length r)%nat ->
  exists r',
    (p ← (if decide (length d - length m <> 0 :> Z) then
            bs ← load_range (BHeap blk) (length a + length m) (length t);
            store_range (BHeap blk) (length a + length d) bs
          else Ok (BHeap blk));
     if decide (length d <> 0 :> Z) then store_range p (length a) (Some <$> d) else Ok p)
    = Ok (BHeap (a ++ (Some <$> d) ++ t ++ r')) /\
    (length d + length t + length r' = length m + length t + length r)%nat.
Proof.
  intros -> Hle. destruct (decide (length d - length m <> 0 :> Z)) as [Hdm|Hdm].
  - assert (load_range (BHeap (a ++ m ++ t ++ r)) (length a + length m) (length t) = Ok t) as ->.
    { rw (assoc_L _ a m). apply load_range_at; [rw length_app; lia|done]. }
    simpl. set (u := m ++ t ++ r).
    assert (length u = length m + length t + length r)%nat as Hu.
    { rw /u !length_app. lia. }
    replace (a ++ u) with ((a ++ take (length d) u) ++ drop (length d) u)
      by rw -assoc_L take_drop //.
    rw store_range_at; [rw length_app length_take; lia|rw length_drop; lia|]. simpl.
    exists (drop (length t) (drop (length d) u)). rw !length_drop. split; [|lia].
    rw -assoc_L /=. case_decide as Hd.
    + rw store_range_at; [done|rw !length_app length_fmap length_take; lia|].
      rw length_fmap drop_app_length'; [rw length_take; lia|]. done.
    + destruct d; [done|simpl in Hd; lia].
  - assert (length d = length m) as Hlen by lia. exists r. simpl. split; [|lia].
    case_decide as Hd.
    + rw store_range_at; [done|rw length_fmap !length_app; lia|].
      rw length_fmap Hlen drop_app_length. done.
    + destruct d, m; simpl in *; done || lia.
Qed.

Lemma splice_room b s p delta :
  buf_rep b s p -> length s + delta < buf_limit -> delta > 0 \/ balloc b <> 0 ->
  exists b1 rest, (if decide (delta > 0) then buf_grow b delta else Ok b) = Ok b1 /\
    buf_raw b1 s rest p /\ delta < length rest.
Proof.
  intros Hr Hlim Hheap. case_decide as Hgt.
  - destruct (buf_grow_rep b s p delta Hr) as (b1 & junk & -> & Hr1 & Hj); [lia..|].
    do 2 eexists. split; [done|]. split; [done|]. simpl. lia.
  - destruct (buf_rep_raw b s p Hr) as (junk & Hr1); [tauto|].
    do 2 eexists. split; [done|]. split; [done|]. simpl. lia.
Qed.

(** The contents around a range that lies inside them. *)
Lemma splice_split (s : cstring) o len :
  0 <= o -> 0 <= len -> o + len <= length s ->
  exists a m t, s = a ++ m ++ t /\ length a = Z.to_nat o /\ length m = Z.to_nat len /\
    a = take (Z.to_nat o) s /\ t = drop (Z.to_nat (o + len)) s.
Proof.
  intros Ho Hl Hol.
  exists (take (Z.to_nat o) s), (take (Z.to_nat len) (drop (Z.to_nat o) s)), (drop (Z.to_nat (o + len)) s).
  rw Z2Nat.inj_add // -drop_drop !take_drop !length_take length_drop. repeat split; lia.
Qed.

Lemma buf_splice_rep b s p (off len : Z) d :
  buf_rep b s p -> 0 <= len -> length s + length d <= int_max ->
  let o := if decide (off < 0) then length s + off else off in
  0 <= o -> o + len <= length s ->
  exists b' p', buf_splice b off len (Some d) (length d) = Ok b' /\
    buf_rep b' (take (Z.to_nat o) s ++ d ++ drop (Z.to_nat (o + len)) s) p'.
Proof.
  intros Hr Hlen Hmax o Ho Hol. pose proof Hr as (Hl & Hpos & Hp & _). rw /int_max in Hmax.
  assert (to_int (length d -z len) = length d - len) as Hdelta.
  { apply to_int_sz. rw /int_min /int_max. lia. }
  assert ((if decide (off < 0) then to_int (blen b +z off) else off) = o) as Hoff.
  { rw /o Hl. case_decide; [|done]. apply to_int_sz. rw /int_min /int_max. lia. }
  rw /buf_splice Hdelta Hoff. rw Hl (bool_decide_true (o >= 0)); [lia|].
  rw (bool_decide_true (o <= length s)) /=; [lia|].
  rw sz_small; [rw /size_max; lia|]. rw (bool_decide_true (o + len <= length s)) /=; [lia|].
  rw orb_true_r /=.
  destruct (splice_split s o len) as (a & m & t & Hs & Ha & Hm & <- & <-); [done..|].
  assert (length s = length a + length m + length t)%nat as Hsl by (rw Hs !length_app; lia).
  destruct (decide (length d - len > 0 \/ balloc b <> 0)) as [Hheap|Hempty].
  - assert (exists b1 rest, (if decide (length d - len > 0) then buf_grow b (length d - len) else Ok b)
      = Ok b1 /\ buf_raw b1 s rest p /\ length d - len < length rest) as (b1 & rest & -> & Hr1 & Hroom).
    { by apply splice_room; [|rw /buf_limit; lia|]. }
    destruct Hr1 as (Hb1 & Ha1 & Hle1 & Hl1 & Hp1 & Hne1).
    rw /= Hl1 Hb1. rw !sz_small; rw ?sz_small; [rw /size_max; lia..|].
    replace (length s - o - len) with (length t : Z) by lia.
    replace (o + len) with (length a + length m) by lia.
    replace (o + length d) with (length a + length d) by lia.
    destruct (splice_bytes (Some <$> a) (Some <$> m) (Some <$> t) rest d
      ((Some <$> s) ++ rest)) as (r' & Hsp & Hlr).
    { by rw Hs !fmap_app -!assoc_L. }
    { rw !length_fmap. lia. }
    rw !length_fmap in Hsp Hlr. revert Hsp.
    replace (length d - length m) with (length d - len) by lia.
    replace (Z.of_nat (length a)) with o by lia.
    rw Nat2Z.id firstn_all. destruct (decide (length d <= length d)) as [_|?]; [|lia].
    intros Hsp. apply bind_Ok in Hsp as (p1 & -> & Hp2). simpl. rw Hp2 /= !fmap_app_app -assoc_L.
    assert (length (a ++ d ++ t) = length a + length d + length t)%nat as Hout.
    { rw !length_app. lia. }
    destruct (buf_setlen_end (MkBuf (BHeap ((Some <$> a ++ d ++ t) ++ r')) (balloc b1)
      (length (a ++ d ++ t)) p) (a ++ d ++ t) r' p (length s + (length d - len)))
      as (b' & Hset & Hr'); [|lia|lia|].
    + rw /buf_raw /= Hout. repeat split; try (done || lia).
      intros ->. simpl in Hlr. lia.
    + do 2 eexists. split; [|done]. by rw -Hset /buf_setlen /= Hp1.
  - rw (decide_False (P:=length d - len > 0)); [lia|].
    destruct Hr as (_ & _ & _ & Hblk).
    destruct (bbuf b) as [| |bs] eqn:Hb; [|done|]; last first.
    { destruct Hblk as (Ha' & _ & junk & ->). rw length_app /= in Ha'. lia. }
    destruct Hblk as [Ha0 Hs0]. rw Hs0 /= in Hsl.
    destruct a, m, t; simpl in Hsl; try lia. simpl in Hm.
    assert (len = 0) as -> by lia. assert (d = []) as -> by (destruct d; simpl in *; [done|lia]).
    rw Hs0 /= in Hp. assert (p = 0) as Hp0 by lia.
    rw /= Hl Hs0 Hb Hpos Hp0 /buf_setlen /= Ha0 /=.
    exists (MkBuf BInitial 0 0 0), 0. done.
Qed.

(** ** Reading *)

Lemma buf_fread_rep b s p size f :
  buf_rep b s p -> 0 <= size -> length s + size < buf_limit ->
  exists b', buf_fread b size f =
      Ok (b', length (take (Z.to_nat size) f) : Z, drop (Z.to_nat size) f) /\
    buf_rep b' (s ++ take (Z.to_nat size) f) p.
Proof.
  intros Hr Hsize Hlim. pose proof Hr as (_ & _ & Hp & _).
  destruct (buf_grow_rep b s p size Hr) as (b1 & junk & Hg & Hr1 & Hj); [lia..|].
  rw /buf_fread Hg /=. set (got := take _ f).
  assert (length got <= size) as Hgot by (rw /got length_take; lia).
  pose proof Hr1 as (Hb & Ha & Hle & Hl & Hpos & _). simpl in Ha.
  rw Hb Hl store_range_at; [by rw length_fmap|rw length_fmap /=; lia|]. simpl.
  rw length_fmap. case_decide as Hn.
  - set (rest := drop (length got) (Some NUL :: junk)).
    assert (length rest = S (length junk) - length got)%nat as Hlr by rw /rest length_drop //.
    rw sz_small; [rw /size_max /buf_limit in Hlim *; lia|].
    destruct (buf_setlen_end (MkBuf (BHeap ((Some <$> s ++ got) ++ rest)) (balloc b1)
      (length (s ++ got)) p) (s ++ got) rest p (length s + length got)) as (b' & Hset & Hr');
      [|lia|rw length_app; lia|].
    + rw /buf_raw /= length_app. repeat split; try (done || lia). intros Hnil.
      rw Hnil /= in Hlr. lia.
    + rw Z.min_l in Hr'; [lia|]. exists b'. split; [|done].
      revert Hset. rw /buf_setlen /= fmap_app_app Hpos. by intros ->.
  - assert (got = []) as -> by (destruct got; simpl in *; [done|lia]). simpl. rw app_nil_r -Hb -Hl.
    destruct b1 as [blk al ln po]. simpl in *. case_decide as Hz.
    + destruct Hr as (_ & _ & _ & Hblk).
      assert (s = [] /\ p = 0) as [-> ->].
      { destruct (bbuf b) as [| |d]; [by destruct Hblk as [_ ->]; simpl in Hp; split; [|lia]|done|].
        destruct Hblk as (Ha' & _ & ? & ->). rw length_app /= in Ha'. lia. }
      destruct (buf_release_rep (MkBuf blk al ln po) [] 0) as (b' & -> & Hrel & _).
      { eapply buf_raw_rep; [exact Hr1|done]. }
      exists b'. done.
    + eexists. split; [done|]. eapply buf_raw_rep; [exact Hr1|done].
Qed.

(** What a descriptor delivers: all its bytes up to the end ([true]) or to an error. *)
Fixpoint fd_contents (fd : list read_event) : bool * list char :=
  match fd with
  | [] => (true, [])
  | RdRetry :: fd => fd_contents fd
  | RdFail :: _ => (false, [])
  | RdData [] :: _ => (true, [])
  | RdData bs :: fd => let '(ok, t) := fd_contents fd in (ok, bs ++ t)
  end.

Lemma fd_contents_data bs fd :
  bs <> [] -> fd_contents (RdData bs :: fd) = ((fd_contents fd).1, bs ++ (fd_contents fd).2).
Proof. intros ?. destruct bs; [done|]. simpl. by destruct (fd_contents fd). Qed.

Lemma try_read_spec fd count r fd' :
  (0 < count)%nat -> try_read fd count = (r, fd') ->
  match r with
  | Some [] => fd_contents fd = (true, [])
  | None => fd_contents fd = (false, [])
  | Some bs => fd_contents fd = ((fd_contents fd').1, bs ++ (fd_contents fd').2) /\
      (length bs <= count)%nat /\ (fd_size fd' < fd_size fd)%nat
  end.
Proof.
  intros Hc. induction fd as [|[bs| |] fd IH]; cbn [try_read].
  - by intros [= <- <-].
  - destruct (decide (bs = [])) as [->|Hbs]; [intros [= <- <-]; by rw take_nil|].
    intros [= <- <-]. rw (fd_contents_data bs fd) //.
    destruct (take count bs) as [|x t] eqn:Ht.
    { apply (f_equal length) in Ht. rw length_take /= in Ht. destruct bs; simpl in *; [done|lia]. }
    rw -Ht length_take. case_decide as Hle.
    + rw take_ge //. simpl. split; [done|]. lia.
    + rw fd_contents_data.
      { intros Hn. apply (f_equal length) in Hn. rw length_drop /= in Hn. lia. }
      rw /= assoc_L take_drop length_drop. split; [done|].
      split; [lia|]. destruct bs; simpl in *; [done|lia].
  - intros Ht. specialize (IH Ht). destruct r as [[|x bs]|]; [done| |done].
    destruct IH as (Heq & ? & ?). split; [done|]. split; [done|]. simpl. lia.
  - by intros [= <- <-].
Qed.

(** Cutting an unfinished buffer back to a prefix of its contents. *)
Lemma buf_setlen_back b s got rest p :
  buf_raw b (s ++ got) rest p -> 0 <= p <= length s ->
  exists b', buf_setlen b (length s) = Ok b' /\ buf_rep b' s p.
Proof.
  intros (Hb & Ha & Hle & Hl & Hpos & Hne) Hp. rw length_app in Ha Hl.
  destruct (buf_setlen_end (MkBuf (bbuf b) (balloc b) (length s) p) s ((Some <$> got) ++ rest) p
    (length s)) as (b' & Hset & Hr); [|lia|done|].
  - rw /buf_raw /= Hb fmap_app -assoc_L length_app length_fmap.
    repeat split; try (done || lia). by destruct got.
  - rw Z.min_l in Hr; [lia|]. exists b'. split; [|done]. by rw -Hset /buf_setlen /= Hpos.
Qed.

Lemma buf_read_loop_rep fuel b s got rest p fd oldalloc :
  buf_raw b (s ++ got) rest p -> 0 <= p <= length s -> (1 < length rest)%nat ->
  (oldalloc = 0 -> s = []) -> (fd_size fd < fuel)%nat ->
  length s + length got + length (fd_contents fd).2 + 8192 < buf_limit ->
  exists b' fd', 
    if (fd_contents fd).1
    then buf_read_loop fuel b oldalloc (length s) fd =
           Ok (b', to_int (length got + length (fd_contents fd).2), fd') /\
         buf_rep b' (s ++ got ++ (fd_contents fd).2) p
    else buf_read_loop fuel b oldalloc (length s) fd = Ok (b', -1, fd') /\ buf_rep b' s p.
Proof.
  revert b got rest fd. induction fuel as [|fuel IH]; intros b got rest fd Hr Hp Hrest Hold Hf Hlim; [lia|].
  pose proof (buf_avail_raw _ _ _ _ Hr) as Hav. pose proof Hr as (Hb & Ha & Hle & Hl & Hpos & Hne).
  rw length_app in Ha Hl. cbn [buf_read_loop]. rw Hav.
  destruct (try_read fd _) as [r fd'] eqn:Ht.
  apply try_read_spec in Ht; [|lia]. destruct r as [[|x bs]|].
  - rw Ht /= app_nil_r Hb Hl. destruct rest as [|y rest]; [done|].
    rw store_at; [rw length_fmap length_app; lia|]. simpl.
    rw sz_small; [rw /size_max /buf_limit in Hlim *; lia|].
    do 2 eexists. split; [do 4 f_equal; lia|].
    eapply buf_raw_rep; [|rw length_app; lia].
    rw /buf_raw /= length_app. simpl in Ha. repeat split; try (done || lia).
  - destruct Ht as (Hfd & Hbs & Hsz). remember (x :: bs) as bs' eqn:Hbs'. clear Hbs' x bs.
    rw Hfd /= in Hlim *. rw length_app in Hlim. rw Hb Hl.
    rw store_range_at; [rw length_fmap length_app; lia|rw length_fmap; lia|]. simpl.
    rw length_fmap fmap_app_app. rw sz_small; [rw /size_max /buf_limit in Hlim *; lia|].
    destruct (buf_grow_raw (MkBuf (BHeap ((Some <$> (s ++ got) ++ bs') ++ drop (length bs') rest))
      (balloc b) ((length s + length got)%nat + length bs') (bpos b)) ((s ++ got) ++ bs')
      (drop (length bs') rest) p 8192) as (b1 & junk & -> & Hr1 & Hj); [|done| |].
    { rw /buf_raw /= !length_app length_drop. repeat split; try (done || lia).
      intros Hn. apply (f_equal length) in Hn. rw length_drop /= in Hn. lia. }
    { rw !length_app. lia. }
    rw -assoc_L in Hr1. simpl.
    destruct (IH b1 (got ++ bs') _ fd' Hr1) as (b' & fd'' & Hres); [done|lia|done|lia| |].
    { rw length_app. lia. }
    exists b', fd''. destruct ((fd_contents fd').1); [|done].
    destruct Hres as [-> Hres]. rw -assoc_L in Hres. split; [|done].
    rw !length_app. do 4 f_equal. lia.
  - rw Ht /=. case_decide as Ho.
    + destruct (buf_setlen_back b s got rest p Hr Hp) as (b' & -> & Hr'). by exists b', fd'.
    + rw Hold /= in Hp |- *; [lia|].
      assert (p = 0) as -> by lia.
      rw /buf_release decide_True; [destruct rest; simpl in *; [done|lia]|]. rw Hb /=.
      by exists (MkBuf BInitial 0 0 0), fd'.
Qed.

Lemma buf_rep_unallocated b s p : buf_rep b s p -> balloc b = 0 -> s = [].
Proof.
  intros (_ & _ & _ & Hblk) Ha. destruct (bbuf b) as [| |d]; [by destruct Hblk|done|].
  destruct Hblk as (Ha' & _ & ? & ->). rw length_app /= in Ha'. lia.
Qed.

Lemma buf_read_rep b s p fd hint :
  buf_rep b s p -> 0 <= hint ->
  length s + length (fd_contents fd).2 + hint + 8192 < buf_limit ->
  exists b' fd',
    if (fd_contents fd).1
    then buf_read b fd hint = Ok (b', to_int (length (fd_contents fd).2), fd') /\
         buf_rep b' (s ++ (fd_contents fd).2) p
    else buf_read b fd hint = Ok (b', -1, fd') /\ buf_rep b' s p.
Proof.
  intros Hr Hh Hlim. pose proof Hr as (Hl & _ & Hp & _).
  set (n := if decide (hint <> 0) then hint else 8192).
  assert (1 <= n <= hint + 8192) as Hn by (rw /n; case_decide; lia).
  destruct (buf_grow_rep b s p n Hr) as (b1 & junk & Hg & Hr1 & Hj); [lia..|].
  rw /buf_read -/n Hg /= Hl.
  destruct (buf_read_loop_rep (S (fd_size fd)) b1 s [] (Some NUL :: junk) p fd (balloc b))
    as (b' & fd' & Hres); [by rw app_nil_r|lia|simpl; lia| |lia|simpl; lia|by exists b', fd'].
  by apply buf_rep_unallocated with p.
Qed.

(** The characters of a block up to its terminating null, as strdup(), strlen()
    and the like read them. *)
Fixpoint read_cstr (d : list byte) : res cstring :=
  match d with
  | [] => Err OutOfBounds
  | None :: _ => Err UninitRead
  | Some v :: d => if decide (v = NUL) then Ok [] else (cons v) <$> read_cstr d
  end.

Definition cstr_of (blk : block) : res cstring :=
  match blk with
  | BInitial => Ok []
  | BNull => Err NullDeref
  | BHeap d => read_cstr d
  end.

(** The part of a text before its first null. *)
Fixpoint until_nul (s : cstring) : cstring :=
  match s with
  | [] => []
  | ch :: s => if decide (ch = NUL) then [] else ch :: until_nul s
  end.

Lemma read_cstr_app s junk : read_cstr ((Some <$> s) ++ Some NUL :: junk) = Ok (until_nul s).
Proof.
  induction s as [|ch s IH]; simpl; [done|]. case_decide; [done|]. by rw IH.
Qed.

Lemma until_nul_id s : NUL ∉ s -> until_nul s = s.
Proof.
  induction s as [|ch s IH]; simpl; [done|]. rw not_elem_of_cons. intros [Hne Hs].
  rw decide_False //. by rw IH.
Qed.

Lemma cstr_of_rep b s p : buf_rep b s p -> cstr_of (bbuf b) = Ok (until_nul s).
Proof.
  intros (_ & _ & _ & Hblk). destruct (bbuf b) as [| |d]; [by destruct Hblk as [_ ->]|done|].
  destruct Hblk as (_ & _ & junk & ->). apply read_cstr_app.
Qed.

#[export] Hint Resolve buf_addch_rep buf_addstr_rep buf_rtrim_rep buf_release_rep : pathcomp.

(** ** Correctness of the operations *)

(** C18: Growing, initialising, releasing and detaching keep a buffer valid: below
    [buf_limit] no size computation wraps around, the block has room for the
    bytes asked for and a terminating null, the contents and position are kept;
    release empties the buffer, and detach hands out a heap block (never the
    static one) that holds the contents as a null-terminated string. *)
Theorem buf_allocation_spec b s p extra :
  buf_rep b s p -> 0 <= extra -> length s + extra < buf_limit ->
  (exists b', buf_grow b extra = Ok b' /\ buf_rep b' s p /\ extra <= buf_avail b') /\
  (exists b', buf_init extra = Ok b' /\ buf_rep b' [] 0) /\
  (exists b', buf_release b = Ok b' /\ buf_rep b' [] 0 /\ balloc b' = 0) /\
  (exists d b', buf_detach b = Ok (BHeap d, length s : Z, b') /\
     cstr_of (BHeap d) = Ok (until_nul s) /\ buf_rep b' [] 0).
Proof.
  intros Hr He Hlim. pose proof Hr as (_ & _ & Hp & _). split; [|split; [|split]].
  - destruct (buf_grow_rep b s p extra Hr) as (b' & junk & -> & Hr' & ?); [done..|].
    exists b'. split; [done|]. split; [by eapply buf_raw_rep|].
    rw (buf_avail_raw _ _ _ _ Hr') /=. lia.
  - apply buf_init_rep. lia.
  - by eapply buf_release_rep.
  - destruct (buf_detach_rep b s p Hr) as (junk & ->); [lia|].
    do 2 eexists. split; [done|]. split; [apply read_cstr_app|done].
Qed.

(** C19: The operations that add to a buffer append exactly what they are given,
    with every store inside the block: a character (converted to [char]), bytes,
    a string, or formatted text (also when the first attempt to print does not
    fit and the buffer has to grow). *)
Theorem buf_append_spec b s p ch t fmt ap out :
  buf_rep b s p -> length s + length t + length out + 64 < buf_limit ->
  vformat fmt ap = Some out -> length out <= int_max ->
  (exists b', buf_addch b ch = Ok b' /\ buf_rep b' (s ++ [to_char ch]) p) /\
  (exists b', buf_add b (Some t) (length t) = Ok b' /\ buf_rep b' (s ++ t) p) /\
  (exists b', buf_addstr b t = Ok b' /\ buf_rep b' (s ++ t) p) /\
  (exists b', buf_addf b fmt ap = Ok b' /\ buf_rep b' (s ++ out) p).
Proof.
  intros Hr Hlim Hf Hout. split; [|split; [|split]].
  - apply buf_addch_rep; [done|lia].
  - apply buf_addstr_rep; [done|lia].
  - apply buf_addstr_rep; [done|lia].
  - eapply buf_addf_rep; [done..|lia].
Qed.

(** [buf_read] appends everything the descriptor delivers, however the kernel
    cuts it into pieces and however often it is interrupted, and returns the
    number of bytes as an [int]; when read() fails, it returns -1 and the buffer
    holds what it held before the call. It always returns. *)
Theorem buf_read_spec b s p fd hint :
  buf_rep b s p -> 0 <= hint ->
  length s + length (fd_contents fd).2 + hint + 8192 < buf_limit ->
  exists b' fd',
    if (fd_contents fd).1
    then buf_read b fd hint = Ok (b', to_int (length (fd_contents fd).2), fd') /\
         buf_rep b' (s ++ (fd_contents fd).2) p
    else buf_read b fd hint = Ok (b', -1, fd') /\ buf_rep b' s p.
Proof. apply buf_read_rep. Qed.

(** [buf_splice] replaces the [len] bytes at an offset (counted from the end
    when negative) by the given data, when the range lies in the contents; an
    offset or a range outside the contents fails an assertion. *)
Theorem buf_splice_spec b s p (off len : Z) d :
  buf_rep b s p -> 0 <= len <= int_max -> int_min <= off <= int_max ->
  length s + length d <= int_max ->
  let o := if decide (off < 0) then length s + off else off in
  if decide (0 <= o /\ o + len <= length s)
  then exists b' p', buf_splice b off len (Some d) (length d) = Ok b' /\
    buf_rep b' (take (Z.to_nat o) s ++ d ++ drop (Z.to_nat (o + len)) s) p'
  else buf_splice b off len (Some d) (length d) = Err AssertFail.
Proof.
  intros Hr Hlen Hoff Hmax o. case_decide as Hin.
  { apply (buf_splice_rep b s p off len d); [done|lia|done|apply Hin..]. }
  pose proof Hr as (Hl & _). rw /int_min /int_max in Hlen Hoff Hmax.
  rw /buf_splice Hl.
  assert ((if decide (off < 0) then to_int (length s +z off) else off) = o) as ->.
  { rw /o. case_decide; [|done]. apply to_int_sz. rw /int_min /int_max. lia. }
  destruct (decide (0 <= o)); [|by rw (bool_decide_false (o >= 0)); [lia|]].
  rw (bool_decide_true (o >= 0)); [lia|]. destruct (decide (o <= length s)).
  - rw (bool_decide_true (o <= length s)) //= (sz_small (o + len)); [rw /size_max; lia|].
    by rw (bool_decide_false (o + len <= _)) /=; [lia|].
  - by rw (bool_decide_false (o <= length s)).
Qed.

(** [buf_ltrim] and [buf_rtrim] remove exactly the white space at the start
    and at the end of the contents; the read position moves with the contents. *)
Theorem buf_trim_spec b s p :
  buf_rep b s p ->
  (exists b' w t, buf_ltrim b = Ok b' /\ s = w ++ t /\ Forall (fun ch => isspace ch = true) w /\
     (forall ch, head t = Some ch -> isspace ch = false) /\
     buf_rep b' t (0 `max` (p - length w))) /\
  (exists b' w t, buf_rtrim b = Ok b' /\ s = t ++ w /\ Forall (fun ch => isspace ch = true) w /\
     (forall ch, last t = Some ch -> isspace ch = false) /\
     buf_rep b' t (p `min` length t)).
Proof.
  intros Hr. split.
  - destruct (buf_ltrim_rep b s p Hr) as (b' & -> & Hr').
    destruct (ltrim_split s) as (w & Hs & Hw & Hh). exists b', w, (ltrim s).
    replace (length s - length (ltrim s)) with (length w : Z) in Hr'; [done|].
    rw {1}Hs length_app. lia.
  - destruct (buf_rtrim_rep b s p Hr) as (b' & -> & Hr').
    destruct (rtrim_split s) as (w & Hs & Hw & Hh). by exists b', w, (rtrim s).
Qed.

(** The stream interface: [buf_fgetc] returns the characters in order and then
    EOF, [buf_ungetc] puts back one character, which the next [buf_fgetc]
    returns, and at the start of the buffer it does nothing but return EOF. *)
Theorem buf_stream_spec b s p ch :
  buf_rep b s p ->
  (exists b', buf_fgetc b = Ok (default EOF (s !! Z.to_nat p), b') /\
     buf_rep b' s (if decide (p < length s) then p + 1 else p)) /\
  (if decide (0 < p)
   then exists b' b'', buf_ungetc b ch = Ok (to_char ch, b') /\
     buf_rep b' (<[Z.to_nat (p - 1) := to_char ch]> s) (p - 1) /\
     buf_fgetc b' = Ok (to_char ch, b'') /\ buf_ftell b'' = p
   else buf_ungetc b ch = Ok (EOF, b)) /\
  buf_rep (buf_rewind b) s 0.
Proof.
  intros Hr. pose proof Hr as (_ & Hpos & Hp & _). split; [|split].
  - case_decide.
    + destruct (lookup_lt_is_Some_2 s (Z.to_nat p)) as [c Hc]; [lia|]. rw Hc.
      by apply buf_fgetc_rep.
    + rw lookup_ge_None_2; [lia|]. exists b. split; [|done]. eapply buf_fgetc_eof; [done|lia].
  - case_decide as Hp0.
    + destruct (buf_ungetc_rep b s p ch Hr Hp0) as (b' & -> & Hr').
      destruct (buf_fgetc_rep b' _ _ (to_char ch) Hr') as (b'' & Hf & (_ & Hpos' & _)).
      { apply list_lookup_insert_eq. lia. }
      exists b', b''. rw Hf /buf_ftell Hpos'. split; [done|]. split; [done|]. split; [done|lia].
    + assert (p = 0) as -> by lia. by eapply buf_ungetc_start.
  - by eapply buf_rewind_rep.
Qed.

(** ** Concrete runs *)

Definition demo_buf : buf_t :=
  MkBuf (BHeap ((Some <$> lit " ab ") ++ [Some NUL; None; None])) 7 4 1.

Lemma demo_buf_rep : buf_rep demo_buf (lit " ab ") 1.
Proof. repeat split; try done. by exists [None; None]. Qed.

Lemma buf_allocation_spec_witness :
  exists b', buf_grow demo_buf 100 = Ok b' /\ buf_rep b' (lit " ab ") 1 /\ 100 <= buf_avail b'.
Proof. apply (buf_allocation_spec demo_buf (lit " ab ") 1 100); [exact demo_buf_rep|done|done]. Defined.

Lemma buf_append_spec_witness :
  exists b', buf_addf demo_buf (lit "%d") [AInt (-42)] = Ok b' /\ buf_rep b' (lit " ab -42") 1.
Proof.
  apply (buf_append_spec demo_buf (lit " ab ") 1 0 [] (lit "%d") [AInt (-42)] (lit "-42"));
    [exact demo_buf_rep|done|done|done].
Defined.

Lemma buf_read_spec_witness :
  exists b' fd', buf_read demo_buf [RdData (lit "x"); RdRetry; RdData (lit "yz")] 0 = Ok (b', 3, fd') /\
    buf_rep b' (lit " ab xyz") 1.
Proof.
  apply (buf_read_spec demo_buf (lit " ab ") 1 [RdData (lit "x"); RdRetry; RdData (lit "yz")] 0);
    [exact demo_buf_rep|done|done].
Defined.

Lemma buf_splice_spec_witness :
  exists b' p', buf_splice demo_buf (-3) 2 (Some (lit "xyz")) 3 = Ok b' /\ buf_rep b' (lit " xyz ") p'.
Proof.
  apply (buf_splice_spec demo_buf (lit " ab ") 1 (-3) 2 (lit "xyz"));
    [exact demo_buf_rep|done|done|done].
Defined.

Lemma buf_trim_spec_witness :
  exists b' w t, buf_rtrim demo_buf = Ok b' /\ lit " ab " = t ++ w /\ buf_rep b' t (1 `min` length t).
Proof.
  destruct (buf_trim_spec demo_buf (lit " ab ") 1 demo_buf_rep) as [_ (b' & w & t & H1 & H2 & _ & _ & H3)].
  exists b', w, t. split; [exact H1|]. split; [exact H2|exact H3].
Defined.

Lemma buf_stream_spec_witness :
  exists b', buf_fgetc demo_buf = Ok (97, b') /\ buf_rep b' (lit " ab ") 2.
Proof.
  destruct (buf_stream_spec demo_buf (lit " ab ") 1 97 demo_buf_rep) as [H _]. exact H.
Defined.
