(* ===== verification/Cf.v ===== *)
(** Cf: the parser of configuration files, src/src/cf.c.

    The parser reads its text through the stream interface of a buffer and
    collects names, keys and values in other buffers; it is modelled on the
    buffers of file Buf, character by character. The lists of sections and
    entries are Rocq lists: [list_push] appends (file CList).

    [Spec] is the same language read from a list of characters. The parser is
    shown to implement it, so it never leaves a buffer and always ends, and the
    language is shown to read back every configuration in the printed form. *)

From Corelib Require Import ssreflect.
From stdpp Require Import base list numbers gmap strings.
From Stdlib Require Import ZArith Lia.
From S2P Require Import Prelude Libc Buf.

(** ** Data *)

Record cf_kv_t := MkKv { kv_key : cstring; kv_value : cstring }.

Record cf_section_t := MkSection { sec_name : cstring; sec_entries : list cf_kv_t }.

Record cf_t := MkCf { cf_sections : list cf_section_t }.

#[export] Instance cf_kv_eq_dec : EqDecision cf_kv_t.
Proof. solve_decision. Defined.
#[export] Instance cf_section_eq_dec : EqDecision cf_section_t.
Proof. solve_decision. Defined.
#[export] Instance cf_eq_dec : EqDecision cf_t.
Proof. solve_decision. Defined.

(** [strdup()] of the key and the value. *)
Definition cf_kv_new (key value : block) : res cf_kv_t :=
  k ← cstr_of key;
  v ← cstr_of value;
  Ok (MkKv k v).

Definition cf_section_new (name : block) : res cf_section_t :=
  n ← cstr_of name;
  Ok (MkSection n []).

Definition cf_new : cf_t := MkCf [].

(** The current section is pushed onto the list, if there is one. *)
Definition push_section (secs : list cf_section_t) (sec : option cf_section_t) : list cf_section_t :=
  match sec with Some s => secs ++ [s] | None => secs end.

(** [sec->entries = list_push(sec->entries, kv)]. *)
Definition push_entry (sec : cf_section_t) (kv : cf_kv_t) : cf_section_t :=
  MkSection (sec_name sec) (sec_entries sec ++ [kv]).

(** ** The parser *)

(** The characters left in a buffer: the bound of the loops. *)
Definition left (text : buf_t) : nat := Z.to_nat (blen text - bpos text).

Fixpoint cf_parse_section_name_loop (fuel : nat) (text name : buf_t) : res (bool * buf_t * buf_t) :=
  match fuel with
  | O => Err OutOfFuel
  | S fuel =>
      '(ch, text) ← buf_fgetc text;
      if decide (ch < 0) then Ok (false, text, name)
      else if decide (ch = ch_nl) then Ok (false, text, name)
      else if decide (ch = ch_rbracket) then Ok (true, text, name)
      else
        name ← buf_addch name ch;
        cf_parse_section_name_loop fuel text name
  end.

Definition cf_parse_section_name (text name : buf_t) : res (bool * buf_t * buf_t) :=
  cf_parse_section_name_loop (S (left text)) text name.

(** skip initial spaces *)
Fixpoint cf_skip_spaces (fuel : nat) (text : buf_t) : res buf_t :=
  match fuel with
  | O => Err OutOfFuel
  | S fuel =>
      '(ch, text) ← buf_fgetc text;
      if negb (isspace ch) || bool_decide (ch = ch_nl) then
        '(_, text) ← buf_ungetc text ch;
        Ok text
      else cf_skip_spaces fuel text
  end.

(** parse value *)
Fixpoint cf_parse_value_loop (fuel : nat) (text value : buf_t) : res (buf_t * buf_t) :=
  match fuel with
  | O => Err OutOfFuel
  | S fuel =>
      '(ch, text) ← buf_fgetc text;
      if decide (ch < 0) then Ok (text, value)
      else if decide (ch = ch_backslash) then
        '(ch, text) ← buf_fgetc text;
        if decide (ch = ch_nl) then cf_parse_value_loop fuel text value
        else
          value ← buf_addch value ch_backslash;
          value ← buf_addch value ch;
          cf_parse_value_loop fuel text value
      else if decide (ch = ch_nl) then Ok (text, value)
      else
        value ← buf_addch value ch;
        cf_parse_value_loop fuel text value
  end.

Definition cf_parse_value (text value : buf_t) : res (bool * buf_t * buf_t) :=
  text ← cf_skip_spaces (S (left text)) text;
  '(text, value) ← cf_parse_value_loop (S (left text)) text value;
  Ok (true, text, value).

Fixpoint cf_parse_key_loop (fuel : nat) (text key value : buf_t)
    : res (bool * buf_t * buf_t * buf_t) :=
  match fuel with
  | O => Err OutOfFuel
  | S fuel =>
      '(ch, text) ← buf_fgetc text;
      if decide (ch < 0) then Ok (false, text, key, value)
      else if decide (ch = ch_nl) then Ok (false, text, key, value)
      else if decide (ch = ch_lbracket \/ ch = ch_rbracket) then Ok (false, text, key, value)
      else if decide (ch = ch_equals) then
        key ← buf_rtrim key;
        '(rc, text, value) ← cf_parse_value text value;
        Ok (rc, text, key, value)
      else
        key ← buf_addch key ch;
        cf_parse_key_loop fuel text key value
  end.

Definition cf_parse_key_value_pair (text key value : buf_t) : res (bool * buf_t * buf_t * buf_t) :=
  cf_parse_key_loop (S (left text)) text key value.

(** The sections pushed so far, the current section and the comment flag are
    the state of the loop; the result is the return code and the sections. *)
Fixpoint cf_parse_text_loop (fuel : nat) (secs : list cf_section_t) (sec : option cf_section_t)
    (comment : bool) (text : buf_t) : res (bool * list cf_section_t * buf_t) :=
  match fuel with
  | O => Err OutOfFuel
  | S fuel =>
      '(ch, text) ← buf_fgetc text;
      if decide (ch < 0) then Ok (true, push_section secs sec, text)
      else if decide (ch = ch_nl) then cf_parse_text_loop fuel secs sec false text
      else if comment || isspace ch then cf_parse_text_loop fuel secs sec comment text
      else if decide (ch = ch_semicolon \/ ch = ch_hash) then
        cf_parse_text_loop fuel secs sec true text
      else if decide (ch = ch_lbracket) then
        name ← buf_init 0;
        let secs := push_section secs sec in
        '(ok, text, name) ← cf_parse_section_name text name;
        if negb ok then Ok (false, secs, text)
        else
          sec ← cf_section_new (bbuf name);
          _ ← buf_release name;
          cf_parse_text_loop fuel secs (Some sec) comment text
      else if decide (ch = ch_equals) then Ok (false, secs, text)
      else
        '(_, text) ← buf_ungetc text ch;
        key ← buf_init 0;
        value ← buf_init 0;
        '(ok, text, key, value) ← cf_parse_key_value_pair text key value;
        if negb ok then Ok (false, secs, text)
        else
          value ← buf_rtrim value;
          kv ← cf_kv_new (bbuf key) (bbuf value);
          _ ← buf_release key;
          _ ← buf_release value;
          cf_parse_text_loop fuel secs
            (match sec with None => None | Some s => Some (push_entry s kv) end) comment text
  end.

Definition cf_parse_text (cf : cf_t) (text : buf_t) : res (bool * cf_t * buf_t) :=
  '(ok, secs, text) ← cf_parse_text_loop (S (left text)) (cf_sections cf) None false text;
  Ok (ok, MkCf secs, text).

Definition cf_add_from_string (cf : cf_t) (s : cstring) : res (bool * cf_t) :=
  text ← buf_init 0;
  text ← buf_addstr text s;
  '(rc, cf, text) ← cf_parse_text cf text;
  _ ← buf_release text;
  Ok (rc, cf).

Definition cf_add_from_file (cf : cf_t) (f : file) : res (bool * cf_t) :=
  text ← buf_init 0;
  '(text, rc) ← buf_read_file text f 0;
  if decide (rc = -1) then Ok (false, cf)
  else
    '(rc, cf, text) ← cf_parse_text cf text;
    _ ← buf_release text;
    Ok (rc, cf).

(** ** The configuration language, on lists of characters *)

Module Spec.

(** The name of a section up to its bracket; the rest of the text. *)
Fixpoint section_name (t : cstring) : bool * cstring * cstring :=
  match t with
  | [] => (false, [], [])
  | ch :: t =>
      if decide (ch < 0) then (false, [], t)
      else if decide (ch = ch_nl) then (false, [], t)
      else if decide (ch = ch_rbracket) then (true, [], t)
      else let '(ok, name, rest) := section_name t in (ok, ch :: name, rest)
  end.

(** White space other than the newline. *)
Fixpoint skip_spaces (t : cstring) : cstring :=
  match t with
  | ch :: t' => if isspace ch && negb (bool_decide (ch = ch_nl)) then skip_spaces t' else t
  | [] => []
  end.

(** A value up to the end of its line; a backslash and a newline continue the
    line, and a backslash before any other character is kept. A backslash at the
    very end of the text brings in the EOF marker as a character. *)
Fixpoint value_text (t : cstring) : cstring * cstring :=
  match t with
  | [] => ([], [])
  | ch :: t =>
      if decide (ch < 0) then ([], t)
      else if decide (ch = ch_backslash) then
        match t with
        | [] => ([ch_backslash; EOF], [])
        | ch2 :: t =>
            let '(v, rest) := value_text t in
            if decide (ch2 = ch_nl) then (v, rest)
            else (ch_backslash :: ch2 :: v, rest)
        end
      else if decide (ch = ch_nl) then ([], t)
      else let '(v, rest) := value_text t in (ch :: v, rest)
  end.

(** A key up to the equals sign. *)
Fixpoint key_text (t : cstring) : bool * cstring * cstring :=
  match t with
  | [] => (false, [], [])
  | ch :: t =>
      if decide (ch < 0) then (false, [], t)
      else if decide (ch = ch_nl) then (false, [], t)
      else if decide (ch = ch_lbracket \/ ch = ch_rbracket) then (false, [], t)
      else if decide (ch = ch_equals) then (true, [], t)
      else let '(ok, key, rest) := key_text t in (ok, ch :: key, rest)
  end.

(** An entry: its key, its value and the rest of the text. *)
Definition entry (t : cstring) : option (cf_kv_t * cstring) :=
  let '(ok, key, rest) := key_text t in
  if ok then
    let '(v, rest) := value_text (skip_spaces rest) in
    Some (MkKv (until_nul (rtrim key)) (until_nul (rtrim v)), rest)
  else None.

(** A text: the return code and the sections. *)
Fixpoint text_loop (fuel : nat) (secs : list cf_section_t) (sec : option cf_section_t)
    (comment : bool) (t : cstring) : bool * list cf_section_t :=
  match fuel, t with
  | O, _ | _, [] => (true, push_section secs sec)
  | S fuel, ch :: t' =>
      if decide (ch < 0) then (true, push_section secs sec)
      else if decide (ch = ch_nl) then text_loop fuel secs sec false t'
      else if comment || isspace ch then text_loop fuel secs sec comment t'
      else if decide (ch = ch_semicolon \/ ch = ch_hash) then text_loop fuel secs sec true t'
      else if decide (ch = ch_lbracket) then
        let secs := push_section secs sec in
        let '(ok, name, rest) := section_name t' in
        if ok then text_loop fuel secs (Some (MkSection (until_nul name) [])) comment rest
        else (false, secs)
      else if decide (ch = ch_equals) then (false, secs)
      else
        match entry t with
        | None => (false, secs)
        | Some (kv, rest) =>
            text_loop fuel secs ((fun s => push_entry s kv) <$> sec) comment rest
        end
  end.

(** Every step consumes a character, so the length of the text is enough. *)
Definition parse (secs : list cf_section_t) (t : cstring) : bool * list cf_section_t :=
  text_loop (length t) secs None false t.

End Spec.

(** *** The reader of the parser and the rest of the text *)

(** [reads b t]: what is left to read in the valid buffer [b] is [t]. *)
Definition reads (b : buf_t) (t : cstring) : Prop :=
  exists pre, buf_rep b (pre ++ t) (length pre).

Lemma reads_left b t : reads b t -> left b = length t.
Proof. intros (pre & Hl & Hp & _). rw /left Hl Hp length_app. lia. Qed.

Lemma reads_cons b ch t : reads b (ch :: t) -> exists b', buf_fgetc b = Ok (ch, b') /\ reads b' t.
Proof.
  intros (pre & Hr). destruct (buf_fgetc_rep _ _ _ ch Hr) as (b' & ? & Hr').
  { by rw Nat2Z.id list_lookup_middle. }
  exists b'. split; [done|]. exists (pre ++ [ch]). rw -assoc_L length_app Nat2Z.inj_add. done.
Qed.

Lemma reads_nil b : reads b [] -> buf_fgetc b = Ok (EOF, b).
Proof. intros (pre & Hr). eapply buf_fgetc_eof; [done|]. by rw app_nil_r. Qed.

(** Putting back the character just read. *)
Lemma reads_unget b b' ch t :
  is_char ch -> reads b (ch :: t) -> buf_fgetc b = Ok (ch, b') ->
  exists b'', buf_ungetc b' ch = Ok (ch, b'') /\ reads b'' (ch :: t).
Proof.
  intros Hch (pre & Hr) Hg. destruct (buf_fgetc_rep _ _ _ ch Hr) as (b1 & Hg1 & Hr1).
  { by rw Nat2Z.id list_lookup_middle. }
  assert (b1 = b') as -> by congruence.
  destruct (buf_ungetc_rep _ _ _ ch Hr1) as (b2 & Hu & Hr2); [lia|].
  rw to_char_small in Hu Hr2; [done|]. exists b2. split; [done|]. exists pre.
  replace (length pre + 1 - 1) with (length pre : Z) in Hr2 by lia.
  rw Nat2Z.id list_insert_id in Hr2; [by rw list_lookup_middle|]. done.
Qed.

(** At the end of the text, [buf_ungetc] overwrites the last character with the
    EOF marker, which the next read takes for the end again. *)
Lemma reads_unget_eof b pre :
  buf_rep b pre (length pre) -> pre <> [] ->
  exists b', buf_ungetc b EOF = Ok (EOF, b') /\ reads b' [EOF].
Proof.
  intros Hr Hne. destruct pre as [|x pre _] using rev_ind; [done|].
  rw length_app Nat2Z.inj_add /= in Hr.
  destruct (buf_ungetc_rep _ _ _ EOF Hr) as (b' & Hu & Hr'); [lia|].
  exists b'. split; [done|]. exists pre.
  replace (length pre + 1%nat - 1) with (length pre : Z) in Hr' by lia.
  rw Nat2Z.id insert_app_r_alt // Nat.sub_diag in Hr'. done.
Qed.

(** *** The rest of a text is a suffix of it *)

Ltac solve_suffix := first [done | apply suffix_nil | apply suffix_cons_r; solve_suffix].

Lemma section_name_rest t ok name rest :
  Spec.section_name t = (ok, name, rest) -> rest `suffix_of` t.
Proof.
  revert name. induction t as [|ch t IH]; intros name; simpl; [by intros [= <- <- <-]|].
  destruct (Spec.section_name t) as [[ok' nm] r].
  repeat case_decide; intros [= <- <- <-]; try apply suffix_cons_r; try done. by eapply IH.
Qed.

Lemma value_text_rest t v rest : Spec.value_text t = (v, rest) -> rest `suffix_of` t.
Proof.
  remember (length t) as n eqn:Hn. revert t v rest Hn.
  induction (lt_wf n) as [n _ IH]. intros [|ch t] v rest Hn; simpl; [by intros [= <- <-]|].
  destruct t as [|ch2 t].
  { simpl. repeat case_decide; intros [= <- <-]; by apply suffix_nil. }
  destruct (Spec.value_text t) as [v1 r1] eqn:H1.
  destruct (Spec.value_text (ch2 :: t)) as [v2 r2] eqn:H2. simpl in Hn.
  pose proof (IH (length t) ltac:(lia) t v1 r1 eq_refl H1).
  pose proof (IH (S (length t)) ltac:(lia) (ch2 :: t) v2 r2 eq_refl H2).
  repeat case_decide; intros [= <- <-]; solve_suffix.
Qed.

Lemma skip_spaces_rest t : Spec.skip_spaces t `suffix_of` t.
Proof.
  induction t as [|ch t IH]; simpl; [done|]. destruct (_ && _); [by apply suffix_cons_r|done].
Qed.

Lemma key_text_rest t ok key rest :
  Spec.key_text t = (ok, key, rest) ->
  rest `suffix_of` t /\ (ok = true -> (length rest < length t)%nat).
Proof.
  revert ok key rest. induction t as [|ch t IH]; intros ok key rest; simpl; [by intros [= <- <- <-]|].
  destruct (Spec.key_text t) as [[ok' nm] r] eqn:Hk.
  destruct (IH _ _ _ eq_refl) as [IH1 IH2].
  repeat case_decide; intros [= <- <- <-]; (split; [by apply suffix_cons_r|try done; try lia]).
  intros ->. specialize (IH2 eq_refl). lia.
Qed.

Lemma entry_rest t kv rest :
  Spec.entry t = Some (kv, rest) -> rest `suffix_of` t /\ (length rest < length t)%nat.
Proof.
  rw /Spec.entry. destruct (Spec.key_text t) as [[[] key] r] eqn:Hk; [|done].
  destruct (Spec.value_text _) as [v r'] eqn:Hv. intros [= <- <-].
  apply key_text_rest in Hk as [Hs Hl]. specialize (Hl eq_refl).
  pose proof (value_text_rest _ _ _ Hv) as Hr. pose proof (skip_spaces_rest r) as Hsk.
  split; [by do 2 (etrans; [done|])|].
  apply suffix_length in Hr, Hsk. lia.
Qed.

(** *** The loops implement the language *)

Lemma section_name_loop_spec fuel text name acc t ok nm rest :
  reads text t -> Forall is_char t -> buf_rep name acc 0 -> (length t < fuel)%nat ->
  length acc + length t + 1 < buf_limit -> Spec.section_name t = (ok, nm, rest) ->
  exists text' name', cf_parse_section_name_loop fuel text name = Ok (ok, text', name') /\
    reads text' rest /\ buf_rep name' (acc ++ nm) 0.
Proof.
  revert fuel text name acc nm. induction t as [|ch t IH];
    intros fuel text name acc nm Ht Hc Hn Hf Hlim; (destruct fuel as [|fuel]; [simpl in Hf; lia|]); simpl.
  { rw reads_nil // /=. intros [= <- <- <-]. rw app_nil_r. eauto. }
  apply Forall_cons in Hc as [Hch Hc]. simpl in Hlim, Hf.
  destruct (reads_cons _ _ _ Ht) as (text1 & -> & Ht1). simpl.
  destruct (Spec.section_name t) as [[ok' nm'] r'] eqn:Hs.
  repeat case_decide; try (intros [= <- <- <-]; rw app_nil_r; by eauto).
  destruct (buf_addch_rep _ _ _ ch Hn) as (name1 & -> & Hn1); [lia|].
  rw to_char_small // in Hn1. intros [= <- <- <-].
  destruct (IH fuel text1 name1 (acc ++ [ch]) nm') as (text' & name' & Hl & Hr & Hn2);
    [done..|lia|rw length_app /=; lia|done|].
  exists text', name'. by rw -assoc_L in Hn2.
Qed.

Lemma skip_spaces_spec fuel text pre t :
  buf_rep text (pre ++ t) (length pre) -> pre <> [] -> Forall is_char t -> (length t < fuel)%nat ->
  exists text' t', cf_skip_spaces fuel text = Ok text' /\ reads text' t' /\ Forall is_char t' /\
    Spec.value_text t' = Spec.value_text (Spec.skip_spaces t) /\ (length t' <= S (length t))%nat.
Proof.
  revert fuel text pre. induction t as [|ch t IH];
    intros fuel text pre Hr Hne Hc Hf; (destruct fuel as [|fuel]; [simpl in Hf; lia|]); simpl.
  - rw reads_nil; [by exists pre|]. rw app_nil_r in Hr. simpl.
    destruct (reads_unget_eof _ _ Hr Hne) as (text' & -> & Ht'). simpl.
    exists text', [EOF]. repeat split; try done. by repeat constructor.
  - assert (reads text (ch :: t)) as Ht by (by exists pre).
    destruct (reads_cons _ _ _ Ht) as (text1 & Hg & Ht1). rw Hg /=. apply Forall_cons in Hc as [Hch Hc].
    destruct (isspace ch) eqn:Hsp; simpl; [case_bool_decide as Hnl; simpl|].
    1,3: destruct (reads_unget _ _ _ _ Hch Ht Hg) as (text2 & -> & Ht2); simpl;
      exists text2, (ch :: t); repeat split; try done; try (by constructor); simpl; lia.
    destruct (buf_fgetc_rep _ _ _ ch Hr) as (b1 & Hg1 & Hr1).
    { by rw Nat2Z.id list_lookup_middle. }
    assert (b1 = text1) as -> by congruence. simpl in Hf.
    destruct (IH fuel text1 (pre ++ [ch])) as (text' & t' & ? & ? & ? & ? & ?); [| |done|lia|].
    { rw -assoc_L length_app Nat2Z.inj_add. done. }
    { by destruct pre. }
    exists text', t'. repeat split; try done. lia.
Qed.

Lemma value_loop_spec fuel text value acc t v rest :
  reads text t -> Forall is_char t -> buf_rep value acc 0 -> (length t < fuel)%nat ->
  length acc + length t + 2 < buf_limit -> Spec.value_text t = (v, rest) ->
  exists text' value', cf_parse_value_loop fuel text value = Ok (text', value') /\
    reads text' rest /\ buf_rep value' (acc ++ v) 0.
Proof.
  revert text value acc t v. induction fuel as [|fuel IH];
    intros text value acc t v Ht Hc Hv Hf Hlim; [lia|]. destruct t as [|ch t]; simpl.
  { rw reads_nil // /=. intros [= <- <-]. rw app_nil_r. eauto. }
  apply Forall_cons in Hc as [Hch Hc]. simpl in Hlim, Hf.
  destruct (reads_cons _ _ _ Ht) as (text1 & -> & Ht1). simpl.
  destruct (decide (ch < 0)); [intros [= <- <-]; rw app_nil_r; by eauto|].
  destruct (decide (ch = ch_backslash)) as [->|].
  - destruct t as [|ch2 t].
    { rw reads_nil // /=. intros [= <- <-].
      destruct (buf_addch_rep _ _ _ ch_backslash Hv) as (value1 & -> & Hv1); [lia|]. simpl.
      destruct (buf_addch_rep _ _ _ EOF Hv1) as (value2 & -> & Hv2); [rw length_app /=; lia|]. simpl.
      rw -assoc_L in Hv2. destruct fuel as [|fuel]; [simpl in Hf; lia|]. simpl. rw reads_nil // /=. eauto. }
    apply Forall_cons in Hc as [Hch2 Hc]. simpl in Hf, Hlim.
    destruct (reads_cons _ _ _ Ht1) as (text2 & -> & Ht2). simpl.
    destruct (Spec.value_text t) as [v1 r1] eqn:Hvt.
    case_decide; intros [= <- <-]; [eapply IH; [done..|lia|lia|done]|].
    destruct (buf_addch_rep _ _ _ ch_backslash Hv) as (value1 & -> & Hv1); [lia|]. simpl.
    destruct (buf_addch_rep _ _ _ ch2 Hv1) as (value2 & -> & Hv2); [rw length_app /=; lia|]. simpl.
    rw (to_char_small ch2) // -assoc_L in Hv2. change (to_char ch_backslash) with ch_backslash in Hv2.
    destruct (IH text2 value2 (acc ++ [ch_backslash; ch2]) t v1) as (text' & value' & ? & ? & Hv3);
      [done..|lia|rw length_app /=; lia|done|].
    rw -assoc_L in Hv3. eauto.
  - destruct (decide (ch = ch_nl)); [intros [= <- <-]; rw app_nil_r; by eauto|].
    destruct (Spec.value_text t) as [v1 r1] eqn:Hvt. intros [= <- <-].
    destruct (buf_addch_rep _ _ _ ch Hv) as (value1 & -> & Hv1); [lia|]. simpl.
    rw to_char_small // in Hv1.
    destruct (IH text1 value1 (acc ++ [ch]) t v1) as (text' & value' & ? & ? & Hv3);
      [done..|lia|rw length_app /=; lia|done|].
    rw -assoc_L in Hv3. eauto.
Qed.

#[global] Arguments cf_parse_value_loop : simpl never.
#[global] Arguments cf_skip_spaces : simpl never.
#[global] Arguments cf_parse_section_name_loop : simpl never.

Lemma parse_value_spec text value pre t v rest :
  buf_rep text (pre ++ t) (length pre) -> pre <> [] -> Forall is_char t -> buf_rep value [] 0 ->
  length t + 3 < buf_limit -> Spec.value_text (Spec.skip_spaces t) = (v, rest) ->
  exists text' value', cf_parse_value text value = Ok (true, text', value') /\
    reads text' rest /\ buf_rep value' v 0.
Proof.
  intros Hr Hne Hc Hv Hlim Hvt. rw /cf_parse_value (reads_left text t); [by exists pre|].
  destruct (skip_spaces_spec (S (length t)) text pre t) as (text1 & t1 & -> & Ht1 & Hc1 & Heq & Hl);
    [done..|lia|]. rw -Heq in Hvt. simpl.
  destruct (value_loop_spec (S (left text1)) text1 value [] t1 v rest)
    as (text' & value' & -> & ? & ?); [done..|rw (reads_left _ _ Ht1); lia|simpl; lia|done|].
  by exists text', value'.
Qed.

Lemma key_loop_spec fuel text key value acc t ok k rest v rest' :
  reads text t -> Forall is_char t -> buf_rep key acc 0 -> buf_rep value [] 0 ->
  (length t < fuel)%nat -> length acc + length t + 3 < buf_limit ->
  Spec.key_text t = (ok, k, rest) -> Spec.value_text (Spec.skip_spaces rest) = (v, rest') ->
  exists text' key' value', cf_parse_key_loop fuel text key value = Ok (ok, text', key', value') /\
    (exists t', reads text' t') /\
    (ok = true -> reads text' rest' /\ buf_rep key' (rtrim (acc ++ k)) 0 /\ buf_rep value' v 0).
Proof.
  revert fuel text key acc k. induction t as [|ch t IH];
    intros fuel text key acc k Ht Hc Hk Hv Hf Hlim; (destruct fuel as [|fuel]; [simpl in Hf; lia|]); simpl.
  { pose proof Ht. rw reads_nil // /=. intros [= <- <- <-] _. do 3 eexists. split; [done|]. split; [by eauto|done]. }
  apply Forall_cons in Hc as [Hch Hc]. simpl in Hlim, Hf.
  destruct Ht as (pre & Hr). destruct (buf_fgetc_rep _ _ _ ch Hr) as (text1 & -> & Hr1).
  { by rw Nat2Z.id list_lookup_middle. }
  assert (buf_rep text1 ((pre ++ [ch]) ++ t) (length (pre ++ [ch]))) as Hr1'.
  { rw -assoc_L length_app Nat2Z.inj_add. done. }
  assert (reads text1 t) as Ht1 by (by exists (pre ++ [ch])).
  simpl. destruct (Spec.key_text t) as [[ok' k'] r'] eqn:Hkt.
  repeat case_decide; try (intros [= <- <- <-] _; do 3 eexists; split; [done|]; split; [by eauto|done]).
  - intros [= <- <- <-] Hvt. rw app_nil_r.
    destruct (buf_rtrim_rep _ _ _ Hk) as (key1 & -> & Hk1). simpl.
    destruct (parse_value_spec text1 value (pre ++ [ch]) t v rest')
      as (text' & value' & -> & ? & ?); [done|by destruct pre|done|done|lia|done|].
    simpl. do 3 eexists. split; [done|]. split; [by eauto|]. intros _. split; [done|]. split; [|done].
    by rw Z.min_l in Hk1; [lia|].
  - intros [= <- <- <-] Hvt.
    destruct (buf_addch_rep _ _ _ ch Hk) as (key1 & -> & Hk1); [lia|]. simpl.
    rw to_char_small // in Hk1.
    destruct (IH fuel text1 key1 (acc ++ [ch]) k') as (text' & key' & value' & ? & ? & Hok);
      [done|done..|lia|rw length_app /=; lia|done|done|].
    rw -assoc_L in Hok. by exists text', key', value'.
Qed.

#[global] Arguments cf_parse_key_loop : simpl never.
#[global] Arguments cf_parse_key_value_pair : simpl never.

Definition empty_buf : buf_t := MkBuf BInitial 0 0 0.

Lemma empty_buf_rep : buf_rep empty_buf [] 0.
Proof. done. Qed.

(** One entry, from the start of its key. *)
Lemma parse_entry_spec text t :
  reads text t -> Forall is_char t -> length t + 3 < buf_limit ->
  exists ok text' key value, cf_parse_key_value_pair text empty_buf empty_buf = Ok (ok, text', key, value) /\
    (exists t', reads text' t') /\
    match Spec.entry t with
    | None => ok = false
    | Some (kv, rest) => ok = true /\ reads text' rest /\
        exists k v, buf_rep key k 0 /\ buf_rep value v 0 /\
          kv = MkKv (until_nul k) (until_nul (rtrim v))
    end.
Proof.
  intros Ht Hc Hlim. rw /cf_parse_key_value_pair (reads_left _ _ Ht) /Spec.entry.
  destruct (Spec.key_text t) as [[ok k] r] eqn:Hk.
  destruct (Spec.value_text (Spec.skip_spaces r)) as [v r'] eqn:Hv.
  destruct (key_loop_spec (S (length t)) text empty_buf empty_buf [] t ok k r v r')
    as (text' & key & value & -> & ? & Hok); [done..|lia|simpl; lia|done|done|].
  exists ok, text', key, value. split; [done|]. split; [done|]. destruct ok; [|done].
  destruct (Hok eq_refl) as (? & ? & ?). split; [done|]. split; [done|]. by exists (rtrim k), v.
Qed.

Lemma Forall_suffix {A} (P : A -> Prop) l1 l2 : l1 `suffix_of` l2 -> Forall P l2 -> Forall P l1.
Proof. intros [l ->]. by intros [_ ?]%Forall_app. Qed.

Lemma text_loop_spec fuel n secs sec comment text t :
  reads text t -> Forall is_char t -> (length t < fuel)%nat -> (length t <= n)%nat ->
  length t + 3 < buf_limit ->
  exists ok secs' text', cf_parse_text_loop fuel secs sec comment text = Ok (ok, secs', text') /\
    Spec.text_loop n secs sec comment t = (ok, secs') /\ exists t', reads text' t'.
Proof.
  revert n secs sec comment text t. induction fuel as [|fuel IH];
    intros n secs sec comment text t Ht Hc Hf Hn Hlim; [lia|].
  destruct t as [|ch t]; simpl.
  { rw reads_nil // /=. do 3 eexists. split; [done|]. split; [by destruct n|by eauto]. }
  destruct (reads_cons _ _ _ Ht) as (text1 & Hg & Ht1). rw Hg /=.
  apply Forall_cons in Hc as [Hch Hc]. simpl in Hf, Hn, Hlim.
  destruct n as [|n]; [lia|]. cbn [Spec.text_loop].
  destruct (decide (ch < 0)); [do 3 eexists; split; [done|]; by eauto|].
  destruct (decide (ch = ch_nl)); [apply IH; done || lia|].
  destruct (comment || isspace ch); [apply IH; done || lia|].
  destruct (decide (ch = ch_semicolon \/ ch = ch_hash)); [apply IH; done || lia|].
  destruct (decide (ch = ch_lbracket)).
  { rw /cf_parse_section_name (reads_left _ _ Ht1).
    destruct (Spec.section_name t) as [[ok nm] rest] eqn:Hs.
    destruct (section_name_loop_spec (S (length t)) text1 empty_buf [] t ok nm rest)
      as (text2 & name & Hl & Ht2 & Hnm); [done..|lia|simpl; lia|done|].
    change (buf_init 0) with (Ok empty_buf). simpl. rw Hl /=. apply section_name_rest in Hs.
    destruct ok; simpl; [|do 3 eexists; split; [done|]; by eauto].
    rw /cf_section_new (cstr_of_rep _ _ _ Hnm) /=.
    destruct (buf_release_rep _ _ _ Hnm) as (? & -> & _). simpl.
    pose proof (suffix_length _ _ Hs). apply IH; [done|by eapply Forall_suffix|lia..]. }
  destruct (decide (ch = ch_equals)); [do 3 eexists; split; [done|]; by eauto|].
  destruct (reads_unget _ _ _ _ Hch Ht Hg) as (text2 & -> & Ht2). simpl.
  change (MkBuf BInitial 0 0 0) with empty_buf.
  destruct (parse_entry_spec text2 (ch :: t)) as (ok & text3 & key & value & -> & (t3 & Ht3') & He);
    [done|by constructor|simpl; lia|]. simpl.
  destruct (Spec.entry (ch :: t)) as [[kv rest]|] eqn:Hent; [|subst ok; do 3 eexists; split; [done|]; by eauto].
  destruct He as (-> & Ht3 & k & v & Hk & Hv & ->). simpl.
  destruct (buf_rtrim_rep _ _ _ Hv) as (value1 & -> & Hv1). simpl.
  rw /cf_kv_new (cstr_of_rep _ _ _ Hk) (cstr_of_rep _ _ _ Hv1) /=.
  destruct (buf_release_rep _ _ _ Hk) as (? & -> & _). simpl.
  destruct (buf_release_rep _ _ _ Hv1) as (? & -> & _). simpl.
  apply entry_rest in Hent as [Hs Hl]. simpl in Hl.
  destruct sec; (apply IH; [done|eapply Forall_suffix; [done|by constructor]|lia..]).
Qed.

#[global] Arguments cf_parse_text_loop : simpl never.

(** *** Refinement *)

Lemma cf_parse_text_spec cf text t :
  reads text t -> Forall is_char t -> length t + 3 < buf_limit ->
  exists text' t', cf_parse_text cf text =
      Ok ((Spec.parse (cf_sections cf) t).1, MkCf (Spec.parse (cf_sections cf) t).2, text') /\
    reads text' t'.
Proof.
  intros Ht Hc Hlim. rw /cf_parse_text (reads_left _ _ Ht) /Spec.parse.
  destruct (text_loop_spec (S (length t)) (length t) (cf_sections cf) None false text t)
    as (ok & secs & text' & -> & -> & t' & ?); [done|done|lia..|].
  by exists text', t'.
Qed.

Lemma add_string_spec cf s :
  Forall is_char s -> length s + 3 < buf_limit ->
  cf_add_from_string cf s =
    Ok ((Spec.parse (cf_sections cf) s).1, MkCf (Spec.parse (cf_sections cf) s).2).
Proof.
  intros Hc Hlim. rw /cf_add_from_string. change (buf_init 0) with (Ok empty_buf). simpl.
  destruct (buf_addstr_rep empty_buf [] 0 s) as (text & -> & Hr); [done|simpl; lia|]. simpl.
  destruct (cf_parse_text_spec cf text s) as (text' & t' & -> & pre & Hr'); [by exists []|done|lia|].
  simpl. by destruct (buf_release_rep _ _ _ Hr') as (? & -> & _).
Qed.

(** C13: [cf_add_from_string] implements the configuration language: on every
    string it ends without touching memory outside its buffers, adds to the
    configuration exactly the sections of [Spec.parse] and returns its code. *)
Theorem cf_add_from_string_refines cf s :
  Forall is_char s -> length s + 3 < buf_limit ->
  cf_add_from_string cf s =
    Ok ((Spec.parse (cf_sections cf) s).1, MkCf (Spec.parse (cf_sections cf) s).2).
Proof. apply add_string_spec. Qed.

(** [cf_add_from_file] returns 0 and adds nothing when the file cannot be
    opened, read or closed; otherwise it does what [cf_add_from_string] does on
    the bytes of the file. *)
Theorem cf_add_from_file_refines cf f :
  Forall is_char (fd_contents (f_events f)).2 ->
  length (fd_contents (f_events f)).2 + 8192 + 3 < int_max ->
  cf_add_from_file cf f =
    if f_open f && (fd_contents (f_events f)).1 && f_close f
    then Ok ((Spec.parse (cf_sections cf) (fd_contents (f_events f)).2).1,
             MkCf (Spec.parse (cf_sections cf) (fd_contents (f_events f)).2).2)
    else Ok (false, cf).
Proof.
  intros Hc Hlim. rw /int_max in Hlim. rw /cf_add_from_file. change (buf_init 0) with (Ok empty_buf). simpl.
  rw /buf_read_file. destruct (f_open f); [|done]. simpl.
  destruct (buf_read_rep empty_buf [] 0 (f_events f) 0) as (text & fd' & Hres);
    [done|done|rw /buf_limit /=; lia|].
  destruct (fd_contents (f_events f)) as [[] t]; simpl in *; destruct Hres as [-> Hr]; simpl;
    (destruct (f_close f); [|done]); [|done].
  rw to_int_small; [rw /int_min /int_max; lia|]. simpl. rw decide_False; [lia|].
  destruct (cf_parse_text_spec cf text t) as (text' & t' & -> & pre & Hr');
    [by exists []|done|rw /buf_limit; lia|].
  simpl. by destruct (buf_release_rep _ _ _ Hr') as (? & -> & _).
Qed.

(** ** Printing a configuration *)

Definition print_kv (kv : cf_kv_t) : cstring :=
  kv_key kv ++ lit " = " ++ kv_value kv ++ [ch_nl].

Definition print_section (s : cf_section_t) : cstring :=
  [ch_lbracket] ++ sec_name s ++ [ch_rbracket; ch_nl] ++ concat (print_kv <$> sec_entries s).

Definition print_cf (secs : list cf_section_t) : cstring := concat (print_section <$> secs).

(** Characters of the ASCII range other than null and newline. *)
Definition plain (ch : char) : Prop := 0 < ch <= 127 /\ ch <> ch_nl.

(** What the language can express: names without a closing bracket; keys that
    are not empty, do not look like a section or a comment and have no equals
    sign; values that stay on their line. Keys and values have no white space
    at their ends. *)
Definition wf_name (n : cstring) : Prop := Forall (fun ch => plain ch /\ ch <> ch_rbracket) n.

Definition trimmed (s : cstring) : Prop :=
  (forall ch, head s = Some ch -> isspace ch = false) /\
  (forall ch, last s = Some ch -> isspace ch = false).

Definition key_char (ch : char) : Prop :=
  plain ch /\ ch <> ch_lbracket /\ ch <> ch_rbracket /\ ch <> ch_equals.

Definition wf_key (k : cstring) : Prop :=
  k <> [] /\ Forall key_char k /\ trimmed k /\
  head k <> Some ch_semicolon /\ head k <> Some ch_hash.

Definition wf_value (v : cstring) : Prop :=
  Forall plain v /\ trimmed v /\ last v <> Some ch_backslash.

Definition wf_kv (kv : cf_kv_t) : Prop := wf_key (kv_key kv) /\ wf_value (kv_value kv).

Definition wf_section (s : cf_section_t) : Prop := wf_name (sec_name s) /\ Forall wf_kv (sec_entries s).

(** ** Reading the printed form *)

Lemma rtrim_trimmed s : (forall ch, last s = Some ch -> isspace ch = false) -> rtrim s = s.
Proof.
  destruct s as [|ch s _] using rev_ind; [done|]. rw last_snoc rtrim_snoc => Hl.
  by rw (Hl ch eq_refl).
Qed.

Lemma plain_not_nul s : Forall plain s -> NUL ∉ s.
Proof.
  intros Hs Hin. rw Forall_forall in Hs. destruct (Hs NUL Hin) as [? _]. rw /NUL in H. lia.
Qed.

Lemma section_name_print n t :
  wf_name n -> Spec.section_name (n ++ ch_rbracket :: t) = (true, n, t).
Proof.
  induction n as [|ch n IH]; intros Hn; simpl; [done|].
  apply Forall_cons in Hn as [[[? ?] ?] Hn]. rw IH //.
  rw (decide_False (P:=ch < 0)); [lia|]. by rw !decide_False.
Qed.

Lemma key_text_print k t :
  Forall key_char k -> Spec.key_text (k ++ ch_equals :: t) = (true, k, t).
Proof.
  induction k as [|ch k IH]; intros Hk; simpl; [done|].
  apply Forall_cons in Hk as [[[? ?] (? & ? & ?)] Hk]. rw IH //.
  rw (decide_False (P:=ch < 0)); [lia|]. rw !decide_False //. naive_solver.
Qed.

(** A value up to a terminator that a backslash does not precede. *)
Lemma value_text_print v t r :
  Forall plain v -> last v <> Some ch_backslash -> Spec.value_text t = ([], r) ->
  Spec.value_text (v ++ t) = (v, r).
Proof.
  remember (length v) as n eqn:Hn. revert v Hn.
  induction (lt_wf n) as [n _ IH]. intros [|ch v] Hn Hv Hl Ht; [done|].
  apply Forall_cons in Hv as [[? ?] Hv]. simpl in Hn.
  rw /= (decide_False (P:=ch < 0)); [lia|]. case_decide as Hbs.
  - subst ch. destruct v as [|ch2 v]; [done|]. apply Forall_cons in Hv as [[? ?] Hv]. simpl in *.
    rw (IH (length v)) //; [lia| |by rw decide_False]. by destruct v.
  - rw decide_False // (IH (length v)) //; [lia|]. by destruct v.
Qed.

Lemma skip_spaces_trimmed v t :
  (forall ch, head v = Some ch -> isspace ch = false) ->
  Spec.skip_spaces t = t -> Spec.skip_spaces (v ++ t) = v ++ t.
Proof. intros Hv Ht. destruct v as [|ch v]; [done|]. simpl. by rw (Hv ch). Qed.

Lemma key_print_space k : wf_key k -> until_nul (rtrim (k ++ lit " ")) = k.
Proof.
  intros (_ & Hk & [_ Hl] & _). rw rtrim_snoc /= rtrim_trimmed // until_nul_id //.
  apply plain_not_nul. eapply Forall_impl; [done|]. by intros ? [? _].
Qed.

(** An entry whose value ends where [t] makes it end. *)
Lemma entry_print k v t r :
  wf_key k -> Forall plain v -> last v <> Some ch_backslash ->
  (forall ch, head v = Some ch -> isspace ch = false) ->
  Spec.skip_spaces t = t -> Spec.value_text t = ([], r) ->
  Spec.entry (k ++ lit " = " ++ v ++ t) = Some (MkKv k (until_nul (rtrim v)), r).
Proof.
  intros Hk Hv Hl Hh Ht Hr. rw /Spec.entry.
  assert (k ++ lit " = " ++ v ++ t = (k ++ lit " ") ++ ch_equals :: lit " " ++ v ++ t) as ->
    by rw -assoc_L //.
  rw key_text_print.
  { apply Forall_app. split; [apply Hk|]. by repeat constructor. }
  change (lit " " ++ v ++ t) with (32 :: (v ++ t)).
  change (Spec.skip_spaces (32 :: v ++ t)) with (Spec.skip_spaces (v ++ t)).
  rw skip_spaces_trimmed // (value_text_print _ _ r) // key_print_space //.
Qed.

(** The loop at the start of a key reads one entry. *)
Lemma text_loop_entry n secs sec k t kv rest :
  wf_key k -> Spec.entry (k ++ t) = Some (kv, rest) ->
  Spec.text_loop (S n) secs sec false (k ++ t) =
    Spec.text_loop n secs ((fun s => push_entry s kv) <$> sec) false rest.
Proof.
  intros (Hne & Hk & [Hh _] & Hsc & Hha) He. destruct k as [|ch k]; [done|].
  apply Forall_cons in Hk as [[[? ?] (? & ? & ?)] _]. simpl app in *. cbn [Spec.text_loop].
  rw (decide_False (P:=ch < 0)); [lia|]. rw (decide_False (P:=ch = ch_nl)) //.
  rw (Hh ch) //= (decide_False (P:=ch = ch_semicolon \/ _)); [naive_solver|].
  rw (decide_False (P:=ch = ch_lbracket)) // (decide_False (P:=ch = ch_equals)) //. by rw He.
Qed.

Lemma text_loop_kvs n secs s es t :
  Forall wf_kv es -> (length (concat (print_kv <$> es) ++ t) <= n)%nat ->
  exists n', (length t <= n')%nat /\
    Spec.text_loop n secs (Some s) false (concat (print_kv <$> es) ++ t) =
    Spec.text_loop n' secs (Some (MkSection (sec_name s) (sec_entries s ++ es))) false t.
Proof.
  revert n s. induction es as [|kv es IH]; intros n s Hes Hn.
  { exists n. split; [done|]. rw app_nil_r. by destruct s. }
  apply Forall_cons in Hes as [[Hk [Hv [[Hh Hl] Hb]]] Hes]. destruct kv as [k v]. simpl in Hk, Hv, Hh, Hl, Hb.
  assert (concat (print_kv <$> MkKv k v :: es) ++ t =
    k ++ lit " = " ++ v ++ [ch_nl] ++ concat (print_kv <$> es) ++ t) as Hp
    by rw fmap_cons /= /print_kv -!app_assoc //.
  rw Hp in Hn *.
  assert (Spec.entry (k ++ lit " = " ++ v ++ [ch_nl] ++ concat (print_kv <$> es) ++ t)
    = Some (MkKv k v, concat (print_kv <$> es) ++ t)) as He.
  { rw (entry_print k v _ (concat (print_kv <$> es) ++ t)) //.
    by rw rtrim_trimmed // until_nul_id //; apply plain_not_nul. }
  destruct n as [|n].
  { rw length_app in Hn. destruct Hk as [Hne _]. by destruct k; simpl in Hn; [|lia]. }
  rw (text_loop_entry n secs (Some s) k _ _ _ Hk He).
  destruct (IH n (push_entry s (MkKv k v))) as (n' & ? & Heq); [done| |].
  { rw !length_app in Hn. rw length_app. simpl in Hn. lia. }
  exists n'. split; [done|]. simpl in Heq. by rw Heq -assoc_L.
Qed.

Lemma text_loop_print n secs sec cs :
  Forall wf_section cs -> (length (print_cf cs) <= n)%nat ->
  Spec.text_loop n secs sec false (print_cf cs) = (true, push_section secs sec ++ cs).
Proof.
  revert n secs sec. induction cs as [|s cs IH]; intros n secs sec Hcs Hn.
  { rw app_nil_r. by destruct n. }
  apply Forall_cons in Hcs as [[Hnm Hes] Hcs]. destruct s as [nm es]. simpl in Hnm, Hes.
  assert (print_cf (MkSection nm es :: cs) =
    ch_lbracket :: nm ++ ch_rbracket :: ch_nl :: concat (print_kv <$> es) ++ print_cf cs) as Hp.
  { by rw /print_cf /= /print_section /= -!assoc_L. }
  rw Hp in Hn *. destruct n as [|[|n]]; [simpl in Hn; rw ?length_app in Hn; simpl in Hn; lia..|].
  assert (until_nul nm = nm) as Hnul.
  { apply until_nul_id, plain_not_nul. eapply Forall_impl; [done|]. by intros ? [? _]. }
  cbn [Spec.text_loop]. rw section_name_print //=.
  rw Hnul. destruct (text_loop_kvs n (push_section secs sec) (MkSection nm []) es (print_cf cs))
    as (n' & ? & ->); [done| |].
  { simpl in Hn. rw length_app /= in Hn. lia. }
  rw IH //= -app_assoc. done.
Qed.

Lemma concat_Forall {A} (P : A -> Prop) (ls : list (list A)) : Forall (Forall P) ls -> Forall P (concat ls).
Proof. induction 1; simpl; [constructor|]. by apply Forall_app. Qed.

Lemma plain_is_char s : Forall plain s -> Forall is_char s.
Proof. intros Hs. eapply Forall_impl; [done|]. rw /is_char. intros ch [? _]. lia. Qed.

Lemma print_cf_chars cs : Forall wf_section cs -> Forall is_char (print_cf cs).
Proof.
  intros Hcs. apply concat_Forall, Forall_fmap. eapply Forall_impl; [done|]. intros [nm es] [Hn Hes].
  simpl in *. rw /print_section /=. constructor; [done|]. apply Forall_app. split.
  { apply plain_is_char. eapply Forall_impl; [done|]. by intros ? [? _]. }
  constructor; [done|]. constructor; [done|].
  apply concat_Forall, Forall_fmap. eapply Forall_impl; [done|]. intros [k v] [Hk Hv].
  rw /print_kv /=. apply Forall_app. split.
  { apply plain_is_char. eapply Forall_impl; [apply Hk|]. by intros ? [? _]. }
  repeat (constructor; [done|]). apply Forall_app. split; [by apply plain_is_char; apply Hv|].
  by repeat constructor.
Qed.

(** C14: Round trip: adding the printed form of well-formed sections to a
    configuration succeeds and appends exactly these sections, with their names,
    their entries and the order of both. *)
Theorem cf_print_parse cf cs :
  Forall wf_section cs -> length (print_cf cs) + 3 < buf_limit ->
  cf_add_from_string cf (print_cf cs) = Ok (true, MkCf (cf_sections cf ++ cs)).
Proof.
  intros Hcs Hlim. rw add_string_spec //; [by apply print_cf_chars|].
  by rw /Spec.parse text_loop_print.
Qed.

(** The text of one section with one entry, up to the value. *)
Definition one_entry (n k v tail : cstring) : cstring :=
  [ch_lbracket] ++ n ++ [ch_rbracket; ch_nl] ++ k ++ lit " = " ++ v ++ tail.

Lemma parse_one_entry secs n k v tail val rest :
  wf_name n -> wf_key k ->
  Spec.entry (k ++ lit " = " ++ v ++ tail) = Some (MkKv k val, rest) ->
  (forall m s, Spec.text_loop m secs (Some s) false rest = (true, secs ++ [s])) ->
  Spec.parse secs (one_entry n k v tail) = (true, secs ++ [MkSection n [MkKv k val]]).
Proof.
  intros Hn Hk He Hrest. rw /Spec.parse.
  assert (until_nul n = n) as Hnul.
  { apply until_nul_id, plain_not_nul. eapply Forall_impl; [done|]. by intros ? [? _]. }
  assert (exists m, length (one_entry n k v tail) = S (S (S m))) as [m ->].
  { exists (length (one_entry n k v tail) - 3)%nat.
    rw /one_entry !length_app. change (length (lit " = ")) with 3%nat. simpl. lia. }
  rw /one_entry.
  remember (S m) as m' eqn:Hm'. cbn [app Spec.text_loop]. rw section_name_print //=.
  rw Hnul Hm'. by rw (text_loop_entry m secs _ k _ _ _ Hk He) Hrest.
Qed.

Lemma one_entry_chars n k v tail :
  wf_name n -> wf_key k -> Forall is_char v -> Forall is_char tail ->
  Forall is_char (one_entry n k v tail).
Proof.
  intros Hn Hk Hv Ht. rw /one_entry. repeat (apply Forall_app; split); try (by repeat constructor); try done.
  - apply plain_is_char. eapply Forall_impl; [done|]. by intros ? [? _].
  - apply plain_is_char. eapply Forall_impl; [apply Hk|]. by intros ? [? _].
Qed.

(** A backslash as the last character of the text is read together with the
    end of the text, and the value gets both the backslash and a character 0xff
    (the EOF marker), where a text with a newline there has no such character. *)
Theorem cf_backslash_at_end n k v :
  wf_name n -> wf_key k -> Forall plain v -> ch_backslash ∉ v -> trimmed v ->
  length (one_entry n k v [ch_backslash]) + 3 < buf_limit ->
  cf_add_from_string cf_new (one_entry n k v [ch_backslash]) =
    Ok (true, MkCf [MkSection n [MkKv k (v ++ [ch_backslash; EOF])]]).
Proof.
  intros Hn Hk Hv Hb [Hh Hl] Hlim. rw add_string_spec //.
  { apply one_entry_chars; [done..|by apply plain_is_char|by repeat constructor]. }
  rw (parse_one_entry [] n k v _ (v ++ [ch_backslash; EOF]) []) //; last by intros [].
  rw /Spec.entry.
  assert (k ++ lit " = " ++ v ++ [ch_backslash] = (k ++ lit " ") ++ ch_equals :: lit " " ++ v ++ [ch_backslash]) as ->
    by rw -app_assoc //.
  rw key_text_print.
  { apply Forall_app. split; [apply Hk|]. by repeat constructor. }
  change (Spec.skip_spaces (lit " " ++ v ++ [ch_backslash]))
    with (Spec.skip_spaces (v ++ [ch_backslash])).
  rw skip_spaces_trimmed // key_print_space //.
  assert (Spec.value_text (v ++ [ch_backslash]) = (v ++ [ch_backslash; EOF], [])) as ->.
  { clear Hh Hl Hlim. induction v as [|ch v IH]; [done|].
    apply Forall_cons in Hv as [[? ?] Hv]. apply not_elem_of_cons in Hb as [? Hb].
    rw /= IH // !decide_False //. lia. }
  do 3 f_equal. rw rtrim_trimmed; [rw last_app /=; by intros ? [= <-]|].
  apply until_nul_id. rw not_elem_of_app. split; [by apply plain_not_nul|].
  rw !not_elem_of_cons. split; [done|]. split; [done|apply not_elem_of_nil].
Qed.

(** A character outside ASCII in a value ends the value, and when another one
    follows, as in every UTF-8 sequence, it ends the whole text: what comes after
    it is ignored, and the parser still reports success. *)
Theorem cf_non_ascii_truncates n k v ch ch2 rest :
  wf_name n -> wf_key k -> Forall plain v -> trimmed v -> last v <> Some ch_backslash ->
  ch < 0 -> ch2 < 0 -> Forall is_char (ch :: ch2 :: rest) ->
  length (one_entry n k v (ch :: ch2 :: rest)) + 3 < buf_limit ->
  cf_add_from_string cf_new (one_entry n k v (ch :: ch2 :: rest)) =
    Ok (true, MkCf [MkSection n [MkKv k v]]).
Proof.
  intros Hn Hk Hv [Hh Hl] Hb Hch Hch2 Hc Hlim. rw add_string_spec //.
  { apply one_entry_chars; [done..|by apply plain_is_char|done]. }
  rw (parse_one_entry [] n k v _ v (ch2 :: rest)) //; last first.
  { intros [|m] s; [done|]. by rw /= decide_True. }
  rw (entry_print k v (ch :: ch2 :: rest) (ch2 :: rest)) //.
  - simpl. assert (isspace ch = false) as ->; [|done].
    rw /isspace !bool_decide_false; lia || done.
  - by rw /= decide_True.
  - by rw rtrim_trimmed // until_nul_id //; apply plain_not_nul.
Qed.

(** ** Concrete runs *)

Definition demo_sections : list cf_section_t :=
  [MkSection (lit "colormap") [MkKv (lit "root") (lit "/usr/share"); MkKv (lit "root") (lit "/opt")];
   MkSection (lit "output") [MkKv (lit "extension") (lit ".bin")]].

Lemma demo_sections_wf : Forall wf_section demo_sections.
Proof.
  repeat (constructor || split || (intros ? [= <-]) || done).
Qed.

Lemma cf_add_from_string_refines_witness :
  cf_add_from_string cf_new (lit "[a]") = Ok (true, MkCf [MkSection (lit "a") []]).
Proof.
  apply (cf_add_from_string_refines cf_new (lit "[a]")); [|done].
  repeat constructor; done.
Defined.

Lemma cf_add_from_file_refines_witness :
  cf_add_from_file cf_new (MkFile true [RdData (lit "[a"); RdRetry; RdData (lit "]")] true) =
    Ok (true, MkCf [MkSection (lit "a") []]).
Proof.
  apply (cf_add_from_file_refines cf_new (MkFile true [RdData (lit "[a"); RdRetry; RdData (lit "]")] true));
    [|done].
  repeat constructor; done.
Defined.

Lemma cf_print_parse_witness :
  cf_add_from_string cf_new (print_cf demo_sections) = Ok (true, MkCf demo_sections).
Proof. apply (cf_print_parse cf_new demo_sections); [exact demo_sections_wf|done]. Defined.

Lemma demo_key_wf : wf_name (lit "s") /\ wf_key (lit "k").
Proof. repeat (constructor || split || (intros ? [= <-]) || done). Qed.

Lemma cf_backslash_at_end_witness :
  cf_add_from_string cf_new (one_entry (lit "s") (lit "k") (lit "v") [ch_backslash]) =
    Ok (true, MkCf [MkSection (lit "s") [MkKv (lit "k") (lit "v" ++ [ch_backslash; EOF])]]).
Proof.
  apply (cf_backslash_at_end (lit "s") (lit "k") (lit "v")).
  - apply demo_key_wf.
  - apply demo_key_wf.
  - by repeat constructor.
  - apply not_elem_of_cons. split; [done|apply not_elem_of_nil].
  - split; by intros ? [= <-].
  - done.
Defined.

Lemma cf_non_ascii_truncates_witness :
  cf_add_from_string cf_new (one_entry (lit "s") (lit "k") (lit "caf") ([-61; -87] ++ lit "/x")) =
    Ok (true, MkCf [MkSection (lit "s") [MkKv (lit "k") (lit "caf")]]).
Proof.
  apply (cf_non_ascii_truncates (lit "s") (lit "k") (lit "caf") (-61) (-87) (lit "/x")).
  - apply demo_key_wf.
  - apply demo_key_wf.
  - by repeat constructor.
  - split; by intros ? [= <-].
  - done.
  - done.
  - done.
  - by repeat constructor.
  - done.
Defined.
