(* ===== verification/Interp.v ===== *)
(** Interp: the global state of the library, the messages of src/src/log.c, the
    interpreter handle of src/src/interpreter.c and the part of the Lua API the
    library calls.

    Lua itself is a parameter (class [LuaInterp]): loading a chunk gives either a
    message or a program, and a program is what the library can see of its run,
    a tree of accesses to [self] that ends with a result or an error. The stack
    of the interpreter is explicit, so that the balance of pushes and pops that
    [interpreter_cleanup] asserts can be proved. *)

From Corelib Require Import ssreflect.
From stdpp Require Import base list numbers gmap strings.
From Stdlib Require Import ZArith Lia.
From S2P Require Import Prelude Libc Buf Cf.

(** ** Lua, as the library uses it *)

(** What the library puts on the stack of the interpreter. *)
Inductive lua_value :=
| LNil
| LStr (s : cstring)
| LInt (z : Z)
| LFun
| LUser
| LTable.

(** A run of a chunk: [self[key]], continued with the value, until it returns
    (with the string [lua_tostring] gives for the result, or none) or raises. *)
Inductive lua_prog :=
| LReturn (r : option cstring)
| LError (msg : cstring)
| LIndex (key : lua_value) (k : lua_value -> lua_prog).

(** [lua_isstring] and [lua_tostring]: a string, or an integer in decimal. *)
Definition lua_tostring (v : lua_value) : option cstring :=
  match v with
  | LStr s => Some s
  | LInt z => Some (fmt_d z)
  | _ => None
  end.

(** The program indexes [self] with strings and numbers only. *)
Fixpoint prog_ok (p : lua_prog) : Prop :=
  match p with
  | LIndex key k => is_Some (lua_tostring key) /\ forall v, prog_ok (k v)
  | _ => True
  end.

(** [luaL_loadstring]: a message, or the chunk; the chunk gets the composer as
    its argument ([true]) or no argument. *)
Class LuaInterp := { lua_load : cstring -> cstring + (bool -> lua_prog) }.

(** Whatever the chunk is given, it indexes [self] with strings and numbers only. *)
Definition code_ok `{LuaInterp} (src : cstring) : Prop :=
  match lua_load src with inl _ => True | inr chunk => forall b, prog_ok (chunk b) end.

(** ** Global state *)

(** A [lua_State]: its stack (top first) and the registered metatables. *)
Record lua_State := MkLua { l_stack : list lua_value; l_metatables : list cstring }.

(** The heap strings: those alive, and the addresses of those that were freed,
    which are not given out again, so that a use of a dangling pointer shows. *)
Record heap := MkHeap { hp_strs : gmap loc cstring; hp_freed : gset loc }.
Coercion hp_strs : heap >-> gmap.

(** The static variables [state] of interpreter.c and [config] of pathcomp.c, the
    heap strings that evaluation results live in, and what was logged. *)
Record world := MkWorld {
  w_lua : option lua_State;
  w_config : option cf_t;
  w_heap : heap;
  w_stderr : list cstring
}.

Definition w_strs (w : world) : gmap loc cstring := hp_strs (w_heap w).

Definition set_lua (w : world) (l : option lua_State) : world :=
  MkWorld l (w_config w) (w_heap w) (w_stderr w).
Definition set_config (w : world) (cf : option cf_t) : world :=
  MkWorld (w_lua w) cf (w_heap w) (w_stderr w).
Definition set_heap (w : world) (h : heap) : world :=
  MkWorld (w_lua w) (w_config w) h (w_stderr w).

(** The world before the library is used. *)
Definition world0 : world := MkWorld None None (MkHeap ∅ ∅) [].

(** ** Heap strings *)

(** A new string, as strdup() and buf_detach() return one. *)
Definition str_new (w : world) (s : cstring) : loc * world :=
  let l := fresh (dom (w_strs w) ∪ hp_freed (w_heap w)) in
  (l, set_heap w (MkHeap (<[l := s]> (w_strs w)) (hp_freed (w_heap w)))).

(** [free(p)]. *)
Definition str_free (w : world) (p : option loc) : res world :=
  match p with
  | None => Ok w
  | Some l =>
      match w_strs w !! l with
      | Some _ => Ok (set_heap w (MkHeap (delete l (w_strs w)) ({[l]} ∪ hp_freed (w_heap w))))
      | None => Err DoubleFree
      end
  end.

(** Reading the string at [l]. *)
Definition str_get (w : world) (l : loc) : res cstring :=
  match w_strs w !! l with Some s => Ok s | None => Err UseAfterFree end.

(** [p ? strdup(p) : NULL]. *)
Definition str_dup (w : world) (p : option loc) : res (option loc * world) :=
  match p with
  | None => Ok (None, w)
  | Some l => s ← str_get w l; let '(l', w) := str_new w s in Ok (Some l', w)
  end.

(** ** Logging *)

Definition pathcomp_log_emit (w : world) (fmt : cstring) (ap : list fmt_arg) : res world :=
  match vformat fmt ap with
  | None => Err OutOfBounds
  | Some msg =>
      Ok (MkWorld (w_lua w) (w_config w) (w_heap w)
            (w_stderr w ++ [lit "pathcomp: " ++ msg ++ [ch_nl]]))
  end.

Definition pathcomp_log_debug (w : world) (fmt : cstring) (ap : list fmt_arg) : res world := Ok w.

Definition pathcomp_log_warning (w : world) (fmt : cstring) (ap : list fmt_arg) : res world :=
  pathcomp_log_emit w fmt ap.

Definition pathcomp_log_error (w : world) (fmt : cstring) (ap : list fmt_arg) : res world :=
  pathcomp_log_emit w fmt ap.

#[global] Arguments pathcomp_log_emit : simpl never.
#[global] Arguments pathcomp_log_error : simpl never.

(** ** The interpreter handle *)

(** [luaL_newstate] and [luaL_openlibs]: an empty stack. *)
Definition interpreter_initialize : lua_State := MkLua [] [].

(** The static [state] exists after the call. *)
Definition interpreter_get_state (w : world) : world :=
  match w_lua w with
  | Some _ => w
  | None => set_lua w (Some interpreter_initialize)
  end.

Definition interpreter_cleanup (w : world) : res world :=
  match w_lua w with
  | None => Ok w
  | Some l =>
      _ ← c_assert (bool_decide (length (l_stack l) = 0%nat));
      Ok (set_lua w None)
  end.

(** ** Stack operations of the Lua API *)

Definition lua_stack (w : world) : list lua_value :=
  match w_lua w with Some l => l_stack l | None => [] end.

Definition set_stack (w : world) (st : list lua_value) : world :=
  match w_lua w with
  | Some l => set_lua w (Some (MkLua st (l_metatables l)))
  | None => w
  end.

Definition lua_push (w : world) (v : lua_value) : world := set_stack w (v :: lua_stack w).

(** [lua_pop(L, n)]; popping more than there is is undefined. *)
Definition lua_pop (w : world) (n : nat) : res world :=
  if decide (n <= length (lua_stack w))%nat then Ok (set_stack w (drop n (lua_stack w)))
  else Err OutOfBounds.

(** [lua_pushstring(L, s)]; NULL pushes nil. *)
Definition lua_pushstring (w : world) (s : option cstring) : world :=
  lua_push w (match s with Some s => LStr s | None => LNil end).

Definition lua_pushinteger (w : world) (z : Z) : world := lua_push w (LInt z).

(** [luaL_newmetatable]: registers the name, pushes the table. *)
Definition luaL_newmetatable (w : world) (name : cstring) : world :=
  match w_lua w with
  | Some l =>
      set_lua w (Some (MkLua (LTable :: l_stack l)
        (if decide (name ∈ l_metatables l) then l_metatables l else name :: l_metatables l)))
  | None => w
  end.

Definition has_metatable (w : world) (name : cstring) : bool :=
  match w_lua w with Some l => bool_decide (name ∈ l_metatables l) | None => false end.

(** [luaL_getmetatable]: pushes the table registered under the name, or nil. *)
Definition luaL_getmetatable (w : world) (name : cstring) : world :=
  lua_push w (if has_metatable w name then LTable else LNil).
