(* ===== verification/Value.v ===== *)
(** Value: the values of attributes, src/src/value.c.

    A value is a string, the source of a Lua function or an integer, with the
    string its last evaluation produced. That string is shared with the callers
    of [value_eval], so it lives in the heap of strings of the world and is
    named by its address: evaluating a value again frees it.

    A C pointer to a value is a [lens] into the object that holds the value, the
    composer; the Lua code of a value can read other attributes of the composer
    (the function [index] below), which evaluates and changes other values of
    the same composer while the evaluation is under way. *)

From Corelib Require Import ssreflect.
From stdpp Require Import base list numbers gmap strings.
From Stdlib Require Import ZArith Lia.
From S2P Require Import Prelude Libc Buf Cf Interp.

(** ** Data *)

Inductive value_source :=
| VALUE_STRING
| VALUE_LUA (lua : cstring)
| VALUE_INT (integer : Z).

Record value_t := MkValue { v_source : value_source; v_result : option loc }.

#[export] Instance value_source_eq_dec : EqDecision value_source.
Proof. solve_decision. Defined.
#[export] Instance value_eq_dec : EqDecision value_t.
Proof. solve_decision. Defined.

(** A pointer to a part of an object. *)
Record lens (C V : Type) := MkLens { lget : C -> option V; lset : C -> V -> C }.
Arguments MkLens {C V} lget lset.
Arguments lget {C V} _ _.
Arguments lset {C V} _ _ _.

Definition self_lens {V} : lens V V := MkLens Some (fun _ v => v).

(** ** Constructors *)

(** [while ( *text && isspace( *text)) ++text;] *)
Definition skip_space (text : cstring) : cstring := ltrim text.

(** The text inside the braces of [keyword { ... }]. *)
Definition value_match_and_extract_block (text keyword : cstring) : res (option cstring) :=
  if decide (length text <= length keyword)%nat then Ok None
  else
    buf ← buf_init (length text - length keyword);
    if negb (strneq text keyword (length keyword)) then _ ← buf_release buf; Ok None
    else
      match skip_space (drop (length keyword) text) with
      | [] => _ ← buf_release buf; Ok None
      | ch :: text =>
          if decide (ch <> ch_lbrace) then _ ← buf_release buf; Ok None
          else
            buf ← buf_addstr buf text;
            s ← cstr_of (bbuf buf);
            match strrchr s ch_rbrace with
            | None => _ ← buf_release buf; Ok None
            | Some p =>
                buf ← buf_setlen buf p;
                '(blk, _, _) ← buf_detach buf;
                s ← cstr_of blk;
                Ok (Some s)
            end
      end.

Definition value_new_string (w : world) (text : cstring) : value_t * world :=
  let '(l, w) := str_new w text in (MkValue VALUE_STRING (Some l), w).

Definition lua_preamble : cstring := lit "local self = ...; ".

Definition value_new_lua (source : cstring) : res value_t :=
  buf ← buf_init (length lua_preamble + length source);
  buf ← buf_addstr buf lua_preamble;
  buf ← buf_addstr buf source;
  '(blk, _, _) ← buf_detach buf;
  s ← cstr_of blk;
  Ok (MkValue (VALUE_LUA s) None).

Definition value_new_int (ival : Z) : value_t := MkValue (VALUE_INT ival) None.

Definition value_new_auto (w : world) (text : cstring) : res (value_t * world) :=
  source ← value_match_and_extract_block text (lit "lua");
  match source with
  | Some source => val ← value_new_lua source; Ok (val, w)
  | None => Ok (value_new_string w text)
  end.

(** ** Copying and freeing *)

Definition value_clone_string (w : world) (val : value_t) : res (value_t * world) :=
  match v_result val with
  | None => Err NullDeref
  | Some _ => '(r, w) ← str_dup w (v_result val); Ok (MkValue VALUE_STRING r, w)
  end.

Definition value_clone_lua (w : world) (lua : cstring) (val : value_t) : res (value_t * world) :=
  '(r, w) ← str_dup w (v_result val); Ok (MkValue (VALUE_LUA lua) r, w).

Definition value_clone_int (w : world) (integer : Z) (val : value_t) : res (value_t * world) :=
  '(r, w) ← str_dup w (v_result val); Ok (MkValue (VALUE_INT integer) r, w).

Definition value_clone (w : world) (val : value_t) : res (value_t * world) :=
  match v_source val with
  | VALUE_STRING => value_clone_string w val
  | VALUE_LUA lua => value_clone_lua w lua val
  | VALUE_INT z => value_clone_int w z val
  end.

Definition value_free (w : world) (val : value_t) : res world := str_free w (v_result val).

(** ** Evaluation *)

Section eval.
Context {L : LuaInterp} {C : Type}.

(** [self[key]]: the value, or nothing when the interpreter raises an error
    because calls are nested too deeply. *)
Variable index : lua_value -> C -> world -> res (option lua_value * C * world).

(** How a run ends: with an error message, or with the string of its result. *)
Abbreviation outcome := (cstring + option cstring)%type.

(** [lua_pcall] of a chunk: [self_ok] says whether [self] can be indexed. *)
Fixpoint lua_run (p : lua_prog) (self_ok : bool) (c : C) (w : world) : res (outcome * C * world) :=
  match p with
  | LReturn r => Ok (inr r, c, w)
  | LError msg => Ok (inl msg, c, w)
  | LIndex key k =>
      if self_ok then
        '(v, c, w) ← index key c w;
        match v with
        | Some v => lua_run (k v) self_ok c w
        | None => Ok (inl (lit "C stack overflow"), c, w)
        end
      else Ok (inl (lit "attempt to index local 'self'"), c, w)
  end.

(** [free(val->result); val->result = r]. *)
Definition set_result (r : lens C value_t) (c : C) (w : world) (p : option loc)
    : res (option loc * C * world) :=
  match lget r c with
  | None => Err UseAfterFree
  | Some val =>
      w ← str_free w (v_result val);
      Ok (p, lset r c (MkValue (v_source val) p), w)
  end.

(** The value at [r] is evaluated; [metatable] is [None] when there is no composer. *)
Definition value_eval_lua (r : lens C value_t) (lua : cstring) (metatable : option cstring)
    (c : C) (w : world) : res (option loc * C * world) :=
  let w := interpreter_get_state w in
  match lua_load lua with
  | inl error =>
      let w := lua_push w (LStr error) in
      w ← pathcomp_log_error w (lit "cannot parse Lua code: %s") [AStr error];
      w ← lua_pop w 1;
      set_result r c w None
  | inr chunk =>
      let w := lua_push w LFun in
      '(nargs, w) ←
        match metatable with
        | Some mt =>
            let w := lua_push w LUser in
            let w := luaL_getmetatable w mt in
            w ← lua_pop w 1;
            Ok (1%nat, w)
        | None => Ok (0%nat, w)
        end;
      let self_ok := match metatable with Some mt => has_metatable w mt | None => false end in
      '(out, c, w) ← lua_run (chunk (bool_decide (nargs = 1%nat))) self_ok c w;
      w ← lua_pop w (S nargs);
      match out with
      | inl error =>
          let w := lua_push w (LStr error) in
          w ← pathcomp_log_error w (lit "cannot execute Lua code: %s") [AStr error];
          w ← lua_pop w 1;
          set_result r c w None
      | inr s =>
          let w := lua_pushstring w s in
          match lget r c with
          | None => Err UseAfterFree
          | Some val =>
              w ← str_free w (v_result val);
              let '(p, w) := match s with
                             | Some s => let '(l, w) := str_new w s in (Some l, w)
                             | None => (None, w)
                             end in
              w ← lua_pop w 1;
              Ok (p, lset r c (MkValue (v_source val) p), w)
          end
      end
  end.

Definition value_eval_int (r : lens C value_t) (integer : Z) (c : C) (w : world)
    : res (option loc * C * world) :=
  buf ← buf_init 24;
  buf ← buf_addf buf (lit "%d") [AInt integer];
  match lget r c with
  | None => Err UseAfterFree
  | Some val =>
      w ← str_free w (v_result val);
      '(blk, _, _) ← buf_detach buf;
      s ← cstr_of blk;
      let '(l, w) := str_new w s in
      Ok (Some l, lset r c (MkValue (v_source val) (Some l)), w)
  end.

Definition value_eval (r : lens C value_t) (metatable : option cstring) (c : C) (w : world)
    : res (option loc * C * world) :=
  match lget r c with
  | None => Err UseAfterFree
  | Some val =>
      match v_source val with
      | VALUE_STRING => Ok (v_result val, c, w)
      | VALUE_LUA lua => value_eval_lua r lua metatable c w
      | VALUE_INT z => value_eval_int r z c w
      end
  end.

(** [lua_pushstring(L, val->result)]. *)
Definition push_result (r : lens C value_t) (c : C) (w : world) : res world :=
  match lget r c with
  | None => Err UseAfterFree
  | Some val =>
      match v_result val with
      | None => Ok (lua_pushstring w None)
      | Some l => s ← str_get w l; Ok (lua_pushstring w (Some s))
      end
  end.

(** The number of values pushed. *)
Definition value_push (r : lens C value_t) (metatable : option cstring) (c : C) (w : world)
    : res (nat * C * world) :=
  let w := interpreter_get_state w in
  match lget r c with
  | None => Err UseAfterFree
  | Some val =>
      match v_source val with
      | VALUE_STRING => w ← push_result r c w; Ok (1%nat, c, w)
      | VALUE_LUA lua =>
          '(_, c, w) ← value_eval_lua r lua metatable c w;
          w ← push_result r c w;
          Ok (1%nat, c, w)
      | VALUE_INT z => Ok (1%nat, c, lua_pushinteger w z)
      end
  end.
End eval.

(** ** Dumping *)

(** [result ? result : NULL] as text. *)
Definition dump_result (w : world) (val : value_t) : res cstring :=
  match v_result val with None => Ok (lit "(null)") | Some l => str_get w l end.

(** [addr] is the address of the value, printed in the dump. *)
Definition value_dump (w : world) (buf : buf_t) (addr : Z) (current : bool) (val : value_t) : res buf_t :=
  let marker := if current then 42 else 32 in
  match v_source val with
  | VALUE_STRING =>
      match v_result val with
      | None => Err NullDeref
      | Some l =>
          s ← str_get w l;
          buf_addf buf (lit "       %cstring(0x%x) | %s" ++ [ch_nl]) [AChr marker; APtr addr; AStr s]
      end
  | VALUE_LUA lua =>
      s ← dump_result w val;
      buf_addf buf (lit "       %clua(0x%x)    | %s | (source:) %s" ++ [ch_nl])
        [AChr marker; APtr addr; AStr s; AStr lua]
  | VALUE_INT z =>
      s ← dump_result w val;
      buf_addf buf (lit "       %cint(0x%x)    | %s | (source:) %d" ++ [ch_nl])
        [AChr marker; APtr addr; AStr s; AInt z]
  end.

(** ** Values from text *)

Lemma strrchr_None s ch : strrchr s ch = None <-> ch ∉ s.
Proof.
  induction s as [|x s IH]; simpl; [set_solver|]. rw not_elem_of_cons.
  destruct (strrchr s ch); [naive_solver|]. case_decide; naive_solver.
Qed.

Lemma strrchr_Some s ch i :
  strrchr s ch = Some i <-> exists s1 s2, s = s1 ++ ch :: s2 /\ length s1 = i /\ ch ∉ s2.
Proof.
  revert i. induction s as [|x s IH]; intros i; simpl.
  { split; [done|]. intros ([|??] & ? & ? & _); done. }
  pose proof (strrchr_None s ch) as Hnone. split.
  - destruct (strrchr s ch) as [j|].
    + intros [= <-]. destruct (proj1 (IH j) eq_refl) as (s1 & s2 & -> & <- & ?).
      by exists (x :: s1), s2.
    + case_decide; intros [= <-]. subst. exists [], s. naive_solver.
  - intros ([|y s1] & s2 & Heq & <- & Hn); simplify_eq/=.
    + rw (proj2 (strrchr_None _ _) Hn). by rw decide_True.
    + by rw (proj2 (IH (length s1)) (ex_intro _ s1 (ex_intro _ s2 (conj eq_refl (conj eq_refl Hn))))).
Qed.

Lemma ltrim_app sp ch s :
  Forall (fun ch => isspace ch = true) sp -> isspace ch = false -> ltrim (sp ++ ch :: s) = ch :: s.
Proof. intros Hsp Hch. induction Hsp as [|x sp Hx _ IH]; simpl; [by rw Hch|by rw Hx]. Qed.

(** The text is [keyword], white space and a block in braces with contents [body];
    the block ends at the last closing brace and what follows it is ignored. *)
Definition block_body (keyword text body : cstring) : Prop :=
  exists sp rest, text = keyword ++ sp ++ ch_lbrace :: body ++ ch_rbrace :: rest /\
    Forall (fun ch => isspace ch = true) sp /\ ch_rbrace ∉ rest.

(** The same, computed. *)
Definition find_block (keyword text : cstring) : option cstring :=
  if strneq text keyword (length keyword) then
    match ltrim (drop (length keyword) text) with
    | ch :: t => if decide (ch = ch_lbrace) then (fun p => take p t) <$> strrchr t ch_rbrace else None
    | [] => None
    end
  else None.

Lemma find_block_spec keyword text body :
  find_block keyword text = Some body <-> block_body keyword text body.
Proof.
  rw /find_block /strneq (take_ge keyword) //. split.
  - case_bool_decide as Hk; [|done].
    destruct (ltrim_split (drop (length keyword) text)) as (sp & Hsp & Hall & _).
    destruct (ltrim _) as [|ch t]; [done|]. case_decide; [|done]. subst ch.
    intros (p & (s1 & s2 & -> & <- & Hn)%strrchr_Some & ->)%fmap_Some_1.
    exists sp, s2. rw take_app_length -{1}(take_drop (length keyword) text) Hk Hsp.
    by rw -?app_assoc.
  - intros (sp & rest & -> & Hsp & Hn).
    rw take_app_length bool_decide_true // drop_app_length ltrim_app //=.
    apply fmap_Some. exists (length body). split; [|by rw take_app_length].
    apply strrchr_Some. eauto.
Qed.

Lemma take_no_nul n (s : cstring) : NUL ∉ s -> NUL ∉ take n s.
Proof. intros Hs Hin. apply Hs. rw -(take_drop n s). set_solver. Qed.

(** [buf_detach] followed by a use of the result as a C string. *)
Lemma detach_cstr {A} b s p (k : cstring -> res A) :
  buf_rep b s p -> length s < buf_limit -> NUL ∉ s ->
  ('(blk, _, _) ← buf_detach b; t ← cstr_of blk; k t) = k s.
Proof.
  intros Hr Hl Hn. destruct (buf_detach_rep b s p Hr Hl) as (junk & ->). simpl.
  by rw read_cstr_app until_nul_id.
Qed.

Lemma is_cstr_no_nul s : is_cstr s -> NUL ∉ s.
Proof. intros Hs Hn. by eapply (proj1 (Forall_forall _ _) Hs NUL Hn). Qed.

Lemma extract_block_spec text keyword :
  is_cstr text -> length text < buf_limit ->
  value_match_and_extract_block text keyword = Ok (find_block keyword text).
Proof.
  intros Htext Hlim. rw /value_match_and_extract_block. case_decide as Hle.
  { destruct (find_block keyword text) eqn:Hf; [|done].
    apply find_block_spec in Hf as (sp & rest & -> & _). rw !length_app /= in Hle. lia. }
  destruct (buf_init_rep (length text - length keyword)) as (b & -> & Hb); [lia|]. simpl.
  destruct (buf_release_rep b [] 0 Hb) as (b' & Hrel & _). rw /find_block.
  destruct (strneq text keyword (length keyword)); simpl; [|by rw Hrel].
  rw /skip_space. destruct (ltrim_split (drop (length keyword) text)) as (sp & Hsp & _).
  destruct (ltrim _) as [|ch t]; [by rw Hrel|].
  destruct (decide (ch = ch_lbrace)) as [->|Hne]; case_decide; try done; [|by rw Hrel].
  assert (is_cstr t /\ length t < buf_limit) as [Ht Hlt].
  { rw -(take_drop (length keyword) text) Hsp in Htext Hlim.
    apply Forall_app in Htext as [_ [_ [_ Ht]%Forall_cons]%Forall_app].
    rw !length_app /= in Hlim. split; [done|lia]. }
  apply is_cstr_no_nul in Ht.
  destruct (buf_addstr_rep b [] 0 t Hb) as (b2 & -> & Hb2); [simpl; lia|]. simpl in *.
  rw (cstr_of_rep _ _ _ Hb2) /= until_nul_id //.
  destruct (strrchr t ch_rbrace) as [q|] eqn:Hq; simpl.
  - apply strrchr_Some in Hq as (s1 & s2 & -> & <- & _).
    destruct (buf_setlen_rep b2 _ 0 (length s1) Hb2) as (b3 & -> & Hb3); [rw length_app; lia|].
    simpl. rw (detach_cstr _ _ _ _ Hb3) //; [|by apply take_no_nul].
    rw length_take. lia.
  - by destruct (buf_release_rep b2 t 0 Hb2) as (b4 & -> & _).
Qed.

(** ** Values and the strings they own *)

(** What a value means: its evaluation is a function of this and of what [self]
    answers. *)
Inductive svalue :=
| SString (text : cstring)
| SLua (lua : cstring)
| SInt (integer : Z).

(** The meaning of the text of a value. *)
Definition svalue_of_text (text : cstring) : svalue :=
  match find_block (lit "lua") text with
  | Some body => SLua (lua_preamble ++ body)
  | None => SString text
  end.

(** The strings that belong to values. *)
Definition owned (vs : list value_t) : list loc := omap v_result vs.

Definition live (h : gmap loc cstring) (p : option loc) : Prop :=
  match p with Some l => is_Some (h !! l) | None => True end.

(** The result of an integer, if it has been evaluated, is its numeral. *)
Definition numeral_at (h : gmap loc cstring) (z : Z) (p : option loc) : Prop :=
  match p with Some l => h !! l = Some (fmt_d z) | None => True end.

Inductive val_rep (h : gmap loc cstring) : value_t -> svalue -> Prop :=
| rep_string l t : h !! l = Some t -> val_rep h (MkValue VALUE_STRING (Some l)) (SString t)
| rep_lua lua p : live h p -> val_rep h (MkValue (VALUE_LUA lua) p) (SLua lua)
| rep_int z p :
    int_min <= z <= int_max -> numeral_at h z p -> val_rep h (MkValue (VALUE_INT z) p) (SInt z).

(** The heap [h] consists of the strings of [vs], each owned by one value, and of
    [F], the strings that belong to somebody else. *)
Record vals_rep (F : gmap loc cstring) (vs : list value_t) (ss : list svalue)
    (h : gmap loc cstring) : Prop := {
  vr_vals : Forall2 (val_rep h) vs ss;
  vr_nodup : NoDup (owned vs);
  vr_own l : l ∈ owned vs -> F !! l = None;
  vr_frame l : l ∉ owned vs -> h !! l = F !! l
}.

Lemma val_rep_live h v s l : val_rep h v s -> v_result v = Some l -> is_Some (h !! l).
Proof. intros Hv; inv Hv; simpl; intros; simplify_eq/=; eauto. Qed.

Definition source_of (s : svalue) : value_source :=
  match s with SString _ => VALUE_STRING | SLua lua => VALUE_LUA lua | SInt z => VALUE_INT z end.

Lemma val_rep_source h v s : val_rep h v s -> v_source v = source_of s.
Proof. by destruct 1. Qed.

(** The representation only depends on the strings the value owns. *)
Lemma val_rep_ext h h' v s :
  val_rep h v s -> (forall l, v_result v = Some l -> h' !! l = h !! l) -> val_rep h' v s.
Proof.
  intros Hv Hext. inv Hv; constructor; try done.
  - by rw Hext.
  - destruct p; simpl in *; [|done]. by rw Hext.
  - destruct p; simpl in *; [|done]. by rw Hext.
Qed.

Lemma vals_rep_ext_h h h' vs ss :
  Forall2 (val_rep h) vs ss -> (forall l, l ∈ owned vs -> h' !! l = h !! l) ->
  Forall2 (val_rep h') vs ss.
Proof.
  induction 1 as [|v s vs ss Hv Hvs IH]; intros Hext; constructor.
  - eapply val_rep_ext; [done|]. intros l Hl. apply Hext. rw /owned /= Hl. set_solver.
  - apply IH. intros l Hl. apply Hext. rw /owned /=. destruct (v_result v); set_solver.
Qed.

Lemma vals_rep_nil F : vals_rep F [] [] F.
Proof. split; [constructor|constructor|set_solver|done]. Qed.

(** Giving up a value: what is left once its string is freed. *)
Lemma vals_rep_uncons F v vs s ss h :
  vals_rep F (v :: vs) (s :: ss) h ->
  match v_result v with
  | Some l => is_Some (h !! l) /\ vals_rep F vs ss (delete l h)
  | None => vals_rep F vs ss h
  end.
Proof.
  intros [Hvals Hnd Hown Hfr]. rw /owned /= in Hnd Hown Hfr.
  inv Hvals. destruct (v_result v) as [l|] eqn:Hl; simpl in *.
  - apply NoDup_cons in Hnd as [Hni Hnd]. split; [by eapply val_rep_live|]. split; [|done|set_solver|].
    + eapply vals_rep_ext_h; [done|]. intros l' Hl'. rw lookup_delete_ne; [|done].
      intros ->. done.
    + intros l' Hl'. destruct (decide (l = l')) as [->|].
      * rw lookup_delete_eq. symmetry. apply Hown. set_solver.
      * rw lookup_delete_ne //. apply Hfr. set_solver.
  - split; try done.
Qed.

Lemma owned_live h vs ss l : Forall2 (val_rep h) vs ss -> l ∈ owned vs -> is_Some (h !! l).
Proof.
  induction 1 as [|v s vs ss Hv Hvs IH]; rw /owned /=; [set_solver|].
  destruct (v_result v) eqn:Hr; [|done]. rw elem_of_cons. intros [->|?]; [|auto].
  by eapply val_rep_live.
Qed.

(** Taking over a value that owns no string, or a fresh one. *)
Lemma vals_rep_cons_none F src vs s ss h :
  vals_rep F vs ss h -> val_rep h (MkValue src None) s ->
  vals_rep F (MkValue src None :: vs) (s :: ss) h.
Proof. intros [Hvals Hnd Hown Hfr] Hv. split; try done. by constructor. Qed.

Lemma vals_rep_cons F src l t vs s ss h :
  vals_rep F vs ss h -> h !! l = None ->
  val_rep (<[l := t]> h) (MkValue src (Some l)) s ->
  vals_rep F (MkValue src (Some l) :: vs) (s :: ss) (<[l := t]> h).
Proof.
  intros [Hvals Hnd Hown Hfr] Hl Hv.
  assert (l ∉ owned vs) as Hni.
  { intros Hin. destruct (owned_live _ _ _ _ Hvals Hin). congruence. }
  split; rw /owned /=.
  - constructor; [done|]. eapply vals_rep_ext_h; [done|]. intros l' Hl'.
    rw lookup_insert_ne //. by intros ->.
  - by constructor.
  - intros l'. rw elem_of_cons. intros [->|?]; [|auto]. rw -Hfr //.
  - intros l'. rw not_elem_of_cons. intros [Hne Hn]. rw lookup_insert_ne //. auto.
Qed.

Lemma owned_app vs1 vs2 : owned (vs1 ++ vs2) = owned vs1 ++ owned vs2.
Proof. apply omap_app. Qed.

Lemma owned_cons v vs : owned (v :: vs) = option_list (v_result v) ++ owned vs.
Proof. rw /owned /=. by destruct (v_result v). Qed.

(** The order of the values does not matter. *)
Lemma vals_rep_perm F vs vs' ss ss' h :
  vals_rep F vs ss h -> Forall2 (val_rep h) vs' ss' -> owned vs ≡ₚ owned vs' ->
  vals_rep F vs' ss' h.
Proof.
  intros [Hvals Hnd Hown Hfr] Hvals' Hp. split; [done|by rw -Hp| |].
  - intros l. rw -Hp. apply Hown.
  - intros l. rw -Hp. apply Hfr.
Qed.

Lemma owned_middle vs1 v vs2 : owned (vs1 ++ v :: vs2) ≡ₚ owned (v :: vs1 ++ vs2).
Proof.
  rw owned_app !owned_cons owned_app !app_assoc. by rw (Permutation_app_comm (owned vs1)).
Qed.

Lemma vals_rep_middle F vs1 v vs2 ss1 s ss2 h :
  length vs1 = length ss1 ->
  vals_rep F (vs1 ++ v :: vs2) (ss1 ++ s :: ss2) h <->
  vals_rep F (v :: vs1 ++ vs2) (s :: ss1 ++ ss2) h.
Proof.
  intros Hlen. split; intros Hr; pose proof (vr_vals _ _ _ _ Hr) as Hf.
  - eapply vals_rep_perm; [done| |apply owned_middle].
    apply Forall2_app_inv in Hf as [Hvs1 [Hv Hvs2]%Forall2_cons]; [|done].
    auto using Forall2_app.
  - eapply vals_rep_perm; [done| |symmetry; apply owned_middle].
    apply Forall2_cons in Hf as [Hv [Hvs1 Hvs2]%Forall2_app_inv]; [|done].
    auto using Forall2_app.
Qed.

(** The value at place [k]. *)
Lemma vals_rep_split F vs ss h k v s :
  vals_rep F vs ss h -> vs !! k = Some v -> ss !! k = Some s ->
  vals_rep F (v :: take k vs ++ drop (S k) vs) (s :: take k ss ++ drop (S k) ss) h.
Proof.
  intros Hr Hv Hs. rw -{1}(take_drop_middle _ _ _ Hv) -{1}(take_drop_middle _ _ _ Hs) in Hr.
  apply vals_rep_middle in Hr; [done|].
  rw !length_take. apply lookup_lt_Some in Hv, Hs. lia.
Qed.

Lemma vals_rep_join F vs ss h k v s :
  (k < length vs)%nat -> ss !! k = Some s ->
  vals_rep F (v :: take k vs ++ drop (S k) vs) (s :: take k ss ++ drop (S k) ss) h ->
  vals_rep F (<[k := v]> vs) ss h.
Proof.
  intros Hk Hs Hr. rw insert_take_drop // -(take_drop_middle ss k s) //.
  apply vals_rep_middle; [|done]. rw !length_take. apply lookup_lt_Some in Hs. lia.
Qed.

(** A new address is not in use. *)
Lemma fresh_lookup (h : gmap loc cstring) (X : gset loc) : h !! fresh (dom h ∪ X) = None.
Proof. apply not_elem_of_dom. pose proof (is_fresh (dom h ∪ X)). set_solver. Qed.

(** Storing a new result: the old string is freed, and the new one is fresh. *)
Lemma str_free_rep F vs ss w k v s :
  vals_rep F vs ss (w_strs w) -> vs !! k = Some v -> ss !! k = Some s ->
  exists h, str_free w (v_result v) = Ok (set_heap w h) /\
    vals_rep F (take k vs ++ drop (S k) vs) (take k ss ++ drop (S k) ss) h.
Proof.
  intros Hr Hv Hs. pose proof (vals_rep_uncons _ _ _ _ _ _ (vals_rep_split _ _ _ _ _ _ _ Hr Hv Hs)) as Hu.
  rw /str_free. destruct (v_result v) as [l|].
  - destruct Hu as [[t ->] Hu]. by eexists.
  - exists (w_heap w). by destruct w.
Qed.

(** ** Evaluation *)

(** The results a value can have; the text of a string is never replaced. *)
Definition storable (s : svalue) (o : option cstring) : Prop :=
  match s with
  | SString _ => False
  | SLua _ => True
  | SInt z => o = None \/ o = Some (fmt_d z)
  end.

Lemma str_free_heap w w' p h :
  str_free w p = Ok (set_heap w h) -> w_heap w' = w_heap w -> str_free w' p = Ok (set_heap w' h).
Proof.
  rw /str_free /w_strs => Hf Hw. rw Hw. destruct p as [l|].
  - destruct (hp_strs (w_heap w) !! l); [|done]. injection Hf as Hf. by rw Hf.
  - injection Hf as Hf. apply (f_equal w_heap) in Hf. simpl in Hf. rw -Hf -Hw. by destruct w'.
Qed.

Lemma strs_push w v : w_strs (lua_push w v) = w_strs w.
Proof. rw /lua_push /set_stack. by destruct (w_lua w). Qed.

Definition lua_value_of (o : option cstring) : lua_value :=
  match o with Some t => LStr t | None => LNil end.

Section eval_spec.
Context {L : LuaInterp} {C : Type}.

(** The values in a composer, and what holds of it besides. *)
Variables (vals : C -> list value_t) (Inv : C -> Prop).

(** [r] points to the value at place [k], which can be changed. *)
Definition lens_reads (r : lens C value_t) (k : nat) : Prop :=
  forall c, Inv c -> lget r c = vals c !! k.

Record lens_at (r : lens C value_t) (k : nat) : Prop := {
  la_get : lens_reads r k;
  la_set c v : Inv c -> Inv (lset r c v);
  la_vals c v : Inv c -> vals (lset r c v) = <[k := v]> (vals c)
}.

Variables (F : gmap loc cstring) (ss : list svalue) (metas : list cstring) (cfg : option cf_t).

(** The interpreter has stack [st] and the composer stands for [ss]. *)
Record ready (st : list lua_value) (c : C) (w : world) : Prop := {
  rd_lua : w_lua w = Some (MkLua st metas);
  rd_config : w_config w = cfg;
  rd_inv : Inv c;
  rd_vals : vals_rep F (vals c) ss (w_strs w)
}.

(** What [self[name]] answers. *)
Variable index : lua_value -> C -> world -> res (option lua_value * C * world).
Variable D : cstring -> option lua_value.

Fixpoint den_run (p : lua_prog) (self_ok : bool) : cstring + option cstring :=
  match p with
  | LReturn r => inr r
  | LError msg => inl msg
  | LIndex key k =>
      if self_ok then
        match lua_tostring key ≫= D with
        | Some v => den_run (k v) self_ok
        | None => inl (lit "C stack overflow")
        end
      else inl (lit "attempt to index local 'self'")
  end.

(** The string a Lua value evaluates to; none if the code is wrong or fails. *)
Definition den_lua (lua : cstring) (metatable : option cstring) : option cstring :=
  match lua_load lua with
  | inl _ => None
  | inr chunk =>
      match den_run (chunk (bool_decide (is_Some metatable)))
              (match metatable with Some mt => bool_decide (mt ∈ metas) | None => false end) with
      | inl _ => None
      | inr s => s
      end
  end.

Definition den_value (s : svalue) (metatable : option cstring) : option cstring :=
  match s with
  | SString t => Some t
  | SLua lua => den_lua lua metatable
  | SInt z => Some (fmt_d z)
  end.

(** What the value is for the Lua code of another value: integers stay integers. *)
Definition den_push (s : svalue) (metatable : option cstring) : lua_value :=
  match s with
  | SString t => LStr t
  | SLua lua => lua_value_of (den_lua lua metatable)
  | SInt z => LInt z
  end.

(** The string at [p], if any. *)
Definition result_is (w : world) (p : option loc) (o : option cstring) : Prop :=
  match p, o with
  | Some l, Some t => w_strs w !! l = Some t
  | None, None => True
  | _, _ => False
  end.

Hypothesis index_ok : forall st key name c w, lua_tostring key = Some name -> ready st c w ->
  exists c' w', index key c w = Ok (D name, c', w') /\ ready st c' w'.

Lemma lua_run_ok p self_ok st c w :
  prog_ok p -> ready st c w ->
  exists c' w', lua_run index p self_ok c w = Ok (den_run p self_ok, c', w') /\ ready st c' w'.
Proof.
  revert c w. induction p as [r|msg|key k IH]; intros c w Hp Hr; simpl; [by eauto..|].
  destruct self_ok; [|by eauto]. destruct Hp as [[name Hkey] Hp].
  destruct (index_ok st key name c w Hkey Hr) as (c1 & w1 & -> & Hr1). rw Hkey /=.
  destruct (D name); [by apply IH|by eauto].
Qed.

Lemma ready_push st c w v : ready st c w -> ready (v :: st) c (lua_push w v).
Proof.
  intros [Hl Hc Hi Hv]. rw /lua_push /set_stack /lua_stack Hl /=. by split.
Qed.

Lemma ready_pop st c w n :
  ready st c w -> (n <= length st)%nat ->
  exists w', lua_pop w n = Ok w' /\ ready (drop n st) c w' /\ w_strs w' = w_strs w.
Proof.
  intros [Hl Hc Hi Hv] Hn. rw /lua_pop /set_stack /lua_stack Hl /= decide_True //.
  eexists. split; [done|]. by split.
Qed.

Lemma ready_emit st c w fmt ap out :
  ready st c w -> vformat fmt ap = Some out ->
  exists w', pathcomp_log_emit w fmt ap = Ok w' /\ ready st c w'.
Proof.
  intros [Hl Hc Hi Hv] Hf. rw /pathcomp_log_emit Hf. eexists. split; [done|]. by split.
Qed.

Lemma ready_set_heap st c w (h : heap) c' :
  ready st c w -> Inv c' -> vals_rep F (vals c') ss h -> ready st c' (set_heap w h).
Proof. intros [Hl Hc Hi Hv] Hi' Hv'. by split. Qed.

Lemma ready_get r k s st c w :
  lens_reads r k -> ss !! k = Some s -> ready st c w ->
  exists v, lget r c = Some v /\ vals c !! k = Some v /\ val_rep (w_strs w) v s /\
    (k < length (vals c))%nat.
Proof.
  intros Hget Hs [_ _ Hi Hv]. destruct (Forall2_lookup_r _ _ _ _ _ (vr_vals _ _ _ _ Hv) Hs) as (v & Hk & Hr).
  exists v. rw Hget //. split; [done|]. by eauto using lookup_lt_Some.
Qed.

Lemma push_result_ok r k s st c w p o :
  lens_reads r k -> ss !! k = Some s -> ready st c w -> vals c !! k = Some (MkValue (source_of s) p) -> result_is w p o ->
  push_result r c w = Ok (lua_push w (lua_value_of o)).
Proof.
  intros Hget Hs Hr Hk Hres. destruct (ready_get r k s st c _ Hget Hs Hr) as (v & Hg & Hk' & Hv & _).
  simplify_eq. rw /push_result Hg /=. destruct p as [l|], o as [t|]; try done.
  by rw /str_get Hres.
Qed.

Section at_place.
Variables (r : lens C value_t) (k : nat) (s : svalue).
Hypotheses (Hlens : lens_at r k) (Hs : ss !! k = Some s).

(** [free(val->result)], and then NULL or a new string. *)
Lemma ready_free st c w v :
  ready st c w -> vals c !! k = Some v ->
  exists h, str_free w (v_result v) = Ok (set_heap w h) /\
    vals_rep F (take k (vals c) ++ drop (S k) (vals c)) (take k ss ++ drop (S k) ss) h.
Proof. intros [_ _ _ Hv] Hk. by eapply str_free_rep. Qed.

Lemma ready_store st c w v (h : heap) o :
  ready st c w -> vals c !! k = Some v -> val_rep (w_strs w) v s -> storable s o ->
  vals_rep F (take k (vals c) ++ drop (S k) (vals c)) (take k ss ++ drop (S k) ss) h ->
  let '(p, w') := match o with
                  | Some t => let '(l, w') := str_new (set_heap w h) t in (Some l, w')
                  | None => (None, set_heap w h)
                  end in
  let c' := lset r c (MkValue (v_source v) p) in
  ready st c' w' /\ vals c' !! k = Some (MkValue (v_source v) p) /\ result_is w' p o.
Proof.
  intros Hr Hk Hv Hns Hh. pose proof (lookup_lt_Some _ _ _ Hk) as Hlt.
  assert (forall p, vals (lset r c (MkValue (v_source v) p)) =
                    <[k := MkValue (v_source v) p]> (vals c)) as Hvals.
  { intros p. apply (la_vals _ _ Hlens), Hr. }
  destruct o as [t|]; simpl.
  - set (l := fresh _). assert (hp_strs h !! l = None) as Hl by apply fresh_lookup.
    split; [|split; [|by rw lookup_insert_eq]].
    + apply (ready_set_heap st c w _ _ Hr); [apply (la_set _ _ Hlens), Hr|]. rw Hvals.
      apply (vals_rep_join _ _ _ _ _ _ s); [done..|]. apply vals_rep_cons; [done..|].
      destruct Hv; [done|constructor; by rw /= lookup_insert_eq|constructor; [done|]].
      destruct Hns as [?|[= ->]]; [done|]. by rw /= lookup_insert_eq.
    + rw Hvals list_lookup_insert_eq //.
  - split; [|split; [|done]].
    + eapply ready_set_heap; [done|apply (la_set _ _ Hlens), Hr|]. rw Hvals.
      apply (vals_rep_join _ _ _ _ _ _ s); [done..|]. apply vals_rep_cons_none; [done|].
      by destruct Hv; [done|constructor..].
    + rw Hvals list_lookup_insert_eq //.
Qed.

(** The outcome of an evaluation. *)
Definition evaluated (st : list lua_value) (src : value_source) (o : option cstring)
    (out : res (option loc * C * world)) : Prop :=
  exists p c' w', out = Ok (p, c', w') /\ ready st c' w' /\
    vals c' !! k = Some (MkValue src p) /\ result_is w' p o.

Lemma set_result_ok st c w v :
  ready st c w -> vals c !! k = Some v -> storable s None ->
  evaluated st (v_source v) None (set_result r c w None).
Proof.
  intros Hr Hk Hns. destruct (ready_get r k s st c w (la_get _ _ Hlens) Hs Hr) as (v' & Hg & Hk' & Hv & _). simplify_eq.
  destruct (ready_free st c w v Hr Hk) as (h & Hfree & Hh).
  pose proof (ready_store st c w v h None Hr Hk Hv Hns Hh) as (Hr' & Hk' & Hres).
  rw /set_result Hg Hfree /=. by do 3 eexists.
Qed.

(** An error message is pushed, logged and popped, and the value has no result. *)
Lemma fail_with_error st c w v fmt error out :
  ready st c w -> vals c !! k = Some v -> storable s None ->
  vformat fmt [AStr error] = Some out ->
  evaluated st (v_source v) None
    (w ← pathcomp_log_error (lua_push w (LStr error)) fmt [AStr error];
     w ← lua_pop w 1; set_result r c w None).
Proof.
  intros Hr Hk Hns Hf.
  destruct (ready_emit (LStr error :: st) c (lua_push w (LStr error)) fmt [AStr error] out)
    as (w1 & He & Hr1); [by apply ready_push|done|].
  rw /pathcomp_log_error He /=.
  destruct (ready_pop _ c w1 1 Hr1) as (w2 & -> & Hr2 & _); [simpl; lia|].
  by apply set_result_ok.
Qed.

Lemma value_eval_lua_ok lua metatable st c w :
  ready st c (interpreter_get_state w) -> s = SLua lua -> code_ok lua ->
  evaluated st (VALUE_LUA lua) (den_lua lua metatable) (value_eval_lua index r lua metatable c w).
Proof.
  rw /code_ok => Hr Heq Hcode. rw /value_eval_lua /den_lua. move: (interpreter_get_state w) Hr => {}w Hr.
  assert (forall o, storable s o) as Hns by (by rw Heq).
  destruct (lua_load lua) as [error|chunk].
  { destruct (ready_get r k s st c w (la_get _ _ Hlens) Hs Hr) as (v & _ & Hk & Hv & _).
    apply val_rep_source in Hv. rw Heq /= in Hv. rw -Hv. by eapply fail_with_error. }
  apply (ready_push _ _ _ LFun) in Hr. set (w1 := lua_push w LFun) in *.
  set (ud := match metatable with Some _ => [LUser] | None => [] end).
  assert (exists w2, match metatable with
     | Some mt => w ← lua_pop (luaL_getmetatable (lua_push w1 LUser) mt) 1; Ok (1%nat, w)
     | None => Ok (0%nat, w1) end = Ok (length ud, w2) /\ ready (ud ++ LFun :: st) c w2)
    as (w2 & Hargs & Hr2).
  { destruct metatable as [mt|]; [|by eexists]. rw /luaL_getmetatable.
    apply (ready_push _ _ _ LUser) in Hr. eapply ready_push in Hr.
    destruct (ready_pop _ _ _ 1 Hr) as (w2 & -> & Hr2 & _); [simpl; lia|]. by eexists. }
  rw Hargs. ok_step.
  assert (match metatable with Some mt => has_metatable w2 mt | None => false end =
          match metatable with Some mt => bool_decide (mt ∈ metas) | None => false end) as ->.
  { destruct metatable; [|done]. by rw /has_metatable (rd_lua _ _ _ Hr2). }
  replace (bool_decide (length ud = 1%nat)) with (bool_decide (is_Some metatable))
    by (by destruct metatable).
  set (p := chunk _). set (ok := match metatable with Some _ => _ | None => _ end).
  destruct (lua_run_ok p ok _ c w2 (Hcode _) Hr2) as (c3 & w3 & -> & Hr3). ok_step.
  destruct (ready_pop _ _ _ (S (length ud)) Hr3) as (w4 & -> & Hr4 & _);
    [rw length_app /=; lia|]. ok_step.
  replace (drop (S (length ud)) (ud ++ LFun :: st)) with st in Hr4 by (by destruct metatable).
  destruct (ready_get r k s st c3 w4 (la_get _ _ Hlens) Hs Hr4) as (v & Hg & Hk & Hv & _).
  pose proof (val_rep_source _ _ _ Hv) as Hsrc. rw Heq /= in Hsrc. rw -Hsrc.
  destruct (den_run p ok) as [error|o]; [by eapply fail_with_error|].
  apply (ready_push _ _ _ (lua_value_of o)) in Hr4.
  rw /lua_pushstring -/(lua_value_of o) Hg.
  rw -(strs_push w4 (lua_value_of o)) in Hv.
  set (w5 := lua_push w4 (lua_value_of o)) in *.
  destruct (ready_free _ _ _ v Hr4 Hk) as (h & -> & Hh). ok_step.
  pose proof (ready_store _ _ _ v h o Hr4 Hk Hv (Hns o) Hh) as Hstore.
  destruct (match o with Some _ => _ | None => _ end) as [q w6].
  destruct Hstore as (Hr6 & Hk6 & Hres).
  destruct (ready_pop _ _ _ 1 Hr6) as (w7 & -> & Hr7 & Hstrs); [simpl; lia|].
  do 3 eexists. split; [done|]. split; [done|]. split; [done|].
  by rw /result_is Hstrs.
Qed.

Lemma get_state_heap w : w_heap (interpreter_get_state w) = w_heap w.
Proof. rw /interpreter_get_state. by destruct (w_lua w). Qed.

Lemma get_state_strs w : w_strs (interpreter_get_state w) = w_strs w.
Proof. by rw /w_strs get_state_heap. Qed.

Lemma get_state_set_heap w h :
  interpreter_get_state (set_heap w h) = set_heap (interpreter_get_state w) h.
Proof. rw /interpreter_get_state /=. by destruct (w_lua w). Qed.

Lemma get_state_ready st c w : ready st c w -> interpreter_get_state w = w.
Proof. intros [Hl _ _ _]. by rw /interpreter_get_state Hl. Qed.

(** As [evaluated], when the interpreter may not have been started. *)
Definition evaluated' (st : list lua_value) (src : value_source) (o : option cstring)
    (out : res (option loc * C * world)) : Prop :=
  exists p c' w', out = Ok (p, c', w') /\ ready st c' (interpreter_get_state w') /\
    vals c' !! k = Some (MkValue src p) /\ result_is w' p o.

Lemma value_eval_int_ok z st c w :
  ready st c (interpreter_get_state w) -> s = SInt z ->
  evaluated' st (VALUE_INT z) (Some (fmt_d z)) (value_eval_int r z c w).
Proof.
  intros Hr Heq. rw /value_eval_int.
  destruct (ready_get r k s st c _ (la_get _ _ Hlens) Hs Hr) as (v & Hg & Hk & Hv & _).
  assert (int_min <= z <= int_max) as Hz by (clear -Hv Heq; rw Heq in Hv; by inv Hv).
  pose proof (val_rep_source _ _ _ Hv) as Hsrc. rw Heq /= in Hsrc.
  destruct (buf_init_rep 24) as (b & -> & Hb); [rw /buf_limit; lia|]. ok_step.
  pose proof (fmt_d_length z Hz).
  destruct (buf_addf_rep b [] 0 (lit "%d") [AInt z] (fmt_d z) Hb (vformat_d z))
    as (b' & -> & Hb'); [rw /int_max|rw /buf_limit /=|]; [lia..|]. ok_step.
  destruct (ready_free _ _ _ v Hr Hk) as (h & Hfree & Hh).
  assert (str_free w (v_result v) = Ok (set_heap w h)) as Hfree'.
  { eapply str_free_heap; [done|]. by rw get_state_heap. }
  rw Hg Hfree'. ok_step. rw (detach_cstr _ _ _ _ Hb') /=; [rw /buf_limit /=; lia| |].
  { apply fmt_d_no_nul. }
  assert (storable s (Some (fmt_d z))) as Hns by (rw Heq; by right).
  pose proof (ready_store _ _ _ v h (Some (fmt_d z)) Hr Hk Hv Hns Hh) as (Hr' & Hk' & Hres).
  rw -Hsrc. do 3 eexists. split; [done|]. split; [|done].
  by rw get_state_set_heap get_state_set_heap.
Qed.

End at_place.

Lemma value_eval_ok r k s metatable st c w :
  lens_at r k -> ss !! k = Some s -> (forall lua, s = SLua lua -> code_ok lua) ->
  ready st c (interpreter_get_state w) ->
  evaluated' k st (source_of s) (den_value s metatable) (value_eval index r metatable c w).
Proof.
  intros Hlens Hs Hcode Hr. destruct (ready_get r k s st c _ (la_get _ _ Hlens) Hs Hr) as (v & Hg & Hk & Hv & _).
  pose proof (val_rep_source _ _ _ Hv) as Hsrc. rw /value_eval Hg Hsrc.
  destruct s as [t|lua|z]; simpl in *.
  - inv Hv. exists (Some l), c, w. split; [done|]. split; [done|]. split; [done|].
    by rw /result_is -(get_state_strs w).
  - destruct (value_eval_lua_ok r k _ Hlens Hs lua metatable st c w Hr eq_refl (Hcode _ eq_refl)) as (p & c' & w' & -> & Hr' & ?).
    exists p, c', w'. by rw (get_state_ready st c' w' Hr').
  - by eapply value_eval_int_ok.
Qed.

Lemma value_push_ok r k s metatable st c w :
  lens_reads r k -> ss !! k = Some s -> (forall lua, s = SLua lua -> lens_at r k /\ code_ok lua) ->
  ready st c (interpreter_get_state w) ->
  exists c' w', value_push index r metatable c w = Ok (1%nat, c', w') /\
    ready (den_push s metatable :: st) c' w'.
Proof.
  intros Hget Hs Hlua Hr. destruct (ready_get r k s st c _ Hget Hs Hr) as (v & Hg & Hk & Hv & _).
  pose proof (val_rep_source _ _ _ Hv) as Hsrc. rw /value_push Hg Hsrc.
  destruct s as [t|lua|z]; simpl in Hsrc.
  - inv Hv. rw (push_result_ok r k _ st _ _ (Some l) (Some t) Hget Hs Hr) //.
    simpl. do 2 eexists. split; [done|]. by apply (ready_push _ _ _ (LStr t)).
  - set (w1 := interpreter_get_state w) in *. cbn [source_of].
    assert (Hr1 := Hr). rw -(get_state_ready st c w1 Hr1) in Hr.
    destruct (Hlua lua eq_refl) as [Hlens Hcode].
    destruct (value_eval_lua_ok r k _ Hlens Hs lua metatable st c w1 Hr eq_refl Hcode) as (p & c' & w' & -> & Hr' & Hk' & Hres).
    ok_step. rw (push_result_ok r k _ st _ _ p _ Hget Hs Hr' _ Hres) //. ok_step.
    do 2 eexists. split; [done|]. by apply ready_push.
  - do 2 eexists. split; [done|]. by apply ready_push.
Qed.
End eval_spec.

(** ** Creation, copies and destruction *)

Lemma str_new_rep F vs ss w src t s :
  vals_rep F vs ss (w_strs w) ->
  (forall h l, h !! l = Some t -> val_rep h (MkValue src (Some l)) s) ->
  exists l h, str_new w t = (l, set_heap w h) /\ w_strs w ⊆ hp_strs h /\
    vals_rep F (MkValue src (Some l) :: vs) (s :: ss) h.
Proof.
  intros Hr Hv. rw /str_new. set (l := fresh _).
  assert (w_strs w !! l = None) as Hl by apply fresh_lookup.
  do 2 eexists. split; [done|]. split; [by apply insert_subseteq|].
  apply vals_rep_cons; [done..|]. apply Hv. by rw lookup_insert_eq.
Qed.

Lemma value_new_lua_ok source :
  NUL ∉ source -> length source + 64 < buf_limit ->
  value_new_lua source = Ok (MkValue (VALUE_LUA (lua_preamble ++ source)) None).
Proof.
  intros Hn Hlim. assert (length lua_preamble = 18%nat) as Hpre by done.
  assert (NUL ∉ lua_preamble) as Hnp by (by apply (bool_decide_unpack _); vm_compute).
  rw /value_new_lua. destruct (buf_init_rep (length lua_preamble + length source)) as (b & -> & Hb);
    [lia|]. ok_step.
  destruct (buf_addstr_rep b [] 0 lua_preamble Hb) as (b1 & -> & Hb1); [simpl; lia|]. ok_step.
  destruct (buf_addstr_rep b1 _ 0 source Hb1) as (b2 & -> & Hb2); [simpl; lia|]. ok_step.
  rw (detach_cstr _ _ _ _ Hb2) //.
  - rw length_app /=. lia.
  - set_solver.
Qed.

Lemma find_block_sub keyword text body :
  find_block keyword text = Some body -> (length body <= length text)%nat /\ (NUL ∉ text -> NUL ∉ body).
Proof.
  intros (sp & rest & -> & _)%find_block_spec. rw !length_app /= !length_app. split; [lia|set_solver].
Qed.

(** Where a text ends up: the value has the meaning of the text, and a string
    value owns a new copy of it. *)
Lemma value_new_auto_rep F vs ss w text :
  vals_rep F vs ss (w_strs w) -> is_cstr text -> length text + 64 < buf_limit ->
  exists v h, value_new_auto w text = Ok (v, set_heap w h) /\ w_strs w ⊆ hp_strs h /\
    vals_rep F (v :: vs) (svalue_of_text text :: ss) h.
Proof.
  intros Hr Ht Hlim. rw /value_new_auto extract_block_spec //; [lia|]. ok_step.
  rw /svalue_of_text. destruct (find_block _ text) as [body|] eqn:Hb.
  - apply find_block_sub in Hb as [Hlen Hn]. rw value_new_lua_ok; [by apply Hn, is_cstr_no_nul|lia|].
    ok_step. exists (MkValue (VALUE_LUA (lua_preamble ++ body)) None), (w_heap w).
    split; [by destruct w|]. split; [done|]. by apply vals_rep_cons_none; [|constructor].
  - rw /value_new_string.
    destruct (str_new_rep F vs ss w VALUE_STRING text (SString text) Hr) as (l & h & -> & Hsub & Hr');
      [by constructor|]. by do 2 eexists.
Qed.

Lemma value_new_int_rep F vs ss h z :
  vals_rep F vs ss h -> int_min <= z <= int_max ->
  vals_rep F (value_new_int z :: vs) (SInt z :: ss) h.
Proof. intros Hr Hz. by apply vals_rep_cons_none; [|constructor]. Qed.

(** Copying the result of a value that is not a string, if it has one. *)
Lemma str_dup_rep F vs ss w src p s :
  vals_rep F vs ss (w_strs w) -> live (w_strs w) p -> val_rep (w_strs w) (MkValue src None) s ->
  (forall h l l' t, p = Some l -> w_strs w !! l = Some t -> h !! l' = Some t ->
     val_rep h (MkValue src (Some l')) s) ->
  exists q h, str_dup w p = Ok (q, set_heap w h) /\ w_strs w ⊆ hp_strs h /\
    vals_rep F (MkValue src q :: vs) (s :: ss) h.
Proof.
  intros Hr Hp Hnone Hv. rw /str_dup. destruct p as [l|].
  - destruct Hp as [t Ht]. rw /str_get Ht. ok_step.
    destruct (str_new_rep F vs ss w src t s Hr) as (l' & h & -> & Hsub & Hr');
      [intros; by eapply Hv|]. by do 2 eexists.
  - exists None, (w_heap w). split; [by destruct w|]. split; [done|].
    by apply vals_rep_cons_none.
Qed.

(** A copy means the same and owns a string of its own. *)
Lemma value_clone_rep F vs ss w v s :
  vals_rep F vs ss (w_strs w) -> val_rep (w_strs w) v s ->
  exists v' h, value_clone w v = Ok (v', set_heap w h) /\ w_strs w ⊆ hp_strs h /\
    vals_rep F (v' :: vs) (s :: ss) h.
Proof.
  intros Hr Hv. rw /value_clone. inv Hv; cbn [v_source].
  - rw /value_clone_string /str_dup /str_get. cbn [v_result]. rw H. ok_step.
    destruct (str_new_rep F vs ss w VALUE_STRING t (SString t) Hr) as (l' & h & -> & Hsub & Hr');
      [by constructor|]. by do 2 eexists.
  - destruct (str_dup_rep F vs ss w (VALUE_LUA lua) p (SLua lua) Hr) as (q & h & Hd & Hsub & Hr');
      [done|by constructor|intros; constructor; by eexists|]. rw /value_clone_lua Hd. by do 2 eexists.
  - destruct (str_dup_rep F vs ss w (VALUE_INT z) p (SInt z) Hr) as (q & h & Hd & Hsub & Hr');
      [by destruct p; [eexists|]|by constructor|intros; constructor; [done|]; simplify_eq/=; congruence|]. rw /value_clone_int Hd. by do 2 eexists.
Qed.

Lemma value_free_rep F v vs s ss w :
  vals_rep F (v :: vs) (s :: ss) (w_strs w) ->
  exists h, value_free w v = Ok (set_heap w h) /\ vals_rep F vs ss h.
Proof.
  intros Hr. destruct (str_free_rep F (v :: vs) (s :: ss) w 0 v s Hr) as (h & Hf & Hr'); [done..|].
  exists h. split; [done|]. by rw /= !drop_0 in Hr'.
Qed.

(** ** Properties *)

(** C17: A text of the form [lua { body }] becomes a Lua value with source [body]
    behind the preamble, whatever follows the last closing brace; any other text
    becomes a string value, which owns a fresh copy of the text. *)
Theorem value_new_auto_spec w text :
  is_cstr text -> length text + 64 < buf_limit ->
  (forall body, block_body (lit "lua") text body ->
     value_new_auto w text = Ok (MkValue (VALUE_LUA (lua_preamble ++ body)) None, w)) /\
  ((forall body, ~ block_body (lit "lua") text body) ->
     exists l, w_strs w !! l = None /\
       value_new_auto w text =
         Ok (MkValue VALUE_STRING (Some l), (str_new w text).2) /\
       w_strs (str_new w text).2 = <[l := text]> (w_strs w)).
Proof.
  intros Ht Hlim. rw /value_new_auto extract_block_spec //; [lia|]. ok_step. split.
  - intros body Hb%find_block_spec. rw Hb. apply find_block_sub in Hb as [Hlen Hn].
    by rw value_new_lua_ok; [apply Hn, is_cstr_no_nul|lia|].
  - intros Hnone. destruct (find_block (lit "lua") text) as [body|] eqn:Hb.
    { by apply find_block_spec, Hnone in Hb. }
    eexists. split; [|by split]. apply fresh_lookup.
Qed.

Lemma vals_rep_one h v s : val_rep h v s -> Forall2 (val_rep h) [v] [s].
Proof. by repeat constructor. Qed.

Lemma vals_rep_nil_eq F h : vals_rep F [] [] h -> h = F.
Proof. intros [_ _ _ Hfr]. apply map_eq. intros l. apply Hfr. set_solver. Qed.

(** A copy of a value means the same as the original and owns a string nobody
    else had, and freeing the copy gives back exactly the state before the copy
    was made: the original is untouched and nothing leaks. *)
Theorem value_clone_free w v s :
  val_rep (w_strs w) v s ->
  exists v' w', value_clone w v = Ok (v', w') /\ val_rep (w_strs w') v s /\
    val_rep (w_strs w') v' s /\
    (forall l, v_result v' = Some l -> w_strs w !! l = None) /\
    exists h, value_free w' v' = Ok (set_heap w h) /\ hp_strs h = w_strs w.
Proof.
  intros Hv.
  destruct (value_clone_rep (w_strs w) [] [] w v s) as (v' & h & -> & Hsub & Hr);
    [apply vals_rep_nil|done|].
  exists v', (set_heap w h). split; [done|]. split.
  { eapply val_rep_ext; [done|]. intros l Hl. destruct (val_rep_live _ _ _ _ Hv Hl) as [t Ht].
    rw Ht. by eapply lookup_weaken. }
  pose proof (vr_vals _ _ _ _ Hr) as [Hv' _]%Forall2_cons. split; [done|]. split.
  { intros l Hl. apply (vr_own _ _ _ _ Hr). rw owned_cons Hl. set_solver. }
  destruct (value_free_rep (w_strs w) v' [] s [] (set_heap w h) Hr) as (h' & -> & Hh'%vals_rep_nil_eq).
  by exists h'.
Qed.

(** [self] of a value that is evaluated outside of a composer. *)
Definition no_index (key : lua_value) (v : value_t) (w : world)
    : res (option lua_value * value_t * world) := Ok (None, v, w).

(** Evaluating a value on its own never faults, leaves the stack of the
    interpreter as it was, frees the previous result and nothing else, and gives
    the string the value denotes; the string of an integer reads back as the
    integer. *)
Theorem value_eval_standalone {L : LuaInterp} F v s w st metas :
  vals_rep F [v] [s] (w_strs w) -> (forall lua, s = SLua lua -> code_ok lua) ->
  w_lua (interpreter_get_state w) = Some (MkLua st metas) ->
  exists p w', value_eval no_index self_lens None v w = Ok (p, MkValue (v_source v) p, w') /\
    result_is w' p (den_value metas (fun _ => None) s None) /\
    vals_rep F [MkValue (v_source v) p] [s] (w_strs w') /\
    w_lua (interpreter_get_state w') = Some (MkLua st metas) /\
    forall z, s = SInt z -> exists l t, p = Some l /\ w_strs w' !! l = Some t /\ read_d t = z.
Proof.
  intros Hr Hcode Hl. set (vals := fun v : value_t => [v]).
  assert (lens_at vals (fun _ => True) self_lens 0) as Hlens by done.
  destruct (value_eval_ok vals (fun _ => True) F [s] metas (w_config (interpreter_get_state w))
              no_index (fun _ => None) ltac:(intros; by do 2 eexists) self_lens 0 s None st v w)
    as (p & c' & w' & -> & [Hl' _ _ Hr'] & Hk & Hres); [done|done|done|split; [done..|by rw get_state_strs]|].
  injection Hk as ->. rw get_state_strs in Hr'.
  pose proof (vr_vals _ _ _ _ Hr) as [Hsrc%val_rep_source _]%Forall2_cons.
  rw Hsrc.
  exists p, w'. do 4 (split; [done|]). intros z ->. simpl in Hres.
  destruct p as [l|]; [|done]. exists l, (fmt_d z). by rw fmt_d_read.
Qed.

(** ** Witnesses *)

(** An interpreter that knows one chunk, which returns [self.name .. "!"]. *)
Definition toy_lua : LuaInterp := {|
  lua_load src :=
    if decide (src = lua_preamble ++ lit " return self.name .. '!' ") then
      inr (fun _ => LIndex (LStr (lit "name")) (fun v =>
             match v with LStr s => LReturn (Some (s ++ [33])) | _ => LError (lit "bad value") end))
    else inl (lit "syntax error") |}.

Lemma value_new_auto_spec_witness :
  value_new_auto world0 (lit "lua { return 1 } -- x") =
    Ok (MkValue (VALUE_LUA (lit "local self = ...;  return 1 ")) None, world0).
Proof.
  apply (proj1 (value_new_auto_spec world0 (lit "lua { return 1 } -- x")
    ltac:(apply (bool_decide_unpack _); vm_compute; exact I) ltac:(by vm_compute))).
  exists (lit " "), (lit " -- x"). split; [by vm_compute|].
  split; [by repeat constructor|by apply (bool_decide_unpack _); vm_compute].
Defined.

Lemma value_clone_free_witness :
  let v := MkValue (VALUE_LUA (lit "return 1")) (Some 1%positive) in
  let w := set_heap world0 (MkHeap {[1%positive := lit "1"]} ∅) in
  exists v' w' h, value_clone w v = Ok (v', w') /\ value_free w' v' = Ok (set_heap w h) /\
    hp_strs h = w_strs w.
Proof.
  intros v w. destruct (value_clone_free w v (SLua (lit "return 1"))) as (v' & w' & Hc & _ & _ & _ & h & Hf & Hh).
  - constructor. by eexists.
  - by exists v', w', h.
Defined.

Lemma value_eval_standalone_witness :
  exists p w', value_eval (L:=toy_lua) no_index self_lens None (value_new_int (-42)) world0 =
    Ok (p, MkValue (VALUE_INT (-42)) p, w') /\ result_is w' p (Some (lit "-42")).
Proof.
  destruct (value_eval_standalone (L:=toy_lua) ∅ (value_new_int (-42)) (SInt (-42)) world0 [] [])
    as (p & w' & He & Hres & _).
  - apply value_new_int_rep; [apply vals_rep_nil|done].
  - done.
  - done.
  - by exists p, w'.
Defined.
