(* ===== verification/Att.v ===== *)
(** Att: the attributes of a composer, src/src/att.c.

    An attribute has a name, a list of alternative values, a pointer to the
    current alternative and the name of the class it was inherited from. The
    pointer into the list is the position of the node it points to ([None] is
    NULL, where the traversal of the alternatives ends). *)

From Corelib Require Import ssreflect.
From stdpp Require Import base list numbers gmap strings.
From Stdlib Require Import ZArith Lia.
From S2P Require Import Prelude Libc Buf Cf Interp Value.

(** ** Data *)

Record att_t := MkAtt {
  a_name : cstring;
  a_alternatives : list value_t;
  a_current : option nat;
  a_origin : option cstring
}.

(** The node at position [i] of a list of length [n], or NULL. *)
Definition node (n i : nat) : option nat := if decide (i < n)%nat then Some i else None.

(** [p->next] for a node [i]. *)
Definition node_next (n i : nat) : option nat := node n (S i).

(** ** Operations *)

Definition att_new (name : cstring) (value : value_t) (origin : option cstring) : att_t :=
  MkAtt name [value] (node 1 0) origin.

(** [list_transform(vs, value_clone)]. *)
Fixpoint values_clone (w : world) (vs : list value_t) : res (list value_t * world) :=
  match vs with
  | [] => Ok ([], w)
  | v :: vs =>
      '(v, w) ← value_clone w v;
      '(vs, w) ← values_clone w vs;
      Ok (v :: vs, w)
  end.

(** [list_foreach(vs, value_free)]. *)
Fixpoint values_free (w : world) (vs : list value_t) : res world :=
  match vs with
  | [] => Ok w
  | v :: vs => w ← value_free w v; values_free w vs
  end.

(** [for (p = alternatives; (p != current) && p; p = p->next)] of [att_clone];
    [n] is the length of the list, [m] the length of its copy. *)
Fixpoint att_clone_loop (fuel n m : nat) (current p clone : option nat)
    : res (option nat * option nat) :=
  match fuel with
  | O => Err OutOfFuel
  | S fuel =>
      if decide (p = current) then Ok (p, clone)
      else match p with
      | None => Ok (p, clone)
      | Some i =>
          match clone with
          | None => Err AssertFail
          | Some j => att_clone_loop fuel n m current (node_next n i) (node_next m j)
          end
      end
  end.

Definition att_clone (w : world) (att : att_t) : res (att_t * world) :=
  '(vs, w) ← values_clone w (a_alternatives att);
  let n := length (a_alternatives att) in
  let m := length vs in
  '(p, current) ← att_clone_loop (S (S n)) n m (a_current att) (node n 0) (node m 0);
  _ ← c_assert (bool_decide (p = a_current att));
  Ok (MkAtt (a_name att) vs current (a_origin att), w).

Definition att_replace_value (w : world) (att : att_t) (value : value_t) (origin : option cstring)
    : res (att_t * world) :=
  w ← values_free w (a_alternatives att);
  Ok (MkAtt (a_name att) [value] (node 1 0) origin, w).

(** [list_push] on an empty list returns the new list, which is dropped here. *)
Definition att_add_value (att : att_t) (value : value_t) : att_t :=
  match a_alternatives att with
  | [] => att
  | vs => MkAtt (a_name att) (vs ++ [value]) (a_current att) (a_origin att)
  end.

Definition att_free (w : world) (att : att_t) : res world := values_free w (a_alternatives att).

Definition att_name_equal_to (att : att_t) (name : cstring) : bool := streq (a_name att) name.

Definition att_get_origin (att : att_t) : option cstring := a_origin att.

Definition att_rewind (att : att_t) : att_t :=
  MkAtt (a_name att) (a_alternatives att) (node (length (a_alternatives att)) 0) (a_origin att).

Definition att_next (att : att_t) : bool * att_t :=
  match a_current att with
  | None => (false, att)
  | Some i =>
      let current := node_next (length (a_alternatives att)) i in
      (bool_decide (is_Some current), MkAtt (a_name att) (a_alternatives att) current (a_origin att))
  end.

(** The [i]-th alternative of the attribute at [r]. *)
Definition alt_lens {C} (r : lens C att_t) (i : nat) : lens C value_t :=
  MkLens (fun c => att ← lget r c; a_alternatives att !! i)
    (fun c v =>
       match lget r c with
       | Some att => lset r c (MkAtt (a_name att) (<[i := v]> (a_alternatives att)) (a_current att) (a_origin att))
       | None => c
       end).

Section eval.
Context {L : LuaInterp} {C : Type}.
Variable index : lua_value -> C -> world -> res (option lua_value * C * world).

Definition att_eval (r : lens C att_t) (metatable : option cstring) (c : C) (w : world)
    : res (option loc * C * world) :=
  match lget r c with
  | None => Err UseAfterFree
  | Some att =>
      match a_current att with
      | None => Ok (None, c, w)
      | Some i => value_eval index (alt_lens r i) metatable c w
      end
  end.

Definition att_push (r : lens C att_t) (metatable : option cstring) (c : C) (w : world)
    : res (nat * C * world) :=
  match lget r c with
  | None => Err UseAfterFree
  | Some att =>
      match a_current att with
      | None => Ok (0%nat, c, w)
      | Some i => value_push index (alt_lens r i) metatable c w
      end
  end.
End eval.

(** [list_foreach(alternatives, value_dump, &info)]; [addr] gives the addresses of
    the values. *)
Fixpoint values_dump (w : world) (buf : buf_t) (addr : nat -> Z) (current : option nat)
    (i : nat) (vs : list value_t) : res buf_t :=
  match vs with
  | [] => Ok buf
  | v :: vs =>
      buf ← value_dump w buf (addr i) (bool_decide (current = Some i)) v;
      values_dump w buf addr current (S i) vs
  end.

Definition att_dump (w : world) (buf : buf_t) (att_addr : Z) (addr : nat -> Z) (att : att_t) : res buf_t :=
  buf ← buf_addf buf (lit "    attribute at 0x%x" ++ [ch_nl]) [APtr att_addr];
  buf ← buf_addf buf (lit "      name: %s" ++ [ch_nl]) [AStr (a_name att)];
  buf ← buf_addf buf (lit "      origin: %s" ++ [ch_nl]) [AStr (default (lit "(null)") (a_origin att))];
  buf ← buf_addf buf (lit "      values:" ++ [ch_nl]) [];
  values_dump w buf addr (a_current att) 0 (a_alternatives att).

(** ** What an attribute means *)

Record satt := MkSAtt {
  sa_name : cstring;
  sa_alts : list svalue;
  sa_current : nat;
  sa_origin : option cstring
}.

(** Everything but the values; an attribute always has a current alternative. *)
Record att_shape (att : att_t) (s : satt) : Prop := {
  as_name : a_name att = sa_name s;
  as_length : length (a_alternatives att) = length (sa_alts s);
  as_current : a_current att = Some (sa_current s);
  as_bound : (sa_current s < length (sa_alts s))%nat;
  as_origin : a_origin att = sa_origin s
}.

Definition atts_values (atts : list att_t) : list value_t := concat (a_alternatives <$> atts).
Definition satts_values (satts : list satt) : list svalue := concat (sa_alts <$> satts).

(** The attributes of a composer stand for [ss], and own their strings. *)
Record atts_rep (F : gmap loc cstring) (atts : list att_t) (ss : list satt)
    (h : gmap loc cstring) : Prop := {
  ar_shape : Forall2 att_shape atts ss;
  ar_vals : vals_rep F (atts_values atts) (satts_values ss) h
}.

(** The specifications of the operations. *)
Definition satt_new (name : cstring) (s : svalue) (origin : option cstring) : satt :=
  MkSAtt name [s] 0 origin.
Definition satt_replace (a : satt) (s : svalue) (origin : option cstring) : satt :=
  MkSAtt (sa_name a) [s] 0 origin.
Definition satt_add (a : satt) (s : svalue) : satt :=
  MkSAtt (sa_name a) (sa_alts a ++ [s]) (sa_current a) (sa_origin a).
Definition satt_at (a : satt) (i : nat) : satt :=
  MkSAtt (sa_name a) (sa_alts a) i (sa_origin a).

(** ** Lists of values *)

Lemma set_heap_id w : set_heap w (w_heap w) = w.
Proof. by destruct w. Qed.

Lemma values_free_rep F xs vs ys sx ss sy w :
  vals_rep F (xs ++ vs ++ ys) (sx ++ ss ++ sy) (w_strs w) ->
  length xs = length sx -> length vs = length ss ->
  exists h, values_free w vs = Ok (set_heap w h) /\ vals_rep F (xs ++ ys) (sx ++ sy) h.
Proof.
  intros Hr Hx. revert ss w Hr. induction vs as [|v vs IH]; intros [|s ss] w Hr Hlen; simplify_eq/=.
  { exists (w_heap w). by rw set_heap_id. }
  apply vals_rep_middle in Hr; [|done].
  destruct (value_free_rep _ _ _ _ _ _ Hr) as (h & -> & Hr'). ok_step.
  destruct (IH ss (set_heap w h) Hr' Hlen) as (h' & -> & ?). by exists h'.
Qed.

Lemma val_rep_mono h h' v s : val_rep h v s -> h ⊆ h' -> val_rep h' v s.
Proof.
  intros Hv Hsub. eapply val_rep_ext; [done|]. intros l Hl.
  destruct (val_rep_live _ _ _ _ Hv Hl) as [t Ht]. rw Ht. by eapply lookup_weaken.
Qed.

Lemma vals_rep_length F vs ss h : vals_rep F vs ss h -> length vs = length ss.
Proof. intros [Hv _ _ _]. by eapply Forall2_length. Qed.

Lemma values_clone_rep F xs sx vs ss w :
  vals_rep F xs sx (w_strs w) -> Forall2 (val_rep (w_strs w)) vs ss ->
  exists vs' h, values_clone w vs = Ok (vs', set_heap w h) /\ w_strs w ⊆ hp_strs h /\
    vals_rep F (xs ++ vs') (sx ++ ss) h.
Proof.
  intros Hr Hvs. revert w ss xs sx Hr Hvs. induction vs as [|v vs IH]; intros w ss xs sx Hr Hvs.
  { inv Hvs. exists [], (w_heap w). rw set_heap_id !app_nil_r //. }
  apply Forall2_cons_inv_l in Hvs as (s & ss' & Hv & Hvs & ->).
  destruct (value_clone_rep _ _ _ _ _ _ Hr Hv) as (v' & h & Hc & Hsub & Hr').
  rw -(app_nil_r xs) -(app_nil_r sx) -(vals_rep_middle F xs v' [] sx s []) in Hr';
    [by eapply vals_rep_length|].
  destruct (IH (set_heap w h) ss' (xs ++ [v']) (sx ++ [s])) as (vs' & h' & Hcs & Hsub' & Hr'').
  { done. }
  { eapply Forall2_impl; [done|]. intros; by eapply val_rep_mono. }
  rw /= Hc. ok_step. rw Hcs. ok_step. exists (v' :: vs'), h'. split; [done|].
  split; [by etrans|]. by rw -!app_assoc in Hr''.
Qed.

(** ** Attributes *)

Lemma node_Some n i : (i < n)%nat -> node n i = Some i.
Proof. intros ?. by rw /node decide_True. Qed.

Lemma node_None n i : (n <= i)%nat -> node n i = None.
Proof. intros ?. rw /node decide_False //. lia. Qed.

Lemma att_new_shape name v s origin : att_shape (att_new name v origin) (satt_new name s origin).
Proof. split; simpl; done || lia. Qed.

Lemma att_add_shape att sa v s :
  att_shape att sa ->
  att_shape (att_add_value att v) (satt_add sa s) /\
  a_alternatives (att_add_value att v) = a_alternatives att ++ [v].
Proof.
  intros [Hn Hl Hc Hb Ho]. rw /att_add_value.
  destruct (a_alternatives att) as [|v0 vs] eqn:Ha; [simpl in Hl; lia|].
  split; [|done]. split; simpl in *; try done; rw !length_app /= in Hl *; lia.
Qed.

Lemma att_rewind_shape att sa :
  att_shape att sa -> att_shape (att_rewind att) (satt_at sa 0).
Proof. intros [Hn Hl Hc Hb Ho]. split; simpl; try done; [apply node_Some|]; lia. Qed.

(** [att_next] moves on and says so, or reports the end; rewinding then starts over. *)
Lemma att_next_shape att sa :
  att_shape att sa ->
  if decide (S (sa_current sa) < length (sa_alts sa))%nat
  then exists att', att_next att = (true, att') /\ att_shape att' (satt_at sa (S (sa_current sa))) /\
         a_alternatives att' = a_alternatives att
  else exists att', att_next att = (false, att') /\ a_current att' = None /\
         att_shape (att_rewind att') (satt_at sa 0) /\ a_alternatives att' = a_alternatives att.
Proof.
  intros [Hn Hl Hc Hb Ho]. rw /att_next Hc /node_next. case_decide as Hlt.
  - rw node_Some; [lia|]. eexists. split; [done|]. split; [|done]. by split.
  - rw node_None; [lia|]. eexists. split; [done|]. split; [done|]. split; [|done].
    split; simpl; try done; [apply node_Some|]; lia.
Qed.

Lemma clone_loop_ok fuel n cur i :
  (cur < n)%nat -> (i <= cur)%nat -> (cur - i < fuel)%nat ->
  att_clone_loop fuel n n (Some cur) (Some i) (Some i) = Ok (Some cur, Some cur).
Proof.
  revert i. induction fuel as [|fuel IH]; intros i Hcur Hi Hf; [lia|]. simpl.
  case_decide as Heq; [by simplify_eq|].
  assert (i <> cur) by congruence. rw /node_next node_Some; [lia|]. apply IH; lia.
Qed.

(** The copy of an attribute stands for the same, current alternative included. *)
Lemma att_clone_rep F xs sx att sa w :
  vals_rep F xs sx (w_strs w) -> att_shape att sa ->
  Forall2 (val_rep (w_strs w)) (a_alternatives att) (sa_alts sa) ->
  exists att' h, att_clone w att = Ok (att', set_heap w h) /\ w_strs w ⊆ hp_strs h /\
    att_shape att' sa /\ vals_rep F (xs ++ a_alternatives att') (sx ++ sa_alts sa) h.
Proof.
  intros Hr [Hn Hl Hc Hb Ho] Hvs.
  destruct (values_clone_rep _ _ _ _ _ _ Hr Hvs) as (vs' & h & Hcl & Hsub & Hr').
  assert (length vs' = length (a_alternatives att)) as Hlen.
  { pose proof (vals_rep_length _ _ _ _ Hr). apply vals_rep_length in Hr'.
    rw !length_app in Hr'. lia. }
  rw /att_clone Hcl. ok_step. rw Hc Hlen node_Some; [lia|].
  rw clone_loop_ok; [lia..|]. ok_step. rw bool_decide_true //. ok_step.
  do 2 eexists. split; [done|]. split; [done|]. split; [|done].
  split; simpl; done || lia.
Qed.

(** ** Properties *)

Lemma att_iter_shape att sa i :
  att_shape att sa -> (i < length (sa_alts sa))%nat ->
  let a := Nat.iter i (fun a => (att_next a).2) (att_rewind att) in
  att_shape a (satt_at sa i) /\ a_alternatives a = a_alternatives att.
Proof.
  intros Hs. induction i as [|i IH]; intros Hi; simpl; [by split; [apply att_rewind_shape|]|].
  destruct IH as [Hsh Ha]; [lia|]. pose proof (att_next_shape _ _ Hsh) as Hnext. simpl in Hnext.
  rw decide_True // in Hnext. destruct Hnext as (a' & -> & ? & ?). simpl. by split; [|etrans].
Qed.

(** From the first alternative, [att_next] visits the alternatives in order,
    each exactly once; after the last one it reports the end, keeps reporting it,
    and rewinding starts over. *)
Theorem att_iteration att sa :
  att_shape att sa ->
  let n := length (sa_alts sa) in
  let at_ i := Nat.iter i (fun a => (att_next a).2) (att_rewind att) in
  (forall i, (i < n)%nat -> a_current (at_ i) = Some i) /\
  (forall i, (S i < n)%nat -> (att_next (at_ i)).1 = true) /\
  exists a, att_next (at_ (n - 1)%nat) = (false, a) /\ a_current a = None /\
    att_next a = (false, a) /\ att_rewind a = att_rewind att.
Proof.
  intros Hs n at_. split; [|split].
  - intros i Hi. apply (att_iter_shape att sa i Hs Hi).
  - intros i Hi. destruct (att_iter_shape att sa i Hs) as [Hsh _]; [lia|].
    pose proof (att_next_shape _ _ Hsh) as Hnext. simpl in Hnext. rw decide_True // in Hnext.
    destruct Hnext as (a' & Heq & _). by rw /at_ Heq.
  - pose proof (as_bound _ _ Hs). destruct (att_iter_shape att sa (n - 1) Hs) as [Hsh Ha]; [lia|].
    pose proof (att_next_shape _ _ Hsh) as Hnext. simpl in Hnext. rw decide_False in Hnext; [lia|].
    destruct Hnext as (a & Heq & Hnone & _ & Ha'). exists a. split; [done|]. split; [done|].
    split; [by rw /att_next Hnone|].
    assert (a_name a = a_name att /\ a_origin a = a_origin att) as [Hname Horg].
    { move: Heq. rw /att_next (as_current _ _ Hsh) => -[= _ <-] /=.
      split; [rw (as_name _ _ Hsh) (as_name _ _ Hs)|rw (as_origin _ _ Hsh) (as_origin _ _ Hs)]; done. }
    by rw /att_rewind Hname Horg Ha' Ha.
Qed.

(** A copy of an attribute stands for the same name, origin, alternatives and
    current alternative, the counting loop that finds the current alternative
    never runs off the copy, and freeing the copy gives the state before it. *)
Theorem att_clone_free w att sa :
  att_shape att sa -> Forall2 (val_rep (w_strs w)) (a_alternatives att) (sa_alts sa) ->
  exists att' w', att_clone w att = Ok (att', w') /\ att_shape att' sa /\
    Forall2 (val_rep (w_strs w')) (a_alternatives att') (sa_alts sa) /\
    Forall2 (val_rep (w_strs w')) (a_alternatives att) (sa_alts sa) /\
    exists h, att_free w' att' = Ok (set_heap w h) /\ hp_strs h = w_strs w.
Proof.
  intros Hs Hvs. destruct (att_clone_rep (w_strs w) [] [] att sa w) as (att' & h & -> & Hsub & Hs' & Hr);
    [apply vals_rep_nil|done..|]. simpl in Hr.
  exists att', (set_heap w h). split; [done|]. split; [done|]. split; [apply Hr|]. split.
  { eapply Forall2_impl; [done|]. intros; by eapply val_rep_mono. }
  destruct (values_free_rep (w_strs w) [] (a_alternatives att') [] [] (sa_alts sa) [] (set_heap w h))
    as (h' & Hf & Hh'%vals_rep_nil_eq); [by rw /= !app_nil_r|done|apply Hs'|].
  exists h'. by rw /att_free Hf.
Qed.

(** ** Witnesses *)

Definition demo_att : att_t :=
  MkAtt (lit "k") [value_new_int 1; value_new_int 2; value_new_int 3] (Some 1%nat) None.
Definition demo_satt : satt := MkSAtt (lit "k") [SInt 1; SInt 2; SInt 3] 1 None.

Lemma demo_att_shape : att_shape demo_att demo_satt.
Proof. split; simpl; done || lia. Qed.

Lemma att_iteration_witness :
  let at_ i := Nat.iter i (fun a => (att_next a).2) (att_rewind demo_att) in
  (forall i, (i < 3)%nat -> a_current (at_ i) = Some i) /\
  (exists a, att_next (at_ 2%nat) = (false, a) /\ att_rewind a = att_rewind demo_att).
Proof.
  destruct (att_iteration demo_att demo_satt demo_att_shape) as (Hall & _ & a & Hn & _ & _ & Hrw).
  split; [exact Hall|]. by exists a.
Defined.

Lemma att_clone_free_witness :
  exists att' w', att_clone world0 demo_att = Ok (att', w') /\ att_shape att' demo_satt /\
    exists h, att_free w' att' = Ok (set_heap world0 h) /\ hp_strs h = ∅.
Proof.
  destruct (att_clone_free world0 demo_att demo_satt demo_att_shape) as (att' & w' & Hc & Hs & _ & _ & Hf).
  - by repeat constructor.
  - by exists att', w'.
Defined.
