(* ===== verification/Pathcomp.v ===== *)
(** Pathcomp: the composer objects of src/src/pathcomp.c.

    A composer has a class name, its attributes, the name of its Lua metatable
    and the state of the iteration. Evaluating an attribute can run Lua code that
    reads other attributes of the same composer, which calls back into the
    library: [pathcomp_index] ties that knot, down to the depth at which the
    interpreter refuses to nest calls. Following [copy-from] recurses without a
    bound in the code; the functions that do so take the depth of the C stack as
    an argument. *)

From Corelib Require Import ssreflect.
From stdpp Require Import base list numbers gmap strings.
From Stdlib Require Import ZArith Lia.
From S2P Require Import Prelude Libc Buf Cf Interp Value Att.

(** ** Data *)

Record pathcomp_t := MkPathcomp {
  pc_name : cstring;
  pc_attributes : list att_t;
  pc_metatable : cstring;
  pc_done : bool;
  pc_started : bool
}.

Inductive pathcomp_action_t :=
| PATHCOMP_ACTION_ADD
| PATHCOMP_ACTION_REPLACE
| PATHCOMP_ACTION_ADD_IF
| PATHCOMP_ACTION_NONE.

Definition PATHCOMP_ORIGIN_RUNTIME : option cstring := None.
Definition PATHCOMP_ATT_ROOT : cstring := lit "root".
Definition PATHCOMP_ATT_COMPOSE : cstring := lit "compose".
Definition PATHCOMP_ATT_COPY : cstring := lit "copy-from".

Definition set_attributes (c : pathcomp_t) (atts : list att_t) : pathcomp_t :=
  MkPathcomp (pc_name c) atts (pc_metatable c) (pc_done c) (pc_started c).
Definition set_iter (c : pathcomp_t) (done started : bool) : pathcomp_t :=
  MkPathcomp (pc_name c) (pc_attributes c) (pc_metatable c) done started.

(** ** Configuration *)

(** The result of the parser is not looked at. *)
Definition pathcomp_add_config_from_string (w : world) (string : cstring) : res world :=
  '(_, cf) ← cf_add_from_string (default cf_new (w_config w)) string;
  Ok (set_config w (Some cf)).

Definition pathcomp_add_config_from_file (w : world) (f : file) : res world :=
  '(_, cf) ← cf_add_from_file (default cf_new (w_config w)) f;
  Ok (set_config w (Some cf)).

Definition pathcomp_cleanup (w : world) : res world := interpreter_cleanup (set_config w None).

Definition find_section_with_name (sec : cf_section_t) (name : cstring) : bool := streq (sec_name sec) name.

(** ** Attributes *)

(** The position of the attribute [name] and the attribute. *)
Definition pathcomp_retrieve_att (c : pathcomp_t) (name : cstring) : option (nat * att_t) :=
  list_find (fun att => att_name_equal_to att name) (pc_attributes c).

(** What [PATHCOMP_ACTION_ADD_IF] amounts to: own values override inherited ones. *)
Definition resolve_add_if (c : pathcomp_t) (old_origin origin : option cstring) : pathcomp_action_t :=
  let inherited o := match o with Some s => negb (streq s (pc_name c)) | None => false end in
  let old_inherited := inherited old_origin in
  let new_inherited := inherited origin in
  if new_inherited && negb old_inherited then PATHCOMP_ACTION_NONE
  else if negb new_inherited && old_inherited then PATHCOMP_ACTION_REPLACE
  else PATHCOMP_ACTION_ADD.

Definition pathcomp_add_or_replace (c : pathcomp_t) (w : world) (name : cstring) (value : value_t)
    (origin : option cstring) (action : pathcomp_action_t) : res (pathcomp_t * world) :=
  match pathcomp_retrieve_att c name with
  | None => Ok (set_attributes c (pc_attributes c ++ [att_new name value origin]), w)
  | Some (i, att) =>
      let action :=
        match action with
        | PATHCOMP_ACTION_ADD_IF => resolve_add_if c (att_get_origin att) origin
        | _ => action
        end in
      match action with
      | PATHCOMP_ACTION_REPLACE =>
          '(att, w) ← att_replace_value w att value origin;
          Ok (set_attributes c (<[i := att]> (pc_attributes c)), w)
      | PATHCOMP_ACTION_ADD =>
          Ok (set_attributes c (<[i := att_add_value att value]> (pc_attributes c)), w)
      | PATHCOMP_ACTION_NONE => w ← value_free w value; Ok (c, w)
      | PATHCOMP_ACTION_ADD_IF => Err AssertFail
      end
  end.

(** [recur] is [pathcomp_add_atts_from_sections]. *)
Fixpoint pathcomp_add_atts_from_entries
    (recur : pathcomp_t -> world -> cstring -> res (pathcomp_t * world))
    (c : pathcomp_t) (w : world) (section_name : cstring) (entry : list cf_kv_t)
    : res (pathcomp_t * world) :=
  match entry with
  | [] => Ok (c, w)
  | kv :: entry =>
      '(value, w) ← value_new_auto w (kv_value kv);
      '(c, w) ← pathcomp_add_or_replace c w (kv_key kv) value (Some section_name) PATHCOMP_ACTION_ADD_IF;
      '(c, w) ← (if streq (kv_key kv) PATHCOMP_ATT_COPY then recur c w (kv_value kv) else Ok (c, w));
      pathcomp_add_atts_from_entries recur c w section_name entry
  end.

(** The [while] loop of [pathcomp_add_atts_from_sections]. *)
Fixpoint sections_loop
    (recur : pathcomp_t -> world -> cstring -> res (pathcomp_t * world))
    (c : pathcomp_t) (w : world) (section_name : cstring) (psec : list cf_section_t)
    : res (pathcomp_t * world) :=
  match psec with
  | [] => Ok (c, w)
  | section :: psec =>
      '(c, w) ← (if find_section_with_name section section_name
                 then pathcomp_add_atts_from_entries recur c w (sec_name section) (sec_entries section)
                 else Ok (c, w));
      sections_loop recur c w section_name psec
  end.

Fixpoint pathcomp_add_atts_from_sections (fuel : nat) (c : pathcomp_t) (w : world)
    (section_name : cstring) : res (pathcomp_t * world) :=
  match fuel with
  | O => Err OutOfFuel
  | S fuel =>
      match w_config w with
      | None => Ok (c, w)
      | Some config =>
          sections_loop (pathcomp_add_atts_from_sections fuel) c w section_name (cf_sections config)
      end
  end.

Definition pathcomp_make_from_config (fuel : nat) (c : pathcomp_t) (w : world) : res (pathcomp_t * world) :=
  pathcomp_add_atts_from_sections fuel c w (pc_name c).

(** ** Construction *)

Definition metatable_prefix : cstring := lit "libpathcomp::".

Definition pathcomp_new (fuel : nat) (w : world) (name : cstring) : res (pathcomp_t * world) :=
  let w := interpreter_get_state w in
  '(c, w) ← pathcomp_make_from_config fuel (MkPathcomp name [] [] false false) w;
  buf ← buf_init 0;
  buf ← buf_addstr buf metatable_prefix;
  buf ← buf_addstr buf name;
  '(blk, _, _) ← buf_detach buf;
  metatable ← cstr_of blk;
  let w := luaL_newmetatable w metatable in
  let w := lua_push w LFun in
  w ← lua_pop w 1;
  w ← lua_pop w 1;
  Ok (MkPathcomp (pc_name c) (pc_attributes c) metatable false false, w).

(** [list_transform(atts, att_clone)]. *)
Fixpoint atts_clone (w : world) (atts : list att_t) : res (list att_t * world) :=
  match atts with
  | [] => Ok ([], w)
  | att :: atts =>
      '(att, w) ← att_clone w att;
      '(atts, w) ← atts_clone w atts;
      Ok (att :: atts, w)
  end.

Definition pathcomp_clone (c : pathcomp_t) (w : world) : res (pathcomp_t * world) :=
  '(atts, w) ← atts_clone w (pc_attributes c);
  Ok (MkPathcomp (pc_name c) atts (pc_metatable c) (pc_done c) (pc_started c), w).

(** [list_foreach(atts, att_free)]. *)
Fixpoint atts_free (w : world) (atts : list att_t) : res world :=
  match atts with
  | [] => Ok w
  | att :: atts => w ← att_free w att; atts_free w atts
  end.

Definition pathcomp_free (c : pathcomp_t) (w : world) : res world := atts_free w (pc_attributes c).

(** ** Evaluation *)

(** The attribute at position [i]. *)
Definition att_lens (i : nat) : lens pathcomp_t att_t :=
  MkLens (fun c => pc_attributes c !! i)
    (fun c att => set_attributes c (<[i := att]> (pc_attributes c))).

Section eval.
Context {L : LuaInterp}.

Definition pathcomp_push_value
    (index : lua_value -> pathcomp_t -> world -> res (option lua_value * pathcomp_t * world))
    (c : pathcomp_t) (w : world) (name : cstring) : res (nat * pathcomp_t * world) :=
  match pathcomp_retrieve_att c name with
  | None => Ok (0%nat, c, w)
  | Some (i, _) => att_push index (att_lens i) (Some (pc_metatable c)) c w
  end.

Definition pathcomp_eval_callback
    (index : lua_value -> pathcomp_t -> world -> res (option lua_value * pathcomp_t * world))
    (c : pathcomp_t) (w : world) : res (nat * pathcomp_t * world) :=
  match lua_stack w with
  | key :: LUser :: _ =>
      match lua_tostring key with
      | Some name => pathcomp_push_value index c w name
      | None => Err AssertFail
      end
  | _ => Err AssertFail
  end.

(** The [__index] metamethod: the interpreter puts the object and the key on the
    stack of the callback, takes one result (or nil) and drops the rest. *)
Fixpoint pathcomp_index (depth : nat) (key : lua_value) (c : pathcomp_t) (w : world)
    : res (option lua_value * pathcomp_t * world) :=
  match depth with
  | O => Ok (None, c, w)
  | S depth =>
      let st := lua_stack w in
      let w := lua_push (lua_push w LUser) key in
      '(n, c, w) ← pathcomp_eval_callback (pathcomp_index depth) c w;
      let v := match n with O => LNil | S n => default LNil (lua_stack w !! n) end in
      Ok (Some v, c, set_stack w st)
  end.

Variable depth : nat.

Definition pathcomp_eval_nocopy (c : pathcomp_t) (w : world) (name : cstring)
    : res (option loc * pathcomp_t * world) :=
  match pathcomp_retrieve_att c name with
  | None => Ok (None, c, w)
  | Some (i, _) => att_eval (pathcomp_index depth) (att_lens i) (Some (pc_metatable c)) c w
  end.

(** The string at [p], if it is not NULL. *)
Definition read_ptr (w : world) (p : option loc) : res (option cstring) :=
  match p with
  | None => Ok None
  | Some l => s ← str_get w l; Ok (Some s)
  end.

Definition pathcomp_eval (c : pathcomp_t) (w : world) (name : cstring)
    : res (option cstring * pathcomp_t * world) :=
  '(p, c, w) ← pathcomp_eval_nocopy c w name;
  s ← read_ptr w p;
  Ok (s, c, w).

Definition pathcomp_yield (c : pathcomp_t) (w : world) : res (option cstring * pathcomp_t * world) :=
  path ← buf_init 0;
  '(root, c, w) ← pathcomp_eval_nocopy c w PATHCOMP_ATT_ROOT;
  '(compose, c, w) ← pathcomp_eval_nocopy c w PATHCOMP_ATT_COMPOSE;
  root ← read_ptr w root;
  path ← match root with
         | Some ((_ :: _) as root) => path ← buf_addstr path root; buf_addch path ch_slash
         | _ => Ok path
         end;
  compose ← read_ptr w compose;
  path ← match compose with
         | Some ((_ :: _) as compose) => buf_addstr path compose
         | _ => Ok path
         end;
  if decide (blen path <> 0) then
    '(blk, _, _) ← buf_detach path;
    s ← cstr_of blk;
    Ok (Some s, c, w)
  else
    _ ← buf_release path;
    Ok (None, c, w).

(** ** Changing attributes *)

Definition pathcomp_set (c : pathcomp_t) (w : world) (name value : cstring) : res (pathcomp_t * world) :=
  '(v, w) ← value_new_auto w value;
  pathcomp_add_or_replace c w name v PATHCOMP_ORIGIN_RUNTIME PATHCOMP_ACTION_REPLACE.

Definition pathcomp_set_int (c : pathcomp_t) (w : world) (name : cstring) (value : Z) : res (pathcomp_t * world) :=
  pathcomp_add_or_replace c w name (value_new_int value) PATHCOMP_ORIGIN_RUNTIME PATHCOMP_ACTION_REPLACE.

Definition pathcomp_add (c : pathcomp_t) (w : world) (name value : cstring) : res (pathcomp_t * world) :=
  '(v, w) ← value_new_auto w value;
  pathcomp_add_or_replace c w name v PATHCOMP_ORIGIN_RUNTIME PATHCOMP_ACTION_ADD.

Definition pathcomp_add_int (c : pathcomp_t) (w : world) (name : cstring) (value : Z) : res (pathcomp_t * world) :=
  pathcomp_add_or_replace c w name (value_new_int value) PATHCOMP_ORIGIN_RUNTIME PATHCOMP_ACTION_ADD.

(** ** Iteration *)

Definition pathcomp_rewind (c : pathcomp_t) : pathcomp_t :=
  set_iter (set_attributes c (att_rewind <$> pc_attributes c)) false false.

(** The [for] loop of [pathcomp_next]: whether some attribute moved on. *)
Fixpoint next_loop (atts : list att_t) : bool * list att_t :=
  match atts with
  | [] => (false, [])
  | att :: atts =>
      let '(moved, att) := att_next att in
      if moved then (true, att :: atts)
      else let '(moved, atts) := next_loop atts in (moved, att_rewind att :: atts)
  end.

Definition pathcomp_next (c : pathcomp_t) : bool * pathcomp_t :=
  if pc_done c then (false, c)
  else
    let '(moved, atts) := next_loop (pc_attributes c) in
    let c := set_attributes c atts in
    if moved then (true, c) else (false, set_iter c true (pc_started c)).
End eval.

Definition pathcomp_done (c : pathcomp_t) : bool := pc_done c.

(** ** The file system *)

(** [stat()] and [mkdir()]: a state, which paths exist in it, and the error number
    (0 for none) and the new state of creating a directory; and [errno]. *)
Class OS := {
  os_state : Type;
  os_exists : os_state -> cstring -> bool;
  os_mkdir : os_state -> cstring -> Z * os_state;
  os_errno : os_state -> Z;
  strerror : Z -> cstring
}.

Definition EEXIST : Z := 17.

Section files.
Context {L : LuaInterp} {Sys : OS}.
Variable depth : nat.

Definition path_exists (os : os_state) (path : cstring) : bool := os_exists os path.

(** Every turn of the loop consumes one combination of alternatives. *)
Fixpoint pathcomp_find (fuel : nat) (os : os_state) (c : pathcomp_t) (w : world)
    : res (option cstring * pathcomp_t * world) :=
  match fuel with
  | O => Err OutOfFuel
  | S fuel =>
      let c := if pc_started c then (pathcomp_next c).2 else c in
      let c := set_iter c (pc_done c) true in
      if pathcomp_done c then Ok (None, c, w)
      else
        '(path, c, w) ← pathcomp_yield depth c w;
        match path with
        | Some p => if path_exists os p then Ok (Some p, c, w) else pathcomp_find fuel os c w
        | None => pathcomp_find fuel os c w
        end
  end.

(** [while ( *p && *p == '/') ++p] and [while ( *p && *p != '/') ++p]. *)
Fixpoint skip_slashes (s : cstring) : nat :=
  match s with
  | ch :: s => if decide (ch = ch_slash) then S (skip_slashes s) else 0%nat
  | [] => 0%nat
  end.
Fixpoint seek_slash (s : cstring) : nat :=
  match s with
  | ch :: s => if decide (ch = ch_slash) then 0%nat else S (seek_slash s)
  | [] => 0%nat
  end.

(** The loop of [pathcomp_mkdir]; [p] is the position in [path]. *)
Fixpoint mkdir_loop (fuel : nat) (path : cstring) (p : nat) (w : world) (os : os_state)
    : res (Z * world * os_state) :=
  match fuel with
  | O => Err OutOfFuel
  | S fuel =>
      let p := (p + skip_slashes (drop p path))%nat in
      let p := (p + seek_slash (drop p path))%nat in
      if decide (length path <= p)%nat then Ok (0, w, os)
      else
        let '(errno, os) := os_mkdir os (take p path) in
        if decide (errno <> 0 /\ errno <> EEXIST) then
          w ← pathcomp_log_error w (lit "mkdir '%s': %s") [AStr (take p path); AStr (strerror errno)];
          Ok (-1, w, os)
        else mkdir_loop fuel path (S p) w os
  end.

Definition pathcomp_mkdir (c : pathcomp_t) (w : world) (os : os_state)
    : res (Z * pathcomp_t * world * os_state) :=
  '(path, c, w) ← pathcomp_yield depth c w;
  match path with
  | None => Err NullDeref
  | Some path =>
      '(rc, w, os) ← mkdir_loop (S (length path)) path 0 w os;
      Ok (rc, c, w, os)
  end.
End files.

(** ** Dumping *)

(** The addresses of a composer, its attributes and their values. *)
Record addresses := MkAddr { ad_composer : Z; ad_att : nat -> Z; ad_value : nat -> nat -> Z }.

Fixpoint atts_dump (w : world) (buf : buf_t) (addr : addresses) (i : nat) (atts : list att_t) : res buf_t :=
  match atts with
  | [] => Ok buf
  | att :: atts =>
      buf ← att_dump w buf (ad_att addr i) (ad_value addr i) att;
      atts_dump w buf addr (S i) atts
  end.

Definition pathcomp_dump (addr : addresses) (c : pathcomp_t) (w : world) : res cstring :=
  buf ← buf_init 0;
  buf ← buf_addf buf (lit "composer object at 0x%x" ++ [ch_nl]) [APtr (ad_composer addr)];
  buf ← buf_addf buf (lit "  class: %s" ++ [ch_nl]) [AStr (pc_name c)];
  buf ← buf_addf buf (lit "  metatable: %s" ++ [ch_nl]) [AStr (pc_metatable c)];
  buf ← buf_addf buf (lit "  done: %d" ++ [ch_nl]) [AInt (Z.b2z (pc_done c))];
  buf ← buf_addf buf (lit "  started: %d" ++ [ch_nl]) [AInt (Z.b2z (pc_started c))];
  buf ← buf_addf buf (lit "  attributes:" ++ [ch_nl]) [];
  buf ← atts_dump w buf addr 0 (pc_attributes c);
  '(blk, _, _) ← buf_detach buf;
  cstr_of blk.
