(* ===== verification/PathSpec.v ===== *)
(** PathSpec: what a composer means, and that the operations of pathcomp.c that
    build, copy, change and free composers implement it.

    The meaning of a composer forgets the cached results of its values: it has
    the names, origins and alternatives of the attributes and the state of the
    iteration. [comp_rep F c s w] says that the composer [c] means [s] and that the
    heap of strings of [w] consists of the strings [c] owns and of the strings [F],
    which belong to somebody else; an operation that preserves [F] neither leaks
    nor touches what is not its own. *)

From Corelib Require Import ssreflect.
From stdpp Require Import base list numbers gmap strings.
From Stdlib Require Import ZArith Lia.
From S2P Require Import Prelude Libc Buf Cf Interp Value Att Pathcomp.

(** ** Meaning *)

Record scomp := MkSComp {
  sc_name : cstring;
  sc_atts : list satt;
  sc_metatable : cstring;
  sc_done : bool;
  sc_started : bool
}.

Definition with_atts (s : scomp) (atts : list satt) : scomp :=
  MkSComp (sc_name s) atts (sc_metatable s) (sc_done s) (sc_started s).

Record comp_rep (F : gmap loc cstring) (c : pathcomp_t) (s : scomp) (w : world) : Prop := {
  cr_name : pc_name c = sc_name s;
  cr_metatable : pc_metatable c = sc_metatable s;
  cr_done : pc_done c = sc_done s;
  cr_started : pc_started c = sc_started s;
  cr_atts : atts_rep F (pc_attributes c) (sc_atts s) (w_strs w)
}.

(** The attribute [name] and its position. *)
Definition s_pos (atts : list satt) (name : cstring) : option (nat * satt) :=
  list_find (fun a => sa_name a = name) atts.

(** An origin other than the class itself. *)
Definition inherited (cname : cstring) (origin : option cstring) : bool :=
  match origin with Some o => negb (streq o cname) | None => false end.

(** What an addition from the configuration does to an attribute that exists. *)
Definition s_put_if (cname : cstring) (a : satt) (s : svalue) (origin : option cstring) : satt :=
  match inherited cname (sa_origin a), inherited cname origin with
  | false, true => a
  | true, false => satt_replace a s origin
  | _, _ => satt_add a s
  end.

(** Adding or replacing a value, given what happens if the attribute exists. *)
Definition s_put (upd : satt -> satt) (atts : list satt) (name : cstring) (s : svalue)
    (origin : option cstring) : list satt :=
  match s_pos atts name with
  | None => atts ++ [satt_new name s origin]
  | Some (i, a) => <[i := upd a]> atts
  end.

Definition s_add (atts : list satt) (name : cstring) (s : svalue) (origin : option cstring) : list satt :=
  s_put (fun a => satt_add a s) atts name s origin.
Definition s_replace (atts : list satt) (name : cstring) (s : svalue) (origin : option cstring) : list satt :=
  s_put (fun a => satt_replace a s origin) atts name s origin.
Definition s_add_if (cname : cstring) (atts : list satt) (name : cstring) (s : svalue)
    (origin : option cstring) : list satt :=
  s_put (fun a => s_put_if cname a s origin) atts name s origin.

Definition s_action (action : pathcomp_action_t) (cname : cstring) (atts : list satt) (name : cstring)
    (s : svalue) (origin : option cstring) : list satt :=
  match action with
  | PATHCOMP_ACTION_ADD => s_add atts name s origin
  | PATHCOMP_ACTION_REPLACE => s_replace atts name s origin
  | PATHCOMP_ACTION_ADD_IF => s_add_if cname atts name s origin
  | PATHCOMP_ACTION_NONE => s_put id atts name s origin
  end.

(** ** Finding attributes *)

Lemma list_find_Forall2 {A B} (P : A -> Prop) (Q : B -> Prop)
    `{forall x, Decision (P x), forall y, Decision (Q y)} (R : A -> B -> Prop) xs ys :
  Forall2 R xs ys -> (forall x y, R x y -> P x <-> Q y) ->
  match list_find P xs, list_find Q ys with
  | Some (i, x), Some (j, y) => i = j /\ R x y /\ xs !! i = Some x /\ ys !! i = Some y
  | None, None => True
  | _, _ => False
  end.
Proof.
  intros Hf HPQ. induction Hf as [|x y xs ys Hxy Hf IH]; simpl; [done|].
  specialize (HPQ _ _ Hxy). destruct (decide (P x)), (decide (Q y)); try naive_solver.
  destruct (list_find P xs) as [[i x']|], (list_find Q ys) as [[j y']|]; simpl; naive_solver.
Qed.

Lemma retrieve_rep c ss name :
  Forall2 att_shape (pc_attributes c) ss ->
  match pathcomp_retrieve_att c name, s_pos ss name with
  | Some (i, att), Some (j, sa) =>
      i = j /\ att_shape att sa /\ pc_attributes c !! i = Some att /\ ss !! i = Some sa
  | None, None => True
  | _, _ => False
  end.
Proof.
  intros Hf. apply list_find_Forall2; [done|]. intros att sa Hs.
  rw /att_name_equal_to /streq bool_decide_spec (as_name _ _ Hs) //.
Qed.

(** ** The values of an attribute among those of the composer *)

Lemma atts_values_app l1 l2 : atts_values (l1 ++ l2) = atts_values l1 ++ atts_values l2.
Proof. by rw /atts_values fmap_app concat_app. Qed.

Lemma satts_values_app l1 l2 : satts_values (l1 ++ l2) = satts_values l1 ++ satts_values l2.
Proof. by rw /satts_values fmap_app concat_app. Qed.

Lemma atts_values_at atts i att att' :
  atts !! i = Some att ->
  atts_values atts = atts_values (take i atts) ++ a_alternatives att ++ atts_values (drop (S i) atts) /\
  atts_values (<[i := att']> atts) =
    atts_values (take i atts) ++ a_alternatives att' ++ atts_values (drop (S i) atts).
Proof.
  intros Hi. split.
  - by rw -{1}(take_drop_middle _ _ _ Hi) atts_values_app.
  - rw insert_take_drop ?atts_values_app //. by apply lookup_lt_Some in Hi.
Qed.

Lemma satts_values_at ss i sa sa' :
  ss !! i = Some sa ->
  satts_values ss = satts_values (take i ss) ++ sa_alts sa ++ satts_values (drop (S i) ss) /\
  satts_values (<[i := sa']> ss) =
    satts_values (take i ss) ++ sa_alts sa' ++ satts_values (drop (S i) ss).
Proof.
  intros Hi. split.
  - by rw -{1}(take_drop_middle _ _ _ Hi) satts_values_app.
  - rw insert_take_drop ?satts_values_app //. by apply lookup_lt_Some in Hi.
Qed.

Lemma shapes_length atts ss :
  Forall2 att_shape atts ss -> length (atts_values atts) = length (satts_values ss).
Proof.
  induction 1 as [|att sa atts ss Hs _ IH]; [done|].
  rw /atts_values /satts_values /= !length_app (as_length _ _ Hs). f_equal. exact IH.
Qed.

(** ** Adding and replacing values *)

(** The composer, and a value that is not part of it yet. *)
Definition pending (F : gmap loc cstring) (c : pathcomp_t) (s : scomp) (v : value_t) (sv : svalue)
    (h : gmap loc cstring) : Prop :=
  Forall2 att_shape (pc_attributes c) (sc_atts s) /\
  vals_rep F (v :: atts_values (pc_attributes c)) (sv :: satts_values (sc_atts s)) h.

Section put.
Variables (F : gmap loc cstring) (c : pathcomp_t) (s : scomp) (v : value_t) (sv : svalue).

Lemma push_att_rep h name origin :
  pending F c s v sv h ->
  atts_rep F (pc_attributes c ++ [att_new name v origin]) (sc_atts s ++ [satt_new name sv origin]) h.
Proof.
  intros [Hs Hr]. split; [apply Forall2_app; [done|by repeat constructor]|].
  rw atts_values_app satts_values_app /=. apply vals_rep_middle; [by apply shapes_length|].
  by rw !app_nil_r.
Qed.

Lemma add_value_rep h i att sa :
  pending F c s v sv h -> pc_attributes c !! i = Some att -> sc_atts s !! i = Some sa ->
  att_shape att sa ->
  atts_rep F (<[i := att_add_value att v]> (pc_attributes c)) (<[i := satt_add sa sv]> (sc_atts s)) h.
Proof.
  intros [Hs Hr] Hi Hsi Hsh. destruct (att_add_shape att sa v sv Hsh) as [Hsh' Hadd].
  split; [by apply Forall2_insert|].
  destruct (atts_values_at _ _ _ (att_add_value att v) Hi) as [Hv Hv'].
  destruct (satts_values_at _ _ _ (satt_add sa sv) Hsi) as [Hsv Hsv'].
  rw Hv' Hsv' Hadd /= -!app_assoc /= !(app_assoc (atts_values _)) !(app_assoc (satts_values _)).
  apply vals_rep_middle.
  - rw !length_app (as_length _ _ Hsh). f_equal. apply shapes_length, Forall2_take, Hs.
  - by rw -!app_assoc -Hv -Hsv.
Qed.

Lemma replace_value_rep w i att sa origin :
  pending F c s v sv (w_strs w) -> pc_attributes c !! i = Some att -> sc_atts s !! i = Some sa ->
  att_shape att sa ->
  exists att' h, att_replace_value w att v origin = Ok (att', set_heap w h) /\
    atts_rep F (<[i := att']> (pc_attributes c)) (<[i := satt_replace sa sv origin]> (sc_atts s)) h.
Proof.
  intros [Hs Hr] Hi Hsi Hsh. rw /att_replace_value.
  set (att' := MkAtt (a_name att) [v] (node 1 0) origin).
  destruct (atts_values_at _ _ _ att' Hi) as [Hv Hv'].
  destruct (satts_values_at _ _ _ (satt_replace sa sv origin) Hsi) as [Hsv Hsv'].
  rw Hv Hsv !app_comm_cons in Hr.
  pose proof (shapes_length _ _ (Forall2_take _ _ _ i Hs)) as Hl.
  destruct (values_free_rep _ _ _ _ _ _ _ _ Hr) as (h & -> & Hr'); [by rw /= Hl|apply Hsh|].
  exists att', h. split; [done|]. split.
  - apply Forall2_insert; [done|]. split; simpl; try (done || lia). apply Hsh.
  - rw Hv' Hsv' /=. by apply vals_rep_middle.
Qed.
End put.

(** [pathcomp_add_or_replace] does what the action says, and the value either
    becomes part of the composer or is freed. *)
Lemma add_or_replace_rep F c s w name v sv origin action :
  pc_name c = sc_name s -> pending F c s v sv (w_strs w) -> action <> PATHCOMP_ACTION_NONE ->
  exists atts h, pathcomp_add_or_replace c w name v origin action =
      Ok (set_attributes c atts, set_heap w h) /\
    atts_rep F atts (s_action action (sc_name s) (sc_atts s) name sv origin) h.
Proof.
  intros Hname Hp Hact. rw /pathcomp_add_or_replace.
  assert (s_action action (sc_name s) (sc_atts s) name sv origin =
    match s_pos (sc_atts s) name with
    | None => sc_atts s ++ [satt_new name sv origin]
    | Some (i, a) => <[i := match action with
       | PATHCOMP_ACTION_ADD => satt_add a sv
       | PATHCOMP_ACTION_REPLACE => satt_replace a sv origin
       | PATHCOMP_ACTION_ADD_IF => s_put_if (sc_name s) a sv origin
       | PATHCOMP_ACTION_NONE => a end]> (sc_atts s)
    end) as ->.
  { rw /s_action /s_add /s_replace /s_add_if /s_put. by destruct action, (s_pos _ _) as [[]|]. }
  pose proof (retrieve_rep c (sc_atts s) name (proj1 Hp)) as Hfind.
  destruct (pathcomp_retrieve_att c name) as [[i att]|], (s_pos (sc_atts s) name) as [[j sa]|]; try done.
  2: { eexists _, (w_heap w). rw set_heap_id. split; [done|]. by apply push_att_rep. }
  destruct Hfind as (<- & Hsh & Hi & Hsi).
  assert (exists act,
    match action with
    | PATHCOMP_ACTION_ADD_IF => resolve_add_if c (att_get_origin att) origin
    | _ => action end = act /\ act <> PATHCOMP_ACTION_ADD_IF /\
    match action with
    | PATHCOMP_ACTION_ADD => satt_add sa sv
    | PATHCOMP_ACTION_REPLACE => satt_replace sa sv origin
    | PATHCOMP_ACTION_ADD_IF => s_put_if (sc_name s) sa sv origin
    | PATHCOMP_ACTION_NONE => sa end =
    match act with
    | PATHCOMP_ACTION_ADD => satt_add sa sv
    | PATHCOMP_ACTION_REPLACE => satt_replace sa sv origin
    | _ => sa end) as (act & -> & Hne & ->).
  { destruct action; [by eexists|by eexists| |done].
    rw /resolve_add_if /s_put_if /att_get_origin (as_origin _ _ Hsh) Hname /inherited.
    destruct (match sa_origin sa with Some _ => _ | None => _ end),
      (match origin with Some _ => _ | None => _ end); by eexists. }
  destruct act; try done.
  - eexists _, (w_heap w). rw set_heap_id. split; [done|]. by apply add_value_rep.
  - destruct (replace_value_rep F c s v sv w i att sa origin Hp Hi Hsi Hsh) as (att' & h & -> & Hr).
    by do 2 eexists.
  - destruct Hp as [Hs Hr]. destruct (value_free_rep _ _ _ _ _ _ Hr) as (h & -> & Hr').
    exists (pc_attributes c), h. split; [by destruct c|]. rw list_insert_id //.
Qed.

Lemma comp_rep_atts F c s w atts satts (h : heap) :
  comp_rep F c s w -> atts_rep F atts satts h ->
  comp_rep F (set_attributes c atts) (with_atts s satts) (set_heap w h).
Proof. intros [Hn Hm Hd Hst _] Ha. by split. Qed.

(** A world in which only strings changed. *)
Definition only_strs (w w' : world) : Prop := exists h, w' = set_heap w h.

Lemma put_text_rep F c s w name text origin action :
  comp_rep F c s w -> is_cstr text -> length text + 64 < buf_limit ->
  action <> PATHCOMP_ACTION_NONE ->
  exists c' w', ('(v, w) ← value_new_auto w text; pathcomp_add_or_replace c w name v origin action)
      = Ok (c', w') /\ only_strs w w' /\
    comp_rep F c' (with_atts s (s_action action (sc_name s) (sc_atts s) name (svalue_of_text text) origin)) w'.
Proof.
  intros Hc Ht Hlim Hact. pose proof (cr_atts _ _ _ _ Hc) as [Hs Hr].
  destruct (value_new_auto_rep _ _ _ w text Hr Ht Hlim) as (v & h & -> & _ & Hr'). ok_step.
  destruct (add_or_replace_rep F c s (set_heap w h) name v (svalue_of_text text) origin action)
    as (atts & h' & -> & Ha); [apply Hc|done|done|].
  do 2 eexists. split; [done|]. split; [by eexists|]. by apply (comp_rep_atts F c s w).
Qed.

Lemma put_int_rep F c s w name z origin action :
  comp_rep F c s w -> int_min <= z <= int_max -> action <> PATHCOMP_ACTION_NONE ->
  exists c' w', pathcomp_add_or_replace c w name (value_new_int z) origin action = Ok (c', w') /\
    only_strs w w' /\
    comp_rep F c' (with_atts s (s_action action (sc_name s) (sc_atts s) name (SInt z) origin)) w'.
Proof.
  intros Hc Hz Hact. pose proof (cr_atts _ _ _ _ Hc) as [Hs Hr].
  destruct (add_or_replace_rep F c s w name (value_new_int z) (SInt z) origin action)
    as (atts & h' & -> & Ha); [apply Hc|split; [done|by apply value_new_int_rep]|done|].
  do 2 eexists. split; [done|]. split; [by eexists|]. by apply (comp_rep_atts F c s w).
Qed.

(** ** Copying and freeing *)

Lemma atts_clone_rep F xs sx atts ss w :
  vals_rep F xs sx (w_strs w) -> Forall2 att_shape atts ss ->
  Forall2 (val_rep (w_strs w)) (atts_values atts) (satts_values ss) ->
  exists atts' h, atts_clone w atts = Ok (atts', set_heap w h) /\ w_strs w ⊆ hp_strs h /\
    Forall2 att_shape atts' ss /\ vals_rep F (xs ++ atts_values atts') (sx ++ satts_values ss) h.
Proof.
  intros Hr Hs. revert xs sx w Hr. induction Hs as [|att sa atts ss Hsh _ IH]; intros xs sx w Hr Hvs.
  { exists [], (w_heap w). rw set_heap_id !app_nil_r //. }
  rw /atts_values /satts_values /= -/(atts_values _) -/(satts_values _) in Hvs.
  apply Forall2_app_inv in Hvs as [Hv Hvs]; [|apply Hsh].
  destruct (att_clone_rep F xs sx att sa w Hr Hsh Hv) as (att' & h & Hc & Hsub & Hsh' & Hr').
  destruct (IH (xs ++ a_alternatives att') (sx ++ sa_alts sa) (set_heap w h) Hr')
    as (atts' & h' & Hcs & Hsub' & Hs' & Hr'').
  { eapply Forall2_impl; [done|]. intros; by eapply val_rep_mono. }
  rw /= Hc. ok_step. rw Hcs. ok_step. exists (att' :: atts'), h'. split; [done|].
  split; [by etrans|]. split; [by constructor|].
  by rw /atts_values /satts_values /= !app_assoc.
Qed.

Lemma atts_free_rep F atts ss w :
  Forall2 att_shape atts ss -> vals_rep F (atts_values atts) (satts_values ss) (w_strs w) ->
  exists h, atts_free w atts = Ok (set_heap w h) /\ hp_strs h = F.
Proof.
  intros Hs. revert w. induction Hs as [|att sa atts ss Hsh _ IH]; intros w Hr.
  { apply vals_rep_nil_eq in Hr. exists (w_heap w). by rw set_heap_id. }
  destruct (values_free_rep F [] (a_alternatives att) (atts_values atts) [] (sa_alts sa) (satts_values ss) w Hr)
    as (h & Hf & Hr'); [done|apply Hsh|].
  rw /= /att_free Hf Ok_bind. by apply (IH (set_heap w h)).
Qed.

(** ** Properties of the operations on composers *)

(** C9: Setting an attribute never faults; it leaves the composer with that one
    alternative for the attribute, set at run time and current, or with a new
    attribute at the end, and changes no other attribute; the strings of the old
    alternatives are freed and nobody else's. *)
Theorem pathcomp_set_spec F c s w name text :
  comp_rep F c s w -> is_cstr text -> length text + 64 < buf_limit ->
  exists c' w', pathcomp_set c w name text = Ok (c', w') /\ only_strs w w' /\
    comp_rep F c' (with_atts s (s_replace (sc_atts s) name (svalue_of_text text) None)) w'.
Proof. intros Hc Ht Hlim. by apply (put_text_rep F c s w name text None PATHCOMP_ACTION_REPLACE). Qed.

(** C10: Adding a value never faults and appends it to the alternatives of the
    attribute, keeping the current one, or creates the attribute; integers are
    added like texts. *)
Theorem pathcomp_add_spec F c s w name text z :
  comp_rep F c s w -> is_cstr text -> length text + 64 < buf_limit -> int_min <= z <= int_max ->
  (exists c' w', pathcomp_add c w name text = Ok (c', w') /\ only_strs w w' /\
     comp_rep F c' (with_atts s (s_add (sc_atts s) name (svalue_of_text text) None)) w') /\
  (exists c' w', pathcomp_add_int c w name z = Ok (c', w') /\ only_strs w w' /\
     comp_rep F c' (with_atts s (s_add (sc_atts s) name (SInt z) None)) w') /\
  (exists c' w', pathcomp_set_int c w name z = Ok (c', w') /\ only_strs w w' /\
     comp_rep F c' (with_atts s (s_replace (sc_atts s) name (SInt z) None)) w').
Proof.
  intros Hc Ht Hlim Hz. split; [|split].
  - by apply (put_text_rep F c s w name text None PATHCOMP_ACTION_ADD).
  - by apply (put_int_rep F c s w name z None PATHCOMP_ACTION_ADD).
  - by apply (put_int_rep F c s w name z None PATHCOMP_ACTION_REPLACE).
Qed.

Lemma pathcomp_clone_rep F c s w :
  comp_rep F c s w ->
  exists c' h, pathcomp_clone c w = Ok (c', set_heap w h) /\ w_strs w ⊆ hp_strs h /\
    comp_rep (w_strs w) c' s (set_heap w h).
Proof.
  intros [Hn Hm Hd Hst [Hs Hr]].
  destruct (atts_clone_rep (w_strs w) [] [] (pc_attributes c) (sc_atts s) w) as (atts & h & Hc & Hsub & Hs' & Hr');
    [apply vals_rep_nil|done|apply Hr|].
  rw /pathcomp_clone Hc. ok_step. do 2 eexists. split; [done|]. split; [done|]. by split.
Qed.

Lemma pathcomp_free_rep F c s w :
  comp_rep F c s w -> exists h, pathcomp_free c w = Ok (set_heap w h) /\ hp_strs h = F.
Proof. intros [_ _ _ _ [Hs Hr]]. by eapply atts_free_rep. Qed.

(** What is left of a heap without the strings of some values. *)
Definition others (vs : list value_t) (h : gmap loc cstring) : gmap loc cstring :=
  filter (fun p => p.1 ∉ owned vs) h.

Lemma others_lookup vs h l : others vs h !! l = if decide (l ∈ owned vs) then None else h !! l.
Proof.
  rw /others. case_decide as Hl.
  - apply map_lookup_filter_None. right. intros t _ Hn. by apply Hn.
  - destruct (h !! l) as [t|] eqn:Ht.
    + by apply map_lookup_filter_Some.
    + apply map_lookup_filter_None. by left.
Qed.

(** A composer is not affected by a heap that grows. *)
Lemma comp_rep_grow F c s w (h : heap) :
  comp_rep F c s w -> w_strs w ⊆ hp_strs h ->
  comp_rep (others (atts_values (pc_attributes c)) h) c s (set_heap w h).
Proof.
  intros [Hn Hm Hd Hst [Hs [Hv Hnd Hown Hfr]]] Hsub. split; try done. split; [done|]. split; [|done|..].
  - eapply Forall2_impl; [done|]. intros; by eapply val_rep_mono.
  - intros l Hl. by rw others_lookup decide_True.
  - intros l Hl. by rw others_lookup decide_False.
Qed.

(** C8: A clone means the same as the original, down to the current alternatives
    and the state of the iteration, and shares nothing with it: the original still
    owns its strings, whatever is done to the clone leaves them alone, and freeing
    the clone gives back the state before it was made. *)
Theorem pathcomp_clone_independent F c s w :
  comp_rep F c s w ->
  exists c' w', pathcomp_clone c w = Ok (c', w') /\ comp_rep (w_strs w) c' s w' /\
    (exists F', comp_rep F' c s w' /\ forall l, l ∈ owned (atts_values (pc_attributes c')) -> is_Some (F' !! l)) /\
    exists h, pathcomp_free c' w' = Ok (set_heap w h) /\ hp_strs h = w_strs w.
Proof.
  intros Hc. destruct (pathcomp_clone_rep F c s w Hc) as (c' & h & -> & Hsub & Hc').
  exists c', (set_heap w h). split; [done|]. split; [done|]. split.
  2: { by apply (pathcomp_free_rep _ _ _ _ Hc'). }
  eexists. split; [by apply (comp_rep_grow F)|]. intros l Hl.
  pose proof (cr_atts _ _ _ _ Hc') as [_ [Hv _ Hown _]]. specialize (Hown l Hl).
  rw others_lookup decide_False; [|by eapply owned_live].
  intros Hl'. destruct (owned_live _ _ _ _ (vr_vals _ _ _ _ (ar_vals _ _ _ _ (cr_atts _ _ _ _ Hc))) Hl').
  congruence.
Qed.

(** Freeing a composer never faults, frees exactly the strings it owns and
    leaves everybody else's. *)
Theorem pathcomp_free_spec F c s w :
  comp_rep F c s w -> exists w', pathcomp_free c w = Ok w' /\ only_strs w w' /\ w_strs w' = F.
Proof.
  intros Hc. destruct (pathcomp_free_rep F c s w Hc) as (h & -> & Hh).
  eexists. split; [done|]. split; [by eexists|done].
Qed.

(** ** Witnesses *)

(** A composer with one attribute, whose value is in the heap. *)
Definition one_comp : pathcomp_t :=
  MkPathcomp (lit "c") [MkAtt (lit "k") [MkValue VALUE_STRING (Some 1%positive)] (Some 0%nat) None]
    (lit "m") false false.
Definition one_scomp : scomp :=
  MkSComp (lit "c") [MkSAtt (lit "k") [SString (lit "v")] 0 None] (lit "m") false false.
Definition one_world : world := set_heap world0 (MkHeap {[1%positive := lit "v"]} ∅).

Lemma one_rep : comp_rep ∅ one_comp one_scomp one_world.
Proof.
  split; try done. split.
  - repeat constructor.
  - apply (vals_rep_cons ∅ VALUE_STRING 1%positive (lit "v") [] (SString (lit "v")) [] ∅);
      [apply vals_rep_nil|done|]. by constructor.
Qed.

Lemma lit_w_ok : is_cstr (lit "w") /\ length (lit "w") + 64 < buf_limit.
Proof. split; [by apply (bool_decide_unpack _); vm_compute|by vm_compute]. Qed.

Lemma pathcomp_set_spec_witness :
  exists c' w', pathcomp_set one_comp one_world (lit "k") (lit "w") = Ok (c', w') /\
    comp_rep ∅ c' (MkSComp (lit "c") [MkSAtt (lit "k") [SString (lit "w")] 0 None] (lit "m") false false) w'.
Proof.
  destruct (pathcomp_set_spec ∅ one_comp one_scomp one_world (lit "k") (lit "w") one_rep
    (proj1 lit_w_ok) (proj2 lit_w_ok)) as (c' & w' & Hset & _ & Hc).
  by exists c', w'.
Defined.

Lemma pathcomp_add_spec_witness :
  exists c' w', pathcomp_add_int one_comp one_world (lit "k") 7 = Ok (c', w') /\
    comp_rep ∅ c'
      (MkSComp (lit "c") [MkSAtt (lit "k") [SString (lit "v"); SInt 7] 0 None] (lit "m") false false) w'.
Proof.
  destruct (pathcomp_add_spec ∅ one_comp one_scomp one_world (lit "k") (lit "w") 7 one_rep
    (proj1 lit_w_ok) (proj2 lit_w_ok) ltac:(by vm_compute)) as (_ & (c' & w' & Hadd & _ & Hc) & _).
  by exists c', w'.
Defined.

Lemma pathcomp_clone_independent_witness :
  exists c' w', pathcomp_clone one_comp one_world = Ok (c', w') /\
    comp_rep (w_strs one_world) c' one_scomp w'.
Proof.
  destruct (pathcomp_clone_independent ∅ one_comp one_scomp one_world one_rep) as (c' & w' & Hc & Hr & _).
  by exists c', w'.
Defined.

Lemma pathcomp_free_spec_witness :
  exists w', pathcomp_free one_comp one_world = Ok w' /\ w_strs w' = ∅.
Proof.
  destruct (pathcomp_free_spec ∅ one_comp one_scomp one_world one_rep) as (w' & Hf & _ & Hs).
  by exists w'.
Defined.
