(* ===== verification/PathLoad.v ===== *)
(** PathLoad: what a composer gets from the configuration.

    [pathcomp_new] collects the entries of the sections of the class and, through
    [copy-from], of other sections. Here the traversal is separated from what it
    does: [flatten] lists the entries in the order in which they are visited, and
    the attributes are a fold over that list, for which there is a closed form. *)

From Corelib Require Import ssreflect.
From stdpp Require Import base list numbers gmap strings.
From Stdlib Require Import ZArith Lia.
From S2P Require Import Prelude Libc Buf Cf Interp Value Att Pathcomp PathSpec.

(** ** The entries, in the order of the traversal *)

(** An entry and the section it is from. *)
Abbreviation origin_kv := (cstring * cf_kv_t)%type.

Definition is_copy (kv : cf_kv_t) : bool := streq (kv_key kv) PATHCOMP_ATT_COPY.

Fixpoint flat_entries (recur : cstring -> option (list origin_kv)) (section_name : cstring)
    (entries : list cf_kv_t) : option (list origin_kv) :=
  match entries with
  | [] => Some []
  | kv :: entries =>
      copied ← (if is_copy kv then recur (kv_value kv) else Some []);
      rest ← flat_entries recur section_name entries;
      Some ([(section_name, kv)] ++ copied ++ rest)
  end.

Fixpoint flat_sections (recur : cstring -> option (list origin_kv)) (name : cstring)
    (secs : list cf_section_t) : option (list origin_kv) :=
  match secs with
  | [] => Some []
  | sec :: secs =>
      es ← (if find_section_with_name sec name then flat_entries recur (sec_name sec) (sec_entries sec)
            else Some []);
      rest ← flat_sections recur name secs;
      Some (es ++ rest)
  end.

(** [None] when the nesting of [copy-from] exceeds [fuel]. *)
Fixpoint flatten (fuel : nat) (secs : list cf_section_t) (name : cstring) : option (list origin_kv) :=
  match fuel with
  | O => None
  | S fuel => flat_sections (flatten fuel secs) name secs
  end.

(** ** The attributes *)

Definition load1 (cname : cstring) (atts : list satt) (e : origin_kv) : list satt :=
  s_add_if cname atts (kv_key e.2) (svalue_of_text (kv_value e.2)) (Some e.1).

Definition load (cname : cstring) (es : list origin_kv) : list satt := foldl (load1 cname) [] es.

(** The values of the configuration are C strings of reasonable length. *)
Definition kv_ok (kv : cf_kv_t) : Prop :=
  is_cstr (kv_value kv) /\ length (kv_value kv) + 64 < buf_limit.
Definition config_ok (secs : list cf_section_t) : Prop :=
  Forall (fun sec => Forall kv_ok (sec_entries sec)) secs.

Section refinement.
Variables (F : gmap loc cstring) (cname : cstring) (cfg : option cf_t).

(** [f] adds the entries [o] to any composer of the class, or runs out of stack. *)
Definition adds (f : pathcomp_t -> world -> res (pathcomp_t * world)) (o : option (list origin_kv)) : Prop :=
  forall c s w, comp_rep F c s w -> sc_name s = cname -> w_config w = cfg ->
  match o with
  | Some es => exists c' w', f c w = Ok (c', w') /\ only_strs w w' /\
      comp_rep F c' (with_atts s (foldl (load1 cname) (sc_atts s) es)) w'
  | None => f c w = Err OutOfFuel
  end.

Lemma only_strs_trans w1 w2 w3 : only_strs w1 w2 -> only_strs w2 w3 -> only_strs w1 w3.
Proof. intros [h1 ->] [h2 ->]. by exists h2. Qed.

Lemma adds_skip : adds (fun c w => Ok (c, w)) (Some []).
Proof.
  intros c s w Hc _ _. exists c, w. split; [done|]. split; [|by destruct s].
  exists (w_heap w). by rw set_heap_id.
Qed.

Lemma adds_seq f g o1 o2 :
  adds f o1 -> adds g o2 ->
  adds (fun c w => '(c, w) ← f c w; g c w) (es1 ← o1; es2 ← o2; Some (es1 ++ es2)).
Proof.
  intros Hf Hg c s w Hc Hn Hcfg. specialize (Hf c s w Hc Hn Hcfg). destruct o1 as [es1|]; simpl.
  2: { by rw Hf. }
  destruct Hf as (c1 & w1 & -> & Hw1 & Hc1). ok_step.
  assert (w_config w1 = cfg) as Hcfg1 by (by destruct Hw1 as [h ->]).
  specialize (Hg c1 _ w1 Hc1 Hn Hcfg1). destruct o2 as [es2|]; simpl; [|done].
  destruct Hg as (c2 & w2 & -> & Hw2 & Hc2). exists c2, w2. split; [done|].
  split; [by eapply only_strs_trans|]. by rw foldl_app.
Qed.

(** One entry. *)
Lemma adds_entry section_name kv :
  kv_ok kv ->
  adds (fun c w => '(value, w) ← value_new_auto w (kv_value kv);
        pathcomp_add_or_replace c w (kv_key kv) value (Some section_name) PATHCOMP_ACTION_ADD_IF)
    (Some [(section_name, kv)]).
Proof.
  intros [Ht Hlim] c s w Hc <- _.
  by apply (put_text_rep F c s w (kv_key kv) (kv_value kv) (Some section_name) PATHCOMP_ACTION_ADD_IF).
Qed.

Lemma adds_ext f g o : adds f o -> (forall c w, g c w = f c w) -> adds g o.
Proof. intros Hf Heq c s w. rw Heq. apply Hf. Qed.

Lemma adds_entries recur flat section_name entries :
  (forall name, adds (fun c w => recur c w name) (flat name)) -> Forall kv_ok entries ->
  adds (fun c w => pathcomp_add_atts_from_entries recur c w section_name entries)
    (flat_entries flat section_name entries).
Proof.
  intros Hrec. induction 1 as [|kv entries Hkv _ IH]; [apply adds_skip|].
  assert (adds (fun c w => if streq (kv_key kv) PATHCOMP_ATT_COPY then recur c w (kv_value kv) else Ok (c, w))
            (if is_copy kv then flat (kv_value kv) else Some [])) as Hcopy.
  { rw /is_copy. destruct (streq _ _); [apply Hrec|apply adds_skip]. }
  pose proof (adds_seq _ _ _ _ (adds_entry section_name kv Hkv) (adds_seq _ _ _ _ Hcopy IH)) as Hall.
  replace (flat_entries flat section_name (kv :: entries)) with
    (es1 ← Some [(section_name, kv)];
     es2 ← (es1 ← (if is_copy kv then flat (kv_value kv) else Some []);
            es2 ← flat_entries flat section_name entries; Some (es1 ++ es2));
     Some (es1 ++ es2)).
  2: { simpl. destruct (if is_copy kv then _ else _); [|done]. simpl. by destruct flat_entries. }
  eapply adds_ext; [exact Hall|]. intros c w. simpl.
  destruct (value_new_auto w (kv_value kv)) as [[v w1]|]; [|done]. simpl.
  by destruct (pathcomp_add_or_replace _ _ _ _ _ _) as [[c2 w2]|].
Qed.

Lemma adds_sections recur flat name secs :
  (forall name, adds (fun c w => recur c w name) (flat name)) -> config_ok secs ->
  adds (fun c w => sections_loop recur c w name secs) (flat_sections flat name secs).
Proof.
  intros Hrec. induction 1 as [|sec secs Hsec _ IH]; [apply adds_skip|]. simpl.
  apply (adds_seq (fun c w => if find_section_with_name sec name
    then pathcomp_add_atts_from_entries recur c w (sec_name sec) (sec_entries sec) else Ok (c, w))); [|done].
  destruct (find_section_with_name sec name); [by apply adds_entries|apply adds_skip].
Qed.

Lemma adds_from_sections secs fuel name :
  cfg = Some (MkCf secs) -> config_ok secs ->
  adds (fun c w => pathcomp_add_atts_from_sections fuel c w name) (flatten fuel secs name).
Proof.
  intros Hcfg Hok. revert name. induction fuel as [|fuel IH]; intros name; [done|].
  intros c s w Hc Hn Hw. rw /= Hw Hcfg. by apply (adds_sections _ (flatten fuel secs) name secs IH Hok).
Qed.
End refinement.

(** ** The closed form of the fold *)

(** The attribute [k]. *)
Definition s_find (atts : list satt) (k : cstring) : option satt := snd <$> s_pos atts k.

Lemma s_pos_Some atts k i a :
  s_pos atts k = Some (i, a) ->
  atts !! i = Some a /\ sa_name a = k /\ forall j b, (j < i)%nat -> atts !! j = Some b -> sa_name b <> k.
Proof. intros (Hi & Hk & Hj)%list_find_Some. naive_solver. Qed.

Lemma s_pos_cons a atts k :
  s_pos (a :: atts) k = if decide (sa_name a = k) then Some (0%nat, a)
                        else prod_map S id <$> s_pos atts k.
Proof. done. Qed.

Lemma s_find_cons a atts k :
  s_find (a :: atts) k = if decide (sa_name a = k) then Some a else s_find atts k.
Proof. rw /s_find s_pos_cons. case_decide; [done|]. by destruct (s_pos atts k) as [[]|]. Qed.

Lemma s_put_cons upd a atts name s origin :
  s_put upd (a :: atts) name s origin =
    if decide (sa_name a = name) then upd a :: atts else a :: s_put upd atts name s origin.
Proof. rw /s_put s_pos_cons. case_decide; [done|]. by destruct (s_pos atts name) as [[]|]. Qed.

Lemma s_find_put upd atts name s origin k :
  (forall a, sa_name (upd a) = sa_name a) ->
  s_find (s_put upd atts name s origin) k =
    if decide (k = name) then Some (match s_find atts name with
                                    | Some a => upd a | None => satt_new name s origin end)
    else s_find atts k.
Proof.
  intros Hupd. induction atts as [|a atts IH].
  - rw /s_put /= s_find_cons /=. repeat case_decide; congruence.
  - rw s_put_cons !s_find_cons. destruct (decide (sa_name a = name)) as [Hn|Hn].
    + rw s_find_cons Hupd Hn. repeat case_decide; congruence.
    + rw s_find_cons IH. repeat case_decide; congruence.
Qed.

Definition names (atts : list satt) : list cstring := sa_name <$> atts.

Lemma names_put upd atts name s origin :
  (forall a, sa_name (upd a) = sa_name a) ->
  names (s_put upd atts name s origin) =
    if decide (name ∈ names atts) then names atts else names atts ++ [name].
Proof.
  intros Hupd. induction atts as [|a atts IH].
  - case_decide; [set_solver|done].
  - rw s_put_cons /=. destruct (decide (sa_name a = name)) as [Hn|Hn].
    + rw /= Hupd Hn. destruct (decide (name ∈ name :: _)); [done|set_solver].
    + rw /= IH. destruct (decide (name ∈ names atts)), (decide (name ∈ sa_name a :: _)); set_solver.
Qed.

Lemma s_find_None atts k : s_find atts k = None <-> k ∉ names atts.
Proof.
  induction atts as [|a atts IH]; [set_solver|].
  rw s_find_cons /= not_elem_of_cons -IH. case_decide; naive_solver.
Qed.

(** The values of the entries for [k], from the sections of the class itself
    ([own]) or from other sections. *)
Definition values_of (cname k : cstring) (own : bool) (es : list origin_kv) : list (cstring * svalue) :=
  (fun e : origin_kv => (e.1, svalue_of_text (kv_value e.2))) <$>
  filter (fun e : origin_kv => kv_key e.2 = k /\ streq e.1 cname = own) es.

Definition alts_of (vs : list (cstring * svalue)) : list svalue := snd <$> vs.
#[local] Arguments alts_of : simpl never.

Lemma alts_of_app vs1 vs2 : alts_of (vs1 ++ vs2) = alts_of vs1 ++ alts_of vs2.
Proof. apply fmap_app. Qed.

(** The attribute [k] of a class: its own values if there are any, else all
    inherited ones, in the order of the traversal; the first one is current. *)
Definition expected (cname : cstring) (es : list origin_kv) (k : cstring) : option satt :=
  match values_of cname k true es, values_of cname k false es with
  | ((o, _) :: _) as vs, _ | [], ((o, _) :: _) as vs => Some (MkSAtt k (alts_of vs) 0 (Some o))
  | [], [] => None
  end.

Lemma values_of_snoc cname k own es o kv :
  values_of cname k own (es ++ [(o, kv)]) =
    values_of cname k own es ++
    (if streq (kv_key kv) k && Bool.eqb (streq o cname) own then [(o, svalue_of_text (kv_value kv))] else []).
Proof.
  rw /values_of filter_app fmap_app filter_cons filter_nil. f_equal.
  rw /streq. repeat case_bool_decide; destruct own; simpl; repeat case_decide; naive_solver.
Qed.

Lemma values_of_origin cname k own es o s :
  (o, s) ∈ values_of cname k own es -> streq o cname = own.
Proof. intros ([o' kv] & [= -> ->] & [[_ Ho] _]%list_elem_of_filter)%list_elem_of_fmap. done. Qed.

Lemma s_put_if_name cname a s origin : sa_name (s_put_if cname a s origin) = sa_name a.
Proof. rw /s_put_if. by destruct (inherited _ _), (inherited _ _). Qed.

Lemma load_find cname es k : s_find (load cname es) k = expected cname es k.
Proof.
  induction es as [|[o kv] es IH] using rev_ind; [done|].
  rw /load foldl_snoc -/(load _ _) /load1 /s_add_if s_find_put; [intros a; apply s_put_if_name|].
  rw /expected !values_of_snoc /=. case_decide as Hk.
  2: { rw /(streq (kv_key kv)) bool_decide_false; [congruence|]. rw /= !app_nil_r IH //. }
  rw -Hk /(streq k) bool_decide_true // IH /expected.
  assert (forall own o s vs, values_of cname k own es = (o, s) :: vs -> streq o cname = own) as Horg.
  { intros own o' s vs Heq. apply (values_of_origin cname k own es o' s). rw Heq. by left. }
  destruct (values_of cname k true es) as [|[o1 s1] own] eqn:Hown,
    (values_of cname k false es) as [|[o2 s2] inh] eqn:Hinh; rw /s_put_if /inherited /=;
    try (rw (Horg true _ _ _ Hown)); try (rw (Horg false _ _ _ Hinh));
    destruct (streq o cname) eqn:Ho;
    rw /satt_add /satt_replace /= ?app_nil_r ?app_comm_cons ?alts_of_app //.
Qed.

(** Attributes appear once, in the order in which their names are first met. *)
Definition add_name (ns : list cstring) (k : cstring) : list cstring :=
  if decide (k ∈ ns) then ns else ns ++ [k].

Lemma load_names cname es :
  names (load cname es) = foldl add_name [] ((fun e : origin_kv => kv_key e.2) <$> es).
Proof.
  induction es as [|[o kv] es IH] using rev_ind; [done|].
  rw fmap_app /= foldl_snoc -IH /load foldl_snoc /load1 /s_add_if names_put //.
  intros a. apply s_put_if_name.
Qed.

Lemma load_NoDup cname es : NoDup (names (load cname es)).
Proof.
  rw load_names. move: (_ <$> es) => ks. induction ks as [|k ks IH] using rev_ind; [constructor|].
  rw foldl_snoc {1}/add_name. case_decide; [done|].
  apply NoDup_app. split; [done|]. split; [set_solver|apply NoDup_singleton].
Qed.

(** ** Construction *)

Definition sections_of (w : world) : list cf_section_t :=
  match w_config w with Some cf => cf_sections cf | None => [] end.

Lemma make_from_config_ok F fuel c s w es :
  comp_rep F c s w -> config_ok (sections_of w) ->
  flatten fuel (sections_of w) (sc_name s) = Some es -> sc_atts s = [] ->
  exists c' w', pathcomp_make_from_config fuel c w = Ok (c', w') /\ only_strs w w' /\
    comp_rep F c' (with_atts s (load (sc_name s) es)) w'.
Proof.
  intros Hc Hok Hfl Hnil. rw /pathcomp_make_from_config (cr_name _ _ _ _ Hc).
  rw /sections_of in Hok Hfl. destruct (w_config w) as [[secs]|] eqn:Hcfg; simpl in *.
  - pose proof (adds_from_sections F (sc_name s) (Some (MkCf secs)) secs fuel (sc_name s) eq_refl Hok
      c s w Hc eq_refl Hcfg) as Hadds. by rw Hfl Hnil in Hadds.
  - destruct fuel as [|fuel]; [done|]. simpl in *. injection Hfl as <-. rw Hcfg.
    exists c, w. split; [done|]. split; [exists (w_heap w); by rw set_heap_id|].
    rw /load /= -Hnil. by destruct s.
Qed.

Lemma no_nul_prefix name : NUL ∉ name -> NUL ∉ metatable_prefix ++ name.
Proof.
  intros Hn. apply not_elem_of_app. split; [|done]. by apply (bool_decide_unpack _); vm_compute.
Qed.

(** The buffer operations that make the name of the metatable. *)
Lemma metatable_name {A} name (k : cstring -> res A) :
  is_cstr name -> length name + 64 < buf_limit ->
  (buf ← buf_init 0; buf ← buf_addstr buf metatable_prefix; buf ← buf_addstr buf name;
   '(blk, _, _) ← buf_detach buf; metatable ← cstr_of blk; k metatable) = k (metatable_prefix ++ name).
Proof.
  intros Hn Hlim. assert (length metatable_prefix = 13%nat) as Hlen by done.
  destruct (buf_init_rep 0) as (b & -> & Hb); [done|]. ok_step.
  destruct (buf_addstr_rep b [] 0 metatable_prefix Hb) as (b1 & -> & Hb1); [simpl; lia|]. ok_step.
  destruct (buf_addstr_rep b1 _ 0 name Hb1) as (b2 & -> & Hb2); [simpl; lia|]. ok_step.
  rw (detach_cstr _ _ _ _ Hb2) //.
  - rw length_app /=. lia.
  - apply no_nul_prefix. by apply is_cstr_no_nul.
Qed.

(** Registering the metatable leaves the stack as it was. *)
Lemma register_metatable w mt l :
  w_lua w = Some l ->
  exists w', (w ← lua_pop (lua_push (luaL_newmetatable w mt) LFun) 1; lua_pop w 1) = Ok w' /\
    lua_stack w' = l_stack l /\ has_metatable w' mt = true /\
    w_strs w' = w_strs w /\ w_config w' = w_config w.
Proof.
  intros Hl. rw /luaL_newmetatable Hl. set (mts := if decide (mt ∈ _) then _ else _).
  assert (mt ∈ mts) as Hin by (rw /mts; case_decide; [done|by left]). move: mts Hin => mts Hin.
  rw /lua_push /lua_pop /set_stack /lua_stack /=.
  eexists. split; [done|].
  split; [done|]. split; [|done]. rw /has_metatable /=. by apply bool_decide_true.
Qed.

Definition scomp_empty (name : cstring) : scomp := MkSComp name [] [] false false.

Lemma empty_composer_rep w name :
  comp_rep (w_strs w) (MkPathcomp name [] [] false false) (scomp_empty name) (interpreter_get_state w).
Proof. rw -(get_state_strs w). do 2 (split; try done). apply vals_rep_nil. Qed.

Lemma get_state_config w : w_config (interpreter_get_state w) = w_config w.
Proof. rw /interpreter_get_state. by destruct (w_lua w). Qed.

Lemma pathcomp_new_ok fuel w name es :
  config_ok (sections_of w) -> is_cstr name -> length name + 64 < buf_limit ->
  flatten fuel (sections_of w) name = Some es ->
  exists c w', pathcomp_new fuel w name = Ok (c, w') /\
    comp_rep (w_strs w) c (MkSComp name (load name es) (metatable_prefix ++ name) false false) w' /\
    lua_stack w' = lua_stack w /\ has_metatable w' (metatable_prefix ++ name) = true /\
    w_config w' = w_config w.
Proof.
  intros Hok Hn Hlim Hfl. rw /pathcomp_new. set (w0 := interpreter_get_state w).
  assert (sections_of w0 = sections_of w) as Hsec by (by rw /sections_of get_state_config).
  rw -Hsec in Hok Hfl.
  destruct (make_from_config_ok _ fuel _ _ w0 es (empty_composer_rep w name) Hok Hfl eq_refl)
    as (c & w1 & -> & [h ->] & Hc).
  ok_step. rw metatable_name //.
  assert (exists l, w_lua (set_heap w0 h) = Some l /\ l_stack l = lua_stack w) as (l & Hl & Hst).
  { rw /w0 /interpreter_get_state /lua_stack /=. destruct (w_lua w) eqn:Hlua; eexists; [done|split; done]. }
  destruct (register_metatable _ (metatable_prefix ++ name) l Hl) as (w2 & Hreg & Hst2 & Hmt & Hstr & Hcf).
  destruct (lua_pop _ 1) as [w3|] eqn:Hpop; [|done]. simpl in Hreg. ok_step. rw Hreg. ok_step.
  do 2 eexists. split; [done|]. split.
  { destruct Hc as [Hcn _ _ _ Hca]. split; try done. by rw Hstr. }
  split; [congruence|]. split; [done|]. by rw Hcf get_state_config.
Qed.


(** ** Termination *)

(** A section [name] has an entry [copy-from = t]. *)
Definition copies (secs : list cf_section_t) (name t : cstring) : Prop :=
  exists sec kv, sec ∈ secs /\ sec_name sec = name /\ kv ∈ sec_entries sec /\ is_copy kv = true /\
    kv_value kv = t.

Lemma flat_entries_Some recur sname entries :
  is_Some (flat_entries recur sname entries) <->
  forall kv, kv ∈ entries -> is_copy kv = true -> is_Some (recur (kv_value kv)).
Proof.
  induction entries as [|kv entries IH]; simpl; [split; [set_solver|by eexists]|]. split.
  - destruct (if is_copy kv then _ else _) as [es|] eqn:He; simpl; [|by intros []].
    destruct (flat_entries recur sname entries) as [rest|]; simpl; [|by intros []].
    intros _ kv'. rw elem_of_cons. intros [->|Hin] Hcopy.
    + rw Hcopy in He. by eexists.
    + by apply IH.
  - intros Hall. assert (is_Some (if is_copy kv then recur (kv_value kv) else Some [])) as [es ->].
    { destruct (is_copy kv) eqn:Hcopy; [|by eexists]. apply Hall; [by left|done]. }
    destruct (proj2 IH) as [rest ->]; [|by eexists]. intros kv' Hin. apply Hall. by right.
Qed.

Lemma flat_sections_Some recur name secs :
  is_Some (flat_sections recur name secs) <-> forall t, copies secs name t -> is_Some (recur t).
Proof.
  induction secs as [|sec secs IH]; simpl.
  { split; [|by eexists]. intros _ t (sec & kv & Hin & _). set_solver. }
  assert (is_Some (if find_section_with_name sec name
            then flat_entries recur (sec_name sec) (sec_entries sec) else Some []) <->
          forall t, copies [sec] name t -> is_Some (recur t)) as Hone.
  { rw /find_section_with_name /streq. case_bool_decide as Hn.
    - rw flat_entries_Some. split.
      + intros Hall t (sec' & kv & ->%list_elem_of_singleton & _ & Hkv & Hcopy & <-). auto.
      + intros Hall kv Hkv Hcopy. apply Hall. exists sec, kv. set_solver.
    - split; [|by eexists]. intros _ t (sec' & kv & ->%list_elem_of_singleton & ? & _). done. }
  assert ((forall t, copies (sec :: secs) name t -> is_Some (recur t)) <->
          (forall t, copies [sec] name t -> is_Some (recur t)) /\
          (forall t, copies secs name t -> is_Some (recur t))) as ->.
  { split.
    - intros Hall. split; intros t (sec' & kv & Hin & ?); apply Hall; exists sec', kv; set_solver.
    - intros [H1 H2] t (sec' & kv & [->|Hin]%elem_of_cons & ?).
      + apply H1. exists sec, kv. set_solver.
      + apply H2. by exists sec', kv. }
  rw -Hone -IH. destruct (if find_section_with_name sec name then _ else _); simpl.
  - destruct (flat_sections recur name secs); simpl; rw /is_Some; naive_solver.
  - split; [by intros []|by intros [[] _]].
Qed.

Lemma flatten_ranked secs (rank : cstring -> nat) fuel name :
  (forall n t, copies secs n t -> (rank t < rank n)%nat) -> (rank name < fuel)%nat ->
  is_Some (flatten fuel secs name).
Proof.
  intros Hrank. revert name. induction fuel as [|fuel IH]; intros name Hlt; [lia|]. simpl.
  apply flat_sections_Some. intros t Ht. apply IH. apply Hrank in Ht. lia.
Qed.

Lemma flatten_cycle secs (P : cstring -> Prop) fuel name :
  (forall n, P n -> exists t, copies secs n t /\ P t) -> P name -> flatten fuel secs name = None.
Proof.
  intros Hcyc. revert name. induction fuel as [|fuel IH]; intros name Hname; [done|].
  destruct (flatten (S fuel) secs name) as [es|] eqn:Hfl; [|done].
  destruct (Hcyc name Hname) as (t & Ht & HPt).
  destruct (proj1 (flat_sections_Some (flatten fuel secs) name secs) (mk_is_Some _ _ Hfl) t Ht) as [es' He].
  by rw IH in He.
Qed.

(** C15: When [copy-from] has no cycles (the classes can be ranked so that every
    class copies from classes of lower rank only), creating a composer returns. *)
Theorem copy_from_terminates w name (rank : cstring -> nat) fuel :
  config_ok (sections_of w) -> is_cstr name -> length name + 64 < buf_limit ->
  (forall n t, copies (sections_of w) n t -> (rank t < rank n)%nat) -> (rank name < fuel)%nat ->
  exists c w', pathcomp_new fuel w name = Ok (c, w').
Proof.
  intros Hok Hn Hlim Hrank Hf. destruct (flatten_ranked _ rank fuel name Hrank Hf) as [es Hes].
  destruct (pathcomp_new_ok fuel w name es) as (c & w' & Hnew & _); [done..|]. by exists c, w'.
Qed.

(** C16: When a class is on a cycle of [copy-from] (a set of classes each of which
    copies from one in the set), creating a composer never returns, however deep
    the stack may grow: there is no test for cycles. *)
Theorem copy_from_cycle_diverges w name (P : cstring -> Prop) fuel :
  config_ok (sections_of w) ->
  (forall n, P n -> exists t, copies (sections_of w) n t /\ P t) -> P name ->
  pathcomp_new fuel w name = Err OutOfFuel.
Proof.
  intros Hok Hcyc HP. rw /pathcomp_new /pathcomp_make_from_config /=.
  set (w0 := interpreter_get_state w).
  destruct (w_config w) as [[secs]|] eqn:Hcfg; rw /sections_of Hcfg /= in Hok Hcyc.
  2: { destruct (Hcyc name HP) as (t & (sec & kv & Hin & _) & _). set_solver. }
  pose proof (adds_from_sections (w_strs w) name (Some (MkCf secs)) secs fuel name eq_refl Hok
    _ _ w0 (empty_composer_rep w name) eq_refl) as Hadds.
  rw (flatten_cycle secs P) // get_state_config in Hadds. by rw Hadds.
Qed.

(** ** Witnesses *)

(** Class [a] has its own [x], and copies [y] from [b] and [z] from [c]. *)
Definition demo_config : list cf_section_t :=
  [MkSection (lit "c") [MkKv (lit "x") (lit "3"); MkKv (lit "z") (lit "4")];
   MkSection (lit "b") [MkKv (lit "x") (lit "1"); MkKv (lit "y") (lit "2"); MkKv (lit "copy-from") (lit "c")];
   MkSection (lit "a") [MkKv (lit "copy-from") (lit "b"); MkKv (lit "x") (lit "0"); MkKv (lit "x") (lit "9")]].
Definition demo_world : world := set_config world0 (Some (MkCf demo_config)).

Lemma demo_config_ok : config_ok demo_config.
Proof.
  repeat (apply Forall_nil_2 || (apply Forall_cons_2; simpl));
    (split; [by apply (bool_decide_unpack _); vm_compute|by vm_compute]).
Qed.


Lemma demo_copies n t : copies demo_config n t ->
  (n = lit "b" /\ t = lit "c") \/ (n = lit "a" /\ t = lit "b").
Proof.
  intros (sec & kv & Hsec & <- & Hkv & Hcopy & <-).
  repeat (apply elem_of_cons in Hsec as [->|Hsec]); try (by apply elem_of_nil in Hsec); simpl in Hkv;
    repeat (apply elem_of_cons in Hkv as [->|Hkv]); try (by apply elem_of_nil in Hkv);
    try (by vm_compute in Hcopy); auto.
Qed.

Lemma copy_from_terminates_witness :
  exists c w', pathcomp_new 3 demo_world (lit "a") = Ok (c, w').
Proof.
  apply (copy_from_terminates demo_world (lit "a")
    (fun n => if decide (n = lit "a") then 2%nat else if decide (n = lit "b") then 1%nat else 0%nat)).
  - exact demo_config_ok.
  - by apply (bool_decide_unpack _); vm_compute.
  - by vm_compute.
  - intros n t [[-> ->]|[-> ->]]%demo_copies; vm_compute; lia.
  - vm_compute. lia.
Defined.

Lemma copy_from_cycle_diverges_witness :
  pathcomp_new 1000 (set_config world0 (Some (MkCf [MkSection (lit "a") [MkKv (lit "copy-from") (lit "a")]])))
    (lit "a") = Err OutOfFuel.
Proof.
  apply (copy_from_cycle_diverges _ (lit "a") (fun n => n = lit "a")).
  - apply Forall_singleton, Forall_singleton. by split; [apply (bool_decide_unpack _); vm_compute|vm_compute].
  - intros n ->. exists (lit "a"). split; [|done].
    eexists _, _. split; [by left|]. split; [done|]. split; [by left|]. by vm_compute.
  - done.
Defined.
