(* ===== verification/PathEval.v ===== *)
(** PathEval: evaluating the attributes of a composer and composing paths.

    The string an attribute evaluates to is a function of the meaning of the
    composer ([den_eval]): Lua code that reads other attributes sees their
    meaning, down to the depth at which the interpreter stops. The evaluation in
    the code, which runs through the interpreter, its stack, the callback and the
    cached results, computes that function, never faults, keeps the stack balanced
    and owns the strings it leaves behind. *)

From Corelib Require Import ssreflect.
From stdpp Require Import base list numbers gmap strings.
From Stdlib Require Import ZArith Lia.
From S2P Require Import Prelude Libc Buf Cf Interp Value Att Pathcomp PathSpec PathLoad.

(** ** The meaning of an evaluation *)

Section meaning.
Context {L : LuaInterp}.
Variables (metas : list cstring) (s : scomp).

(** The current alternative of the attribute [name]. *)
Definition s_current (name : cstring) : option svalue :=
  a ← s_find (sc_atts s) name; sa_alts a !! sa_current a.

(** What the code of a value gets for [self[name]]. *)
Fixpoint den_index (depth : nat) (name : cstring) : option lua_value :=
  match depth with
  | O => None
  | S depth =>
      Some (match s_current name with
            | None => LNil
            | Some sv => den_push metas (den_index depth) sv (Some (sc_metatable s))
            end)
  end.

(** What an attribute evaluates to. *)
Definition den_eval (depth : nat) (name : cstring) : option cstring :=
  sv ← s_current name; den_value metas (den_index depth) sv (Some (sc_metatable s)).
End meaning.

(** ** The composer as a host of values *)

Definition cvals (c : pathcomp_t) : list value_t := atts_values (pc_attributes c).
Definition svals (s : scomp) : list svalue := satts_values (sc_atts s).

(** Everything of [s] but the values. *)
Record comp_inv (s : scomp) (c : pathcomp_t) : Prop := {
  ci_name : pc_name c = sc_name s;
  ci_metatable : pc_metatable c = sc_metatable s;
  ci_done : pc_done c = sc_done s;
  ci_started : pc_started c = sc_started s;
  ci_shape : Forall2 att_shape (pc_attributes c) (sc_atts s)
}.

Lemma comp_rep_split F c s w :
  comp_rep F c s w <-> comp_inv s c /\ vals_rep F (cvals c) (svals s) (w_strs w).
Proof.
  split.
  - intros [Hn Hm Hd Hst [Hs Hv]]. by split.
  - intros [[Hn Hm Hd Hst Hs] Hv]. split; [done..|]. by split.
Qed.

(** The place of the [j]-th alternative of the [i]-th attribute. *)
Definition place (s : scomp) (i j : nat) : nat := (length (satts_values (take i (sc_atts s))) + j)%nat.

Section places.
Variables (s : scomp) (i j : nat) (sa : satt).
Hypotheses (Hi : sc_atts s !! i = Some sa) (Hj : (j < length (sa_alts sa))%nat).

Lemma svals_place : svals s !! place s i j = sa_alts sa !! j.
Proof.
  rw /svals /place (proj1 (satts_values_at _ _ _ sa Hi)) lookup_app_r; [lia|].
  rw lookup_app_l; [lia|]. f_equal. lia.
Qed.

Lemma att_at c :
  comp_inv s c -> exists att, pc_attributes c !! i = Some att /\ att_shape att sa.
Proof. intros [_ _ _ _ Hs]. by apply (Forall2_lookup_r _ _ _ _ _ Hs Hi). Qed.

Lemma values_before c :
  comp_inv s c ->
  length (atts_values (take i (pc_attributes c))) = length (satts_values (take i (sc_atts s))).
Proof. intros [_ _ _ _ Hs]. by apply shapes_length, Forall2_take. Qed.

Lemma lens_get_place c :
  comp_inv s c -> lget (alt_lens (att_lens i) j) c = cvals c !! place s i j.
Proof.
  intros Hc. destruct (att_at c Hc) as (att & Hatt & Hsh). rw /= Hatt /=.
  rw /cvals /place (proj1 (atts_values_at _ _ _ att Hatt)) -(values_before c Hc).
  rw lookup_app_r; [lia|]. rw lookup_app_l; [rw (as_length _ _ Hsh); lia|]. f_equal. lia.
Qed.

Lemma lens_set_place c v :
  comp_inv s c ->
  let c' := lset (alt_lens (att_lens i) j) c v in
  comp_inv s c' /\ cvals c' = <[place s i j := v]> (cvals c).
Proof.
  intros Hc. destruct (att_at c Hc) as (att & Hatt & Hsh). rw /= Hatt. split.
  - destruct Hc as [Hn Hm Hd Hst Hs]. split; try done. simpl.
    rw -(list_insert_id _ _ _ Hi). apply Forall2_insert; [done|].
    destruct Hsh. split; simpl; try done. by rw length_insert.
  - set (att' := MkAtt _ _ _ _). rw /cvals /place /=.
    destruct (atts_values_at _ _ _ att' Hatt) as [-> ->]. rw -(values_before c Hc).
    rw insert_app_r insert_app_l //. rw (as_length _ _ Hsh). lia.
Qed.
End places.

Lemma place_inj s i j i' j' sa sa' :
  sc_atts s !! i = Some sa -> (j < length (sa_alts sa))%nat ->
  sc_atts s !! i' = Some sa' -> (j' < length (sa_alts sa'))%nat ->
  i <> i' -> place s i j <> place s i' j'.
Proof.
  assert (forall i i' j sa, (i < i')%nat -> sc_atts s !! i = Some sa -> (j < length (sa_alts sa))%nat ->
    (place s i j < length (satts_values (take i' (sc_atts s))))%nat) as Hlt.
  { clear. intros i i' j sa Hlt Hi Hj. rw /place.
    assert (take i' (sc_atts s) !! i = Some sa) as Hi' by (by rw lookup_take_lt).
    rw (proj1 (satts_values_at _ _ _ sa Hi')) !length_app take_take.
    replace (i `min` i')%nat with i by lia. lia. }
  intros Hi Hj Hi' Hj' Hne. destruct (decide (i < i')%nat) as [Hii|].
  - pose proof (Hlt i i' j sa Hii Hi Hj). rw /place in H *. lia.
  - pose proof (Hlt i' i j' sa' ltac:(lia) Hi' Hj'). rw /place in H *. lia.
Qed.

(** ** Evaluation *)

Section evaluation.
Context {L : LuaInterp}.
Variables (F : gmap loc cstring) (s : scomp) (metas : list cstring) (cfg : option cf_t).

(** A value that is known not to change. *)
Variable pin : option (nat * value_t).

Definition pinned_inv (c : pathcomp_t) : Prop :=
  comp_inv s c /\ match pin with Some (k, v) => cvals c !! k = Some v | None => True end.

Abbreviation cready := (ready cvals pinned_inv F (svals s) metas cfg).

Hypothesis code : forall lua, SLua lua ∈ svals s -> code_ok lua.

Section at_place.
Variables (i j : nat) (sa : satt).
Hypotheses (Hi : sc_atts s !! i = Some sa) (Hj : (j < length (sa_alts sa))%nat).

Lemma place_reads : lens_reads cvals pinned_inv (alt_lens (att_lens i) j) (place s i j).
Proof. intros c [Hc _]. by eapply lens_get_place. Qed.

Lemma place_lens :
  (forall v, pin <> Some (place s i j, v)) ->
  lens_at cvals pinned_inv (alt_lens (att_lens i) j) (place s i j).
Proof.
  intros Hpin. split; [apply place_reads|..].
  - intros c v [Hc Hp]. destruct (lens_set_place s i j sa Hi Hj c v Hc) as [Hc' Hv]. split; [done|].
    destruct pin as [[k u]|]; [|done]. rw Hv list_lookup_insert_ne //.
    intros Heq. apply (Hpin u). by rw Heq.
  - intros c v [Hc _]. by eapply lens_set_place.
Qed.
End at_place.

Lemma current_place name i sa :
  s_pos (sc_atts s) name = Some (i, sa) -> (sa_current sa < length (sa_alts sa))%nat ->
  exists sv, s_current s name = Some sv /\ svals s !! place s i (sa_current sa) = Some sv /\
    sc_atts s !! i = Some sa.
Proof.
  intros Hpos Hlt. destruct (s_pos_Some _ _ _ _ Hpos) as (Hi & _).
  destruct (lookup_lt_is_Some_2 _ _ Hlt) as [sv Hsv]. exists sv.
  rw (svals_place s i _ sa) // /s_current /s_find Hpos. by split.
Qed.

(** The pinned value may be read by Lua code, but must not be Lua code. *)
Hypothesis pin_ok : forall k v lua, pin = Some (k, v) -> svals s !! k <> Some (SLua lua).

Lemma push_value_ok index D name st c w :
  (forall st key name c w, lua_tostring key = Some name -> cready st c w ->
     exists c' w', index key c w = Ok (D name, c', w') /\ cready st c' w') ->
  cready st c w ->
  match s_current s name with
  | None => pathcomp_push_value index c w name = Ok (0%nat, c, w)
  | Some sv => exists c' w', pathcomp_push_value index c w name = Ok (1%nat, c', w') /\
      cready (den_push metas D sv (Some (sc_metatable s)) :: st) c' w'
  end.
Proof.
  intros Hindex Hr. pose proof (rd_inv _ _ _ _ _ _ _ _ _ Hr) as [Hc _].
  rw /pathcomp_push_value. pose proof (retrieve_rep c (sc_atts s) name (ci_shape _ _ Hc)) as Hfind.
  destruct (pathcomp_retrieve_att c name) as [[i att]|], (s_pos (sc_atts s) name) as [[i' sa]|] eqn:Hpos; try done.
  2: { by rw /s_current /s_find Hpos. }
  destruct Hfind as (<- & Hsh & Hatt & Hsa). pose proof (as_bound _ _ Hsh) as Hlt.
  destruct (current_place name i sa Hpos Hlt) as (sv & -> & Hsv & _).
  rw /att_push /= Hatt (as_current _ _ Hsh) (ci_metatable _ _ Hc).
  eapply (value_push_ok cvals pinned_inv); try done.
  - by eapply place_reads.
  - intros lua ->. split; [|by eapply code, list_elem_of_lookup_2].
    eapply place_lens; [done..|]. intros v Hpin. by edestruct pin_ok.
  - by rw (get_state_ready cvals pinned_inv F (svals s) metas cfg st c w Hr).
Qed.

Lemma index_ok depth st key name c w :
  lua_tostring key = Some name -> cready st c w ->
  exists c' w', pathcomp_index depth key c w = Ok (den_index metas s depth name, c', w') /\
    cready st c' w'.
Proof.
  revert st key name c w. induction depth as [|depth IH]; intros st key name c w Hkey Hr; simpl; [by eauto|].
  assert (lua_stack w = st) as Hst by (by rw /lua_stack (rd_lua _ _ _ _ _ _ _ _ _ Hr)).
  pose proof (ready_push _ _ _ _ _ _ _ _ _ key (ready_push _ _ _ _ _ _ _ _ _ LUser Hr)) as Hr1.
  set (w1 := lua_push (lua_push w LUser) key) in *.
  assert (lua_stack w1 = key :: LUser :: st) as Hst1 by (by rw /lua_stack (rd_lua _ _ _ _ _ _ _ _ _ Hr1)).
  rw /pathcomp_eval_callback Hst1 Hkey.
  pose proof (push_value_ok (pathcomp_index depth) (den_index metas s depth) name _ c w1 IH Hr1) as Hpush.
  assert (forall st' c' w', cready st' c' w' -> cready st c' (set_stack w' st)) as Hset.
  { intros st' c' w' [Hl Hcf Hi Hv]. rw /set_stack Hl. by split. }
  rw Hst. destruct (s_current s name) as [sv|]; simpl.
  - destruct Hpush as (c' & w' & -> & Hr'). ok_step.
    assert (lua_stack w' = den_push metas (den_index metas s depth) sv (Some (sc_metatable s)) :: key :: LUser :: st)
      as -> by (by rw /lua_stack (rd_lua _ _ _ _ _ _ _ _ _ Hr')).
    simpl. do 2 eexists. split; [done|]. by eapply Hset.
  - rw Hpush. ok_step. do 2 eexists. split; [done|]. by eapply Hset.
Qed.

(** Evaluating an attribute other than the pinned one; the result is the cached
    string of its current alternative. *)
Lemma eval_nocopy_ok depth name st c w :
  cready st c (interpreter_get_state w) ->
  (forall i sa v, s_pos (sc_atts s) name = Some (i, sa) -> pin <> Some (place s i (sa_current sa), v)) ->
  exists p c' w', pathcomp_eval_nocopy depth c w name = Ok (p, c', w') /\
    cready st c' (interpreter_get_state w') /\ result_is w' p (den_eval metas s depth name) /\
    forall i sa, s_pos (sc_atts s) name = Some (i, sa) ->
      exists src, cvals c' !! place s i (sa_current sa) = Some (MkValue src p).
Proof.
  intros Hr Hpin. pose proof (rd_inv _ _ _ _ _ _ _ _ _ Hr) as [Hc _].
  rw /pathcomp_eval_nocopy. pose proof (retrieve_rep c (sc_atts s) name (ci_shape _ _ Hc)) as Hfind.
  rw /den_eval /s_current /s_find.
  destruct (pathcomp_retrieve_att c name) as [[i att]|], (s_pos (sc_atts s) name) as [[i' sa]|] eqn:Hpos; try done.
  2: { by exists None, c, w. }
  destruct Hfind as (<- & Hsh & Hatt & Hsa). pose proof (as_bound _ _ Hsh) as Hlt.
  destruct (current_place name i sa Hpos Hlt) as (sv & Hcur & Hsv & _).
  rw /s_current /s_find Hpos in Hcur. simpl in Hcur |- *. rw Hcur /=.
  rw /att_eval /= Hatt (as_current _ _ Hsh) (ci_metatable _ _ Hc).
  destruct (value_eval_ok cvals pinned_inv F (svals s) metas cfg (pathcomp_index depth) (den_index metas s depth)
    (index_ok depth) (alt_lens (att_lens i) (sa_current sa)) (place s i (sa_current sa)) sv
    (Some (sc_metatable s)) st c w) as (p & c' & w' & He & Hr' & Hk & Hres); try done.
  - eapply place_lens; [done..|]. intros v. by apply Hpin.
  - intros lua ->. by eapply code, list_elem_of_lookup_2.
  - exists p, c', w'. split; [done|]. split; [done|]. split; [done|].
    intros i0 sa0 [= <- <-]. by eexists.
Qed.
End evaluation.

(** ** Evaluating attributes *)

(** The Lua code in the composer indexes [self] with strings and numbers only. *)
Definition comp_code_ok `{LuaInterp} (s : scomp) : Prop := forall lua, SLua lua ∈ svals s -> code_ok lua.

(** The stack of the interpreter and the metatables it knows, when it is used next. *)
Definition lua_is (w : world) (st : list lua_value) (metas : list cstring) : Prop :=
  w_lua (interpreter_get_state w) = Some (MkLua st metas).

Lemma comp_rep_ready F c s w st metas :
  comp_rep F c s w -> lua_is w st metas ->
  ready cvals (pinned_inv s None) F (svals s) metas (w_config w) st c (interpreter_get_state w).
Proof.
  intros [Hc Hv]%comp_rep_split Hl. split; [done|apply get_state_config|done|by rw get_state_strs].
Qed.

Lemma ready_comp_rep pin F c s w st metas cfg :
  ready cvals (pinned_inv s pin) F (svals s) metas cfg st c (interpreter_get_state w) ->
  comp_rep F c s w /\ lua_is w st metas /\ w_config w = cfg.
Proof.
  intros [Hl Hcf [Hc _] Hv]. rw get_state_strs in Hv. rw get_state_config in Hcf.
  split; [by apply comp_rep_split|done].
Qed.

Lemma read_ptr_ok w p o : result_is w p o -> read_ptr w p = Ok o.
Proof.
  rw /read_ptr /str_get. destruct p as [l|], o as [t|]; simpl; try done. by intros ->.
Qed.

(** C1: Evaluating an attribute never faults, whatever other attributes its Lua
    code reads and however deeply these evaluations nest: it returns the string
    the composer assigns to the attribute (none if the attribute is unknown or its
    code fails), leaves the meaning of the composer, the configuration and the
    stack of the interpreter as they were, and owns the strings it caches. *)
Theorem pathcomp_eval_spec {L : LuaInterp} depth F c s w st metas name :
  comp_rep F c s w -> comp_code_ok s -> lua_is w st metas ->
  exists c' w', pathcomp_eval depth c w name = Ok (den_eval metas s depth name, c', w') /\
    comp_rep F c' s w' /\ lua_is w' st metas /\ w_config w' = w_config w.
Proof.
  intros Hc Hcode Hl. pose proof (comp_rep_ready _ _ _ _ _ _ Hc Hl) as Hr.
  destruct (eval_nocopy_ok F s metas (w_config w) None Hcode ltac:(done) depth name st c w Hr)
    as (p & c' & w' & He & Hr' & Hres & _); [done|].
  apply ready_comp_rep in Hr' as (? & ? & ?).
  rw /pathcomp_eval He. ok_step. rw (read_ptr_ok _ _ _ Hres). by do 2 eexists.
Qed.

(** ** Composing a path *)

(** [root], a slash and [compose], leaving out what is missing or empty. *)
Definition join_root (root : option cstring) : cstring :=
  match root with Some ((_ :: _) as root) => root ++ [ch_slash] | _ => [] end.

Definition join_path (root compose : option cstring) : option cstring :=
  match join_root root ++ default [] compose with [] => None | path => Some path end.

(** A text that can be part of a path. *)
Definition text_ok (o : option cstring) : Prop :=
  match o with Some t => (NUL ∉ t) /\ length t < 2 ^ 59 | None => True end.

#[export] Instance text_ok_dec o : Decision (text_ok o).
Proof. destruct o; simpl; apply _. Defined.

(** [pathcomp_yield] keeps the pointer to the result of [root] while it evaluates
    [compose]; this is safe when [root] is not Lua code, or [compose] is a string. *)
Definition root_stable (s : scomp) : Prop :=
  (forall lua, s_current s PATHCOMP_ATT_ROOT <> Some (SLua lua)) \/
  match s_current s PATHCOMP_ATT_COMPOSE with Some (SString _) | None => True | _ => False end.

(** The buffer operations of [pathcomp_yield]. *)
Lemma join_path_buf {A} path root compose (k : option cstring -> res A) :
  buf_rep path [] 0 -> text_ok root -> text_ok compose ->
  (path ← match root with
          | Some ((_ :: _) as root) => path ← buf_addstr path root; buf_addch path ch_slash
          | _ => Ok path
          end;
   path ← match compose with
          | Some ((_ :: _) as compose) => buf_addstr path compose
          | _ => Ok path
          end;
   if decide (blen path <> 0) then '(blk, _, _) ← buf_detach path; s ← cstr_of blk; k (Some s)
   else _ ← buf_release path; k None) = k (join_path root compose).
Proof.
  intros Hb Hroot Hcomp.
  assert (exists b1, match root with
     | Some ((_ :: _) as root) => path ← buf_addstr path root; buf_addch path ch_slash
     | _ => Ok path end = Ok b1 /\ buf_rep b1 (join_root root) 0 /\ (NUL ∉ join_root root) /\
     length (join_root root) <= 2 ^ 59) as (b1 & -> & Hb1 & Hnr & Hlr).
  { destruct root as [[|ch t]|]; [exists path; simpl; set_solver by lia| |exists path; simpl; set_solver by lia].
    destruct Hroot as [Hn Hl]. destruct (buf_addstr_rep path [] 0 (ch :: t) Hb) as (b & -> & Hb');
      [rw /buf_limit /=; simpl in Hl; lia|]. ok_step.
    destruct (buf_addch_rep b _ 0 ch_slash Hb') as (b1 & -> & Hb1);
      [rw /buf_limit /=; simpl in Hl; lia|].
    eexists. split; [done|]. split; [done|]. rw /join_root length_app /= in Hl *. split; [|lia].
    rw app_comm_cons not_elem_of_app list_elem_of_singleton. by split. }
  ok_step. rw /join_path. move: (join_root root) Hb1 Hnr Hlr => r Hb1 Hnr Hlr.
  assert (exists b2, match compose with
     | Some ((_ :: _) as compose) => buf_addstr b1 compose | _ => Ok b1 end = Ok b2 /\
     buf_rep b2 (r ++ default [] compose) 0 /\ (NUL ∉ default [] compose) /\
     length (default [] compose) <= 2 ^ 59) as (b2 & -> & Hb2 & Hnc & Hlc).
  { destruct compose as [[|ch t]|];
      [exists b1; rw /= app_nil_r; set_solver by lia| |exists b1; rw /= app_nil_r; set_solver by lia].
    destruct Hcomp as [Hn Hl]. destruct (buf_addstr_rep b1 r 0 (ch :: t) Hb1) as (b2 & -> & Hb2);
      [rw /buf_limit; lia|]. exists b2. simpl in *. split; [done|]. split; [done|]. split; [done|lia]. }
  ok_step. pose proof Hb2 as (Hlen & _). rw Hlen.
  destruct (r ++ default [] compose) as [|ch t] eqn:Hp.
  - destruct (buf_release_rep _ _ _ Hb2) as (b3 & -> & _). by case_decide.
  - case_decide; [|simpl in *; lia]. rw -Hp in Hb2 *. rw (detach_cstr _ _ _ _ Hb2) //; [|set_solver].
    rw length_app /buf_limit. lia.
Qed.

(** Strings are not evaluated. *)
Lemma eval_nocopy_string {L : LuaInterp} depth s c w name :
  comp_inv s c ->
  Forall2 (val_rep (w_strs w)) (cvals c) (svals s) ->
  match s_current s name with Some (SString _) | None => True | _ => False end ->
  exists p, pathcomp_eval_nocopy depth c w name = Ok (p, c, w).
Proof.
  intros Hc Hv Hcur. rw /pathcomp_eval_nocopy.
  pose proof (retrieve_rep c (sc_atts s) name (ci_shape _ _ Hc)) as Hfind.
  destruct (pathcomp_retrieve_att c name) as [[i att]|], (s_pos (sc_atts s) name) as [[i' sa]|] eqn:Hpos; try done.
  2: { by eexists. }
  destruct Hfind as (<- & Hsh & Hatt & Hsa). pose proof (as_bound _ _ Hsh) as Hlt.
  destruct (current_place s name i sa Hpos Hlt) as (sv & Hsv & Hk & _). rw Hsv in Hcur.
  destruct sv as [t| |]; try done.
  destruct (Forall2_lookup_r _ _ _ _ _ Hv Hk) as (v & Hkv & Hrep).
  rw /att_eval {1}/att_lens. cbn [lget]. rw Hatt (as_current _ _ Hsh) /value_eval.
  rw (lens_get_place s i (sa_current sa) sa) // Hkv. inv Hrep. by eexists.
Qed.

(** The result of a value that is not Lua code is determined by its meaning. *)
Lemma result_kept {L : LuaInterp} w p sv src metas D mt :
  val_rep (w_strs w) (MkValue src p) sv -> (forall lua, sv <> SLua lua) -> is_Some p ->
  result_is w p (den_value metas D sv mt).
Proof. intros Hv Hne [l ->]. inv Hv; simpl; [done|by edestruct Hne|done]. Qed.

Lemma names_differ s i i' sa sa' name name' :
  s_pos (sc_atts s) name = Some (i, sa) -> s_pos (sc_atts s) name' = Some (i', sa') ->
  name <> name' -> i <> i'.
Proof.
  intros (Hi & Hn & _)%s_pos_Some (Hi' & Hn' & _)%s_pos_Some Hne ->. congruence.
Qed.

Section yield.
Context {L : LuaInterp}.
Variables (depth : nat) (F : gmap loc cstring) (s : scomp) (st : list lua_value) (metas : list cstring).
Hypotheses (Hcode : comp_code_ok s).

Abbreviation den := (den_eval metas s depth).

(** The second evaluation of [pathcomp_yield]: the first result can still be read. *)
Lemma eval_second c w name name' p :
  comp_rep F c s w -> lua_is w st metas -> name <> name' ->
  result_is w p (den name) ->
  (forall i sa, s_pos (sc_atts s) name = Some (i, sa) ->
     exists src, cvals c !! place s i (sa_current sa) = Some (MkValue src p)) ->
  (forall lua, s_current s name <> Some (SLua lua)) ->
  exists q c' w', pathcomp_eval_nocopy depth c w name' = Ok (q, c', w') /\
    comp_rep F c' s w' /\ lua_is w' st metas /\ w_config w' = w_config w /\
    result_is w' q (den name') /\ result_is w' p (den name).
Proof.
  intros Hc Hl Hne Hres Hplace Hstable. pose proof (comp_rep_ready _ _ _ _ _ _ Hc Hl) as Hr.
  destruct (s_pos (sc_atts s) name) as [[i sa]|] eqn:Hpos.
  2: { destruct (eval_nocopy_ok F s metas (w_config w) None Hcode ltac:(done) depth name' st c w Hr)
         as (q & c' & w' & He & Hr' & Hq & _); [done|].
       apply ready_comp_rep in Hr' as (? & ? & ?). exists q, c', w'.
       rw /den_eval /s_current /s_find Hpos /= in Hres *. destruct p; done. }
  destruct (Hplace i sa eq_refl) as (src & Hk). pose proof Hc as [Hci Hv]%comp_rep_split.
  pose proof (retrieve_rep c (sc_atts s) name (ci_shape _ _ Hci)) as Hfind. rw Hpos in Hfind.
  destruct (pathcomp_retrieve_att c name) as [[i' att]|]; [|done].
  destruct Hfind as (-> & Hsh & _ & Hsa). pose proof (as_bound _ _ Hsh) as Hlt.
  destruct (current_place s name i sa Hpos Hlt) as (sv & Hsv & Hksv & _).
  set (pin := Some (place s i (sa_current sa), MkValue src p)).
  assert (ready cvals (pinned_inv s pin) F (svals s) metas (w_config w) st c (interpreter_get_state w)) as Hr1.
  { destruct Hr as [? ? [? _] ?]. by split. }
  destruct (eval_nocopy_ok F s metas (w_config w) pin Hcode) with (depth := depth) (name := name')
    (st := st) (c := c) (w := w) as (q & c' & w' & He & Hr' & Hq & _); [|done| |].
  { intros k v lua [= <- <-]. rw Hksv. rw Hsv in Hstable. naive_solver. }
  { intros i' sa' v Hpos' [= Heq _]. revert Heq.
    destruct (s_pos_Some _ _ _ _ Hpos') as (Hi' & _).
    destruct (Forall2_lookup_r _ _ _ _ _ (ci_shape _ _ Hci) Hi') as (att' & _ & Hsh').
    eapply place_inj; [done|done|done|apply Hsh'|]. by eapply names_differ. }
  pose proof (rd_inv _ _ _ _ _ _ _ _ _ Hr') as [_ Hpin].
  pose proof (rd_vals _ _ _ _ _ _ _ _ _ Hr') as [Hvals _ _ _]. rw get_state_strs in Hvals.
  pose proof (Forall2_lookup_lr _ _ _ _ _ _ Hvals Hpin Hksv) as Hrep.
  apply ready_comp_rep in Hr' as (? & ? & ?). exists q, c', w'. do 5 (split; [done|]).
  rw /den_eval Hsv /= in Hres *. apply (result_kept _ _ _ src); [done|congruence|].
  destruct sv; [|by edestruct Hstable|]; by destruct p.
Qed.

Lemma yield_ok c w :
  comp_rep F c s w -> lua_is w st metas -> root_stable s ->
  text_ok (den PATHCOMP_ATT_ROOT) -> text_ok (den PATHCOMP_ATT_COMPOSE) ->
  exists c' w',
    pathcomp_yield depth c w = Ok (join_path (den PATHCOMP_ATT_ROOT) (den PATHCOMP_ATT_COMPOSE), c', w') /\
    comp_rep F c' s w' /\ lua_is w' st metas /\ w_config w' = w_config w.
Proof.
  intros Hc Hl Hstable Hr Hcomp. rw /pathcomp_yield.
  destruct (buf_init_rep 0) as (path & -> & Hpath); [done|]. ok_step.
  destruct (eval_nocopy_ok F s metas (w_config w) None Hcode ltac:(done) depth PATHCOMP_ATT_ROOT st c w)
    as (p & c1 & w1 & -> & Hr1 & Hp & Hplace); [by apply comp_rep_ready|done|]. ok_step.
  apply ready_comp_rep in Hr1 as (Hc1 & Hl1 & Hcf1).
  assert (exists q c2 w2, pathcomp_eval_nocopy depth c1 w1 PATHCOMP_ATT_COMPOSE = Ok (q, c2, w2) /\
    comp_rep F c2 s w2 /\ lua_is w2 st metas /\ w_config w2 = w_config w1 /\
    result_is w2 q (den PATHCOMP_ATT_COMPOSE) /\ result_is w2 p (den PATHCOMP_ATT_ROOT))
    as (q & c2 & w2 & -> & Hc2 & Hl2 & Hcf2 & Hq & Hp2).
  { destruct Hstable as [Hroot|Hstr]; [by eapply eval_second|].
    destruct (eval_nocopy_ok F s metas (w_config w1) None Hcode ltac:(done) depth PATHCOMP_ATT_COMPOSE st c1 w1)
      as (q & c2 & w2 & He & Hr2 & Hq & _); [by apply comp_rep_ready|done|].
    apply ready_comp_rep in Hr2 as (Hc2 & Hl2 & Hcf2).
    pose proof Hc1 as [Hci [Hv _ _ _]]%comp_rep_split.
    destruct (eval_nocopy_string depth s c1 w1 PATHCOMP_ATT_COMPOSE Hci Hv Hstr) as (q' & He').
    rw He in He'. simplify_eq. by do 3 eexists. }
  ok_step. rw (read_ptr_ok _ _ _ Hp2). ok_step. rw (read_ptr_ok _ _ _ Hq).
  exists c2, w2. split; [|split; [done|split; [done|congruence]]].
  rw -(join_path_buf path _ _ (fun o => Ok (o, c2, w2)) Hpath Hr Hcomp).
  done.
Qed.
End yield.


(** ** Witnesses *)

(** An interpreter that knows a few chunks. *)
Definition lua_code (body : string) : cstring := lua_preamble ++ lit body.

Definition name_txt (_ : bool) : lua_prog :=
  LIndex (LStr (lit "name")) (fun v =>
    match lua_tostring v with
    | Some s => LReturn (Some (s ++ lit ".txt"))
    | None => LError (lit "attempt to concatenate a nil value")
    end).

Definition demo_lua : LuaInterp := {|
  lua_load src :=
    if decide (src = lua_code " return '/r' ") then inr (fun _ => LReturn (Some (lit "/r")))
    else if decide (src = lua_code " return self.name .. '.txt' ") then inr name_txt
    else if decide (src = lua_code " return self.root ") then
      inr (fun _ => LIndex (LStr (lit "root")) (fun v => LReturn (lua_tostring v)))
    else if decide (src = lua_code " return self[{}] ") then
      inr (fun _ => LIndex LTable (fun v => LReturn (lua_tostring v)))
    else inl (lit "syntax error") |}.

(** A composer of class [c] with the given configuration. *)
Definition configured (conf : cstring) : res (pathcomp_t * world) :=
  w ← pathcomp_add_config_from_string world0 conf; pathcomp_new 2 w (lit "c").

Definition line (s : string) : cstring := lit s ++ [ch_nl].

Definition demo_conf : cstring :=
  line "[c]" ++ line "root = /data" ++ line "name = a" ++
  line "compose = lua { return self.name .. '.txt' }".

Definition demo_comp : pathcomp_t * world :=
  match configured demo_conf with Ok p => p | Err _ => (MkPathcomp [] [] [] false false, world0) end.

Definition demo_scomp : scomp :=
  MkSComp (lit "c")
    [MkSAtt (lit "root") [SString (lit "/data")] 0 (Some (lit "c"));
     MkSAtt (lit "name") [SString (lit "a")] 0 (Some (lit "c"));
     MkSAtt (lit "compose") [SLua (lua_code " return self.name .. '.txt' ")] 0 (Some (lit "c"))]
    (lit "libpathcomp::c") false false.

(** A composer built from a configuration without nested [copy-from]. *)
Lemma configured_rep conf w es :
  pathcomp_add_config_from_string world0 conf = Ok w -> w_strs w = ∅ ->
  config_ok (sections_of w) -> flatten 2 (sections_of w) (lit "c") = Some es ->
  exists c w', configured conf = Ok (c, w') /\
    comp_rep ∅ c (MkSComp (lit "c") (load (lit "c") es) (lit "libpathcomp::c") false false) w'.
Proof.
  intros Hw Hs Hok Hes. rw /configured Hw Ok_bind.
  destruct (pathcomp_new_ok 2 w (lit "c") es Hok) as (c & w' & Hnew & Hrep & _); [|by vm_compute|done|].
  - by apply (bool_decide_unpack _); vm_compute.
  - rw Hs in Hrep. by exists c, w'.
Qed.

Ltac solve_kvs :=
  repeat (apply Forall_nil_2 || (apply Forall_cons_2; simpl));
  (split; [by apply (bool_decide_unpack _); vm_compute|by vm_compute]).

Lemma demo_rep : comp_rep ∅ demo_comp.1 demo_scomp demo_comp.2.
Proof.
  destruct (pathcomp_add_config_from_string world0 demo_conf) as [w|] eqn:Hw; [|by vm_compute in Hw].
  assert (Hw' := Hw). vm_compute in Hw'. injection Hw' as Hw'.
  destruct (flatten 2 (sections_of w) (lit "c")) as [es|] eqn:Hes; [|subst w; by vm_compute in Hes].
  destruct (configured_rep demo_conf w es Hw) as (c & w' & Hc & Hrep); [by subst w|subst w; solve_kvs|done|].
  rw /demo_comp Hc. subst w. vm_compute in Hes. injection Hes as <-. exact Hrep.
Qed.

Lemma demo_lua_is : lua_is demo_comp.2 [] [lit "libpathcomp::c"].
Proof. by vm_compute. Qed.

Lemma demo_code_ok : comp_code_ok (H:=demo_lua) demo_scomp.
Proof.
  intros lua. change (svals demo_scomp) with
    [SString (lit "/data"); SString (lit "a"); SLua (lua_code " return self.name .. '.txt' ")].
  rw !elem_of_cons. intros [?|[?|[[= ->]|Hin]]]; [done..| |by apply elem_of_nil in Hin].
  assert (lua_load (LuaInterp:=demo_lua) (lua_code " return self.name .. '.txt' ") = inr name_txt) as Hload.
  { unfold lua_load, demo_lua. case_decide as Hne; [by vm_compute in Hne|].
    case_decide as Heq; [done|]. by edestruct Heq. }
  rw /code_ok Hload. intros b. split; [by eexists|]. intros v. by destruct (lua_tostring v).
Qed.

Lemma pathcomp_eval_spec_witness :
  exists c' w', pathcomp_eval (L:=demo_lua) 5 demo_comp.1 demo_comp.2 (lit "compose") =
    Ok (Some (lit "a.txt"), c', w') /\ comp_rep ∅ c' demo_scomp w'.
Proof.
  destruct (pathcomp_eval_spec (L:=demo_lua) 5 ∅ _ _ _ [] _ (lit "compose") demo_rep demo_code_ok demo_lua_is)
    as (c' & w' & He & Hrep & _).
  exists c', w'. split; [|done]. etrans; [exact He|]. by vm_compute.
Defined.


(** ** Uses of the library that fault *)

Definition dangling_conf : cstring :=
  line "[c]" ++ line "root = lua { return '/r' }" ++ line "compose = lua { return self.root }".


Definition bad_key_conf : cstring := line "[c]" ++ line "compose = lua { return self[{}] }".

(** Lua code in the configuration that indexes [self] with something other than
    a string or a number makes the callback abort the program: the type of the key
    is checked by an assertion. *)
Theorem index_with_table_aborts :
  ('(c, w) ← configured bad_key_conf; pathcomp_yield (L:=demo_lua) 5 c w) = Err AssertFail.
Proof. vm_compute. reflexivity. Qed.

(** C40: When there is no path to compose, [pathcomp_mkdir] dereferences the NULL
    that [pathcomp_yield] returns. *)
Theorem pathcomp_mkdir_null {L : LuaInterp} {Sys : OS} depth F c s w st metas os :
  comp_rep F c s w -> comp_code_ok s -> lua_is w st metas ->
  s_current s PATHCOMP_ATT_ROOT = None -> s_current s PATHCOMP_ATT_COMPOSE = None ->
  pathcomp_mkdir depth c w os = Err NullDeref.
Proof.
  intros Hc Hcode Hl Hr Hcm.
  assert (forall name, s_current s name = None -> den_eval metas s depth name = None) as Hden
    by (intros name Hn; by rw /den_eval Hn).
  destruct (yield_ok depth F s st metas Hcode c w Hc Hl) as (c' & w' & Hy & _).
  - right. by rw Hcm.
  - by rw Hden.
  - by rw Hden.
  - by rw /pathcomp_mkdir Hy !Hden.
Qed.

(** A file system that is the list of the paths that exist. *)
Definition list_os : OS := {|
  os_state := list cstring;
  os_exists os p := bool_decide (p ∈ os);
  os_mkdir os p := if decide (p ∈ os) then (EEXIST, os) else (0%Z, p :: os);
  os_errno _ := EEXIST;
  strerror _ := lit "error"
|}.

Lemma pathcomp_mkdir_null_witness :
  pathcomp_mkdir (L:=demo_lua) (Sys:=list_os) 5 (MkPathcomp (lit "c") [] (lit "m") false false) world0 []
    = Err NullDeref.
Proof.
  apply (pathcomp_mkdir_null (L:=demo_lua) (Sys:=list_os) 5 ∅ _ (MkSComp (lit "c") [] (lit "m") false false)
    world0 [] []).
  - split; try done. split; [constructor|apply vals_rep_nil].
  - intros lua Hin. by apply elem_of_nil in Hin.
  - done.
  - done.
  - done.
Defined.
