(* ===== verification/PathIter.v ===== *)
(** PathIter: iterating over the alternatives of a composer, looking for paths
    that exist and creating their parent directories.

    A composer is a counter with one digit per attribute, the first attribute
    being the fastest: [s_at ss k] are the attributes when the counter stands at
    [k]. *)

From Corelib Require Import ssreflect.
From stdpp Require Import base list numbers gmap strings.
From Stdlib Require Import ZArith Lia.
From S2P Require Import Prelude Libc Buf Cf Interp Value Att Pathcomp PathSpec PathLoad PathEval.

(** ** The counter *)

Local Open Scope nat_scope.

Fixpoint total (ss : list satt) : nat :=
  match ss with
  | [] => 1
  | a :: ss => length (sa_alts a) * total ss
  end.

(** The attributes at the [k]-th combination. *)
Fixpoint s_at (ss : list satt) (k : nat) : list satt :=
  match ss with
  | [] => []
  | a :: ss =>
      satt_at a (k mod length (sa_alts a)) :: s_at ss (k / length (sa_alts a))
  end.

(** The number of the combination the attributes stand at. *)
Fixpoint rank (ss : list satt) : nat :=
  match ss with
  | [] => 0
  | a :: ss => sa_current a + length (sa_alts a) * rank ss
  end.

(** Every attribute has a current alternative. *)
Definition wf_satts (ss : list satt) : Prop :=
  Forall (fun a => sa_current a < length (sa_alts a)) ss.

Lemma shapes_wf atts ss : Forall2 att_shape atts ss -> wf_satts ss.
Proof. induction 1 as [|att sa atts ss Hsh _ IH]; constructor; [apply Hsh|done]. Qed.

Lemma total_pos ss : wf_satts ss -> 0 < total ss.
Proof. induction 1; simpl; [lia|]. nia. Qed.

Lemma s_at_length ss k : length (s_at ss k) = length ss.
Proof. revert k. induction ss; intros k; simpl; auto. Qed.

Lemma s_at_total ss k : total (s_at ss k) = total ss.
Proof. revert k. induction ss; intros k; simpl; auto. Qed.

Lemma s_at_s_at ss k j : s_at (s_at ss k) j = s_at ss j.
Proof. revert k j. induction ss as [|a ss IH]; intros k j; simpl; [done|]. by rw IH. Qed.

Lemma s_at_wf ss k : wf_satts ss -> wf_satts (s_at ss k).
Proof.
  intros Hwf. revert k. induction Hwf as [|a ss Ha _ IH]; intros k; [constructor|].
  apply Forall_cons_2; [simpl; apply Nat.mod_upper_bound; lia|apply IH].
Qed.

Lemma rank_lt ss : wf_satts ss -> rank ss < total ss.
Proof. induction 1 as [|a ss Ha _ IH]; simpl; [lia|]. nia. Qed.

(** [rank] and [s_at] are inverse to each other. *)
Lemma s_at_rank ss : wf_satts ss -> s_at ss (rank ss) = ss.
Proof.
  induction 1 as [|a ss Ha _ IH]; simpl; [done|]. set (n := length (sa_alts a)) in *.
  assert ((sa_current a + n * rank ss) mod n = sa_current a) as ->.
  { rw Nat.mul_comm Nat.Div0.mod_add Nat.mod_small //. }
  assert ((sa_current a + n * rank ss) / n = rank ss) as ->.
  { rw Nat.mul_comm Nat.div_add; [lia|]. rw Nat.div_small //. }
  rw IH. by destruct a.
Qed.

Lemma rank_s_at ss k : wf_satts ss -> k < total ss -> rank (s_at ss k) = k.
Proof.
  intros Hwf. revert k. induction Hwf as [|a ss Ha _ IH]; intros k Hk; simpl in *; [lia|].
  set (n := length (sa_alts a)) in *. rw IH; [apply Nat.Div0.div_lt_upper_bound; lia|].
  pose proof (Nat.div_mod k n ltac:(lia)). lia.
Qed.

(** ** One step *)

Lemma next_loop_rep atts ss k :
  Forall2 att_shape atts (s_at ss k) -> wf_satts ss -> k < total ss ->
  exists atts', next_loop atts = (bool_decide (S k < total ss), atts') /\
    Forall2 att_shape atts' (s_at ss (if decide (S k < total ss) then S k else 0)) /\
    atts_values atts' = atts_values atts.
Proof.
  intros Hs Hwf. revert atts k Hs. induction Hwf as [|a ss Ha Hwf IH]; intros atts k Hs Hk; simpl in *.
  { inv Hs. exists []. assert (k = 0) as -> by lia. done. }
  apply Forall2_cons_inv_r in Hs as (att & atts1 & Hsh & Hs & ->). simpl.
  set (n := length (sa_alts a)) in *. pose proof (Nat.div_mod k n ltac:(lia)) as Hdm.
  pose proof (Nat.mod_upper_bound k n ltac:(lia)) as Hmod.
  assert (k / n < total ss) as Hq by (apply Nat.Div0.div_lt_upper_bound; lia).
  pose proof (att_next_shape _ _ Hsh) as Hnext. simpl in Hnext.
  destruct (decide (S (k mod n) < length (sa_alts a))) as [Hlt|Hge].
  - destruct Hnext as (att' & -> & Hsh' & Hv).
    assert (S k < n * total ss) as Hsk by nia.
    assert (S k mod n = S (k mod n) /\ S k / n = k / n) as [Hm Hd].
    { assert (S k = S (k mod n) + k / n * n) as HS by lia. rw HS. split.
      - rw Nat.Div0.mod_add. by apply Nat.mod_small.
      - rw Nat.div_add; [lia|]. rw Nat.div_small //. }
    exists (att' :: atts1). rw bool_decide_true // decide_True // Hm Hd. split; [done|].
    split; [by constructor|]. by rw /atts_values /= Hv.
  - destruct Hnext as (att' & -> & _ & Hsh' & Hv).
    destruct (IH atts1 (k / n) Hs Hq) as (atts2 & -> & Hs2 & Hv2).
    assert (S k = S (k / n) * n) as HS by (rw -/n in Hge; lia).
    exists (att_rewind att' :: atts2).
    assert (S k < n * total ss <-> S (k / n) < total ss) as Hiff by nia.
    split; [f_equal; by apply bool_decide_ext|].
    split; [|by rw /atts_values /= Hv; f_equal].
    destruct (decide (S (k / n) < total ss)) as [Hc|Hc].
    + rw decide_True; [by apply Hiff|]. rw HS Nat.Div0.mod_mul Nat.div_mul; [lia|]. by constructor.
    + rw decide_False; [by rw Hiff|]. rw Nat.Div0.mod_0_l Nat.Div0.div_0_l. by constructor.
Qed.

Lemma s_at_values ss k : satts_values (s_at ss k) = satts_values ss.
Proof.
  revert k. induction ss as [|a ss IH]; intros k; [done|].
  rw /satts_values /= -!/(satts_values _) IH //.
Qed.

(** The composer [s] at the [k]-th combination. *)
Definition s_iter (s : scomp) (k : nat) (done started : bool) : scomp :=
  MkSComp (sc_name s) (s_at (sc_atts s) k) (sc_metatable s) done started.

Lemma s_iter_values s k done started : svals (s_iter s k done started) = svals s.
Proof. apply s_at_values. Qed.

Lemma s_iter_rank s : wf_satts (sc_atts s) ->
  s_iter s (rank (sc_atts s)) (sc_done s) (sc_started s) = s.
Proof. intros Hwf. rw /s_iter s_at_rank //. by destruct s. Qed.

Lemma comp_rep_wf F c s w : comp_rep F c s w -> wf_satts (sc_atts s).
Proof. intros [_ _ _ _ [Hs _]]. by eapply shapes_wf. Qed.

Lemma pathcomp_next_rep F c s k started w :
  comp_rep F c (s_iter s k false started) w -> wf_satts (sc_atts s) -> k < total (sc_atts s) ->
  exists c', pathcomp_next c = (bool_decide (S k < total (sc_atts s)), c') /\
    comp_rep F c' (if decide (S k < total (sc_atts s)) then s_iter s (S k) false started
                   else s_iter s 0 true started) w.
Proof.
  intros [Hn Hm Hd Hst [Hs Hv]] Hwf Hk. simpl in *.
  destruct (next_loop_rep _ _ _ Hs Hwf Hk) as (atts' & Hnext & Hs' & Hvals).
  rw /pathcomp_next Hd Hnext. rw s_at_values in Hv.
  destruct (decide (S k < total (sc_atts s))) as [Hlt|Hge].
  - rw bool_decide_true //. eexists. split; [done|]. split; try done. split; [done|].
    by rw /= Hvals s_at_values.
  - rw bool_decide_false //. eexists. split; [done|]. split; try done. split; [done|].
    by rw /= Hvals s_at_values.
Qed.

Lemma rewind_rep F c s w :
  comp_rep F c s w -> comp_rep F (pathcomp_rewind c) (s_iter s 0 false false) w.
Proof.
  intros [Hn Hm Hd Hst [Hs Hv]]. split; try done. simpl. split.
  - clear Hv. induction Hs as [|att sa atts ss Hsh _ IH]; simpl; [constructor|].
    rw Nat.Div0.mod_0_l Nat.Div0.div_0_l. constructor; [by apply att_rewind_shape|done].
  - rw /= s_at_values.
    replace (atts_values (att_rewind <$> pc_attributes c)) with (atts_values (pc_attributes c)); [done|].
    rw /atts_values -list_fmap_compose //.
Qed.

(** ** All combinations *)

(** The positions of the attributes. *)
Definition positions (ss : list satt) : list nat := sa_current <$> ss.

Lemma positions_iff ss ps :
  wf_satts ss ->
  Forall2 (fun p a => p < length (sa_alts a)) ps ss ->
  exists k, k < total ss /\ positions (s_at ss k) = ps.
Proof.
  intros Hwf Hps. set (ss' := zip_with satt_at ss ps).
  assert (wf_satts ss' /\ positions ss' = ps /\ total ss' = total ss /\ forall k, s_at ss' k = s_at ss k)
    as (Hwf' & Hpos & Htot & Hat).
  { rw /ss'. clear ss' Hwf. induction Hps as [|p a ps ss Hp _ (Hwf & Hpos & Htot & Hat)]; simpl.
    - split; [constructor|done].
    - split; [by constructor|]. split; [by f_equal|]. split; [by f_equal|]. intros k. by rw Hat. }
  exists (rank ss'). split; [rw -Htot; by apply rank_lt|]. by rw -Hat s_at_rank.
Qed.

Lemma next_iter_rep F c s w k :
  comp_rep F c s w -> k < total (sc_atts s) ->
  comp_rep F (Nat.iter k (fun c => (pathcomp_next c).2) (pathcomp_rewind c)) (s_iter s k false false) w.
Proof.
  intros Hc. pose proof (comp_rep_wf _ _ _ _ Hc) as Hwf.
  induction k as [|k IH]; intros Hk; simpl; [by apply rewind_rep|].
  destruct (pathcomp_next_rep F _ s k false w (IH ltac:(lia)) Hwf ltac:(lia)) as (c' & -> & Hc').
  simpl. by rw decide_True in Hc'.
Qed.

(** C2: From the first combination, [pathcomp_next] steps through all combinations
    of alternatives: after [k] steps the composer stands at the [k]-th, every
    combination of positions is met exactly once, and there are as many as the
    product of the numbers of alternatives. At the last one it returns 0 and marks
    the composer as done, further calls change nothing, and rewinding starts over. *)
Theorem pathcomp_next_enumerates F c s w :
  comp_rep F c s w ->
  let n := total (sc_atts s) in
  let at_ k := Nat.iter k (fun c => (pathcomp_next c).2) (pathcomp_rewind c) in
  (forall k, k < n -> comp_rep F (at_ k) (s_iter s k false false) w) /\
  (forall k, S k < n -> (pathcomp_next (at_ k)).1 = true) /\
  (forall ps, Forall2 (fun p a => p < length (sa_alts a)) ps (sc_atts s) ->
     exists k, k < n /\ positions (s_at (sc_atts s) k) = ps /\
       forall k', k' < n -> positions (s_at (sc_atts s) k') = ps -> k' = k) /\
  exists c', pathcomp_next (at_ (n - 1)) = (false, c') /\
    comp_rep F c' (s_iter s 0 true false) w /\ pathcomp_next c' = (false, c').
Proof.
  intros Hc n at_. pose proof (comp_rep_wf _ _ _ _ Hc) as Hwf. pose proof (total_pos _ Hwf) as Hpos.
  split; [intros k Hk; by apply next_iter_rep|]. split; [|split].
  - intros k Hk. destruct (pathcomp_next_rep F (at_ k) s k false w) as (c' & -> & _);
      [apply next_iter_rep; [done|lia]|done|lia|]. by apply bool_decide_true.
  - intros ps Hps. destruct (positions_iff _ _ Hwf Hps) as (k & Hk & Hp). exists k.
    split; [done|]. split; [done|]. intros k' Hk' Hp'.
    assert (forall j, j < n -> j = rank (s_at (sc_atts s) j)) as Hrank by (intros; by rw rank_s_at).
    rw (Hrank k' Hk') (Hrank k Hk). revert Hp'. rw -Hp. clear. revert k k'.
    induction (sc_atts s) as [|a ss IH]; intros k k' Heq; simpl in *; [done|].
    injection Heq as Hm Hd. rw Hm. f_equal. f_equal. by apply IH.
  - destruct (pathcomp_next_rep F (at_ (n - 1)) s (n - 1) false w) as (c' & Hn & Hc');
      [apply next_iter_rep; [done|lia]|done|lia|].
    rw bool_decide_false in Hn; [lia|]. rw decide_False in Hc'; [lia|]. exists c'.
    split; [done|]. split; [done|]. by rw /pathcomp_next (cr_done _ _ _ _ Hc').
Qed.

(** ** Looking for a path *)

Section find.
Context {L : LuaInterp} {Sys : OS}.
Variables (depth : nat) (F : gmap loc cstring) (s : scomp) (st : list lua_value) (metas : list cstring).
Variables (os : os_state) (cfg : option cf_t).

(** The path of the [k]-th combination. *)
Definition path_at (k : nat) : option cstring :=
  join_path (den_eval metas (s_iter s k false true) depth PATHCOMP_ATT_ROOT)
    (den_eval metas (s_iter s k false true) depth PATHCOMP_ATT_COMPOSE).

Definition hit (k : nat) : bool := match path_at k with Some p => os_exists os p | None => false end.

(** The paths of all combinations can be composed. *)
Record paths_ok : Prop := {
  po_code : comp_code_ok s;
  po_stable k : k < total (sc_atts s) -> root_stable (s_iter s k false true);
  po_root k : k < total (sc_atts s) -> text_ok (den_eval metas (s_iter s k false true) depth PATHCOMP_ATT_ROOT);
  po_compose k :
    k < total (sc_atts s) -> text_ok (den_eval metas (s_iter s k false true) depth PATHCOMP_ATT_COMPOSE)
}.

Hypothesis Hok : paths_ok.
Hypothesis Hwf : wf_satts (sc_atts s).

(** The composer stands at the combination [k]. *)
Definition stands (c : pathcomp_t) (w : world) (k : nat) (done started : bool) : Prop :=
  comp_rep F c (s_iter s k done started) w /\ lua_is w st metas /\ w_config w = cfg.

Lemma yield_at c w k :
  stands c w k false true -> k < total (sc_atts s) ->
  exists c' w', pathcomp_yield depth c w = Ok (path_at k, c', w') /\ stands c' w' k false true.
Proof.
  intros (Hc & Hl & Hcf) Hk. destruct Hok as [Hcode Hst Hr Hcm].
  destruct (yield_ok depth F (s_iter s k false true) st metas) with (c := c) (w := w)
    as (c' & w' & He & Hc' & Hl' & Hcf'); auto.
  { intros lua. rw s_iter_values. apply Hcode. }
  exists c', w'. split; [done|]. split; [done|]. split; [done|congruence].
Qed.

(** What a search from the combination [start] on returns. *)
Definition search_result (start : nat) (out : res (option cstring * pathcomp_t * world)) : Prop :=
  (exists j p c' w', start <= j < total (sc_atts s) /\ path_at j = Some p /\ os_exists os p = true /\
     (forall i, start <= i < j -> hit i = false) /\
     out = Ok (Some p, c', w') /\ stands c' w' j false true) \/
  ((forall i, start <= i < total (sc_atts s) -> hit i = false) /\
   exists c' w', out = Ok (None, c', w') /\ stands c' w' 0 true true).

(** [composer->started] is set before the composer is tested for being done. *)
Lemma stands_started c w k done started :
  stands c w k done started -> stands (set_iter c (pc_done c) true) w k done true.
Proof. intros ([Hn Hm Hd Hs Ha] & Hl & Hcf). split; [|done]. by split. Qed.

Lemma find_step fuel c w k :
  (forall c w, stands c w k false true -> search_result (S k) (pathcomp_find depth fuel os c w)) ->
  stands c w k false true -> k < total (sc_atts s) ->
  search_result k
    ('(path, c, w) ← pathcomp_yield depth c w;
     match path with
     | Some p => if path_exists os p then Ok (Some p, c, w) else pathcomp_find depth fuel os c w
     | None => pathcomp_find depth fuel os c w
     end).
Proof.
  intros Hrest Hs Hk. destruct (yield_at c w k Hs Hk) as (c' & w' & -> & Hs'). ok_step.
  destruct (hit k) eqn:Hhit.
  - rw /hit in Hhit. destruct (path_at k) as [p|] eqn:Hp; [|done]. rw /path_exists Hhit.
    left. exists k, p, c', w'. split; [lia|]. split; [done|]. split; [done|]. split; [lia|done].
  - assert (search_result (S k) (pathcomp_find depth fuel os c' w')) as Hr by by apply Hrest.
    assert (forall X, match path_at k with
       | Some p => if path_exists os p then X p else pathcomp_find depth fuel os c' w'
       | None => pathcomp_find depth fuel os c' w' end = pathcomp_find depth fuel os c' w') as Hskip.
    { intros X. rw /hit /path_exists in Hhit *. destruct (path_at k) as [p|]; [|done]. by rw Hhit. }
    rw Hskip. destruct Hr as [(j & p & c2 & w2 & Hj & Hp & He & Hno & Hout & Hst)|(Hno & Hout)].
    + left. exists j, p, c2, w2. split; [lia|]. split; [done|]. split; [done|]. split; [|done].
      intros i Hi. destruct (decide (i = k)) as [->|]; [done|]. apply Hno. lia.
    + right. split; [|done]. intros i Hi. destruct (decide (i = k)) as [->|]; [done|]. apply Hno. lia.
Qed.

Lemma find_ok fuel c w k (started : bool) :
  stands c w k false started -> k < total (sc_atts s) ->
  total (sc_atts s) - (if started then S k else k) < fuel ->
  search_result (if started then S k else k) (pathcomp_find depth fuel os c w).
Proof.
  revert c w k started. induction fuel as [|fuel IH]; intros c w k started Hs Hk Hf; [lia|].
  cbn [pathcomp_find]. pose proof Hs as ([_ _ Hd Hst _] & _). simpl in Hd, Hst. rw Hst.
  destruct started.
  - destruct Hs as (Hc & Hl & Hcf).
    destruct (pathcomp_next_rep F c s k true w Hc Hwf Hk) as (c1 & -> & Hc1). cbn [snd].
    destruct (decide (S k < total (sc_atts s))) as [Hlt|Hge].
    + assert (stands (set_iter c1 (pc_done c1) true) w (S k) false true) as Hs1.
      { apply (stands_started _ _ _ _ true). by split. }
      move: (set_iter c1 _ true) Hs1 => c1' Hs1.
      rw /pathcomp_done (cr_done _ _ _ _ (proj1 Hs1)) /=. apply find_step; [|done|done].
      intros c2 w2 Hs2. apply (IH c2 w2 (S k) true Hs2); [done|lia].
    + assert (stands (set_iter c1 (pc_done c1) true) w 0 true true) as Hs1.
      { apply (stands_started _ _ _ _ true). by split. }
      move: (set_iter c1 _ true) Hs1 => c1' Hs1.
      rw /pathcomp_done (cr_done _ _ _ _ (proj1 Hs1)) /=. right. split; [lia|]. by do 2 eexists.
  - apply stands_started in Hs. move: (set_iter c _ true) Hs => c1 Hs.
    rw /pathcomp_done (cr_done _ _ _ _ (proj1 Hs)) /=.
    apply find_step; [|done|done]. intros c2 w2 Hs2. apply (IH c2 w2 k true Hs2); [done|lia].
Qed.
End find.


(** ** Creating directories *)

(** A slash that ends a component: the path before it is a parent directory. *)
Definition ends_component (path : cstring) (p : nat) : Prop :=
  path !! p = Some ch_slash /\ exists ch, path !! pred p = Some ch /\ ch <> ch_slash.

#[export] Instance ends_component_dec path p : Decision (ends_component path p).
Proof.
  rw /ends_component. destruct (path !! pred p) as [ch|] eqn:Hp.
  - destruct (decide (path !! p = Some ch_slash /\ ch <> ch_slash)); [left|right]; naive_solver.
  - right. naive_solver.
Defined.

(** The parent directories of a path, outermost first. *)
Definition parents (path : cstring) : list cstring :=
  (fun p => take p path) <$> filter (ends_component path) (seq 0 (length path)).

Section mkdir.
Context {Sys : OS}.

(** Creating directories one after the other until one fails; directories that
    exist already are not a failure. *)
Fixpoint make_all (dirs : list cstring) (w : world) (os : os_state) : res (Z * world * os_state) :=
  match dirs with
  | [] => Ok (0%Z, w, os)
  | dir :: dirs =>
      let '(errno, os) := os_mkdir os dir in
      if decide (errno <> 0%Z /\ errno <> EEXIST) then
        w ← pathcomp_log_error w (lit "mkdir '%s': %s") [AStr dir; AStr (strerror errno)];
        Ok ((-1)%Z, w, os)
      else make_all dirs w os
  end.

Lemma skip_slashes_spec t :
  skip_slashes t <= length t /\
  (forall i, i < skip_slashes t -> t !! i = Some ch_slash) /\
  (forall ch, t !! skip_slashes t = Some ch -> ch <> ch_slash).
Proof.
  induction t as [|ch t (Hle & Hall & Hend)]; simpl; [split; [done|]; split; [lia|done]|].
  case_decide as Hch; simpl.
  - split; [lia|]. split; [|done]. intros [|i] Hi; simpl; [congruence|]. apply Hall. lia.
  - split; [lia|]. split; [lia|]. naive_solver.
Qed.

Lemma seek_slash_spec t :
  seek_slash t <= length t /\
  (forall i ch, i < seek_slash t -> t !! i = Some ch -> ch <> ch_slash) /\
  (forall ch, t !! seek_slash t = Some ch -> ch = ch_slash).
Proof.
  induction t as [|ch t (Hle & Hall & Hend)]; simpl; [split; [done|]; split; [lia|done]|].
  case_decide as Hch; simpl.
  - split; [lia|]. split; [lia|]. naive_solver.
  - split; [lia|]. split; [|done]. intros [|i] ch' Hi; simpl; [naive_solver|]. apply Hall. lia.
Qed.

Lemma filter_none {A} (P : A -> Prop) `{forall x, Decision (P x)} (l : list A) :
  (forall x, x ∈ l -> ~ P x) -> filter P l = [].
Proof.
  induction l as [|x l IH]; intros Hno; [done|]. rw filter_cons_False; [apply Hno; set_solver|].
  apply IH. set_solver.
Qed.

(** From position [p] on, at the beginning of the path or after a slash. *)
Lemma mkdir_loop_ok fuel path p w os :
  length path - p < fuel -> (p = 0 \/ path !! pred p = Some ch_slash) -> p <= length path ->
  mkdir_loop fuel path p w os =
    make_all ((fun p => take p path) <$> filter (ends_component path) (seq p (length path - p))) w os.
Proof.
  revert p w os. induction fuel as [|fuel IH]; intros p w os Hf Hstart Hp; [lia|]. cbn [mkdir_loop].
  destruct (skip_slashes_spec (drop p path)) as (Hq & Hqall & Hqend).
  set (q := p + skip_slashes (drop p path)) in *. rw length_drop in Hq.
  destruct (seek_slash_spec (drop q path)) as (Hr & Hrall & Hrend).
  set (r := q + seek_slash (drop q path)) in *. rw length_drop in Hr.
  assert (forall x, p <= x < q -> path !! x = Some ch_slash) as Hslash.
  { intros x Hx. replace x with (p + (x - p)) by lia. rw -lookup_drop. apply Hqall. lia. }
  assert (forall x ch, q <= x < r -> path !! x = Some ch -> ch <> ch_slash) as Hplain.
  { intros x ch Hx. replace x with (q + (x - q)) by lia. rw -lookup_drop. apply Hrall. lia. }
  assert (forall x, x ∈ seq p (r - p) -> ~ ends_component path x) as Hnone.
  { intros x Hx%elem_of_seq (Hsl & ch & Hpred & Hne). destruct (decide (x < q)) as [Hxq|].
    - destruct (decide (x = p)) as [->|].
      + destruct Hstart as [->|]; [|congruence]. simpl in Hpred. congruence.
      + assert (path !! pred x = Some ch_slash) by (apply Hslash; lia). congruence.
    - by apply (Hplain x ch_slash ltac:(lia)). }
  case_decide as Hend.
  - replace (length path - p) with (r - p) by lia. by rw filter_none.
  - assert (path !! r = Some ch_slash) as Hsl.
    { destruct (lookup_lt_is_Some_2 path r ltac:(lia)) as [ch Hch]. rw Hch. f_equal.
      apply Hrend. rw lookup_drop. exact Hch. }
    assert (q < r) as Hqr.
    { destruct (decide (q = r)) as [Heq|]; [|lia]. exfalso. apply (Hqend ch_slash); [|done].
      rw lookup_drop -/q Heq //. }
    replace (length path - p) with ((r - p) + S (length path - S r)) by lia.
    rw seq_app filter_app (filter_none _ _ Hnone) app_nil_l /=.
    replace (p + (r - p)) with r by lia. rw filter_cons_True.
    { split; [done|]. destruct (lookup_lt_is_Some_2 path (pred r) ltac:(lia)) as [ch Hch].
      exists ch. split; [done|]. by apply (Hplain (pred r) ch ltac:(lia)). }
    rw fmap_cons. cbn [make_all]. destruct (os_mkdir os (take r path)) as [errno os'].
    case_decide; [done|]. apply IH; [lia|by right|lia].
Qed.
End mkdir.

Lemma emit_only_stderr w fmt ap out :
  vformat fmt ap = Some out ->
  exists w', pathcomp_log_error w fmt ap = Ok w' /\ w_lua w' = w_lua w /\ w_heap w' = w_heap w /\
    w_config w' = w_config w.
Proof. intros Hf. rw /pathcomp_log_error /pathcomp_log_emit Hf. by eexists. Qed.

Lemma make_all_ok {Sys : OS} dirs w os :
  exists rc w' os', make_all dirs w os = Ok (rc, w', os') /\ w_lua w' = w_lua w /\
    w_heap w' = w_heap w /\ w_config w' = w_config w.
Proof.
  revert w os. induction dirs as [|dir dirs IH]; intros w os; [by do 3 eexists|].
  cbn [make_all]. destruct (os_mkdir os dir) as [errno os']. case_decide; [|apply IH].
  destruct (emit_only_stderr w (lit "mkdir '%s': %s") [AStr dir; AStr (strerror errno)]
    (lit "mkdir '" ++ dir ++ lit "': " ++ strerror errno)) as (w' & -> & ?).
  - simpl. by rw app_nil_r.
  - by do 3 eexists.
Qed.

Lemma comp_rep_heap F c s w w' : comp_rep F c s w -> w_heap w' = w_heap w -> comp_rep F c s w'.
Proof. intros [Hn Hm Hd Hst Ha] Hw. split; try done. by rw /w_strs Hw. Qed.

Lemma lua_is_lua w w' st metas : lua_is w st metas -> w_lua w' = w_lua w -> lua_is w' st metas.
Proof.
  rw /lua_is /interpreter_get_state => Hl Hw. rw Hw. destruct (w_lua w) eqn:He; [|done]. by rw Hw -He.
Qed.


(** ** Witnesses *)

Definition iter_conf : cstring :=
  line "[c]" ++ line "root = /data" ++ line "compose = a" ++ line "compose = b" ++
  line "x = 1" ++ line "x = 2" ++ line "x = 3".

Definition iter_comp : pathcomp_t * world :=
  match configured iter_conf with Ok p => p | Err _ => (MkPathcomp [] [] [] false false, world0) end.

Definition iter_scomp : scomp :=
  MkSComp (lit "c")
    [MkSAtt (lit "root") [SString (lit "/data")] 0 (Some (lit "c"));
     MkSAtt (lit "compose") [SString (lit "a"); SString (lit "b")] 0 (Some (lit "c"));
     MkSAtt (lit "x") [SString (lit "1"); SString (lit "2"); SString (lit "3")] 0 (Some (lit "c"))]
    (lit "libpathcomp::c") false false.

Lemma iter_rep : comp_rep ∅ iter_comp.1 iter_scomp iter_comp.2.
Proof.
  destruct (pathcomp_add_config_from_string world0 iter_conf) as [w|] eqn:Hw; [|by vm_compute in Hw].
  assert (Hw' := Hw). vm_compute in Hw'. injection Hw' as Hw'.
  destruct (flatten 2 (sections_of w) (lit "c")) as [es|] eqn:Hes; [|subst w; by vm_compute in Hes].
  destruct (configured_rep iter_conf w es Hw) as (c & w' & Hc & Hrep); [by subst w|subst w; solve_kvs|done|].
  rw /iter_comp Hc. subst w. vm_compute in Hes. injection Hes as <-. exact Hrep.
Qed.

Lemma pathcomp_next_enumerates_witness :
  total (sc_atts iter_scomp) = 6 /\
  exists k, k < 6 /\ positions (s_at (sc_atts iter_scomp) k) = [0; 1; 2].
Proof.
  destruct (pathcomp_next_enumerates ∅ iter_comp.1 iter_scomp iter_comp.2 iter_rep) as (_ & _ & Hall & _).
  split; [done|]. destruct (Hall [0; 1; 2]) as (k & Hk & Hp & _).
  - repeat constructor; simpl; lia.
  - by exists k.
Defined.

Lemma iter_code_ok : comp_code_ok (H:=demo_lua) iter_scomp.
Proof.
  intros lua Hin. exfalso. revert Hin.
  rw /svals /iter_scomp /satts_values /= !elem_of_cons elem_of_nil. naive_solver.
Qed.

Lemma iter_paths_ok : paths_ok (L:=demo_lua) 5 iter_scomp [lit "libpathcomp::c"].
Proof.
  split; [exact iter_code_ok|..]; intros k Hk; change (total (sc_atts iter_scomp)) with 6 in Hk;
    do 6 (destruct k as [|k]; [try (by apply (bool_decide_unpack _); vm_compute); left; intros lua; by vm_compute|]);
    lia.
Qed.


