(* ===== verification/Standalone.v ===== *)
(** Standalone: the command-line program of src/src/standalone.c.

    What getopt() returns is an argument: the options in order, each with its
    argument, and the remaining words of the command line. The output of the
    program is the list of its lines. *)

From Corelib Require Import ssreflect.
From stdpp Require Import base list numbers gmap strings.
From Stdlib Require Import ZArith Lia.
From S2P Require Import Prelude Libc Buf Cf Interp Value Att Pathcomp PathSpec PathLoad PathEval PathIter.

(** ** Data *)

Record kv_t := MkKvt { k_key : cstring; k_value : cstring; k_add : bool }.

Record opt_t := MkOpt {
  o_class : option cstring;
  o_attributes : list kv_t;
  o_print_all : bool;
  o_only_existing : bool;
  o_config_file : cstring;
  o_do_mkdir : bool;
  o_eval_att : option cstring
}.

(** A return value of getopt(), with [optarg] and [optopt]. *)
Record getopt_t := MkGetopt { g_opt : char; g_arg : cstring; g_optopt : char }.

(** How far the program got: it exited, or goes on. *)
Inductive outcome (A : Type) :=
| Exit (status : Z)
| Continue (a : A).
Arguments Exit {A} status.
Arguments Continue {A} a.

Definition EXIT_SUCCESS : Z := 0.
Definition EXIT_FAILURE : Z := 1.

Definition print_usage : list cstring :=
  [lit "Usage";
   lit "    pathcomp -c class [ -f config -aehm -x att ] key=value key=value key+=value ...";
   lit "";
   lit "Mandatory command-line arguments";
   lit "    -c class: use this locator class";
   lit "";
   lit "Options";
   lit "    -a: print all pathnames (default: print first)";
   lit "    -e: print only existing pathnames (default: print any pathname)";
   lit "    -f config: use config file 'config' (default: .pathcomprc)";
   lit "    -h: display this information";
   lit "    -m: create parent directory recursively";
   lit "    -x att: evaluate and print attribute 'att' instead of pathname";
   lit "";
   lit "Attributes";
   lit "    key=value: set attribute 'key' to 'value'";
   lit "    key+=value: add value 'value' to attribute 'key'";
   lit ""].

(** ** The words of the command line *)

(** [None] is NULL. *)
Definition kv_new (w : world) (text : cstring) : res (option kv_t * world) :=
  match strchr text ch_equals with
  | None => Err AssertFail
  | Some i =>
      let key := take i text in
      let val := drop (S i) text in
      if decide (length key < 1)%nat then
        w ← pathcomp_log_error w (lit "empty key specified on command line") [];
        Ok (None, w)
      else
        let p := (length key - 1)%nat in
        if decide (key !! p = Some ch_plus) then Ok (Some (MkKvt (take p key) val true), w)
        else Ok (Some (MkKvt key val false), w)
  end.

Definition kv_add_to_composer (c : pathcomp_t) (w : world) (kv : kv_t) : res (pathcomp_t * world) :=
  if k_add kv then pathcomp_add c w (k_key kv) (k_value kv)
  else pathcomp_set c w (k_key kv) (k_value kv).

(** [list_foreach(attributes, kv_add_to_composer, composer)]. *)
Fixpoint kvs_add_to_composer (c : pathcomp_t) (w : world) (kvs : list kv_t) : res (pathcomp_t * world) :=
  match kvs with
  | [] => Ok (c, w)
  | kv :: kvs => '(c, w) ← kv_add_to_composer c w kv; kvs_add_to_composer c w kvs
  end.

(** ** The options *)

Definition opt_defaults : opt_t := MkOpt None [] false false (lit ".pathcomprc") false None.

(** The loop over the options: lines printed, world, and the options or an exit. *)
Fixpoint opt_loop (w : world) (o : opt_t) (opts : list getopt_t)
    : res (list cstring * world * outcome opt_t) :=
  match opts with
  | [] => Ok ([], w, Continue o)
  | g :: opts =>
      let '(MkOpt cls atts all existing file mk att) := o in
      if decide (g_opt g = 97) then opt_loop w (MkOpt cls atts true existing file mk att) opts
      else if decide (g_opt g = 99) then opt_loop w (MkOpt (Some (g_arg g)) atts all existing file mk att) opts
      else if decide (g_opt g = 101) then opt_loop w (MkOpt cls atts all true file mk att) opts
      else if decide (g_opt g = 102) then opt_loop w (MkOpt cls atts all existing (g_arg g) mk att) opts
      else if decide (g_opt g = 104) then Ok (print_usage, w, Exit EXIT_SUCCESS)
      else if decide (g_opt g = 109) then opt_loop w (MkOpt cls atts all existing file true att) opts
      else if decide (g_opt g = 120) then opt_loop w (MkOpt cls atts all existing file mk (Some (g_arg g))) opts
      else if decide (g_opt g = 63) then
        w ← pathcomp_log_error w (lit "invalid option '%c'") [AChr (g_optopt g)];
        Ok (print_usage, w, Exit EXIT_FAILURE)
      else if decide (g_opt g = 58) then
        w ← pathcomp_log_error w (lit "missing argument for option '%c'") [AChr (g_optopt g)];
        Ok (print_usage, w, Exit EXIT_FAILURE)
      else Err AssertFail
  end.

(** [while (optind < argc)]. *)
Fixpoint kvs_new (w : world) (words : list cstring) : res (list kv_t * world) :=
  match words with
  | [] => Ok ([], w)
  | word :: words =>
      '(kv, w) ← kv_new w word;
      match kv with
      | None => Err AssertFail
      | Some kv => '(kvs, w) ← kvs_new w words; Ok (kv :: kvs, w)
      end
  end.

Definition opt_new (w : world) (opts : list getopt_t) (words : list cstring)
    : res (list cstring * world * outcome opt_t) :=
  '(out, w, o) ← opt_loop w opt_defaults opts;
  match o with
  | Exit status => Ok (out, w, Exit status)
  | Continue o =>
      match o_class o with
      | None =>
          w ← pathcomp_log_error w (lit "class name (argument to option '-c') is mandatory") [];
          Ok (print_usage, w, Exit EXIT_FAILURE)
      | Some cls =>
          '(kvs, w) ← kvs_new w words;
          Ok (out, w, Continue (MkOpt (o_class o) kvs (o_print_all o) (o_only_existing o)
                                  (o_config_file o) (o_do_mkdir o) (o_eval_att o)))
      end
  end.

(** ** The main program *)

Section main.
Context {L : LuaInterp} {Sys : OS}.
Variable depth : nat.

(** What is done with a path that was found: make its directories, print it or an
    attribute. *)
Definition handle_path (o : opt_t) (path : cstring) (c : pathcomp_t) (w : world) (os : os_state)
    : res (list cstring * pathcomp_t * world * os_state) :=
  '(c, w, os) ←
    (if o_do_mkdir o then
       '(rc, c, w, os) ← pathcomp_mkdir depth c w os;
       w ← (if decide (rc = -1) then
              pathcomp_log_error w (lit "cannot create directory: %s") [AStr (strerror (os_errno os))]
            else Ok w);
       Ok (c, w, os)
     else Ok (c, w, os));
  match o_eval_att o with
  | Some name =>
      '(att, c, w) ← pathcomp_eval depth c w name;
      Ok (option_list att, c, w, os)
  | None => Ok ([path], c, w, os)
  end.

Fixpoint main_loop (fuel find_fuel : nat) (o : opt_t) (c : pathcomp_t) (w : world) (os : os_state)
    : res (list cstring * pathcomp_t * world * os_state) :=
  match fuel with
  | O => Err OutOfFuel
  | S fuel =>
      if pathcomp_done c then Ok ([], c, w, os)
      else
        '(path, c, w) ← (if o_only_existing o then pathcomp_find depth find_fuel os c w
                         else pathcomp_yield depth c w);
        '(out, c, w, os) ← match path with
                           | Some path => handle_path o path c w os
                           | None => Ok ([], c, w, os)
                           end;
        if negb (o_print_all o) then Ok (out, c, w, os)
        else
          let c := if o_only_existing o then c else (pathcomp_next c).2 in
          '(out', c, w, os) ← main_loop fuel find_fuel o c w os;
          Ok (out ++ out', c, w, os)
  end.

(** The exit status, the lines printed, and the state that is left. *)
Definition main (fuel find_fuel conf_fuel : nat) (files : cstring -> file)
    (opts : list getopt_t) (words : list cstring) (os : os_state)
    : res (Z * list cstring * world * os_state) :=
  '(out, w, o) ← opt_new world0 opts words;
  match o with
  | Exit status => Ok (status, out, w, os)
  | Continue o =>
      w ← pathcomp_add_config_from_file w (files (o_config_file o));
      '(c, w) ← pathcomp_new conf_fuel w (default [] (o_class o));
      '(c, w) ← kvs_add_to_composer c w (o_attributes o);
      '(lines, c, w, os) ← main_loop fuel find_fuel o c w os;
      w ← pathcomp_free c w;
      w ← pathcomp_cleanup w;
      Ok (EXIT_SUCCESS, out ++ lines, w, os)
  end.
End main.

(** ** Words of the command line *)

Lemma strchr_None s ch : strchr s ch = None <-> ch ∉ s.
Proof.
  rw /strchr fmap_None list_find_None Forall_forall. split.
  - intros Hall Hin. by apply (Hall ch Hin).
  - intros Hn x Hx ->. done.
Qed.

Lemma strchr_app s1 s2 ch : ch ∉ s1 -> strchr (s1 ++ ch :: s2) ch = Some (length s1).
Proof.
  intros Hn. rw /strchr. apply fmap_Some. exists (length s1, ch). split; [|done].
  apply list_find_Some. split; [by rw list_lookup_middle|]. split; [done|].
  intros j y Hj Hlt ->. apply Hn. rw lookup_app_l // in Hj. by eapply list_elem_of_lookup_2.
Qed.

Lemma kv_new_split w key val :
  ch_equals ∉ key -> key <> [] ->
  kv_new w (key ++ ch_equals :: val) =
    if decide (key !! (length key - 1)%nat = Some ch_plus)
    then Ok (Some (MkKvt (take (length key - 1) key) val true), w)
    else Ok (Some (MkKvt key val false), w).
Proof.
  intros Hn Hne. rw /kv_new strchr_app // take_app_length.
  assert (drop (S (length key)) (key ++ ch_equals :: val) = val) as ->.
  { rw (_ : key ++ ch_equals :: val = (key ++ [ch_equals]) ++ val); [by rw -app_assoc|].
    rw drop_app_ge; [rw length_app /=; lia|]. rw length_app /= (_ : S _ - _ = 0)%nat; [lia|].
    by rw drop_0. }
  destruct key; [done|]. case_decide; [simpl in *; lia|done].
Qed.

(** A word [key=value] sets the attribute [key], and [key+=value] adds to it; the
    value is everything after the first equals sign. A word without an equals sign
    fails an assertion, and an empty key is reported. *)
Theorem kv_new_spec w text :
  (forall key val, key <> [] -> ch_equals ∉ key -> last key <> Some ch_plus ->
     text = key ++ ch_equals :: val -> kv_new w text = Ok (Some (MkKvt key val false), w)) /\
  (forall key val, ch_equals ∉ key -> text = key ++ ch_plus :: ch_equals :: val ->
     kv_new w text = Ok (Some (MkKvt key val true), w)) /\
  (forall val, text = ch_equals :: val -> exists w', kv_new w text = Ok (None, w')) /\
  (ch_equals ∉ text -> kv_new w text = Err AssertFail).
Proof.
  split; [|split; [|split]].
  - intros key val Hne Heq Hlast ->. rw kv_new_split //. case_decide as Hp; [|done].
    destruct Hlast. by rw last_lookup (_ : pred (length key) = length key - 1)%nat; [lia|].
  - intros key val Heq ->. change (ch_plus :: ch_equals :: val) with ([ch_plus] ++ ch_equals :: val).
    rw app_assoc kv_new_split; [|by destruct key|].
    { apply not_elem_of_app. split; [done|]. by rw list_elem_of_singleton. }
    rw length_app /= (_ : length key + 1 - 1 = length key)%nat; [lia|].
    rw take_app_length list_lookup_middle //.
  - intros val ->. rw /kv_new. change (strchr (ch_equals :: val) ch_equals) with (Some 0%nat).
    destruct (emit_only_stderr w (lit "empty key specified on command line") []
      (lit "empty key specified on command line")) as (w' & He & _); [by vm_compute|].
    cbn [take length]. case_decide; [|lia]. rw He. by eexists.
  - intros Hn. by rw /kv_new (proj2 (strchr_None _ _) Hn).
Qed.

(** ** The main loop *)

Lemma omap_none {A B} (f : A -> option B) l : (forall x, x ∈ l -> f x = None) -> omap f l = [].
Proof.
  induction l as [|x l IH]; intros Hall; [done|]. simpl. rw Hall; [by left|]. apply IH. set_solver.
Qed.

Section loop.
Context {L : LuaInterp} {Sys : OS}.
Variables (depth : nat) (F : gmap loc cstring) (s : scomp) (st : list lua_value) (metas : list cstring).
Variables (os : os_state) (cfg : option cf_t).
Hypotheses (Hok : paths_ok depth s metas) (Hwf : wf_satts (sc_atts s)).

Abbreviation n := (total (sc_atts s)).
Abbreviation at_ := (stands F s st metas cfg).

(** Print all paths, or only those that exist. *)
Definition print_opts (existing : bool) (cls : option cstring) (atts : list kv_t) (file : cstring) : opt_t :=
  MkOpt cls atts true existing file false None.

(** The line for the [k]-th combination, if there is one. *)
Definition line_of (existing : bool) (k : nat) : option cstring :=
  if existing && negb (hit depth s metas os k) then None else path_at depth s metas k.

(** The lines from the combination [k] on. *)
Definition lines_from (existing : bool) (k : nat) : list cstring :=
  omap (line_of existing) (seq k (n - k)).

Lemma lines_from_cons existing k :
  (k < n)%nat -> lines_from existing k = option_list (line_of existing k) ++ lines_from existing (S k).
Proof.
  intros Hk. rw /lines_from. replace (n - k)%nat with (S (n - S k)) by lia. simpl.
  by destruct (line_of existing k).
Qed.

Lemma loop_done fuel ff o c w :
  (0 < fuel)%nat -> pc_done c = true -> main_loop depth fuel ff o c w os = Ok ([], c, w, os).
Proof. intros Hf Hd. destruct fuel; [lia|]. by rw /= /pathcomp_done Hd. Qed.

Lemma main_loop_all fuel ff cls atts file c w k :
  at_ c w k false false -> (k < n)%nat -> (S (n - k) < S fuel)%nat ->
  exists c' w', main_loop depth fuel ff (print_opts false cls atts file) c w os =
      Ok (lines_from false k, c', w', os) /\ at_ c' w' 0 true false.
Proof.
  revert c w k. induction fuel as [|fuel IH]; intros c w k Hs Hk Hf; [lia|].
  destruct Hs as (Hc & Hl & Hcf). cbn [main_loop print_opts o_only_existing o_print_all].
  rw /pathcomp_done (cr_done _ _ _ _ Hc). cbn [s_iter sc_done].
  destruct Hok as [Hcode Hst Hr Hcm].
  destruct (yield_ok depth F (s_iter s k false false) st metas) with (c := c) (w := w)
    as (c1 & w1 & Hy & Hc1 & Hl1 & Hcf1); [|done|done|by apply Hst|by apply Hr|by apply Hcm|].
  { intros lua. rw s_iter_values. apply Hcode. }
  rw Hy. ok_step. change (join_path _ _) with (path_at depth s metas k).
  rw lines_from_cons // /line_of. cbn [andb].
  assert (match path_at depth s metas k with
    | Some path => handle_path depth (print_opts false cls atts file) path c1 w1 os
    | None => Ok ([], c1, w1, os) end = Ok (option_list (path_at depth s metas k), c1, w1, os)) as ->
    by (by destruct (path_at depth s metas k)).
  ok_step. cbn [negb].
  destruct (pathcomp_next_rep F c1 s k false w1 Hc1 Hwf Hk) as (c2 & -> & Hc2). cbn [snd].
  destruct (decide (S k < n)%nat) as [Hlt|Hge].
  - destruct (IH c2 w1 (S k)) as (c' & w' & -> & Hs'); [|done|lia|by exists c', w'].
    split; [done|]. split; [done|congruence].
  - exists c2, w1. rw loop_done; [lia|apply (cr_done _ _ _ _ Hc2)|]. ok_step.
    rw /lines_from (_ : n - S k = 0)%nat; [lia|]. split; [done|].
    split; [done|]. split; [done|congruence].
Qed.

Lemma main_loop_existing fuel ff cls atts file c w k (started : bool) :
  at_ c w k false started -> (k < n)%nat -> (n < ff)%nat ->
  (S (n - (if started then S k else k)) < fuel)%nat ->
  exists c' w', main_loop depth fuel ff (print_opts true cls atts file) c w os =
      Ok (lines_from true (if started then S k else k), c', w', os) /\ at_ c' w' 0 true true.
Proof.
  revert c w k started. induction fuel as [|fuel IH]; intros c w k started Hs Hk Hff Hf; [lia|].
  cbn [main_loop print_opts o_only_existing o_print_all].
  rw /pathcomp_done (cr_done _ _ _ _ (proj1 Hs)). cbn [s_iter sc_done].
  set (start := if started then S k else k) in *.
  assert (search_result depth F s st metas os cfg start (pathcomp_find depth ff os c w)) as Hres.
  { apply find_ok; [done|done|done|done|]. rw -/start. lia. }
  destruct Hres as [(j & p & c1 & w1 & Hj & Hp & He & Hno & -> & Hs1)|(Hno & c1 & w1 & -> & Hs1)].
  - ok_step. cbn [handle_path print_opts o_do_mkdir o_eval_att]. ok_step. cbn [negb].
    destruct (IH c1 w1 j true Hs1) as (c' & w' & Hloop & Hs'); [lia|done|cbn in *; lia|].
    rw Hloop. ok_step. exists c', w'. split; [|done]. do 4 f_equal. symmetry.
    rw {1}/lines_from. replace (n - start)%nat with ((j - start) + S (n - S j))%nat by lia.
    rw seq_app omap_app omap_none.
    { intros x Hx%elem_of_seq. rw /line_of Hno //. lia. }
    replace (start + (j - start))%nat with j by lia. simpl. rw {1}/line_of /hit Hp He //.
  - ok_step. ok_step. cbn [negb]. exists c1, w1. rw loop_done; [lia|apply (cr_done _ _ _ _ (proj1 Hs1))|].
    ok_step. split; [|done]. rw /lines_from omap_none //.
    intros x Hx%elem_of_seq. rw /line_of Hno //. lia.
Qed.
End loop.

Lemma cleanup_ok w metas :
  lua_is w [] metas -> exists w', pathcomp_cleanup w = Ok w' /\ w_lua w' = None /\ w_config w' = None /\
    w_heap w' = w_heap w.
Proof.
  rw /lua_is /interpreter_get_state /pathcomp_cleanup /interpreter_cleanup /= => Hl.
  destruct (w_lua w) as [l|] eqn:He; [|by eexists].
  rw He in Hl. injection Hl as ->. by eexists.
Qed.


(** ** Witnesses *)

Lemma kv_new_spec_witness :
  kv_new world0 (lit "k+=a=b") = Ok (Some (MkKvt (lit "k") (lit "a=b") true), world0) /\
  kv_new world0 (lit "k=v") = Ok (Some (MkKvt (lit "k") (lit "v") false), world0).
Proof.
  split.
  - apply (proj1 (proj2 (kv_new_spec world0 (lit "k+=a=b")))); [|done].
    by apply (bool_decide_unpack _); vm_compute.
  - apply (proj1 (kv_new_spec world0 (lit "k=v"))); [done| |done|done].
    by apply (bool_decide_unpack _); vm_compute.
Defined.

Definition demo_file : file := MkFile true [RdData iter_conf] true.
Definition demo_opts : list getopt_t := [MkGetopt 97 [] 0; MkGetopt 99 (lit "c") 0].

Definition demo_loaded : world :=
  match pathcomp_add_config_from_file world0 demo_file with Ok w => w | Err _ => world0 end.

