(* ===== verification/LuaObject.v ===== *)
(** LuaObject: prototypes and constants of the interpreter (src/liblua/src/lobject.h)
    and the conversions of lobject.c: floating point bytes, the base-two logarithm,
    the name of a chunk in messages.

    A function prototype is a tree; a number is the eight bytes of its
    representation. The vectors of a prototype carry their sizes. *)

From Corelib Require Import ssreflect.
From stdpp Require Import base list numbers strings.
From Stdlib Require Import ZArith Lia.
From S2P Require Import Prelude.

Abbreviation byte := Z (only parsing).

(** ** Results of functions that raise Lua errors *)

(** A value, an error with its message, or undefined behaviour. *)
Inductive lres (A : Type) :=
| LOk (a : A)
| LError (msg : cstring)
| LFault (f : fault).
Arguments LOk {A} a.
Arguments LError {A} msg.
Arguments LFault {A} f.

#[export] Instance lres_ret : MRet lres := @LOk.
#[export] Instance lres_bind : MBind lres := fun A B k c =>
  match c with
  | LOk a => k a
  | LError msg => LError msg
  | LFault f => LFault f
  end.

Lemma LOk_bind {A B} (a : A) (k : A -> lres B) : (LOk a ≫= k) = k a.
Proof. done. Qed.

(** Element [i] of a block of characters that ends with a null: reading the null is defined,
    reading behind it is not. *)
Definition char_at (s : list Z) (i : Z) : lres Z :=
  if decide (0 <= i) then
    match s !! Z.to_nat i with
    | Some c => LOk c
    | None => if decide (i = length s) then LOk 0 else LFault OutOfBounds
    end
  else LFault OutOfBounds.

(** ** Unsigned integers of 32 bits *)

Definition u32 (z : Z) : Z := z mod 2 ^ 32.
Definition unot (x : Z) : Z := u32 (Z.lnot x).
Definition ushl (x i : Z) : Z := u32 (Z.shiftl x i).
Definition ushr (x i : Z) : Z := Z.shiftr x i.

(** ** Prototypes *)

(** [TString *]: NULL, or the characters of the string. *)
Abbreviation tstring := (option (list byte)) (only parsing).

Definition LUA_TNIL : Z := 0.
Definition LUA_TBOOLEAN : Z := 1.
Definition LUA_TNUMBER : Z := 3.
Definition LUA_TSTRING : Z := 4.

Inductive TValue :=
| KNil
| KBoolean (b : Z)
| KNumber (n : list byte)
| KString (s : tstring).

Record LocVar := MkLocVar { varname : tstring; startpc : Z; endpc : Z }.

Inductive Proto := MkProto {
  p_source : tstring;
  p_linedefined : Z;
  p_lastlinedefined : Z;
  p_nups : Z;
  p_numparams : Z;
  p_is_vararg : Z;
  p_maxstacksize : Z;
  p_code : list Z;
  p_k : list TValue;
  p_p : list Proto;
  p_lineinfo : list Z;
  p_locvars : list LocVar;
  p_upvalues : list tstring
}.

Definition ttype (o : TValue) : Z :=
  match o with
  | KNil => LUA_TNIL
  | KBoolean _ => LUA_TBOOLEAN
  | KNumber _ => LUA_TNUMBER
  | KString _ => LUA_TSTRING
  end.

(** ** Floating point bytes *)

Fixpoint int2fb_loop (fuel : nat) (x e : Z) : res (Z * Z) :=
  match fuel with
  | O => Err OutOfFuel
  | S fuel =>
      if decide (x >= 16) then int2fb_loop fuel (ushr (u32 (x + 1)) 1) (e + 1)
      else Ok (x, e)
  end.

(** An [unsigned int] is below 16 after 32 turns. *)
Definition luaO_int2fb (x : Z) : res Z :=
  '(x, e) ← int2fb_loop 32 x 0;
  if decide (x < 8) then Ok x else Ok (Z.lor (Z.shiftl (e + 1) 3) (x - 8)).

(** A left shift of an [int] that does not fit it is undefined. *)
Definition luaO_fb2int (x : Z) : res Z :=
  let e := Z.land (Z.shiftr x 3) 31 in
  if decide (e = 0) then Ok x
  else
    let r := Z.shiftl (Z.land x 7 + 8) (e - 1) in
    if decide (r <= int_max) then Ok r else Err SignedOverflow.

(** ** Logarithm *)

(** The table [log_2]: one row for each number of significant bits. *)
Definition log_2 : list Z :=
  [0] ++ replicate 1 1 ++ replicate 2 2 ++ replicate 4 3 ++ replicate 8 4 ++
  replicate 16 5 ++ replicate 32 6 ++ replicate 64 7 ++ replicate 128 8.

Fixpoint log2_loop (fuel : nat) (l x : Z) : res (Z * Z) :=
  match fuel with
  | O => Err OutOfFuel
  | S fuel => if decide (x >= 256) then log2_loop fuel (l + 8) (Z.shiftr x 8) else Ok (l, x)
  end.

Definition luaO_log2 (x : Z) : res Z :=
  '(l, x) ← log2_loop 4 (-1) x;
  match log_2 !! Z.to_nat x with
  | Some v => Ok (l + v)
  | None => Err OutOfBounds
  end.

(** ** Names of chunks *)

(** [strcspn(source, "\n\r")] *)
Fixpoint strcspn_nl (s : cstring) : nat :=
  match s with
  | [] => O
  | c :: s => if decide (c = 10 \/ c = 13) then O else S (strcspn_nl s)
  end.

Definition ch_at : char := 64.

(** The characters written to [out], a buffer of [bufflen] bytes, before the null;
    the writes of strncpy(), strcpy(), strcat() and strncat() include it. *)
Definition out_string (bufflen : Z) (s : cstring) : res cstring :=
  if decide (length s < bufflen) then Ok s else Err OutOfBounds.

Definition luaO_chunkid (source : cstring) (bufflen : Z) : res cstring :=
  if decide (head source = Some ch_equals) then
    out_string bufflen (take (Z.to_nat (sz (bufflen - 1))) (tail source))
  else if decide (head source = Some ch_at) then
    let source := tail source in
    let bufflen' := sz (bufflen - 8) in
    let l := length source in
    out_string bufflen
      (if decide (l > bufflen') then lit "..." ++ drop (Z.to_nat (l - bufflen')) source else source)
  else
    let bufflen' := sz (bufflen - 17) in
    let len := if decide (strcspn_nl source > bufflen') then bufflen' else strcspn_nl source in
    out_string bufflen
      (lit "[string " ++ [34] ++
       (if decide (len < length source) then take (Z.to_nat len) source ++ lit "..." else source) ++
       [34; 93]).

(** ** Proofs: bits *)

Definition is_u32 (x : Z) : Prop := 0 <= x < 2 ^ 32.

Lemma u32_range z : is_u32 (u32 z).
Proof. apply Z.mod_pos_bound. lia. Qed.

Lemma u32_small x : is_u32 x -> u32 x = x.
Proof. apply Z.mod_small. Qed.

Lemma u32_bit z k : 0 <= k -> Z.testbit (u32 z) k = bool_decide (k < 32) && Z.testbit z k.
Proof.
  intros Hk. case_bool_decide.
  - by rw /u32 Z.mod_pow2_bits_low.
  - rw /u32 Z.mod_pow2_bits_high //. lia.
Qed.

Lemma u32_high x k : is_u32 x -> 32 <= k -> Z.testbit x k = false.
Proof. intros Hx Hk. rw -(u32_small x Hx) u32_bit; [lia|]. by rw bool_decide_false; [lia|]. Qed.

(** Two 32-bit numbers with the same bits are equal. *)
Lemma u32_eq x y :
  is_u32 x -> is_u32 y -> (forall k, 0 <= k < 32 -> Z.testbit x k = Z.testbit y k) -> x = y.
Proof.
  intros Hx Hy Heq. apply Z.bits_inj'. intros k Hk. destruct (decide (k < 32)); [auto|].
  rw !u32_high //; lia.
Qed.

Lemma ones_bit w k : 0 <= w -> 0 <= k -> Z.testbit (Z.ones w) k = bool_decide (k < w).
Proof.
  intros Hw Hk. case_bool_decide; [apply Z.ones_spec_low; lia|apply Z.ones_spec_high; lia].
Qed.

(** ** Proofs: floating point bytes *)

(** [m] is [x / 2^e] rounded up. *)
Definition ceil_div (x m e : Z) : Prop := (m - 1) * 2 ^ e < x <= m * 2 ^ e.

Lemma ceil_div_half x m e : 0 <= e -> ceil_div x m e -> ceil_div x ((m + 1) / 2) (e + 1).
Proof.
  rw /ceil_div => ? ?. rw Z.pow_add_r // Z.pow_1_r. assert (0 < 2 ^ e) by lia.
  pose proof (Z.div_mod (m + 1) 2 ltac:(lia)). pose proof (Z.mod_pos_bound (m + 1) 2 ltac:(lia)).
  generalize dependent ((m + 1) / 2) => q ?. assert (m = 2 * q - 1 \/ m = 2 * q) as [-> | ->] by lia; nia.
Qed.

Lemma pow_pred e : 0 < e -> 2 ^ e = 2 * 2 ^ (e - 1).
Proof. intros ?. rw -Z.pow_succ_r; [lia|]. f_equal. lia. Qed.

(** The exponent is zero for small numbers; otherwise one less would not do. *)
Lemma int2fb_loop_spec fuel x m e :
  0 <= e -> 0 <= m < 2 ^ 32 - 1 -> m <= 15 * 2 ^ Z.of_nat fuel -> ceil_div x m e ->
  (e = 0 \/ 15 * 2 ^ (e - 1) < x) ->
  exists m' e', int2fb_loop (S fuel) m e = Ok (m', e') /\ e <= e' <= e + fuel /\ m' < 16 /\
    ceil_div x m' e' /\ (e' = 0 \/ 15 * 2 ^ (e' - 1) < x) /\ (e' = e -> m' = m).
Proof.
  revert m e. induction fuel as [|fuel IH] => m e He Hm Hf Hc Hmin; simpl.
  all: case_decide as Hge; [|exists m, e; split_and!; (done || lia)].
  { change (Z.of_nat 0) with 0 in Hf. change (2 ^ 0) with 1 in Hf. lia. }
  rw u32_small; [rw /is_u32; lia|]. rw /ushr Z.shiftr_div_pow2 // Z.pow_1_r.
  assert (15 * 2 ^ (e + 1 - 1) < x).
  { rw Z.add_simpl_r. destruct Hc. nia. }
  destruct (IH ((m + 1) / 2) (e + 1)) as (m' & e' & Heq & ? & ? & ? & ? & ?).
  - lia.
  - pose proof (Z.div_pos (m + 1) 2 ltac:(lia) ltac:(lia)).
    pose proof (Z.div_lt (m + 1) 2 ltac:(lia) ltac:(lia)). lia.
  - rw Nat2Z.inj_succ Z.pow_succ_r in Hf; [lia|].
    assert ((m + 1) / 2 < 15 * 2 ^ fuel + 1); [|lia]. apply Z.div_lt_upper_bound; lia.
  - by apply ceil_div_half.
  - by right.
  - exists m', e'. split; [exact Heq|]. split_and!; (done || lia).
Qed.

(** The fields of a floating point byte. *)
Lemma fb_fields e m : 0 <= e < 31 -> 0 <= m < 8 ->
  let x := Z.lor (Z.shiftl (e + 1) 3) m in
  x = 8 * (e + 1) + m /\ Z.land (Z.shiftr x 3) 31 = e + 1 /\ Z.land x 7 = m.
Proof.
  intros ? ? x. assert (x = 8 * (e + 1) + m) as Hx.
  { rw /x -Z.add_nocarry_lor.
    - apply Z.bits_inj' => n ?. rw Z.land_spec Z.bits_0 Z.shiftl_spec //. destruct (decide (n < 3)).
      + rw Z.testbit_neg_r; [lia|done].
      + rw (Z.bits_above_log2 m) ?andb_false_r //; [lia|].
        destruct (decide (m = 0)) as [->|]; [simpl; lia|]. apply Z.log2_lt_pow2; [lia|].
        assert (2 ^ 3 <= 2 ^ n) by (apply Z.pow_le_mono_r; lia). lia.
    - rw Z.shiftl_mul_pow2 //. lia. }
  rw Hx. split; [done|]. change 31 with (Z.ones 5). change 7 with (Z.ones 3).
  rw !Z.land_ones // Z.shiftr_div_pow2 //. change (2 ^ 3) with 8. split.
  - replace (8 * (e + 1) + m) with (m + (e + 1) * 8) by lia.
    rw Z.div_add // Z.div_small // Z.mod_small; change (2 ^ 5) with 32; lia.
  - replace (8 * (e + 1) + m) with (m + (e + 1) * 8) by lia. rw Z.mod_add // Z.mod_small; lia.
Qed.

(** A value of [fb2int] is below 8, or a mantissa of four bits, the first one set, shifted. *)
Lemma fb2int_shape y v : 0 <= y < 256 -> luaO_fb2int y = Ok v ->
  v < 8 \/ exists m e, 8 <= m < 16 /\ 0 <= e /\ v = m * 2 ^ e.
Proof.
  rw /luaO_fb2int. intros ?. change 31 with (Z.ones 5). change 7 with (Z.ones 3).
  rw !Z.land_ones // Z.shiftr_div_pow2 //. case_decide as He.
  - intros [= <-]. left. change (2 ^ 3) with 8 in He. change (2 ^ 5) with 32 in He.
    pose proof (Z.div_lt_upper_bound y 8 32 ltac:(lia) ltac:(lia)). pose proof (Z.div_pos y 8 ltac:(lia) ltac:(lia)).
    rw Z.mod_small in He; [lia|]. apply Z.div_small_iff in He; lia.
  - case_decide; [|done]. intros [= <-]. right.
    pose proof (Z.mod_pos_bound y (2 ^ 3) ltac:(done)).
    pose proof (Z.mod_pos_bound (y / 2 ^ 3) (2 ^ 5) ltac:(done)).
    exists (y mod 2 ^ 3 + 8), ((y / 2 ^ 3) mod 2 ^ 5 - 1).
    split_and!; [change (2 ^ 3) with 8 in *; lia..|lia|]. apply Z.shiftl_mul_pow2. lia.
Qed.

(** The conversion of a number whose rounded mantissa and exponent are known. *)
Lemma fb_value m e : 0 <= m < 16 -> 0 <= e < 31 -> (e = 0 \/ 8 <= m) -> m * 2 ^ e <= int_max ->
  exists b, (if decide (m < 8) then Ok m else Ok (Z.lor (Z.shiftl (e + 1) 3) (m - 8))) = Ok b /\
    0 <= b < 256 /\ luaO_fb2int b = Ok (m * 2 ^ e).
Proof.
  intros ? ? Hn Hmax. case_decide.
  - destruct Hn as [-> | ?]; [|lia]. exists m. split_and!; [done|lia..|]. rw Z.mul_1_r /luaO_fb2int.
    rw Z.shiftr_div_pow2 //. rw Z.div_small; [lia|done].
  - destruct (fb_fields e (m - 8)) as (Hx & Hf & Hl); [lia..|].
    exists (Z.lor (Z.shiftl (e + 1) 3) (m - 8)). split; [done|]. split; [rw Hx; lia|].
    rw /luaO_fb2int Hf Hl. case_decide; [lia|]. rw Z.shiftl_mul_pow2; [lia|].
    replace (e + 1 - 1) with e by lia. rw Z.sub_add. by case_decide.
Qed.

(** A representable number that is not smaller than [x] is not smaller than [x] rounded up. *)
Lemma ceil_div_least x m e v :
  0 <= e -> ceil_div x m e -> (e = 0 \/ 15 * 2 ^ (e - 1) < x /\ 8 <= m) -> x <= v ->
  (v < 8 \/ exists m e, 8 <= m < 16 /\ 0 <= e /\ v = m * 2 ^ e) -> m * 2 ^ e <= v.
Proof.
  intros ? [Hlo Hhi] [->|[Hmin Hm]] ? Hv; [lia|].
  assert (0 < e \/ e = 0) as [He| ->] by lia; [|lia].
  pose proof (Z.pow_pos_nonneg 2 (e - 1) ltac:(lia) ltac:(lia)).
  destruct Hv as [|(m' & e' & ? & ? & ->)]; [lia|]. destruct (decide (e <= e')).
  - replace e' with (e' - e + e) in * by lia. rw Z.pow_add_r; [lia..|].
    rw Z.pow_add_r in H0; [lia..|]. rw Z.mul_assoc in H0 *. apply Z.mul_le_mono_nonneg_r; [lia|].
    apply Z.lt_pred_le, (Z.mul_lt_mono_pos_r (2 ^ e)); lia.
  - assert (2 ^ e' <= 2 ^ (e - 1)) by (apply Z.pow_le_mono_r; lia). nia.
Qed.

(** The floating point byte of a size, as OP_NEWTABLE encodes the sizes of a table, decodes to
    the least representable number that is not smaller; it is exact below 16, and its error is less
    than two fifteenths of the size. The decoding never overflows an [int] for sizes up to 15 * 2^27. *)
Theorem int2fb_fb2int (x : Z) :
  0 <= x <= 15 * 2 ^ 27 ->
  exists b r, luaO_int2fb x = Ok b /\ 0 <= b < 256 /\ luaO_fb2int b = Ok r /\
    x <= r /\ (x < 16 -> r = x) /\ 15 * (r - x) <= 2 * x /\
    forall y v, 0 <= y < 256 -> luaO_fb2int y = Ok v -> x <= v -> r <= v.
Proof.
  intros Hx. destruct (int2fb_loop_spec 31 x x 0) as (m & e & Heq & He & Hm & Hc & Hmin & He0);
    [done|lia..|rw /ceil_div; lia|by left|].
  assert (0 <= m) by (destruct Hc; assert (0 < 2 ^ e) by lia; nia).
  assert (e = 0 \/ 8 <= m) as Hn.
  { destruct (decide (e = 0)); [by left|]. right. destruct Hmin as [|Hmin], Hc as [_ Hc]; [done|].
    rw (pow_pred e) in Hc; [lia|]. nia. }
  assert (e <= 27) as He27.
  { destruct Hmin as [->|Hmin]; [lia|]. destruct (decide (e <= 27)); [done|].
    assert (2 ^ 27 <= 2 ^ (e - 1)) by (apply Z.pow_le_mono_r; lia). lia. }
  destruct (fb_value m e) as (b & Hb & ? & Hv); [lia..|done| |].
  { assert (2 ^ e <= 2 ^ 27) by (apply Z.pow_le_mono_r; lia). rw /int_max. nia. }
  exists b, (m * 2 ^ e). rw /luaO_int2fb Heq Ok_bind. do 3 (split; [done|]). split_and!.
  - by destruct Hc.
  - intros ?. assert (e = 0) as ->; [|rw (He0 eq_refl); lia].
    destruct Hmin as [|Hmin]; [done|]. destruct (decide (e = 0)); [done|].
    assert (2 ^ 0 <= 2 ^ (e - 1)) by (apply Z.pow_le_mono_r; lia).
    destruct (decide (e = 1)) as [->|]; [|assert (2 ^ 1 <= 2 ^ (e - 1)) by (apply Z.pow_le_mono_r; lia)]; lia.
  - destruct Hmin as [->|Hmin]; [rw (He0 eq_refl); lia|]. destruct Hc as [Hc _].
    destruct (decide (e = 0)) as [->|]; [rw (He0 eq_refl); lia|].
    rw (pow_pred e) in Hc *; [lia..|]. lia.
  - intros y v Hy Hyv Hxv. apply (ceil_div_least x); [lia|done| |done|by apply (fb2int_shape y)].
    destruct Hn, Hmin; tauto.
Qed.

Lemma int2fb_fb2int_witness :
  exists b r, luaO_int2fb 1000 = Ok b /\ 0 <= b < 256 /\ luaO_fb2int b = Ok r /\
    1000 <= r /\ (1000 < 16 -> r = 1000) /\ 15 * (r - 1000) <= 2 * 1000 /\
    forall y v, 0 <= y < 256 -> luaO_fb2int y = Ok v -> 1000 <= v -> r <= v.
Proof. apply (int2fb_fb2int 1000). split; vm_compute; discriminate. Defined.

(** ** Proofs: the logarithm *)

Lemma log_2_entry x : 0 < x < 256 -> log_2 !! Z.to_nat x = Some (Z.log2 x + 1).
Proof.
  intros Hx. assert (forallb (fun n => bool_decide (log_2 !! n = Some (Z.log2 (Z.of_nat n) + 1))) (seq 1 255) = true)
    as Hall by (vm_compute; reflexivity).
  rw forallb_forall in Hall. specialize (Hall (Z.to_nat x) ltac:(apply in_seq; lia)).
  apply bool_decide_eq_true in Hall. by rw Z2Nat.id in Hall; [lia|].
Qed.

Lemma log2_shiftr8 x : 256 <= x -> Z.log2 (Z.shiftr x 8) = Z.log2 x - 8.
Proof.
  intros ?. rw Z.log2_shiftr; [lia|]. apply Z.max_r.
  assert (Z.log2 256 <= Z.log2 x) by (apply Z.log2_le_mono; lia). change (Z.log2 256) with 8 in H0. lia.
Qed.

Lemma log2_loop_spec fuel l x : 0 < x < 256 ^ Z.of_nat (S fuel) ->
  exists l' x', log2_loop (S fuel) l x = Ok (l', x') /\ 0 < x' < 256 /\ l' + Z.log2 x' = l + Z.log2 x.
Proof.
  revert l x. induction fuel as [|fuel IH] => l x Hx; simpl; case_decide.
  1: change (256 ^ Z.of_nat 1) with 256 in Hx; lia.
  1,3: exists l, x; split_and!; (done || lia).
  destruct (IH (l + 8) (Z.shiftr x 8)) as (l' & x' & Heq & ? & Hl).
  - rw Nat2Z.inj_succ Z.pow_succ_r in Hx; [lia|]. rw Z.shiftr_div_pow2 //. change (2 ^ 8) with 256. split.
    + apply Z.div_str_pos. lia.
    + apply Z.div_lt_upper_bound; lia.
  - exists l', x'. split; [exact Heq|]. rw log2_shiftr8 in Hl; [lia|]. split; [done|lia].
Qed.

(** LuaO_log2() returns the position of the highest set bit of every non-zero [unsigned int]
    (the table of bytes and the loop over the higher bytes agree with the binary logarithm), and -1
    for zero; it never reads outside the table. *)
Theorem luaO_log2_spec :
  luaO_log2 0 = Ok (-1) /\ forall x, 0 < x < 2 ^ 32 -> luaO_log2 x = Ok (Z.log2 x).
Proof.
  split; [done|]. intros x Hx. rw /luaO_log2.
  destruct (log2_loop_spec 3 (-1) x) as (l & x' & Heq & Hx' & Hl); [done|].
  rw Heq Ok_bind log_2_entry //. f_equal. lia.
Qed.

Lemma luaO_log2_spec_witness : luaO_log2 (2 ^ 31 + 5) = Ok 31.
Proof. apply luaO_log2_spec. split; vm_compute; reflexivity. Defined.

(** ** Proofs: names of chunks *)

Lemma strcspn_nl_le s : (strcspn_nl s <= length s)%nat.
Proof. induction s; simpl; [done|]. case_decide; lia. Qed.

(** Everything before the end of the first line is free of line ends. *)
Lemma strcspn_nl_line s n : n <= strcspn_nl s -> Forall (fun c => c <> 10 /\ c <> 13) (take (Z.to_nat n) s).
Proof.
  revert n. induction s as [|c s IH] => n Hn; simpl in *; [by rw take_nil|].
  destruct (Z.to_nat n) as [|k] eqn:Hk; [done|]. case_decide as Hc; [lia|].
  constructor; [tauto|]. specialize (IH k ltac:(lia)). by rw Nat2Z.id in IH.
Qed.

(** LuaO_chunkid() never writes outside its buffer, however long the name of the chunk is, if
    the buffer has 17 bytes or more (LUA_IDSIZE is 60). A name after '=' is copied up to the size of
    the buffer; of a file name its end is kept, after three dots if something was left out; of source
    text the part shown is a prefix of its first line, so that no message has a line break in it. *)
Theorem luaO_chunkid_fits (source : cstring) (bufflen : Z) :
  17 <= bufflen < size_max ->
  exists out, luaO_chunkid source bufflen = Ok out /\ length out < bufflen /\
    (head source = Some ch_equals -> out = take (Z.to_nat (bufflen - 1)) (tail source)) /\
    (head source = Some ch_at -> out = tail source \/
       exists dropped kept, tail source = dropped ++ kept /\ out = lit "..." ++ kept /\ length kept = bufflen - 8 :> Z) /\
    (head source <> Some ch_equals -> head source <> Some ch_at ->
       exists shown dots, out = lit "[string " ++ [34] ++ shown ++ dots ++ [34; 93] /\
         shown `prefix_of` source /\ Forall (fun c => c <> 10 /\ c <> 13) shown /\
         (dots = [] /\ shown = source \/ dots = lit "...")).
Proof.
  intros Hb. rw /luaO_chunkid /out_string !sz_small; [lia..|]. case_decide as Heq; [|case_decide as Hat].
  - rw length_take. case_decide; [|lia]. eexists. split; [done|]. rw length_take.
    split; [lia|]. split; [done|]. split; [by rw Heq|done].
  - rw Hat. destruct (decide (length (tail source) > bufflen - 8)).
    + rw length_app length_drop. change (length (lit "...")) with 3%nat. case_decide; [|lia]. eexists. split; [done|].
      rw length_app length_drop. change (length (lit "...")) with 3%nat. split; [lia|]. split; [done|]. split; [|done].
      intros _. right. exists (take (Z.to_nat (length (tail source) - (bufflen - 8))) (tail source)).
      eexists. split; [symmetry; apply take_drop|]. split; [done|]. rw length_drop. lia.
    + case_decide; [|lia]. eexists. split; [done|]. split; [done|]. split; [done|]. split; [by left|done].
  - pose proof (strcspn_nl_le source). set (len := if decide (_ > _) then _ else _).
    assert (0 <= len <= bufflen - 17 /\ len <= strcspn_nl source) as [? ?] by (rw /len; case_decide; lia).
    pose proof (strcspn_nl_line source len ltac:(done)) as Hline. destruct (decide (len < length source)).
    + rw !length_app length_take. change (length (lit "...")) with 3%nat. change (length (lit "[string ")) with 8%nat.
      simpl length. case_decide; [|lia]. eexists. split; [done|].
      rw !length_app length_take. change (length (lit "...")) with 3%nat. change (length (lit "[string ")) with 8%nat.
      simpl length. split; [lia|]. do 2 (split; [done|]). intros _ _.
      exists (take (Z.to_nat len) source), (lit "..."). rw -!app_assoc. split_and!; [done| |done|by right].
      apply prefix_take.
    + rw !length_app. change (length (lit "[string ")) with 8%nat.
      simpl length. case_decide; [|lia]. eexists. split; [done|].
      rw !length_app. change (length (lit "[string ")) with 8%nat.
      simpl length. split; [lia|]. do 2 (split; [done|]). intros _ _. exists source, []. rw take_ge in Hline; [lia|].
      split_and!; [done..|by left].
Qed.

Lemma luaO_chunkid_fits_witness :
  exists out, luaO_chunkid (lit "return 1") 60 = Ok out /\ length out < 60 /\
    (head (lit "return 1") = Some ch_equals -> out = take (Z.to_nat (60 - 1)) (tail (lit "return 1"))) /\
    (head (lit "return 1") = Some ch_at -> out = tail (lit "return 1") \/
       exists dropped kept, tail (lit "return 1") = dropped ++ kept /\ out = lit "..." ++ kept /\
         length kept = 60 - 8 :> Z) /\
    (head (lit "return 1") <> Some ch_equals -> head (lit "return 1") <> Some ch_at ->
       exists shown dots, out = lit "[string " ++ [34] ++ shown ++ dots ++ [34; 93] /\
         shown `prefix_of` lit "return 1" /\ Forall (fun c => c <> 10 /\ c <> 13) shown /\
         (dots = [] /\ shown = lit "return 1" \/ dots = lit "...")).
Proof. apply (luaO_chunkid_fits (lit "return 1") 60). split; vm_compute; (discriminate || reflexivity). Defined.

(** The name of a chunk can always be shown. *)
Lemma chunkid_total source bufflen : 17 <= bufflen < size_max -> exists out, luaO_chunkid source bufflen = Ok out.
Proof.
  intros Hb. rw /luaO_chunkid /out_string !sz_small; [lia..|]. repeat case_decide; eauto; exfalso;
    repeat match goal with H : ~ (Z.of_nat (length _) < _) |- _ => revert H end;
    rw ?length_app ?length_take ?length_drop; change (length (lit "...")) with 3%nat; change (length (lit "[string ")) with 8%nat;
    simpl length; pose proof (strcspn_nl_le source); lia.
Qed.
