(* ===== verification/LuaZio.v ===== *)
(** LuaZio: input streams of the interpreter, src/liblua/src/lzio.c.

    The reader is a callback of the application: here it is the sequence of the
    blocks it gives; an empty block ends the stream. Bytes are unsigned. *)

From Corelib Require Import ssreflect.
From stdpp Require Import base list numbers.
From Stdlib Require Import ZArith Lia.
From S2P Require Import Prelude LuaObject.

(** ** Input streams *)

(** [z_buf] are the bytes still unread, [z_reader] the blocks the reader will give. *)
Record Zio := MkZio { z_buf : list byte; z_reader : list (list byte) }.

Definition EOZ : Z := -1.

Definition luaZ_init (blocks : list (list byte)) : Zio := MkZio [] blocks.

Definition luaZ_fill (z : Zio) : Z * Zio :=
  match z_reader z with
  | (b :: buff) :: rest => (b, MkZio buff rest)
  | [] :: rest => (EOZ, MkZio (z_buf z) rest)
  | [] => (EOZ, z)
  end.

Definition luaZ_lookahead (z : Zio) : Z * Zio :=
  match z_buf z with
  | b :: _ => (b, z)
  | [] =>
      let '(c, z) := luaZ_fill z in
      if decide (c = EOZ) then (EOZ, z) else (c, MkZio (c :: z_buf z) (z_reader z))
  end.

(** The number of missing bytes, the bytes read and the stream. *)
Fixpoint luaZ_read_loop (fuel : nat) (z : Zio) (n : nat) : res (nat * list byte * Zio) :=
  match fuel with
  | O => Err OutOfFuel
  | S fuel =>
      if decide (n = 0%nat) then Ok (0%nat, [], z)
      else
        let '(c, z) := luaZ_lookahead z in
        if decide (c = EOZ) then Ok (n, [], z)
        else
          let m := if decide (n <= length (z_buf z))%nat then n else length (z_buf z) in
          '(r, bs, z') ← luaZ_read_loop fuel (MkZio (drop m (z_buf z)) (z_reader z)) (n - m);
          Ok (r, take m (z_buf z) ++ bs, z')
  end.

Definition luaZ_read (z : Zio) (n : nat) : res (nat * list byte * Zio) := luaZ_read_loop (S n) z n.

(** ** Proofs: input streams *)

Definition is_byte (b : Z) : Prop := 0 <= b < 256.

(** The bytes a stream will give, and the streams that do not end early: an empty block ends one. *)
Definition content (z : Zio) : list byte := z_buf z ++ concat (z_reader z).
Definition stream_ok (z : Zio) : Prop := Forall is_byte (content z) /\ Forall (fun b => b <> []) (z_reader z).

Lemma lookahead_spec z : stream_ok z ->
  exists c z', luaZ_lookahead z = (c, z') /\ content z' = content z /\ stream_ok z' /\
    (content z = [] /\ c = EOZ \/ c <> EOZ /\ z_buf z' <> []).
Proof.
  intros Hok. pose proof Hok as [Hb Hr]. destruct z as [[|b buf] rd]; rw /luaZ_lookahead /luaZ_fill /content /= in Hb *.
  - destruct rd as [|[|b bl] rest]; simpl in *.
    + exists EOZ, (MkZio [] []). split_and!; [done..|by left].
    + inversion Hr. done.
    + assert (b <> EOZ) by (inversion Hb as [|? ? []]; rw /EOZ; lia). destruct (decide (b = EOZ)); [done|].
      eexists _, _. split; [reflexivity|]. split; [done|]. split; [split; [done|by inversion Hr]|by right].
  - assert (b <> EOZ) by (inversion Hb as [|? ? []]; rw /EOZ; lia).
    eexists _, _. split; [reflexivity|]. split; [done|]. split; [done|by right].
Qed.

Lemma luaZ_read_loop_spec fuel z n : stream_ok z -> (n < fuel)%nat ->
  exists z', luaZ_read_loop fuel z n =
      Ok ((n - length (content z))%nat, take n (content z), z') /\
    content z' = drop n (content z) /\ stream_ok z'.
Proof.
  revert z n. induction fuel as [|fuel IH] => z n Hz Hf; [lia|]. cbn [luaZ_read_loop].
  destruct (decide (n = 0%nat)) as [->|Hn]; [by exists z|].
  destruct (lookahead_spec z Hz) as (c & z1 & -> & Hc & Hok & [[Hnil ->]|[Hne Hbuf]]).
  { destruct (decide (EOZ = EOZ)); [|done]. exists z1. rw Hnil take_nil drop_nil Nat.sub_0_r Hc Hnil. done. }
  destruct (decide (c = EOZ)) as [|_]; [done|]. rw -Hc. set (m := if decide _ then _ else _).
  assert (m = n `min` length (z_buf z1))%nat as Hm by (rw /m; case_decide; lia).
  destruct (IH (MkZio (drop m (z_buf z1)) (z_reader z1)) (n - m)%nat) as (z' & -> & Hc' & Hok').
  - destruct Hok as [Hb Hr]. split; [|done]. rw /content in Hb *. simpl.
    apply Forall_app in Hb as [? ?]. apply Forall_app. split; [by apply Forall_drop|done].
  - destruct (z_buf z1); [done|]. simpl in *. lia.
  - exists z'. ok_step. clear Hm. rw Hc' /content /=. subst m. case_decide as Hle.
    + rw Nat.sub_diag take_0 app_nil_r drop_0 take_app_le // drop_app_le // !length_app. split; [|done].
      do 3 f_equal. lia.
    + rw drop_all firstn_all app_nil_l take_app_ge; [lia|]. rw drop_app_ge; [lia|]. split; [|done].
      rw !length_app. do 3 f_equal. lia.
Qed.

