(* ===== verification/LuaBit.v ===== *)
(** LuaBit: the bit32 library of the interpreter, src/liblua/src/lbitlib.c.

    [lua_Unsigned] is 32 bits wide here. The arguments of the functions are what
    luaL_checkunsigned() and luaL_checkint() give: numbers modulo 2^32 and
    [int]s. Negating the smallest [int], adding [int]s beyond their range and
    shifting by more than the width are undefined; shifting an [int] to the left
    is taken modulo 2^32. *)

From Corelib Require Import ssreflect.
From stdpp Require Import base list numbers strings.
From Stdlib Require Import ZArith Lia.
From S2P Require Import Prelude LuaObject.

(** ** Unsigned arithmetic *)

Definition LUA_NBITS : Z := 32.

(** A shift by [i] is defined for [0 <= i < 32]. *)
Definition shift_ok (i : Z) : res unit :=
  if decide (0 <= i < LUA_NBITS) then Ok () else Err OutOfBounds.

(** [-i] and [i + j] on [int]. *)
Definition neg_int (i : Z) : res Z := if decide (i = int_min) then Err SignedOverflow else Ok (- i).
Definition add_int (i j : Z) : res Z :=
  if decide (int_min <= i + j <= int_max) then Ok (i + j) else Err SignedOverflow.

Definition ALLONES : Z := unot (ushl (ushl (unot 0) (LUA_NBITS - 1)) 1).
Definition trim (x : Z) : Z := Z.land x ALLONES.
Definition mask (n : Z) : Z := unot (ushl (ushl ALLONES 1) (n - 1)).

(** ** The functions *)

Definition andaux (args : list Z) : Z := trim (foldl Z.land (unot 0) args).
Definition b_and (args : list Z) : Z := andaux args.
Definition b_test (args : list Z) : bool := negb (bool_decide (andaux args = 0)).
Definition b_or (args : list Z) : Z := trim (foldl Z.lor 0 args).
Definition b_xor (args : list Z) : Z := trim (foldl Z.lxor 0 args).
Definition b_not (x : Z) : Z := trim (unot x).

Definition b_shift (r i : Z) : res Z :=
  if decide (i < 0) then
    i ← neg_int i;
    let r := trim r in
    if decide (i >= LUA_NBITS) then Ok 0 else _ ← shift_ok i; Ok (ushr r i)
  else
    if decide (i >= LUA_NBITS) then Ok (trim 0) else _ ← shift_ok i; Ok (trim (ushl r i)).

Definition b_lshift (r i : Z) : res Z := b_shift r i.
Definition b_rshift (r i : Z) : res Z := i ← neg_int i; b_shift r i.

Definition b_arshift (r i : Z) : res Z :=
  if decide (i < 0 \/ Z.land r (ushl 1 (LUA_NBITS - 1)) = 0) then i ← neg_int i; b_shift r i
  else if decide (i >= LUA_NBITS) then Ok ALLONES
  else _ ← shift_ok i; Ok (trim (Z.lor (ushr r i) (unot (ushr (unot 0) i)))).

Definition b_rot (r i : Z) : res Z :=
  let i := Z.land i (LUA_NBITS - 1) in
  let r := trim r in
  if decide (i <> 0) then
    _ ← shift_ok i;
    _ ← shift_ok (LUA_NBITS - i);
    Ok (trim (Z.lor (ushl r i) (ushr r (LUA_NBITS - i))))
  else Ok (trim r).

Definition b_lrot (r i : Z) : res Z := b_rot r i.
Definition b_rrot (r i : Z) : res Z := i ← neg_int i; b_rot r i.

(** Field and width, or an error message. *)
Definition fieldargs (f w : Z) : res (cstring + Z * Z) :=
  if negb (bool_decide (0 <= f)) then Ok (inl (lit "field cannot be negative"))
  else if negb (bool_decide (0 < w)) then Ok (inl (lit "width must be positive"))
  else
    fw ← add_int f w;
    if decide (fw > LUA_NBITS) then Ok (inl (lit "trying to access non-existent bits"))
    else Ok (inr (f, w)).

Definition b_extract (r f w : Z) : res (cstring + Z) :=
  a ← fieldargs f w;
  match a with
  | inl e => Ok (inl e)
  | inr (f, w) => _ ← shift_ok f; Ok (inr (Z.land (ushr r f) (mask w)))
  end.

Definition b_replace (r v f w : Z) : res (cstring + Z) :=
  a ← fieldargs f w;
  match a with
  | inl e => Ok (inl e)
  | inr (f, w) =>
      let m := to_int (mask w) in
      let v := Z.land v (u32 m) in
      _ ← shift_ok f;
      Ok (inr (Z.lor (Z.land r (u32 (Z.lnot (to_int (Z.shiftl m f))))) (ushl v f)))
  end.

(** ** Bits *)

Lemma trim_u32 x : trim x = u32 x.
Proof. rw /trim. change ALLONES with (Z.ones 32). by rw Z.land_ones. Qed.

Lemma mask_ones w : 1 <= w <= 32 -> mask w = Z.ones w.
Proof.
  intros Hw. assert (Forall (fun w => mask w = Z.ones w) (seqZ 1 32)) as Hall
    by (apply (bool_decide_unpack _); vm_compute; exact I).
  apply (proj1 (Forall_forall _ _) Hall). apply elem_of_seqZ. lia.
Qed.

(** ** Shifts *)

(** The shift operators, by arithmetic; a negative count shifts the other way. *)
Definition shift_left (r i : Z) : Z := if decide (0 <= i) then u32 (r * 2 ^ i) else r / 2 ^ (- i).

Lemma big_shift_left r i : 32 <= i -> u32 (r * 2 ^ i) = 0.
Proof.
  intros Hi. rw /u32. replace i with ((i - 32) + 32) by lia. rw Z.pow_add_r; [lia..|].
  rw Z.mul_assoc Z.mod_mul //.
Qed.

Lemma big_shift_right r i : is_u32 r -> 32 <= i -> r / 2 ^ i = 0.
Proof.
  intros [? ?] Hi. apply Z.div_small. split; [done|].
  assert (2 ^ 32 <= 2 ^ i) by (apply Z.pow_le_mono_r; lia). lia.
Qed.

Lemma b_shift_ok r i : is_u32 r -> int_min < i <= int_max -> b_shift r i = Ok (shift_left r i).
Proof.
  intros Hr Hi. rw /b_shift /shift_left /LUA_NBITS. destruct (decide (i < 0)).
  - rw /neg_int. case_decide; [lia|]. ok_step. destruct (decide (0 <= i)); [lia|].
    destruct (decide (- i >= 32)); [by rw big_shift_right //; lia|].
    rw /shift_ok /LUA_NBITS. case_decide; [|lia]. ok_step.
    rw trim_u32 u32_small // /ushr Z.shiftr_div_pow2 //. lia.
  - destruct (decide (0 <= i)); [|lia].
    destruct (decide (i >= 32)); [by rw big_shift_left //; lia|].
    rw /shift_ok /LUA_NBITS. case_decide; [|lia]. ok_step.
    rw trim_u32 /ushl (u32_small (u32 _)); [apply u32_range|]. rw Z.shiftl_mul_pow2 //.
Qed.

Lemma signed_bit r k : is_u32 r -> 2 ^ 31 <= r -> 0 <= k ->
  Z.testbit (r - 2 ^ 32) k = (Z.testbit r k || bool_decide (32 <= k)).
Proof.
  intros Hr Hneg Hk. case_bool_decide.
  - rw orb_true_r. replace k with ((k - 32) + 32) by lia. rw -Z.div_pow2_bits; [lia..|].
    replace ((r - 2 ^ 32) / 2 ^ 32) with (-1); [apply Z.bits_m1; lia|].
    rw /is_u32 in Hr. apply (Z.div_unique_pos _ _ _ r); lia.
  - rw orb_false_r -(Z.mod_pow2_bits_low (r - 2 ^ 32) 32); [lia|].
    replace ((r - 2 ^ 32) mod 2 ^ 32) with r; [done|].
    rw /is_u32 in Hr. apply (Z.mod_unique_pos _ _ (-1)); lia.
Qed.

Lemma sign_test r : is_u32 r -> Z.land r (ushl 1 31) = 0 <-> r < 2 ^ 31.
Proof.
  intros Hr. change (ushl 1 31) with (2 ^ 31). split.
  - intros Hz. destruct (decide (r < 2 ^ 31)) as [|Hge]; [done|]. exfalso.
    assert (Z.testbit r 31 = true) as Hb.
    { rw Z.testbit_true; [lia|]. rw /is_u32 in Hr.
      rw -(Z.div_unique_pos r (2 ^ 31) 1 (r - 2 ^ 31)) //; lia. }
    apply (f_equal (fun x => Z.testbit x 31)) in Hz.
    rw Z.land_spec Hb Z.pow2_bits_true // Z.bits_0 in Hz.
  - intros Hlt. apply Z.bits_inj'. intros k Hk. rw Z.land_spec Z.bits_0 Z.pow2_bits_eqb //.
    destruct (Z.eqb_spec 31 k) as [<-|]; [|by rw andb_false_r].
    rw andb_true_r. apply Z.bits_above_log2; [apply Hr|].
    destruct (decide (r = 0)) as [->|]; [done|]. apply Z.log2_lt_pow2; [rw /is_u32 in Hr; lia|done].
Qed.

Lemma b_arshift_ok r i :
  is_u32 r -> 0 <= i <= int_max -> b_arshift r i = Ok (u32 (to_int r / 2 ^ i)).
Proof.
  intros Hr Hi. rw /b_arshift /LUA_NBITS. change (32 - 1) with 31. rw /to_int.
  pose proof (sign_test r Hr) as Hsign.
  destruct (decide (i < 0 \/ Z.land r (ushl 1 31) = 0)) as [[?|Hpos%Hsign]|Hneg]; [lia| |].
  - rw /neg_int. case_decide; [rw /int_min in H; lia|]. ok_step. rw /is_u32 in Hr.
    rw b_shift_ok; [done|rw /int_min /int_max in Hi *; lia|]. rw (Z.mod_small (r + 2 ^ 31)); [lia|].
    replace (r + 2 ^ 31 - 2 ^ 31) with r by lia. rw /shift_left.
    assert (0 <= r / 2 ^ i <= r) by (split; [apply Z.div_pos; lia|apply Z.div_le_upper_bound; nia]).
    rw (u32_small (r / 2 ^ i)); [rw /is_u32; lia|]. destruct (decide (0 <= - i)).
    + assert (i = 0) as -> by lia. rw Z.mul_1_r Z.div_1_r u32_small //.
    + by rw Z.opp_involutive.
  - assert (2 ^ 31 <= r) as Hge by (destruct (decide (r < 2 ^ 31)); [naive_solver|lia]).
    replace ((r + 2 ^ 31) mod 2 ^ 32 - 2 ^ 31) with (r - 2 ^ 32).
    2: { rw /is_u32 in Hr. rw -(Z.mod_unique_pos (r + 2 ^ 31) (2 ^ 32) 1 (r - 2 ^ 31)); lia. }
    assert (forall k, 0 <= k < 32 -> Z.testbit (u32 ((r - 2 ^ 32) / 2 ^ i)) k =
              (Z.testbit r (k + i) || bool_decide (32 <= k + i))) as Hbits.
    { intros k Hk. rw u32_bit; [lia|]. rw bool_decide_true; [lia|]. rw Z.div_pow2_bits; [lia..|].
      rw signed_bit //. lia. }
    destruct (decide (i >= 32)) as [Hbig|].
    + f_equal. apply u32_eq; [done|apply u32_range|]. intros k Hk. rw Hbits // bool_decide_true; [lia|].
      rw orb_true_r. change ALLONES with (Z.ones 32). apply Z.ones_spec_low. lia.
    + rw /shift_ok /LUA_NBITS. case_decide; [|lia]. ok_step. f_equal. rw trim_u32.
      apply u32_eq; [apply u32_range..|]. intros k Hk. rw Hbits // u32_bit; [lia|].
      rw bool_decide_true; [lia|]. rw Z.lor_spec /ushr Z.shiftr_spec; [lia|]. f_equal.
      rw /unot u32_bit; [lia|]. rw bool_decide_true; [lia|]. rw Z.lnot_spec; [lia|].
      rw Z.shiftr_spec; [lia|]. change (u32 (Z.lnot 0)) with (Z.ones 32). rw ones_bit; [lia..|].
      repeat case_bool_decide; done || lia.
Qed.

(** ** Rotations *)

Lemma land_31 i : Z.land i 31 = i mod 32.
Proof. change 31 with (Z.ones 5). by rw Z.land_ones. Qed.

Lemma b_rot_ok r i :
  is_u32 r -> exists q, b_rot r i = Ok q /\ is_u32 q /\
    forall k, 0 <= k < 32 -> Z.testbit q k = Z.testbit r ((k - i) mod 32).
Proof.
  intros Hr. rw /b_rot /LUA_NBITS. change (32 - 1) with 31. rw land_31 !trim_u32 !(u32_small r) //.
  pose proof (Z.mod_pos_bound i 32 ltac:(lia)) as Hm. set (m := i mod 32) in *.
  assert (forall k, (k - i) mod 32 = (k - m) mod 32) as Hcong.
  { intros k. rw /m Zminus_mod_idemp_r //. }
  destruct (decide (m <> 0)) as [Hne|Hz].
  - rw /shift_ok /LUA_NBITS. case_decide; [|lia]. case_decide; [|lia]. do 2 ok_step.
    eexists. split; [done|]. split; [apply u32_range|]. intros k Hk. rw Hcong.
    rw u32_bit; [lia|]. rw bool_decide_true; [lia|]. rw Z.lor_spec /ushl u32_bit; [lia|].
    rw bool_decide_true; [lia|]. rw Z.shiftl_spec; [lia|]. rw /ushr Z.shiftr_spec; [lia|].
    destruct (decide (m <= k)) as [Hle|Hgt]; simpl.
    + rw (u32_high r (k + (32 - m))) ?orb_false_r; [done|lia|]. rw Z.mod_small //. lia.
    + rw Z.testbit_neg_r; [lia|]. simpl. f_equal.
      rw -(Z.mod_unique_pos (k - m) 32 (-1) (k - m + 32)); lia.
  - eexists. split; [done|]. split; [done|]. intros k Hk.
    rw Hcong (_ : m = 0); [lia|]. rw Z.sub_0_r Z.mod_small //.
Qed.

(** ** Fields *)

(** A field within the 32 bits. *)
Definition field_ok (f w : Z) : Prop := 0 <= f /\ 0 < w /\ f + w <= 32.

Lemma fieldargs_ok f w : field_ok f w -> fieldargs f w = Ok (inr (f, w)).
Proof.
  intros (Hf & Hw & Hfw). rw /fieldargs !bool_decide_true //= /add_int.
  case_decide as Hi; [|rw /int_min /int_max in Hi; lia]. ok_step. rw /LUA_NBITS.
  case_decide; [lia|done].
Qed.

Lemma extract_bits r f w :
  is_u32 r -> field_ok f w -> b_extract r f w = Ok (inr ((r / 2 ^ f) mod 2 ^ w)).
Proof.
  intros Hr Hf. rw /b_extract fieldargs_ok //. ok_step. destruct Hf as (Hf & Hw & Hfw).
  rw /shift_ok /LUA_NBITS. case_decide; [|lia]. ok_step. rw mask_ones; [lia|].
  rw Z.land_ones; [lia|]. rw /ushr Z.shiftr_div_pow2 //.
Qed.

Lemma to_int_bit z k : 0 <= k < 32 -> Z.testbit (to_int z) k = Z.testbit z k.
Proof.
  intros Hk. rw /to_int -(Z.mod_pow2_bits_low z 32); [lia|]. rw -(Z.mod_pow2_bits_low _ 32); [lia|].
  f_equal. rw Zminus_mod_idemp_l. f_equal. lia.
Qed.

Lemma replace_bits r v f w :
  is_u32 r -> field_ok f w ->
  exists q, b_replace r v f w = Ok (inr q) /\ is_u32 q /\
    forall k, 0 <= k < 32 ->
      Z.testbit q k = if decide (f <= k < f + w) then Z.testbit v (k - f) else Z.testbit r k.
Proof.
  intros Hr Hfield. rw /b_replace fieldargs_ok //. ok_step. destruct Hfield as (Hf & Hw & Hfw).
  rw /shift_ok /LUA_NBITS. case_decide; [|lia]. ok_step. eexists. split; [done|].
  rw mask_ones; [lia|]. set (x := Z.land r _). set (y := ushl _ f).
  assert (is_u32 y) as Hy by apply u32_range.
  assert (is_u32 x) as Hx.
  { rw /x. split; [apply Z.land_nonneg; left; apply Hr|]. rw -(u32_small r Hr) /(u32 r).
    rw -Z.land_ones // -Z.land_assoc (Z.land_comm (Z.ones 32)) Z.land_assoc Z.land_ones //.
    apply Z.mod_pos_bound. lia. }
  split.
  { split; [apply Z.lor_nonneg; split; [apply Hx|apply Hy]|].
    rw -(u32_small x Hx) -(u32_small y Hy) /u32 -!Z.land_ones // -Z.land_lor_distr_l Z.land_ones //.
    apply Z.mod_pos_bound. lia. }
  intros k Hk. rw Z.lor_spec /x /y Z.land_spec /ushl !u32_bit; [lia..|]. rw bool_decide_true; [lia|].
  rw Z.lnot_spec; [lia|]. rw to_int_bit // !Z.shiftl_spec; [lia..|]. simpl.
  destruct (decide (f <= k)) as [Hle|Hgt].
  - rw to_int_bit; [lia|]. rw Z.land_spec u32_bit; [lia|]. rw to_int_bit; [lia|]. rw ones_bit; [lia..|].
    rw (bool_decide_true (k - f < 32)); [lia|]. simpl. destruct (decide (f <= k < f + w)).
    + rw bool_decide_true; [lia|]. by rw andb_false_r andb_true_r.
    + rw bool_decide_false; [lia|]. by rw andb_true_r andb_false_r orb_false_r.
  - rw !(Z.testbit_neg_r _ (k - f)); [lia..|]. rw andb_true_r orb_false_r.
    destruct (decide (f <= k < f + w)); [lia|done].
Qed.

(** ** Properties *)

(** The shifts of bit32 are multiplication and division by powers of two: a
    left shift modulo 2^32, a logical right shift of the number and an arithmetic
    right shift of the number read as signed, for every count, also beyond the
    width; a negative count shifts the other way. *)
Theorem bit32_shifts r i :
  is_u32 r -> int_min < i <= int_max ->
  b_lshift r i = Ok (shift_left r i) /\ b_rshift r i = Ok (shift_left r (- i)) /\
  (0 <= i -> b_arshift r i = Ok (u32 (to_int r / 2 ^ i))).
Proof.
  intros Hr Hi. split; [by apply b_shift_ok|]. split; [|intros ?; apply b_arshift_ok; [done|lia]].
  rw /b_rshift /neg_int. case_decide; [lia|]. ok_step. apply b_shift_ok; [done|].
  rw /int_min /int_max in Hi *. lia.
Qed.

(** The rotations of bit32 move every bit by the count modulo 32, and rotating
    back gives the number again. *)
Theorem bit32_rotations r i :
  is_u32 r -> int_min < i <= int_max ->
  exists q, b_lrot r i = Ok q /\ is_u32 q /\
    (forall k, 0 <= k < 32 -> Z.testbit q k = Z.testbit r ((k - i) mod 32)) /\
    b_rrot q i = Ok r.
Proof.
  intros Hr Hi. destruct (b_rot_ok r i Hr) as (q & Hq & Hqr & Hbits). exists q.
  split; [done|]. split; [done|]. split; [done|].
  rw /b_rrot /neg_int. case_decide; [lia|]. ok_step.
  destruct (b_rot_ok q (- i) Hqr) as (q' & -> & Hqr' & Hbits'). f_equal.
  apply u32_eq; [done..|]. intros k Hk. rw Hbits' // Hbits; [apply Z.mod_pos_bound; lia|].
  f_equal. rw Zminus_mod_idemp_l (_ : k - - i - i = k); [lia|]. by apply Z.mod_small.
Qed.

(** Replacing a field and extracting it again gives the value, reduced to the
    width, and the bits outside the field are unchanged. Fields outside the 32 bits
    are errors, unless the sum of field and width overflows: the check for it is
    itself undefined. *)
Theorem bit32_fields r v f w :
  is_u32 r -> int_min <= f <= int_max -> int_min <= w <= int_max ->
  (field_ok f w ->
     exists q, b_replace r v f w = Ok (inr q) /\ b_extract q f w = Ok (inr (v mod 2 ^ w)) /\
       forall k, 0 <= k < 32 -> ~ f <= k < f + w -> Z.testbit q k = Z.testbit r k) /\
  (~ field_ok f w -> f + w <= int_max -> exists e, b_extract r f w = Ok (inl e) /\ b_replace r v f w = Ok (inl e)) /\
  (0 <= f -> 0 < w -> int_max < f + w -> b_extract r f w = Err SignedOverflow).
Proof.
  intros Hr Hf Hw. split; [|split].
  - intros Hfield. destruct (replace_bits r v f w Hr Hfield) as (q & Hq & Hqr & Hbits).
    exists q. split; [done|]. split.
    + rw extract_bits //. do 2 f_equal. destruct Hfield as (? & ? & ?).
      apply Z.bits_inj'. intros k Hk. destruct (decide (k < w)).
      * rw !Z.mod_pow2_bits_low // Z.div_pow2_bits // Hbits; [lia|].
        destruct (decide (f <= k + f < f + w)); [|lia]. f_equal. lia.
      * rw !Z.mod_pow2_bits_high //; lia.
    + intros k Hk Hout. rw Hbits //. by destruct (decide (f <= k < f + w)).
  - intros Hbad Hsum. rw /field_ok in Hbad.
    assert (exists e, fieldargs f w = Ok (inl e)) as [e He].
    { rw /fieldargs /add_int /LUA_NBITS. repeat case_bool_decide; simpl; try by eexists.
      case_decide; [|rw /int_min in H1; lia]. ok_step. case_decide; [by eexists|]. lia. }
    exists e. by rw /b_extract /b_replace He.
  - intros Hf0 Hw0 Hsum. rw /b_extract /fieldargs !bool_decide_true //= /add_int. by case_decide; [lia|].
Qed.

(** ** Witnesses *)

Lemma bit32_shifts_witness : b_lshift 5 3 = Ok 40 /\ b_arshift (2 ^ 31) 31 = Ok (2 ^ 32 - 1).
Proof.
  split.
  - etransitivity; [apply (proj1 (bit32_shifts 5 3 ltac:(done) ltac:(done)))|]. by vm_compute.
  - etransitivity; [apply (proj2 (proj2 (bit32_shifts (2 ^ 31) 31 ltac:(done) ltac:(done)))); done|].
    by vm_compute.
Defined.

Lemma bit32_rotations_witness : exists q, b_lrot (2 ^ 31 + 1) 1 = Ok q /\ b_rrot q 1 = Ok (2 ^ 31 + 1).
Proof.
  destruct (bit32_rotations (2 ^ 31 + 1) 1 ltac:(done) ltac:(done)) as (q & Hq & _ & _ & Hb).
  by exists q.
Defined.

Lemma bit32_fields_witness :
  (exists q, b_replace 0 7 30 2 = Ok (inr q) /\ b_extract q 30 2 = Ok (inr 3)) /\
  b_extract 0 int_max 1 = Err SignedOverflow.
Proof.
  split.
  - destruct (proj1 (bit32_fields 0 7 30 2 ltac:(done) ltac:(done) ltac:(done))) as (q & Hq & He & _);
      [done|]. by exists q.
  - by apply (proj2 (proj2 (bit32_fields 0 0 int_max 1 ltac:(done) ltac:(done) ltac:(done)))).
Defined.
