(* ===== verification/LuaOpcodes.v ===== *)
(** LuaOpcodes: instructions of the virtual machine, src/liblua/src/lopcodes.h and
    lopcodes.c: the fields of an instruction, the opcodes and their modes.

    An [Instruction] is an unsigned 32-bit integer; the casts to [OpCode] and [int]
    keep the value, since every field has at most 18 bits. *)

From Corelib Require Import ssreflect.
From stdpp Require Import base list numbers.
From Stdlib Require Import ZArith Lia.
From S2P Require Import Prelude LuaObject.

(** ** Fields *)

Definition SIZE_C : Z := 9.
Definition SIZE_B : Z := 9.
Definition SIZE_Bx : Z := SIZE_C + SIZE_B.
Definition SIZE_A : Z := 8.
Definition SIZE_OP : Z := 6.

Definition POS_OP : Z := 0.
Definition POS_A : Z := POS_OP + SIZE_OP.
Definition POS_C : Z := POS_A + SIZE_A.
Definition POS_B : Z := POS_C + SIZE_C.
Definition POS_Bx : Z := POS_C.

Definition MAXARG_Bx : Z := Z.shiftl 1 SIZE_Bx - 1.
Definition MAXARG_sBx : Z := Z.shiftr MAXARG_Bx 1.
Definition MAXARG_A : Z := Z.shiftl 1 SIZE_A - 1.
Definition MAXARG_B : Z := Z.shiftl 1 SIZE_B - 1.
Definition MAXARG_C : Z := Z.shiftl 1 SIZE_C - 1.

Definition MASK1 (n p : Z) : Z := ushl (unot (ushl (unot 0) n)) p.
Definition MASK0 (n p : Z) : Z := unot (MASK1 n p).

Definition GET_OPCODE (i : Z) : Z := Z.land (Z.shiftr i POS_OP) (MASK1 SIZE_OP 0).
Definition GETARG_A (i : Z) : Z := Z.land (Z.shiftr i POS_A) (MASK1 SIZE_A 0).
Definition GETARG_B (i : Z) : Z := Z.land (Z.shiftr i POS_B) (MASK1 SIZE_B 0).
Definition GETARG_C (i : Z) : Z := Z.land (Z.shiftr i POS_C) (MASK1 SIZE_C 0).
Definition GETARG_Bx (i : Z) : Z := Z.land (Z.shiftr i POS_Bx) (MASK1 SIZE_Bx 0).
Definition GETARG_sBx (i : Z) : Z := GETARG_Bx i - MAXARG_sBx.

(** The setters have one shape. *)
Definition set_field (n p i u : Z) : Z :=
  Z.lor (Z.land i (MASK0 n p)) (Z.land (ushl (u32 u) p) (MASK1 n p)).

Definition SET_OPCODE (i o : Z) : Z := set_field SIZE_OP POS_OP i o.
Definition SETARG_A (i u : Z) : Z := set_field SIZE_A POS_A i u.
Definition SETARG_B (i b : Z) : Z := set_field SIZE_B POS_B i b.
Definition SETARG_C (i b : Z) : Z := set_field SIZE_C POS_C i b.
Definition SETARG_Bx (i b : Z) : Z := set_field SIZE_Bx POS_Bx i b.
Definition SETARG_sBx (i b : Z) : Z := SETARG_Bx i (u32 (b + MAXARG_sBx)).

Definition CREATE_ABC (o a b c : Z) : Z :=
  Z.lor (Z.lor (Z.lor (ushl (u32 o) POS_OP) (ushl (u32 a) POS_A)) (ushl (u32 b) POS_B))
    (ushl (u32 c) POS_C).
Definition CREATE_ABx (o a bc : Z) : Z :=
  Z.lor (Z.lor (ushl (u32 o) POS_OP) (ushl (u32 a) POS_A)) (ushl (u32 bc) POS_Bx).

(** Registers or constants. *)
Definition BITRK : Z := Z.shiftl 1 (SIZE_B - 1).
Definition ISK (x : Z) : bool := bool_decide (Z.land x BITRK <> 0).
Definition INDEXK (r : Z) : Z := Z.land r (Z.lnot BITRK).
Definition MAXINDEXRK : Z := BITRK - 1.
Definition RKASK (x : Z) : Z := Z.lor x BITRK.

Definition NO_REG : Z := MAXARG_A.

(** ** Opcodes *)

Definition OP_MOVE : Z := 0.
Definition OP_LOADK : Z := 1.
Definition OP_LOADBOOL : Z := 2.
Definition OP_LOADNIL : Z := 3.
Definition OP_GETUPVAL : Z := 4.
Definition OP_GETGLOBAL : Z := 5.
Definition OP_GETTABLE : Z := 6.
Definition OP_SETGLOBAL : Z := 7.
Definition OP_SETUPVAL : Z := 8.
Definition OP_SETTABLE : Z := 9.
Definition OP_NEWTABLE : Z := 10.
Definition OP_SELF : Z := 11.
Definition OP_ADD : Z := 12.
Definition OP_SUB : Z := 13.
Definition OP_MUL : Z := 14.
Definition OP_DIV : Z := 15.
Definition OP_MOD : Z := 16.
Definition OP_POW : Z := 17.
Definition OP_UNM : Z := 18.
Definition OP_NOT : Z := 19.
Definition OP_LEN : Z := 20.
Definition OP_CONCAT : Z := 21.
Definition OP_JMP : Z := 22.
Definition OP_EQ : Z := 23.
Definition OP_LT : Z := 24.
Definition OP_LE : Z := 25.
Definition OP_TEST : Z := 26.
Definition OP_TESTSET : Z := 27.
Definition OP_CALL : Z := 28.
Definition OP_TAILCALL : Z := 29.
Definition OP_RETURN : Z := 30.
Definition OP_FORLOOP : Z := 31.
Definition OP_FORPREP : Z := 32.
Definition OP_TFORLOOP : Z := 33.
Definition OP_SETLIST : Z := 34.
Definition OP_CLOSE : Z := 35.
Definition OP_CLOSURE : Z := 36.
Definition OP_VARARG : Z := 37.
Definition NUM_OPCODES : Z := OP_VARARG + 1.

Definition iABC : Z := 0.
Definition iABx : Z := 1.
Definition iAsBx : Z := 2.

Definition OpArgN : Z := 0.
Definition OpArgU : Z := 1.
Definition OpArgR : Z := 2.
Definition OpArgK : Z := 3.

Definition opmode (t a b c m : Z) : Z :=
  Z.lor (Z.lor (Z.lor (Z.lor (Z.shiftl t 7) (Z.shiftl a 6)) (Z.shiftl b 4)) (Z.shiftl c 2)) m.

Definition luaP_opmodes : list Z := [
  opmode 0 1 OpArgR OpArgN iABC;    (* OP_MOVE *)
  opmode 0 1 OpArgK OpArgN iABx;    (* OP_LOADK *)
  opmode 0 1 OpArgU OpArgU iABC;    (* OP_LOADBOOL *)
  opmode 0 1 OpArgR OpArgN iABC;    (* OP_LOADNIL *)
  opmode 0 1 OpArgU OpArgN iABC;    (* OP_GETUPVAL *)
  opmode 0 1 OpArgK OpArgN iABx;    (* OP_GETGLOBAL *)
  opmode 0 1 OpArgR OpArgK iABC;    (* OP_GETTABLE *)
  opmode 0 0 OpArgK OpArgN iABx;    (* OP_SETGLOBAL *)
  opmode 0 0 OpArgU OpArgN iABC;    (* OP_SETUPVAL *)
  opmode 0 0 OpArgK OpArgK iABC;    (* OP_SETTABLE *)
  opmode 0 1 OpArgU OpArgU iABC;    (* OP_NEWTABLE *)
  opmode 0 1 OpArgR OpArgK iABC;    (* OP_SELF *)
  opmode 0 1 OpArgK OpArgK iABC;    (* OP_ADD *)
  opmode 0 1 OpArgK OpArgK iABC;    (* OP_SUB *)
  opmode 0 1 OpArgK OpArgK iABC;    (* OP_MUL *)
  opmode 0 1 OpArgK OpArgK iABC;    (* OP_DIV *)
  opmode 0 1 OpArgK OpArgK iABC;    (* OP_MOD *)
  opmode 0 1 OpArgK OpArgK iABC;    (* OP_POW *)
  opmode 0 1 OpArgR OpArgN iABC;    (* OP_UNM *)
  opmode 0 1 OpArgR OpArgN iABC;    (* OP_NOT *)
  opmode 0 1 OpArgR OpArgN iABC;    (* OP_LEN *)
  opmode 0 1 OpArgR OpArgR iABC;    (* OP_CONCAT *)
  opmode 0 0 OpArgR OpArgN iAsBx;   (* OP_JMP *)
  opmode 1 0 OpArgK OpArgK iABC;    (* OP_EQ *)
  opmode 1 0 OpArgK OpArgK iABC;    (* OP_LT *)
  opmode 1 0 OpArgK OpArgK iABC;    (* OP_LE *)
  opmode 1 1 OpArgR OpArgU iABC;    (* OP_TEST *)
  opmode 1 1 OpArgR OpArgU iABC;    (* OP_TESTSET *)
  opmode 0 1 OpArgU OpArgU iABC;    (* OP_CALL *)
  opmode 0 1 OpArgU OpArgU iABC;    (* OP_TAILCALL *)
  opmode 0 0 OpArgU OpArgN iABC;    (* OP_RETURN *)
  opmode 0 1 OpArgR OpArgN iAsBx;   (* OP_FORLOOP *)
  opmode 0 1 OpArgR OpArgN iAsBx;   (* OP_FORPREP *)
  opmode 1 0 OpArgN OpArgU iABC;    (* OP_TFORLOOP *)
  opmode 0 0 OpArgU OpArgU iABC;    (* OP_SETLIST *)
  opmode 0 0 OpArgN OpArgN iABC;    (* OP_CLOSE *)
  opmode 0 1 OpArgU OpArgN iABx;    (* OP_CLOSURE *)
  opmode 0 1 OpArgU OpArgN iABC     (* OP_VARARG *)
].

(** [luaP_opmodes[m]], for an opcode [m]: the callers check [m < NUM_OPCODES]. *)
Definition mode_of (m : Z) : Z := default 0 (luaP_opmodes !! Z.to_nat m).
Definition getOpMode (m : Z) : Z := Z.land (mode_of m) 3.
Definition getBMode (m : Z) : Z := Z.land (Z.shiftr (mode_of m) 4) 3.
Definition getCMode (m : Z) : Z := Z.land (Z.shiftr (mode_of m) 2) 3.
Definition testAMode (m : Z) : bool := bool_decide (Z.land (mode_of m) (Z.shiftl 1 6) <> 0).
Definition testTMode (m : Z) : bool := bool_decide (Z.land (mode_of m) (Z.shiftl 1 7) <> 0).

(** ** Proofs: fields *)

(** Field [p], [n] of a word. *)
Definition field (n p i : Z) : Z := Z.land (Z.shiftr i p) (Z.ones n).

Lemma field_bit n p i k : 0 <= n -> 0 <= p -> 0 <= k ->
  Z.testbit (field n p i) k = bool_decide (k < n) && Z.testbit i (k + p).
Proof. intros ? ? ?. by rw /field Z.land_spec Z.shiftr_spec // ones_bit // andb_comm. Qed.

Lemma small_bit n x k : 0 <= n -> 0 <= x < 2 ^ n -> n <= k -> Z.testbit x k = false.
Proof.
  intros ? ? ?. destruct (decide (x = 0)) as [->|]; [apply Z.bits_0|]. apply Z.bits_above_log2; [lia|].
  apply Z.log2_lt_pow2; [lia|]. assert (2 ^ n <= 2 ^ k) by (apply Z.pow_le_mono_r; lia). lia.
Qed.

(** A field that is known bit by bit. *)
Lemma field_eq n p i x : 0 <= n -> 0 <= p -> 0 <= x < 2 ^ n ->
  (forall k, 0 <= k < n -> Z.testbit i (k + p) = Z.testbit x k) -> field n p i = x.
Proof.
  intros ? ? ? Hbits. apply Z.bits_inj' => k ?. rw field_bit //. case_bool_decide; [by apply Hbits|].
  by rw (small_bit n x k); [lia..|].
Qed.

Lemma getters_field i :
  GET_OPCODE i = field SIZE_OP POS_OP i /\ GETARG_A i = field SIZE_A POS_A i /\
  GETARG_B i = field SIZE_B POS_B i /\ GETARG_C i = field SIZE_C POS_C i /\
  GETARG_Bx i = field SIZE_Bx POS_Bx i.
Proof. split_and!; reflexivity. Qed.

(** A valid field lies within the word. *)
Definition field_in (n p : Z) : Prop := 0 <= n /\ 0 <= p /\ n + p <= 32 /\
  MASK1 n p = Z.shiftl (Z.ones n) p /\ MASK0 n p = Z.ldiff (Z.ones 32) (Z.shiftl (Z.ones n) p).

Lemma fields_in :
  field_in SIZE_OP POS_OP /\ field_in SIZE_A POS_A /\ field_in SIZE_B POS_B /\
  field_in SIZE_C POS_C /\ field_in SIZE_Bx POS_Bx.
Proof. rw /field_in. split_and!; vm_compute; (discriminate || reflexivity). Qed.

Lemma shl_ones_bit n p k : 0 <= n -> 0 <= p -> 0 <= k ->
  Z.testbit (Z.shiftl (Z.ones n) p) k = bool_decide (p <= k < p + n).
Proof.
  intros ? ? ?. rw Z.shiftl_spec //. destruct (decide (p <= k)).
  - rw ones_bit; [lia..|]. apply bool_decide_ext. lia.
  - rw Z.testbit_neg_r; [lia|]. symmetry. apply bool_decide_eq_false. lia.
Qed.

(** The bits of a word one field of which was set. *)
Lemma set_field_bit n p i u k : field_in n p -> is_u32 i -> 0 <= u < 2 ^ n -> 0 <= k ->
  Z.testbit (set_field n p i u) k =
  if decide (p <= k < p + n) then Z.testbit u (k - p) else Z.testbit i k.
Proof.
  intros (? & ? & ? & HM1 & HM0) Hi Hu ?. rw /set_field HM1 HM0 Z.lor_spec !Z.land_spec Z.ldiff_spec.
  assert (is_u32 u). { rw /is_u32. assert (2 ^ n <= 2 ^ 32) by (apply Z.pow_le_mono_r; lia). lia. }
  rw (u32_small u) // /ushl u32_bit // shl_ones_bit // ones_bit // (Z.shiftl_spec u) //. case_decide.
  - rw !(bool_decide_eq_true_2 (_ <= _ < _)) // (bool_decide_eq_true_2 (k < 32)); [lia|].
    by rw /= !andb_false_r andb_true_r.
  - rw !(bool_decide_eq_false_2 (_ <= _ < _)) // andb_false_r orb_false_r andb_true_r.
    case_bool_decide; [by rw andb_true_r|]. by rw u32_high; [done|lia|].
Qed.

Lemma field_set n p i u : field_in n p -> is_u32 i -> 0 <= u < 2 ^ n -> field n p (set_field n p i u) = u.
Proof.
  intros Hf ? ?. pose proof Hf as (? & ? & _). apply field_eq; [done..|]. intros k ?. rw set_field_bit //; [lia|].
  case_decide; [|lia]. f_equal. lia.
Qed.

Lemma field_set_other n p n' p' i u : field_in n p -> 0 <= n' -> 0 <= p' -> is_u32 i -> 0 <= u < 2 ^ n ->
  p' + n' <= p \/ p + n <= p' -> field n' p' (set_field n p i u) = field n' p' i.
Proof.
  intros Hf ? ? ? ? ?. apply Z.bits_inj' => k ?. rw !field_bit //. case_bool_decide; [|done].
  rw set_field_bit //; [lia|]. case_decide; [lia|done].
Qed.

(** The bits of a shifted argument. *)
Lemma ushl_arg_bit n p u k : 0 <= n -> 0 <= p -> n + p <= 32 -> 0 <= u < 2 ^ n -> 0 <= k ->
  Z.testbit (ushl (u32 u) p) k = if decide (p <= k < p + n) then Z.testbit u (k - p) else false.
Proof.
  intros ? ? ? ? ?. rw u32_small.
  { rw /is_u32. assert (2 ^ n <= 2 ^ 32) by (apply Z.pow_le_mono_r; lia). lia. }
  rw /ushl u32_bit // Z.shiftl_spec //. case_decide.
  - by rw bool_decide_eq_true_2; [lia|].
  - destruct (decide (k < p)); [rw Z.testbit_neg_r; [lia|]; by rw andb_false_r|].
    rw (small_bit n u); [lia..|]. by rw andb_false_r.
Qed.

(** The registers and constants an RK operand can name. *)
Lemma rk_cases x : 0 <= x <= MAXINDEXRK ->
  ISK x = false /\ ISK (RKASK x) = true /\ INDEXK (RKASK x) = x.
Proof.
  intros Hx. assert (forallb (fun n => let x := Z.of_nat n in
    negb (ISK x) && ISK (RKASK x) && bool_decide (INDEXK (RKASK x) = x)) (seq 0 256) = true) as Hall
    by (vm_compute; reflexivity).
  rw forallb_forall in Hall. change MAXINDEXRK with 255 in Hx.
  specialize (Hall (Z.to_nat x) ltac:(apply in_seq; lia)). cbv zeta in Hall. rw Z2Nat.id in Hall; [lia|].
  apply andb_prop in Hall as [[H1%negb_true_iff H2]%andb_prop H3%bool_decide_eq_true_1]. done.
Qed.

(** The fields of a disjunction of shifted arguments. *)
Ltac created_field n :=
  apply field_eq; [done..|]; intros k Hk; rw ?Z.lor_spec;
  rw (ushl_arg_bit 6 0) ?(ushl_arg_bit 8 6) ?(ushl_arg_bit 9 23) ?(ushl_arg_bit n 14);
  try lia; repeat (case_decide; try lia); rw ?orb_false_r ?orb_false_l; f_equal; lia.

Lemma CREATE_ABC_fields o a b c : 0 <= o < 2 ^ 6 -> 0 <= a < 2 ^ 8 -> 0 <= b < 2 ^ 9 -> 0 <= c < 2 ^ 9 ->
  let j := CREATE_ABC o a b c in
  GET_OPCODE j = o /\ GETARG_A j = a /\ GETARG_B j = b /\ GETARG_C j = c.
Proof.
  intros ? ? ? ? j. destruct (getters_field j) as (-> & -> & -> & -> & _). rw /j /CREATE_ABC.
  change SIZE_OP with 6. change SIZE_A with 8. change SIZE_B with 9. change SIZE_C with 9.
  change POS_OP with 0. change POS_A with 6. change POS_B with 23. change POS_C with 14.
  split_and!; created_field 9.
Qed.

Lemma CREATE_ABx_fields o a bx : 0 <= o < 2 ^ 6 -> 0 <= a < 2 ^ 8 -> 0 <= bx < 2 ^ 18 ->
  let j := CREATE_ABx o a bx in GET_OPCODE j = o /\ GETARG_A j = a /\ GETARG_Bx j = bx.
Proof.
  intros ? ? ? j. destruct (getters_field j) as (-> & -> & _ & _ & ->). rw /j /CREATE_ABx.
  change SIZE_OP with 6. change SIZE_A with 8. change SIZE_Bx with 18.
  change POS_OP with 0. change POS_A with 6. change POS_Bx with 14.
  split_and!; created_field 18.
Qed.

(** The macros on instructions agree: an instruction made of an opcode and arguments in their
    ranges has them, setting a field sets that field and no other one, the signed argument keeps its
    value, and a constant index stored in an RK operand is told from a register and read back. *)
Theorem instruction_fields (i o a b c bx sbx x : Z) :
  is_u32 i -> 0 <= o < 64 -> 0 <= a <= MAXARG_A -> 0 <= b <= MAXARG_B -> 0 <= c <= MAXARG_C ->
  0 <= bx <= MAXARG_Bx -> - MAXARG_sBx <= sbx <= MAXARG_sBx + 1 -> 0 <= x <= MAXINDEXRK ->
  (let j := CREATE_ABC o a b c in
   GET_OPCODE j = o /\ GETARG_A j = a /\ GETARG_B j = b /\ GETARG_C j = c) /\
  (let j := CREATE_ABx o a bx in GET_OPCODE j = o /\ GETARG_A j = a /\ GETARG_Bx j = bx) /\
  (let j := SET_OPCODE i o in
   GET_OPCODE j = o /\ GETARG_A j = GETARG_A i /\ GETARG_Bx j = GETARG_Bx i) /\
  (let j := SETARG_A i a in
   GETARG_A j = a /\ GET_OPCODE j = GET_OPCODE i /\ GETARG_Bx j = GETARG_Bx i) /\
  (let j := SETARG_B i b in
   GETARG_B j = b /\ GET_OPCODE j = GET_OPCODE i /\ GETARG_A j = GETARG_A i /\ GETARG_C j = GETARG_C i) /\
  (let j := SETARG_C i c in
   GETARG_C j = c /\ GET_OPCODE j = GET_OPCODE i /\ GETARG_A j = GETARG_A i /\ GETARG_B j = GETARG_B i) /\
  (let j := SETARG_sBx i sbx in
   GETARG_sBx j = sbx /\ GET_OPCODE j = GET_OPCODE i /\ GETARG_A j = GETARG_A i) /\
  (ISK x = false /\ ISK (RKASK x) = true /\ INDEXK (RKASK x) = x).
Proof.
  intros Hi Ho Ha Hb Hc Hbx Hsbx Hx. destruct fields_in as (FO & FA & FB & FC & FX).
  assert (0 <= b < 2 ^ 9) by (change (2 ^ 9) with (MAXARG_B + 1); lia).
  assert (0 <= c < 2 ^ 9) by (change (2 ^ 9) with (MAXARG_C + 1); lia).
  assert (0 <= a < 2 ^ 8) by (change (2 ^ 8) with (MAXARG_A + 1); lia).
  assert (0 <= bx < 2 ^ 18) by (change (2 ^ 18) with (MAXARG_Bx + 1); lia).
  assert (0 <= sbx + MAXARG_sBx < 2 ^ 18) by (change (2 ^ 18) with (MAXARG_sBx + MAXARG_sBx + 2); lia).
  split; [by apply CREATE_ABC_fields|]. split; [by apply CREATE_ABx_fields|].
  rw /SETARG_sBx u32_small; [rw /is_u32; lia|]. rw /GETARG_sBx.
  change GET_OPCODE with (field SIZE_OP POS_OP). change GETARG_A with (field SIZE_A POS_A).
  change GETARG_B with (field SIZE_B POS_B). change GETARG_C with (field SIZE_C POS_C).
  change GETARG_Bx with (field SIZE_Bx POS_Bx).
  rw /SET_OPCODE /SETARG_A /SETARG_B /SETARG_C /SETARG_Bx.
  rw (field_set _ _ i o FO) // (field_set _ _ i a FA) // (field_set _ _ i b FB) // (field_set _ _ i c FC) //.
  rw (field_set _ _ i (sbx + MAXARG_sBx) FX) // !(field_set_other _ _ _ _ i _ FO) //; [right; done..|].
  rw !(field_set_other _ _ _ _ i _ FA) //; [by left|by right|].
  rw !(field_set_other _ _ _ _ i _ FB) //; [by left..|].
  rw !(field_set_other _ _ _ _ i _ FC) //; [by left|by left|by right|].
  rw !(field_set_other _ _ _ _ i _ FX) //; [by left..|].
  split_and!; try reflexivity; [lia|by apply rk_cases..].
Qed.

Lemma instruction_fields_witness : GETARG_sBx (SETARG_sBx (CREATE_ABx OP_JMP 0 0) (-7)) = -7.
Proof.
  refine (proj1 (proj1 (proj2 (proj2 (proj2 (proj2 (proj2 (proj2
    (instruction_fields (CREATE_ABx OP_JMP 0 0) 0 0 0 0 0 (-7) 0 _ _ _ _ _ _ _ _)))))))));
    split; vm_compute; (discriminate || reflexivity).
Defined.
