(* ===== verification/LuaCheck.v ===== *)
(** LuaCheck: the checker of precompiled code, symbexec() of src/liblua/src/ldebug.c,
    and what accepted code guarantees to the main loop of lvm.c.

    [check(x)] returns 0 from the function when [x] is false: the computations
    below return [None] then. Reading outside [code], [k] or [p] is a fault.
    Sums of a position and an argument are exact: they fit an [int] for code
    vectors of up to 2^31 - 2^18 instructions. *)

From Corelib Require Import ssreflect.
From stdpp Require Import base list numbers.
From Stdlib Require Import ZArith Lia.
From S2P Require Import Prelude LuaObject LuaOpcodes.

Definition MAXSTACK : Z := 250.
Definition VARARG_HASARG : Z := 1.
Definition VARARG_ISVARARG : Z := 2.
Definition VARARG_NEEDSARG : Z := 4.
Definition LUA_MULTRET : Z := -1.

(** ** Checks *)

Definition checked (A : Type) : Type := res (option A).

#[export] Instance checked_ret : MRet checked := fun A a => Ok (Some a).
#[export] Instance checked_bind : MBind checked := fun A B k c =>
  match c with
  | Ok (Some a) => k a
  | Ok None => Ok None
  | Err f => Err f
  end.

Definition check (b : bool) : checked unit := if b then Ok (Some ()) else Ok None.
Definition fault_of {A} (f : fault) : checked A := Err f.

(** An element of a vector, by its index. *)
Definition at_index {A} (v : list A) (i : Z) : checked A :=
  if decide (0 <= i) then
    match v !! Z.to_nat i with
    | Some a => Ok (Some a)
    | None => Err OutOfBounds
    end
  else Err OutOfBounds.

Section checker.
Context (pt : Proto).

Definition sizecode : Z := length (p_code pt).
Definition sizek : Z := length (p_k pt).
Definition sizep : Z := length (p_p pt).
Definition code_at (pc : Z) : checked Z := at_index (p_code pt) pc.

Definition checkreg (reg : Z) : checked unit := check (bool_decide (reg < p_maxstacksize pt)).

Definition precheck : checked unit :=
  _ ← check (bool_decide (p_maxstacksize pt <= MAXSTACK));
  _ ← check (bool_decide (p_numparams pt + Z.land (p_is_vararg pt) VARARG_HASARG <= p_maxstacksize pt));
  _ ← check (bool_decide (Z.land (p_is_vararg pt) VARARG_NEEDSARG = 0) ||
             bool_decide (Z.land (p_is_vararg pt) VARARG_HASARG <> 0));
  _ ← check (bool_decide (length (p_upvalues pt) <= p_nups pt));
  _ ← check (bool_decide (length (p_lineinfo pt) = sizecode :> Z) ||
             bool_decide (length (p_lineinfo pt) = 0 :> Z));
  _ ← check (bool_decide (sizecode > 0));
  i ← code_at (sizecode - 1);
  check (bool_decide (GET_OPCODE i = OP_RETURN)).

Definition luaG_checkopenop (i : Z) : bool :=
  let op := GET_OPCODE i in
  if decide (op = OP_CALL \/ op = OP_TAILCALL \/ op = OP_RETURN \/ op = OP_SETLIST)
  then bool_decide (GETARG_B i = 0) else false.

Definition checkopenop (pc : Z) : checked bool := i ← code_at (pc + 1); mret (luaG_checkopenop i).

Definition checkArgMode (r mode : Z) : checked unit :=
  if decide (mode = OpArgN) then check (bool_decide (r = 0))
  else if decide (mode = OpArgR) then checkreg r
  else if decide (mode = OpArgK) then
    check (if ISK r then bool_decide (INDEXK r < sizek) else bool_decide (r < p_maxstacksize pt))
  else mret ().

(** A word that looks like a SETLIST whose count is in the next word. *)
Definition setlist0 (d : Z) : bool := bool_decide (GET_OPCODE d = OP_SETLIST) && bool_decide (GETARG_C d = 0).

(** The loop that counts such words before [dest]; it stops after [dest] turns. *)
Fixpoint setlist_run (fuel : nat) (dest j : Z) : checked Z :=
  match fuel with
  | O => fault_of OutOfFuel
  | S fuel =>
      if decide (j < dest) then
        d ← code_at (dest - 1 - j);
        if setlist0 d then setlist_run fuel dest (j + 1) else mret j
      else mret j
  end.

(** The first switch: the arguments, by the mode of the instruction. *)
Definition check_args (pc i op : Z) : checked (Z * Z) :=
  if decide (getOpMode op = iABC) then
    let b := GETARG_B i in
    let c := GETARG_C i in
    _ ← checkArgMode b (getBMode op);
    _ ← checkArgMode c (getCMode op);
    mret (b, c)
  else if decide (getOpMode op = iABx) then
    let b := GETARG_Bx i in
    _ ← (if decide (getBMode op = OpArgK) then check (bool_decide (b < sizek)) else mret ());
    mret (b, 0)
  else if decide (getOpMode op = iAsBx) then
    let b := GETARG_sBx i in
    _ ← (if decide (getBMode op = OpArgR) then
           let dest := pc + 1 + b in
           _ ← check (bool_decide (0 <= dest < sizecode));
           if decide (dest > 0) then
             j ← setlist_run (S (Z.to_nat dest)) dest 0;
             check (bool_decide (Z.land j 1 = 0))
           else mret ()
         else mret ());
    mret (b, 0)
  else mret (0, 0).

(** The loop over the pseudo-instructions that follow a CLOSURE. *)
Fixpoint check_pseudo (n : nat) (pc j : Z) : checked unit :=
  match n with
  | O => mret ()
  | S n =>
      i ← code_at (pc + j);
      let op1 := GET_OPCODE i in
      _ ← check (bool_decide (op1 = OP_GETUPVAL) || bool_decide (op1 = OP_MOVE));
      check_pseudo n pc (j + 1)
  end.

Context (lastpc reg : Z).

(** [if (b) last = pc] *)
Definition set_last (b : bool) (pc last : Z) : Z := if b then pc else last.

(** Cases of the second switch: the new values of [pc] and [last]. *)
Definition check_loadbool (pc c last : Z) : checked (Z * Z) :=
  _ ← (if decide (c = 1) then
         _ ← check (bool_decide (pc + 2 < sizecode));
         i ← code_at (pc + 1);
         check (bool_decide (GET_OPCODE i <> OP_SETLIST) || bool_decide (GETARG_C i <> 0))
       else mret ());
  mret (pc, last).

Definition check_global (pc b last : Z) : checked (Z * Z) :=
  o ← at_index (p_k pt) b;
  _ ← check (bool_decide (ttype o = LUA_TSTRING)); mret (pc, last).

Definition check_jump (pc op a b last : Z) : checked (Z * Z) :=
  _ ← (if decide (op = OP_JMP) then mret () else checkreg (a + 3));
  let dest := pc + 1 + b in
  mret (if decide (reg <> NO_REG /\ pc < dest /\ dest <= lastpc) then pc + b else pc, last).

Definition check_call (pc a b c last : Z) : checked (Z * Z) :=
  _ ← (if decide (b <> 0) then checkreg (a + b - 1) else mret ());
  let c := c - 1 in
  _ ← (if decide (c = LUA_MULTRET) then ok ← checkopenop pc; check ok
       else if decide (c <> 0) then checkreg (a + c - 1) else mret ());
  mret (pc, set_last (bool_decide (reg >= a)) pc last).

Definition check_setlist (pc a b c last : Z) : checked (Z * Z) :=
  _ ← (if decide (b > 0) then checkreg (a + b) else mret ());
  if decide (c = 0) then
    let pc := pc + 1 in
    _ ← check (bool_decide (pc < sizecode - 1)); mret (pc, last)
  else mret (pc, last).

Definition check_closure (pc b last : Z) : checked (Z * Z) :=
  _ ← check (bool_decide (b < sizep));
  f ← at_index (p_p pt) b;
  let nup := p_nups f in
  _ ← check (bool_decide (pc + nup < sizecode));
  _ ← check_pseudo (Z.to_nat nup) pc 1;
  mret (if decide (reg <> NO_REG) then pc + nup else pc, last).

Definition check_vararg (pc a b last : Z) : checked (Z * Z) :=
  _ ← check (bool_decide (Z.land (p_is_vararg pt) VARARG_ISVARARG <> 0) &&
             bool_decide (Z.land (p_is_vararg pt) VARARG_NEEDSARG = 0));
  let b := b - 1 in
  _ ← (if decide (b = LUA_MULTRET) then ok ← checkopenop pc; check ok else mret ());
  _ ← checkreg (a + b - 1);
  mret (pc, last).

(** The second switch. *)
Definition check_op (pc op a b c last : Z) : checked (Z * Z) :=
  if decide (op = OP_LOADBOOL) then check_loadbool pc c last
  else if decide (op = OP_LOADNIL) then mret (pc, set_last (bool_decide (a <= reg <= b)) pc last)
  else if decide (op = OP_GETUPVAL \/ op = OP_SETUPVAL) then
    _ ← check (bool_decide (b < p_nups pt)); mret (pc, last)
  else if decide (op = OP_GETGLOBAL \/ op = OP_SETGLOBAL) then check_global pc b last
  else if decide (op = OP_SELF) then
    _ ← checkreg (a + 1); mret (pc, set_last (bool_decide (reg = a + 1)) pc last)
  else if decide (op = OP_CONCAT) then _ ← check (bool_decide (b < c)); mret (pc, last)
  else if decide (op = OP_TFORLOOP) then
    _ ← check (bool_decide (c >= 1));
    _ ← checkreg (a + 2 + c);
    mret (pc, set_last (bool_decide (reg >= a + 2)) pc last)
  else if decide (op = OP_FORLOOP \/ op = OP_FORPREP \/ op = OP_JMP) then check_jump pc op a b last
  else if decide (op = OP_CALL \/ op = OP_TAILCALL) then check_call pc a b c last
  else if decide (op = OP_RETURN) then
    let b := b - 1 in
    _ ← (if decide (b > 0) then checkreg (a + b - 1) else mret ());
    mret (pc, last)
  else if decide (op = OP_SETLIST) then check_setlist pc a b c last
  else if decide (op = OP_CLOSURE) then check_closure pc b last
  else if decide (op = OP_VARARG) then check_vararg pc a b last
  else mret (pc, last).

(** One turn of the main loop, without the increment of [pc]. *)
Definition check_instr (pc last : Z) : checked (Z * Z) :=
  i ← code_at pc;
  let op := GET_OPCODE i in
  let a := GETARG_A i in
  _ ← check (bool_decide (op < NUM_OPCODES));
  _ ← checkreg a;
  '(b, c) ← check_args pc i op;
  let last := if testAMode op then set_last (bool_decide (a = reg)) pc last else last in
  _ ← (if testTMode op then
         _ ← check (bool_decide (pc + 2 < sizecode));
         i1 ← code_at (pc + 1);
         check (bool_decide (GET_OPCODE i1 = OP_JMP))
       else mret ());
  check_op pc op a b c last.

Fixpoint symbexec_loop (fuel : nat) (pc last : Z) : checked Z :=
  match fuel with
  | O => fault_of OutOfFuel
  | S fuel =>
      if decide (pc < lastpc) then
        '(pc, last) ← check_instr pc last;
        symbexec_loop fuel (pc + 1) last
      else mret last
  end.

(** [pc] grows in every turn, so that [lastpc] turns are enough. *)
Definition symbexec : res Z :=
  match (_ ← precheck; last ← symbexec_loop (S (Z.to_nat lastpc)) 0 (sizecode - 1); code_at last) with
  | Ok (Some i) => Ok i
  | Ok None => Ok 0
  | Err f => Err f
  end.
End checker.

Definition luaG_checkcode (pt : Proto) : res bool :=
  i ← symbexec pt (sizecode pt) NO_REG; Ok (negb (bool_decide (i = 0))).

(** ** Reasoning about checks *)

(** The computation has no fault, and its result, if no check failed, satisfies [P]. *)
Definition wp {A} (m : checked A) (P : A -> Prop) : Prop :=
  match m with
  | Ok (Some a) => P a
  | Ok None => True
  | Err _ => False
  end.

Lemma wp_bind {A B} (m : checked A) (k : A -> checked B) P :
  wp m (fun a => wp (k a) P) -> wp (m ≫= k) P.
Proof. by destruct m as [[a|]|f]. Qed.

Lemma wp_mono {A} (m : checked A) (P Q : A -> Prop) : (forall a, P a -> Q a) -> wp m P -> wp m Q.
Proof. destruct m as [[a|]|f]; simpl; auto. Qed.

Lemma wp_ret {A} (a : A) (P : A -> Prop) : P a -> wp (mret a) P.
Proof. done. Qed.

Lemma wp_check b (P : unit -> Prop) : (b = true -> P ()) -> wp (check b) P.
Proof. destruct b; simpl; auto. Qed.

Lemma wp_at_index {A} (v : list A) i (P : A -> Prop) :
  0 <= i < length v -> (forall a, v !! Z.to_nat i = Some a -> P a) -> wp (at_index v i) P.
Proof.
  intros Hi HP. rw /at_index. case_decide; [|lia]. destruct (v !! Z.to_nat i) as [a|] eqn:E; [by apply HP|].
  apply lookup_ge_None in E. lia.
Qed.

(** One command of the checker. *)
Ltac wp_step :=
  match goal with
  | |- wp (_ ≫= _) _ => apply wp_bind
  | |- wp (mret _) _ => apply wp_ret
  | |- wp (check _) _ => apply wp_check; intros ?
  | |- wp (checkreg _ _) _ => apply wp_check; intros ?
  | |- wp (if decide ?P then _ else _) _ => destruct (decide P)
  | |- wp (let '(_, _) := ?x in _) _ => destruct x
  end.

Ltac bools :=
  repeat match goal with
  | H : (_ && _) = true |- _ => apply andb_prop in H as [? ?]
  | H : bool_decide _ = true |- _ => apply bool_decide_eq_true_1 in H
  end.

Ltac op_nums :=
  cbv [OP_MOVE OP_LOADK OP_LOADBOOL OP_LOADNIL OP_GETUPVAL OP_GETGLOBAL OP_GETTABLE OP_SETGLOBAL OP_SETUPVAL
    OP_SETTABLE OP_NEWTABLE OP_SELF OP_ADD OP_SUB OP_MUL OP_DIV OP_MOD OP_POW OP_UNM OP_NOT OP_LEN OP_CONCAT
    OP_JMP OP_EQ OP_LT OP_LE OP_TEST OP_TESTSET OP_CALL OP_TAILCALL OP_RETURN OP_FORLOOP OP_FORPREP
    OP_TFORLOOP OP_SETLIST OP_CLOSE OP_CLOSURE OP_VARARG NUM_OPCODES] in *.

(** All the claims about other opcodes than that of [i] hold. *)
Ltac other_ops H := constructor; intros Hop; try (exfalso; clear -Hop H; op_nums; lia).

(** The opcode, known from [H], is not another one. *)
Tactic Notation "op_neq" ident(H) := clear -H; op_nums; lia.

(** ** Runs of words that look like a SETLIST with a count *)

Section facts.
Context (pt : Proto).

Fixpoint srun (n : nat) : nat :=
  match n with
  | O => O
  | S n => match p_code pt !! n with
           | Some d => if setlist0 d then S (srun n) else O
           | None => O
           end
  end.

Lemma setlist_run_wp (fuel : nat) (dest j : Z) :
  0 <= j <= dest -> dest <= sizecode pt -> dest - j < fuel ->
  wp (setlist_run pt fuel dest j) (fun j' => j' = j + srun (Z.to_nat (dest - j))).
Proof.
  rw /sizecode. revert j. induction fuel as [|fuel IH] => j Hj Hd Hf; simpl; [lia|]. wp_step.
  - wp_step. apply wp_at_index; [lia|]. intros d Hlk.
    replace (Z.to_nat (dest - j)) with (S (Z.to_nat (dest - 1 - j))) by lia. simpl. rw Hlk.
    destruct (setlist0 d); [|wp_step; lia].
    eapply wp_mono; [|apply IH; lia]. intros j' ->.
    replace (dest - (j + 1)) with (dest - 1 - j) by lia. lia.
  - wp_step. replace (dest - j) with 0 by lia. simpl. lia.
Qed.

(** ** The linear scan *)

(** The words the checker looks at as instructions. *)
Definition scan_next (pc : nat) (i : Z) : nat := if setlist0 i then S (S pc) else S pc.

Inductive scanned : nat -> nat -> Prop :=
| scanned_refl pc : scanned pc pc
| scanned_step pc i pc' :
    p_code pt !! pc = Some i -> scanned (scan_next pc i) pc' -> scanned pc pc'.

Lemma scanned_snoc pc pc' i :
  scanned pc pc' -> p_code pt !! pc' = Some i -> scanned pc (scan_next pc' i).
Proof. induction 1; eauto using scanned. Qed.

(** Counting the words before a position decides whether the scan stops there. *)
Lemma srun_scanned n : (n <= length (p_code pt))%nat ->
  if Nat.even (srun n) then scanned 0 n else scanned 0 (S n).
Proof.
  induction n as [|n IH] => Hn; [constructor|]. specialize (IH ltac:(lia)). simpl srun.
  destruct (lookup_lt_is_Some_2 (p_code pt) n) as [d Hd]; [lia|]. rw Hd.
  destruct (setlist0 d) eqn:Hs.
  - rw Nat.even_succ -Nat.negb_even. destruct (Nat.even (srun n)); simpl; [|done].
    apply (scanned_snoc _ _ d) in IH; [|done]. by rw /scan_next Hs in IH.
  - simpl. destruct (Nat.even (srun n)); [|done].
    apply (scanned_snoc _ _ d) in IH; [|done]. by rw /scan_next Hs in IH.
Qed.

(** ** What acceptance says of one instruction *)

Abbreviation maxstack := (p_maxstacksize pt).
Abbreviation word := (fun pc : Z => p_code pt !! Z.to_nat pc).

(** A jump to [dest] lands on an instruction. *)
Definition jump_ok (dest : Z) : Prop :=
  0 <= dest < sizecode pt /\ Nat.even (srun (Z.to_nat dest)) = true.

Definition operand_ok (r mode : Z) : Prop :=
  (mode = OpArgN -> r = 0) /\ (mode = OpArgR -> r < maxstack) /\
  (mode = OpArgK -> if ISK r then INDEXK r < sizek pt else r < maxstack).

(** The arguments [b] and [c] of the checker. *)
Definition arg_b (i : Z) : Z :=
  let m := getOpMode (GET_OPCODE i) in
  if decide (m = iABC) then GETARG_B i else if decide (m = iABx) then GETARG_Bx i
  else if decide (m = iAsBx) then GETARG_sBx i else 0.
Definition arg_c (i : Z) : Z := if decide (getOpMode (GET_OPCODE i) = iABC) then GETARG_C i else 0.

Record args_ok (pc i : Z) : Prop := {
  ao_abc : getOpMode (GET_OPCODE i) = iABC ->
    operand_ok (GETARG_B i) (getBMode (GET_OPCODE i)) /\ operand_ok (GETARG_C i) (getCMode (GET_OPCODE i));
  ao_abx : getOpMode (GET_OPCODE i) = iABx -> getBMode (GET_OPCODE i) = OpArgK -> GETARG_Bx i < sizek pt;
  ao_jump : getOpMode (GET_OPCODE i) = iAsBx -> getBMode (GET_OPCODE i) = OpArgR ->
    jump_ok (pc + 1 + GETARG_sBx i)
}.

Lemma checkArgMode_wp r mode : wp (checkArgMode pt r mode) (fun _ => operand_ok r mode).
Proof.
  rw /checkArgMode /operand_ok. repeat wp_step; bools; subst; split_and!; try done; try (intros ?; discriminate).
  intros _. destruct (ISK r); by bools.
Qed.

Lemma land1_even (n : nat) : Z.land n 1 = 0 -> Nat.even n = true.
Proof.
  rw (Z.land_ones _ 1) // => Hm. apply Nat.even_spec. exists (Z.to_nat (n / 2)).
  pose proof (Z.div_mod n 2 ltac:(lia)). change (2 ^ 1) with 2 in Hm. lia.
Qed.

Lemma check_args_wp pc i :
  0 <= pc -> wp (check_args pt pc i (GET_OPCODE i)) (fun '(b, c) => b = arg_b i /\ c = arg_c i /\ args_ok pc i).
Proof.
  intros Hpc. rw /check_args /arg_b /arg_c. case_decide as H0; [|case_decide as H1; [|case_decide as H2]].
  - wp_step. eapply wp_mono; [|apply checkArgMode_wp]. intros [] Hb. simpl.
    wp_step. eapply wp_mono; [|apply checkArgMode_wp]. intros [] Hc. simpl.
    split; [reflexivity|]. split; [reflexivity|]. constructor; intros Hm; [by split|rw H0 in Hm; discriminate Hm..].
  - wp_step. apply (wp_mono _ (fun _ => getBMode (GET_OPCODE i) = OpArgK -> GETARG_Bx i < sizek pt)).
    { intros _ Hb. simpl. split; [reflexivity|]. split; [reflexivity|].
      constructor; intros Hm; [rw H1 in Hm; discriminate Hm|exact Hb|rw H1 in Hm; discriminate Hm]. }
    repeat wp_step; bools; intros ?; [assumption|contradiction].
  - wp_step. apply (wp_mono _ (fun _ => getBMode (GET_OPCODE i) = OpArgR -> jump_ok (pc + 1 + GETARG_sBx i))).
    { intros _ Hj. simpl. split; [reflexivity|]. split; [reflexivity|].
      constructor; intros Hm; [rw H2 in Hm; discriminate Hm..|exact Hj]. }
    set (dest := pc + 1 + GETARG_sBx i). repeat wp_step; bools; intros; [| |contradiction].
    + eapply wp_mono; [|apply setlist_run_wp; lia]. intros j ->. apply wp_check. intros Hj%bool_decide_eq_true_1 _.
      split; [assumption|]. apply land1_even. by rw Z.add_0_l Z.sub_0_r in Hj.
    + split; [assumption|]. by replace dest with 0 by lia.
  - wp_step. split; [reflexivity|]. split; [reflexivity|]. constructor; intros; contradiction.
Qed.

(** The word after [pc], which an open call or a skip needs. *)
Definition next_word (pc : Z) (P : Z -> Prop) : Prop := exists w, p_code pt !! Z.to_nat (pc + 1) = Some w /\ P w.

(** What the second switch establishes. *)
Record op_ok (pc i : Z) : Prop := {
  oo_loadbool : GET_OPCODE i = OP_LOADBOOL -> arg_c i = 1 ->
    pc + 2 < sizecode pt /\ next_word pc (fun w => setlist0 w = false);
  oo_upval : GET_OPCODE i = OP_GETUPVAL \/ GET_OPCODE i = OP_SETUPVAL -> arg_b i < p_nups pt;
  oo_global : GET_OPCODE i = OP_GETGLOBAL \/ GET_OPCODE i = OP_SETGLOBAL ->
    exists s, p_k pt !! Z.to_nat (arg_b i) = Some (KString s);
  oo_self : GET_OPCODE i = OP_SELF -> GETARG_A i + 1 < maxstack;
  oo_concat : GET_OPCODE i = OP_CONCAT -> arg_b i < arg_c i;
  oo_tforloop : GET_OPCODE i = OP_TFORLOOP -> 1 <= arg_c i /\ GETARG_A i + 2 + arg_c i < maxstack;
  oo_for : GET_OPCODE i = OP_FORLOOP \/ GET_OPCODE i = OP_FORPREP -> GETARG_A i + 3 < maxstack;
  oo_call : GET_OPCODE i = OP_CALL \/ GET_OPCODE i = OP_TAILCALL ->
    (arg_b i <> 0 -> GETARG_A i + arg_b i - 1 < maxstack) /\
    (arg_c i = 0 -> next_word pc (fun w => luaG_checkopenop w = true)) /\
    (2 <= arg_c i -> GETARG_A i + arg_c i - 2 < maxstack);
  oo_return : GET_OPCODE i = OP_RETURN -> 2 <= arg_b i -> GETARG_A i + arg_b i - 2 < maxstack;
  oo_setlist : GET_OPCODE i = OP_SETLIST ->
    (0 < arg_b i -> GETARG_A i + arg_b i < maxstack) /\ (arg_c i = 0 -> pc + 1 < sizecode pt - 1);
  oo_closure : GET_OPCODE i = OP_CLOSURE ->
    exists f, p_p pt !! Z.to_nat (arg_b i) = Some f /\ pc + p_nups f < sizecode pt /\
      forall j, 1 <= j <= p_nups f -> exists w, p_code pt !! Z.to_nat (pc + j) = Some w /\
        (GET_OPCODE w = OP_GETUPVAL \/ GET_OPCODE w = OP_MOVE);
  oo_vararg : GET_OPCODE i = OP_VARARG ->
    Z.land (p_is_vararg pt) VARARG_ISVARARG <> 0 /\ GETARG_A i + arg_b i - 2 < maxstack /\
    (arg_b i = 0 -> next_word pc (fun w => luaG_checkopenop w = true))
}.

Lemma checkopenop_wp pc : 0 <= pc -> pc + 1 < sizecode pt ->
  wp (checkopenop pt pc) (fun ok => ok = true -> next_word pc (fun w => luaG_checkopenop w = true)).
Proof.
  rw /sizecode /checkopenop => ? ?. wp_step. apply wp_at_index; [lia|]. intros w ?. wp_step. by exists w.
Qed.

Lemma check_pseudo_wp (n : nat) (pc j : Z) : 0 <= pc -> 1 <= j -> pc + j + n <= sizecode pt ->
  wp (check_pseudo pt n pc j) (fun _ => forall k, j <= k < j + n ->
    exists w, p_code pt !! Z.to_nat (pc + k) = Some w /\ (GET_OPCODE w = OP_GETUPVAL \/ GET_OPCODE w = OP_MOVE)).
Proof.
  rw /sizecode => ?. revert j. induction n as [|n IH] => j ? ?; cbn [check_pseudo]; [apply wp_ret; intros; lia|].
  wp_step. apply wp_at_index; [lia|]. intros w Hw. wp_step. apply wp_check. intros Hop.
  eapply wp_mono; [|apply IH; lia]. intros [] Hrest k Hk.
  destruct (decide (k = j)) as [->|]; [|apply Hrest; lia]. exists w. split; [exact Hw|].
  apply orb_prop in Hop as [Hop|Hop]; bools; auto.
Qed.

Lemma getarg_nonneg i : 0 <= GETARG_A i /\ 0 <= GETARG_B i /\ 0 <= GETARG_C i /\ 0 <= GETARG_Bx i.
Proof. split_and!; apply Z.land_nonneg; right; vm_compute; discriminate. Qed.

Lemma arg_c_nonneg i : 0 <= arg_c i.
Proof. rw /arg_c. destruct (getarg_nonneg i) as (_ & _ & ? & _). case_decide; lia. Qed.

(** The mode of an opcode decides its arguments. *)
Lemma args_abc i : getOpMode (GET_OPCODE i) = iABC -> arg_b i = GETARG_B i /\ arg_c i = GETARG_C i.
Proof. rw /arg_b /arg_c => ->. done. Qed.
Lemma args_abx i : getOpMode (GET_OPCODE i) = iABx -> arg_b i = GETARG_Bx i.
Proof. rw /arg_b => ->. done. Qed.
Lemma args_asbx i : getOpMode (GET_OPCODE i) = iAsBx -> arg_b i = GETARG_sBx i.
Proof. rw /arg_b => ->. done. Qed.

Lemma op_ok_trivial pc i :
  ~ (GET_OPCODE i = OP_LOADBOOL \/ GET_OPCODE i = OP_GETUPVAL \/ GET_OPCODE i = OP_SETUPVAL \/
     GET_OPCODE i = OP_GETGLOBAL \/ GET_OPCODE i = OP_SETGLOBAL \/ GET_OPCODE i = OP_SELF \/
     GET_OPCODE i = OP_CONCAT \/ GET_OPCODE i = OP_TFORLOOP \/ GET_OPCODE i = OP_FORLOOP \/
     GET_OPCODE i = OP_FORPREP \/ GET_OPCODE i = OP_CALL \/ GET_OPCODE i = OP_TAILCALL \/
     GET_OPCODE i = OP_RETURN \/ GET_OPCODE i = OP_SETLIST \/ GET_OPCODE i = OP_CLOSURE \/
     GET_OPCODE i = OP_VARARG) -> op_ok pc i.
Proof. intros H. constructor; intros Hop; tauto. Qed.

Lemma not_setlist0 i : GET_OPCODE i <> OP_SETLIST -> setlist0 i = false.
Proof. intros H. rw /setlist0. by case_bool_decide. Qed.

(** The result of one turn: the position and the last instruction that changed the register. *)
Definition turn_ok (reg pc last i : Z) (r : Z * Z) : Prop :=
  let '(pc', last') := r in
  pc <= pc' /\ (last' = last \/ last' = pc /\ GET_OPCODE i <> OP_MOVE) /\
  (reg = NO_REG -> pc' = if setlist0 i then pc + 1 else pc).

Lemma turn_stay reg pc last i b : GET_OPCODE i <> OP_SETLIST -> GET_OPCODE i <> OP_MOVE ->
  turn_ok reg pc last i (pc, set_last b pc last).
Proof. intros Hs Hm. rw /turn_ok /set_last not_setlist0 //. destruct b; split_and!; (done || lia || tauto). Qed.

Lemma turn_keep reg pc last i : GET_OPCODE i <> OP_SETLIST -> turn_ok reg pc last i (pc, last).
Proof. intros Hs. rw /turn_ok not_setlist0 //. split_and!; (done || lia || tauto). Qed.

Context (Hnups : Forall (fun f => 0 <= p_nups f) (p_p pt)) (lastpc reg : Z).

(** What is known when the second switch is reached. *)
Context (pc i last : Z) (Hpc : 0 <= pc < sizecode pt).
Context (Hret : GET_OPCODE i <> OP_RETURN -> pc + 1 < sizecode pt) (Hargs : args_ok pc i).

Abbreviation turn := (fun r => op_ok pc i /\ turn_ok reg pc last i r).

Lemma check_loadbool_wp : GET_OPCODE i = OP_LOADBOOL -> wp (check_loadbool pt pc (arg_c i) last) turn.
Proof.
  intros H'. rw /check_loadbool. wp_step. wp_step.
  - wp_step. wp_step. wp_step. apply wp_at_index; [unfold sizecode in *; bools; lia|]. intros w Hw. wp_step. wp_step.
    bools. split; [|apply turn_keep; op_neq H']. other_ops H'. intros _. split; [done|]. exists w. split; [done|].
    rw /setlist0. match goal with H : _ || _ = true |- _ => apply orb_prop in H as [|] end; bools;
      repeat case_bool_decide; done.
  - wp_step. wp_step. split; [|apply turn_keep; op_neq H']. other_ops H'. done.
Qed.

Lemma check_global_wp : GET_OPCODE i = OP_GETGLOBAL \/ GET_OPCODE i = OP_SETGLOBAL ->
  wp (check_global pt pc (arg_b i) last) turn.
Proof.
  intros H'. pose proof (getarg_nonneg i) as (_ & _ & _ & Hbx).
  assert (getOpMode (GET_OPCODE i) = iABx /\ getBMode (GET_OPCODE i) = OpArgK) as [Hm Hk]
    by (destruct H' as [-> | ->]; split; vm_compute; reflexivity).
  pose proof (ao_abx _ _ Hargs Hm Hk) as Hlt. pose proof (args_abx i Hm) as Heq. rw /check_global.
  wp_step. apply wp_at_index; [unfold sizek in *; lia|]. intros o Ho. wp_step. wp_step. bools. wp_step.
  split; [other_ops H'|apply turn_keep; op_neq H']. destruct o; try discriminate. eauto.
Qed.

Lemma check_jump_wp : GET_OPCODE i = OP_FORLOOP \/ GET_OPCODE i = OP_FORPREP \/ GET_OPCODE i = OP_JMP ->
  wp (check_jump pt lastpc reg pc (GET_OPCODE i) (GETARG_A i) (arg_b i) last) turn.
Proof.
  intros H'. rw /check_jump. wp_step.
  apply (wp_mono _ (fun _ => GET_OPCODE i <> OP_JMP -> GETARG_A i + 3 < maxstack)).
  - intros [] Hfor. wp_step. split.
    + other_ops H'. apply Hfor. op_neq Hop.
    + rw /turn_ok not_setlist0; [op_neq H'|]. destruct (decide _) as [(? & ? & ?)|]; split_and!; (lia || tauto).
  - wp_step; wp_step; [done|by bools].
Qed.

Lemma check_call_wp : GET_OPCODE i = OP_CALL \/ GET_OPCODE i = OP_TAILCALL ->
  wp (check_call pt reg pc (GETARG_A i) (arg_b i) (arg_c i) last) turn.
Proof.
  intros H'. pose proof (arg_c_nonneg i). rw /check_call. wp_step.
  apply (wp_mono _ (fun _ => arg_b i <> 0 -> GETARG_A i + arg_b i - 1 < maxstack)).
  2: { wp_step; wp_step; [by bools|done]. }
  intros [] Hcb. wp_step. apply (wp_mono _ (fun _ => (arg_c i = 0 -> next_word pc (fun w => luaG_checkopenop w = true)) /\
    (2 <= arg_c i -> GETARG_A i + arg_c i - 2 < maxstack))).
  - intros [] [? ?]. wp_step. split; [other_ops H'; auto|apply turn_stay; op_neq H'].
  - unfold LUA_MULTRET in *. wp_step; [|wp_step; wp_step; bools; split; lia].
    wp_step. eapply wp_mono; [|apply checkopenop_wp; [lia|apply Hret; op_neq H']].
    intros ok Hok. wp_step. split; [auto|lia].
Qed.

Lemma check_setlist_wp : GET_OPCODE i = OP_SETLIST ->
  wp (check_setlist pt pc (GETARG_A i) (arg_b i) (arg_c i) last) turn.
Proof.
  intros H'. assert (getOpMode (GET_OPCODE i) = iABC) as Hm by (rw H'; vm_compute; reflexivity).
  pose proof (args_abc i Hm) as [_ HC]. rw /check_setlist.
  wp_step. apply (wp_mono _ (fun _ => 0 < arg_b i -> GETARG_A i + arg_b i < maxstack)).
  2: { wp_step; wp_step; bools; lia. }
  intros [] Hr. rw /turn_ok /setlist0 -HC H'. wp_step.
  - wp_step. wp_step. bools. wp_step. split; [other_ops H'; auto|]. rw !bool_decide_eq_true_2 //. split_and!; [lia|tauto|done].
  - wp_step. split; [other_ops H'; split; [auto|lia]|]. rw (bool_decide_eq_false_2 (arg_c i = 0)) // andb_false_r.
    split_and!; [lia|tauto|done].
Qed.

Lemma check_closure_wp : GET_OPCODE i = OP_CLOSURE -> wp (check_closure pt reg pc (arg_b i) last) turn.
Proof.
  intros H'. pose proof (getarg_nonneg i) as (_ & _ & _ & Hbx).
  assert (getOpMode (GET_OPCODE i) = iABx) as Hm by (rw H'; vm_compute; reflexivity).
  pose proof (args_abx i Hm) as HB. rw /check_closure.
  wp_step. wp_step. bools. wp_step. apply wp_at_index; [unfold sizep in *; lia|].
  intros f Hf. pose proof (proj1 (Forall_lookup _ _) Hnups _ _ Hf) as Hn. simpl in Hn.
  wp_step. wp_step. bools. wp_step. eapply wp_mono; [|apply check_pseudo_wp; lia]. intros [] Hps. wp_step. split.
  - other_ops H'. exists f. split; [done|]. split; [done|]. intros j Hj. apply Hps. lia.
  - rw /turn_ok not_setlist0; [op_neq H'|]. destruct (decide _); split_and!; (lia || tauto).
Qed.

Lemma check_vararg_wp : GET_OPCODE i = OP_VARARG ->
  wp (check_vararg pt pc (GETARG_A i) (arg_b i) last) turn.
Proof.
  intros H'. rw /check_vararg. wp_step. wp_step. bools. wp_step.
  apply (wp_mono _ (fun _ => arg_b i = 0 -> next_word pc (fun w => luaG_checkopenop w = true))).
  - intros [] Hopen. wp_step. wp_step. bools. wp_step.
    split; [other_ops H'; split_and!; [assumption|lia|assumption]|apply turn_keep; op_neq H'].
  - unfold LUA_MULTRET in *. wp_step; [|wp_step; lia].
    wp_step. eapply wp_mono; [|apply checkopenop_wp; [lia|apply Hret; op_neq H']]. intros ok Hok. wp_step. auto.
Qed.

Lemma check_op_wp :
  wp (check_op pt lastpc reg pc (GET_OPCODE i) (GETARG_A i) (arg_b i) (arg_c i) last) turn.
Proof.
  rw /check_op.
  repeat match goal with |- wp (if decide ?P then _ else _) _ => destruct (decide P) as [H'|?] end;
    auto using check_loadbool_wp, check_global_wp, check_jump_wp, check_call_wp, check_setlist_wp,
      check_closure_wp, check_vararg_wp.
  - wp_step. split; [other_ops H'|apply turn_stay; op_neq H'].
  - wp_step. wp_step. bools. wp_step. split; [other_ops H'; assumption|apply turn_keep; op_neq H'].
  - wp_step. wp_step. bools. wp_step. split; [other_ops H'; assumption|apply turn_stay; op_neq H'].
  - wp_step. wp_step. bools. wp_step. split; [other_ops H'; assumption|apply turn_keep; op_neq H'].
  - wp_step. wp_step. wp_step. wp_step. bools. wp_step.
    split; [other_ops H'; split; (assumption || lia)|apply turn_stay; op_neq H'].
  - wp_step. apply (wp_mono _ (fun _ => 2 <= arg_b i -> GETARG_A i + arg_b i - 2 < maxstack)).
    2: { wp_step; wp_step; bools; lia. }
    intros [] Hr. wp_step. split; [other_ops H'; assumption|apply turn_keep; op_neq H'].
  - wp_step. split; [apply op_ok_trivial; tauto|by apply turn_keep].
Qed.
End facts.

(** ** The whole scan *)

Section scan.
Context (pt : Proto).

Record instr_ok (pc i : Z) : Prop := {
  io_opcode : GET_OPCODE i < NUM_OPCODES;
  io_a : GETARG_A i < p_maxstacksize pt;
  io_args : args_ok pt pc i;
  io_skip : testTMode (GET_OPCODE i) = true ->
    pc + 2 < sizecode pt /\ next_word pt pc (fun w => GET_OPCODE w = OP_JMP);
  io_op : op_ok pt pc i
}.

(** What precheck() leaves for the loop. *)
Record frame_ok : Prop := {
  fo_stack : p_maxstacksize pt <= MAXSTACK;
  fo_params : p_numparams pt <= p_maxstacksize pt;
  fo_size : 0 < sizecode pt;
  fo_return : exists w, p_code pt !! Z.to_nat (sizecode pt - 1) = Some w /\ GET_OPCODE w = OP_RETURN
}.

Lemma precheck_wp : wp (precheck pt) (fun _ => frame_ok).
Proof.
  rw /precheck. do 12 wp_step. wp_step. apply wp_at_index; [unfold sizecode in *; bools; lia|]. intros w Hw. wp_step. bools.
  assert (0 <= Z.land (p_is_vararg pt) VARARG_HASARG) by (apply Z.land_nonneg; right; vm_compute; discriminate).
  constructor; [lia..|]. by exists w.
Qed.

Context (Hnups : Forall (fun f => 0 <= p_nups f) (p_p pt)) (lastpc reg : Z) (Hlast : lastpc <= sizecode pt).
Context (Hframe : frame_ok).

Lemma not_last pc i : 0 <= pc < sizecode pt -> p_code pt !! Z.to_nat pc = Some i ->
  GET_OPCODE i <> OP_RETURN -> pc + 1 < sizecode pt.
Proof.
  intros Hpc Hi Hop. destruct (decide (pc = sizecode pt - 1)) as [->|]; [|lia].
  destruct (fo_return Hframe) as (w & Hw & Hr). congruence.
Qed.

Definition nonzero_at (pc : Z) : Prop := exists w, p_code pt !! Z.to_nat pc = Some w /\ w <> 0.

Definition instr_post (pc last : Z) (r : Z * Z) : Prop :=
  exists i, p_code pt !! Z.to_nat pc = Some i /\ instr_ok pc i /\ pc <= r.1 /\ (r.2 = last \/ r.2 = pc) /\
    (reg = NO_REG -> r.1 = (if setlist0 i then pc + 1 else pc) /\ (r.2 = last \/ i <> 0)).

Lemma check_instr_wp pc last : 0 <= pc < sizecode pt ->
  wp (check_instr pt lastpc reg pc last) (instr_post pc last).
Proof.
  intros Hpc. rw /check_instr. wp_step. apply wp_at_index; [exact Hpc|]. intros i Hi.
  wp_step. wp_step. wp_step. wp_step. bools. wp_step.
  eapply wp_mono; [|apply check_args_wp; lia]. intros [b c] (-> & -> & Hargs). wp_step.
  apply (wp_mono _ (fun _ => testTMode (GET_OPCODE i) = true ->
    pc + 2 < sizecode pt /\ next_word pt pc (fun w => GET_OPCODE w = OP_JMP))).
  - intros [] Hskip. set (last1 := if testAMode _ then _ else _).
    eapply wp_mono; [|apply (check_op_wp pt Hnups lastpc reg pc i last1 Hpc); [by apply not_last|done]].
    intros [pc' last'] [Hop (Hle & Hl & Hreg)].
    exists i. split; [done|]. split; [by constructor|]. simpl. split; [done|].
    assert (last1 = last \/ last1 = pc /\ GETARG_A i = reg) as Hl1.
    { rw /last1 /set_last. destruct (testAMode _); [|by left]. case_bool_decide; auto. }
    split; [destruct Hl as [->|[-> _]]; tauto|]. intros ->. split; [by apply Hreg|].
    assert (GETARG_A i <> NO_REG).
    { pose proof (fo_stack Hframe) as Hst. change NO_REG with 255. change MAXSTACK with 250 in Hst. lia. }
    destruct Hl as [->|[_ Hm]]; [left; tauto|]. right. intros ->. by apply Hm.
  - destruct (testTMode _); [|by wp_step]. wp_step. wp_step. wp_step. bools.
    apply wp_at_index; [unfold sizecode in *; lia|]. intros w Hw. wp_step. bools. intros _. split; [done|]. by exists w.
Qed.

(** The scan never reads outside the vectors, and every word it takes for an instruction is fine. *)
Lemma symbexec_loop_wp (fuel : nat) (pc last : Z) :
  0 <= pc -> 0 < fuel /\ lastpc - pc < fuel -> 0 <= last < sizecode pt ->
  wp (symbexec_loop pt lastpc reg fuel pc last) (fun last' => 0 <= last' < sizecode pt /\
    (reg = NO_REG -> (nonzero_at last -> nonzero_at last') /\
      forall pc', scanned pt (Z.to_nat pc) pc' -> pc' < lastpc ->
        exists i, p_code pt !! pc' = Some i /\ instr_ok pc' i)).
Proof.
  revert pc last. induction fuel as [|fuel IH] => pc last Hpc Hf Hl; cbn [symbexec_loop]; [lia|]. wp_step.
  - wp_step. eapply wp_mono; [|apply check_instr_wp; lia]. intros [pc1 last1] (i & Hi & Hok & Hle & Hl1 & Hreg). simpl in *.
    eapply wp_mono; [|apply IH; lia]. intros last' [Hr Hrest]. split; [done|]. intros ->.
    destruct Hrest as [Hnz Hscan]; [done|]. destruct Hreg as [Hpc1 Hi0]; [done|]. split.
    + intros Hn. apply Hnz. destruct (decide (last1 = last)) as [->|]; [done|].
      exists i. destruct Hl1 as [| ->]; [done|]. split; [done|tauto].
    + intros pc' Hs Hlt. inversion Hs as [|? i' ? Hi' Hs']; subst.
      * exists i. split; [done|]. by rw Z2Nat.id.
      * assert (i' = i) as -> by congruence. apply Hscan; [|done].
        rw /scan_next in Hs'. destruct (setlist0 i); [replace (Z.to_nat (pc + 1 + 1)) with (S (S (Z.to_nat pc))) by lia|
          replace (Z.to_nat (pc + 1)) with (S (Z.to_nat pc)) by lia]; exact Hs'.
  - wp_step. split; [done|]. intros _. split; [done|]. intros pc' Hs Hlt. exfalso.
    assert (Z.to_nat pc <= pc')%nat; [|lia]. clear -Hs. induction Hs as [|? i ? ? ? IH]; [done|].
    rw /scan_next in IH. destruct (setlist0 i); lia.
Qed.
End scan.

Lemma symbexec_wp pt lastpc reg : Forall (fun f => 0 <= p_nups f) (p_p pt) -> lastpc <= sizecode pt ->
  wp (_ ← precheck pt; last ← symbexec_loop pt lastpc reg (S (Z.to_nat lastpc)) 0 (sizecode pt - 1); code_at pt last)
    (fun w => frame_ok pt /\ (reg = NO_REG -> w <> 0 /\ forall pc, scanned pt 0 pc -> pc < lastpc ->
      exists i, p_code pt !! pc = Some i /\ instr_ok pt pc i)).
Proof.
  intros Hnups Hlast. wp_step. eapply wp_mono; [|apply precheck_wp]. intros [] Hframe. pose proof (fo_size _ Hframe).
  wp_step. eapply wp_mono; [|apply symbexec_loop_wp; (done || lia)]. intros last [Hl Hreg].
  apply wp_at_index; [exact Hl|]. intros w Hw. split; [done|]. intros ->. destruct Hreg as [Hnz Hscan]; [done|].
  split; [|exact Hscan]. destruct Hnz as (w' & Hw' & ?); [|congruence].
  destruct (fo_return _ Hframe) as (r & Hr & Hop). exists r. split; [done|]. intros ->. discriminate Hop.
Qed.

(** The checker itself is safe: on every prototype, for every position and register within the
    code, it terminates without reading outside the vectors of code, constants and nested functions.
    The tracing mode that finds names for error messages is covered as well as the full check. *)
Theorem symbexec_safe (pt : Proto) (lastpc reg : Z) :
  Forall (fun f => 0 <= p_nups f) (p_p pt) -> lastpc <= sizecode pt ->
  exists i, symbexec pt lastpc reg = Ok i.
Proof.
  intros Hnups Hlast. pose proof (symbexec_wp pt lastpc reg Hnups Hlast) as Hwp. rw /symbexec.
  destruct (_ ≫= _) as [[i|]|f]; [eauto..|done].
Qed.

Lemma checkcode_accepts pt : Forall (fun f => 0 <= p_nups f) (p_p pt) -> luaG_checkcode pt = Ok true ->
  frame_ok pt /\ forall pc, scanned pt 0 pc -> pc < sizecode pt ->
    exists i, p_code pt !! pc = Some i /\ instr_ok pt pc i.
Proof.
  intros Hnups. pose proof (symbexec_wp pt (sizecode pt) NO_REG Hnups ltac:(lia)) as Hwp.
  rw /luaG_checkcode /symbexec. destruct (_ ≫= _) as [[i|]|f]; [|done..].
  intros _. destruct Hwp as [? Hrest]. split; [done|]. by apply Hrest.
Qed.

(** ** Accepted code runs *)

(** Where the main loop of luaV_execute() can continue after the instruction at [pc]: the
    instruction was fetched and [pc] points behind it; a conditional jump is the JMP that
    follows the test. A call that starts another Lua function comes back behind the call. *)
Inductive vm_next (pt : Proto) (pc i : Z) : Z -> Prop :=
| vm_loadbool : GET_OPCODE i = OP_LOADBOOL ->
    vm_next pt pc i (if decide (GETARG_C i <> 0) then pc + 2 else pc + 1)
| vm_jmp : GET_OPCODE i = OP_JMP \/ GET_OPCODE i = OP_FORPREP \/ GET_OPCODE i = OP_FORLOOP ->
    vm_next pt pc i (pc + 1 + GETARG_sBx i)
| vm_forloop_end : GET_OPCODE i = OP_FORLOOP -> vm_next pt pc i (pc + 1)
| vm_test_jump w : testTMode (GET_OPCODE i) = true -> p_code pt !! Z.to_nat (pc + 1) = Some w ->
    vm_next pt pc i (pc + 1 + GETARG_sBx w + 1)
| vm_test_skip : testTMode (GET_OPCODE i) = true -> vm_next pt pc i (pc + 2)
| vm_setlist : GET_OPCODE i = OP_SETLIST ->
    vm_next pt pc i (if decide (GETARG_C i = 0) then pc + 2 else pc + 1)
| vm_closure f : GET_OPCODE i = OP_CLOSURE -> p_p pt !! Z.to_nat (GETARG_Bx i) = Some f ->
    vm_next pt pc i (pc + 1 + p_nups f)
| vm_other : testTMode (GET_OPCODE i) = false ->
    ~ (GET_OPCODE i = OP_LOADBOOL \/ GET_OPCODE i = OP_JMP \/ GET_OPCODE i = OP_FORPREP \/
       GET_OPCODE i = OP_FORLOOP \/ GET_OPCODE i = OP_SETLIST \/ GET_OPCODE i = OP_CLOSURE \/
       GET_OPCODE i = OP_RETURN) ->
    vm_next pt pc i (pc + 1).

(** Positions a call of the function can reach. *)
Inductive reachable (pt : Proto) : Z -> Prop :=
| reach_entry : reachable pt 0
| reach_next pc i pc' : reachable pt pc -> p_code pt !! Z.to_nat pc = Some i -> vm_next pt pc i pc' ->
    reachable pt pc'.

(** Instructions for which the checker and the machine disagree: LOADBOOL skips when C is not zero,
    and the checker looks at the skip when C is one. *)
Definition loadbool_flag (pt : Proto) : Prop :=
  forall (pc : nat) i, p_code pt !! pc = Some i -> GET_OPCODE i = OP_LOADBOOL -> GETARG_C i <= 1.

Section control_flow.
Context (pt : Proto) (Hframe : frame_ok pt) (Hflag : loadbool_flag pt).
Context (Hnups : Forall (fun f => 0 <= p_nups f) (p_p pt)).
Context (Hscan : forall pc : nat, scanned pt 0 pc -> pc < sizecode pt ->
  exists i, p_code pt !! pc = Some i /\ instr_ok pt pc i).

(** A position the scan has visited. *)
Definition visited (pc : Z) : Prop := 0 <= pc < sizecode pt /\ scanned pt 0 (Z.to_nat pc).

Lemma visited_ok pc i : visited pc -> p_code pt !! Z.to_nat pc = Some i -> instr_ok pt pc i.
Proof.
  intros [Hpc Hs] Hi. destruct (Hscan (Z.to_nat pc)) as (i' & Hi' & Hok); [done|lia|].
  rw Z2Nat.id in Hok; [lia|]. by simplify_eq.
Qed.

Lemma visited_next pc i : visited pc -> p_code pt !! Z.to_nat pc = Some i -> setlist0 i = false ->
  GET_OPCODE i <> OP_RETURN -> visited (pc + 1).
Proof.
  intros [Hpc Hs] Hi Hn Hr. pose proof (not_last pt Hframe pc i Hpc Hi Hr). split; [lia|].
  apply (scanned_snoc _ _ _ i) in Hs; [|done]. rw /scan_next Hn in Hs.
  by replace (Z.to_nat (pc + 1)) with (S (Z.to_nat pc)) by lia.
Qed.

Lemma visited_jump pc : jump_ok pt pc -> visited pc.
Proof.
  intros [Hpc Heven]. split; [done|]. pose proof (srun_scanned pt (Z.to_nat pc)) as Hs.
  rw Heven in Hs. apply Hs. rw /sizecode in Hpc. lia.
Qed.

(** Pseudo-instructions are visited one by one. *)
Lemma visited_pseudo (n : nat) pc i : visited pc -> p_code pt !! Z.to_nat pc = Some i ->
  setlist0 i = false -> GET_OPCODE i <> OP_RETURN ->
  (forall j, 1 <= j <= n -> exists w, p_code pt !! Z.to_nat (pc + j) = Some w /\
    (GET_OPCODE w = OP_GETUPVAL \/ GET_OPCODE w = OP_MOVE)) ->
  visited (pc + 1 + n).
Proof.
  intros Hv Hi Hs Hr. induction n as [|n IH] => Hps; [rw Z.add_0_r; by apply (visited_next _ i)|].
  destruct (Hps (S n)) as (w & Hw & Hop); [lia|].
  replace (pc + 1 + S n) with (pc + S n + 1) by lia. apply (visited_next _ w); [|done|apply not_setlist0; op_neq Hop|op_neq Hop].
  replace (pc + S n) with (pc + 1 + n) by lia. apply IH. intros j ?. apply Hps. lia.
Qed.

Lemma test_ops op : testTMode op = true -> op < NUM_OPCODES -> 0 <= op ->
  op <> OP_SETLIST /\ op <> OP_RETURN.
Proof. intros Ht ? ?. split; intros ->; vm_compute in Ht; discriminate. Qed.

Lemma opcode_nonneg i : 0 <= GET_OPCODE i.
Proof. apply Z.land_nonneg. right. vm_compute. discriminate. Qed.

(** Every step of the machine stays on visited positions. *)
Lemma vm_next_visited pc i pc' :
  visited pc -> p_code pt !! Z.to_nat pc = Some i -> vm_next pt pc i pc' -> visited pc'.
Proof.
  intros Hv Hi Hn. pose proof (visited_ok _ _ Hv Hi) as [Hnum Ha Hargs Hskip Hop]. pose proof (opcode_nonneg i).
  destruct Hn as [H'|H'|H'|w H' Hw|H'|H'|f H' Hf|Ht H'].
  - assert (arg_c i = GETARG_C i) as Hc by (apply args_abc; rw H'; vm_compute; reflexivity).
    assert (visited (pc + 1)) as Hv1 by (apply (visited_next _ i); [done..|apply not_setlist0; op_neq H'|op_neq H']).
    case_decide; [|done]. pose proof (Hflag _ _ Hi H'). pose proof (getarg_nonneg i).
    destruct (oo_loadbool _ _ _ Hop H') as (Hlt & w & Hw & Hs); [lia|].
    replace (pc + 2) with (pc + 1 + 1) by lia. split; [destruct Hv; lia|].
    destruct Hv1 as [_ Hs1]. apply (scanned_snoc _ _ _ w) in Hs1; [|done]. rw /scan_next Hs in Hs1.
    by replace (Z.to_nat (pc + 1 + 1)) with (S (Z.to_nat (pc + 1))) by (destruct Hv; lia).
  - apply visited_jump, (ao_jump _ _ _ Hargs); destruct H' as [->|[->| ->]]; vm_compute; reflexivity.
  - apply (visited_next _ i); [done..|apply not_setlist0; op_neq H'|op_neq H'].
  - destruct (test_ops _ H' Hnum) as [? ?]; [done|]. destruct (Hskip H') as (_ & w' & Hw' & Hj). simplify_eq.
    assert (visited (pc + 1)) as Hv1 by (apply (visited_next _ i); [done..|by apply not_setlist0|done]).
    replace (pc + 1 + GETARG_sBx w + 1) with (pc + 1 + 1 + GETARG_sBx w) by lia.
    pose proof (visited_ok _ _ Hv1 Hw) as [_ _ Hargs' _ _].
    apply visited_jump, (ao_jump _ _ _ Hargs'); rw Hj; vm_compute; reflexivity.
  - destruct (test_ops _ H' Hnum) as [? ?]; [done|]. destruct (Hskip H') as (_ & w' & Hw' & Hj).
    replace (pc + 2) with (pc + 1 + 1) by lia.
    apply (visited_next _ w'); [|done|apply not_setlist0; op_neq Hj|op_neq Hj].
    apply (visited_next _ i); [done..|by apply not_setlist0|done].
  - assert (arg_c i = GETARG_C i) as Hc by (apply args_abc; rw H'; vm_compute; reflexivity).
    destruct (oo_setlist _ _ _ Hop H') as [_ Hlast]. case_decide.
    + destruct Hv as [Hpc Hs]. split; [lia|]. apply (scanned_snoc _ _ _ i) in Hs; [|done].
      rw /scan_next /setlist0 !bool_decide_eq_true_2 // in Hs.
      by replace (Z.to_nat (pc + 2)) with (S (S (Z.to_nat pc))) by lia.
    + apply (visited_next _ i); [done..| |op_neq H']. rw /setlist0 (bool_decide_eq_false_2 (_ = 0)) // andb_false_r //.
  - assert (arg_b i = GETARG_Bx i) as Hb by (apply args_abx; rw H'; vm_compute; reflexivity).
    destruct (oo_closure _ _ _ Hop H') as (f' & Hf' & _ & Hps). rw Hb in Hf'. simplify_eq.
    pose proof (proj1 (Forall_lookup _ _) Hnups _ _ Hf) as Hn. simpl in Hn.
    rw -(Z2Nat.id (p_nups f)) //. apply (visited_pseudo _ _ i); [done..|apply not_setlist0; op_neq H'|op_neq H'|].
    intros j ?. apply Hps. lia.
  - apply (visited_next _ i); [done..|apply not_setlist0; tauto|tauto].
Qed.
End control_flow.


(** A loop over a table that ends in a jump back. *)
Definition loop_code : list Z :=
  [CREATE_ABC OP_NEWTABLE 0 0 0; CREATE_ABC OP_LOADBOOL 1 1 0; CREATE_ABC OP_SETLIST 0 1 0; 51;
   CREATE_ABC OP_TEST 1 0 0; CREATE_ABx OP_JMP 0 (MAXARG_sBx - 5); CREATE_ABC OP_RETURN 0 1 0].

Definition simple_proto (code : list Z) : Proto :=
  MkProto (Some []) 0 0 0 0 0 2 code [] [] [] [] [].


Lemma symbexec_safe_witness : exists i, symbexec (simple_proto loop_code) 7 0 = Ok i.
Proof. apply (symbexec_safe (simple_proto loop_code) 7 0); [constructor|vm_compute; discriminate]. Defined.

(** The checker accepts a LOADBOOL whose flag is greater than one and does not look at its skip,
    but the machine skips whenever the flag is not zero: this accepted function leaves its code. *)
Theorem loadbool_skip_unchecked :
  let pt := simple_proto [CREATE_ABC OP_LOADBOOL 0 0 2; CREATE_ABC OP_RETURN 0 1 0] in
  luaG_checkcode pt = Ok true /\ reachable pt (sizecode pt).
Proof.
  split; [vm_compute; reflexivity|].
  apply (reach_next _ 0 (CREATE_ABC OP_LOADBOOL 0 0 2)); [constructor|vm_compute; reflexivity|].
  apply (vm_loadbool _ 0). vm_compute. reflexivity.
Qed.

(** ** What the checker depends on *)

(** Prototypes that differ in debug information only, at every depth. *)
Record same_code (pt pt' : Proto) : Prop := {
  sc_code : p_code pt' = p_code pt;
  sc_k : p_k pt' = p_k pt;
  sc_nups : p_nups pt' = p_nups pt;
  sc_numparams : p_numparams pt' = p_numparams pt;
  sc_is_vararg : p_is_vararg pt' = p_is_vararg pt;
  sc_maxstacksize : p_maxstacksize pt' = p_maxstacksize pt;
  sc_p : p_nups <$> p_p pt' = p_nups <$> p_p pt
}.

Lemma checked_bind_ext {A B} (m : checked A) (k k' : A -> checked B) :
  (forall a, k a = k' a) -> (m ≫= k) = (m ≫= k').
Proof. intros Hk. destruct m as [[a|]|f]; [apply Hk|done..]. Qed.

Lemma check_bind_inv {B} b (k : unit -> checked B) r :
  (check b ≫= k) = Ok (Some r) -> b = true /\ k () = Ok (Some r).
Proof. by destruct b. Qed.

Lemma check_closure_same pt pt' reg pc b last :
  same_code pt pt' -> check_closure pt' reg pc b last = check_closure pt reg pc b last.
Proof.
  intros Hs. rw /check_closure.
  assert (sizep pt' = sizep pt) as -> by rw /sizep -(length_fmap p_nups) (sc_p _ _ Hs) length_fmap //.
  assert (sizecode pt' = sizecode pt) as -> by rw /sizecode (sc_code _ _ Hs) //.
  assert (forall n pc j, check_pseudo pt' n pc j = check_pseudo pt n pc j) as Hp.
  { induction n as [|n IH] => pc' j; [done|]. cbn [check_pseudo]. rw /code_at (sc_code _ _ Hs).
    destruct (at_index _ _) as [[i|]|f]; [|done..]. simpl. destruct (_ || _); [apply IH|done]. }
  rw /at_index. destruct (bool_decide (b < sizep pt)); [|done]. simpl. destruct (decide (0 <= b)); [|done].
  pose proof (f_equal (fun l => l !! Z.to_nat b) (sc_p _ _ Hs)) as Hb. simpl in Hb. rw !list_lookup_fmap in Hb.
  destruct (p_p pt' !! Z.to_nat b) as [f'|], (p_p pt !! Z.to_nat b) as [f|]; simpl in Hb; [|discriminate..|done].
  simpl. injection Hb as ->.
  destruct (bool_decide _); [|done]. simpl. by rw Hp.
Qed.

Lemma check_op_same pt pt' lastpc reg pc op a b c last :
  same_code pt pt' -> check_op pt' lastpc reg pc op a b c last = check_op pt lastpc reg pc op a b c last.
Proof.
  intros Hs. pose proof (check_closure_same _ _ reg pc b last Hs) as Hc. rw /check_op Hc.
  destruct pt, pt', Hs; simpl in *; subst.
  repeat match goal with |- (if decide ?P then _ else _) = _ => destruct (decide P); [reflexivity|] end. reflexivity.
Qed.

Lemma check_instr_same pt pt' lastpc reg pc last :
  same_code pt pt' -> check_instr pt' lastpc reg pc last = check_instr pt lastpc reg pc last.
Proof.
  intros Hs. rw /check_instr /code_at (sc_code _ _ Hs) /checkreg (sc_maxstacksize _ _ Hs).
  apply checked_bind_ext; intros i. do 2 (apply checked_bind_ext; intros []).
  assert (check_args pt' pc i (GET_OPCODE i) = check_args pt pc i (GET_OPCODE i) /\ sizecode pt' = sizecode pt) as [-> ->].
  { clear -Hs. destruct pt, pt', Hs; simpl in *; subst. done. }
  apply checked_bind_ext; intros [b c]. apply checked_bind_ext; intros []. by apply check_op_same.
Qed.

Lemma symbexec_loop_same pt pt' lastpc reg fuel pc last : same_code pt pt' ->
  symbexec_loop pt' lastpc reg fuel pc last = symbexec_loop pt lastpc reg fuel pc last.
Proof.
  intros Hs. revert pc last. induction fuel as [|fuel IH] => pc last; [done|]. cbn [symbexec_loop].
  destruct (decide (pc < lastpc)); [|reflexivity]. rw (check_instr_same pt pt'); [exact Hs|].
  apply checked_bind_ext. intros [pc1 last1]. apply IH.
Qed.

(** A prototype without its debug information is accepted if it is with it. *)
Lemma checkcode_same pt pt' : same_code pt pt' -> 0 <= p_nups pt ->
  p_lineinfo pt' = [] -> p_upvalues pt' = [] -> luaG_checkcode pt = Ok true -> luaG_checkcode pt' = Ok true.
Proof.
  intros Hs Hn Hl Hu. rw /luaG_checkcode /symbexec /code_at.
  assert (sizecode pt' = sizecode pt) as Hsz by rw /sizecode (sc_code _ _ Hs) //.
  rw Hsz (sc_code _ _ Hs).
  assert (forall r, precheck pt = Ok (Some r) -> precheck pt' = Ok (Some r)) as Hpre.
  { intros []. rw /precheck Hsz /code_at (sc_code _ _ Hs) (sc_maxstacksize _ _ Hs) (sc_is_vararg _ _ Hs) (sc_nups _ _ Hs).
    rw (sc_numparams _ _ Hs) Hl Hu. rw (bool_decide_eq_true_2 (0%nat <= p_nups pt)) // orb_true_r.
    do 3 (intros [-> Hp]%check_bind_inv; revert Hp). intros [_ Hp]%check_bind_inv. revert Hp.
    by intros [_ Hp]%check_bind_inv. }
  destruct (precheck pt) as [[[]|]|f]; [|done..]. rw (Hpre ()) //. cbn [mbind checked_bind]. by rw (symbexec_loop_same pt).
Qed.
