(* ===== verification/LuaDump.v ===== *)
(** LuaDump: precompiled chunks of the interpreter: src/liblua/src/ldump.c, which
    writes them, and lundump.c, which reads them.

    A function prototype is a tree; numbers are the eight bytes of their
    representation. [int] and [Instruction] have four bytes, [size_t] has eight,
    least significant first, as the header of a chunk says. The writer is a
    callback of the application: a function on its own state that returns a status.
    Errors of the loader are values of a sum. *)

From Corelib Require Import ssreflect.
From stdpp Require Import base list numbers strings.
From Stdlib Require Import ZArith Lia.
From S2P Require Import Prelude LuaObject LuaZio LuaOpcodes LuaCheck.

(** ** Bytes of integers *)

Fixpoint le_enc (n : nat) (z : Z) : list byte :=
  match n with
  | O => []
  | S n => z mod 256 :: le_enc n (z / 256)
  end.

Fixpoint le_dec (bs : list byte) : Z :=
  match bs with
  | [] => 0
  | b :: bs => b + 256 * le_dec bs
  end.

Definition sizeof_int : nat := 4.
Definition sizeof_size_t : nat := 8.
Definition sizeof_Instruction : nat := 4.
Definition sizeof_lua_Number : nat := 8.

(** ** Writing *)

Section dump.
Context {W : Type}.

(** [lua_Writer]: a status, 0 for success. *)
Variable writer : list byte -> W -> Z * W.

Record DumpState := MkDump { d_status : Z; d_data : W }.

Definition DumpBlock (b : list byte) (D : DumpState) : DumpState :=
  if decide (d_status D = 0) then let '(status, data) := writer b (d_data D) in MkDump status data
  else D.

Definition DumpChar (y : Z) : DumpState -> DumpState := DumpBlock [y mod 256].
Definition DumpInt (x : Z) : DumpState -> DumpState := DumpBlock (le_enc sizeof_int x).
Definition DumpNumber (x : list byte) : DumpState -> DumpState := DumpBlock x.

(** [n] elements of [size] bytes each. *)
Definition DumpVector (b : list Z) (size : nat) (D : DumpState) : DumpState :=
  DumpBlock (concat (le_enc size <$> b)) (DumpInt (length b) D).

Definition DumpString (s : tstring) (D : DumpState) : DumpState :=
  match s with
  | None => DumpBlock (le_enc sizeof_size_t 0) D
  | Some s => DumpBlock (s ++ [0]) (DumpBlock (le_enc sizeof_size_t (length s + 1)) D)
  end.

Definition DumpCode (f : Proto) : DumpState -> DumpState := DumpVector (p_code f) sizeof_Instruction.

(** One turn of the loop over the constants. *)
Definition DumpConstant (D : DumpState) (o : TValue) : DumpState :=
  let D := DumpChar (ttype o) D in
  match o with
  | KNil => D
  | KBoolean b => DumpChar b D
  | KNumber n => DumpNumber n D
  | KString s => DumpString s D
  end.

Variable strip : bool.

Definition DumpLocVar (D : DumpState) (v : LocVar) : DumpState :=
  DumpInt (endpc v) (DumpInt (startpc v) (DumpString (varname v) D)).

Definition DumpDebug (f : Proto) (D : DumpState) : DumpState :=
  let lineinfo := if strip then [] else p_lineinfo f in
  let D := DumpVector lineinfo sizeof_int D in
  let locvars := if strip then [] else p_locvars f in
  let D := DumpInt (length locvars) D in
  let D := foldl DumpLocVar D locvars in
  let upvalues := if strip then [] else p_upvalues f in
  let D := DumpInt (length upvalues) D in
  foldl (fun D s => DumpString s D) D upvalues.

(** Strings are shared, so that equal strings are the same object. *)
Definition source_to_dump (f : Proto) (p : tstring) : tstring :=
  if decide (p_source f = p \/ strip = true) then None else p_source f.

(** [dump_protos] is the loop over the nested functions in [DumpConstants]. *)
Fixpoint DumpFunction (f : Proto) (p : tstring) (D : DumpState) {struct f} : DumpState :=
  let D := DumpString (source_to_dump f p) D in
  let D := DumpInt (p_linedefined f) D in
  let D := DumpInt (p_lastlinedefined f) D in
  let D := DumpChar (p_nups f) D in
  let D := DumpChar (p_numparams f) D in
  let D := DumpChar (p_is_vararg f) D in
  let D := DumpChar (p_maxstacksize f) D in
  let D := DumpCode f D in
  let D := DumpInt (length (p_k f)) D in
  let D := foldl DumpConstant D (p_k f) in
  let D := DumpInt (length (p_p f)) D in
  let D := (fix dump_protos (ps : list Proto) (D : DumpState) : DumpState :=
              match ps with
              | [] => D
              | g :: ps => dump_protos ps (DumpFunction g (p_source f) D)
              end) (p_p f) D in
  DumpDebug f D.
End dump.
Arguments DumpState W : clear implicits.

(** ** The header *)

Definition LUA_SIGNATURE : list byte := [27; 76; 117; 97].
Definition LUAC_VERSION : Z := 81.
Definition LUAC_FORMAT : Z := 0.
Definition LUAC_HEADERSIZE : nat := 12.

Definition luaU_header : list byte :=
  LUA_SIGNATURE ++
  [LUAC_VERSION; LUAC_FORMAT; 1; Z.of_nat sizeof_int; Z.of_nat sizeof_size_t;
   Z.of_nat sizeof_Instruction; Z.of_nat sizeof_lua_Number; 0].

Definition DumpHeader {W} (writer : list byte -> W -> Z * W) : DumpState W -> DumpState W :=
  DumpBlock writer luaU_header.

Definition luaU_dump {W} (writer : list byte -> W -> Z * W) (data : W) (strip : bool) (f : Proto) : Z * W :=
  let D := DumpFunction writer strip f None (DumpHeader writer (MkDump 0 data)) in
  (d_status D, d_data D).

(** ** Reading *)

(** The loader raises a syntax error with a message, or the model has a fault. *)
Inductive load_error :=
| LoadError (msg : cstring)
| LoadFault (f : fault).

Definition Load (A : Type) : Type := Zio -> load_error + A * Zio.

#[export] Instance Load_ret : MRet Load := fun A a z => inr (a, z).
#[export] Instance Load_bind : MBind Load := fun A B k m z =>
  match m z with
  | inl e => inl e
  | inr (a, z) => k a z
  end.

Section load.
(** [S->name] *)
Context (name : cstring).

Definition error {A} (why : string) : Load A := fun _ =>
  inl (LoadError (name ++ lit ": " ++ lit why ++ lit " in precompiled chunk")).
Arguments error {A} why%_string.

Definition LoadBlock (size : nat) : Load (list byte) := fun z =>
  match luaZ_read z size with
  | Ok (r, bs, z) => if decide (r <> 0%nat) then error "unexpected end" z else inr (bs, z)
  | Err f => inl (LoadFault f)
  end.

(** A [char] is signed; the cast to [lu_byte] gives the byte. *)
Definition LoadChar : Load Z := bs ← LoadBlock 1; mret (to_char (le_dec bs)).
Definition LoadByte : Load Z := c ← LoadChar; mret (c mod 256).

Definition LoadInt : Load Z :=
  bs ← LoadBlock sizeof_int;
  let x := to_int (le_dec bs) in
  if decide (x < 0) then error "bad integer" else mret x.

Definition LoadNumber : Load (list byte) := LoadBlock sizeof_lua_Number.

(** The string is read into a buffer of luaZ_openspace(). *)
Definition LoadString : Load tstring :=
  bs ← LoadBlock sizeof_size_t;
  let size := le_dec bs in
  if decide (size = 0) then mret None
  else
    s ← LoadBlock (Z.to_nat size);
    mret (Some (take (Z.to_nat (size - 1)) s)).

(** [n] elements of [size] bytes. *)
Fixpoint split_elems (size : nat) (n : nat) (bs : list byte) : list (list byte) :=
  match n with
  | O => []
  | S n => take size bs :: split_elems size n (drop size bs)
  end.
Definition LoadVector (n : nat) (size : nat) : Load (list Z) :=
  bs ← LoadBlock (n * size); mret (le_dec <$> split_elems size n bs).

(** The loops [for (i=0; i<n; i++)]. *)
Fixpoint load_times {A} (n : nat) (m : Load A) : Load (list A) :=
  match n with
  | O => mret []
  | S n => a ← m; l ← load_times n m; mret (a :: l)
  end.

Definition LoadCode : Load (list Z) :=
  n ← LoadInt; LoadVector (Z.to_nat n) sizeof_Instruction.

Definition LoadConstant : Load TValue :=
  t ← LoadChar;
  if decide (t = LUA_TNIL) then mret KNil
  else if decide (t = LUA_TBOOLEAN) then b ← LoadChar; mret (KBoolean (if decide (b <> 0) then 1 else 0))
  else if decide (t = LUA_TNUMBER) then n ← LoadNumber; mret (KNumber n)
  else if decide (t = LUA_TSTRING) then s ← LoadString; mret (KString s)
  else error "bad constant".

Definition LoadLocVar : Load LocVar :=
  v ← LoadString; s ← LoadInt; e ← LoadInt; mret (MkLocVar v s e).

Definition LoadDebug : Load (list Z * list LocVar * list tstring) :=
  n ← LoadInt;
  lineinfo ← LoadVector (Z.to_nat n) sizeof_int;
  n ← LoadInt;
  locvars ← load_times (Z.to_nat n) LoadLocVar;
  n ← LoadInt;
  upvalues ← load_times (Z.to_nat n) LoadString;
  mret (to_int <$> lineinfo, locvars, upvalues).

(** [depth] is the number of nested C calls that are left: LUAI_MAXCCALLS less [nCcalls]. *)
Fixpoint LoadFunction (depth : nat) (p : tstring) {struct depth} : Load Proto :=
  match depth with
  | O => error "code too deep"
  | S depth =>
      source ← LoadString;
      let source := match source with None => p | Some s => Some s end in
      linedefined ← LoadInt;
      lastlinedefined ← LoadInt;
      nups ← LoadByte;
      numparams ← LoadByte;
      is_vararg ← LoadByte;
      maxstacksize ← LoadByte;
      code ← LoadCode;
      n ← LoadInt;
      k ← load_times (Z.to_nat n) LoadConstant;
      n ← LoadInt;
      ps ← load_times (Z.to_nat n) (LoadFunction depth source);
      '(lineinfo, locvars, upvalues) ← LoadDebug;
      let f := MkProto source linedefined lastlinedefined nups numparams is_vararg maxstacksize
                 code k ps lineinfo locvars upvalues in
      match luaG_checkcode f with
      | Ok true => mret f
      | Ok false => error "bad code"
      | Err e => fun _ => inl (LoadFault e)
      end
  end.

Definition LoadHeader : Load unit :=
  s ← LoadBlock LUAC_HEADERSIZE;
  if decide (luaU_header <> s) then error "bad header" else mret ().
End load.

Definition LUAI_MAXCCALLS : nat := 200.

(** [S.name], from the name of the chunk. *)
Definition chunk_name (name : cstring) : cstring :=
  if decide (head name = Some ch_at \/ head name = Some ch_equals) then tail name
  else if decide (head name = head LUA_SIGNATURE) then lit "binary string"
  else name.

Definition luaU_undump (nCcalls : nat) (z : Zio) (name : cstring) : load_error + Proto * Zio :=
  let name := chunk_name name in
  (_ ← LoadHeader name; LoadFunction name (LUAI_MAXCCALLS - nCcalls) (Some (lit "=?"))) z.

(** ** Proofs: loading what was written *)

Section loads.
Context (name : cstring).

Definition cut_error : load_error :=
  LoadError (name ++ lit ": " ++ lit "unexpected end" ++ lit " in precompiled chunk").

(** [m] takes exactly the bytes [bs] and returns [a]; when the stream ends within them it raises the
    error of an unexpected end. *)
Record Loads {A} (m : Load A) (bs : list byte) (a : A) : Prop := {
  loads_full z rest : stream_ok z -> content z = bs ++ rest ->
    exists z', m z = inr (a, z') /\ content z' = rest /\ stream_ok z';
  loads_cut z cut : stream_ok z -> bs = content z ++ cut -> cut <> [] -> m z = inl cut_error
}.

Lemma Loads_ret {A} (a : A) : Loads (mret a) [] a.
Proof.
  split.
  - intros z rest Hz Hc. by exists z.
  - intros z cut _ Heq Hne. symmetry in Heq. apply app_eq_nil in Heq as [_ ->]. done.
Qed.

Lemma Loads_bind {A B} (m : Load A) (k : A -> Load B) bs1 bs2 a b :
  Loads m bs1 a -> Loads (k a) bs2 b -> Loads (m ≫= k) (bs1 ++ bs2) b.
Proof.
  intros [Hf1 Hc1] [Hf2 Hc2]. split.
  - intros z rest Hz Hc. rw -app_assoc in Hc. destruct (Hf1 z _ Hz Hc) as (z1 & Hm & Hc' & Hz1).
    destruct (Hf2 z1 rest Hz1 Hc') as (z2 & Hk & ? & ?). exists z2. by rw /mbind /Load_bind Hm Hk.
  - intros z cut Hz Heq Hne. rw /mbind /Load_bind. apply app_eq_inv in Heq as [(l & H1 & H2)|(l & H1 & H2)].
    + destruct l as [|x l].
      * rw app_nil_r in H1. destruct (Hf1 z [] Hz) as (z1 & -> & Hc' & Hz1); [by rw app_nil_r|].
        apply (Hc2 z1 cut); [done|by rw Hc'|done].
      * by rw (Hc1 z (x :: l) Hz).
    + destruct (Hf1 z l Hz) as (z1 & -> & Hc' & Hz1); [done|].
      apply (Hc2 z1 cut); [done|by rw Hc'|done].
Qed.

(** The last computation of a sequence. *)
Lemma Loads_eq {A} (m : Load A) bs bs' a a' : Loads m bs a -> bs = bs' -> a = a' -> Loads m bs' a'.
Proof. by intros ? <- <-. Qed.

Lemma LoadBlock_loads bs : Loads (LoadBlock name (length bs)) bs bs.
Proof.
  split.
  - intros z rest Hz Hc. rw /LoadBlock /luaZ_read.
    destruct (luaZ_read_loop_spec (S (length bs)) z (length bs) Hz) as (z' & -> & Hc' & Hz'); [lia|].
    rw Hc length_app take_app_length. destruct (decide _) as [H|_]; [lia|]. exists z'. split; [done|].
    by rw Hc' Hc drop_app_length.
  - intros z cut Hz Heq Hne. rw /LoadBlock /luaZ_read.
    destruct (luaZ_read_loop_spec (S (length bs)) z (length bs) Hz) as (z' & -> & Hc' & Hz'); [lia|].
    rw Heq length_app. destruct (decide _) as [|H]; [done|]. destruct cut; [done|]. simpl in H. lia.
Qed.

Lemma LoadBlock_n n bs : length bs = n -> Loads (LoadBlock name n) bs bs.
Proof. intros <-. apply LoadBlock_loads. Qed.

Lemma load_times_loads {A} (m : Load A) bss l :
  Forall2 (Loads m) bss l -> Loads (load_times (length l) m) (concat bss) l.
Proof.
  induction 1 as [|bs a bss l Ha _ IH]; simpl; [apply Loads_ret|].
  apply (Loads_bind _ _ _ _ a); [done|]. eapply Loads_eq; [eapply Loads_bind; [exact IH|apply Loads_ret]| |done].
  apply app_nil_r.
Qed.
End loads.

(** *** Integers *)

Lemma length_le_enc n z : length (le_enc n z) = n.
Proof. revert z. induction n; simpl; auto. Qed.

Lemma le_enc_bytes n z : Forall is_byte (le_enc n z).
Proof. revert z. induction n; simpl; constructor; auto. apply Z.mod_pos_bound. lia. Qed.

Lemma le_dec_enc n z : le_dec (le_enc n z) = z mod 256 ^ Z.of_nat n.
Proof.
  revert z. induction n as [|n IH] => z; simpl; [by rw Z.mod_1_r|].
  rw IH Nat2Z.inj_succ Z.pow_succ_r; [lia|]. rw Z.rem_mul_r //. lia.
Qed.

Lemma le_enc_int x : int_min <= x <= int_max -> to_int (le_dec (le_enc 4 x)) = x.
Proof.
  rw le_dec_enc /to_int /int_min /int_max. change (256 ^ Z.of_nat 4) with (2 ^ 32). intros ?.
  rw Zplus_mod_idemp_l Z.mod_small; lia.
Qed.

(** *** The format *)

(** The blocks of a precompiled chunk. *)
Definition string_blocks (s : tstring) : list (list byte) :=
  match s with
  | None => [le_enc sizeof_size_t 0]
  | Some s => [le_enc sizeof_size_t (length s + 1); s ++ [0]]
  end.
Definition vector_blocks (b : list Z) (size : nat) : list (list byte) :=
  [le_enc sizeof_int (length b); concat (le_enc size <$> b)].
Definition constant_blocks (o : TValue) : list (list byte) :=
  [ttype o mod 256] ::
  match o with
  | KNil => []
  | KBoolean b => [[b mod 256]]
  | KNumber n => [n]
  | KString s => string_blocks s
  end.
Definition locvar_blocks (v : LocVar) : list (list byte) :=
  string_blocks (varname v) ++ [le_enc sizeof_int (startpc v); le_enc sizeof_int (endpc v)].
Definition list_blocks {A} (blocks : A -> list (list byte)) (l : list A) : list (list byte) :=
  le_enc sizeof_int (length l) :: concat (blocks <$> l).

Definition shown {A} (strip : bool) (l : list A) : list A := if strip then [] else l.

Definition debug_blocks (strip : bool) (f : Proto) : list (list byte) :=
  vector_blocks (shown strip (p_lineinfo f)) sizeof_int ++
  list_blocks locvar_blocks (shown strip (p_locvars f)) ++
  list_blocks string_blocks (shown strip (p_upvalues f)).

Fixpoint function_blocks (strip : bool) (p : tstring) (f : Proto) : list (list byte) :=
  string_blocks (source_to_dump strip f p) ++
  [le_enc sizeof_int (p_linedefined f); le_enc sizeof_int (p_lastlinedefined f);
   [p_nups f mod 256]; [p_numparams f mod 256]; [p_is_vararg f mod 256]; [p_maxstacksize f mod 256]] ++
  vector_blocks (p_code f) sizeof_Instruction ++
  list_blocks constant_blocks (p_k f) ++
  list_blocks (function_blocks strip (p_source f)) (p_p f) ++
  debug_blocks strip f.

Definition chunk_blocks (strip : bool) (f : Proto) : list (list byte) :=
  luaU_header :: function_blocks strip None f.

(** A writer is called for one block after the other until it fails. *)
Fixpoint write_all {W} (writer : list byte -> W -> Z * W) (data : W) (blocks : list (list byte)) : Z * W :=
  match blocks with
  | [] => (0, data)
  | b :: blocks =>
      let '(status, data) := writer b data in
      if decide (status = 0) then write_all writer data blocks else (status, data)
  end.

(** Induction over nested functions. *)
Lemma Proto_nested_ind (P : Proto -> Prop) :
  (forall f, Forall P (p_p f) -> P f) -> forall f, P f.
Proof.
  intros HP. fix IH 1. intros f. apply HP. destruct f as [? ? ? ? ? ? ? ? ? ps ? ? ?]; simpl.
  induction ps; constructor; [apply IH|assumption].
Qed.

#[local] Opaque DumpBlock.

Section writing.
Context {W : Type} (writer : list byte -> W -> Z * W) (strip : bool).

Definition emit (D : DumpState W) (blocks : list (list byte)) : DumpState W :=
  foldl (fun D b => DumpBlock writer b D) D blocks.

Lemma emit_app D l1 l2 : emit D (l1 ++ l2) = emit (emit D l1) l2.
Proof. apply foldl_app. Qed.

Lemma emit_list {A} (dump : DumpState W -> A -> DumpState W) (blocks : A -> list (list byte)) l D :
  (forall D a, dump D a = emit D (blocks a)) -> foldl dump D l = emit D (concat (blocks <$> l)).
Proof.
  intros Hd. revert D. induction l as [|a l IH] => D; simpl; [done|]. by rw IH Hd emit_app.
Qed.

Lemma DumpString_emit s D : DumpString writer s D = emit D (string_blocks s).
Proof. by destruct s. Qed.

Lemma DumpConstant_emit D o : DumpConstant writer D o = emit D (constant_blocks o).
Proof. destruct o; try done. by rw /DumpConstant DumpString_emit. Qed.

Lemma DumpLocVar_emit D v : DumpLocVar writer D v = emit D (locvar_blocks v).
Proof. by rw /DumpLocVar /locvar_blocks emit_app DumpString_emit. Qed.

Lemma DumpDebug_emit f D : DumpDebug writer strip f D = emit D (debug_blocks strip f).
Proof.
  rw /DumpDebug /debug_blocks !emit_app. rw (emit_list _ locvar_blocks); [apply DumpLocVar_emit|].
  rw (emit_list _ string_blocks); [intros; apply DumpString_emit|]. done.
Qed.

Lemma DumpFunction_emit f p D : DumpFunction writer strip f p D = emit D (function_blocks strip p f).
Proof.
  revert p D. induction f as [f IH] using Proto_nested_ind => p D.
  assert (forall D, (fix dump_protos (ps : list Proto) (D : DumpState W) : DumpState W :=
    match ps with [] => D | g :: ps => dump_protos ps (DumpFunction writer strip g (p_source f) D) end) (p_p f) D =
    emit D (concat (function_blocks strip (p_source f) <$> p_p f))) as Hps.
  { induction IH as [|g ps Hg _ IHps] => D'; simpl; [done|]. by rw IHps Hg emit_app. }
  destruct f as [source ? ? ? ? ? ? code k ps ? ? ?]. cbn [DumpFunction function_blocks] in *. rw DumpDebug_emit Hps !emit_app.
  rw (emit_list _ constant_blocks); [apply DumpConstant_emit|]. rw DumpString_emit.
  reflexivity.
Qed.

#[local] Transparent DumpBlock.

Lemma emit_write_all data blocks :
  let D := emit (MkDump 0 data) blocks in (d_status D, d_data D) = write_all writer data blocks.
Proof.
  revert data. induction blocks as [|b blocks IH] => data; [done|]. simpl.
  destruct (writer b data) as [status data'] eqn:Hw.
  assert (DumpBlock writer b (MkDump 0 data) = MkDump status data') as -> by rw /DumpBlock /= Hw //. destruct (decide (status = 0)) as [->|Hne]; [apply IH|].
  clear IH. assert (forall l, emit (MkDump status data') l = MkDump status data') as Hstop.
  { induction l as [|c l IH]; [done|]. simpl. rw /DumpBlock /=. by destruct (decide (status = 0)). }
  by rw Hstop.
Qed.
End writing.

(** LuaU_dump() calls the writer with the header and the blocks of the function and its nested
    functions in the order of the format, one call per block; it stops at the first call that returns
    a status other than zero, and returns that status (zero when every call succeeded). *)
Theorem luaU_dump_writes {W} (writer : list byte -> W -> Z * W) (data : W) (strip : bool) (f : Proto) :
  luaU_dump writer data strip f = write_all writer data (chunk_blocks strip f).
Proof.
  rw /luaU_dump DumpFunction_emit. change (DumpHeader writer (MkDump 0 data)) with (emit writer (MkDump 0 data) [luaU_header]).
  rw -emit_app. apply emit_write_all.
Qed.

(** *** Reading the parts *)

Lemma to_char_byte y : 0 <= y < 256 -> to_char y mod 256 = y.
Proof.
  intros ?. rw /to_char. destruct (decide (y < 128)).
  - rw (Z.mod_small (y + 128)); [lia|]. rw Z.mod_small; lia.
  - replace (y + 128) with (y - 128 + 1 * 256) by lia. rw Z.mod_add // (Z.mod_small (y - 128)); [lia|].
    replace (y - 128 - 128) with (y + (-1) * 256) by lia. rw Z.mod_add // Z.mod_small; lia.
Qed.

Section reading.
Context (name : cstring).
Abbreviation Loads := (Loads name).

Lemma LoadChar_loads y : 0 <= y < 128 -> Loads (LoadChar name) [y mod 256] y.
Proof.
  intros ?. eapply Loads_eq; [eapply Loads_bind; [by apply (LoadBlock_n _ 1 [y mod 256])|apply Loads_ret]|done|].
  simpl. rw Z.add_0_r Z.mod_small; [lia|]. apply to_char_small. rw /is_char. lia.
Qed.

Lemma LoadByte_loads y : 0 <= y < 256 -> Loads (LoadByte name) [y mod 256] y.
Proof.
  intros ?. eapply Loads_eq; [eapply Loads_bind; [eapply Loads_bind; [by apply (LoadBlock_n _ 1 [y mod 256])|]|]| |];
    [apply Loads_ret|apply Loads_ret|done|].
  simpl. rw Z.add_0_r (Z.mod_small y); [lia|]. by apply to_char_byte.
Qed.

Lemma LoadInt_loads x : 0 <= x <= int_max -> Loads (LoadInt name) (le_enc sizeof_int x) x.
Proof.
  intros ?. eapply Loads_eq; [eapply Loads_bind; [apply LoadBlock_n, length_le_enc|]|apply app_nil_r|reflexivity].
  cbv zeta. rw le_enc_int; [rw /int_min; lia|]. destruct (decide (x < 0)); [lia|]. apply Loads_ret.
Qed.

Definition string_ok (s : tstring) : Prop :=
  match s with None => True | Some s => length s < size_max - 1 end.

Lemma LoadString_loads s : string_ok s -> Loads (LoadString name) (concat (string_blocks s)) s.
Proof.
  intros Hs. destruct s as [s|]; cbn [string_blocks concat]; rw app_nil_r.
  - eapply Loads_bind; [apply LoadBlock_n, length_le_enc|]. rw le_dec_enc. change (256 ^ Z.of_nat sizeof_size_t) with size_max.
    rw Z.mod_small; [simpl in Hs; lia|]. cbv zeta. destruct (decide (length s + 1 = 0)); [lia|].
    eapply Loads_eq; [eapply Loads_bind; [apply (LoadBlock_n _ _ (s ++ [0]))|apply Loads_ret]| |].
    + rw length_app /=. lia.
    + apply app_nil_r.
    + replace (Z.to_nat (length s + 1 - 1)) with (length s) by lia. by rw take_app_length.
  - eapply Loads_eq; [eapply Loads_bind; [apply LoadBlock_n, length_le_enc|]|apply app_nil_r|reflexivity].
    apply Loads_ret.
Qed.

Lemma split_elems_concat size b : split_elems size (length b) (concat (le_enc size <$> b)) = le_enc size <$> b.
Proof.
  induction b as [|x b IH]; simpl; [done|]. rw take_app_length'; [by rw length_le_enc|].
  rw drop_app_length'; [by rw length_le_enc|]. by rw IH.
Qed.

Lemma length_vector size (b : list Z) : length (concat (le_enc size <$> b)) = (length b * size)%nat.
Proof. induction b as [|x b IH]; simpl; [done|]. rw length_app IH length_le_enc. lia. Qed.

Lemma LoadVector_loads size b : Loads (LoadVector name (length b) size) (concat (le_enc size <$> b))
  ((fun x => x mod 256 ^ Z.of_nat size) <$> b).
Proof.
  eapply Loads_eq; [eapply Loads_bind; [apply LoadBlock_n, length_vector|apply Loads_ret]|apply app_nil_r|].
  rw split_elems_concat -list_fmap_compose. apply list_fmap_ext. intros ? x _. apply le_dec_enc.
Qed.

(** A vector with its length in front. *)
Lemma LoadInt_then {B} (k : Z -> Load B) (n : nat) bs b :
  n <= int_max -> Loads (k n) bs b -> Loads (LoadInt name ≫= k) (le_enc sizeof_int n ++ bs) b.
Proof. intros ? ?. eapply Loads_bind; [apply LoadInt_loads; lia|done]. Qed.

Lemma load_list_loads {A B} (m : Load B) (blocks : A -> list (list byte)) (g : A -> B) l :
  Forall (fun a => Loads m (concat (blocks a)) (g a)) l ->
  Loads (load_times (length l) m) (concat (concat (blocks <$> l))) (g <$> l).
Proof.
  intros Hl. rw -(length_fmap g l). eapply Loads_eq; [apply (load_times_loads _ _ ((fun a => concat (blocks a)) <$> l))| |done].
  - by apply Forall2_fmap, Forall_Forall2_diag.
  - clear. induction l as [|a l IH]; simpl; [done|]. by rw IH concat_app.
Qed.

Definition constant_ok (o : TValue) : Prop :=
  match o with
  | KNil => True
  | KBoolean b => b = 0 \/ b = 1
  | KNumber n => length n = sizeof_lua_Number
  | KString s => string_ok s
  end.

Lemma LoadConstant_loads o : constant_ok o -> Loads (LoadConstant name) (concat (constant_blocks o)) o.
Proof.
  intros Ho. rw /constant_blocks /=. eapply (Loads_bind _ _ _ [ttype o mod 256]); [apply LoadChar_loads; by destruct o|].
  destruct o as [|b|n|s]; cbn [ttype LUA_TNIL LUA_TBOOLEAN LUA_TNUMBER LUA_TSTRING].
  - apply Loads_ret.
  - eapply Loads_eq; [eapply Loads_bind; [apply (LoadChar_loads b)|apply Loads_ret]|done|];
      destruct Ho as [-> | ->]; done || lia.
  - eapply Loads_eq; [eapply Loads_bind; [by apply LoadBlock_n|apply Loads_ret]|done|done].
  - eapply Loads_eq; [eapply Loads_bind; [by apply LoadString_loads|apply Loads_ret]|apply app_nil_r|done].
Qed.
End reading.

(** *** Functions *)

(** [P] holds of the function and of all its nested functions. *)
Inductive every (P : Proto -> Prop) (f : Proto) : Prop :=
  every_intro : P f -> Forall (every P) (p_p f) -> every P f.

Fixpoint depth (f : Proto) : nat := S (foldr (fun g n => Nat.max (depth g) n) O (p_p f)).

Lemma depth_nested f g d : (depth f <= S d)%nat -> g ∈ p_p f -> (depth g <= d)%nat.
Proof.
  destruct f as [? ? ? ? ? ? ? ? ? ps ? ? ?]; simpl. intros Hd%le_S_n Hg. revert Hd.
  induction Hg; simpl; lia.
Qed.

Definition size_ok {A} (l : list A) : Prop := length l <= int_max.
Definition int_ok (x : Z) : Prop := 0 <= x <= int_max.

Definition locvar_ok (v : LocVar) : Prop := string_ok (varname v) /\ int_ok (startpc v) /\ int_ok (endpc v).

(** A prototype as the compiler makes it: the fields have values of their types. *)
Record proto_ok (f : Proto) : Prop := {
  po_source : exists s, p_source f = Some s /\ string_ok (Some s);
  po_linedefined : int_ok (p_linedefined f);
  po_lastlinedefined : int_ok (p_lastlinedefined f);
  po_nups : is_byte (p_nups f);
  po_numparams : is_byte (p_numparams f);
  po_is_vararg : is_byte (p_is_vararg f);
  po_maxstacksize : is_byte (p_maxstacksize f);
  po_code : size_ok (p_code f) /\ Forall is_u32 (p_code f);
  po_k : size_ok (p_k f) /\ Forall constant_ok (p_k f);
  po_p : size_ok (p_p f);
  po_lineinfo : size_ok (p_lineinfo f) /\ Forall (fun x => int_min <= x <= int_max) (p_lineinfo f);
  po_locvars : size_ok (p_locvars f) /\ Forall locvar_ok (p_locvars f);
  po_upvalues : size_ok (p_upvalues f) /\ Forall string_ok (p_upvalues f)
}.

(** The function without debug information, as it is read back: the source of the caller is taken. *)
Fixpoint stripped (source : tstring) (f : Proto) : Proto :=
  MkProto source (p_linedefined f) (p_lastlinedefined f) (p_nups f) (p_numparams f) (p_is_vararg f)
    (p_maxstacksize f) (p_code f) (p_k f) (stripped source <$> p_p f) [] [] [].

Definition dumped (strip : bool) (source : tstring) (f : Proto) : Proto := if strip then stripped source f else f.

Lemma stripped_checkcode source f : is_byte (p_nups f) ->
  luaG_checkcode f = Ok true -> luaG_checkcode (stripped source f) = Ok true.
Proof.
  intros [? _]. apply checkcode_same; [|done|by destruct f..]. destruct f as [? ? ? ? ? ? ? ? ? ps ? ? ?].
  constructor; try done. simpl. rw -list_fmap_compose. apply list_fmap_ext. by intros ? [].
Qed.

Section functions.
Context (name : cstring).
Abbreviation Loads := (Loads name).

Lemma LoadLocVar_loads v : locvar_ok v -> Loads (LoadLocVar name) (concat (locvar_blocks v)) v.
Proof.
  intros (? & ? & ?). rw /locvar_blocks concat_app. eapply Loads_bind; [by apply LoadString_loads|].
  eapply (Loads_bind _ _ _ (le_enc sizeof_int (startpc v))); [by apply LoadInt_loads|].
  eapply (Loads_bind _ _ _ (le_enc sizeof_int (endpc v))); [by apply LoadInt_loads|]. destruct v. apply Loads_ret.
Qed.

Lemma concat_list_blocks {A} (blocks : A -> list (list byte)) l :
  concat (list_blocks blocks l) = le_enc sizeof_int (length l) ++ concat (concat (blocks <$> l)).
Proof. done. Qed.

Lemma concat_vector_blocks b size :
  concat (vector_blocks b size) = le_enc sizeof_int (length b) ++ concat (le_enc size <$> b).
Proof. rw /vector_blocks /=. by rw app_nil_r. Qed.

(** A list read by its loop. *)
Lemma LoadList_then {A B C} (m : Load B) (blocks : A -> list (list byte)) (g : A -> B) (l : list A)
    (k : list B -> Load C) bs c :
  size_ok l -> Forall (fun a => Loads m (concat (blocks a)) (g a)) l -> Loads (k (g <$> l)) bs c ->
  Loads (n ← LoadInt name; l ← load_times (Z.to_nat n) m; k l) (concat (list_blocks blocks l) ++ bs) c.
Proof.
  intros ? ? ?. rw concat_list_blocks -app_assoc. apply LoadInt_then; [done|]. rw Nat2Z.id.
  eapply Loads_bind; [by apply load_list_loads|done].
Qed.

Lemma map_mod_id (m : Z) l : Forall (fun x => 0 <= x < m) l -> (fun x => x mod m) <$> l = l.
Proof. induction 1; simpl; [done|]. f_equal; [by apply Z.mod_small|done]. Qed.

Lemma map_to_int l : Forall (fun x => int_min <= x <= int_max) l ->
  to_int <$> ((fun x => x mod 256 ^ Z.of_nat sizeof_int) <$> l) = l.
Proof.
  induction 1 as [|x l Hx _ IH]; simpl; [done|]. f_equal; [|done]. rw -le_dec_enc. by apply le_enc_int.
Qed.

Lemma Forall_shown {A} (P : A -> Prop) strip l : Forall P l -> Forall P (shown strip l).
Proof. by destruct strip. Qed.
Lemma size_shown {A} strip (l : list A) : size_ok l -> size_ok (shown strip l).
Proof. by destruct strip. Qed.

Lemma LoadDebug_loads strip f : proto_ok f -> Loads (LoadDebug name) (concat (debug_blocks strip f))
  (shown strip (p_lineinfo f), shown strip (p_locvars f), shown strip (p_upvalues f)).
Proof.
  intros Hf. destruct (po_lineinfo _ Hf) as [Hs1 Hl1]. destruct (po_locvars _ Hf) as [Hs2 Hl2].
  destruct (po_upvalues _ Hf) as [Hs3 Hl3].
  rw /debug_blocks !concat_app concat_vector_blocks -app_assoc.
  apply LoadInt_then; [by apply (size_shown strip)|]. rw Nat2Z.id. eapply Loads_bind; [apply LoadVector_loads|].
  apply (LoadList_then _ locvar_blocks id); rw ?list_fmap_id; [by apply size_shown| |].
  { apply Forall_shown. eapply Forall_impl; [exact Hl2|]. intros v. apply LoadLocVar_loads. }
  rw -(app_nil_r (concat (list_blocks string_blocks _))). apply (LoadList_then _ string_blocks id); rw ?list_fmap_id; [by apply size_shown| |].
  { apply Forall_shown. eapply Forall_impl; [exact Hl3|]. intros v. apply LoadString_loads. }
  eapply Loads_eq; [apply Loads_ret|done|]. rw map_to_int //. by apply Forall_shown.
Qed.

Definition accepted (f : Proto) : Prop := proto_ok f /\ luaG_checkcode f = Ok true.

(** The source that is read back. *)
Lemma source_read strip f p q s :
  p_source f = Some s -> (strip = false -> p = None \/ q = p) ->
  match source_to_dump strip f p with None => q | Some s => Some s end = if strip then q else p_source f.
Proof.
  intros Hs Hq. rw /source_to_dump. destruct strip; [by rw decide_True; [right|]|].
  destruct (decide (p_source f = p \/ false = true)) as [[Hp|]|Hn]; [|done|by rw Hs].
  destruct (Hq eq_refl) as [-> | ->]; [congruence|done].
Qed.

Lemma string_ok_dump strip f p : proto_ok f -> string_ok (source_to_dump strip f p).
Proof. intros Hf. rw /source_to_dump. case_decide; [done|]. by destruct (po_source _ Hf) as (s & -> & ?). Qed.

Lemma concat_function_blocks strip p f : concat (function_blocks strip p f) =
  concat (string_blocks (source_to_dump strip f p)) ++ le_enc sizeof_int (p_linedefined f) ++
  le_enc sizeof_int (p_lastlinedefined f) ++ [p_nups f mod 256] ++ [p_numparams f mod 256] ++
  [p_is_vararg f mod 256] ++ [p_maxstacksize f mod 256] ++
  (le_enc sizeof_int (length (p_code f)) ++ concat (le_enc sizeof_Instruction <$> p_code f)) ++
  concat (list_blocks constant_blocks (p_k f)) ++
  concat (list_blocks (function_blocks strip (p_source f)) (p_p f)) ++ concat (debug_blocks strip f).
Proof.
  destruct f. cbn [function_blocks]. rw concat_app. f_equal. rw concat_app. cbn [concat]. rw app_nil_r -!app_assoc.
  do 6 f_equal. rw !concat_app concat_vector_blocks. by rw !app_assoc.
Qed.

Lemma LoadFunction_loads strip d f p q :
  every accepted f -> (depth f <= d)%nat -> (strip = false -> p = None \/ q = p) ->
  Loads (LoadFunction name d q) (concat (function_blocks strip p f)) (dumped strip q f).
Proof.
  revert d p q. induction f as [f IH] using Proto_nested_ind => d p q [[Hf Hcheck] Hps] Hd Hq.
  destruct d as [|d]; [destruct f; simpl in Hd; lia|].
  destruct (po_source _ Hf) as (s & Hs & _). pose proof (source_read strip f p q s Hs Hq) as Hsrc.
  pose proof (string_ok_dump strip f p Hf) as Hso. pose proof (LoadDebug_loads strip f Hf) as Hdebug.
  assert (Forall (fun g => Loads (LoadFunction name d (if strip then q else p_source f))
    (concat (function_blocks strip (p_source f) g)) (dumped strip (if strip then q else p_source f) g)) (p_p f)) as Hsub.
  { apply Forall_forall. intros g Hg. rw Forall_forall in IH. rw Forall_forall in Hps.
    apply IH; [done|by apply Hps|by apply (depth_nested f)|]. intros ->. by right. }
  assert (luaG_checkcode (dumped strip q f) = Ok true) as Hc.
  { rw /dumped. destruct strip; [|done]. apply stripped_checkcode; [apply (po_nups _ Hf)|done]. }
  destruct (po_code _ Hf) as [Hcs Hcode]. destruct (po_k _ Hf) as [Hks Hk]. pose proof (po_p _ Hf) as Hpsz.
  destruct Hf as [_ ? ? ? ? ? ? _ _ _ _ _ _].
  rw concat_function_blocks.
  cbn [LoadFunction]. eapply Loads_bind; [by apply LoadString_loads|]. rw Hsrc.
  eapply Loads_bind; [by apply LoadInt_loads|]. eapply Loads_bind; [by apply LoadInt_loads|].
  do 4 (eapply Loads_bind; [by apply LoadByte_loads|]).
  eapply Loads_bind. { apply LoadInt_then; [done|]. rw Nat2Z.id. apply LoadVector_loads. }
  rw map_mod_id //. apply (LoadList_then _ constant_blocks id); [done| |rw list_fmap_id].
  { eapply Forall_impl; [exact Hk|]. intros o. apply LoadConstant_loads. }
  eapply (LoadList_then _ _ _ _ _ _ _ Hpsz Hsub).
  rw -(app_nil_r (concat (debug_blocks _ _))). eapply Loads_bind; [exact Hdebug|]. cbv beta iota zeta.
  set (f' := MkProto _ _ _ _ _ _ _ _ _ _ _ _ _).
  assert (f' = dumped strip q f) as ->; [|rw Hc; apply Loads_ret].
  rw /f' /dumped. destruct strip; destruct f; simpl; [done|]. by rw list_fmap_id.
Qed.
End functions.

Lemma luaU_undump_loads nCcalls name strip f :
  every accepted f -> (depth f <= LUAI_MAXCCALLS - nCcalls)%nat ->
  Loads (chunk_name name) (fun z => luaU_undump nCcalls z name) (concat (chunk_blocks strip f))
    (dumped strip (Some (lit "=?")) f).
Proof.
  intros Hf Hd. rw /luaU_undump /chunk_blocks. cbn [concat]. eapply Loads_bind.
  - eapply Loads_eq; [eapply Loads_bind; [by apply (LoadBlock_n _ LUAC_HEADERSIZE luaU_header)|]|apply app_nil_r|done].
    destruct (decide (luaU_header <> luaU_header)); [done|]. apply Loads_ret.
  - apply LoadFunction_loads; [done..|]. by left.
Qed.

(** A writer that keeps what it is given. *)
Definition keep_writer (b : list byte) (w : list (list byte)) : Z * list (list byte) := (0, w ++ [b]).

Lemma write_all_keep w blocks : write_all keep_writer w blocks = (0, w ++ blocks).
Proof.
  revert w. induction blocks as [|b blocks IH] => w; simpl; [by rw app_nil_r|]. by rw IH -app_assoc.
Qed.

Lemma luaU_dump_keep strip f : luaU_dump keep_writer [] strip f = (0, chunk_blocks strip f).
Proof.
  rw /luaU_dump DumpFunction_emit. change (DumpHeader keep_writer (MkDump 0 [])) with (emit keep_writer (MkDump 0 []) [luaU_header]).
  rw -emit_app. rw (emit_write_all keep_writer). by rw write_all_keep.
Qed.

(** C22: what luaU_dump() has written luaU_undump() reads back, however the reader cuts the bytes into
    blocks, and it takes exactly the bytes of the chunk: the same function with all its nested
    functions, constants and debug information, or with the strip option the function without debug
    information and with "=?" as its source. The function must be one that the checker accepts, of
    values within their types, and nested less deep than the limit of C calls. *)
Theorem dump_undump (strip : bool) (f : Proto) (nCcalls : nat) (name : cstring)
    (blocks : list (list byte)) (rest : list byte) :
  every accepted f -> (depth f <= LUAI_MAXCCALLS - nCcalls)%nat ->
  Forall (fun b => b <> []) blocks -> Forall is_byte (concat blocks) ->
  concat blocks = concat (luaU_dump keep_writer [] strip f).2 ++ rest ->
  exists z, luaU_undump nCcalls (luaZ_init blocks) name = inr (dumped strip (Some (lit "=?")) f, z) /\
    content z = rest.
Proof.
  intros Hf Hd Hne Hb Heq. rw luaU_dump_keep in Heq.
  destruct (loads_full _ _ _ _ (luaU_undump_loads nCcalls name strip f Hf Hd) (luaZ_init blocks) rest) as (z & ? & ? & ?);
    [done..|]. by exists z.
Qed.

(** A precompiled chunk that ends too early is never taken for a function: on every proper prefix
    of what luaU_dump() wrote, in blocks of any sizes, luaU_undump() raises the error of an unexpected
    end, with the name of the chunk in front. *)
Theorem undump_truncated (strip : bool) (f : Proto) (nCcalls : nat) (name : cstring)
    (blocks : list (list byte)) (cut : list byte) :
  every accepted f -> (depth f <= LUAI_MAXCCALLS - nCcalls)%nat ->
  Forall (fun b => b <> []) blocks -> Forall is_byte (concat blocks) ->
  concat (luaU_dump keep_writer [] strip f).2 = concat blocks ++ cut -> cut <> [] ->
  luaU_undump nCcalls (luaZ_init blocks) name =
    inl (LoadError (chunk_name name ++ lit ": " ++ lit "unexpected end" ++ lit " in precompiled chunk")).
Proof.
  intros Hf Hd Hne Hb Heq Hcut. rw luaU_dump_keep in Heq.
  by apply (loads_cut _ _ _ _ (luaU_undump_loads nCcalls name strip f Hf Hd) (luaZ_init blocks) cut).
Qed.

(** A function with a nested function, a constant and a local variable. *)
Definition inner_proto : Proto :=
  MkProto (Some (lit "=stdin")) 1 2 0 0 0 2 [CREATE_ABC OP_RETURN 0 1 0] [] [] [2] [] [].
Definition outer_proto : Proto :=
  MkProto (Some (lit "=stdin")) 0 0 0 0 2 2
    [CREATE_ABx OP_GETGLOBAL 0 0; CREATE_ABx OP_CLOSURE 1 0; CREATE_ABC OP_CALL 0 2 1; CREATE_ABC OP_RETURN 0 1 0]
    [KString (Some (lit "print")); KBoolean 1; KNil] [inner_proto] [1; 2; 2; 3]
    [MkLocVar (Some (lit "x")) 0 3] [].

Ltac proto_fields :=
  constructor; repeat first [ by eexists; split; [reflexivity|vm_compute; reflexivity]
    | split; [vm_compute; discriminate|repeat constructor; vm_compute; (reflexivity || discriminate || by left || by right)]
    | split; vm_compute; (discriminate || reflexivity) | vm_compute; discriminate ].

Lemma inner_accepted : accepted inner_proto.
Proof. split; [proto_fields|vm_compute; reflexivity]. Qed.

Lemma outer_accepted : accepted outer_proto.
Proof. split; [proto_fields|vm_compute; reflexivity]. Qed.

Lemma outer_every : every accepted outer_proto.
Proof.
  constructor; [apply outer_accepted|]. repeat constructor; apply inner_accepted.
Qed.

(** The chunk given to the reader one byte at a time. *)
Definition outer_bytes (strip : bool) : list byte := concat (luaU_dump keep_writer [] strip outer_proto).2.

Lemma dump_undump_witness :
  exists z, luaU_undump 3 (luaZ_init ((fun b => [b]) <$> outer_bytes false)) (lit "=stdin") =
    inr (outer_proto, z) /\ content z = [].
Proof.
  apply (dump_undump false outer_proto 3 (lit "=stdin") ((fun b => [b]) <$> outer_bytes false) []).
  - apply outer_every.
  - vm_compute. lia.
  - vm_compute. repeat constructor; discriminate.
  - apply (bool_decide_unpack _). vm_compute. exact I.
  - vm_compute. reflexivity.
Defined.

Lemma undump_truncated_witness :
  luaU_undump 3 (luaZ_init [take 40 (outer_bytes true)]) (lit "@f.luac") =
    inl (LoadError (lit "f.luac" ++ lit ": " ++ lit "unexpected end" ++ lit " in precompiled chunk")).
Proof.
  apply (undump_truncated true outer_proto 3 (lit "@f.luac") [take 40 (outer_bytes true)] (drop 40 (outer_bytes true))).
  - apply outer_every.
  - vm_compute. lia.
  - vm_compute. repeat constructor. discriminate.
  - apply (bool_decide_unpack _). vm_compute. exact I.
  - vm_compute. reflexivity.
  - vm_compute. discriminate.
Defined.

(** ** Proofs: loading anything *)

Section sound.
Context (name : cstring).

Definition load_message (msg : cstring) : Prop :=
  exists why, msg = name ++ lit ": " ++ why ++ lit " in precompiled chunk" /\
    why ∈ [lit "unexpected end"; lit "bad integer"; lit "bad constant"; lit "code too deep"; lit "bad code"; lit "bad header"].

(** [m] has no fault, raises only the errors of the loader, moves forward in the stream, and
    returns something that satisfies [P]. *)
Definition Safe {A} (m : Load A) (P : A -> Prop) : Prop := forall z, stream_ok z ->
  match m z with
  | inl (LoadError msg) => load_message msg
  | inl (LoadFault _) => False
  | inr (a, z') => P a /\ stream_ok z' /\ content z' `suffix_of` content z
  end.

Lemma Safe_ret {A} (a : A) (P : A -> Prop) : P a -> Safe (mret a) P.
Proof. intros ? z ?. by split_and!. Qed.

Lemma Safe_bind {A B} (m : Load A) (k : A -> Load B) P Q :
  Safe m P -> (forall a, P a -> Safe (k a) Q) -> Safe (m ≫= k) Q.
Proof.
  intros Hm Hk z Hz. specialize (Hm z Hz). rw /mbind /Load_bind.
  destruct (m z) as [[msg|f]|[a z1]]; [done..|]. destruct Hm as (Ha & Hz1 & Hs1).
  specialize (Hk a Ha z1 Hz1). destruct (k a z1) as [[msg|f]|[b z2]]; [done..|]. destruct Hk as (? & ? & Hs2).
  split_and!; [done..|]. by etrans.
Qed.

Lemma Safe_mono {A} (m : Load A) (P Q : A -> Prop) : Safe m P -> (forall a, P a -> Q a) -> Safe m Q.
Proof.
  intros Hm HPQ z Hz. specialize (Hm z Hz). destruct (m z) as [[msg|f]|[a z1]]; [done..|]. naive_solver.
Qed.

Lemma Safe_error {A} (why : string) (P : A -> Prop) :
  lit why ∈ [lit "unexpected end"; lit "bad integer"; lit "bad constant"; lit "code too deep"; lit "bad code"; lit "bad header"] ->
  Safe (error name why) P.
Proof. intros Hw z _. exists (lit why). done. Qed.

Ltac error_word := apply Safe_error; repeat first [apply list_elem_of_here | apply list_elem_of_further].

Lemma LoadBlock_safe n : Safe (LoadBlock name n) (fun bs => length bs = n /\ Forall is_byte bs).
Proof.
  intros z Hz. rw /LoadBlock /luaZ_read. destruct (luaZ_read_loop_spec (S n) z n Hz) as (z' & -> & Hc & Hz'); [lia|].
  destruct (decide _) as [Hn|Hn].
  - exists (lit "unexpected end"). split; [done|]. apply list_elem_of_here.
  - split; [|split; [done|]].
    + split; [rw length_take; lia|]. apply Forall_take, Hz.
    + rw Hc. apply suffix_drop.
Qed.

Lemma LoadChar_safe : Safe (LoadChar name) (fun _ => True).
Proof. eapply Safe_bind; [apply LoadBlock_safe|]. intros. by apply Safe_ret. Qed.

Lemma LoadByte_safe : Safe (LoadByte name) is_byte.
Proof.
  eapply Safe_bind; [apply LoadChar_safe|]. intros c _. apply Safe_ret. apply Z.mod_pos_bound. lia.
Qed.

Lemma LoadInt_safe : Safe (LoadInt name) (fun x => 0 <= x).
Proof.
  eapply Safe_bind; [apply LoadBlock_safe|]. intros bs _. cbv zeta. destruct (decide _); [error_word|].
  apply Safe_ret. lia.
Qed.

Lemma LoadString_safe : Safe (LoadString name) (fun _ => True).
Proof.
  eapply Safe_bind; [apply LoadBlock_safe|]. intros bs _. cbv zeta. destruct (decide _); [by apply Safe_ret|].
  eapply Safe_bind; [apply LoadBlock_safe|]. intros. by apply Safe_ret.
Qed.

Lemma LoadVector_safe n size : Safe (LoadVector name n size) (fun _ => True).
Proof. eapply Safe_bind; [apply LoadBlock_safe|]. intros. by apply Safe_ret. Qed.

Lemma load_times_safe {A} n (m : Load A) P : Safe m P -> Safe (load_times n m) (Forall P).
Proof.
  intros Hm. induction n as [|n IH]; simpl; [by apply Safe_ret|].
  eapply Safe_bind; [exact Hm|]. intros a Ha. eapply Safe_bind; [exact IH|]. intros l Hl. apply Safe_ret. by constructor.
Qed.

Lemma LoadConstant_safe : Safe (LoadConstant name) (fun _ => True).
Proof.
  eapply Safe_bind; [apply LoadChar_safe|]. intros t _. repeat (destruct (decide _)); [by apply Safe_ret|..|error_word].
  - eapply Safe_bind; [apply LoadChar_safe|]. intros. by apply Safe_ret.
  - eapply Safe_bind; [apply LoadBlock_safe|]. intros. by apply Safe_ret.
  - eapply Safe_bind; [apply LoadString_safe|]. intros. by apply Safe_ret.
Qed.

Lemma LoadDebug_safe : Safe (LoadDebug name) (fun _ => True).
Proof.
  eapply Safe_bind; [apply LoadInt_safe|]. intros n1 _. eapply Safe_bind; [apply LoadVector_safe|]. intros li _.
  eapply Safe_bind; [apply LoadInt_safe|]. intros n2 _. eapply Safe_bind.
  { apply load_times_safe. eapply Safe_bind; [apply LoadString_safe|]. intros v _.
    eapply Safe_bind; [apply LoadInt_safe|]. intros s _. eapply Safe_bind; [apply LoadInt_safe|]. intros e _.
    by apply (Safe_ret _ (fun _ => True)). }
  intros lv _. eapply Safe_bind; [apply LoadInt_safe|]. intros n3 _.
  eapply Safe_bind; [apply load_times_safe, LoadString_safe|]. intros. by apply Safe_ret.
Qed.

(** What the checker guarantees of a loaded function. *)
Definition verified (f : Proto) : Prop :=
  luaG_checkcode f = Ok true /\ Forall (fun g => 0 <= p_nups g) (p_p f) /\ 0 <= p_nups f.

Definition loaded_ok (d : nat) (f : Proto) : Prop := every verified f /\ (depth f <= d)%nat.

Lemma loaded_nups d f : loaded_ok d f -> 0 <= p_nups f.
Proof. by intros [[(_ & _ & ?) _] _]. Qed.

(** The checker ends with a verdict on anything the loader has built. *)
Lemma checkcode_total f : Forall (fun g => 0 <= p_nups g) (p_p f) ->
  luaG_checkcode f = Ok true \/ luaG_checkcode f = Ok false.
Proof.
  intros Hn. pose proof (symbexec_wp f (sizecode f) NO_REG Hn ltac:(lia)) as Hwp.
  rw /luaG_checkcode /symbexec. destruct (_ ≫= _) as [[i|]|e]; [|by right|done].
  simpl. case_bool_decide; simpl; auto.
Qed.

Lemma depth_bound f d : Forall (fun g => depth g <= d)%nat (p_p f) -> (depth f <= S d)%nat.
Proof.
  destruct f as [? ? ? ? ? ? ? ? ? ps ? ? ?]; simpl. intros Hps. apply le_n_S. induction Hps; simpl; lia.
Qed.

Lemma LoadFunction_safe d p : Safe (LoadFunction name d p) (loaded_ok d).
Proof.
  revert p. induction d as [|d IH] => p; cbn [LoadFunction]; [error_word|].
  eapply Safe_bind; [apply LoadString_safe|]. intros src _.
  eapply Safe_bind; [apply LoadInt_safe|]. intros ld _. eapply Safe_bind; [apply LoadInt_safe|]. intros lld _.
  eapply Safe_bind; [apply LoadByte_safe|]. intros nups Hnups.
  do 3 (eapply Safe_bind; [apply LoadByte_safe|]; intros ? _).
  eapply Safe_bind. { eapply Safe_bind; [apply LoadInt_safe|]. intros n _. apply LoadVector_safe. }
  intros code _. eapply Safe_bind; [apply LoadInt_safe|]. intros nk _.
  eapply Safe_bind; [apply load_times_safe, LoadConstant_safe|]. intros k _.
  eapply Safe_bind; [apply LoadInt_safe|]. intros np _.
  eapply Safe_bind; [apply load_times_safe, IH|]. intros ps Hps.
  eapply Safe_bind; [apply LoadDebug_safe|]. intros [[li lv] uv] _. cbv beta iota zeta.
  set (f := MkProto _ _ _ _ _ _ _ _ _ _ _ _ _).
  assert (Forall (fun g => 0 <= p_nups g) (p_p f)) as Hsub by (eapply Forall_impl; [exact Hps|apply loaded_nups]).
  destruct (checkcode_total f Hsub) as [Hc|Hc]; rw Hc; [|error_word].
  apply Safe_ret. split.
  - constructor; [split_and!; [done..|apply Hnups]|]. eapply Forall_impl; [exact Hps|]. by intros g [? _].
  - apply depth_bound. eapply Forall_impl; [exact Hps|]. by intros g [_ ?].
Qed.
End sound.


