(* ===== verification/LuaStr.v ===== *)
(** LuaStr: the string library without patterns, src/liblua/src/lstrlib.c: lengths,
    substrings, bytes, plain search, and the parts of string.format that the library
    does itself (quoting, scanning of a format specification).

    Strings are lists of unsigned characters; each ends with a null that is not part
    of it. Integer arguments are what luaL_checkinteger() and luaL_checkint() give;
    [ptrdiff_t] and [size_t] have 64 bits, and no string has 2^63 characters. The
    library buffers are the characters added to them. Messages of luaL_error() are
    without the position it puts in front. *)

From Corelib Require Import ssreflect.
From stdpp Require Import base list numbers strings.
From Stdlib Require Import ZArith Lia.
From S2P Require Import Prelude Libc LuaObject.

(** ** Characters *)

Definition isdigit (c : Z) : bool := bool_decide (48 <= c <= 57).
Definition isupper (c : Z) : bool := bool_decide (65 <= c <= 90).
Definition islower (c : Z) : bool := bool_decide (97 <= c <= 122).
Definition isalpha (c : Z) : bool := isupper c || islower c.
Definition isalnum (c : Z) : bool := isalpha c || isdigit c.
Definition iscntrl (c : Z) : bool := bool_decide (0 <= c <= 31) || bool_decide (c = 127).
Definition isxdigit (c : Z) : bool := isdigit c || bool_decide (65 <= c <= 70) || bool_decide (97 <= c <= 102).
Definition ispunct (c : Z) : bool := bool_decide (33 <= c <= 126) && negb (isalnum c).
Definition tolower (c : Z) : Z := if isupper c then c + 32 else c.
Definition toupper (c : Z) : Z := if islower c then c - 32 else c.

(** ** Positions and substrings *)

Definition str_len (s : list Z) : Z := length s.

Definition posrelat (pos len : Z) : Z :=
  let pos := if decide (pos < 0) then pos + (len + 1) else pos in
  if decide (pos >= 0) then pos else 0.

(** [lua_pushlstring(L, s + from, len)] *)
Definition lstring (s : list Z) (from len : Z) : lres (list Z) :=
  if decide (0 <= from /\ 0 <= len /\ from + len <= length s)
  then LOk (take (Z.to_nat len) (drop (Z.to_nat from) s)) else LFault OutOfBounds.

Definition str_sub (s : list Z) (i j : Z) : lres (list Z) :=
  let l := length s in
  let start := posrelat i l in
  let end_ := posrelat j l in
  let start := if decide (start < 1) then 1 else start in
  let end_ := if decide (end_ > l) then Z.of_nat l else end_ in
  if decide (start <= end_) then lstring s (start - 1) (end_ - start + 1) else LOk [].

(** The loop [while (l--)]. *)
Fixpoint reverse_loop (s : list Z) (l : nat) (b : list Z) : lres (list Z) :=
  match l with
  | O => LOk b
  | S l => c ← char_at s l; reverse_loop s l (b ++ [c])
  end.
Definition str_reverse (s : list Z) : lres (list Z) := reverse_loop s (length s) [].

Definition str_lower (s : list Z) : list Z := tolower <$> s.
Definition str_upper (s : list Z) : list Z := toupper <$> s.

(** The loop [while (n-- > 0)]: the decrement of the smallest [int] overflows. *)
Fixpoint rep_loop (fuel : nat) (s : list Z) (n : Z) (b : list Z) : lres (list Z) :=
  match fuel with
  | O => LFault OutOfFuel
  | S fuel =>
      if decide (n = int_min) then LFault SignedOverflow
      else if decide (n > 0) then rep_loop fuel s (n - 1) (b ++ s) else LOk b
  end.
Definition str_rep (s : list Z) (n : Z) : lres (list Z) := rep_loop (S (Z.to_nat n)) s n [].

(** ** Characters and their codes *)

(** lua_checkstack(): [used] slots are in use, LUAI_MAXCSTACK is the limit. *)
Definition LUAI_MCS_AUX : Z := int_max / (4 * 8).
Definition LUAI_MAXCSTACK : Z := if decide (LUAI_MCS_AUX > 32767) then 32767 else LUAI_MCS_AUX.
Definition lua_checkstack (used size : Z) : bool :=
  negb (bool_decide (size > LUAI_MAXCSTACK \/ used + size > LUAI_MAXCSTACK)).
Definition luaL_checkstack (used n : Z) (msg : string) : lres unit :=
  if negb (lua_checkstack used n) then LError (lit "stack overflow (" ++ lit msg ++ lit ")") else LOk ().
Arguments luaL_checkstack used n msg%_string.

Fixpoint byte_loop (s : list Z) (posi : Z) (n : nat) (i : Z) : lres (list Z) :=
  match n with
  | O => LOk []
  | S n => c ← char_at s (posi + i - 1); l ← byte_loop s posi n (i + 1); LOk (c :: l)
  end.

Definition str_byte (used : Z) (s : list Z) (i j : Z) : lres (list Z) :=
  let l := length s in
  let posi := posrelat i l in
  let pose := posrelat j l in
  let posi := if decide (posi <= 0) then 1 else posi in
  let pose := if decide (pose > l) then Z.of_nat l else pose in
  if decide (posi > pose) then LOk []
  else
    let n := to_int (pose - posi + 1) in
    if decide (posi + n <= pose) then LError (lit "string slice too long")
    else
      _ ← luaL_checkstack used n "string slice too long";
      byte_loop s posi (Z.to_nat n) 0.

Definition uchar (c : Z) : Z := c mod 256.

(** [luaL_argerror()], for a function that was called by the name [fname]. *)
Definition luaL_argerror {A} (fname : cstring) (narg : Z) (extramsg : string) : lres A :=
  LError (lit "bad argument #" ++ fmt_d narg ++ lit " to '" ++ fname ++ lit "' (" ++ lit extramsg ++ lit ")").
Arguments luaL_argerror {A} fname narg extramsg%_string.

(** The loop over the arguments of string.char, from the [i]-th on. *)
Fixpoint char_loop (fname : cstring) (args : list Z) (i : Z) (b : list Z) : lres (list Z) :=
  match args with
  | [] => LOk b
  | c :: args =>
      if decide (uchar c = c) then char_loop fname args (i + 1) (b ++ [uchar c])
      else luaL_argerror fname i "invalid value"
  end.
Definition str_char (fname : cstring) (args : list Z) : lres (list Z) := char_loop fname args 1 [].

(** ** Plain search *)

(** [memchr(s + from, c, n)]: the position of the first [c]. *)
Fixpoint memchr (s : list Z) (from : Z) (c : Z) (n : nat) : lres (option Z) :=
  match n with
  | O => LOk None
  | S n =>
      d ← char_at s from;
      if decide (d = c) then LOk (Some from) else memchr s (from + 1) c n
  end.

(** [memcmp(s1 + i, s2 + j, n) == 0] *)
Definition memeq (s1 : list Z) (i : Z) (s2 : list Z) (j n : Z) : lres bool :=
  a ← lstring s1 i n; b ← lstring s2 j n; LOk (bool_decide (a = b)).

(** The loop of lmemfind(): [s1] is a position, [l1] the number of places left. *)
Fixpoint memfind_loop (fuel : nat) (s : list Z) (s1 l1 : Z) (s2 : list Z) (c : Z) (l2 : Z) : lres (option Z) :=
  match fuel with
  | O => LFault OutOfFuel
  | S fuel =>
      if decide (l1 > 0) then
        init ← memchr s s1 c (Z.to_nat l1);
        match init with
        | None => LOk None
        | Some init =>
            let init := init + 1 in
            eq ← memeq s init s2 1 l2;
            if eq : bool then LOk (Some (init - 1))
            else memfind_loop fuel s init (l1 - (init - s1)) s2 c l2
        end
      else LOk None
  end.

(** [lmemfind(s + s1, l1, s2, l2)] *)
Definition lmemfind (s : list Z) (s1 l1 : Z) (s2 : list Z) (l2 : Z) : lres (option Z) :=
  if decide (l2 = 0) then LOk (Some s1)
  else if decide (l2 > l1) then LOk None
  else
    let l2 := l2 - 1 in
    let l1 := l1 - l2 in
    c ← char_at s2 0;
    memfind_loop (S (Z.to_nat l1)) s s1 l1 s2 c l2.

(** ** Formats *)

(** [addquoted()]: a character of the argument, as it is added. *)
Definition quote_char (c : Z) : list Z :=
  if decide (c = 34 \/ c = 92 \/ c = 10) then [92; c]
  else if decide (c = 13) then lit "\r"
  else if decide (c = 0) then lit "\000"
  else [c].

Fixpoint quote_loop (s : list Z) (b : list Z) : list Z :=
  match s with
  | [] => b
  | c :: s => quote_loop s (b ++ quote_char c)
  end.
Definition addquoted (b : list Z) (s : list Z) : list Z := quote_loop s (b ++ [34]) ++ [34].

Definition FLAGS : list Z := lit "-+ #0".
Definition LUA_INTFRMLEN : list Z := lit "l".
Definition MAX_FORMAT : Z := length FLAGS + 1 + (length LUA_INTFRMLEN + 1) + 10.

(** [while ( *p != 0 && strchr(FLAGS, *p) != NULL) p++], for a position [p] in the format. *)
Fixpoint skip_flags (fuel : nat) (s : list Z) (p : Z) : lres Z :=
  match fuel with
  | O => LFault OutOfFuel
  | S fuel =>
      c ← char_at s p;
      if decide (c <> 0 /\ c ∈ FLAGS) then skip_flags fuel s (p + 1) else LOk p
  end.

(** [if (isdigit(uchar( *p))) p++] *)
Definition skip_digit (s : list Z) (p : Z) : lres Z :=
  c ← char_at s p; LOk (if isdigit c then p + 1 else p).

(** Two of them, for a width or a precision. *)
Definition skip_digits (s : list Z) (p : Z) : lres Z := p ← skip_digit s p; skip_digit s p.

(** Writing the null-terminated [form] into a buffer of MAX_FORMAT bytes. *)
Definition form_string (form : list Z) : lres (list Z) :=
  if decide (length form < MAX_FORMAT) then LOk form else LFault OutOfBounds.

(** The characters from [strfrmt] to [p], both included; the terminating null is copied as
    the end of the string. *)
Definition scanformat (s : list Z) (strfrmt : Z) : lres (Z * list Z) :=
  p ← skip_flags (S (length s)) s strfrmt;
  if decide (p - strfrmt >= length FLAGS + 1) then LError (lit "invalid format (repeated flags)")
  else
    p ← skip_digits s p;
    c ← char_at s p;
    p ← (if decide (c = 46) then skip_digits s (p + 1) else LOk p);
    c ← char_at s p;
    if isdigit c then LError (lit "invalid format (width or precision too long)")
    else
      form ← form_string (37 :: take (Z.to_nat (p - strfrmt + 1)) (drop (Z.to_nat strfrmt) s));
      LOk (p, form).

(** The length modifier goes before the conversion, the last character. *)
Definition addintlen (form : list Z) : lres (list Z) :=
  match last form with
  | Some spec => form_string (take (length form - 1) form ++ LUA_INTFRMLEN ++ [spec])
  | None => LFault OutOfBounds
  end.

(** ** Proofs: substrings *)

Lemma char_at_lookup s i c : s !! i = Some c -> char_at s (Z.of_nat i) = LOk c.
Proof. intros Hi. rw /char_at. case_decide; [|lia]. by rw Nat2Z.id Hi. Qed.

Lemma char_at_end s : char_at s (length s) = LOk 0.
Proof. rw /char_at. case_decide; [|lia]. rw Nat2Z.id lookup_ge_None_2 //. by case_decide. Qed.

(** Reading up to the null is defined. *)
Lemma char_at_ok s i : 0 <= i <= length s -> exists c, char_at s i = LOk c /\
  (s !! Z.to_nat i = Some c \/ i = length s /\ c = 0).
Proof.
  intros Hi. destruct (decide (i = length s)) as [->|]; [exists 0; split; [apply char_at_end|by right]|].
  destruct (lookup_lt_is_Some_2 s (Z.to_nat i)) as [c Hc]; [lia|].
  exists c. split; [|by left]. rw -(Z2Nat.id i); [lia|]. by apply char_at_lookup.
Qed.

(** The characters at the positions from [lo] to [hi], counted from [k]. *)
Fixpoint slice (k lo hi : Z) (s : list Z) : list Z :=
  match s with
  | [] => []
  | c :: s => if decide (lo <= k <= hi) then c :: slice (k + 1) lo hi s else slice (k + 1) lo hi s
  end.

(** A position from the end. *)
Definition absolute (pos len : Z) : Z := if decide (pos < 0) then len + 1 + pos else pos.

Lemma slice_empty k lo hi s : hi < lo \/ hi < k -> slice k lo hi s = [].
Proof. revert k. induction s as [|c s IH] => k H; simpl; [done|]. case_decide; [lia|]. apply IH. lia. Qed.

Lemma slice_take k lo hi s : lo <= k -> slice k lo hi s = take (Z.to_nat (hi - k + 1)) s.
Proof.
  revert k. induction s as [|c s IH] => k H; simpl; [by rw take_nil|]. case_decide.
  - replace (Z.to_nat (hi - k + 1)) with (S (Z.to_nat (hi - (k + 1) + 1))) by lia. simpl. by rw IH; [lia|].
  - rw slice_empty; [lia|]. by replace (Z.to_nat (hi - k + 1)) with O by lia.
Qed.

Lemma slice_drop k lo hi s : k <= lo ->
  slice k lo hi s = take (Z.to_nat (hi - lo + 1)) (drop (Z.to_nat (lo - k)) s).
Proof.
  revert k. induction s as [|c s IH] => k H; [by rw drop_nil take_nil|].
  destruct (decide (lo = k)) as [->|]; [rw Z.sub_diag; by apply slice_take|]. simpl. case_decide; [lia|].
  rw IH; [lia|]. by replace (Z.to_nat (lo - k)) with (S (Z.to_nat (lo - (k + 1)))) by lia.
Qed.

Lemma slice_clamp lo hi s :
  slice 1 (Z.max 1 lo) (Z.min (length s) hi) s = slice 1 lo hi s.
Proof.
  assert (forall k, 1 <= k -> slice k (Z.max 1 lo) (Z.min (k + length s - 1) hi) s = slice k lo hi s) as H.
  { induction s as [|c s IH] => k Hk; [done|]. cbn [slice length].
    replace (k + S (length s) - 1) with (k + 1 + length s - 1) by lia. rw IH; [lia|].
    repeat case_decide; done || lia. }
  rw -(H 1) //. f_equal. lia.
Qed.

Lemma lstring_slice s lo hi : 1 <= lo -> lo <= hi -> hi <= length s ->
  lstring s (lo - 1) (hi - lo + 1) = LOk (slice 1 lo hi s).
Proof. intros ? ? ?. rw /lstring. case_decide; [|lia]. by rw slice_drop. Qed.

Lemma posrelat_absolute pos len : posrelat pos len = Z.max 0 (absolute pos len).
Proof. rw /posrelat /absolute. repeat case_decide; lia. Qed.

Lemma str_sub_slice s i j :
  str_sub s i j = LOk (slice 1 (absolute i (length s)) (absolute j (length s)) s).
Proof.
  rw /str_sub !posrelat_absolute -slice_clamp. set (lo := absolute i _). set (hi := absolute j _).
  assert ((if decide (Z.max 0 lo < 1) then 1 else Z.max 0 lo) = Z.max 1 lo) as -> by (case_decide; lia).
  set (h := if decide (Z.max 0 hi > length s) then Z.of_nat (length s) else Z.max 0 hi).
  assert (h = Z.max 0 (Z.min (length s) hi)) as Hh by (rw /h; case_decide; lia).
  case_decide.
  - rw lstring_slice; [lia..|]. do 2 f_equal. lia.
  - rw slice_empty //. lia.
Qed.

Lemma byte_loop_slice s posi (n : nat) i : 0 < posi -> 0 <= i -> posi + i + n - 1 <= length s ->
  byte_loop s posi n i = LOk (slice 1 (posi + i) (posi + i + n - 1) s).
Proof.
  intros Hp. revert i. induction n as [|n IH] => i Hi Hl; cbn [byte_loop]; [rw slice_empty //; lia|].
  destruct (lookup_lt_is_Some_2 s (Z.to_nat (posi + i - 1))) as [c Hc]; [lia|].
  assert (char_at s (posi + i - 1) = LOk c) as -> by (rw -(Z2Nat.id (posi + i - 1)); [lia|]; by apply char_at_lookup).
  rw LOk_bind IH; [lia..|]. rw LOk_bind !slice_drop; [lia..|]. rw (drop_S _ _ _ Hc).
  replace (Z.to_nat (posi + i + S n - 1 - (posi + i) + 1)) with (S n) by lia.
  replace (Z.to_nat (posi + (i + 1) + n - 1 - (posi + (i + 1)) + 1)) with n by lia.
  by replace (Z.to_nat (posi + (i + 1) - 1)) with (S (Z.to_nat (posi + i - 1))) by lia.
Qed.

Lemma str_byte_slice used s i j : used + length s <= LUAI_MAXCSTACK ->
  0 <= used -> str_byte used s i j = LOk (slice 1 (absolute i (length s)) (absolute j (length s)) s).
Proof.
  change LUAI_MAXCSTACK with 32767 => Hu Hu0. rw /str_byte !posrelat_absolute -slice_clamp. set (lo := absolute i _). set (hi := absolute j _).
  assert ((if decide (Z.max 0 lo <= 0) then 1 else Z.max 0 lo) = Z.max 1 lo) as -> by (case_decide; lia).
  set (h := if decide (Z.max 0 hi > length s) then Z.of_nat (length s) else Z.max 0 hi).
  assert (h = Z.max 0 (Z.min (length s) hi)) as Hh by (rw /h; case_decide; lia).
  destruct (decide (Z.max 1 lo > h)); [rw slice_empty //; lia|].
  rw to_int_small; [rw /int_min /int_max; lia|]. destruct (decide (_ <= h)); [lia|].
  rw /luaL_checkstack /lua_checkstack. change LUAI_MAXCSTACK with 32767. rw bool_decide_false; [lia|]. simpl.
  rw byte_loop_slice; [lia..|]. do 2 f_equal; lia.
Qed.

Lemma char_loop_ok fname args i b : Forall (fun c => 0 <= c < 256) args -> char_loop fname args i b = LOk (b ++ args).
Proof.
  intros Ha. revert i b. induction Ha as [|c args Hc _ IH] => i b; simpl; [by rw app_nil_r|].
  rw /uchar Z.mod_small //. destruct (decide (c = c)); [|done]. by rw IH -app_assoc.
Qed.

Lemma slice_all s : slice 1 1 (length s) s = s.
Proof. rw slice_take //. by rw take_ge; [lia|]. Qed.

Lemma slice_app k lo mid hi s :
  lo <= mid + 1 -> mid <= hi -> slice k lo mid s ++ slice k (mid + 1) hi s = slice k lo hi s.
Proof.
  intros ? ?. revert k. induction s as [|c s IH] => k; [done|]. cbn [slice]. destruct (decide (k <= mid)).
  - repeat (case_decide; try lia); simpl; by rw IH.
  - rw -(IH (k + 1)) (slice_empty (k + 1) lo mid); [lia|]. by repeat (case_decide; try lia).
Qed.

Lemma Forall_slice (P : Z -> Prop) k lo hi s : Forall P s -> Forall P (slice k lo hi s).
Proof. intros Hs. revert k. induction Hs; intros k; simpl; [constructor|]. case_decide; auto. Qed.

Lemma reverse_loop_ok s l b : (l <= length s)%nat -> reverse_loop s l b = LOk (b ++ reverse (take l s)).
Proof.
  revert b. induction l as [|l IH] => b Hl; simpl; [by rw app_nil_r|].
  destruct (lookup_lt_is_Some_2 s l) as [c Hc]; [lia|]. rw (char_at_lookup _ _ _ Hc) LOk_bind IH; [lia|].
  by rw (take_S_r _ _ _ Hc) reverse_app -app_assoc.
Qed.

Lemma rep_loop_ok (fuel : nat) s n b : int_min < n -> n < fuel ->
  (0 < fuel)%nat -> rep_loop fuel s n b = LOk (b ++ concat (replicate (Z.to_nat n) s)).
Proof.
  revert n b. induction fuel as [|fuel IH] => n b Hm Hf H0; [lia|]. cbn [rep_loop].
  destruct (decide (n = int_min)); [lia|]. destruct (decide (n > 0)).
  - rw IH; [rw /int_min in Hm *; lia|lia|lia|]. replace (Z.to_nat n) with (S (Z.to_nat (n - 1))) by lia.
    by rw /= -app_assoc.
  - replace (Z.to_nat n) with O by lia. by rw app_nil_r.
Qed.

(** String.sub returns exactly the characters whose positions lie between its two arguments, a
    negative argument counting from the end; positions outside the string, in any order, never make it
    read outside. So a prefix and the rest make the string again. string.byte returns the codes of the
    same characters, when they fit on the stack, and string.char makes the string from them. *)
Theorem string_slices (used : Z) (fname : cstring) (s : list Z) (i j k : Z) :
  Forall (fun c => 0 <= c < 256) s -> 0 <= used -> used + length s <= LUAI_MAXCSTACK -> 0 <= k ->
  let r := slice 1 (absolute i (length s)) (absolute j (length s)) s in
  str_sub s i j = LOk r /\ str_byte used s i j = LOk r /\ str_char fname r = LOk r /\
  (exists a b, str_sub s 1 k = LOk a /\ str_sub s (k + 1) (-1) = LOk b /\ a ++ b = s) /\
  str_byte used s 1 (-1) = LOk s.
Proof.
  intros Hs Hu0 Hu Hk r. rw !str_sub_slice !str_byte_slice //.
  assert (Forall (fun c => 0 <= c < 256) r) as Hr.
  { by apply Forall_slice. }
  split; [done|]. split; [done|]. split; [by apply char_loop_ok|]. rw /absolute.
  repeat (case_decide; try lia). replace (length s + 1 + -1) with (Z.of_nat (length s)) by lia. rw slice_all.
  split; [|done]. eexists _, _. split; [done|]. split; [done|]. etrans; [|apply slice_all].
  destruct (decide (k <= length s)); [apply slice_app; lia|].
  rw (slice_empty _ (k + 1)) ?app_nil_r; [lia|]. by rw -(slice_clamp 1 k) -(slice_clamp 1 (length s)) !Z.min_l; [lia..|].
Qed.

Lemma string_slices_witness :
  let s := lit "hello" in
  let r := slice 1 (absolute (-3) (length s)) (absolute 4 (length s)) s in
  str_sub s (-3) 4 = LOk r /\ str_byte 3 s (-3) 4 = LOk r /\ str_char (lit "char") r = LOk r /\
  (exists a b, str_sub s 1 2 = LOk a /\ str_sub s (2 + 1) (-1) = LOk b /\ a ++ b = s) /\
  str_byte 3 s 1 (-1) = LOk s.
Proof.
  apply (string_slices 3 (lit "char") (lit "hello") (-3) 4 2); [|vm_compute; discriminate..].
  apply (bool_decide_unpack _). vm_compute. exact I.
Defined.

(** string.reverse and string.rep; the count of a repetition is decremented even when it is negative,
    so that the smallest [int] overflows. *)
Theorem string_reverse_rep (s : list Z) (n : Z) :
  str_reverse s = LOk (reverse s) /\
  (int_min < n -> str_rep s n = LOk (concat (replicate (Z.to_nat n) s))) /\
  str_rep s int_min = LFault SignedOverflow.
Proof.
  split; [|split].
  - rw /str_reverse reverse_loop_ok //. by rw firstn_all.
  - intros Hn. rw /str_rep rep_loop_ok //; lia.
  - rw /str_rep. cbn [rep_loop]. by destruct (decide (int_min = int_min)).
Qed.

(** ** Proofs: plain search *)

Lemma memchr_ok s from c (n : nat) : 0 <= from -> from + n <= length s ->
  exists r, memchr s from c n = LOk r /\
    match r with
    | Some i => from <= i < from + n /\ s !! Z.to_nat i = Some c /\
        forall j, from <= j < i -> s !! Z.to_nat j <> Some c
    | None => forall j, from <= j < from + n -> s !! Z.to_nat j <> Some c
    end.
Proof.
  revert from. induction n as [|n IH] => from Hf Hn; cbn [memchr]; [exists None; split; [done|lia]|].
  destruct (lookup_lt_is_Some_2 s (Z.to_nat from)) as [d Hd]; [lia|].
  assert (char_at s from = LOk d) as -> by (rw -(Z2Nat.id from); [lia|]; by apply char_at_lookup).
  rw LOk_bind. destruct (decide (d = c)) as [->|Hne].
  - exists (Some from). split; [done|]. split; [lia|]. split; [done|lia].
  - destruct (IH (from + 1)) as (r & -> & Hr); [lia..|]. exists r. split; [done|].
    destruct r as [i|].
    + destruct Hr as (? & ? & Hr). split; [lia|]. split; [done|]. intros j Hj.
      destruct (decide (j = from)) as [->|]; [congruence|]. apply Hr. lia.
    + intros j Hj. destruct (decide (j = from)) as [->|]; [congruence|]. apply Hr. lia.
Qed.

(** [s2] stands at position [i] of [s]. *)
Definition occurs (s s2 : list Z) (i : Z) : Prop := take (length s2) (drop (Z.to_nat i) s) = s2.

#[export] Instance occurs_dec s s2 i : Decision (occurs s s2 i).
Proof. rw /occurs. apply _. Defined.

Lemma occurs_cons s c s2 i : occurs s (c :: s2) i <->
  s !! Z.to_nat i = Some c /\ take (length s2) (drop (S (Z.to_nat i)) s) = s2.
Proof.
  rw /occurs. split.
  - intros H. destruct (s !! Z.to_nat i) as [d|] eqn:Hd.
    + rw (drop_S _ _ _ Hd) in H. simpl in H. by injection H as -> ->.
    + apply lookup_ge_None in Hd. by rw drop_ge // take_nil in H.
  - intros [Hd H]. by rw (drop_S _ _ _ Hd) /= H.
Qed.

Lemma occurs_length s s2 i : 0 <= i -> s2 <> [] -> occurs s s2 i -> i + length s2 <= length s.
Proof.
  rw /occurs => Hi Hne H. apply (f_equal length) in H. rw length_take length_drop in H.
  assert (0 < length s2)%nat by (destruct s2; [done|simpl; lia]). lia.
Qed.

Definition first_occurrence (s s2 : list Z) (from : Z) (r : option Z) : Prop :=
  match r with
  | Some i => from <= i /\ occurs s s2 i /\ forall j, from <= j < i -> ~ occurs s s2 j
  | None => forall j, from <= j -> ~ occurs s s2 j
  end.

Lemma memfind_loop_ok (fuel : nat) s s1 c s2 :
  0 <= s1 -> length s - length s2 - s1 < fuel -> (0 < fuel)%nat ->
  exists r, memfind_loop fuel s s1 (length s - length s2 - s1) (c :: s2) c (length s2) = LOk r /\
    first_occurrence s (c :: s2) s1 r.
Proof.
  revert s1. induction fuel as [|fuel IH] => s1 H1 Hf H0; [lia|]. cbn [memfind_loop].
  destruct (decide (_ > 0)) as [Hl|Hl].
  2: { exists None. split; [done|]. intros j Hj Ho. apply occurs_length in Ho; [|lia|done]. simpl in Ho. lia. }
  destruct (memchr_ok s s1 c (Z.to_nat (length s - length s2 - s1))) as (r & -> & Hr); [lia..|]. rw LOk_bind.
  destruct r as [i|].
  - destruct Hr as (Hi & Hci & Hbefore).
    assert (memeq s (i + 1) (c :: s2) 1 (length s2) =
      LOk (bool_decide (take (length s2) (drop (S (Z.to_nat i)) s) = s2))) as ->.
    { rw /memeq /lstring. destruct (decide (0 <= i + 1 /\ _)) as [_|H]; [|lia].
      rw LOk_bind. destruct (decide (0 <= 1 /\ _)) as [_|H]; [|rw length_cons in H; lia].
      rw LOk_bind Nat2Z.id. replace (Z.to_nat (i + 1)) with (S (Z.to_nat i)) by lia. simpl. by rw firstn_all. }
    rw LOk_bind. cbv zeta. case_bool_decide as Heq.
    + exists (Some i). split; [f_equal; f_equal; lia|]. split; [lia|]. split; [by apply occurs_cons|].
      intros j Hj [Hc _]%occurs_cons. by apply (Hbefore j).
    + replace (length s - length s2 - s1 - (i + 1 - s1)) with (length s - length s2 - (i + 1)) by lia.
      destruct (IH (i + 1)) as (r & -> & Hr); [lia..|]. exists r. split; [done|].
      assert (forall j, s1 <= j < i + 1 -> ~ occurs s (c :: s2) j) as Hno.
      { intros j Hj [Hc Ho]%occurs_cons. destruct (decide (j = i)) as [->|]; [done|]. apply (Hbefore j); [lia|done]. }
      destruct r as [k|]; simpl in *.
      * destruct Hr as (? & ? & Hr). split; [lia|]. split; [done|]. intros j Hj.
        destruct (decide (j < i + 1)); [apply Hno; lia|apply Hr; lia].
      * intros j Hj. destruct (decide (j < i + 1)); [apply Hno; lia|apply Hr; lia].
  - exists None. split; [done|]. intros j Hj Ho. pose proof Ho as [Hc _]%occurs_cons.
    apply (Hr j); [|done]. apply occurs_length in Ho; [|lia|done]. simpl in Ho. lia.
Qed.

(** The first position at or behind the start where the text stands: skipping to the next occurrence of
    the first character loses no place, and no character outside the strings is read. *)
Lemma lmemfind_ok (s s2 : list Z) (s1 : Z) :
  0 <= s1 <= length s ->
  exists r, lmemfind s s1 (length s - s1) s2 (length s2) = LOk r /\ first_occurrence s s2 s1 r.
Proof.
  intros H1. rw /lmemfind. destruct s2 as [|c s2].
  - exists (Some s1). split; [done|]. split; [done|]. split; [by rw /occurs /= take_0|lia].
  - destruct (decide _) as [H|_]; [simpl in H; lia|]. destruct (decide _) as [H|H].
    + exists None. split; [done|]. intros j Hj Ho. apply occurs_length in Ho; [|lia|done]. lia.
    + change (char_at (c :: s2) 0) with (LOk c). rw LOk_bind. cbv zeta.
      replace (length (c :: s2) - 1) with (Z.of_nat (length s2)) by (simpl; lia).
      replace (length s - s1 - length s2) with (length s - length s2 - s1) by lia.
      apply memfind_loop_ok; simpl in *; lia.
Qed.

(** ** string.format *)

Section format.
(** Arguments of the call, what lua_tonumber(), lua_tolstring() and luaL_typename() say of them,
    and sprintf() with one conversion: the format and the argument give the characters. *)
Context {V N : Type} (tonumber : V -> option N) (tolstring : V -> option (list Z)) (typename : V -> cstring).

Inductive sprintf_arg :=
| SInt (n : N)        (* (int), (long) or (unsigned long) of a number *)
| SDouble (n : N)
| SString (s : cstring).

Context (sprintf : list Z -> sprintf_arg -> list Z) (fname : cstring).

Definition MAX_ITEM : Z := 512.

(** [luaL_typerror()]; an argument behind the last one has no value. *)
Definition luaL_typerror {A} (narg : Z) (tname : string) (v : option V) : lres A :=
  LError (lit "bad argument #" ++ fmt_d narg ++ lit " to '" ++ fname ++ lit "' (" ++ lit tname ++
          lit " expected, got " ++ match v with Some v => typename v | None => lit "no value" end ++ lit ")").
Arguments luaL_typerror {A} narg tname%_string v.

(** [args] are the arguments behind the format, which is argument 1. *)
Definition luaL_checknumber (args : list V) (arg : Z) : lres N :=
  let v := args !! Z.to_nat (arg - 2) in
  match v ≫= tonumber with Some n => LOk n | None => luaL_typerror arg "number" v end.
Definition luaL_checklstring (args : list V) (arg : Z) : lres (list Z) :=
  let v := args !! Z.to_nat (arg - 2) in
  match v ≫= tolstring with Some s => LOk s | None => luaL_typerror arg "string" v end.

(** [sprintf(buff, form, x)], into a buffer of MAX_ITEM bytes. *)
Definition sprintf_buff (form : list Z) (x : sprintf_arg) : lres (list Z) :=
  let out := sprintf form x in
  if decide (length out < MAX_ITEM) then LOk out else LFault OutOfBounds.

(** The C string at the start of [s]. *)
Fixpoint c_str (s : list Z) : cstring :=
  match s with
  | [] => []
  | c :: s => if decide (c = 0) then [] else c :: c_str s
  end.

(** A format item whose conversion is [conv]: what is added. *)
Definition format_item (conv : Z) (form : list Z) (args : list V) (arg : Z) : lres (list Z) :=
  if decide (conv = 99) then n ← luaL_checknumber args arg; sprintf_buff form (SInt n)
  else if decide (conv ∈ lit "diouxX") then
    form ← addintlen form; n ← luaL_checknumber args arg; sprintf_buff form (SInt n)
  else if decide (conv ∈ lit "eEfgG") then n ← luaL_checknumber args arg; sprintf_buff form (SDouble n)
  else if decide (conv = 113) then s ← luaL_checklstring args arg; LOk (addquoted [] s)
  else if decide (conv = 115) then
    s ← luaL_checklstring args arg;
    if decide ((46 ∉ form) /\ length s >= 100) then LOk s
    else sprintf_buff form (SString (c_str s))
  else LError (lit "invalid option '%" ++ c_str [conv] ++ lit "' to 'format'").

Fixpoint format_loop (fuel : nat) (s : list Z) (strfrmt : Z) (args : list V) (arg : Z) (b : list Z) : lres (list Z) :=
  match fuel with
  | O => LFault OutOfFuel
  | S fuel =>
      if decide (strfrmt < length s) then
        c ← char_at s strfrmt;
        if decide (c <> 37) then format_loop fuel s (strfrmt + 1) args arg (b ++ [c])
        else
          c ← char_at s (strfrmt + 1);
          if decide (c = 37) then format_loop fuel s (strfrmt + 2) args arg (b ++ [c])
          else
            let arg := arg + 1 in
            '(p, form) ← scanformat s (strfrmt + 1);
            conv ← char_at s p;
            out ← format_item conv form args arg;
            format_loop fuel s (p + 1) args arg (b ++ out)
      else LOk b
  end.

Definition str_format (s : list Z) (args : list V) : lres (list Z) :=
  format_loop (S (length s)) s 0 args 1 [].
End format.

(** ** Proofs: formats *)

(** The characters from position [a] up to position [b]. *)
Definition seg (s : list Z) (a b : Z) : list Z := take (Z.to_nat (b - a)) (drop (Z.to_nat a) s).

Lemma seg_split s a b c : 0 <= a -> a <= b -> b <= c -> seg s a c = seg s a b ++ seg s b c.
Proof.
  intros ? ? ?. rw /seg. replace (drop (Z.to_nat b) s) with (drop (Z.to_nat (b - a)) (drop (Z.to_nat a) s)).
  - rw take_take_drop. f_equal. lia.
  - rw drop_drop. f_equal. lia.
Qed.

Lemma seg_one s a c : 0 <= a -> s !! Z.to_nat a = Some c -> seg s a (a + 1) = [c].
Proof. intros ? Hc. rw /seg (drop_S _ _ _ Hc). by replace (Z.to_nat (a + 1 - a)) with 1%nat by lia. Qed.

Lemma seg_length s a b : 0 <= a -> length (seg s a b) <= Z.max 0 (b - a).
Proof. intros ?. rw /seg length_take. lia. Qed.

(** A run of characters that satisfy [P]. *)
Definition run (P : Z -> Prop) (s : list Z) (a b : Z) : Prop := 0 <= a /\ a <= b <= length s /\ Forall P (seg s a b).

Lemma run_nil P s a : 0 <= a <= length s -> run P s a a.
Proof. intros ?. split_and!; [lia..|]. by rw /seg Z.sub_diag. Qed.

Lemma run_cons (P : Z -> Prop) s a b c : 0 <= a -> s !! Z.to_nat a = Some c -> P c -> run P s (a + 1) b -> run P s a b.
Proof.
  intros ? Hc ? (? & ? & Hall). split_and!; [lia..|]. rw (seg_split s a (a + 1) b); [lia..|]. rw (seg_one _ _ c) //.
  by constructor.
Qed.

Lemma skip_flags_ok (fuel : nat) s p : 0 <= p <= length s -> length s - p < fuel ->
  exists p', skip_flags fuel s p = LOk p' /\ run (fun c => c ∈ FLAGS) s p p'.
Proof.
  revert p. induction fuel as [|fuel IH] => p Hp Hf; [lia|]. cbn [skip_flags].
  destruct (char_at_ok s p Hp) as (c & -> & Hc). rw LOk_bind.
  destruct (decide (c <> 0 /\ c ∈ FLAGS)) as [[H0 Hin]|_]; [|exists p; split; [done|by apply run_nil]].
  destruct Hc as [Hc|[_ ->]]; [|done]. apply lookup_lt_Some in Hc as Hlt.
  destruct (IH (p + 1)) as (p' & -> & Hr); [lia..|]. exists p'. split; [done|]. apply (run_cons _ _ _ _ c); [lia|done..].
Qed.

Lemma skip_digit_ok s p : 0 <= p <= length s ->
  exists p', skip_digit s p = LOk p' /\ p' <= p + 1 /\ run (fun c => isdigit c = true) s p p'.
Proof.
  intros Hp. rw /skip_digit. destruct (char_at_ok s p Hp) as (c & -> & Hc). rw LOk_bind.
  destruct (isdigit c) eqn:Hd; [|exists p; split_and!; [done|lia|by apply run_nil]].
  destruct Hc as [Hc|[_ ->]]; [|discriminate]. apply lookup_lt_Some in Hc as Hlt.
  exists (p + 1). split_and!; [done|lia|]. apply (run_cons _ _ _ _ c); [lia|done..|apply run_nil; lia].
Qed.

Lemma run_app (P : Z -> Prop) s a b c : run P s a b -> run P s b c -> run P s a c.
Proof.
  intros (? & ? & Hab) (? & ? & Hbc). split_and!; [lia..|]. rw (seg_split s a b c); [lia..|]. by apply Forall_app.
Qed.

(** Two digits at most. *)
Lemma skip_digits_ok s p : 0 <= p <= length s ->
  exists p', skip_digits s p = LOk p' /\ p' <= p + 2 /\ run (fun c => isdigit c = true) s p p'.
Proof.
  intros Hp. rw /skip_digits. destruct (skip_digit_ok s p Hp) as (p1 & -> & ? & Hr1). rw LOk_bind.
  destruct (skip_digit_ok s p1) as (p2 & -> & ? & Hr2); [destruct Hr1 as (? & ? & _); lia|].
  exists p2. split_and!; [done|lia|]. by apply (run_app _ _ _ p1).
Qed.

(** A format specification as sprintf() gets it: flags without repetition in number, a width and a
    precision of two digits at most, and [conv], the conversion with its length modifier. *)
Definition spec_form (conv form : list Z) : Prop :=
  exists flags width prec, form = 37 :: flags ++ width ++ prec ++ conv /\
    Forall (fun c => c ∈ FLAGS) flags /\ length flags <= 5 /\
    Forall (fun c => isdigit c = true) width /\ length width <= 2 /\
    (prec = [] \/ exists ds, prec = 46 :: ds /\ Forall (fun c => isdigit c = true) ds /\ length ds <= 2).

Lemma spec_form_length conv form : spec_form conv form -> length form <= 11 + length conv.
Proof.
  intros (fl & w & pr & -> & _ & ? & _ & ? & Hp). cbn [length]. rw !length_app.
  destruct Hp as [->|(ds & -> & _ & ?)]; simpl length; lia.
Qed.

Lemma form_string_ok form : length form < MAX_FORMAT -> form_string form = LOk form.
Proof. intros ?. rw /form_string. by destruct (decide _). Qed.

(** The precision: a period and two digits at most, or nothing. *)
Lemma skip_precision_ok s p : 0 <= p <= length s ->
  exists c p', char_at s p = LOk c /\ (if decide (c = 46) then skip_digits s (p + 1) else LOk p) = LOk p' /\
    p <= p' <= length s /\ (seg s p p' = [] \/ exists ds, seg s p p' = 46 :: ds /\
      Forall (fun c => isdigit c = true) ds /\ length ds <= 2).
Proof.
  intros Hp. destruct (char_at_ok s p Hp) as (c & -> & Hc). exists c. destruct (decide (c = 46)) as [->|].
  - destruct Hc as [Hc|[_ ?]]; [|done]. apply lookup_lt_Some in Hc as Hlt.
    destruct (skip_digits_ok s (p + 1)) as (p' & -> & ? & (? & ? & Hall)); [lia|]. exists p'. split_and!; [done..|lia|lia|].
    right. exists (seg s (p + 1) p'). split; [rw (seg_split s p (p + 1) p'); [lia..|]; by rw (seg_one _ _ 46); [lia|done|]|].
    split; [done|]. pose proof (seg_length s (p + 1) p' ltac:(lia)). lia.
  - exists p. split_and!; [done..|lia|lia|]. left. by rw /seg Z.sub_diag.
Qed.

Lemma scanformat_ok s strfrmt : 0 <= strfrmt <= length s ->
  (exists msg, scanformat s strfrmt = LError msg) \/
  exists p form, scanformat s strfrmt = LOk (p, form) /\ strfrmt <= p <= length s /\ spec_form (seg s p (p + 1)) form.
Proof.
  intros Hs. rw /scanformat. destruct (skip_flags_ok (S (length s)) s strfrmt Hs) as (p1 & -> & H1 & H1' & Hfl); [lia|].
  rw LOk_bind. destruct (decide _) as [|Hn]; [by left; eexists|]. change (length FLAGS) with 5%nat in Hn.
  destruct (skip_digits_ok s p1) as (p2 & -> & H2 & _ & H2' & Hw); [lia|]. rw LOk_bind.
  destruct (skip_precision_ok s p2) as (c & p3 & -> & Hp3 & H3 & Hpr); [lia|]. rw LOk_bind Hp3 LOk_bind.
  destruct (char_at_ok s p3) as (d & -> & _); [lia|]. rw LOk_bind. destruct (isdigit d); [by left; eexists|].
  right. set (form := 37 :: _). assert (spec_form (seg s p3 (p3 + 1)) form) as Hform.
  { exists (seg s strfrmt p1), (seg s p1 p2), (seg s p2 p3).
    split; [|split_and!; try done].
    - rw /form. f_equal. replace (p3 - strfrmt + 1) with (p3 + 1 - strfrmt) by lia.
      rw -/(seg s strfrmt (p3 + 1)) (seg_split s strfrmt p1 (p3 + 1)); [lia..|].
      rw (seg_split s p1 p2 (p3 + 1)); [lia..|]. by rw (seg_split s p2 p3 (p3 + 1)); [lia..|].
    - pose proof (seg_length s strfrmt p1 ltac:(lia)). lia.
    - pose proof (seg_length s p1 p2 ltac:(lia)). lia.
  }
  rw form_string_ok; [pose proof (spec_form_length _ _ Hform); pose proof (seg_length s p3 (p3 + 1) ltac:(lia));
    change MAX_FORMAT with 18; lia|].
  rw LOk_bind. exists p3, form. split_and!; [done|lia|lia|done].
Qed.

Lemma addintlen_snoc pre c : addintlen (pre ++ [c]) = form_string (pre ++ LUA_INTFRMLEN ++ [c]).
Proof. rw /addintlen last_snoc length_app Nat.add_sub. by rw take_app_length. Qed.

Lemma addintlen_ok form c : spec_form [c] form ->
  exists form', addintlen form = LOk form' /\ spec_form (LUA_INTFRMLEN ++ [c]) form'.
Proof.
  intros (fl & w & pr & -> & Hfl & Hfl5 & Hw & Hw2 & Hpr).
  exists (37 :: fl ++ w ++ pr ++ LUA_INTFRMLEN ++ [c]). assert (spec_form (LUA_INTFRMLEN ++ [c]) (37 :: fl ++ w ++ pr ++ LUA_INTFRMLEN ++ [c])) as Hs
    by (by exists fl, w, pr).
  split; [|done]. pose proof (spec_form_length _ _ Hs) as Hl. change (length (LUA_INTFRMLEN ++ [c])) with 2%nat in Hl.
  replace (37 :: fl ++ w ++ pr ++ [c]) with ((37 :: fl ++ w ++ pr) ++ [c]) by rw /= -!app_assoc //.
  rw addintlen_snoc form_string_ok /= -!app_assoc //. change MAX_FORMAT with 18. simpl in Hl. lia.
Qed.

(** What is known of sprintf(): with two digits of width and of precision, an item has less than
    MAX_ITEM characters if it is a number, a string cut by a precision, or a short string. *)
Definition sprintf_bound {N} (sprintf : list Z -> sprintf_arg (N := N) -> list Z) : Prop :=
  forall form conv x, spec_form conv form -> length conv <= 2 ->
    (forall s, x = SString s -> 46 ∈ form \/ length s < 100) -> length (sprintf form x) < MAX_ITEM.

(** No undefined behaviour; [P] of the value. *)
Definition lsafe {A} (m : lres A) (P : A -> Prop) : Prop :=
  match m with
  | LOk a => P a
  | LError _ => True
  | LFault _ => False
  end.

Lemma lsafe_bind {A B} (m : lres A) (k : A -> lres B) P :
  lsafe m (fun a => lsafe (k a) P) -> lsafe (m ≫= k) P.
Proof. by destruct m. Qed.

Lemma lsafe_mono {A} (m : lres A) (P Q : A -> Prop) : (forall a, P a -> Q a) -> lsafe m P -> lsafe m Q.
Proof. destruct m; simpl; auto. Qed.

(** A step, then the rest. *)
Lemma lsafe_then {A B} (m : lres A) (k : A -> lres B) (P : A -> Prop) Q :
  lsafe m P -> (forall a, P a -> lsafe (k a) Q) -> lsafe (m ≫= k) Q.
Proof. destruct m; simpl; auto. Qed.

Section format_proofs.
Context {V N : Type} (tonumber : V -> option N) (tolstring : V -> option (list Z)) (typename : V -> cstring).
Context (sprintf : list Z -> sprintf_arg -> list Z) (fname : cstring) (Hsprintf : sprintf_bound (N := N) sprintf).

Lemma checknumber_safe args arg : lsafe (luaL_checknumber tonumber typename fname args arg) (fun _ => True).
Proof. rw /luaL_checknumber. by destruct (_ ≫= tonumber). Qed.
Lemma checklstring_safe args arg : lsafe (luaL_checklstring tolstring typename fname args arg) (fun _ => True).
Proof. rw /luaL_checklstring. by destruct (_ ≫= tolstring). Qed.

Lemma sprintf_safe form conv x : spec_form conv form -> length conv <= 2 ->
  (forall s, x = SString s -> 46 ∈ form \/ length s < 100) -> lsafe (sprintf_buff sprintf form x) (fun _ => True).
Proof.
  intros Hf Hc Hx. rw /sprintf_buff. destruct (decide _) as [|H]; [done|]. by destruct H; eapply Hsprintf.
Qed.

Lemma c_str_length s : (length (c_str s) <= length s)%nat.
Proof. induction s; simpl; [done|]. case_decide; simpl; lia. Qed.

Lemma no_null_conversion : (0 ∉ lit "diouxX") /\ (0 ∉ lit "eEfgG").
Proof. split; apply (bool_decide_unpack _); vm_compute; exact I. Qed.

Lemma format_item_safe c conv form args arg : spec_form conv form -> (c <> 0 -> conv = [c]) -> length conv <= 1 ->
  lsafe (format_item tonumber tolstring typename sprintf fname c form args arg) (fun _ => c <> 0).
Proof.
  intros Hf Hc Hl. rw /format_item.
  assert (forall x, (forall s, x = SString s -> 46 ∈ form \/ length s < 100) -> c <> 0 ->
    lsafe (sprintf_buff sprintf form x) (fun _ => c <> 0)) as Hspr.
  { intros x Hx H0. eapply lsafe_mono; [|apply (sprintf_safe form conv); (done || lia)]. done. }
  destruct (decide (c = 99)) as [->|].
  { apply lsafe_bind. eapply lsafe_mono; [|apply checknumber_safe]. intros num _. by apply Hspr. }
  destruct (decide (c ∈ lit "diouxX")) as [Hin|].
  { assert (c <> 0) as H0 by (intros ->; destruct no_null_conversion; contradiction).
    rw (Hc H0) in Hf. destruct (addintlen_ok form c Hf) as (form' & -> & Hf'). rw LOk_bind.
    apply lsafe_bind. eapply lsafe_mono; [|apply checknumber_safe]. intros num _.
    eapply lsafe_mono; [|by eapply sprintf_safe]. done. }
  destruct (decide (c ∈ lit "eEfgG")) as [Hin|].
  { assert (c <> 0) as H0 by (intros ->; destruct no_null_conversion; contradiction).
    apply lsafe_bind. eapply lsafe_mono; [|apply checknumber_safe]. intros num _. by apply Hspr. }
  destruct (decide (c = 113)) as [->|].
  { apply lsafe_bind. eapply lsafe_mono; [|apply checklstring_safe]. done. }
  destruct (decide (c = 115)) as [->|]; [|done].
  apply lsafe_bind. eapply lsafe_mono; [|apply checklstring_safe]. intros str _.
  destruct (decide (_ /\ _)) as [|Hn]; [done|]. apply Hspr; [|done]. intros x [= <-].
  destruct (decide (46 ∈ form)); [by left|]. right. pose proof (c_str_length str).
  destruct (decide (length str < 100)); [lia|]. destruct Hn. split; [done|lia].
Qed.

Lemma format_loop_safe (fuel : nat) s strfrmt args arg b : 0 <= strfrmt <= length s -> length s - strfrmt < fuel ->
  lsafe (format_loop tonumber tolstring typename sprintf fname fuel s strfrmt args arg b) (fun _ => True).
Proof.
  revert strfrmt arg b. induction fuel as [|fuel IH] => p arg b Hp Hf; [lia|]. cbn [format_loop].
  destruct (decide (p < length s)); [|done]. destruct (char_at_ok s p Hp) as (c & -> & _). rw LOk_bind.
  destruct (decide (c <> 37)); [apply IH; lia|]. destruct (char_at_ok s (p + 1)) as (d & Hd & Hd'); [lia|]. rw Hd LOk_bind.
  destruct (decide (d = 37)) as [->|].
  { apply IH; [|lia]. destruct Hd' as [Hd'%lookup_lt_Some|[_ ?]]; [lia|done]. }
  cbv zeta. destruct (scanformat_ok s (p + 1)) as [[msg ->]|(q & form & -> & Hq & Hform)]; [lia|done|]. rw LOk_bind.
  destruct (char_at_ok s q) as (conv & -> & Hconv); [lia|]. rw LOk_bind. apply lsafe_bind.
  eapply lsafe_mono; [|apply (format_item_safe conv (seg s q (q + 1)))].
  - intros out Hc. apply IH; [|lia]. destruct Hconv as [Hconv%lookup_lt_Some|[_ ?]]; [lia|done].
  - done.
  - intros H0. destruct Hconv as [Hconv|[_ ?]]; [|done]. apply seg_one; [lia|done].
  - pose proof (seg_length s q (q + 1)). lia.
Qed.

Lemma format_plain (fuel : nat) s (k : nat) args arg b : Forall (fun c => c <> 37) s -> (k <= length s)%nat ->
  (length s - k < fuel)%nat ->
  format_loop tonumber tolstring typename sprintf fname fuel s k args arg b = LOk (b ++ drop k s).
Proof.
  intros Hs. revert k b. induction fuel as [|fuel IH] => k b Hk Hf; [lia|]. cbn [format_loop].
  destruct (decide (k < length s)).
  - destruct (lookup_lt_is_Some_2 s k) as [c Hc]; [lia|]. rw (char_at_lookup _ _ _ Hc) LOk_bind.
    pose proof (proj1 (Forall_lookup _ _) Hs _ _ Hc). destruct (decide (c <> 37)); [|done].
    replace (k + 1) with (Z.of_nat (S k)) by lia. rw IH; [lia..|]. by rw (drop_S _ _ _ Hc) -app_assoc.
  - rw drop_ge ?app_nil_r //. lia.
Qed.
End format_proofs.

(** String.format stays within its buffers, whatever the format says: the specification it copies
    always fits its 18 bytes, because flags, width and precision are limited and it adds one length
    modifier; a formatted item fits 512 bytes by what is known of sprintf(); and the format is never
    read behind its end, even when it ends in an unfinished item. A format without items is returned
    as it is. *)
Theorem str_format_safe {V N : Type} (tonumber : V -> option N) (tolstring : V -> option (list Z))
    (typename : V -> cstring) (sprintf : list Z -> sprintf_arg -> list Z) (fname : cstring)
    (s : list Z) (args : list V) :
  sprintf_bound sprintf ->
  (forall f, str_format tonumber tolstring typename sprintf fname s args <> LFault f) /\
  (37 ∉ s -> str_format tonumber tolstring typename sprintf fname s args = LOk s).
Proof.
  intros Hspr. rw /str_format. split.
  - intros f Heq. pose proof (format_loop_safe tonumber tolstring typename sprintf fname Hspr
      (S (length s)) s 0 args 1 []) as Hs. rw Heq in Hs. apply Hs; lia.
  - intros Hs. change 0 with (Z.of_nat 0). rw format_plain //; [|lia..]. apply Forall_forall. by intros c Hc ->.
Qed.

(** A sprintf() that cuts its result. *)
Definition short_sprintf (form : list Z) (x : sprintf_arg (N := Z)) : list Z :=
  take 500 (form ++ match x with SInt n => fmt_d n | SDouble n => fmt_d n | SString s => s end).

Lemma str_format_safe_witness :
  (forall f, str_format (V := list Z) (fun _ => None) Some (fun _ => lit "string") short_sprintf (lit "format")
    (lit "%-5.2s %q%") [lit "abc"; lit "d"] <> LFault f) /\
  (37 ∉ lit "%-5.2s %q%" -> str_format (V := list Z) (fun _ => None) Some (fun _ => lit "string") short_sprintf
    (lit "format") (lit "%-5.2s %q%") [lit "abc"; lit "d"] = LOk (lit "%-5.2s %q%")).
Proof.
  apply (str_format_safe (V := list Z) (N := Z) (fun _ => None) Some (fun _ => lit "string") short_sprintf (lit "format")).
  intros form conv x _ _ _. rw /short_sprintf length_take /MAX_ITEM. lia.
Defined.
