(* ===== verification/LuaLex.v ===== *)
(** LuaLex: the lexical analyser of the interpreter, src/liblua/src/llex.c.

    [LexState] holds the current character, the stream, the token buffer and the line
    counters. [zgetc()] of lzio.h decrements the number of unread bytes before it
    tests it, so that a read behind the end of the stream is undefined: [ls_wrapped]
    says that the count has wrapped. Numbers and their conversion from text
    (luaO_str2d(), by strtod()) are parameters, as is the decimal point of the locale.
    The token buffer grows without bound. *)

From Corelib Require Import ssreflect.
From stdpp Require Import base list numbers strings.
From Stdlib Require Import ZArith Lia.
From S2P Require Import Prelude Libc LuaObject LuaZio LuaStr.

(** ** Tokens *)

Definition FIRST_RESERVED : Z := 257.

Definition luaX_tokens : list cstring :=
  lit <$> ["and"; "break"; "do"; "else"; "elseif"; "end"; "false"; "for"; "function"; "if";
    "in"; "local"; "nil"; "not"; "or"; "repeat"; "return"; "then"; "true"; "until"; "while";
    ".."; "..."; "=="; ">="; "<="; "~="; "<number>"; "<name>"; "<string>"; "<eof>"]%string.

Definition TK_CONCAT : Z := 278.
Definition TK_DOTS : Z := 279.
Definition TK_EQ : Z := 280.
Definition TK_GE : Z := 281.
Definition TK_LE : Z := 282.
Definition TK_NE : Z := 283.
Definition TK_NUMBER : Z := 284.
Definition TK_NAME : Z := 285.
Definition TK_STRING : Z := 286.
Definition TK_EOS : Z := 287.
Definition NUM_RESERVED : nat := 21.

Definition MAXSRC : Z := 80.
Definition MAX_INT : Z := int_max - 2.

Section lexer.
Context {Num : Type} (str2d : cstring -> option Num) (locale_point : Z).

(** [SemInfo]: the value of a number, name or string token. *)
Inductive SemInfo :=
| SNone
| SNum (r : Num)
| SStr (ts : list Z).

Record Token := MkToken { token : Z; seminfo : SemInfo }.

Record LexState := MkLex {
  current : Z;
  linenumber : Z;
  lastline : Z;
  t : Token;
  lookahead : Token;
  z : Zio;
  ls_wrapped : bool;
  buff : list Z;
  source : cstring;
  decpoint : Z
}.

Definition set_current (c : Z) (s : Zio) (w : bool) (ls : LexState) : LexState :=
  MkLex c (linenumber ls) (lastline ls) (t ls) (lookahead ls) s w (buff ls) (source ls) (decpoint ls).
Definition set_buff (b : list Z) (ls : LexState) : LexState :=
  MkLex (current ls) (linenumber ls) (lastline ls) (t ls) (lookahead ls) (z ls) (ls_wrapped ls) b (source ls) (decpoint ls).
Definition set_line (n : Z) (ls : LexState) : LexState :=
  MkLex (current ls) n (lastline ls) (t ls) (lookahead ls) (z ls) (ls_wrapped ls) (buff ls) (source ls) (decpoint ls).
Definition set_decpoint (c : Z) (ls : LexState) : LexState :=
  MkLex (current ls) (linenumber ls) (lastline ls) (t ls) (lookahead ls) (z ls) (ls_wrapped ls) (buff ls) (source ls) c.
Definition set_tokens (last : Z) (tok look : Token) (ls : LexState) : LexState :=
  MkLex (current ls) (linenumber ls) last tok look (z ls) (ls_wrapped ls) (buff ls) (source ls) (decpoint ls).

(** [zgetc()]: the character and the stream. *)
Definition zgetc (s : Zio) : Z * Zio :=
  match z_buf s with
  | b :: buf => (b, MkZio buf (z_reader s))
  | [] => luaZ_fill s
  end.

Definition next (ls : LexState) : lres LexState :=
  if ls_wrapped ls then LFault OutOfBounds
  else let '(c, s) := zgetc (z ls) in LOk (set_current c s (bool_decide (c = EOZ)) ls).

Definition save (c : Z) (ls : LexState) : LexState := set_buff (buff ls ++ [c]) ls.
Definition save_and_next (ls : LexState) : lres LexState := next (save (current ls) ls).
Definition luaZ_resetbuffer (ls : LexState) : LexState := set_buff [] ls.
Definition currIsNewline (ls : LexState) : bool := bool_decide (current ls = 10 \/ current ls = 13).

(** ** Errors *)

Definition luaX_token2str (tok : Z) : cstring :=
  if decide (tok < FIRST_RESERVED) then
    if iscntrl tok then lit "char(" ++ fmt_d tok ++ lit ")" else c_str [tok]
  else default [] (luaX_tokens !! Z.to_nat (tok - FIRST_RESERVED)).

Definition txtToken (ls : LexState) (tok : Z) : cstring :=
  if decide (tok = TK_NAME \/ tok = TK_STRING \/ tok = TK_NUMBER) then c_str (buff ls) else luaX_token2str tok.

(** [token] 0 stands for no token. *)
Definition luaX_lexerror {A} (ls : LexState) (msg : string) (tok : Z) : lres A :=
  match luaO_chunkid (source ls) MAXSRC with
  | Ok buff =>
      let msg := buff ++ lit ":" ++ fmt_d (linenumber ls) ++ lit ": " ++ lit msg in
      LError (if decide (tok <> 0) then msg ++ lit " near '" ++ txtToken ls tok ++ lit "'" else msg)
  | Err f => LFault f
  end.
Arguments luaX_lexerror {A} ls msg%_string tok.

Definition luaX_syntaxerror {A} (ls : LexState) (msg : string) : lres A := luaX_lexerror ls msg (token (t ls)).
Arguments luaX_syntaxerror {A} ls msg%_string.

(** ** Lines, numbers, strings *)

Definition inclinenumber (ls : LexState) : lres LexState :=
  let old := current ls in
  ls ← next ls;
  ls ← (if currIsNewline ls && bool_decide (current ls <> old) then next ls else LOk ls);
  let ls := set_line (linenumber ls + 1) ls in
  if decide (linenumber ls >= MAX_INT) then luaX_syntaxerror ls "chunk has too many lines" else LOk ls.

(** [strchr(set, ls->current)]: the null that ends [set] is found too. *)
Definition in_set (set : cstring) (c : Z) : bool := bool_decide (to_char c ∈ set ++ [0]).

Definition check_next (set : cstring) (ls : LexState) : lres (bool * LexState) :=
  if in_set set (current ls) then ls ← save_and_next ls; LOk (true, ls) else LOk (false, ls).

Definition buffreplace (from to : Z) (ls : LexState) : LexState :=
  set_buff ((fun c => if decide (c = from) then to else c) <$> buff ls) ls.

Definition trydecpoint (ls : LexState) : lres (Num * LexState) :=
  let old := decpoint ls in
  let ls := set_decpoint locale_point ls in
  let ls := buffreplace old (decpoint ls) ls in
  match str2d (c_str (buff ls)) with
  | Some r => LOk (r, ls)
  | None => luaX_lexerror (buffreplace (decpoint ls) 46 ls) "malformed number" TK_NUMBER
  end.

(** [while (p(ls->current)) save_and_next(ls);] *)
Fixpoint save_while (fuel : nat) (p : Z -> bool) (ls : LexState) : lres LexState :=
  match fuel with
  | O => LFault OutOfFuel
  | S fuel => if p (current ls) then ls ← save_and_next ls; save_while fuel p ls else LOk ls
  end.

(** A bound for the loops of the lexer: the number of characters left. *)
Definition left_chars (ls : LexState) : nat := S (S (length (content (z ls)))).

Definition read_numeral (ls : LexState) : lres (Num * LexState) :=
  ls ← save_and_next ls;
  ls ← save_while (left_chars ls) (fun c => isdigit c || bool_decide (c = 46)) ls;
  '(e, ls) ← check_next (lit "Ee") ls;
  ls ← (if e : bool then '(_, ls) ← check_next (lit "+-") ls; LOk ls else LOk ls);
  ls ← save_while (left_chars ls) (fun c => isalnum c || bool_decide (c = 95)) ls;
  let ls := buffreplace 46 (decpoint ls) (save 0 ls) in
  match str2d (c_str (buff ls)) with
  | Some r => LOk (r, ls)
  | None => trydecpoint ls
  end.

Fixpoint count_equals (fuel : nat) (ls : LexState) (count : Z) : lres (Z * LexState) :=
  match fuel with
  | O => LFault OutOfFuel
  | S fuel =>
      if decide (current ls = 61) then ls ← save_and_next ls; count_equals fuel ls (count + 1)
      else LOk (count, ls)
  end.

Definition skip_sep (ls : LexState) : lres (Z * LexState) :=
  let s := current ls in
  ls ← save_and_next ls;
  '(count, ls) ← count_equals (left_chars ls) ls 0;
  LOk (if decide (current ls = s) then count else - count - 1, ls).

(** The loop of read_long_string(); [keep] is false for comments, whose text is dropped. *)
Fixpoint long_string_loop (fuel : nat) (keep : bool) (sep : Z) (ls : LexState) : lres LexState :=
  match fuel with
  | O => LFault OutOfFuel
  | S fuel =>
      if decide (current ls = EOZ) then
        luaX_lexerror ls (if keep then "unfinished long string" else "unfinished long comment") TK_EOS
      else if decide (current ls = 91) then
        '(n, ls) ← skip_sep ls;
        if decide (n = sep) then
          ls ← save_and_next ls;
          if decide (sep = 0) then luaX_lexerror ls "nesting of [[...]] is deprecated" 91
          else long_string_loop fuel keep sep ls
        else long_string_loop fuel keep sep ls
      else if decide (current ls = 93) then
        '(n, ls) ← skip_sep ls;
        if decide (n = sep) then save_and_next ls else long_string_loop fuel keep sep ls
      else if currIsNewline ls then
        ls ← inclinenumber (save 10 ls);
        long_string_loop fuel keep sep (if keep then ls else luaZ_resetbuffer ls)
      else
        ls ← (if keep then save_and_next ls else next ls);
        long_string_loop fuel keep sep ls
  end.

(** The string, for a string token. *)
Definition read_long_string (keep : bool) (sep : Z) (ls : LexState) : lres (list Z * LexState) :=
  ls ← save_and_next ls;
  ls ← (if currIsNewline ls then inclinenumber ls else LOk ls);
  ls ← long_string_loop (left_chars ls) keep sep ls;
  if keep then ts ← lstring (buff ls) (2 + sep) (length (buff ls) - 2 * (2 + sep)); LOk (ts, ls)
  else LOk ([], ls).

(** [do { c = 10*c + (ls->current-'0'); next(ls); } while (++i<3 && isdigit(ls->current));] *)
Fixpoint read_digits (n : nat) (c : Z) (ls : LexState) : lres (Z * LexState) :=
  match n with
  | O => LOk (c, ls)
  | S n =>
      let c := 10 * c + (current ls - 48) in
      ls ← next ls;
      if decide (0 < n)%nat then if isdigit (current ls) then read_digits n c ls else LOk (c, ls)
      else LOk (c, ls)
  end.

(** Escapes that stand for one character. *)
Definition simple_escape (c : Z) : option Z :=
  if decide (c = 97) then Some 7 else if decide (c = 98) then Some 8 else if decide (c = 102) then Some 12
  else if decide (c = 110) then Some 10 else if decide (c = 114) then Some 13 else if decide (c = 116) then Some 9
  else if decide (c = 118) then Some 11 else None.

Definition read_escape (ls : LexState) : lres LexState :=
  ls ← next ls;
  match simple_escape (current ls) with
  | Some c => next (save c ls)
  | None =>
      if currIsNewline ls then inclinenumber (save 10 ls)
      else if decide (current ls = EOZ) then LOk ls
      else if negb (isdigit (current ls)) then save_and_next ls
      else
        '(c, ls) ← read_digits 3 0 ls;
        if decide (c > 255) then luaX_lexerror ls "escape sequence too large" TK_STRING else LOk (save c ls)
  end.

Fixpoint string_loop (fuel : nat) (del : Z) (ls : LexState) : lres LexState :=
  match fuel with
  | O => LFault OutOfFuel
  | S fuel =>
      if decide (current ls <> del) then
        if decide (current ls = EOZ) then luaX_lexerror ls "unfinished string" TK_EOS
        else if currIsNewline ls then luaX_lexerror ls "unfinished string" TK_STRING
        else
          ls ← (if decide (current ls = 92) then read_escape ls else save_and_next ls);
          string_loop fuel del ls
      else LOk ls
  end.

Definition read_string (del : Z) (ls : LexState) : lres (list Z * LexState) :=
  ls ← save_and_next ls;
  ls ← string_loop (left_chars ls) del ls;
  ls ← save_and_next ls;
  ts ← lstring (buff ls) 1 (length (buff ls) - 2);
  LOk (ts, ls).

(** ** Tokens from characters *)

(** [while (!currIsNewline(ls) && ls->current != EOZ) next(ls);] *)
Fixpoint skip_line (fuel : nat) (ls : LexState) : lres LexState :=
  match fuel with
  | O => LFault OutOfFuel
  | S fuel =>
      if negb (currIsNewline ls) && bool_decide (current ls <> EOZ) then ls ← next ls; skip_line fuel ls
      else LOk ls
  end.

(** A comment, when two dashes were read. *)
Definition read_comment (ls : LexState) : lres LexState :=
  if decide (current ls = 91) then
    '(sep, ls) ← skip_sep ls;
    let ls := luaZ_resetbuffer ls in
    if decide (sep >= 0) then
      '(_, ls) ← read_long_string false sep ls; LOk (luaZ_resetbuffer ls)
    else skip_line (left_chars ls) ls
  else skip_line (left_chars ls) ls.

(** A character that may be followed by an equals sign. *)
Definition with_equals (c tok : Z) (ls : LexState) : lres (Token * LexState) :=
  ls ← next ls;
  if decide (current ls <> 61) then LOk (MkToken c SNone, ls)
  else ls ← next ls; LOk (MkToken tok SNone, ls).

Definition read_number_token (ls : LexState) : lres (Token * LexState) :=
  '(r, ls) ← read_numeral ls; LOk (MkToken TK_NUMBER (SNum r), ls).

Definition read_dots (ls : LexState) : lres (Token * LexState) :=
  ls ← save_and_next ls;
  '(two, ls) ← check_next (lit ".") ls;
  if two : bool then
    '(three, ls) ← check_next (lit ".") ls;
    LOk (MkToken (if three : bool then TK_DOTS else TK_CONCAT) SNone, ls)
  else if negb (isdigit (current ls)) then LOk (MkToken 46 SNone, ls)
  else read_number_token ls.

(** The position of a reserved word. *)
Fixpoint index_of (w : list Z) (l : list cstring) (i : Z) : option Z :=
  match l with
  | [] => None
  | x :: l => if decide (x = w) then Some i else index_of w l (i + 1)
  end.
Definition reserved (ts : list Z) : option Z := index_of ts (take NUM_RESERVED luaX_tokens) FIRST_RESERVED.

Definition is_name_char (c : Z) : bool := isalnum c || bool_decide (c = 95).

Definition read_name (ls : LexState) : lres (Token * LexState) :=
  ls ← save_and_next ls;
  ls ← save_while (left_chars ls) is_name_char ls;
  let ts := buff ls in
  LOk (match reserved ts with
       | Some tok => MkToken tok SNone
       | None => MkToken TK_NAME (SStr ts)
       end, ls).

(** The loop of llex(). *)
Fixpoint llex_loop (fuel : nat) (ls : LexState) : lres (Token * LexState) :=
  match fuel with
  | O => LFault OutOfFuel
  | S fuel =>
      let c := current ls in
      if currIsNewline ls then ls ← inclinenumber ls; llex_loop fuel ls
      else if decide (c = 45) then
        ls ← next ls;
        if decide (current ls <> 45) then LOk (MkToken 45 SNone, ls)
        else ls ← next ls; ls ← read_comment ls; llex_loop fuel ls
      else if decide (c = 91) then
        '(sep, ls) ← skip_sep ls;
        if decide (sep >= 0) then
          '(ts, ls) ← read_long_string true sep ls; LOk (MkToken TK_STRING (SStr ts), ls)
        else if decide (sep = -1) then LOk (MkToken 91 SNone, ls)
        else luaX_lexerror ls "invalid long string delimiter" TK_STRING
      else if decide (c = 61) then with_equals 61 TK_EQ ls
      else if decide (c = 60) then with_equals 60 TK_LE ls
      else if decide (c = 62) then with_equals 62 TK_GE ls
      else if decide (c = 126) then with_equals 126 TK_NE ls
      else if decide (c = 34 \/ c = 39) then
        '(ts, ls) ← read_string c ls; LOk (MkToken TK_STRING (SStr ts), ls)
      else if decide (c = 46) then read_dots ls
      else if decide (c = EOZ) then LOk (MkToken TK_EOS SNone, ls)
      else if isspace c then ls ← next ls; llex_loop fuel ls
      else if isdigit c then read_number_token ls
      else if isalpha c || bool_decide (c = 95) then read_name ls
      else ls ← next ls; LOk (MkToken c SNone, ls)
  end.

Definition llex (ls : LexState) : lres (Token * LexState) :=
  let ls := luaZ_resetbuffer ls in llex_loop (left_chars ls) ls.

Definition luaX_next (ls : LexState) : lres LexState :=
  let last := linenumber ls in
  if decide (token (lookahead ls) <> TK_EOS) then
    LOk (set_tokens last (lookahead ls) (MkToken TK_EOS (seminfo (lookahead ls))) ls)
  else '(tok, ls) ← llex (set_tokens last (t ls) (lookahead ls) ls); LOk (set_tokens last tok (lookahead ls) ls).

Definition luaX_lookahead (ls : LexState) : lres LexState :=
  '(tok, ls) ← llex ls; LOk (set_tokens (lastline ls) (t ls) tok ls).

Definition luaX_setinput (s : Zio) (src : cstring) (tok : Token) : lres LexState :=
  next (MkLex 0 1 1 tok (MkToken TK_EOS SNone) s false [] src 46).
End lexer.

(** ** Proofs: safety and progress *)

Section safety.
Context {Num : Type} (str2d : cstring -> option Num) (locale_point : Z).
Abbreviation LexState := (LexState (Num := Num)).

(** The stream is unread behind the current character, and the end was met at most once. *)
Record lex_ok (ls : LexState) : Prop := {
  lo_stream : stream_ok (z ls);
  lo_wrapped : ls_wrapped ls = bool_decide (current ls = EOZ);
  lo_current : current ls = EOZ \/ is_byte (current ls)
}.

(** Characters that are left, the current one included. *)
Definition chars_left (ls : LexState) : nat :=
  if decide (current ls = EOZ) then O else S (length (content (z ls))).

(** [ls'] is [k] characters further at least, and its buffer has grown by [n] at least. *)
Definition adv (k n : nat) (ls ls' : LexState) : Prop :=
  lex_ok ls' /\ (chars_left ls' + k <= chars_left ls)%nat /\ (length (buff ls) + n <= length (buff ls'))%nat.

Lemma adv_refl ls : lex_ok ls -> adv 0 0 ls ls.
Proof. intros ?. split; [done|lia]. Qed.

Lemma adv_trans k1 k2 n1 n2 ls1 ls2 ls3 : adv k1 n1 ls1 ls2 -> adv k2 n2 ls2 ls3 -> adv (k1 + k2) (n1 + n2) ls1 ls3.
Proof. intros (? & ? & ?) (? & ? & ?). split; [done|]. lia. Qed.

Lemma adv_weaken k n k' n' ls ls' : adv k n ls ls' -> (k' <= k)%nat -> (n' <= n)%nat -> adv k' n' ls ls'.
Proof. intros (? & ? & ?) ? ?. split; [done|]. lia. Qed.

Lemma save_adv c ls : lex_ok ls -> adv 0 1 ls (save c ls).
Proof. intros [? ? ?]. split; [by constructor|]. split; [rw /chars_left /=; lia|]. rw /save /= length_app /=. lia. Qed.

Lemma zgetc_spec s : stream_ok s ->
  match content s with
  | [] => (zgetc s).1 = EOZ /\ stream_ok (zgetc s).2
  | b :: l => zgetc s = (b, (zgetc s).2) /\ is_byte b /\ content (zgetc s).2 = l /\ stream_ok (zgetc s).2
  end.
Proof.
  intros [Hb Hr]. destruct s as [[|b buf] rd]; rw /zgetc /luaZ_fill /content /= in Hb *.
  - destruct rd as [|[|b bl] rest]; simpl in *; [done|by inversion Hr|]. inversion Hb; inversion Hr; subst. by split_and!.
  - inversion Hb; subst. by split_and!.
Qed.

Lemma next_safe ls : lex_ok ls -> current ls <> EOZ ->
  lsafe (next ls) (fun ls' => adv 1 0 ls ls' /\ buff ls' = buff ls /\ linenumber ls' = linenumber ls).
Proof.
  intros [Hs Hw Hc] Hne. rw /next Hw bool_decide_eq_false_2 //. pose proof (zgetc_spec _ Hs) as Hz.
  destruct (zgetc (z ls)) as [c s]; simpl in *. split; [|done]. rw /adv /chars_left /=.
  destruct (decide (current ls = EOZ)) as [|_]; [done|]. destruct (content (z ls)) as [|b l] eqn:Hcon.
  - destruct Hz as [-> Hs']. split; [split; simpl; auto|]. destruct (decide (EOZ = EOZ)); [|done]. simpl. lia.
  - destruct Hz as ([= ->] & Hb & Hcs & Hs'). split; [split; simpl; auto|]. rw Hcs.
    destruct (decide _); simpl; lia.
Qed.

Lemma save_and_next_safe ls : lex_ok ls -> current ls <> EOZ -> lsafe (save_and_next ls) (adv 1 1 ls).
Proof.
  intros Hok Hne. pose proof (save_adv (current ls) ls Hok) as Hsv. eapply lsafe_mono; [|apply next_safe; [apply Hsv|done]].
  intros ls' (Ha & _). by apply (adv_trans 0 1 1 0 _ (save (current ls) ls)).
Qed.

Lemma lexerror_safe {A} (ls : LexState) msg tok (P : A -> Prop) : lsafe (luaX_lexerror ls msg tok) P.
Proof.
  rw /luaX_lexerror. destruct (chunkid_total (source ls) MAXSRC) as [out ->]; [|done]. split; vm_compute; (discriminate || reflexivity).
Qed.

Lemma inclinenumber_safe ls : lex_ok ls -> current ls <> EOZ -> lsafe (inclinenumber ls) (adv 1 0 ls).
Proof.
  intros Hok Hne. rw /inclinenumber. eapply lsafe_then; [by apply next_safe|]. intros ls1 ((Hok1 & Hc1 & Hb1) & _).
  apply (lsafe_then _ _ (adv 0 0 ls1)).
  - destruct (currIsNewline ls1) eqn:Hnl; [|by apply adv_refl]. simpl. case_bool_decide; [|by apply adv_refl].
    eapply lsafe_mono; [|apply next_safe; [done|]].
    + intros ls2 [? _]. by eapply adv_weaken; [|lia..].
    + rw /currIsNewline in Hnl. apply bool_decide_eq_true_1 in Hnl. rw /EOZ. lia.
  - intros ls2 (Hok2 & Hc2 & Hb2). cbv zeta. destruct (decide _); [apply lexerror_safe|].
    split; [destruct Hok2; by constructor|].
    change (chars_left (set_line (linenumber ls2 + 1) ls2)) with (chars_left ls2). split; [lia|simpl; lia].
Qed.

Lemma in_set_not_eoz set (ls : LexState) : Forall (fun c => 0 <= c) set -> in_set set (current ls) = true -> current ls <> EOZ.
Proof.
  intros Hset Hin Heq. rw Heq /in_set in Hin. apply bool_decide_eq_true_1 in Hin. apply elem_of_app in Hin as [Hin|Hin].
  - rw Forall_forall in Hset. apply Hset in Hin. vm_compute in Hin. done.
  - apply list_elem_of_singleton in Hin. discriminate.
Qed.

Lemma check_next_safe set ls : Forall (fun c => 0 <= c) set -> lex_ok ls ->
  lsafe (check_next set ls) (fun '(_, ls') => adv 0 0 ls ls').
Proof.
  intros Hset Hok. rw /check_next. destruct (in_set _ _) eqn:Hin; [|by apply adv_refl].
  eapply lsafe_then; [apply save_and_next_safe; [done|by eapply in_set_not_eoz]|]. intros ls' Ha.
  by eapply adv_weaken; [exact Ha|lia..].
Qed.

Lemma save_while_safe p (fuel : nat) ls : p EOZ = false -> lex_ok ls -> (chars_left ls < fuel)%nat ->
  lsafe (save_while fuel p ls) (adv 0 0 ls).
Proof.
  intros Hp. revert ls. induction fuel as [|fuel IH] => ls Hok Hf; [lia|]. cbn [save_while].
  destruct (p (current ls)) eqn:Hpc; [|by apply adv_refl].
  eapply lsafe_then; [apply save_and_next_safe; [done|congruence]|]. intros ls1 Ha. pose proof Ha as (? & ? & ?).
  eapply lsafe_mono; [|apply IH; [done|lia]]. intros ls2 Ha2.
  eapply adv_weaken; [by eapply adv_trans|lia..].
Qed.

Lemma left_chars_enough (ls : LexState) : (chars_left ls < left_chars ls)%nat.
Proof. rw /chars_left /left_chars. destruct (decide _); lia. Qed.

Lemma buffreplace_ok from to ls : lex_ok ls -> adv 0 0 ls (buffreplace from to ls).
Proof.
  intros [? ? ?]. split; [by constructor|]. split; [rw /chars_left /=; lia|]. rw /buffreplace /= length_fmap. lia.
Qed.

Lemma trydecpoint_safe ls : lex_ok ls ->
  lsafe (trydecpoint str2d locale_point ls) (fun '(_, ls') => adv 0 0 ls ls').
Proof.
  intros Hok. rw /trydecpoint. cbv zeta. set (ls1 := buffreplace _ _ _).
  destruct (str2d _); [|apply lexerror_safe]. simpl.
  assert (lex_ok (set_decpoint locale_point ls)) as Hok1 by (destruct Hok; by constructor).
  apply (buffreplace_ok (decpoint ls) locale_point _ Hok1).
Qed.

Lemma read_numeral_safe ls : lex_ok ls -> current ls <> EOZ ->
  lsafe (read_numeral str2d locale_point ls) (fun '(_, ls') => adv 1 0 ls ls').
Proof.
  intros Hok Hne. rw /read_numeral. eapply lsafe_then; [by apply save_and_next_safe|]. intros ls1 H1.
  eapply lsafe_then; [apply save_while_safe; [done|apply H1|apply left_chars_enough]|]. intros ls2 H2.
  eapply lsafe_then; [apply check_next_safe; [repeat constructor; vm_compute; discriminate|apply H2]|]. intros [e ls3] H3.
  apply (lsafe_then _ _ (adv 0 0 ls3)).
  { destruct e; [|apply adv_refl, H3].
    eapply lsafe_then; [apply check_next_safe; [repeat constructor; vm_compute; discriminate|apply H3]|]. by intros [? ls4] H4. }
  intros ls4 H4. eapply lsafe_then; [apply save_while_safe; [done|apply H4|apply left_chars_enough]|]. intros ls5 H5.
  cbv zeta. set (ls6 := buffreplace _ _ _). assert (adv 0 0 ls5 ls6) as H6.
  { eapply adv_weaken; [eapply adv_trans; [apply save_adv, H5|apply buffreplace_ok, save_adv, H5]|lia..]. }
  assert (adv 1 0 ls ls6) as H16.
  { eapply adv_weaken; [exact (adv_trans _ _ _ _ _ _ _ H1 (adv_trans _ _ _ _ _ _ _ H2 (adv_trans _ _ _ _ _ _ _ H3
      (adv_trans _ _ _ _ _ _ _ H4 (adv_trans _ _ _ _ _ _ _ H5 H6)))))|lia..]. }
  destruct (str2d _); [done|]. eapply lsafe_mono; [|apply trydecpoint_safe, H6]. intros [r ls7] H7.
  eapply adv_weaken; [by eapply adv_trans|lia..].
Qed.

Lemma count_equals_safe (fuel : nat) ls count : lex_ok ls -> (chars_left ls < fuel)%nat -> 0 <= count ->
  lsafe (count_equals fuel ls count) (fun '(n, ls') => count <= n /\ adv 0 (Z.to_nat (n - count)) ls ls').
Proof.
  revert ls count. induction fuel as [|fuel IH] => ls count Hok Hf Hc; [lia|]. cbn [count_equals].
  destruct (decide (current ls = 61)) as [Heq|]; [|split; [lia|]; rw Z.sub_diag; by apply adv_refl].
  eapply lsafe_then; [apply save_and_next_safe; [done|rw Heq; done]|]. intros ls1 Ha. pose proof Ha as (? & ? & ?).
  eapply lsafe_mono; [|apply IH; [done|lia..]]. intros [n ls2] [? Ha2]. split; [lia|].
  eapply adv_weaken; [by eapply adv_trans|lia..].
Qed.

Lemma skip_sep_safe ls : lex_ok ls -> current ls <> EOZ ->
  lsafe (skip_sep ls) (fun '(n, ls') => adv 1 (1 + Z.to_nat n) ls ls' /\ (0 <= n -> current ls' <> EOZ)).
Proof.
  intros Hok Hne. rw /skip_sep. eapply lsafe_then; [by apply save_and_next_safe|]. intros ls1 H1.
  eapply lsafe_then; [apply count_equals_safe; [apply H1|apply left_chars_enough|lia]|]. intros [n ls2] [Hn H2]. simpl.
  pose proof (adv_trans _ _ _ _ _ _ _ H1 H2) as H12. destruct (decide (current ls2 = current ls)) as [Heq|].
  - split; [|by rw Heq]. eapply adv_weaken; [exact H12|lia..].
  - split; [|lia]. eapply adv_weaken; [exact H12|lia..].
Qed.

(** Progress, with growth of the buffer when the text is kept. *)
Definition moves (keep : bool) (n : nat) (ls ls' : LexState) : Prop :=
  lex_ok ls' /\ (chars_left ls' < chars_left ls)%nat /\
  (keep = true -> (length (buff ls) + n <= length (buff ls'))%nat).

Lemma adv_moves k n keep ls ls' : adv (S k) n ls ls' -> moves keep n ls ls'.
Proof. intros (? & ? & ?). split_and!; [done|lia..]. Qed.

Lemma adv_then_moves k n keep m ls ls1 ls2 : adv k n ls ls1 -> moves keep m ls1 ls2 -> moves keep m ls ls2.
Proof. intros (? & ? & ?) (? & ? & ?). split_and!; [done|lia|intros; specialize (H4 H5); lia]. Qed.

Lemma long_string_loop_safe (fuel : nat) keep sep ls : 0 <= sep -> lex_ok ls -> (chars_left ls < fuel)%nat ->
  lsafe (long_string_loop fuel keep sep ls) (moves keep (2 + Z.to_nat sep) ls).
Proof.
  intros Hsep. revert ls. induction fuel as [|fuel IH] => ls Hok Hf; [lia|]. cbn [long_string_loop].
  destruct (decide (current ls = EOZ)) as [|Hne]; [apply lexerror_safe|].
  assert (forall k n ls1, adv (S k) n ls ls1 -> lsafe (long_string_loop fuel keep sep ls1) (moves keep (2 + Z.to_nat sep) ls)) as Hgo.
  { intros k n ls1 Ha. pose proof Ha as (? & ? & ?). eapply lsafe_mono; [|apply IH; [done|lia]].
    intros ls2. by eapply adv_then_moves. }
  destruct (decide (current ls = 91)).
  { eapply lsafe_then; [by apply skip_sep_safe|]. intros [m ls1] [H1 Hcur]. destruct (decide (m = sep)) as [->|]; [|by eapply Hgo].
    eapply lsafe_then; [apply save_and_next_safe; [apply H1|auto]|]. intros ls2 H2.
    destruct (decide (sep = 0)); [apply lexerror_safe|].
    exact (Hgo _ _ _ (adv_trans _ _ _ _ _ _ _ H1 H2)). }
  destruct (decide (current ls = 93)).
  { eapply lsafe_then; [by apply skip_sep_safe|]. intros [m ls1] [H1 Hcur]. destruct (decide (m = sep)) as [->|]; [|by eapply Hgo].
    eapply lsafe_mono; [|apply save_and_next_safe; [apply H1|auto]]. intros ls2 H2.
    eapply (adv_moves 1), adv_weaken; [by eapply adv_trans|lia..]. }
  destruct (currIsNewline ls).
  { eapply lsafe_then; [apply inclinenumber_safe; [apply save_adv, Hok|done]|]. intros ls1 H1.
    pose proof (adv_trans _ _ _ _ _ _ _ (save_adv 10 ls Hok) H1) as H01. destruct keep; [by eapply Hgo|].
    destruct H01 as ([? ? ?] & Hc & _). assert (lex_ok (luaZ_resetbuffer ls1)) as Hok2 by (by constructor).
    eapply lsafe_mono; [|apply IH; [exact Hok2|]].
    - intros ls2 (? & Hlt & _). split_and!; [done| |done]. change (chars_left (luaZ_resetbuffer ls1)) with (chars_left ls1) in Hlt. lia.
    - change (chars_left (luaZ_resetbuffer ls1)) with (chars_left ls1). lia. }
  destruct keep.
  - eapply lsafe_then; [by apply save_and_next_safe|]. intros ls1 H1. by eapply Hgo.
  - eapply lsafe_then; [by apply next_safe|]. intros ls1 [H1 _]. by eapply Hgo.
Qed.

Lemma read_long_string_safe keep sep ls : 0 <= sep -> lex_ok ls -> current ls <> EOZ ->
  (keep = true -> (1 + Z.to_nat sep <= length (buff ls))%nat) ->
  lsafe (read_long_string keep sep ls) (fun '(_, ls') => lex_ok ls' /\ (chars_left ls' < chars_left ls)%nat).
Proof.
  intros Hsep Hok Hne Hb. rw /read_long_string. eapply lsafe_then; [by apply save_and_next_safe|]. intros ls1 H1.
  apply (lsafe_then _ _ (adv 0 0 ls1)).
  { destruct (currIsNewline ls1) eqn:Hnl; [|apply adv_refl, H1].
    eapply lsafe_mono; [|apply inclinenumber_safe; [apply H1|]].
    - intros ls2 H2. by eapply adv_weaken; [exact H2|lia..].
    - rw /currIsNewline in Hnl. apply bool_decide_eq_true_1 in Hnl. rw /EOZ. lia. }
  intros ls2 H2. eapply lsafe_then; [apply long_string_loop_safe; [done|apply H2|apply left_chars_enough]|].
  intros ls3 (Hok3 & Hc3 & Hb3). pose proof (adv_trans _ _ _ _ _ _ _ H1 H2) as (_ & Hc & Hbl). destruct keep.
  - specialize (Hb3 eq_refl). specialize (Hb eq_refl). rw /lstring. destruct (decide _) as [_|Hn]; [|lia].
    rw LOk_bind. split; [done|lia].
  - split; [done|lia].
Qed.

Lemma read_digits_safe n c ls : lex_ok ls -> current ls <> EOZ -> (0 < n)%nat ->
  lsafe (read_digits n c ls) (fun '(_, ls') => adv 1 0 ls ls').
Proof.
  revert c ls. induction n as [|n IH] => c ls Hok Hne Hn; [lia|]. cbn [read_digits].
  eapply lsafe_then; [by apply next_safe|]. intros ls1 [H1 _]. destruct (decide (0 < n)%nat); [|done].
  destruct (isdigit (current ls1)) eqn:Hd; [|done].
  eapply lsafe_mono; [|apply IH; [apply H1| |done]].
  - intros [? ls2] H2. by eapply adv_weaken; [by eapply adv_trans|lia..].
  - intros Heq. by rw Heq in Hd.
Qed.

Lemma read_escape_safe ls : lex_ok ls -> current ls <> EOZ -> lsafe (read_escape ls) (adv 1 0 ls).
Proof.
  intros Hok Hne. rw /read_escape. eapply lsafe_then; [by apply next_safe|]. intros ls1 [H1 _].
  assert (forall k n ls2, adv k n ls1 ls2 -> adv 1 0 ls ls2) as Hgo.
  { intros k n ls2 H2. eapply adv_weaken; [by eapply adv_trans|lia..]. }
  destruct (simple_escape (current ls1)) as [c|] eqn:He.
  { eapply lsafe_mono; [|apply next_safe; [apply save_adv, H1|]].
    - intros ls2 [H2 _]. eapply Hgo, adv_trans; [apply save_adv, H1|exact H2].
    - intros Heq. change (current (save c ls1)) with (current ls1) in Heq. by rw Heq in He. }
  destruct (currIsNewline ls1) eqn:Hnl.
  { eapply lsafe_mono; [|apply inclinenumber_safe; [apply save_adv, H1|]].
    - intros ls2 H2. eapply Hgo, adv_trans; [apply save_adv, H1|exact H2].
    - rw /currIsNewline in Hnl. apply bool_decide_eq_true_1 in Hnl. simpl. rw /EOZ. lia. }
  destruct (decide (current ls1 = EOZ)); [done|]. destruct (negb _).
  { eapply lsafe_mono; [|apply save_and_next_safe; [apply H1|done]]. intros ls2 H2. by eapply Hgo. }
  eapply lsafe_then; [apply read_digits_safe; [apply H1|done|lia]|]. intros [c ls2] H2.
  destruct (decide (c > 255)); [apply lexerror_safe|]. eapply Hgo, adv_trans; [exact H2|apply save_adv, H2].
Qed.

Lemma string_loop_safe (fuel : nat) del ls : lex_ok ls -> (chars_left ls < fuel)%nat ->
  lsafe (string_loop fuel del ls) (fun ls' => adv 0 0 ls ls' /\ current ls' = del).
Proof.
  revert ls. induction fuel as [|fuel IH] => ls Hok Hf; [lia|]. cbn [string_loop].
  destruct (decide (current ls <> del)) as [|Hd]; [|split; [by apply adv_refl|by apply dec_stable]].
  destruct (decide (current ls = EOZ)); [apply lexerror_safe|]. destruct (currIsNewline ls); [apply lexerror_safe|].
  apply (lsafe_then _ _ (adv 1 0 ls)).
  { destruct (decide (current ls = 92)); [by apply read_escape_safe|].
    eapply lsafe_mono; [|by apply save_and_next_safe]. intros ls1 H1. by eapply adv_weaken; [exact H1|lia..]. }
  intros ls1 H1. pose proof H1 as (Hok1 & Hc1 & _). eapply lsafe_mono; [|apply IH; [done|lia]]. intros ls2 [H2 ?]. split; [|done].
  by eapply adv_weaken; [by eapply adv_trans|lia..].
Qed.

Lemma read_string_safe del ls : lex_ok ls -> current ls <> EOZ -> del <> EOZ ->
  lsafe (read_string del ls) (fun '(_, ls') => adv 1 0 ls ls').
Proof.
  intros Hok Hne Hdel. rw /read_string. eapply lsafe_then; [by apply save_and_next_safe|]. intros ls1 H1.
  eapply lsafe_then; [apply string_loop_safe; [apply H1|apply left_chars_enough]|]. intros ls2 [H2 Hcur].
  eapply lsafe_then; [apply save_and_next_safe; [apply H2|by rw Hcur]|]. intros ls3 H3.
  pose proof (adv_trans _ _ _ _ _ _ _ H1 (adv_trans _ _ _ _ _ _ _ H2 H3)) as H13. pose proof H13 as (_ & _ & Hb).
  rw /lstring. destruct (decide _) as [_|Hn]; [|lia]. rw LOk_bind. by eapply adv_weaken; [exact H13|lia..].
Qed.

Definition forward (k : nat) (ls ls' : LexState) : Prop := lex_ok ls' /\ (chars_left ls' + k <= chars_left ls)%nat.

Lemma adv_forward k n ls ls' : adv k n ls ls' -> forward k ls ls'.
Proof. by intros (? & ? & _). Qed.

Lemma forward_trans k k1 k2 ls1 ls2 ls3 :
  forward k1 ls1 ls2 -> forward k2 ls2 ls3 -> (k <= k1 + k2)%nat -> forward k ls1 ls3.
Proof. intros [? ?] [? ?] ?. split; [done|lia]. Qed.

Lemma resetbuffer_ok ls : lex_ok ls -> forward 0 ls (luaZ_resetbuffer ls).
Proof. intros [? ? ?]. split; [by constructor|]. rw /chars_left /=. lia. Qed.

Lemma skip_line_safe (fuel : nat) ls : lex_ok ls -> (chars_left ls < fuel)%nat ->
  lsafe (skip_line fuel ls) (forward 0 ls).
Proof.
  revert ls. induction fuel as [|fuel IH] => ls Hok Hf; [lia|]. cbn [skip_line].
  destruct (negb _); [simpl; case_bool_decide|]; [|by apply (adv_forward 0 0), adv_refl..].
  eapply lsafe_then; [by apply next_safe|]. intros ls1 [H1 _]. pose proof H1 as (? & ? & ?).
  eapply lsafe_mono; [|apply IH; [done|lia]]. intros ls2 Hf2.
  eapply forward_trans; [by eapply adv_forward|exact Hf2|lia].
Qed.

Lemma read_comment_safe ls : lex_ok ls -> lsafe (read_comment ls) (forward 0 ls).
Proof.
  intros Hok. rw /read_comment. destruct (decide (current ls = 91)) as [Heq|];
    [|apply skip_line_safe; [done|apply left_chars_enough]].
  eapply lsafe_then; [apply skip_sep_safe; [done|by rw Heq]|]. intros [sep ls1] [H1 Hcur]. cbv zeta.
  pose proof (resetbuffer_ok ls1 ltac:(apply H1)) as H2. destruct (decide (sep >= 0)).
  - eapply lsafe_then; [apply read_long_string_safe; [lia|apply H2|apply Hcur; lia|done]|].
    intros [ts ls3] [Hok3 Hc3]. simpl. pose proof (resetbuffer_ok ls3 Hok3) as H4.
    destruct H1 as (_ & Hc1 & _), H2 as [_ Hc2], H4 as [Hok4 Hc4]. split; [done|]. lia.
  - eapply lsafe_mono; [|apply skip_line_safe; [apply H2|apply left_chars_enough]]. intros ls3 H3.
    destruct H1 as (_ & Hc1 & _), H2 as [_ Hc2], H3 as [Hok3 Hc3]. split; [done|]. lia.
Qed.

(** A token was read: characters were consumed. *)
Abbreviation consumed ls := (fun r : Token (Num := Num) * LexState => forward 1 ls (snd r)).

Lemma with_equals_safe c tok ls : lex_ok ls -> current ls <> EOZ -> lsafe (with_equals c tok ls) (consumed ls).
Proof.
  intros Hok Hne. rw /with_equals. eapply lsafe_then; [by apply next_safe|]. intros ls1 [H1 _].
  apply adv_forward in H1. destruct (decide (current ls1 <> 61)) as [|Heq]; [done|].
  eapply lsafe_then; [apply next_safe; [apply H1|]|].
  - intros He. apply Heq. by rw He.
  - intros ls2 [H2 _]. simpl. eapply forward_trans; [exact H1|by eapply adv_forward|lia].
Qed.

Lemma read_number_safe ls : lex_ok ls -> current ls <> EOZ ->
  lsafe (read_number_token str2d locale_point ls) (consumed ls).
Proof.
  intros Hok Hne. eapply lsafe_then; [by apply read_numeral_safe|]. intros [r ls1] H1. by eapply adv_forward.
Qed.

Lemma read_dots_safe ls : lex_ok ls -> current ls <> EOZ -> lsafe (read_dots str2d locale_point ls) (consumed ls).
Proof.
  intros Hok Hne. rw /read_dots. eapply lsafe_then; [by apply save_and_next_safe|]. intros ls1 H1.
  assert (Forall (fun c => 0 <= c) (lit ".")) as Hset by (repeat constructor; vm_compute; discriminate).
  eapply lsafe_then; [apply check_next_safe; [done|apply H1]|]. intros [two ls2] H2.
  pose proof (adv_trans _ _ _ _ _ _ _ H1 H2) as H12. destruct two.
  - eapply lsafe_then; [apply check_next_safe; [done|apply H2]|]. intros [three ls3] H3. simpl.
    eapply forward_trans; [by eapply adv_forward|by eapply adv_forward|lia].
  - destruct (isdigit (current ls2)) eqn:Hd; simpl; [|eapply forward_trans; [by eapply adv_forward|by eapply adv_forward, adv_refl, H2|lia]].
    eapply lsafe_mono; [|apply read_number_safe; [apply H2|]].
    + intros [tok ls3] H3. eapply forward_trans; [by eapply adv_forward|exact H3|lia].
    + intros Heq. by rw Heq in Hd.
Qed.

Lemma read_name_safe ls : lex_ok ls -> current ls <> EOZ -> lsafe (read_name ls) (consumed ls).
Proof.
  intros Hok Hne. rw /read_name. eapply lsafe_then; [by apply save_and_next_safe|]. intros ls1 H1.
  eapply lsafe_then; [apply save_while_safe; [done|apply H1|apply left_chars_enough]|]. intros ls2 H2. simpl.
  eapply forward_trans; [by eapply adv_forward|by eapply adv_forward|lia].
Qed.

(** The end of the stream is the only token that takes nothing. *)
Definition lexed (ls : LexState) (r : Token (Num := Num) * LexState) : Prop :=
  lex_ok r.2 /\ ((chars_left r.2 < chars_left ls)%nat \/
    token r.1 = TK_EOS /\ current r.2 = EOZ /\ (chars_left r.2 <= chars_left ls)%nat).

Lemma consumed_lexed ls r : consumed ls r -> lexed ls r.
Proof. intros [? ?]. split; [done|]. left. lia. Qed.

Lemma lexed_forward ls ls1 r : forward 0 ls ls1 -> lexed ls1 r -> lexed ls r.
Proof. intros [? ?] [? [|(? & ? & ?)]]; (split; [done|]); [left; lia|right; split_and!; [done..|lia]]. Qed.

Lemma llex_loop_safe (fuel : nat) ls : lex_ok ls -> (chars_left ls < fuel)%nat ->
  lsafe (llex_loop str2d locale_point fuel ls) (lexed ls).
Proof.
  revert ls. induction fuel as [|fuel IH] => ls Hok Hf; [lia|]. cbn [llex_loop]. cbv zeta.
  assert (forall ls1, forward 1 ls ls1 -> lsafe (llex_loop str2d locale_point fuel ls1) (lexed ls)) as Hgo.
  { intros ls1 [? ?]. eapply lsafe_mono; [|apply IH; [done|lia]]. intros r. apply lexed_forward. split; [done|lia]. }
  destruct (decide (current ls = EOZ)) as [He|Hne].
  { rw /currIsNewline He. repeat case_bool_decide; try (rw /EOZ in H; lia).
    repeat (destruct (decide _) as [Hx|_]; [try (exfalso; rw /EOZ in Hx; lia)|]); try done.
    split; [done|]. right. by split_and!. }
  destruct (currIsNewline ls).
  { eapply lsafe_then; [by apply inclinenumber_safe|]. intros ls1 H1. by eapply Hgo, adv_forward. }
  destruct (decide (current ls = 45)).
  { eapply lsafe_then; [by apply next_safe|]. intros ls1 [H1 _]. apply adv_forward in H1.
    destruct (decide (current ls1 <> 45)) as [|Heq]; [by apply consumed_lexed|].
    eapply lsafe_then; [apply next_safe; [apply H1|intros He; apply Heq; by rw He]|]. intros ls2 [H2 _].
    eapply lsafe_then; [apply read_comment_safe, H2|]. intros ls3 H3. apply Hgo. apply adv_forward in H2.
    eapply forward_trans; [exact H1|exact (forward_trans 1 _ _ _ _ _ H2 H3 ltac:(lia))|lia]. }
  destruct (decide (current ls = 91)).
  { eapply lsafe_then; [by apply skip_sep_safe|]. intros [sep ls1] [H1 Hcur]. destruct (decide (sep >= 0)).
    - eapply lsafe_then; [apply read_long_string_safe; [lia|apply H1|apply Hcur; lia|]|].
      + intros _. destruct H1 as (_ & _ & Hb). lia.
      + intros [ts ls2] [Hok2 Hc2]. apply consumed_lexed. destruct H1 as (_ & Hc1 & _). split; [done|]. simpl. lia.
    - destruct (decide (sep = -1)); [|apply lexerror_safe]. by eapply consumed_lexed, adv_forward. }
  do 4 (destruct (decide _); [eapply lsafe_mono; [|by apply with_equals_safe]; apply consumed_lexed|]).
  destruct (decide (_ \/ _)).
  { eapply lsafe_then; [by apply read_string_safe|]. intros [ts ls1] H1. by eapply consumed_lexed, adv_forward. }
  destruct (decide (current ls = 46)); [eapply lsafe_mono; [|by apply read_dots_safe]; apply consumed_lexed|].
  destruct (decide (current ls = EOZ)); [done|]. destruct (isspace _).
  { eapply lsafe_then; [by apply next_safe|]. intros ls1 [H1 _]. by eapply Hgo, adv_forward. }
  destruct (isdigit _); [eapply lsafe_mono; [|by apply read_number_safe]; apply consumed_lexed|].
  destruct (_ || _); [eapply lsafe_mono; [|by apply read_name_safe]; apply consumed_lexed|].
  eapply lsafe_then; [by apply next_safe|]. intros ls1 [H1 _]. by eapply consumed_lexed, adv_forward.
Qed.

Lemma llex_safe ls : lex_ok ls -> lsafe (llex str2d locale_point ls) (lexed ls).
Proof.
  intros Hok. pose proof (resetbuffer_ok ls Hok) as H1. eapply lsafe_mono; [|apply llex_loop_safe; [apply H1|apply left_chars_enough]].
  intros r. by apply lexed_forward.
Qed.

Lemma set_tokens_ok last tok look ls : lex_ok ls -> lex_ok (set_tokens last tok look ls).
Proof. intros [? ? ?]. by constructor. Qed.

Lemma setinput_safe s src tok : stream_ok s ->
  lsafe (luaX_setinput s src tok) (fun ls => lex_ok ls /\ chars_left ls = length (content s)).
Proof.
  intros Hs. rw /luaX_setinput /next /=. pose proof (zgetc_spec s Hs) as Hz. destruct (zgetc s) as [c s']; simpl in *.
  rw /chars_left /=. destruct (content s) as [|b l] eqn:Hcon.
  - destruct Hz as [-> ?]. split; [split; simpl; auto|]. by destruct (decide (EOZ = EOZ)).
  - destruct Hz as ([= ->] & Hb & Hcs & ?). split; [split; simpl; auto|]. rw Hcs.
    destruct (decide (b = EOZ)) as [->|]; [|done]. by destruct Hb.
Qed.

(** The tokens up to the end of the stream. *)
Fixpoint lex_all (fuel : nat) (ls : LexState) : lres (list Z) :=
  match fuel with
  | O => LFault OutOfFuel
  | S fuel =>
      '(tok, ls) ← llex str2d locale_point ls;
      if decide (token tok = TK_EOS) then LOk [] else l ← lex_all fuel ls; LOk (token tok :: l)
  end.

Lemma lex_all_safe (fuel : nat) ls : lex_ok ls -> (chars_left ls < fuel)%nat ->
  lsafe (lex_all fuel ls) (fun l => (length l <= chars_left ls)%nat).
Proof.
  revert ls. induction fuel as [|fuel IH] => ls Hok Hf; [lia|]. cbn [lex_all].
  eapply lsafe_then; [by apply llex_safe|]. intros [tok ls1] [Hok1 Hp]; simpl in *.
  destruct (decide (token tok = TK_EOS)); [simpl; lia|]. destruct Hp as [Hlt|[? _]]; [|done].
  eapply lsafe_then; [apply IH; [done|lia]|]. intros l Hl. simpl in *. lia.
Qed.
End safety.

(** C26: the lexical analyser is total: on every text, in blocks of any sizes, it ends with the token of
    the end of the stream or with a syntax error, after no more tokens than there are characters. It
    never asks the stream for a character behind the end, which would be undefined, and never reads
    outside the token buffer; every token but the last takes at least one character. *)
Theorem lexer_total {Num : Type} (str2d : cstring -> option Num) (locale_point : Z)
    (blocks : list (list Z)) (src : cstring) (tok : Token) :
  Forall (fun b => b <> []) blocks -> Forall is_byte (concat blocks) ->
  let run := ls ← luaX_setinput (luaZ_init blocks) src tok;
             lex_all str2d locale_point (S (length (concat blocks))) ls in
  (exists msg, run = LError msg) \/ exists toks, run = LOk toks /\ (length toks <= length (concat blocks))%nat.
Proof.
  intros Hne Hb run. assert (lsafe run (fun l => (length l <= length (concat blocks))%nat)) as Hs.
  { eapply lsafe_then; [by apply (setinput_safe (luaZ_init blocks))|]. intros ls [Hok Hc].
    change (content (luaZ_init blocks)) with (concat blocks) in Hc. rw -Hc. apply lex_all_safe; [done|lia]. }
  destruct run as [l|msg|f]; [right; by exists l|left; by exists msg|done].
Qed.

Lemma lexer_total_witness :
  let blocks := [lit "x = 'a"; lit "b' .. [[c]]-- end"] in
  let run := ls ← luaX_setinput (luaZ_init blocks) (lit "=stdin") (MkToken 0 SNone);
             lex_all (fun _ => Some 0) 46 (S (length (concat blocks))) ls in
  (exists msg, run = LError msg) \/ exists toks, run = LOk toks /\ (length toks <= length (concat blocks))%nat.
Proof.
  apply (lexer_total (fun _ => Some 0) 46 [lit "x = 'a"; lit "b' .. [[c]]-- end"] (lit "=stdin") (MkToken 0 SNone)).
  - vm_compute. repeat constructor; discriminate.
  - apply (bool_decide_unpack _). vm_compute. exact I.
Defined.

(** The set of characters that check_next() looks for includes the null that ends it, so that a
    null character in the text continues a token: a period followed by a null is the token "..", and
    by two nulls the token "...". *)
Theorem nul_continues_dots :
  let lex s := ls ← luaX_setinput (luaZ_init [s]) [] (MkToken 0 SNone);
               lex_all (Num := Z) (fun _ => None) 46 (S (length s)) ls in
  lex [46; 0; 59] = LOk [TK_CONCAT; 59] /\ lex [46; 0; 0; 59] = LOk [TK_DOTS; 59] /\ lex [46; 32; 59] = LOk [46; 59].
Proof. split_and!; vm_compute; reflexivity. Qed.

(** ** Proofs: quoted strings *)

Section quoting.
Context {Num : Type}.
Abbreviation LexState := (LexState (Num := Num)).

(** The characters from the current one on. *)
Definition text (ls : LexState) : list Z := if decide (current ls = EOZ) then [] else current ls :: content (z ls).

(** [ls] stands at the text [l] with the buffer [b] in line [n]. *)
Definition at_text (l b : list Z) (n : Z) (ls : LexState) : Prop :=
  lex_ok ls /\ text ls = l /\ buff ls = b /\ linenumber ls = n.

Lemma at_text_current c l b n ls : at_text (c :: l) b n ls -> current ls = c /\ c <> EOZ.
Proof. intros (_ & Ht & _). rw /text in Ht. destruct (decide _); [done|]. injection Ht as Hc _. by rw -Hc. Qed.

Lemma next_text c l b n ls : at_text (c :: l) b n ls -> exists ls', next ls = LOk ls' /\ at_text l b n ls'.
Proof.
  intros Hat. destruct (at_text_current _ _ _ _ _ Hat) as [Hc Hne]. destruct Hat as (Hok & Ht & Hb & Hn).
  pose proof Hok as [Hs Hw _]. rw /next Hw bool_decide_eq_false_2; [by rw Hc|].
  pose proof (zgetc_spec _ Hs) as Hz. rw /text in Ht. destruct (decide _) as [|_]; [done|]. injection Ht as _ Ht. rw Ht in Hz.
  destruct (zgetc (z ls)) as [d s]; simpl in *. eexists. split; [done|]. destruct l as [|b' l].
  - destruct Hz as [-> ?]. split_and!; [split; simpl; auto| |done..]. rw /text /=. by destruct (decide (EOZ = EOZ)).
  - destruct Hz as ([= ->] & Hby & Hcs & ?). split_and!; [split; simpl; auto| |done..]. rw /text /= Hcs.
    destruct (decide (b' = EOZ)) as [->|]; [by destruct Hby|done].
Qed.

Lemma save_text d l b n ls : at_text l b n ls -> at_text l (b ++ [d]) n (save d ls).
Proof. intros ([? ? ?] & ? & <- & ?). split_and!; [by constructor|done..]. Qed.

Lemma save_and_next_text c l b n ls : at_text (c :: l) b n ls ->
  exists ls', save_and_next ls = LOk ls' /\ at_text l (b ++ [c]) n ls'.
Proof.
  intros Hat. destruct (at_text_current _ _ _ _ _ Hat) as [Hc _]. rw /save_and_next Hc.
  by apply (next_text c), save_text.
Qed.

Lemma currIsNewline_text c l b n ls : at_text (c :: l) b n ls -> currIsNewline ls = bool_decide (c = 10 \/ c = 13).
Proof. intros Hat. rw /currIsNewline. by destruct (at_text_current _ _ _ _ _ Hat) as [-> _]. Qed.

(** A line feed that no carriage return follows. *)
Lemma inclinenumber_text l b n ls : at_text (10 :: l) b n ls -> head l <> Some 13 -> n + 1 < MAX_INT ->
  exists ls', inclinenumber ls = LOk ls' /\ at_text l b (n + 1) ls'.
Proof.
  intros Hat Hl Hn. rw /inclinenumber. destruct (at_text_current _ _ _ _ _ Hat) as [Hc _]. rw Hc.
  destruct (next_text _ _ _ _ _ Hat) as (ls1 & -> & Hat1). rw LOk_bind.
  assert (currIsNewline ls1 && bool_decide (current ls1 <> 10) = false) as ->.
  { destruct Hat1 as (_ & Ht & _). rw /text in Ht. rw /currIsNewline.
    destruct (decide (current ls1 = EOZ)) as [->|]; [done|]. rw -Ht in Hl. simpl in Hl.
    repeat case_bool_decide; try done. destruct H as [H|H]; [done|]. by rw H in Hl. }
  rw LOk_bind. cbv zeta. destruct Hat1 as ([? ? ?] & ? & ? & Hn1). simpl. rw Hn1. destruct (decide _) as [|_]; [lia|].
  eexists. split; [done|]. split_and!; [by constructor|done..].
Qed.

(** A quoted character gives the character back. *)
Lemma quote_char_read c l b n ls :
  is_byte c -> at_text (quote_char c ++ l) b n ls -> head l <> Some 13 -> (c = 10 -> n + 1 < MAX_INT) ->
  current ls <> 34 /\ current ls <> EOZ /\ currIsNewline ls = false /\
  exists ls', (if decide (current ls = 92) then read_escape ls else save_and_next ls) = LOk ls' /\
    at_text l (b ++ [c]) (if decide (c = 10) then n + 1 else n) ls'.
Proof.
  intros Hby Hat Hl Hn. rw /quote_char in Hat.
  assert (forall d k, at_text (92 :: d :: k) b n ls -> current ls = 92 /\ current ls <> 34 /\ current ls <> EOZ /\
    currIsNewline ls = false /\ exists ls1, next ls = LOk ls1 /\ at_text (d :: k) b n ls1) as Hesc.
  { intros d k Ha. rw (currIsNewline_text _ _ _ _ _ Ha). destruct (at_text_current _ _ _ _ _ Ha) as [-> _].
    split_and!; [done..|]. by apply (next_text 92). }
  destruct (decide (c = 34 \/ c = 92 \/ c = 10)) as [Hsp|Hsp].
  { destruct (Hesc c l Hat) as (Hc & ? & ? & ? & ls1 & Hnx & Hat1). split_and!; [done..|]. rw Hc. simpl.
    rw /read_escape Hnx LOk_bind (currIsNewline_text _ _ _ _ _ Hat1). destruct (at_text_current _ _ _ _ _ Hat1) as [-> _].
    destruct Hsp as [->|[->| ->]]; simpl.
    - by apply (save_and_next_text 34).
    - by apply (save_and_next_text 92).
    - apply inclinenumber_text; [|done|auto]. by apply save_text. }
  destruct (decide (c = 13)) as [->|].
  { destruct (Hesc 114 l Hat) as (Hc & ? & ? & ? & ls1 & Hnx & Hat1). split_and!; [done..|]. rw Hc. simpl.
    rw /read_escape Hnx LOk_bind. destruct (at_text_current _ _ _ _ _ Hat1) as [-> _]. simpl.
    apply (next_text 114). by apply save_text. }
  destruct (decide (c = 0)) as [->|].
  { destruct (Hesc 48 (48 :: 48 :: l) Hat) as (Hc & ? & ? & ? & ls1 & Hnx & Hat1). split_and!; [done..|]. rw Hc. simpl.
    rw /read_escape Hnx LOk_bind (currIsNewline_text _ _ _ _ _ Hat1). destruct (at_text_current _ _ _ _ _ Hat1) as [Hc1 _].
    rw Hc1. simpl. rw Hc1. destruct (next_text _ _ _ _ _ Hat1) as (ls2 & -> & Hat2). rw LOk_bind.
    destruct (at_text_current _ _ _ _ _ Hat2) as [Hc2 _]. rw Hc2. simpl.
    destruct (next_text _ _ _ _ _ Hat2) as (ls3 & -> & Hat3). rw LOk_bind.
    destruct (at_text_current _ _ _ _ _ Hat3) as [Hc3 _]. rw Hc3. simpl.
    destruct (next_text _ _ _ _ _ Hat3) as (ls4 & -> & Hat4). rw LOk_bind. simpl.
    eexists. split; [done|]. by apply save_text. }
  simpl in Hat. rw (currIsNewline_text _ _ _ _ _ Hat). destruct (at_text_current _ _ _ _ _ Hat) as [-> ?].
  split_and!; [naive_solver|done|case_bool_decide; naive_solver|].
  destruct (decide (c = 92)); [naive_solver|]. destruct (decide (c = 10)); [naive_solver|]. by apply save_and_next_text.
Qed.

Definition quoted (s : list Z) : list Z := concat (quote_char <$> s).
Definition newlines (s : list Z) : Z := length (filter (fun c => c = 10) s).

Lemma addquoted_eq b s : addquoted b s = b ++ 34 :: quoted s ++ [34].
Proof.
  rw /addquoted. assert (forall b, quote_loop s b = b ++ quoted s) as ->; [|by rw -!app_assoc].
  induction s as [|c s IH] => b'; simpl; [by rw app_nil_r|]. by rw IH -app_assoc.
Qed.

(** Carriage returns are escaped. *)
Lemma quoted_head s rest : head (quoted s ++ 34 :: rest) <> Some 13.
Proof.
  destruct s as [|c s]; [done|]. change (quoted (c :: s)) with (quote_char c ++ quoted s). rw /quote_char.
  destruct (decide (c = 34 \/ c = 92 \/ c = 10)); [by intros [=]|]. destruct (decide (c = 13)); [by intros [=]|].
  destruct (decide (c = 0)); [by intros [=]|]. by intros [= ?].
Qed.

Lemma string_loop_quoted (fuel : nat) s rest b n ls :
  Forall is_byte s -> at_text (quoted s ++ 34 :: rest) b n ls -> n + newlines s < MAX_INT -> (length s < fuel)%nat ->
  exists ls', string_loop fuel 34 ls = LOk ls' /\ at_text (34 :: rest) (b ++ s) (n + newlines s) ls'.
Proof.
  intros Hs. revert fuel b n ls. induction Hs as [|c s Hc Hs IH] => fuel b n ls Hat Hn Hf; (destruct fuel as [|fuel]; [simpl in Hf; lia|]).
  - cbn [string_loop]. destruct (at_text_current _ _ _ _ _ Hat) as [-> _]. rw app_nil_r Z.add_0_r.
    destruct (decide (34 <> 34)); [done|]. by exists ls.
  - change (quoted (c :: s)) with (quote_char c ++ quoted s) in Hat. rw -app_assoc in Hat.
    assert (newlines (c :: s) = (if decide (c = 10) then 1 else 0) + newlines s) as Hnl.
    { rw /newlines filter_cons. destruct (decide (c = 10)); simpl; lia. }
    destruct (quote_char_read c (quoted s ++ 34 :: rest) b n ls Hc Hat) as (H34 & Heoz & Hnew & ls1 & Hstep & Hat1).
    { apply quoted_head. }
    { intros ->. rw Hnl in Hn. simpl in Hn. rw /newlines in Hn. lia. }
    cbn [string_loop]. destruct (decide (current ls <> 34)); [|done]. destruct (decide (current ls = EOZ)); [done|].
    rw Hnew Hstep LOk_bind. destruct (IH fuel (b ++ [c]) _ ls1 Hat1) as (ls2 & -> & Hat2).
    + rw Hnl in Hn. destruct (decide (c = 10)); lia.
    + simpl in Hf. lia.
    + exists ls2. split; [done|]. rw -app_assoc in Hat2. simpl in Hat2. rw Hnl.
      destruct (decide (c = 10)); [by rw Z.add_assoc|by rw Z.add_0_l].
Qed.

Lemma lex_quoted (str2d : cstring -> option Num) locale_point s rest n ls :
  Forall is_byte s -> at_text (addquoted [] s ++ rest) [] n ls -> n + newlines s < MAX_INT ->
  exists ls', llex_loop str2d locale_point (left_chars ls) ls = LOk (MkToken TK_STRING (SStr s), ls') /\
    at_text rest (34 :: s ++ [34]) (n + newlines s) ls'.
Proof.
  intros Hs Hat Hn. rw addquoted_eq /= -app_assoc /= in Hat. rw /left_chars. cbn [llex_loop]. cbv zeta.
  rw (currIsNewline_text _ _ _ _ _ Hat). destruct (at_text_current _ _ _ _ _ Hat) as [-> _]. simpl. rw /read_string.
  destruct (save_and_next_text _ _ _ _ _ Hat) as (ls1 & -> & Hat1). rw LOk_bind.
  destruct (string_loop_quoted (left_chars ls1) s rest ([] ++ [34]) n ls1 Hs Hat1 Hn) as (ls2 & -> & Hat2).
  { destruct Hat1 as (_ & Ht & _). rw /left_chars. rw /text in Ht. destruct (decide _).
    - by destruct (quoted s).
    - apply (f_equal length) in Ht. simpl in Ht. rw length_app /= in Ht.
      assert (length s <= length (quoted s))%nat; [|lia]. clear. induction s as [|c s IH]; [done|].
      change (quoted (c :: s)) with (quote_char c ++ quoted s). rw length_app /=.
      assert (1 <= length (quote_char c))%nat; [|lia]. rw /quote_char. by repeat case_decide; vm_compute; lia. }
  rw LOk_bind. destruct (save_and_next_text _ _ _ _ _ Hat2) as (ls3 & -> & Hat3). rw LOk_bind. simpl in Hat3.
  pose proof Hat3 as (_ & _ & Hb & _). rw Hb /lstring. destruct (decide _) as [_|Hx].
  - rw LOk_bind. simpl. exists ls3. split; [|done]. do 4 f_equal. rw drop_0 length_app /=.
    replace (Z.to_nat (S (length s + 1) - 2)) with (length s) by lia. by rw take_app_length.
  - rw /= length_app /= in Hx. lia.
Qed.
End quoting.

(** C27: what string.format writes for the item "%q" the lexical analyser reads back: the quoted form of
    any string of bytes, quotes, backslashes, line ends and nulls included, is one string token with
    the same bytes; the text behind it is untouched and the line number advances by the line feeds of
    the string. *)
Theorem quote_lex {Num : Type} (str2d : cstring -> option Num) (locale_point : Z) (s rest : list Z)
    (blocks : list (list Z)) (src : cstring) (tok : Token) :
  Forall is_byte s -> Forall (fun b => b <> []) blocks -> Forall is_byte (concat blocks) ->
  concat blocks = addquoted [] s ++ rest -> 1 + newlines s < MAX_INT ->
  exists ls, (ls ← luaX_setinput (luaZ_init blocks) src tok; llex str2d locale_point ls) =
      LOk (MkToken TK_STRING (SStr s), ls) /\ text ls = rest /\ linenumber ls = 1 + newlines s.
Proof.
  intros Hs Hne Hb Heq Hn. pose proof (setinput_safe (Num := Num) (luaZ_init blocks) src tok) as Hset.
  rw /luaX_setinput /next /= in Hset *. pose proof (zgetc_spec (luaZ_init blocks) (conj Hb Hne)) as Hz.
  change (content (luaZ_init blocks)) with (concat blocks) in Hz. rw Heq addquoted_eq /= in Hz.
  destruct (zgetc (luaZ_init blocks)) as [c z1]; simpl in *. destruct Hz as ([= ->] & Hby & Hc1 & Hz1).
  specialize (Hset (conj Hb Hne)). destruct Hset as [[? ? ?] _]. rw /llex. cbv zeta.
  set (ls0 := luaZ_resetbuffer _). destruct (lex_quoted str2d locale_point s rest 1 ls0 Hs) as (ls & -> & (_ & ? & _ & ?)).
  - split_and!; [by constructor| |done..]. rw /text /= addquoted_eq /=. by rw Hc1.
  - done.
  - by exists ls.
Qed.

Lemma quote_lex_witness :
  exists ls, (ls ← luaX_setinput (luaZ_init [addquoted [] [97; 34; 10; 0; 255] ++ lit " x"]) [] (MkToken 0 SNone);
      llex (Num := Z) (fun _ => None) 46 ls) =
      LOk (MkToken TK_STRING (SStr [97; 34; 10; 0; 255]), ls) /\ text ls = lit " x" /\ linenumber ls = 1 + newlines [97; 34; 10; 0; 255].
Proof.
  apply (quote_lex (fun _ => None) 46 [97; 34; 10; 0; 255] (lit " x") [addquoted [] [97; 34; 10; 0; 255] ++ lit " x"]).
  - apply (bool_decide_unpack _). vm_compute. exact I.
  - vm_compute. repeat constructor; discriminate.
  - apply (bool_decide_unpack _). vm_compute. exact I.
  - vm_compute. reflexivity.
  - vm_compute. reflexivity.
Defined.
