(* ===== verification/LuaMatch.v ===== *)
(** LuaMatch: the pattern matching of the string library, src/liblua/src/lstrlib.c, from
    check_capture() to str_gsub().

    Pointers into the subject and into the pattern are positions; every read goes through
    [char_at], so that a read behind the null that ends a string is a fault of the model.
    The captures are an array of LUA_MAXCAPTURES entries that the caller of match() does
    not initialise; match() and the functions it calls update them in place and undo their
    updates when they fail. A Lua error leaves all of them at once. match() is called again
    only at later positions of the pattern, which bounds its fuel. The depth of the C stack
    is not modelled. *)

From Corelib Require Import ssreflect.
From stdpp Require Import base list numbers strings.
From Stdlib Require Import ZArith Lia.
From S2P Require Import Prelude Libc LuaObject LuaStr.

(** ** State *)

Definition LUA_MAXCAPTURES : nat := 32.
Definition CAP_UNFINISHED : Z := -1.
Definition CAP_POSITION : Z := -2.
Definition L_ESC : Z := 37.
Definition SPECIALS : list Z := lit "^$*+?.([%-".

(** An entry of [capture]: [init] as a position of the subject, and [len]. *)
Record capture_t := MkCapture { init : Z; len : Z }.

Record MatchState := MkMatch {
  src : list Z;
  level : nat;
  capture : list capture_t
}.

Definition set_level (l : nat) (ms : MatchState) : MatchState := MkMatch (src ms) l (capture ms).
Definition set_captures (cs : list capture_t) (ms : MatchState) : MatchState := MkMatch (src ms) (level ms) cs.

(** [ms->capture[l]] and the assignment to it. *)
Definition get_capture (ms : MatchState) (l : nat) : lres capture_t :=
  match capture ms !! l with
  | Some c => LOk c
  | None => LFault OutOfBounds
  end.
Definition put_capture (ms : MatchState) (l : nat) (c : capture_t) : lres MatchState :=
  if decide (l < length (capture ms))%nat then LOk (set_captures (<[l := c]> (capture ms)) ms) else LFault OutOfBounds.

Definition check_capture (ms : MatchState) (l : Z) : lres nat :=
  let l := l - 49 in
  if decide (l < 0 \/ l >= level ms) then LError (lit "invalid capture index")
  else
    c ← get_capture ms (Z.to_nat l);
    if decide (len c = CAP_UNFINISHED) then LError (lit "invalid capture index") else LOk (Z.to_nat l).

Fixpoint to_close_loop (ms : MatchState) (l : nat) : lres nat :=
  match l with
  | O => LError (lit "invalid pattern capture")
  | S l =>
      c ← get_capture ms l;
      if decide (len c = CAP_UNFINISHED) then LOk l else to_close_loop ms l
  end.
Definition capture_to_close (ms : MatchState) : lres nat := to_close_loop ms (level ms).

(** ** Classes of characters *)

Definition match_class (c cl : Z) : bool :=
  let known (res : bool) := if islower cl then res else negb res in
  let k := tolower cl in
  if decide (k = 97) then known (isalpha c)
  else if decide (k = 99) then known (iscntrl c)
  else if decide (k = 100) then known (isdigit c)
  else if decide (k = 108) then known (islower c)
  else if decide (k = 112) then known (ispunct c)
  else if decide (k = 115) then known (isspace c)
  else if decide (k = 117) then known (isupper c)
  else if decide (k = 119) then known (isalnum c)
  else if decide (k = 120) then known (isxdigit c)
  else if decide (k = 122) then known (bool_decide (c = 0))
  else bool_decide (cl = c).

Section pattern.
Context (pat : list Z).

(** The [do]-loop of classend(). *)
Fixpoint class_loop (fuel : nat) (p : Z) : lres Z :=
  match fuel with
  | O => LFault OutOfFuel
  | S fuel =>
      c ← char_at pat p;
      if decide (c = 0) then LError (lit "malformed pattern (missing ']')")
      else
        d ← char_at pat (p + 1);
        let p := if decide (c = L_ESC /\ d <> 0) then p + 2 else p + 1 in
        d ← char_at pat p;
        if decide (d <> 93) then class_loop fuel p else LOk (p + 1)
  end.

Definition classend (p : Z) : lres Z :=
  c ← char_at pat p;
  let p := p + 1 in
  if decide (c = L_ESC) then
    d ← char_at pat p;
    if decide (d = 0) then LError (lit "malformed pattern (ends with '%')") else LOk (p + 1)
  else if decide (c = 91) then
    d ← char_at pat p;
    class_loop (S (length pat)) (if decide (d = 94) then p + 1 else p)
  else LOk p.

(** The [while]-loop of matchbracketclass(). *)
Fixpoint bracket_loop (fuel : nat) (c p ec : Z) (sig : bool) : lres bool :=
  match fuel with
  | O => LFault OutOfFuel
  | S fuel =>
      let p := p + 1 in
      if decide (p < ec) then
        x ← char_at pat p;
        if decide (x = L_ESC) then
          let p := p + 1 in
          cl ← char_at pat p;
          if match_class c cl then LOk sig else bracket_loop fuel c p ec sig
        else
          y ← char_at pat (p + 1);
          if decide (y = 45 /\ p + 2 < ec) then
            let p := p + 2 in
            hi ← char_at pat p;
            if decide (x <= c <= hi) then LOk sig else bracket_loop fuel c p ec sig
          else if decide (x = c) then LOk sig
          else bracket_loop fuel c p ec sig
      else LOk (negb sig)
  end.

Definition matchbracketclass (c p ec : Z) : lres bool :=
  d ← char_at pat (p + 1);
  if decide (d = 94) then bracket_loop (S (length pat)) c (p + 1) ec false
  else bracket_loop (S (length pat)) c p ec true.

Definition singlematch (c p ep : Z) : lres bool :=
  x ← char_at pat p;
  if decide (x = 46) then LOk true
  else if decide (x = L_ESC) then cl ← char_at pat (p + 1); LOk (match_class c cl)
  else if decide (x = 91) then matchbracketclass c p (ep - 1)
  else LOk (bool_decide (x = c)).

(** [s < ms->src_end && singlematch(uchar( *s), p, ep)] *)
Definition matches_here (ms : MatchState) (s p ep : Z) : lres bool :=
  if decide (s < length (src ms)) then c ← char_at (src ms) s; singlematch c p ep else LOk false.

(** ** Items *)

(** The [while]-loop of matchbalance(). *)
Fixpoint balance_loop (fuel : nat) (ms : MatchState) (s b e cont : Z) : lres (option Z) :=
  match fuel with
  | O => LFault OutOfFuel
  | S fuel =>
      let s := s + 1 in
      if decide (s < length (src ms)) then
        c ← char_at (src ms) s;
        if decide (c = e) then
          let cont := cont - 1 in
          if decide (cont = 0) then LOk (Some (s + 1)) else balance_loop fuel ms s b e cont
        else if decide (c = b) then balance_loop fuel ms s b e (cont + 1)
        else balance_loop fuel ms s b e cont
      else LOk None
  end.

Definition matchbalance (ms : MatchState) (s p : Z) : lres (option Z) :=
  b ← char_at pat p;
  if decide (b = 0) then LError (lit "unbalanced pattern")
  else
    e ← char_at pat (p + 1);
    if decide (e = 0) then LError (lit "unbalanced pattern")
    else
      c ← char_at (src ms) s;
      if decide (c <> b) then LOk None
      else balance_loop (S (length (src ms))) ms s b e 1.

Definition match_capture (ms : MatchState) (s l : Z) : lres (option Z) :=
  l ← check_capture ms l;
  c ← get_capture ms l;
  let n := sz (len c) in
  if decide (length (src ms) - s >= n) then
    eq ← memeq (src ms) (init c) (src ms) s n;
    LOk (if eq : bool then Some (s + n) else None)
  else LOk None.

(** The frontier: not in the set before [s], in the set at [s]. *)
Definition frontier (ms : MatchState) (s p ep : Z) : lres bool :=
  previous ← (if decide (s = 0) then LOk 0 else char_at (src ms) (s - 1));
  before ← matchbracketclass previous p (ep - 1);
  if before : bool then LOk false
  else c ← char_at (src ms) s; matchbracketclass c p (ep - 1).

(** What match() returns: NULL or the end of the match, and the captures as it leaves them. *)
Abbreviation match_result := (lres (option Z * MatchState)).

Section items.
(** match(), as the functions below call it. *)
Context (rec : MatchState -> Z -> Z -> match_result).

(** The first loop of max_expand() *)
Fixpoint expand_count (fuel : nat) (ms : MatchState) (s p ep i : Z) : lres Z :=
  match fuel with
  | O => LFault OutOfFuel
  | S fuel =>
      m ← matches_here ms (s + i) p ep;
      if m : bool then expand_count fuel ms s p ep (i + 1) else LOk i
  end.

(** and the second. *)
Fixpoint expand_try (fuel : nat) (ms : MatchState) (s ep i : Z) : match_result :=
  match fuel with
  | O => LFault OutOfFuel
  | S fuel =>
      if decide (i >= 0) then
        '(res, ms) ← rec ms (s + i) (ep + 1);
        match res with
        | Some e => LOk (Some e, ms)
        | None => expand_try fuel ms s ep (i - 1)
        end
      else LOk (None, ms)
  end.

Definition max_expand (ms : MatchState) (s p ep : Z) : match_result :=
  i ← expand_count (S (length (src ms))) ms s p ep 0;
  expand_try (S (S (length (src ms)))) ms s ep i.

Fixpoint min_loop (fuel : nat) (ms : MatchState) (s p ep : Z) : match_result :=
  match fuel with
  | O => LFault OutOfFuel
  | S fuel =>
      '(res, ms) ← rec ms s (ep + 1);
      match res with
      | Some e => LOk (Some e, ms)
      | None =>
          m ← matches_here ms s p ep;
          if m : bool then min_loop fuel ms (s + 1) p ep else LOk (None, ms)
      end
  end.
Definition min_expand (ms : MatchState) (s p ep : Z) : match_result :=
  min_loop (S (S (length (src ms)))) ms s p ep.

Definition start_capture (ms : MatchState) (s p what : Z) : match_result :=
  let l := level ms in
  if decide (LUA_MAXCAPTURES <= l)%nat then LError (lit "too many captures")
  else
    ms ← put_capture ms l (MkCapture s what);
    '(res, ms) ← rec (set_level (l + 1) ms) s p;
    LOk (res, match res with None => set_level (level ms - 1) ms | Some _ => ms end).

Definition end_capture (ms : MatchState) (s p : Z) : match_result :=
  l ← capture_to_close ms;
  c ← get_capture ms l;
  ms ← put_capture ms l (MkCapture (init c) (s - init c));
  '(res, ms) ← rec ms s p;
  match res with
  | Some e => LOk (Some e, ms)
  | None =>
      c ← get_capture ms l;
      ms ← put_capture ms l (MkCapture (init c) CAP_UNFINISHED);
      LOk (None, ms)
  end.

(** The label [dflt]: a single character class with what follows it. *)
Definition match_default (ms : MatchState) (s p : Z) : match_result :=
  ep ← classend p;
  m ← matches_here ms s p ep;
  q ← char_at pat ep;
  if decide (q = 63) then
    if m : bool then
      '(res, ms) ← rec ms (s + 1) (ep + 1);
      match res with
      | Some e => LOk (Some e, ms)
      | None => rec ms s (ep + 1)
      end
    else rec ms s (ep + 1)
  else if decide (q = 42) then max_expand ms s p ep
  else if decide (q = 43) then (if m : bool then max_expand ms (s + 1) p ep else LOk (None, ms))
  else if decide (q = 45) then min_expand ms s p ep
  else if m : bool then rec ms (s + 1) ep else LOk (None, ms).

(** [case L_ESC] *)
Definition match_escape (ms : MatchState) (s p : Z) : match_result :=
  d ← char_at pat (p + 1);
  if decide (d = 98) then
    r ← matchbalance ms s (p + 2);
    match r with
    | None => LOk (None, ms)
    | Some s => rec ms s (p + 4)
    end
  else if decide (d = 102) then
    let p := p + 2 in
    c ← char_at pat p;
    if decide (c <> 91) then LError (lit "missing '[' after '%f' in pattern")
    else
      ep ← classend p;
      f ← frontier ms s p ep;
      if f : bool then rec ms s ep else LOk (None, ms)
  else if isdigit d then
    r ← match_capture ms s d;
    match r with
    | None => LOk (None, ms)
    | Some s => rec ms s (p + 2)
    end
  else match_default ms s p.

Definition match_body (ms : MatchState) (s p : Z) : match_result :=
  c ← char_at pat p;
  if decide (c = 40) then
    d ← char_at pat (p + 1);
    if decide (d = 41) then start_capture ms s (p + 2) CAP_POSITION else start_capture ms s (p + 1) CAP_UNFINISHED
  else if decide (c = 41) then end_capture ms s (p + 1)
  else if decide (c = L_ESC) then match_escape ms s p
  else if decide (c = 0) then LOk (Some s, ms)
  else if decide (c = 36) then
    d ← char_at pat (p + 1);
    if decide (d = 0) then LOk (if decide (s = length (src ms)) then Some s else None, ms)
    else match_default ms s p
  else match_default ms s p.
End items.

(** match() *)
Fixpoint match_loop (fuel : nat) (ms : MatchState) (s p : Z) : match_result :=
  match fuel with
  | O => LFault OutOfFuel
  | S fuel => match_body (match_loop fuel) ms s p
  end.
Definition do_match (ms : MatchState) (s p : Z) : match_result := match_loop (S (length pat)) ms s p.
End pattern.

(** ** Captures as values *)

Inductive lua_val :=
| VString (s : list Z)
| VInteger (i : Z).

Definition push_onecapture (ms : MatchState) (i : nat) (s e : Z) : lres lua_val :=
  if decide (level ms <= i)%nat then
    if decide (i = 0%nat) then v ← lstring (src ms) s (e - s); LOk (VString v)
    else LError (lit "invalid capture index")
  else
    c ← get_capture ms i;
    if decide (len c = CAP_UNFINISHED) then LError (lit "unfinished capture")
    else if decide (len c = CAP_POSITION) then LOk (VInteger (init c + 1))
    else v ← lstring (src ms) (init c) (len c); LOk (VString v).

Fixpoint push_loop (ms : MatchState) (i n : nat) (s e : Z) : lres (list lua_val) :=
  match n with
  | O => LOk []
  | S n => v ← push_onecapture ms i s e; vs ← push_loop ms (S i) n s e; LOk (v :: vs)
  end.

(** The values pushed. [s] and [e] are [whole], None for the NULL that string.find passes; [used] slots of the stack are in use. (That the buffer of string.gsub takes a few
    slots more or less as it grows is not modelled.) *)
Definition push_captures (used : Z) (ms : MatchState) (whole : option (Z * Z)) : lres (list lua_val) :=
  let nlevels := if decide (level ms = 0%nat /\ whole <> None) then 1%nat else level ms in
  let '(s, e) := default (0, 0) whole in
  _ ← luaL_checkstack used nlevels "too many captures";
  push_loop ms 0 nlevels s e.

(** ** string.find and string.match *)

(** [strpbrk(p, SPECIALS) == NULL]: the search ends at the null of [p]. *)
Definition no_specials (p : list Z) : bool := bool_decide (Forall (fun c => c ∉ SPECIALS) (c_str p)).

(** The [do]-loop; [cs] is what the array of captures holds. *)
Fixpoint find_loop (fuel : nat) (used : Z) (find anchor : bool) (s p : list Z) (from : Z) (cs : list capture_t) (s1 : Z)
    : lres (list lua_val) :=
  match fuel with
  | O => LFault OutOfFuel
  | S fuel =>
      '(res, ms) ← do_match p (MkMatch s 0 cs) s1 from;
      match res with
      | Some res =>
          if find then
            vs ← push_captures (used + 2) ms None;
            LOk (VInteger (s1 + 1) :: VInteger res :: vs)
          else push_captures used ms (Some (s1, res))
      | None =>
          if decide (s1 < length s /\ anchor = false) then find_loop fuel used find anchor s p from (capture ms) (s1 + 1)
          else LOk []
      end
  end.

(** Where the search starts. *)
Definition find_init (i l1 : Z) : Z :=
  let init := posrelat i l1 - 1 in
  if decide (init < 0) then 0 else if decide (init > l1) then l1 else init.

(** The values pushed; the one nil of a search that fails is the empty list. [cs] are the captures as
    the declaration of [ms] leaves them. *)
Definition str_find_aux (used : Z) (cs : list capture_t) (find : bool) (s p : list Z) (i : Z) (plain : bool)
    : lres (list lua_val) :=
  let l1 := length s in
  let init := find_init i l1 in
  if find && (plain || no_specials p) then
    s2 ← lmemfind s init (l1 - init) p (length p);
    match s2 with
    | Some s2 => LOk [VInteger (s2 + 1); VInteger (s2 + length p)]
    | None => LOk []
    end
  else
    c ← char_at p 0;
    let anchor := bool_decide (c = 94) in
    find_loop (S (length s)) used find anchor s p (if anchor then 1 else 0) cs init.

Definition str_find (used : Z) (cs : list capture_t) := str_find_aux used cs true.
Definition str_match (used : Z) (cs : list capture_t) := str_find_aux used cs false.

(** ** string.gmatch *)

(** The third upvalue is the position where the next search starts. *)
Fixpoint gmatch_loop (fuel : nat) (used : Z) (s p : list Z) (cs : list capture_t) (src : Z) : lres (list lua_val * option Z) :=
  match fuel with
  | O => LFault OutOfFuel
  | S fuel =>
      if decide (src <= length s) then
        '(e, ms) ← do_match p (MkMatch s 0 cs) src 0;
        match e with
        | Some e =>
            let newstart := if decide (e = src) then e + 1 else e in
            vs ← push_captures used ms (Some (src, e));
            LOk (vs, Some newstart)
        | None => gmatch_loop fuel used s p (capture ms) (src + 1)
        end
      else LOk ([], None)
  end.

Definition gmatch_aux (used : Z) (cs : list capture_t) (s p : list Z) (start : Z) : lres (list lua_val * option Z) :=
  gmatch_loop (S (S (length s))) used s p cs start.

Definition gfind_nodef : lres (list lua_val) := LError (lit "'string.gfind' was renamed to 'string.gmatch'").

(** ** string.gsub *)

(** What a call or an access to a table leaves on the stack, as add_value() tells the cases apart. *)
Inductive repl_value :=
| RFalse
| RString (s : list Z)
| ROther (typename : cstring).

(** The third argument: a string or a number as its string, a function, a table. *)
Inductive repl :=
| ReplString (news : list Z)
| ReplFunction (f : list lua_val -> lres repl_value)
| ReplTable (get : lua_val -> lres repl_value).

(** luaL_addvalue() of a capture: LUA_NUMBER_FMT writes a position, below 10^14, as its digits. *)
Definition val_chars (v : lua_val) : list Z :=
  match v with
  | VString s => s
  | VInteger i => fmt_d i
  end.

Fixpoint add_s_loop (fuel : nat) (ms : MatchState) (news : list Z) (i : Z) (s e : Z) (b : list Z) : lres (list Z) :=
  match fuel with
  | O => LFault OutOfFuel
  | S fuel =>
      if decide (i < length news) then
        c ← char_at news i;
        if decide (c <> L_ESC) then add_s_loop fuel ms news (i + 1) s e (b ++ [c])
        else
          let i := i + 1 in
          d ← char_at news i;
          if negb (isdigit d) then add_s_loop fuel ms news (i + 1) s e (b ++ [d])
          else if decide (d = 48) then v ← lstring (src ms) s (e - s); add_s_loop fuel ms news (i + 1) s e (b ++ v)
          else
            v ← push_onecapture ms (Z.to_nat (d - 49)) s e;
            add_s_loop fuel ms news (i + 1) s e (b ++ val_chars v)
      else LOk b
  end.
Definition add_s (ms : MatchState) (news : list Z) (s e : Z) (b : list Z) : lres (list Z) :=
  add_s_loop (S (length news)) ms news 0 s e b.

(** The end of add_value(). *)
Definition add_result (ms : MatchState) (s e : Z) (b : list Z) (v : repl_value) : lres (list Z) :=
  match v with
  | RFalse => t ← lstring (src ms) s (e - s); LOk (b ++ t)
  | RString t => LOk (b ++ t)
  | ROther tn => LError (lit "invalid replacement value (a " ++ tn ++ lit ")")
  end.

Definition add_value (used : Z) (ms : MatchState) (r : repl) (s e : Z) (b : list Z) : lres (list Z) :=
  match r with
  | ReplString news => add_s ms news s e b
  | ReplFunction f => vs ← push_captures (used + 1) ms (Some (s, e)); v ← f vs; add_result ms s e b v
  | ReplTable get => k ← push_onecapture ms 0 s e; v ← get k; add_result ms s e b v
  end.

(** The [while]-loop; the position of [src], the number of substitutions and the buffer at the end. *)
Fixpoint gsub_loop (fuel : nat) (used : Z) (s p : list Z) (from : Z) (anchor : bool) (r : repl) (max_s : Z)
    (cs : list capture_t) (src n : Z) (b : list Z) : lres (Z * Z * list Z) :=
  match fuel with
  | O => LFault OutOfFuel
  | S fuel =>
      if decide (n < max_s) then
        '(e, ms) ← do_match p (MkMatch s 0 cs) src from;
        '(n, b) ← match e with
                  | Some e => b ← add_value used ms r src e b; LOk (n + 1, b)
                  | None => LOk (n, b)
                  end;
        let again src b :=
          if anchor then LOk (src, n, b) else gsub_loop fuel used s p from anchor r max_s (capture ms) src n b in
        if decide (default src e > src) then again (default src e) b
        else if decide (src < length s) then c ← char_at s src; again (src + 1) (b ++ [c])
        else LOk (src, n, b)
      else LOk (src, n, b)
  end.

(** The new string and the number of substitutions. *)
Definition str_gsub (used : Z) (cs : list capture_t) (s p : list Z) (r : repl) (max_s : option Z) : lres (list Z * Z) :=
  let max_s := default (to_int (length s + 1)) max_s in
  c ← char_at p 0;
  let anchor := bool_decide (c = 94) in
  '(src, n, b) ← gsub_loop (S (S (length s))) used s p (if anchor then 1 else 0) anchor r max_s cs 0 0 [];
  t ← lstring s src (length s - src);
  LOk (b ++ t, n).

(** ** Examples *)

Definition no_captures : list capture_t := replicate LUA_MAXCAPTURES (MkCapture 0 0).

Example find_example : str_find 0 no_captures (lit "key = value") (lit "(%w+)%s*=%s*(%w+)") 1 false =
  LOk [VInteger 1; VInteger 11; VString (lit "key"); VString (lit "value")].
Proof. reflexivity. Qed.
Example match_example : str_match 0 no_captures (lit "f(a(b)c)d") (lit "%b()()") 1 false = LOk [VInteger 9].
Proof. reflexivity. Qed.
Example gsub_example : str_gsub 0 no_captures (lit "hello world") (lit "(o)(.?)") (ReplString (lit "<%2%1>")) None =
  LOk (lit "hell< o>w<ro>ld", 2).
Proof. reflexivity. Qed.

(** ** Proofs: safety, progress and undoing *)

Lemma char_safe s i : 0 <= i <= length s -> lsafe (char_at s i) (fun c => c <> 0 -> i < length s).
Proof. intros Hi. destruct (char_at_ok s i Hi) as (c & -> & [Hc|[-> ->]]); simpl; [|done]. apply lookup_lt_Some in Hc. lia. Qed.

(** Read a character of a block at a position that is in bounds. *)
Ltac read_char c Hc := eapply lsafe_then; [apply char_safe; lia|]; intros c Hc; lazy beta.

Section safety.
Context (pat : list Z).

Lemma class_loop_safe (fuel : nat) p : 0 <= p <= length pat -> length pat - p < fuel ->
  lsafe (class_loop pat fuel p) (fun ep => p + 2 <= ep <= length pat).
Proof.
  revert p. induction fuel as [|fuel IH] => p Hp Hf; [lia|]. cbn [class_loop].
  read_char c Hc. destruct (decide (c = 0)) as [|Hc0]; [done|]. specialize (Hc Hc0). read_char d Hd. cbv zeta.
  set (p' := if decide _ then _ else _).
  assert (p + 1 <= p' <= length pat) by (rw /p'; case_decide; naive_solver lia).
  read_char e He. destruct (decide (e <> 93)) as [|He93].
  - eapply lsafe_mono; [|apply IH; lia]. intros ep Hep. simpl in Hep. lia.
  - simpl. destruct (decide (e = 0)) as [->|Hn]; [by destruct He93|]. specialize (He Hn). lia.
Qed.

Lemma classend_safe p c : 0 <= p -> char_at pat p = LOk c -> c <> 0 ->
  lsafe (classend pat p) (fun ep => p < ep <= length pat /\ (c = 91 -> p + 2 < ep)).
Proof.
  intros Hp Hc Hc0. assert (p < length pat).
  { rw /char_at in Hc. destruct (decide (0 <= p)); [|done]. destruct (pat !! Z.to_nat p) eqn:Hl.
    - apply lookup_lt_Some in Hl. lia.
    - by destruct (decide _); simplify_eq. }
  rw /classend Hc LOk_bind. cbv zeta. destruct (decide (c = L_ESC)) as [->|].
  { read_char d Hd. destruct (decide (d = 0)) as [|Hn]; [done|]. specialize (Hd Hn). simpl. split; [lia|done]. }
  destruct (decide (c = 91)) as [->|]; [|simpl; split; [lia|done]].
  read_char d Hd. set (p' := if decide _ then _ else _).
  assert (p + 1 <= p' <= length pat) by (rw /p'; case_decide; naive_solver lia).
  eapply lsafe_mono; [|apply class_loop_safe; lia]. intros ep Hep. simpl in Hep. lia.
Qed.

Lemma bracket_loop_safe (fuel : nat) c p ec sig : 0 <= p + 1 -> ec <= length pat -> Z.max 0 (ec - p - 1) < fuel ->
  lsafe (bracket_loop pat fuel c p ec sig) (fun _ => True).
Proof.
  revert p. induction fuel as [|fuel IH] => p Hp Hec Hf; cbn [bracket_loop]; cbv zeta.
  { lia. }
  destruct (decide (p + 1 < ec)); [|done]. read_char x Hx. destruct (decide (x = L_ESC)).
  { read_char cl Hcl. destruct (match_class c cl); [done|]. apply IH; lia. }
  read_char y Hy. destruct (decide (y = 45 /\ p + 1 + 2 < ec)).
  { read_char hi Hhi. destruct (decide (x <= c <= hi)); [done|]. apply IH; lia. }
  destruct (decide (x = c)); [done|]. apply IH; lia.
Qed.

Lemma matchbracketclass_safe c p ec : 0 <= p < ec -> ec <= length pat ->
  lsafe (matchbracketclass pat c p ec) (fun _ => True).
Proof.
  intros Hp Hec. rw /matchbracketclass. read_char d Hd. by destruct (decide (d = 94)); apply bracket_loop_safe; lia.
Qed.

(** A single character class at [p] that ends at [ep]. *)
Definition class_at (p ep : Z) : Prop :=
  0 <= p < ep /\ ep <= length pat /\ (char_at pat p = LOk 91 -> p + 2 < ep) /\ (char_at pat p <> LOk 0).

Lemma singlematch_safe c p ep : class_at p ep -> lsafe (singlematch pat c p ep) (fun _ => True).
Proof.
  intros (Hp & Hep & Hb & _). rw /singlematch. destruct (char_at_ok pat p) as (x & Hx & _); [lia|]. rw Hx LOk_bind.
  destruct (decide (x = 46)); [done|]. destruct (decide (x = L_ESC)); [read_char cl Hcl; done|].
  destruct (decide (x = 91)) as [->|]; [|done]. specialize (Hb Hx). apply matchbracketclass_safe; lia.
Qed.

Lemma matches_here_safe ms s p ep : 0 <= s -> class_at p ep ->
  lsafe (matches_here pat ms s p ep) (fun m => m = true -> s < length (src ms)).
Proof.
  intros Hs Hcl. rw /matches_here. destruct (decide (s < length (src ms))); [|done]. read_char c Hc.
  eapply lsafe_mono; [|by apply singlematch_safe]. done.
Qed.

Lemma balance_loop_safe (fuel : nat) ms s b e cont : 0 <= s <= length (src ms) -> length (src ms) - s < fuel ->
  lsafe (balance_loop fuel ms s b e cont) (fun r => forall s', r = Some s' -> s < s' <= length (src ms)).
Proof.
  revert s cont. induction fuel as [|fuel IH] => s cont Hs Hf; [lia|]. cbn [balance_loop]. cbv zeta.
  destruct (decide (s + 1 < length (src ms))); [|done]. read_char c Hc.
  assert (forall k, lsafe (balance_loop fuel ms (s + 1) b e k)
    (fun r => forall s', r = Some s' -> s < s' <= length (src ms))) as Hloop.
  { intros k. eapply lsafe_mono; [|apply IH; lia]. intros r Hr s' Hs'. specialize (Hr _ Hs'). lia. }
  destruct (decide (c = e)).
  - destruct (decide (cont - 1 = 0)); [|done]. simpl. intros s' [= <-]. lia.
  - by destruct (decide (c = b)).
Qed.

Lemma matchbalance_safe ms s p : 0 <= s <= length (src ms) -> 0 <= p <= length pat ->
  lsafe (matchbalance pat ms s p) (fun r => p + 2 <= length pat /\ forall s', r = Some s' -> s < s' <= length (src ms)).
Proof.
  intros Hs Hp. rw /matchbalance. read_char b Hb. destruct (decide (b = 0)) as [|Hb0]; [done|]. specialize (Hb Hb0).
  read_char e He. destruct (decide (e = 0)) as [|He0]; [done|]. specialize (He He0). read_char c Hc.
  destruct (decide (c <> b)); [simpl; split; [lia|done]|].
  eapply lsafe_mono; [|apply balance_loop_safe; lia]. intros r Hr. split; [lia|done].
Qed.
End safety.

(** A capture in use, when the match has come to position [s] of a subject of [n] characters. *)
Definition cap_ok (n s : Z) (c : capture_t) : Prop :=
  0 <= init c <= n /\
  (len c = CAP_UNFINISHED /\ init c <= s \/ len c = CAP_POSITION \/ 0 <= len c /\ init c + len c <= n).

Record ms_ok (s : Z) (ms : MatchState) : Prop := {
  ms_array : length (capture ms) = LUA_MAXCAPTURES;
  ms_level : (level ms <= LUA_MAXCAPTURES)%nat;
  ms_caps : Forall (cap_ok (length (src ms)) s) (take (level ms) (capture ms));
  ms_pos : 0 <= s <= length (src ms);
  ms_size : length (src ms) < size_max - 2
}.

(** The captures in use are the same; the rest of the array need not be. *)
Definition same (ms ms' : MatchState) : Prop :=
  src ms = src ms' /\ level ms = level ms' /\ length (capture ms) = length (capture ms') /\
  take (level ms) (capture ms) = take (level ms) (capture ms').

#[export] Instance same_equiv : Equivalence same.
Proof.
  split.
  - by intros ms.
  - intros ms ms' (? & Hl & ? & ?). by split_and!; rw -?Hl.
  - intros ms1 ms2 ms3 (Hs & Hl & Ha & Ht) (Hs' & Hl' & Ha' & Ht').
    rw /same Hs Ha Ht Hl. by split_and!.
Qed.

#[export] Instance ms_ok_same s : Proper (same ==> iff) (ms_ok s).
Proof.
  assert (forall ms ms', same ms ms' -> ms_ok s ms -> ms_ok s ms') as Himp.
  { intros ms ms' (Hs & Hl & Ha & Ht) [? ? ? ? ?]. split; rw -?Hs -?Hl -?Ha //. by rw -Ht. }
  intros ms ms' Hs. split; apply Himp; [done|by symmetry].
Qed.

(** What a call of match() from [s] leaves: a position further on and good captures, or, when it fails,
    the captures it was given. *)
Definition outcome (s : Z) (ms : MatchState) (r : option Z * MatchState) : Prop :=
  match r.1 with
  | Some e => s <= e /\ src r.2 = src ms /\ ms_ok e r.2
  | None => same ms r.2
  end.

Lemma ms_ok_later s s' ms : s <= s' <= length (src ms) -> ms_ok s ms -> ms_ok s' ms.
Proof.
  intros Hs [? ? Hc ? ?]. split; [done..| |lia|done]. eapply Forall_impl; [exact Hc|]. rw /cap_ok. intros c Hk. lia.
Qed.

Lemma ms_ok_get s ms l : ms_ok s ms -> (l < level ms)%nat ->
  exists c, get_capture ms l = LOk c /\ capture ms !! l = Some c /\ cap_ok (length (src ms)) s c.
Proof.
  intros Hok Hl. destruct (lookup_lt_is_Some_2 (capture ms) l) as [c Hc].
  { rw (ms_array _ _ Hok). pose proof (ms_level _ _ Hok). lia. }
  exists c. rw /get_capture Hc. split_and!; [done..|].
  eapply Forall_lookup_1; [apply (ms_caps _ _ Hok)|]. by rw lookup_take_lt.
Qed.

Lemma put_capture_ok s ms l c : ms_ok s ms -> (l < LUA_MAXCAPTURES)%nat ->
  put_capture ms l c = LOk (set_captures (<[l := c]> (capture ms)) ms).
Proof. intros Hok Hl. rw /put_capture (ms_array _ _ Hok). by destruct (decide _). Qed.

(** A capture in use that is replaced. *)
Lemma ms_ok_insert s ms l c : ms_ok s ms -> (l < level ms)%nat -> cap_ok (length (src ms)) s c ->
  ms_ok s (set_captures (<[l := c]> (capture ms)) ms).
Proof.
  intros [? ? Hc ? ?] Hl Hcok. split; simpl; rw ?length_insert //. rw take_insert_lt; [lia|]. by apply Forall_insert.
Qed.

(** A new capture. *)
Lemma ms_ok_push s ms c : ms_ok s ms -> (level ms < LUA_MAXCAPTURES)%nat -> cap_ok (length (src ms)) s c ->
  ms_ok s (set_level (level ms + 1) (set_captures (<[level ms := c]> (capture ms)) ms)).
Proof.
  intros [Ha ? Hc ? ?] Hl Hcok. split; simpl; rw ?length_insert //; [lia|].
  rw Nat.add_1_r (take_S_r _ _ c); [rw list_lookup_insert_eq //; lia|].
  rw take_insert_ge; [lia|]. apply Forall_app. split; [done|]. by apply Forall_singleton.
Qed.

Lemma check_capture_safe s ms l : ms_ok s ms -> lsafe (check_capture ms l) (fun l' => (l' < level ms)%nat /\
  exists c, capture ms !! l' = Some c /\ len c <> CAP_UNFINISHED /\ l' = Z.to_nat (l - 49)).
Proof.
  intros Hok. rw /check_capture. cbv zeta. destruct (decide _) as [|Hl]; [done|].
  destruct (ms_ok_get s ms (Z.to_nat (l - 49)) Hok) as (c & -> & Hc & _); [lia|]. rw LOk_bind.
  destruct (decide (len c = _)); [done|]. simpl. split; [lia|]. by exists c.
Qed.

Lemma to_close_safe s ms (l : nat) : ms_ok s ms -> (l <= level ms)%nat -> lsafe (to_close_loop ms l) (fun l' => (l' < l)%nat /\
  exists c, capture ms !! l' = Some c /\ len c = CAP_UNFINISHED).
Proof.
  intros Hok. induction l as [|l IH] => Hl; [done|]. simpl. destruct (ms_ok_get s ms l Hok) as (c & -> & Hc & _); [lia|].
  rw LOk_bind. destruct (decide (len c = _)); [simpl; split; [lia|by exists c]|].
  eapply lsafe_mono; [|apply IH; lia]. intros l' [? ?]. split; [lia|done].
Qed.

Lemma lstring_ok s i n : 0 <= i -> 0 <= n -> i + n <= length s ->
  lstring s i n = LOk (take (Z.to_nat n) (drop (Z.to_nat i) s)).
Proof. intros ? ? ?. rw /lstring. by destruct (decide _) as [|[]]. Qed.

Lemma match_capture_safe s ms l : ms_ok s ms ->
  lsafe (match_capture ms s l) (fun r => forall s', r = Some s' -> s <= s' <= length (src ms)).
Proof.
  intros Hok. pose proof (ms_pos _ _ Hok). pose proof (ms_size _ _ Hok). rw /match_capture.
  eapply lsafe_then; [by apply (check_capture_safe s)|]. intros l' (Hl & _ & _ & _ & ->).
  destruct (ms_ok_get s ms _ Hok Hl) as (c & -> & _ & Hi & Hk). rw LOk_bind. cbv zeta.
  destruct (decide (_ >= sz (len c))) as [Hge|]; [|done].
  assert (0 <= sz (len c) /\ init c + sz (len c) <= length (src ms)).
  { pose proof (Z.mod_pos_bound (len c) size_max). destruct Hk as [[Hk _]|[Hk|Hk]].
    - rw Hk in Hge. change (sz CAP_UNFINISHED) with (size_max - 1) in Hge. lia.
    - rw Hk in Hge. change (sz CAP_POSITION) with (size_max - 2) in Hge. lia.
    - rw sz_small; lia. }
  rw /memeq !lstring_ok; try lia. simpl. intros s'. case_bool_decide; [|done]. intros [= <-]. lia.
Qed.

Lemma outcome_later s s' ms r : s <= s' -> outcome s' ms r -> outcome s ms r.
Proof. rw /outcome. destruct r as [[e|] ms']; simpl; [|done]. intros ? (? & ?). split; [lia|done]. Qed.

(** The second attempt after a first that failed. *)
Lemma outcome_same s ms ms' r : same ms ms' -> outcome s ms' r -> outcome s ms r.
Proof.
  intros Hsame. rw /outcome. destruct r as [[e|] ms2]; simpl.
  - destruct Hsame as (-> & _). done.
  - intros Hs. by etrans.
Qed.

Section body_safety.
Context (pat : list Z) (rec : MatchState -> Z -> Z -> lres (option Z * MatchState)) (q : Z).
Context (Hrec : forall ms s p, q < p <= length pat -> ms_ok s ms -> lsafe (rec ms s p) (outcome s ms)).
Context (Hq : 0 <= q).

Lemma expand_count_safe (fuel : nat) ms s p ep i : 0 <= s -> 0 <= i -> s + i <= length (src ms) ->
  length (src ms) - (s + i) < fuel -> class_at pat p ep ->
  lsafe (expand_count pat fuel ms s p ep i) (fun n => 0 <= n /\ s + n <= length (src ms)).
Proof.
  revert i. induction fuel as [|fuel IH] => i Hs Hi Hle Hf Hcl; [lia|]. cbn [expand_count].
  eapply lsafe_then; [by apply matches_here_safe; [lia|]|]. intros m Hm. lazy beta.
  destruct m; [|simpl; lia]. specialize (Hm eq_refl). apply IH; [lia..|done].
Qed.

Lemma expand_try_safe (fuel : nat) ms s ep i : ms_ok s ms -> q < ep + 1 <= length pat -> s + i <= length (src ms) ->
  Z.max 0 (i + 1) < fuel -> lsafe (expand_try rec fuel ms s ep i) (outcome s ms).
Proof.
  revert ms i. induction fuel as [|fuel IH] => ms i Hok Hep Hi Hf; [lia|]. cbn [expand_try].
  destruct (decide (i >= 0)); [|simpl; by rw /outcome].
  eapply lsafe_then; [apply Hrec; [done|eapply ms_ok_later; [|exact Hok]; lia]|]. intros [[e|] ms'] Ho; lazy beta iota.
  - by apply (outcome_later s (s + i)); [lia|].
  - change (same ms ms') in Ho. eapply lsafe_mono; [intros r; by apply outcome_same|].
    pose proof Ho as (Hsrc & _). apply IH; [by rw -Ho|lia|rw -Hsrc; lia|lia].
Qed.

Lemma max_expand_safe ms s p ep : ms_ok s ms -> class_at pat p ep -> q < ep + 1 <= length pat ->
  lsafe (max_expand pat rec ms s p ep) (outcome s ms).
Proof.
  intros Hok Hcl Hep. pose proof (ms_pos _ _ Hok). rw /max_expand.
  eapply lsafe_then; [apply expand_count_safe; [lia..|done]|]. intros i [? ?]. lazy beta. apply expand_try_safe; [done|lia..].
Qed.

Lemma min_loop_safe (fuel : nat) ms s p ep : ms_ok s ms -> class_at pat p ep -> q < ep + 1 <= length pat ->
  length (src ms) - s < fuel -> lsafe (min_loop pat rec fuel ms s p ep) (outcome s ms).
Proof.
  revert ms s. induction fuel as [|fuel IH] => ms s Hok Hcl Hep Hf; pose proof (ms_pos _ _ Hok); [lia|]. cbn [min_loop].
  eapply lsafe_then; [by apply Hrec|]. intros [[e|] ms'] Ho; lazy beta iota; [exact Ho|].
  change (same ms ms') in Ho. pose proof Ho as (Hsrc & _). eapply lsafe_then; [by apply matches_here_safe; [lia|]|].
  intros m Hm. lazy beta. destruct m; [|exact Ho]. specialize (Hm eq_refl).
  eapply lsafe_mono; [intros r; apply outcome_same, Ho|].
  eapply lsafe_mono; [intros r; apply (outcome_later s (s + 1)); lia|].
  apply IH; [|done..|rw -Hsrc; lia]. rw -Ho. eapply ms_ok_later; [|exact Hok]. rw Hsrc. lia.
Qed.

Lemma start_capture_safe ms s p what : ms_ok s ms -> q < p <= length pat -> what = CAP_UNFINISHED \/ what = CAP_POSITION ->
  lsafe (start_capture rec ms s p what) (outcome s ms).
Proof.
  intros Hok Hp Hw. rw /start_capture. destruct (decide _) as [|Hl]; [done|].
  rw (put_capture_ok s); [done|lia|]. rw LOk_bind. eapply lsafe_then.
  { apply Hrec; [done|]. apply ms_ok_push; [done|lia|]. pose proof (ms_pos _ _ Hok). rw /cap_ok /=. naive_solver lia. }
  intros [[e|] ms'] Ho; lazy beta iota; [done|]. destruct Ho as (Hsrc & Hlev & Hlen & Ht). simpl in *.
  rw /outcome /same /=. rw length_insert in Hlen. split_and!; [done|lia|done|].
  apply (f_equal (take (level ms))) in Ht. rw !take_take Nat.min_l in Ht; [lia|]. by rw take_insert_ge in Ht.
Qed.

Lemma end_capture_safe ms s p : ms_ok s ms -> q < p <= length pat -> lsafe (end_capture rec ms s p) (outcome s ms).
Proof.
  intros Hok Hp. rw /end_capture /capture_to_close.
  eapply lsafe_then; [by apply (to_close_safe s)|]. intros l (Hl & c & Hc & Hlen). lazy beta.
  destruct (ms_ok_get s ms l Hok Hl) as (c' & -> & Hc' & Hcok). simplify_eq. rw LOk_bind.
  pose proof (ms_level _ _ Hok). pose proof (ms_pos _ _ Hok). rw (put_capture_ok s); [done|lia|]. rw LOk_bind.
  assert (cap_ok (length (src ms)) s (MkCapture (init c) (s - init c))).
  { rw /cap_ok /=. rw /cap_ok Hlen /CAP_POSITION /CAP_UNFINISHED in Hcok. lia. }
  eapply lsafe_then; [apply Hrec; [done|by apply ms_ok_insert]|].
  intros [[e|] ms'] Ho; lazy beta iota; [done|]. change (same (set_captures (<[l := MkCapture (init c) (s - init c)]> (capture ms)) ms) ms') in Ho.
  assert (ms_ok s ms') as Hok' by (rw -Ho; by apply ms_ok_insert).
  destruct Ho as (Hsrc & Hlev & Hle & Ht). simpl in *. destruct (ms_ok_get s ms' l Hok') as (c2 & -> & Hc2 & _); [lia|].
  rw LOk_bind (put_capture_ok s); [done|lia|]. rw LOk_bind. rw /outcome /same /=. rw !length_insert in Hle *.
  split_and!; [done..|].
  assert (c2 = MkCapture (init c) (s - init c)) as ->.
  { apply (f_equal (lookup l)) in Ht. rw !lookup_take_lt in Ht; [lia..|]. rw list_lookup_insert_eq in Ht; [|congruence].
    rw (ms_array _ _ Hok). lia. }
  rw take_insert_lt; [lia|]. rw -Ht take_insert_lt; [lia|]. rw list_insert_insert_eq /=. rw list_insert_id //.
  rw lookup_take_lt; [lia|]. rw Hc. destruct c; simpl in *. by subst.
Qed.

Lemma match_default_safe ms s c : ms_ok s ms -> char_at pat q = LOk c -> c <> 0 ->
  lsafe (match_default pat rec ms s q) (outcome s ms).
Proof.
  intros Hok Hc Hc0. pose proof (ms_pos _ _ Hok). rw /match_default.
  eapply lsafe_then; [by apply (classend_safe pat q c)|]. intros ep [Hep Hb]. lazy beta.
  assert (class_at pat q ep) as Hcl by (rw /class_at Hc; split_and!; naive_solver lia).
  eapply lsafe_then; [by apply matches_here_safe; [lia|]|]. intros m Hm. lazy beta.
  assert (m = true -> ms_ok (s + 1) ms) as Hnext.
  { intros ->. specialize (Hm eq_refl). eapply ms_ok_later; [|exact Hok]. lia. }
  read_char x Hx. destruct (decide (x = 63)) as [->|].
  { specialize (Hx ltac:(done)). destruct m; [|by apply Hrec; [lia|]].
    eapply lsafe_then; [apply Hrec; [lia|by apply Hnext]|].
    intros [[e|] ms'] Ho; lazy beta iota; [by apply (outcome_later s (s + 1)); [lia|]|]. change (same ms ms') in Ho.
    eapply lsafe_mono; [intros r; by apply outcome_same|]. apply Hrec; [lia|by rw -Ho]. }
  destruct (decide (x = 42)) as [->|]; [specialize (Hx ltac:(done)); by apply max_expand_safe; [..|lia]|].
  destruct (decide (x = 43)) as [->|].
  { specialize (Hx ltac:(done)). destruct m; [|by rw /= /outcome].
    eapply lsafe_mono; [intros r; apply (outcome_later s (s + 1)); lia|]. apply max_expand_safe; [by apply Hnext|done|lia]. }
  destruct (decide (x = 45)) as [->|]; [specialize (Hx ltac:(done)); apply min_loop_safe; [done..|lia|lia]|].
  destruct m; [|by rw /= /outcome]. eapply lsafe_mono; [intros r; apply (outcome_later s (s + 1)); lia|].
  apply Hrec; [lia|by apply Hnext].
Qed.

Lemma frontier_safe ms s p ep : ms_ok s ms -> 0 <= p < ep - 1 -> ep <= length pat ->
  lsafe (frontier pat ms s p ep) (fun _ => True).
Proof.
  intros Hok Hp Hep. pose proof (ms_pos _ _ Hok). rw /frontier. apply (lsafe_then _ _ (fun _ => True)).
  { destruct (decide (s = 0)); [done|]. eapply lsafe_mono; [|apply char_safe; lia]. done. }
  intros previous _. eapply lsafe_then; [apply matchbracketclass_safe; lia|]. intros before _. lazy beta.
  destruct before; [done|]. read_char c Hc. apply matchbracketclass_safe; lia.
Qed.

(** The rest of the pattern after an item that moves from [s] to the position [r]. *)
Lemma continue_safe ms s p (r : option Z) : ms_ok s ms -> q < p <= length pat ->
  (forall s', r = Some s' -> s <= s' <= length (src ms)) ->
  lsafe (match r with None => LOk (None, ms) | Some s => rec ms s p end) (outcome s ms).
Proof.
  intros Hok Hp Hr. destruct r as [s'|]; [|by rw /= /outcome]. specialize (Hr s' eq_refl).
  eapply lsafe_mono; [intros r; apply (outcome_later s s'); lia|]. apply Hrec; [done|]. by eapply ms_ok_later.
Qed.

Lemma match_escape_safe ms s : ms_ok s ms -> char_at pat q = LOk L_ESC -> q < length pat ->
  lsafe (match_escape pat rec ms s q) (outcome s ms).
Proof.
  intros Hok Hc Hlt. pose proof (ms_pos _ _ Hok). rw /match_escape. read_char d Hd. destruct (decide (d = 98)) as [->|].
  { specialize (Hd ltac:(done)). eapply lsafe_then; [apply matchbalance_safe; lia|]. intros r [? Hr]. lazy beta.
    apply continue_safe; [done|lia|]. intros s' Hs. specialize (Hr s' Hs). lia. }
  destruct (decide (d = 102)) as [->|].
  { specialize (Hd ltac:(done)). cbv zeta. destruct (char_at_ok pat (q + 2)) as (c & Hc2 & _); [lia|]. rw Hc2 LOk_bind.
    destruct (decide (c <> 91)) as [|Hc91]; [done|]. assert (c = 91) as -> by lia.
    eapply lsafe_then; [apply (classend_safe pat (q + 2) 91); [lia|done..]|]. intros ep [? Hep]. specialize (Hep eq_refl). lazy beta.
    eapply lsafe_then; [apply frontier_safe; [done|lia..]|]. intros f _. destruct f; [|by rw /= /outcome]. apply Hrec; [lia|done]. }
  destruct (isdigit d) eqn:Hdig; [|by apply (match_default_safe _ _ L_ESC)].
  assert (d <> 0) as Hd0. { intros ->. done. }
  specialize (Hd Hd0). eapply lsafe_then; [by apply (match_capture_safe s)|]. intros r Hr. lazy beta. by apply continue_safe; [|lia|].
Qed.

Lemma match_body_safe ms s : ms_ok s ms -> q <= length pat -> lsafe (match_body pat rec ms s q) (outcome s ms).
Proof.
  intros Hok Hle. pose proof (ms_pos _ _ Hok). rw /match_body.
  destruct (char_at_ok pat q) as (c & Hc & Hcase); [lia|]. rw Hc LOk_bind.
  assert (c <> 0 -> q < length pat) as Hlt.
  { destruct Hcase as [Hl|[-> ->]]; [|done]. apply lookup_lt_Some in Hl. lia. }
  destruct (decide (c = 40)) as [->|].
  { specialize (Hlt ltac:(done)). read_char d Hd. destruct (decide (d = 41)) as [->|].
    - specialize (Hd ltac:(done)). apply start_capture_safe; [done|lia|by right].
    - apply start_capture_safe; [done|lia|by left]. }
  destruct (decide (c = 41)) as [->|]; [specialize (Hlt ltac:(done)); by apply end_capture_safe; [|lia]|].
  destruct (decide (c = L_ESC)) as [->|]; [by apply match_escape_safe; [..|apply Hlt]|].
  destruct (decide (c = 0)) as [->|]; [simpl; rw /outcome /=; split_and!; [lia|done..]|].
  destruct (decide (c = 36)) as [->|]; [|by apply (match_default_safe _ _ c)].
  specialize (Hlt ltac:(done)). read_char d Hd. destruct (decide (d = 0)); [|by apply (match_default_safe _ _ 36)].
  simpl. destruct (decide _); rw /outcome /=; [split_and!; [lia|done..]|done].
Qed.
End body_safety.

Lemma match_loop_safe pat (fuel : nat) ms s p : ms_ok s ms -> 0 <= p <= length pat -> length pat - p < fuel ->
  lsafe (match_loop pat fuel ms s p) (outcome s ms).
Proof.
  revert ms s p. induction fuel as [|fuel IH] => ms s p Hok Hp Hf; [lia|]. simpl.
  apply match_body_safe; [|lia|done|lia]. intros ms' s' p' Hp' Hok'. apply IH; [done|lia..].
Qed.

Lemma do_match_safe pat ms s p : ms_ok s ms -> 0 <= p <= length pat -> lsafe (do_match pat ms s p) (outcome s ms).
Proof. intros Hok Hp. apply match_loop_safe; [done..|lia]. Qed.

(** ** Proofs: the library functions *)

Lemma start_ok s cs s1 : length cs = LUA_MAXCAPTURES -> 0 <= s1 <= length s -> length s < size_max - 2 ->
  ms_ok s1 (MkMatch s 0 cs).
Proof. intros ? ? ?. split; simpl; [done|lia|by rw take_0|done..]. Qed.

Lemma push_onecapture_safe e0 ms i s e : ms_ok e0 ms -> 0 <= s <= e -> e <= length (src ms) ->
  lsafe (push_onecapture ms i s e) (fun _ => True).
Proof.
  intros Hok Hs He. rw /push_onecapture. destruct (decide (level ms <= i)%nat).
  { destruct (decide (i = 0%nat)); [|done]. rw lstring_ok; [lia..|done]. }
  destruct (ms_ok_get e0 ms i Hok) as (c & -> & _ & Hi & Hk); [lia|]. rw LOk_bind.
  destruct (decide (len c = CAP_UNFINISHED)); [done|]. destruct (decide (len c = CAP_POSITION)); [done|].
  rw lstring_ok; [naive_solver lia..|done].
Qed.

Lemma push_captures_safe e0 used ms whole : ms_ok e0 ms ->
  (forall s e, whole = Some (s, e) -> 0 <= s <= e /\ e <= length (src ms)) ->
  lsafe (push_captures used ms whole)
    (fun vs => length vs = if decide (level ms = 0%nat /\ whole <> None) then 1%nat else level ms).
Proof.
  intros Hok Hw. rw /push_captures. set (k := if decide _ then _ else _). destruct (default (0, 0) whole) as [s e] eqn:Hd.
  assert (0 <= s <= e /\ e <= length (src ms)) as [Hs He].
  { destruct whole as [[s' e']|]; simpl in Hd; simplify_eq; [by apply Hw|lia]. }
  eapply (lsafe_then _ _ (fun _ => True)); [rw /luaL_checkstack; by destruct (negb _)|]. intros _ _. lazy beta.
  clearbody k. generalize 0%nat. induction k as [|k IH] => i; [done|]. cbn [push_loop].
  eapply lsafe_then; [by apply (push_onecapture_safe e0)|]. intros v _. eapply lsafe_then; [by apply IH|]. by intros vs <-.
Qed.

Section library.
Context (used : Z) (s p : list Z) (from : Z) (Hs : length s < size_max - 2) (Hfrom : 0 <= from <= length p).

Lemma find_loop_safe (fuel : nat) find anchor cs s1 : length cs = LUA_MAXCAPTURES -> 0 <= s1 <= length s -> length s - s1 < fuel ->
  lsafe (find_loop fuel used find anchor s p from cs s1) (fun _ => True).
Proof.
  revert cs s1. induction fuel as [|fuel IH] => cs s1 Hcs Hs1 Hf; [lia|]. cbn [find_loop].
  eapply lsafe_then; [apply (do_match_safe p _ s1 from); [by apply start_ok|done]|].
  intros [[e|] ms] Ho; lazy beta iota.
  - destruct Ho as (He & Hsrc & Hok). pose proof (ms_pos _ _ Hok) as Hpos. simpl in *. destruct find.
    + by eapply lsafe_then; [by apply (push_captures_safe e)|].
    + eapply lsafe_mono; [|apply (push_captures_safe e); [done|]]; [done|]. intros ? ? [= <- <-]. lia.
  - destruct Ho as (_ & _ & Hl & _). simpl in Hl. destruct (decide _) as [[? ?]|]; [|done]. apply IH; [congruence|lia..].
Qed.

Lemma gmatch_loop_safe (fuel : nat) cs start : from = 0 -> length cs = LUA_MAXCAPTURES -> 0 <= start -> Z.max 0 (length s - start + 1) < fuel ->
  lsafe (gmatch_loop fuel used s p cs start) (fun r => forall k, r.2 = Some k -> start < k <= length s + 1).
Proof.
  intros ->. revert cs start. induction fuel as [|fuel IH] => cs start Hcs Hst Hf; [lia|]. cbn [gmatch_loop].
  destruct (decide (start <= length s)); [|done].
  eapply lsafe_then; [apply (do_match_safe p _ start 0); [apply start_ok; [done|lia|done]|done]|].
  intros [[e|] ms] Ho; lazy beta iota.
  - destruct Ho as (He & Hsrc & Hok). pose proof (ms_pos _ _ Hok) as Hpos. simpl in *. rw Hsrc in Hpos.
    eapply lsafe_then; [apply (push_captures_safe e); [done|intros ? ? [= <- <-]; rw Hsrc /=; lia]|].
    intros vs _. simpl. intros k [= <-]. case_decide; lia.
  - destruct Ho as (_ & _ & Hl & _). simpl in Hl. eapply lsafe_mono; [|apply IH; [congruence|lia..]].
    intros [vs k] Hk k' Hk'. specialize (Hk k' Hk'). lia.
Qed.

(** A replacement whose function or table, if it has one, is safe. *)
Definition repl_safe (r : repl) : Prop :=
  match r with
  | ReplString _ => True
  | ReplFunction f => forall vs, lsafe (f vs) (fun _ => True)
  | ReplTable get => forall v, lsafe (get v) (fun _ => True)
  end.

Lemma add_s_loop_safe (fuel : nat) ms news i s0 e b : ms_ok e ms -> 0 <= s0 <= e -> 0 <= i -> Z.max 0 (length news - i) < fuel ->
  lsafe (add_s_loop fuel ms news i s0 e b) (fun _ => True).
Proof.
  intros Hok Hs0. pose proof (ms_pos _ _ Hok). revert i b. induction fuel as [|fuel IH] => i b Hi Hf; [lia|]. cbn [add_s_loop].
  destruct (decide (i < length news)); [|done]. read_char c Hc. destruct (decide (c <> L_ESC)); [apply IH; lia|].
  cbv zeta. read_char d Hd. destruct (negb (isdigit d)); [apply IH; lia|]. destruct (decide (d = 48)).
  - rw lstring_ok; [lia..|]. apply IH; lia.
  - eapply lsafe_then; [apply (push_onecapture_safe e); [done|lia..]|]. intros v _. apply IH; lia.
Qed.

Lemma add_result_safe ms s0 e b v : ms_ok e ms -> 0 <= s0 <= e -> lsafe (add_result ms s0 e b v) (fun _ => True).
Proof. intros Hok Hs0. pose proof (ms_pos _ _ Hok). destruct v; simpl; try done. rw lstring_ok; [lia..|done]. Qed.

Lemma add_value_safe ms r s0 e b : repl_safe r -> ms_ok e ms -> 0 <= s0 <= e -> lsafe (add_value used ms r s0 e b) (fun _ => True).
Proof.
  intros Hr Hok Hs0. pose proof (ms_pos _ _ Hok). destruct r as [news|f|get]; simpl in *.
  - apply add_s_loop_safe; [done..|lia].
  - eapply lsafe_then; [apply (push_captures_safe e); [done|intros ? ? [= <- <-]; lia]|]. intros vs _.
    eapply lsafe_then; [apply Hr|]. intros v _. by apply add_result_safe.
  - eapply lsafe_then; [apply (push_onecapture_safe e); [done|lia..]|]. intros k _.
    eapply lsafe_then; [apply Hr|]. intros v _. by apply add_result_safe.
Qed.

(** What gsub_loop() leaves behind when it enters with [n] substitutions at [start]. *)
Definition gsub_post (start n max_s : Z) (r : Z * Z * list Z) : Prop :=
  start <= r.1.1 <= length s /\ n <= r.1.2 <= Z.max n (Z.min max_s (n + 1 + (r.1.1 - start))).

Lemma gsub_loop_safe (fuel : nat) anchor r max_s cs start n b : repl_safe r -> length cs = LUA_MAXCAPTURES ->
  0 <= start <= length s -> length s - start + 1 < fuel ->
  lsafe (gsub_loop fuel used s p from anchor r max_s cs start n b) (gsub_post start n max_s).
Proof.
  intros Hr. revert cs start n b. induction fuel as [|fuel IH] => cs start n b Hcs Hst Hf; [lia|]. cbn [gsub_loop].
  destruct (decide (n < max_s)) as [Hn|Hn]; [|rw /= /gsub_post /=; lia].
  eapply lsafe_then; [apply (do_match_safe p _ start from); [by apply start_ok|done]|]. intros [e ms] Ho; lazy beta iota.
  assert (length (capture ms) = LUA_MAXCAPTURES /\ start <= default start e <= length s) as [Hcap He].
  { rw /outcome /= in Ho. destruct e as [e|]; simpl.
    - destruct Ho as (? & Hsrc & Hok). pose proof (ms_pos _ _ Hok) as Hp. rw Hsrc in Hp. simpl in Hp.
      split; [by apply (ms_array _ _ Hok)|lia].
    - destruct Ho as (_ & _ & Hl & _). simpl in Hl. split; [congruence|lia]. }
  eapply (lsafe_then _ _ (fun nb => n <= nb.1 <= n + 1)).
  { destruct e as [e|]; [|simpl; lia]. destruct Ho as (? & _ & Hok).
    eapply lsafe_then; [by apply add_value_safe; [| |lia]|]. intros b' _. simpl. lia. }
  intros [n' b'] Hn'. simpl in Hn'. cbv beta iota zeta.
  assert (forall k b2, start < k <= length s -> lsafe
    (if anchor then LOk (k, n', b2) else gsub_loop fuel used s p from anchor r max_s (capture ms) k n' b2) (gsub_post start n max_s)) as Hagain.
  { intros k b2 Hk. destruct anchor; [rw /= /gsub_post /=; lia|].
    eapply lsafe_mono; [|apply IH; [done|lia..]]. intros [[k' n2] b3]. rw /gsub_post /=. lia. }
  destruct (decide (default start e > start)); [apply Hagain; lia|].
  destruct (decide (start < length s)); [|rw /= /gsub_post /=; lia]. read_char c Hc. apply Hagain. lia.
Qed.
End library.

Lemma find_init_range i l : 0 <= l -> 0 <= find_init i l <= l.
Proof. intros Hl. rw /find_init. cbv zeta. repeat case_decide; lia. Qed.

Lemma str_find_safe used cs find s p i plain : length cs = LUA_MAXCAPTURES -> length s < size_max - 2 ->
  lsafe (str_find_aux used cs find s p i plain) (fun _ => True).
Proof.
  intros Hcs Hs. rw /str_find_aux. cbv zeta. pose proof (find_init_range i (length s) ltac:(lia)) as Hi.
  set (i0 := find_init _ _) in *. clearbody i0.
  destruct (find && _).
  - destruct (lmemfind_ok s p i0) as (r & -> & _); [done|]. by destruct r.
  - read_char c Hc. apply find_loop_safe; [done| |done|done|lia]. case_bool_decide; simplify_eq; [|lia]. specialize (Hc ltac:(done)). lia.
Qed.

Lemma str_gsub_safe used cs s p r max_s : length cs = LUA_MAXCAPTURES -> length s < size_max - 2 -> repl_safe r ->
  lsafe (str_gsub used cs s p r max_s)
    (fun tn => 0 <= tn.2 <= Z.max 0 (Z.min (length s + 1) (default (to_int (length s + 1)) max_s))).
Proof.
  intros Hcs Hs Hr. rw /str_gsub. cbv zeta. read_char c Hc. eapply lsafe_then.
  { apply gsub_loop_safe; [done| |done|done|lia|lia]. case_bool_decide; simplify_eq; [|lia]. specialize (Hc ltac:(done)). lia. }
  intros [[k n] b] [? ?]. simpl in *. rw lstring_ok; [lia..|]. rw LOk_bind. simpl. lia.
Qed.

(** C24: match() is total and leaves good captures. From captures in good order, at any positions of
    the subject and of any pattern, well-formed or not, it ends (the fuel is enough), reads no
    character outside the strings and no capture that has not been set, and either raises an error, or
    succeeds at a position not before the one it started from with captures that lie in the subject, or
    fails and has undone whatever it did to the captures in use. *)
Theorem match_total (pat : list Z) (ms : MatchState) (s p : Z) :
  ms_ok s ms -> 0 <= p <= length pat ->
  (exists msg, do_match pat ms s p = LError msg) \/
  (exists e ms', do_match pat ms s p = LOk (Some e, ms') /\ s <= e <= length (src ms) /\ src ms' = src ms /\ ms_ok e ms') \/
  (exists ms', do_match pat ms s p = LOk (None, ms') /\ same ms ms').
Proof.
  intros Hok Hp. pose proof (do_match_safe pat ms s p Hok Hp) as Hs.
  destruct (do_match pat ms s p) as [[[e|] ms']|msg|f]; simpl in Hs; [| |left; by exists msg|done].
  - right; left. exists e, ms'. destruct Hs as (? & Hsrc & Hok'). pose proof (ms_pos _ _ Hok') as Hpos. rw Hsrc /= in Hpos.
    split_and!; [done|done|lia|done..].
  - right; right. by exists ms'.
Qed.

Lemma match_total_witness :
  let pat := lit "(%a+)=(%1)" in
  let ms := MkMatch (lit "ab=ab") 0 no_captures in
  (exists msg, do_match pat ms 0 0 = LError msg) \/
  (exists e ms', do_match pat ms 0 0 = LOk (Some e, ms') /\ 0 <= e <= length (src ms) /\ src ms' = src ms /\ ms_ok e ms') \/
  (exists ms', do_match pat ms 0 0 = LOk (None, ms') /\ same ms ms').
Proof.
  apply (match_total (lit "(%a+)=(%1)") (MkMatch (lit "ab=ab") 0 no_captures) 0 0).
  - apply start_ok; [reflexivity|split; vm_compute; discriminate|reflexivity].
  - split; vm_compute; discriminate.
Defined.

(** C25: the functions of the library on patterns are safe for all arguments: string.find and
    string.match end without undefined behaviour; so does an iteration of string.gmatch, and the position
    that it keeps for the next one is behind the one it started from and at most one behind the end of
    the string, so that the iterations end; string.gsub makes at most one substitution more than the
    string has characters, and not more than it is allowed to. *)
Theorem string_patterns_safe (used : Z) (cs : list capture_t) (s p : list Z) (find plain : bool) (i start : Z) (r : repl)
    (max_s : option Z) :
  length cs = LUA_MAXCAPTURES -> length s < size_max - 2 -> 0 <= start -> repl_safe r ->
  lsafe (str_find_aux used cs find s p i plain) (fun _ => True) /\
  lsafe (gmatch_aux used cs s p start) (fun r => forall k, r.2 = Some k -> start < k <= length s + 1) /\
  lsafe (str_gsub used cs s p r max_s)
    (fun r => 0 <= r.2 <= Z.max 0 (Z.min (length s + 1) (default (to_int (length s + 1)) max_s))).
Proof.
  intros Hcs Hs Hst Hr. split_and!; [by apply str_find_safe| |by apply str_gsub_safe].
  by apply (gmatch_loop_safe used s p 0 Hs); lia.
Qed.

Lemma string_patterns_safe_witness :
  let s := lit "one two" in let p := lit "(%w)(%w*)" in let r := ReplString (lit "%2%1") in
  lsafe (str_find_aux 3 no_captures false s p 1 false) (fun _ => True) /\
  lsafe (gmatch_aux 3 no_captures s p 4) (fun r => forall k, r.2 = Some k -> 4 < k <= length s + 1) /\
  lsafe (str_gsub 3 no_captures s p r None)
    (fun r => 0 <= r.2 <= Z.max 0 (Z.min (length s + 1) (default (to_int (length s + 1)) None))).
Proof.
  apply (string_patterns_safe 3 no_captures (lit "one two") (lit "(%w)(%w*)") false false 1 4 (ReplString (lit "%2%1")) None).
  - reflexivity.
  - reflexivity.
  - discriminate.
  - exact I.
Defined.

(** ** Proofs: substitutions that put the match back *)

(** The replacement string "%0", a function that returns nil or false, a table without the keys. *)
Definition keeps_match (r : repl) : Prop :=
  match r with
  | ReplString news => news = lit "%0"
  | ReplFunction f => forall vs, f vs = LOk RFalse
  | ReplTable get => forall v, get v = LOk RFalse
  end.

Lemma take_seg s a b : 0 <= a -> a <= b -> take (Z.to_nat a) s ++ seg s a b = take (Z.to_nat b) s.
Proof. intros ? ?. rw /seg. replace (Z.to_nat b) with (Z.to_nat a + Z.to_nat (b - a))%nat by lia. by rw take_take_drop. Qed.

Lemma add_value_keeps used ms r s0 e b : keeps_match r -> ms_ok e ms -> 0 <= s0 <= e ->
  lsafe (add_value used ms r s0 e b) (fun b' => b' = b ++ seg (src ms) s0 e).
Proof.
  intros Hr Hok Hs0. pose proof (ms_pos _ _ Hok).
  assert (lstring (src ms) s0 (e - s0) = LOk (seg (src ms) s0 e)) as Htext by (apply lstring_ok; lia).
  destruct r as [news|f|get]; simpl in *.
  - subst. rw /add_s. change (length (lit "%0")) with 2%nat. cbn [add_s_loop]. cbn -[lstring]. by rw Htext.
  - eapply lsafe_then; [apply (push_captures_safe e); [done|intros ? ? [= <- <-]; lia]|]. intros vs _. rw Hr /=. by rw Htext.
  - eapply lsafe_then; [apply (push_onecapture_safe e); [done|lia..]|]. intros k _. rw Hr /=. by rw Htext.
Qed.

Lemma gsub_loop_keeps (fuel : nat) used s p from anchor r max_s cs start n : length s < size_max - 2 -> 0 <= from <= length p ->
  keeps_match r -> length cs = LUA_MAXCAPTURES -> 0 <= start <= length s -> length s - start + 1 < fuel ->
  lsafe (gsub_loop fuel used s p from anchor r max_s cs start n (take (Z.to_nat start) s))
    (fun r => start <= r.1.1 <= length s /\ r.2 = take (Z.to_nat r.1.1) s).
Proof.
  intros Hs Hfrom Hr. revert cs start n. induction fuel as [|fuel IH] => cs start n Hcs Hst Hf; [lia|]. cbn [gsub_loop].
  destruct (decide (n < max_s)) as [Hn|Hn]; [|simpl; split; [lia|done]].
  eapply lsafe_then; [apply (do_match_safe p _ start from); [by apply start_ok|done]|]. intros [e ms] Ho; lazy beta iota.
  set (b := take _ s). set (stop := default start e).
  eapply (lsafe_then _ _ (fun nb => length (capture ms) = LUA_MAXCAPTURES /\ start <= stop <= length s /\
    nb.2 = take (Z.to_nat stop) s)).
  { destruct e as [e|].
    - destruct Ho as (? & Hsrc & Hok). simpl in *. pose proof (ms_pos _ _ Hok) as Hp. rw Hsrc /= in Hp.
      eapply lsafe_then; [apply add_value_keeps; [done..|lia]|]. intros b' ->. rw Hsrc /= /b take_seg; [lia..|].
      split_and!; [by apply (ms_array _ _ Hok)|lia..|done].
    - destruct Ho as (_ & _ & Hl & _). simpl in *. split_and!; [congruence|lia..|done]. }
  intros [n' b'] (Hcap & Hstop & Hb'). simpl in Hb'. subst b'. cbv beta iota zeta. fold stop.
  assert (forall k, start < k <= length s -> lsafe
    (if anchor then LOk (k, n', take (Z.to_nat k) s)
     else gsub_loop fuel used s p from anchor r max_s (capture ms) k n' (take (Z.to_nat k) s))
    (fun r => start <= r.1.1 <= length s /\ r.2 = take (Z.to_nat r.1.1) s)) as Hagain.
  { intros k Hk. destruct anchor; [simpl; split; [lia|done]|].
    eapply lsafe_mono; [|apply IH; [done|lia..]]. intros [[k' n2] b3]. simpl. intros [? ?]. split; [lia|done]. }
  destruct (decide (stop > start)); [apply Hagain; lia|]. assert (stop = start) as -> by lia.
  destruct (decide (start < length s)) as [Hlt|]; [|simpl; split; [lia|done]].
  destruct (char_at_ok s start) as (c & -> & [Hc|[? _]]); [lia| |lia]. rw LOk_bind.
  replace (take (Z.to_nat start) s ++ [c]) with (take (Z.to_nat (start + 1)) s); [apply Hagain; lia|].
  replace (Z.to_nat (start + 1)) with (S (Z.to_nat start)) by lia. by apply take_S_r.
Qed.

(** String.gsub with a replacement that stands for the match itself returns the string it was given,
    whatever the pattern, the captures and the number of substitutions are: the parts that match and
    the parts between them are copied once each and in order, empty matches and the rest behind the
    last substitution included. *)
Theorem gsub_identity (used : Z) (cs : list capture_t) (s p : list Z) (r : repl) (max_s : option Z) :
  length cs = LUA_MAXCAPTURES -> length s < size_max - 2 -> keeps_match r ->
  (exists msg, str_gsub used cs s p r max_s = LError msg) \/ exists n, str_gsub used cs s p r max_s = LOk (s, n).
Proof.
  intros Hcs Hs Hr. assert (lsafe (str_gsub used cs s p r max_s) (fun tn => tn.1 = s)) as H.
  { rw /str_gsub. cbv zeta. read_char c Hc. eapply lsafe_then.
    - apply (gsub_loop_keeps _ used s p _ _ r _ cs 0 0); [done| |done|done|lia|lia].
      case_bool_decide; simplify_eq; [|lia]. specialize (Hc ltac:(done)). lia.
    - intros [[k n] b] [? Hb]. simpl in *. subst b. rw lstring_ok; [lia..|]. rw LOk_bind. simpl.
      rw (take_ge (drop _ _)); [rw length_drop; lia|]. apply take_drop. }
  destruct (str_gsub used cs s p r max_s) as [[t n]|msg|f]; simpl in H; [subst t; right; by exists n|left; by exists msg|done].
Qed.

Lemma gsub_identity_witness :
  let s := lit "hello world" in let p := lit "o(.?)" in
  (exists msg, str_gsub 3 no_captures s p (ReplString (lit "%0")) (Some 2) = LError msg) \/
  exists n, str_gsub 3 no_captures s p (ReplString (lit "%0")) (Some 2) = LOk (s, n).
Proof.
  apply (gsub_identity 3 no_captures (lit "hello world") (lit "o(.?)") (ReplString (lit "%0")) (Some 2)); reflexivity.
Defined.
