(* ===== verification/LuaPattern.v ===== *)
(** LuaPattern: what the patterns of the string library mean, and that match() of
    src/liblua/src/lstrlib.c (file LuaMatch) finds the first meaning.

    A pattern is parsed into a list of items. An item, from a position of the subject and with
    the captures made so far, can end at several positions, in an order of preference: a greedy
    repetition prefers to be long, a lazy one to be short. The meanings of a sequence of items
    are those of the first item, each continued with the meanings of the others; match() is
    a depth-first search with updates in place and returns the head of that list. *)

From Corelib Require Import ssreflect.
From stdpp Require Import base list numbers strings.
From Stdlib Require Import ZArith Lia.
From S2P Require Import Prelude Libc LuaObject LuaStr LuaMatch.

(** ** Patterns *)

Inductive celem :=
| EClass (cl : Z)
| ERange (lo hi : Z)
| EChar (c : Z).

Inductive single :=
| SAny
| SClass (cl : Z)
| SSet (neg : bool) (es : list celem)
| SChar (c : Z).

Inductive rep := One | Opt | Star | Plus | Lazy.

Inductive item :=
| ISingle (x : single) (r : rep)
| IBalance (b e : Z)
| IFrontier (neg : bool) (es : list celem)
| IBack (d : Z)
| IOpen
| IPos
| IClose
| IEnd.

(** The text of a set up to its closing bracket, which is neither its first character nor escaped,
    and what follows. *)
Definition set_more (pre l : list Z) (more : option (list Z * list Z)) : option (list Z * list Z) :=
  if decide (head l = Some 93) then Some (pre, tail l)
  else '(body, rest) ← more; Some (pre ++ body, rest).
Fixpoint take_set (l : list Z) : option (list Z * list Z) :=
  match l with
  | [] => None
  | c :: l1 =>
      if decide (c = L_ESC) then
        match l1 with
        | [] => None
        | d :: l2 => set_more [c; d] l2 (take_set l2)
        end
      else set_more [c] l1 (take_set l1)
  end.

(** The elements of a set. (An escape that stands last, which needs a range that ends with the escape
    character, takes the closing bracket.) *)
Fixpoint elems (l : list Z) : list celem :=
  match l with
  | [] => []
  | x :: l1 =>
      if decide (x = L_ESC) then
        match l1 with
        | [] => [EClass 93]
        | cl :: l2 => EClass cl :: elems l2
        end
      else
        match l1 with
        | y :: hi :: l3 => if decide (y = 45) then ERange x hi :: elems l3 else EChar x :: elems l1
        | _ => EChar x :: elems l1
        end
  end.

Definition parse_set (l : list Z) : option (bool * list celem * list Z) :=
  let neg := bool_decide (head l = Some 94) in
  '(body, rest) ← take_set (if neg then tail l else l);
  Some (neg, elems body, rest).

Definition parse_single (l : list Z) : option (single * list Z) :=
  match l with
  | [] => None
  | c :: l =>
      if decide (c = L_ESC) then
        match l with
        | [] => None
        | cl :: l => Some (SClass cl, l)
        end
      else if decide (c = 91) then '(neg, es, rest) ← parse_set l; Some (SSet neg es, rest)
      else if decide (c = 46) then Some (SAny, l)
      else Some (SChar c, l)
  end.

Definition rep_of (c : Z) : option rep :=
  if decide (c = 63) then Some Opt
  else if decide (c = 42) then Some Star
  else if decide (c = 43) then Some Plus
  else if decide (c = 45) then Some Lazy
  else None.
Definition parse_default (l : list Z) : option (item * list Z) :=
  '(x, l) ← parse_single l;
  match head l ≫= rep_of with
  | Some r => Some (ISingle x r, tail l)
  | None => Some (ISingle x One, l)
  end.

Definition parse_escape (l : list Z) : option (item * list Z) :=
  match l with
  | d :: l1 =>
      if decide (d = 98) then
        match l1 with
        | b :: e :: l2 => Some (IBalance b e, l2)
        | _ => None
        end
      else if decide (d = 102) then
        match l1 with
        | c :: l2 => if decide (c = 91) then '(neg, es, rest) ← parse_set l2; Some (IFrontier neg es, rest) else None
        | [] => None
        end
      else if isdigit d then Some (IBack d, l1)
      else parse_default (L_ESC :: l)
  | [] => None
  end.

Definition parse_item (l : list Z) : option (item * list Z) :=
  match l with
  | [] => None
  | c :: l1 =>
      if decide (c = 40) then
        if decide (head l1 = Some 41) then Some (IPos, tail l1) else Some (IOpen, l1)
      else if decide (c = 41) then Some (IClose, l1)
      else if decide (c = L_ESC) then parse_escape l1
      else if decide (c = 36 /\ l1 = []) then Some (IEnd, [])
      else parse_default l
  end.

Fixpoint parse (fuel : nat) (l : list Z) : option (list item) :=
  match l, fuel with
  | [], _ => Some []
  | _, O => None
  | _, S fuel => '(it, l) ← parse_item l; its ← parse fuel l; Some (it :: its)
  end.
Definition parse_pattern (l : list Z) : option (list item) := parse (length l) l.

(** ** Meanings *)

Definition elem_has (c : Z) (e : celem) : bool :=
  match e with
  | EClass cl => match_class c cl
  | ERange lo hi => bool_decide (lo <= c <= hi)
  | EChar d => bool_decide (d = c)
  end.
Definition set_has (neg : bool) (es : list celem) (c : Z) : bool := xorb neg (existsb (elem_has c) es).

Definition single_has (x : single) (c : Z) : bool :=
  match x with
  | SAny => true
  | SClass cl => match_class c cl
  | SSet neg es => set_has neg es c
  | SChar d => bool_decide (d = c)
  end.

(** How many characters in front satisfy [x]. *)
Fixpoint span (x : single) (l : list Z) : nat :=
  match l with
  | [] => 0%nat
  | c :: l => if single_has x c then S (span x l) else 0%nat
  end.

(** The lengths of a repetition of at most [n], the preferred one first. *)
Definition lengths (r : rep) (n : nat) : list nat :=
  match r with
  | One => if decide (n = 0%nat) then [] else [1%nat]
  | Opt => if decide (n = 0%nat) then [0%nat] else [1%nat; 0%nat]
  | Star => reverse (seq 0 (S n))
  | Plus => reverse (seq 1 n)
  | Lazy => seq 0 (S n)
  end.

(** The characters up to the one that closes, [k] further ones being open. *)
Fixpoint balance (b e : Z) (k : nat) (l : list Z) : option nat :=
  match l with
  | [] => None
  | c :: l =>
      if decide (c = e) then
        match k with
        | O => Some 1%nat
        | S k => S <$> balance b e k l
        end
      else if decide (c = b) then S <$> balance b e (S k) l
      else S <$> balance b e k l
  end.

Inductive cap :=
| Open (i : Z)
| Position (i : Z)
| Closed (i : Z) (n : Z).

Definition is_open (c : cap) : bool := match c with Open _ => true | _ => false end.

(** The last capture that is open, among the first [n]. *)
Fixpoint last_open (sh : list bool) (n : nat) : option nat :=
  match n with
  | O => None
  | S n => if decide (sh !! n = Some true) then Some n else last_open sh n
  end.

Abbreviation meaning := (Z * list cap)%type (only parsing).

Section meanings.
Context (src : list Z).

Definition char_before (s : Z) : Z := if decide (s = 0) then 0 else default 0 (src !! Z.to_nat (s - 1)).
Definition char_here (s : Z) : Z := default 0 (src !! Z.to_nat s).

Definition meanings1 (it : item) (s : Z) (cs : list cap) : list meaning :=
  let rest := drop (Z.to_nat s) src in
  match it with
  | ISingle x r => (fun k : nat => (s + k, cs)) <$> lengths r (span x rest)
  | IBalance b e =>
      if decide (head rest = Some b) then
        match balance b e 0 (tail rest) with
        | Some k => [(s + 1 + k, cs)]
        | None => []
        end
      else []
  | IFrontier neg es =>
      if negb (set_has neg es (char_before s)) && set_has neg es (char_here s) then [(s, cs)] else []
  | IBack d =>
      match cs !! Z.to_nat (d - 49) with
      | Some (Closed i n) => if decide (seg src s (s + n) = seg src i (i + n)) then [(s + n, cs)] else []
      | _ => []
      end
  | IOpen => [(s, cs ++ [Open s])]
  | IPos => [(s, cs ++ [Position s])]
  | IClose =>
      match last_open (is_open <$> cs) (length cs) with
      | Some l => match cs !! l with
                  | Some (Open i) => [(s, <[l := Closed i (s - i)]> cs)]
                  | _ => []
                  end
      | None => []
      end
  | IEnd => if decide (s = length src) then [(s, cs)] else []
  end.

Fixpoint meanings (its : list item) (s : Z) (cs : list cap) : list meaning :=
  match its with
  | [] => [(s, cs)]
  | it :: its => '(s, cs) ← meanings1 it s cs; meanings its s cs
  end.
End meanings.

(** The captures are used well: [sh] says which of those made before are open. *)
Fixpoint captures_ok (sh : list bool) (its : list item) : bool :=
  match its with
  | [] => bool_decide (true ∉ sh)
  | IOpen :: its => bool_decide (length sh < LUA_MAXCAPTURES)%nat && captures_ok (sh ++ [true]) its
  | IPos :: its => bool_decide (length sh < LUA_MAXCAPTURES)%nat && captures_ok (sh ++ [false]) its
  | IClose :: its =>
      match last_open sh (length sh) with
      | Some l => captures_ok (<[l := false]> sh) its
      | None => false
      end
  | IBack d :: its => bool_decide (49 <= d /\ sh !! Z.to_nat (d - 49) = Some false) && captures_ok sh its
  | _ :: its => captures_ok sh its
  end.

Example parse_example : parse_pattern (lit "(%w+)=%s*[^%a-z]-%1$") =
  Some [IOpen; ISingle (SClass 119) Plus; IClose; ISingle (SChar 61) One; ISingle (SClass 115) Star;
        ISingle (SSet true [EClass 97; EChar 45; EChar 122]) Lazy; IBack 49; IEnd].
Proof. reflexivity. Qed.
Example meanings_example : meanings (lit "aab") [ISingle (SChar 97) Star; IPos] 0 [] =
  [(2, [Position 2]); (1, [Position 1]); (0, [Position 0])].
Proof. reflexivity. Qed.

(** ** Proofs: reading the pattern *)

Lemma c_str_char pat (n : nat) : (n <= length (c_str pat))%nat -> char_at pat n = LOk (default 0 (c_str pat !! n)).
Proof.
  intros Hle. destruct (c_str pat !! n) as [c|] eqn:Hc; simpl.
  - apply char_at_lookup. revert n Hle Hc. induction pat as [|d pat IH] => n Hle Hc; [done|]. simpl in *.
    destruct (decide (d = 0)); [done|]. destruct n as [|n]; [done|]. simpl in *. apply IH; [lia|done].
  - apply lookup_ge_None in Hc. assert (n = length (c_str pat)) as -> by lia. clear.
    assert (pat !! length (c_str pat) = Some 0 \/ length (c_str pat) = length pat) as [H|H].
    { induction pat as [|d pat IH]; [by right|]. simpl. destruct (decide (d = 0)) as [->|]; [by left|].
      simpl. destruct IH as [?| ->]; [by left|by right]. }
    + by apply char_at_lookup.
    + rw H. apply char_at_end.
Qed.

Lemma c_str_nonzero pat : Forall (fun c => c <> 0) (c_str pat).
Proof. induction pat as [|d pat IH]; simpl; [done|]. by destruct (decide (d = 0)); constructor. Qed.

Section reading.
Context (pat : list Z).

(** The rest of the pattern from [p] is [l]. *)
Definition reads (p : Z) (l : list Z) : Prop := 0 <= p <= length (c_str pat) /\ drop (Z.to_nat p) (c_str pat) = l.

Lemma reads_char p l : reads p l -> char_at pat p = LOk (default 0 (head l)).
Proof.
  intros [Hp <-]. rw -{1}(Z2Nat.id p); [lia|]. rw c_str_char; [lia|]. by rw head_lookup lookup_drop Nat.add_0_r.
Qed.

Lemma reads_step p c l : reads p (c :: l) -> char_at pat p = LOk c /\ c <> 0 /\ reads (p + 1) l.
Proof.
  intros Hr. split; [by rw (reads_char _ _ Hr)|]. destruct Hr as [Hp Hd].
  assert (c_str pat !! Z.to_nat p = Some c) as Hc by (by rw -(Nat.add_0_r (Z.to_nat p)) -lookup_drop Hd).
  split; [by eapply (Forall_lookup_1 _ _ _ _ (c_str_nonzero pat))|].
  apply lookup_lt_Some in Hc. split; [lia|]. replace (Z.to_nat (p + 1)) with (1 + Z.to_nat p)%nat by lia.
  rw Nat.add_comm -drop_drop Hd. done.
Qed.

Lemma reads_app p a l : reads p (a ++ l) -> reads (p + length a) l.
Proof.
  revert p. induction a as [|c a IH] => p Hr; simpl in *; [by rw Z.add_0_r|].
  apply reads_step in Hr as (_ & _ & Hr). apply IH in Hr. by replace (p + S (length a)) with (p + 1 + length a) by lia.
Qed.

Lemma c_str_le : (length (c_str pat) <= length pat)%nat.
Proof. induction pat as [|d l IH]; simpl; [done|]. case_decide; simpl; lia. Qed.

Lemma reads_bound p l : reads p l -> 0 <= p /\ p + length l <= length pat.
Proof. intros [Hp <-]. rw length_drop. pose proof c_str_le. lia. Qed.

Lemma take_set_split l body rest : take_set l = Some (body, rest) -> l = body ++ 93 :: rest /\ body <> [].
Proof.
  remember (length l) as m eqn:Hm. revert l Hm body. induction (lt_wf m) as [m _ IH] => l Hm body Hset.
  assert (forall pre l', set_more pre l' (take_set l') = Some (body, rest) -> (length l' < m)%nat ->
    pre ++ l' = body ++ 93 :: rest) as Hmore.
  { intros pre l' Hs Hlt. rw /set_more in Hs. destruct (decide (head l' = Some 93)) as [Hh|].
    - injection Hs as <- <-. by destruct l'; simplify_eq/=.
    - destruct (take_set l') as [[b r]|] eqn:Ht; [|done]. simpl in Hs. injection Hs as <- ->.
      destruct (IH _ Hlt l' eq_refl b Ht) as [-> _]. by rw -app_assoc. }
  assert (forall pre l', pre <> [] -> set_more pre l' (take_set l') = Some (body, rest) -> body <> []) as Hne.
  { intros pre l' Hpre Hs. rw /set_more in Hs. destruct (decide _); [by simplify_eq|].
    destruct (take_set l') as [[b r]|]; [|done]. simpl in Hs. by destruct pre; simplify_eq/=. }
  destruct l as [|c l1]; [done|]. simpl in Hset. destruct (decide (c = L_ESC)).
  - destruct l1 as [|d l2]; [done|]. split; [|by eapply Hne, Hset]. apply (Hmore [c; d] l2); [done|simpl in *; lia].
  - split; [|by eapply Hne, Hset]. apply (Hmore [c] l1); [done|simpl in *; lia].
Qed.

Lemma class_loop_set (fuel : nat) p l body rest : reads p l -> take_set l = Some (body, rest) -> (length l < fuel)%nat ->
  class_loop pat fuel p = LOk (p + length body + 1).
Proof.
  revert p l body. induction fuel as [|fuel IH] => p l body Hr Hset Hf; [lia|]. cbn [class_loop].
  destruct l as [|c l1]; [done|]. destruct (reads_step _ _ _ Hr) as (-> & Hc0 & Hr1). rw LOk_bind.
  destruct (decide (c = 0)); [done|].
  assert (forall pre l' p', set_more pre l' (take_set l') = Some (body, rest) -> reads p' l' -> p' = p + length pre ->
    (length l' < length (c :: l1))%nat ->
    (d ← char_at pat p'; if decide (d <> 93) then class_loop pat fuel p' else LOk (p' + 1)) = LOk (p + length body + 1)) as Hmore.
  { intros pre l' p' Hs Hr' -> Hlt. rw (reads_char _ _ Hr') LOk_bind. rw /set_more in Hs.
    destruct (decide (head l' = Some 93)) as [Hh|Hh].
    - rw Hh. simpl. destruct (decide (93 <> 93)); [done|]. by injection Hs as <- <-.
    - destruct (decide (default 0 (head l') <> 93)) as [_|Hd]; [|destruct l' as [|x l']; simpl in *; [done|by destruct Hd; intros ->]].
      destruct (take_set l') as [[b r]|] eqn:Ht; [|done]. simpl in Hs. injection Hs as <- ->.
      rw (IH _ _ _ Hr' Ht); [lia|]. rw length_app. f_equal. lia. }
  rw (reads_char _ _ Hr1) LOk_bind. cbv zeta. simpl in Hset. destruct (decide (c = L_ESC)) as [->|Hne].
  - destruct l1 as [|d l2]; [done|]. destruct (reads_step _ _ _ Hr1) as (_ & Hd0 & Hr2). simpl.
    destruct (decide (L_ESC = L_ESC /\ d <> 0)) as [_|[]]; [|done].
    apply (Hmore [L_ESC; d] l2); [done|by replace (p + 2) with (p + 1 + 1) by lia|simpl; lia|simpl; lia].
  - destruct (decide (c = L_ESC /\ _)) as [[? _]|_]; [done|]. apply (Hmore [c] l1); [done..|simpl; lia].
Qed.

Lemma bracket_loop_elems (fuel : nat) c p body rest sig : reads (p + 1) (body ++ 93 :: rest) -> (length body < fuel)%nat ->
  bracket_loop pat fuel c p (p + 1 + length body) sig = LOk (xorb (negb sig) (existsb (elem_has c) (elems body))).
Proof.
  revert p body. induction fuel as [|fuel IH] => p body Hr Hf; [lia|]. cbn [bracket_loop]. cbv zeta.
  destruct body as [|x l1].
  { simpl. destruct (decide _); [lia|]. by destruct sig. }
  destruct (reads_step _ _ _ Hr) as (-> & _ & Hr1). destruct (decide (p + 1 < _)) as [_|H]; [|simpl in H; lia]. rw LOk_bind.
  assert (forall (b : bool) (e : celem) l' p', elem_has c e = b -> reads (p' + 1) (l' ++ 93 :: rest) -> p' + 1 + length l' = p + 1 + length (x :: l1) ->
    (length l' < fuel)%nat -> (if b then LOk sig else bracket_loop pat fuel c p' (p + 1 + length (x :: l1)) sig) =
    LOk (xorb (negb sig) (existsb (elem_has c) (e :: elems l')))) as Hstep.
  { intros b e l' p' He Hr' Hlen Hlt. simpl existsb. rw He. destruct b; [by destruct sig|]. rw -Hlen. by apply IH. }
  simpl elems. destruct (decide (x = L_ESC)).
  - destruct l1 as [|cl l2].
    + destruct (reads_step _ _ _ Hr1) as (-> & _ & Hr2). rw LOk_bind. simpl. destruct (match_class c 93); [by destruct sig|].
      destruct fuel as [|fuel]; [simpl in Hf; lia|]. cbn [bracket_loop]. destruct (decide _); [lia|]. by destruct sig.
    + destruct (reads_step _ _ _ Hr1) as (-> & _ & Hr2). rw LOk_bind. apply Hstep; [done..|simpl; lia|simpl in Hf; lia].
  - rw (reads_char _ _ Hr1) LOk_bind.
    assert ((if decide (x = c) then LOk sig else bracket_loop pat fuel c (p + 1) (p + 1 + length (x :: l1)) sig) =
      LOk (xorb (negb sig) (existsb (elem_has c) (EChar x :: elems l1)))) as Hchar.
    { rw decide_bool_decide. apply Hstep; [done..|simpl; lia|simpl in Hf; lia]. }
    destruct l1 as [|y [|hi l3]].
    + destruct (decide (_ /\ p + 1 + 2 < _)) as [[_ H]|_]; [simpl in H; lia|done].
    + destruct (decide (_ /\ p + 1 + 2 < _)) as [[_ H]|_]; [simpl in H; lia|done].
    + simpl. destruct (decide (y = 45)) as [->|Hy].
      * destruct (decide (45 = 45 /\ _)) as [_|H]; [|lia].
        destruct (reads_step _ _ _ Hr1) as (_ & _ & Hr2). destruct (reads_step _ _ _ Hr2) as (Hhi & _ & Hr3).
        replace (p + 1 + 2) with (p + 1 + 1 + 1) by lia. rw Hhi LOk_bind decide_bool_decide.
        apply (Hstep _ (ERange x hi) l3); [done..|simpl; lia|simpl in Hf; lia].
      * destruct (decide (y = 45 /\ _)) as [[? _]|_]; [done|]. exact Hchar.
Qed.

Lemma set_class p l neg es rest : reads p (91 :: l) -> parse_set l = Some (neg, es, rest) ->
  exists ep, classend pat p = LOk ep /\ reads ep rest /\ forall c, matchbracketclass pat c p (ep - 1) = LOk (set_has neg es c).
Proof.
  intros Hr Hset. destruct (reads_step _ _ _ Hr) as (Hc & _ & Hr1). rw /parse_set in Hset.
  set (l' := if bool_decide (head l = Some 94) then tail l else l) in Hset.
  destruct (take_set l') as [[body r]|] eqn:Ht; [|done]. simpl in Hset. injection Hset as Hneg <- ->.
  destruct (take_set_split _ _ _ Ht) as [Hl' _].
  set (p' := if bool_decide (head l = Some 94) then p + 1 else p).
  assert (reads (p' + 1) l') as Hr'.
  { rw /p' /l'. case_bool_decide as Hh; [|done]. destruct l as [|d l]; [done|]. by destruct (reads_step _ _ _ Hr1) as (_ & _ & ?). }
  assert (forall (A : Type) (a b : A), (if decide (default 0 (head l) = 94) then a else b) = if bool_decide (head l = Some 94) then a else b) as Hif.
  { intros A a b. destruct (head l) as [d|]; simpl; [|by case_bool_decide]. case_bool_decide; simplify_eq; by destruct (decide _); simplify_eq. }
  pose proof (reads_bound _ _ Hr') as Hb. exists (p' + 1 + length body + 1). split_and!.
  - rw /classend Hc LOk_bind. cbv zeta. destruct (decide (91 = L_ESC)); [done|]. destruct (decide (91 = 91)); [|done].
    rw (reads_char _ _ Hr1) LOk_bind Hif.
    replace (if bool_decide _ then p + 1 + 1 else p + 1) with (p' + 1) by (rw /p'; by case_bool_decide).
    eapply class_loop_set; [done..|lia].
  - rw Hl' in Hr'. apply reads_app in Hr'. by apply reads_step in Hr' as (_ & _ & ?).
  - intros c. rw /matchbracketclass (reads_char _ _ Hr1) LOk_bind Hif.
    replace (p' + 1 + length body + 1 - 1) with (p' + 1 + length body) by lia. rw Hl' in Hr'.
    rw Hl' length_app in Hb. rw /set_has -Hneg.
    assert (forall sig, bracket_loop pat (S (length pat)) c p' (p' + 1 + length body) sig =
      LOk (xorb (negb sig) (existsb (elem_has c) (elems body)))) as Hloop by (intros sig; eapply bracket_loop_elems; [done|lia]).
    rw /p' in Hloop *. destruct (bool_decide _); apply Hloop.
Qed.

Lemma single_class p l x rest : reads p l -> parse_single l = Some (x, rest) ->
  exists ep, classend pat p = LOk ep /\ reads ep rest /\ forall c, singlematch pat c p ep = LOk (single_has x c).
Proof.
  intros Hr Hp. destruct l as [|a l]; [done|]. simpl in Hp. destruct (reads_step _ _ _ Hr) as (Hc & Hc0 & Hr1).
  destruct (decide (a = L_ESC)) as [->|].
  { destruct l as [|cl l]; [done|]. injection Hp as <- <-. destruct (reads_step _ _ _ Hr1) as (Hcl & Hcl0 & Hr2).
    exists (p + 1 + 1). split_and!; [|done|].
    - rw /classend Hc LOk_bind. simpl. rw Hcl LOk_bind. by destruct (decide (cl = 0)).
    - intros c. rw /singlematch Hc LOk_bind. simpl. by rw Hcl. }
  destruct (decide (a = 91)) as [->|].
  { destruct (parse_set l) as [[[neg es] r]|] eqn:Hset; [|done]. simpl in Hp. injection Hp as <- <-.
    destruct (set_class _ _ _ _ _ Hr Hset) as (ep & ? & ? & Hm). exists ep. split_and!; [done..|].
    intros c. rw /singlematch Hc LOk_bind. simpl. apply Hm. }
  assert (classend pat p = LOk (p + 1)) as Hend.
  { rw /classend Hc LOk_bind. destruct (decide (a = L_ESC)); [done|]. by destruct (decide (a = 91)). }
  exists (p + 1). destruct (decide (a = 46)) as [->|]; injection Hp as <- <-; (split_and!; [done..|]);
    intros c; rw /singlematch Hc LOk_bind; [done|].
  destruct (decide (a = 46)); [done|]. destruct (decide (a = L_ESC)); [done|]. by destruct (decide (a = 91)).
Qed.
End reading.

(** ** Proofs: reading the subject *)

Lemma char_at_drop s i : 0 <= i <= length s -> char_at s i = LOk (default 0 (head (drop (Z.to_nat i) s))).
Proof.
  intros Hi. rw head_lookup lookup_drop Nat.add_0_r.
  destruct (char_at_ok s i Hi) as (c & -> & [->|[-> ->]]); [done|]. by rw Nat2Z.id lookup_ge_None_2.
Qed.

Lemma drop_next (s : list Z) i : 0 <= i -> drop (Z.to_nat (i + 1)) s = tail (drop (Z.to_nat i) s).
Proof.
  intros Hi. replace (Z.to_nat (i + 1)) with (Z.to_nat i + 1)%nat by lia. rw -drop_drop. by destruct (drop _ s).
Qed.

Section spans.
Context (pat : list Z) (p ep : Z) (x : single) (Hx : forall c, singlematch pat c p ep = LOk (single_has x c)).

Lemma matches_here_span ms s : 0 <= s -> matches_here pat ms s p ep =
  LOk (bool_decide (span x (drop (Z.to_nat s) (src ms)) <> 0%nat)).
Proof.
  intros Hs. rw /matches_here. destruct (decide (s < length (src ms))) as [Hlt|Hge].
  - rw char_at_drop; [lia|]. rw LOk_bind Hx. destruct (drop _ (src ms)) as [|c l] eqn:Hd.
    + apply (f_equal length) in Hd. rw length_drop /= in Hd. lia.
    + simpl. f_equal. destruct (single_has x c); by case_bool_decide.
  - rw drop_ge; [lia|]. reflexivity.
Qed.

Lemma expand_count_span (fuel : nat) ms s i : 0 <= s -> 0 <= i -> s + i <= length (src ms) -> length (src ms) - (s + i) < fuel ->
  expand_count pat fuel ms s p ep i = LOk (i + span x (drop (Z.to_nat (s + i)) (src ms))).
Proof.
  revert i. induction fuel as [|fuel IH] => i Hs Hi Hle Hf; [lia|]. cbn [expand_count]. rw matches_here_span; [lia|]. rw LOk_bind.
  destruct (drop (Z.to_nat (s + i)) (src ms)) as [|c l] eqn:Hd; simpl; [f_equal; lia|].
  destruct (single_has x c); simpl; [|f_equal; lia].
  assert (s + i < length (src ms)) by (apply (f_equal length) in Hd; rw length_drop /= in Hd; lia).
  rw IH; [lia..|]. rw Z.add_assoc drop_next; [lia|]. rw Hd. simpl. f_equal. lia.
Qed.
End spans.

Lemma span_next x (s : list Z) i n : 0 <= i -> span x (drop (Z.to_nat i) s) = S n -> span x (drop (Z.to_nat (i + 1)) s) = n.
Proof. intros Hi. rw drop_next //. destruct (drop _ s) as [|c l]; [done|]. simpl. destruct (single_has x c); congruence. Qed.

Lemma span_bound x (s : list Z) i : (span x (drop i s) <= length s - i)%nat.
Proof.
  rw -length_drop. generalize (drop i s) as l. intros l. induction l as [|c l IH]; simpl; [done|]. destruct (single_has x c); lia.
Qed.

Lemma balance_loop_spec (fuel : nat) ms s b e (k : nat) : 0 <= s < length (src ms) -> length (src ms) - s < fuel ->
  balance_loop fuel ms s b e (k + 1) =
  LOk ((fun n : nat => s + 1 + n) <$> balance b e k (drop (Z.to_nat (s + 1)) (src ms))).
Proof.
  revert s k. induction fuel as [|fuel IH] => s k Hs Hf; [lia|]. cbn [balance_loop]. cbv zeta.
  destruct (decide (s + 1 < length (src ms))) as [Hlt|]; [|by rw drop_ge; [lia|]].
  rw char_at_drop; [lia|]. destruct (drop (Z.to_nat (s + 1)) (src ms)) as [|c l] eqn:Hd.
  { apply (f_equal length) in Hd. rw length_drop /= in Hd. lia. }
  assert (drop (Z.to_nat (s + 1 + 1)) (src ms) = l) as Hl by (rw drop_next; [lia|]; by rw Hd).
  assert (forall o : option nat, (fun n : nat => s + 1 + 1 + n) <$> o = (fun n : nat => s + 1 + n) <$> (S <$> o)) as Hs1.
  { intros [n|]; [|done]. simpl. f_equal. lia. }
  rw LOk_bind /=. destruct (decide (c = e)).
  - destruct k as [|k]; simpl; [f_equal; f_equal; lia|]. destruct (decide _); [lia|].
    replace (S k + 1 - 1) with (k + 1) by lia. rw IH; [lia..|]. by rw Hl Hs1.
  - destruct (decide (c = b)).
    + replace (k + 1 + 1) with (S k + 1) by lia. rw IH; [lia..|]. by rw Hl Hs1.
    + rw IH; [lia..|]. by rw Hl Hs1.
Qed.

(** ** Proofs: match() finds the first meaning *)

Definition abs_cap (c : capture_t) : cap :=
  if decide (len c = CAP_UNFINISHED) then Open (init c)
  else if decide (len c = CAP_POSITION) then Position (init c)
  else Closed (init c) (len c).
Definition abs (ms : MatchState) : list cap := abs_cap <$> take (level ms) (capture ms).
Definition shape (ms : MatchState) : list bool := is_open <$> abs ms.

Lemma abs_same ms ms' : same ms ms' -> abs ms = abs ms'.
Proof. intros (_ & Hl & _ & Ht). by rw /abs Ht Hl. Qed.

Lemma abs_length s ms : ms_ok s ms -> length (abs ms) = level ms.
Proof. intros Hok. rw /abs length_fmap length_take (ms_array _ _ Hok). pose proof (ms_level _ _ Hok). lia. Qed.

Lemma abs_lookup ms l c : (l < level ms)%nat -> capture ms !! l = Some c -> abs ms !! l = Some (abs_cap c).
Proof. intros Hl Hc. by rw /abs list_lookup_fmap lookup_take_lt // Hc. Qed.

(** The result is the head of a list of meanings. *)
Definition agrees (m : lres (option Z * MatchState)) (l : list meaning) : Prop :=
  match l with
  | [] => exists ms', m = LOk (None, ms')
  | (e, cs) :: _ => exists ms', m = LOk (Some e, ms') /\ abs ms' = cs
  end.

(** The second attempt after a first that has failed. *)
Lemma agrees_app m l1 l2 : (l1 = [] -> agrees m l2) -> (l1 <> [] -> agrees m l1) -> agrees m (l1 ++ l2).
Proof. destruct l1 as [|[e cs] l1]; simpl; auto. Qed.

Section continuation.
Context (pat : list Z) (rec : MatchState -> Z -> Z -> lres (option Z * MatchState)) (q p1 : Z) (its : list item).
Context (Hrec : forall ms s p, q < p <= length pat -> ms_ok s ms -> lsafe (rec ms s p) (outcome s ms)).
Context (Hp1 : q < p1 <= length pat) (Hq : 0 <= q).
Context (Hk : forall ms s, ms_ok s ms -> captures_ok (shape ms) its = true ->
  agrees (rec ms s p1) (meanings (src ms) its s (abs ms))).

Lemma rec_step ms s : ms_ok s ms -> captures_ok (shape ms) its = true ->
  (exists e ms' rest, rec ms s p1 = LOk (Some e, ms') /\ meanings (src ms) its s (abs ms) = (e, abs ms') :: rest) \/
  (exists ms', rec ms s p1 = LOk (None, ms') /\ meanings (src ms) its s (abs ms) = [] /\ same ms ms').
Proof.
  intros Hok Hc. pose proof (Hk ms s Hok Hc) as Ha. pose proof (Hrec ms s p1 Hp1 Hok) as Hs.
  destruct (meanings _ _ _ _) as [|[e cs] rest]; simpl in Ha.
  - destruct Ha as [ms' Hm]. rw Hm in Hs. right. by exists ms'.
  - destruct Ha as (ms' & Hm & <-). left. by exists e, ms', rest.
Qed.

Lemma expand_try_agrees (fuel n : nat) ms s ep : p1 = ep + 1 -> ms_ok s ms -> captures_ok (shape ms) its = true ->
  s + n - 1 <= length (src ms) -> (n < fuel)%nat ->
  agrees (expand_try rec fuel ms s ep (n - 1)) (k ← reverse (seq 0 n); meanings (src ms) its (s + Z.of_nat k) (abs ms)).
Proof.
  intros Hep. revert fuel ms. induction n as [|n IH] => fuel ms Hok Hc Hle Hf; (destruct fuel as [|fuel]; [lia|]); cbn [expand_try].
  { by exists ms. }
  destruct (decide (_ >= 0)); [|lia]. rw seq_S reverse_snoc bind_cons -Hep Nat.add_0_l.
  replace (S n - 1) with (Z.of_nat n) by lia. replace (Z.of_nat n - 1) with (n - 1) by lia.
  destruct (rec_step ms (s + n)) as [(e & ms' & rest & -> & ->)|(ms' & -> & -> & Hsame)];
    [eapply ms_ok_later; [|exact Hok]; lia|done| |]; rw LOk_bind.
  { by exists ms'. }
  simpl. rw (abs_same _ _ Hsame). pose proof Hsame as (-> & _). apply IH; [by rw -Hsame|by rw /shape -(abs_same _ _ Hsame)| |lia].
  pose proof Hsame as (<- & _). lia.
Qed.

Lemma min_loop_agrees (fuel n j : nat) ms s p ep x : p1 = ep + 1 -> (forall c, singlematch pat c p ep = LOk (single_has x c)) ->
  ms_ok s ms -> captures_ok (shape ms) its = true -> s + j <= length (src ms) ->
  span x (drop (Z.to_nat (s + j)) (src ms)) = n -> (n < fuel)%nat ->
  agrees (min_loop pat rec fuel ms (s + j) p ep) (k ← seq j (S n); meanings (src ms) its (s + Z.of_nat k) (abs ms)).
Proof.
  intros Hep Hx. revert fuel j ms. induction n as [|n IH] => fuel j ms Hok Hc Hle Hn Hf;
    pose proof (ms_pos _ _ Hok); (destruct fuel as [|fuel]; [lia|]); cbn [min_loop seq]; rw bind_cons -Hep;
    (destruct (rec_step ms (s + j)) as [(e & ms' & rest & -> & ->)|(ms' & -> & -> & Hsame)];
    [eapply ms_ok_later; [|exact Hok]; lia|done|by exists ms'|]); rw LOk_bind (matches_here_span pat p ep x Hx); try lia;
    pose proof Hsame as (Hsrc & _); rw -Hsrc Hn LOk_bind.
  { by exists ms'. }
  simpl. replace (s + j + 1) with (s + S j) by lia. rw (abs_same _ _ Hsame) Hsrc. apply IH.
  - by rw -Hsame.
  - by rw /shape -(abs_same _ _ Hsame).
  - rw -Hsrc. pose proof (span_bound x (src ms) (Z.to_nat (s + j))). lia.
  - rw -Hsrc. replace (s + S j) with (s + j + 1) by lia. apply span_next; [lia|done].
  - lia.
Qed.
End continuation.

Lemma is_open_abs c : is_open (abs_cap c) = bool_decide (len c = CAP_UNFINISHED).
Proof. rw /abs_cap. case_bool_decide as H; [by destruct (decide _)|]. destruct (decide _); [done|]. by destruct (decide _). Qed.

Lemma shape_length s ms : ms_ok s ms -> length (shape ms) = level ms.
Proof. intros Hok. by rw /shape length_fmap (abs_length s). Qed.

Lemma shape_lookup s ms l : ms_ok s ms -> (l < level ms)%nat ->
  exists c, get_capture ms l = LOk c /\ cap_ok (length (src ms)) s c /\ abs ms !! l = Some (abs_cap c) /\
    shape ms !! l = Some (bool_decide (len c = CAP_UNFINISHED)).
Proof.
  intros Hok Hl. destruct (ms_ok_get s ms l Hok Hl) as (c & Hg & Hc & Hcok). exists c.
  rw /shape list_lookup_fmap (abs_lookup _ _ _ Hl Hc) /= is_open_abs. done.
Qed.

Lemma to_close_last s ms (n : nat) : ms_ok s ms -> (n <= level ms)%nat ->
  to_close_loop ms n = match last_open (shape ms) n with
                       | Some l => LOk l
                       | None => LError (lit "invalid pattern capture")
                       end.
Proof.
  intros Hok. induction n as [|n IH] => Hn; [done|]. cbn [to_close_loop last_open].
  destruct (shape_lookup s ms n Hok) as (c & -> & _ & _ & ->); [lia|]. rw LOk_bind.
  case_bool_decide; destruct (decide (len c = _)); try done. simpl. apply IH. lia.
Qed.

Lemma last_open_some sh (n l : nat) : last_open sh n = Some l -> (l < n)%nat /\ sh !! l = Some true.
Proof.
  induction n as [|n IH]; [done|]. simpl. destruct (decide _); [intros [= <-]; split; [lia|done]|].
  intros [? ?]%IH. split; [lia|done].
Qed.

Lemma abs_push s ms c : ms_ok s ms -> (level ms < LUA_MAXCAPTURES)%nat ->
  abs (set_level (level ms + 1) (set_captures (<[level ms := c]> (capture ms)) ms)) = abs ms ++ [abs_cap c].
Proof.
  intros Hok Hl. rw /abs /= Nat.add_1_r (take_S_r _ _ c); [rw list_lookup_insert_eq //; rw (ms_array _ _ Hok); lia|].
  rw take_insert_ge; [lia|]. by rw fmap_app.
Qed.

Lemma abs_insert ms l c : (l < level ms)%nat ->
  abs (set_captures (<[l := c]> (capture ms)) ms) = <[l := abs_cap c]> (abs ms).
Proof. intros Hl. rw /abs /= take_insert_lt; [lia|]. by rw list_fmap_insert. Qed.

Lemma seg_take (s : list Z) a k : 0 <= k -> seg s a (a + k) = take (Z.to_nat k) (drop (Z.to_nat a) s).
Proof. intros ?. rw /seg. by replace (a + k - a) with k by lia. Qed.

Lemma match_capture_spec ms s d : ms_ok s ms -> 49 <= d -> shape ms !! Z.to_nat (d - 49) = Some false ->
  match_capture ms s d = LOk (match abs ms !! Z.to_nat (d - 49) with
                              | Some (Closed i k) => if decide (seg (src ms) s (s + k) = seg (src ms) i (i + k)) then Some (s + k) else None
                              | _ => None
                              end).
Proof.
  intros Hok Hd Hsh. pose proof (ms_pos _ _ Hok). pose proof (ms_size _ _ Hok).
  assert (Z.to_nat (d - 49) < level ms)%nat as Hl.
  { apply lookup_lt_Some in Hsh. by rw (shape_length s) in Hsh. }
  destruct (shape_lookup s ms _ Hok Hl) as (c & Hg & (Hi & Hcok) & -> & Hsh'). rw Hsh' in Hsh. injection Hsh as Hun.
  apply bool_decide_eq_false in Hun. rw /match_capture /check_capture. cbv zeta. destruct (decide (_ \/ _)); [lia|].
  rw Hg LOk_bind. destruct (decide (len c = CAP_UNFINISHED)); [done|]. rw LOk_bind Hg LOk_bind /abs_cap.
  destruct (decide (len c = CAP_UNFINISHED)); [done|]. destruct (decide (len c = CAP_POSITION)) as [Hpos|].
  { rw Hpos. change (sz CAP_POSITION) with (size_max - 2). destruct (decide _); [lia|done]. }
  destruct Hcok as [[? _]|[?|Hcl]]; [done..|]. rw sz_small; [lia|]. rw !seg_take; [lia..|].
  destruct (decide (_ >= len c)) as [Hge|Hlt].
  - rw /memeq !lstring_ok; [lia..|]. rw !LOk_bind. destruct (decide (take _ _ = _)) as [Hba|Hba].
    + by rw bool_decide_true.
    + by rw bool_decide_false.
  - destruct (decide (take _ _ = _)) as [Heq|]; [|done]. apply (f_equal length) in Heq.
    rw !length_take !length_drop in Heq. lia.
Qed.

Lemma matchbalance_spec pat ms s p b e rest : reads pat p (b :: e :: rest) -> 0 <= s <= length (src ms) ->
  matchbalance pat ms s p =
  LOk (if decide (head (drop (Z.to_nat s) (src ms)) = Some b)
       then (fun n : nat => s + 1 + n) <$> balance b e 0 (tail (drop (Z.to_nat s) (src ms))) else None).
Proof.
  intros Hr Hs. destruct (reads_step _ _ _ _ Hr) as (Hb & Hb0 & Hr1). destruct (reads_step _ _ _ _ Hr1) as (He & He0 & _).
  rw /matchbalance Hb LOk_bind. destruct (decide (b = 0)); [done|]. rw He LOk_bind. destruct (decide (e = 0)); [done|].
  rw char_at_drop; [lia|]. rw LOk_bind. destruct (decide (head _ = Some b)) as [Hh|Hh].
  - rw Hh. change (default 0 (Some b)) with b. destruct (decide (b <> b)); [done|]. assert (s < length (src ms)).
    { destruct (decide (s < length (src ms))); [done|]. rw drop_ge // in Hh. lia. }
    rw -drop_next; [lia|]. apply (balance_loop_spec _ ms s b e 0); lia.
  - destruct (decide (default 0 _ <> b)) as [_|Hn]; [done|]. destruct (head _); simpl in *; [destruct Hh; f_equal|]; lia.
Qed.

Lemma balance_le b e n t k : balance b e n t = Some k -> (k <= length t)%nat.
Proof.
  revert n k. induction t as [|c t IH] => n k; simpl; [done|].
  destruct (decide (c = e)); [destruct n; [intros [= <-]; lia|]|destruct (decide (c = b))];
    intros (k' & ?%IH & ->)%fmap_Some; lia.
Qed.

Section items.
Context (pat : list Z) (rec : MatchState -> Z -> Z -> lres (option Z * MatchState)) (q : Z) (l l' : list Z) (its : list item).
Context (Hrec : forall ms s p, q < p <= length pat -> ms_ok s ms -> lsafe (rec ms s p) (outcome s ms)).
Context (Hl : reads pat q l).
Context (Hk : forall p1 ms s, q < p1 -> reads pat p1 l' -> ms_ok s ms -> captures_ok (shape ms) its = true ->
  agrees (rec ms s p1) (meanings (src ms) its s (abs ms))).

(** A position behind [q] where the rest of the pattern stands. *)
Definition next_at (p1 : Z) : Prop := q < p1 /\ reads pat p1 l'.

Lemma next_bound p1 : next_at p1 -> q < p1 <= length pat.
Proof. intros [? Hr]. apply reads_bound in Hr. lia. Qed.

Lemma next_agrees p1 ms s : next_at p1 -> ms_ok s ms -> captures_ok (shape ms) its = true ->
  agrees (rec ms s p1) (meanings (src ms) its s (abs ms)).
Proof. intros [? ?]. by apply Hk. Qed.

Lemma single_meanings src x r s cs : meanings src (ISingle x r :: its) s cs =
  (k ← lengths r (span x (drop (Z.to_nat s) src)); meanings src its (s + Z.of_nat k) cs).
Proof. simpl. rw list_fmap_bind. done. Qed.

Lemma opt_agrees ms s p1 : next_at p1 -> ms_ok s ms -> s < length (src ms) -> captures_ok (shape ms) its = true ->
  agrees ('(res, ms) ← rec ms (s + 1) p1; match res with Some e => LOk (Some e, ms) | None => rec ms s p1 end)
    (meanings (src ms) its (s + 1) (abs ms) ++ meanings (src ms) its s (abs ms)).
Proof.
  intros Hn Hok Hlt Hc. pose proof (ms_pos _ _ Hok).
  assert (ms_ok (s + 1) ms) as Hok1 by (eapply ms_ok_later; [|exact Hok]; lia).
  destruct (rec_step pat rec q p1 its Hrec (next_bound _ Hn) (fun ms s => next_agrees p1 ms s Hn) ms (s + 1) Hok1 Hc)
    as [(e & ms' & rest & -> & ->)|(ms' & -> & -> & Hsame)]; rw LOk_bind.
  - by exists ms'.
  - simpl. rw (abs_same _ _ Hsame). pose proof Hsame as (-> & _). apply next_agrees; [done|by rw -Hsame|].
    by rw /shape -(abs_same _ _ Hsame).
Qed.

Lemma default_agrees it ms s : parse_default l = Some (it, l') -> ms_ok s ms -> captures_ok (shape ms) its = true ->
  agrees (match_default pat rec ms s q) (meanings (src ms) (it :: its) s (abs ms)).
Proof.
  intros Hp Hok Hc. pose proof (ms_pos _ _ Hok) as Hpos. rw /parse_default in Hp.
  destruct (parse_single l) as [[x l1]|] eqn:Hx; [|done]. simpl in Hp.
  destruct (single_class pat q l x l1 Hl Hx) as (ep & Hend & Hr1 & Hm).
  assert (q < ep) as Hlt.
  { pose proof (reads_bound _ _ _ Hl). destruct l as [|c l0]; [done|]. destruct (reads_step _ _ _ _ Hl) as (Hc' & Hc0 & _).
    pose proof (classend_safe pat q c ltac:(lia) Hc' Hc0) as Hs. rw Hend in Hs. destruct Hs. lia. }
  rw /match_default Hend LOk_bind (matches_here_span pat q ep x Hm); [lia|]. rw LOk_bind (reads_char _ _ _ Hr1) LOk_bind.
  assert ((head l1 ≫= rep_of) = rep_of (default 0 (head l1))) as Hrep by (by destruct (head l1)).
  rw Hrep in Hp. clear Hrep. set (n := span x (drop (Z.to_nat s) (src ms))).
  pose proof (span_bound x (src ms) (Z.to_nat s)) as Hn. fold n in Hn.
  assert (default 0 (head l1) <> 0 -> reads pat (ep + 1) (tail l1)) as Hnext.
  { destruct l1 as [|c l2]; [done|]. intros _. by destruct (reads_step _ _ _ _ Hr1) as (_ & _ & ?). }
  set (c := default 0 (head l1)) in *. clearbody c. rw /rep_of in Hp.
  assert (tail l1 = l' -> c <> 0 -> next_at (ep + 1)) as Hat.
  { intros Ht Hc0. split; [lia|]. rw -Ht. auto. }
  destruct (decide (c = 63)) as [->|].
  { injection Hp as <- Hl'. specialize (Hat Hl' ltac:(done)). rw single_meanings. fold n. rw /lengths.
    case_bool_decide as Hz; (destruct (decide (n = 0%nat)); [try done|try lia]).
    - rw !bind_cons app_nil_r Z.add_0_r. apply opt_agrees; [done..|lia|done].
    - rw bind_singleton Z.add_0_r. by apply next_agrees. }
  destruct (decide (c = 42)) as [->|].
  { injection Hp as <- Hl'. specialize (Hat Hl' ltac:(done)). rw single_meanings. fold n. rw /lengths /max_expand.
    rw (expand_count_span pat q ep x Hm); [lia..|]. rw Z.add_0_r LOk_bind. fold n. replace (0 + Z.of_nat n) with (S n - 1) by lia.
    by apply (expand_try_agrees pat rec q (ep + 1) its Hrec (next_bound _ Hat) (fun ms s => next_agrees _ ms s Hat)); try lia. }
  destruct (decide (c = 43)) as [->|].
  { injection Hp as <- Hl'. specialize (Hat Hl' ltac:(done)). rw single_meanings. fold n. rw /lengths /max_expand.
    case_bool_decide as Hz; [|replace n with 0%nat by lia; by exists ms].
    destruct n as [|k] eqn:Hk'; [done|]. rw (expand_count_span pat q ep x Hm); [lia..|]. rw Z.add_0_r LOk_bind.
    rw (span_next x _ s k); [lia|done|]. replace (0 + Z.of_nat k) with (S k - 1) by lia.
    replace (reverse (seq 1 (S k))) with (S <$> reverse (seq 0 (S k))) by (by rw fmap_reverse fmap_S_seq).
    rw list_fmap_bind. eapply (eq_ind _ (agrees _)).
    - apply (expand_try_agrees pat rec q (ep + 1) its Hrec (next_bound _ Hat) (fun ms s => next_agrees _ ms s Hat)); try lia; [|done].
      eapply ms_ok_later; [|exact Hok]. lia.
    - apply list_bind_ext; [|done]. intros j. simpl. by replace (s + 1 + Z.of_nat j) with (s + Z.of_nat (S j)) by lia. }
  destruct (decide (c = 45)) as [->|].
  { injection Hp as <- Hl'. specialize (Hat Hl' ltac:(done)). rw single_meanings. fold n. rw /lengths /min_expand.
    pose proof (min_loop_agrees pat rec q (ep + 1) its Hrec (next_bound _ Hat) (fun ms s => next_agrees _ ms s Hat)
      (S (S (length (src ms)))) n 0 ms s q ep x eq_refl Hm Hok Hc) as Hmin. rw Z.add_0_r in Hmin. apply Hmin; [lia|done|lia]. }
  injection Hp as <- Hl'. rw single_meanings. fold n. rw /lengths.
  case_bool_decide as Hz; (destruct (decide (n = 0%nat)); [try done|try lia]); [|by exists ms].
  rw bind_singleton. apply next_agrees; [split; [done|by rw -Hl']|eapply ms_ok_later; [|exact Hok]; lia|done].
Qed.

Lemma start_agrees ms s p1 what c : next_at p1 -> ms_ok s ms -> (level ms < LUA_MAXCAPTURES)%nat ->
  what = CAP_UNFINISHED \/ what = CAP_POSITION -> c = abs_cap (MkCapture s what) ->
  captures_ok (shape ms ++ [is_open c]) its = true ->
  agrees (start_capture rec ms s p1 what) (meanings (src ms) its s (abs ms ++ [c])).
Proof.
  intros Hn Hok Hlev Hw -> Hc. rw /start_capture. destruct (decide _); [lia|]. rw (put_capture_ok s); [done|lia|]. rw LOk_bind.
  set (ms1 := set_level _ _). assert (abs ms1 = abs ms ++ [abs_cap (MkCapture s what)]) as Habs by (by apply (abs_push s)).
  rw -Habs. destruct (rec_step pat rec q p1 its Hrec (next_bound _ Hn) (fun ms s => next_agrees p1 ms s Hn) ms1 s)
    as [(e & ms' & rest & -> & Hm)|(ms' & -> & Hm & Hsame)].
  - apply ms_ok_push; [done|lia|]. pose proof (ms_pos _ _ Hok). rw /cap_ok /=. naive_solver lia.
  - by rw /shape Habs fmap_app.
  - change (src ms) with (src ms1). rw Hm LOk_bind. by exists ms'.
  - change (src ms) with (src ms1). rw Hm LOk_bind. by eexists.
Qed.

Lemma close_agrees ms s p1 : next_at p1 -> ms_ok s ms -> captures_ok (shape ms) (IClose :: its) = true ->
  agrees (end_capture rec ms s p1) (meanings (src ms) (IClose :: its) s (abs ms)).
Proof.
  intros Hn Hok Hc. cbn [captures_ok] in Hc. rw (shape_length s) // in Hc.
  rw /end_capture /capture_to_close (to_close_last s) //. cbn [meanings meanings1]. fold (shape ms). rw (abs_length s) //.
  destruct (last_open (shape ms) (level ms)) as [l0|] eqn:Hlast; [|done]. rw LOk_bind.
  destruct (last_open_some _ _ _ Hlast) as [Hl0 Hsh]. destruct (shape_lookup s ms l0 Hok Hl0) as (c & -> & Hcok & -> & Hsh').
  rw Hsh in Hsh'. injection Hsh' as Hun. symmetry in Hun. apply bool_decide_eq_true in Hun. rw /abs_cap Hun.
  destruct (decide (CAP_UNFINISHED = CAP_UNFINISHED)) as [_|]; [|done]. rw bind_singleton LOk_bind.
  pose proof (ms_level _ _ Hok). pose proof (ms_pos _ _ Hok). rw (put_capture_ok s); [done|lia|]. rw LOk_bind.
  destruct Hcok as [Hi [[_ Hle]|Hcok]]; [|rw Hun /CAP_UNFINISHED /CAP_POSITION in Hcok; lia].
  set (c1 := MkCapture (init c) (s - init c)). set (ms1 := set_captures _ ms).
  assert (abs_cap c1 = Closed (init c) (s - init c)) as Hc1.
  { rw /abs_cap /c1 /=. destruct (decide _) as [H'|]; [rw /CAP_UNFINISHED in H'; lia|].
    by destruct (decide _) as [H'|]; [rw /CAP_POSITION in H'; lia|]. }
  assert (abs ms1 = <[l0 := Closed (init c) (s - init c)]> (abs ms)) as Habs by (by rw -Hc1; apply abs_insert).
  rw -Habs. change (src ms) with (src ms1). assert (ms_ok s ms1) as Hok1.
  { apply ms_ok_insert; [done..|]. rw /cap_ok /=. lia. }
  destruct (rec_step pat rec q p1 its Hrec (next_bound _ Hn) (fun ms s => next_agrees p1 ms s Hn) ms1 s Hok1)
    as [(e & ms' & rest & -> & Hm)|(ms' & -> & Hm & Hsame)].
  - by rw /shape Habs list_fmap_insert.
  - rw Hm LOk_bind. by exists ms'.
  - rw Hm LOk_bind. assert (ms_ok s ms') as Hok' by (by rw -Hsame). destruct Hsame as (_ & Hlev & _). simpl in Hlev.
    destruct (ms_ok_get s ms' l0 Hok') as (c2 & -> & _); [lia|]. rw LOk_bind (put_capture_ok s); [done|lia|]. by eexists.
Qed.

Lemma balance_agrees b e ms s : l = L_ESC :: 98 :: b :: e :: l' -> ms_ok s ms -> captures_ok (shape ms) its = true ->
  agrees (match_escape pat rec ms s q) (meanings (src ms) (IBalance b e :: its) s (abs ms)).
Proof.
  intros Heq Hok Hc. pose proof (ms_pos _ _ Hok) as Hpos. pose proof Hl as Hr0. rw Heq in Hr0.
  destruct (reads_step _ _ _ _ Hr0) as (_ & _ & Hr1). destruct (reads_step _ _ _ _ Hr1) as (Hd & _ & Hr2).
  rw /match_escape Hd LOk_bind. destruct (decide (98 = 98)); [|done]. replace (q + 2) with (q + 1 + 1) by lia.
  rw (matchbalance_spec _ _ _ _ b e l' Hr2); [done|]. rw LOk_bind. cbn [meanings meanings1].
  destruct (decide (head _ = Some b)) as [Hh|_]; [|by exists ms].
  destruct (balance b e 0 _) as [k|] eqn:Hbal; simpl; [|by exists ms]. rw app_nil_r. apply next_agrees; [|..|done].
  - split; [lia|]. apply (reads_app _ _ [L_ESC; 98; b; e]) in Hr0. exact Hr0.
  - eapply ms_ok_later; [|exact Hok]. apply balance_le in Hbal. destruct (drop (Z.to_nat s) (src ms)) eqn:Hdr; [done|].
    apply (f_equal length) in Hdr. rw length_drop /= in Hdr. simpl in Hbal. lia.
Qed.

Lemma frontier_agrees neg es ms s l2 : l = L_ESC :: 102 :: 91 :: l2 -> parse_set l2 = Some (neg, es, l') -> ms_ok s ms ->
  captures_ok (shape ms) its = true ->
  agrees (match_escape pat rec ms s q) (meanings (src ms) (IFrontier neg es :: its) s (abs ms)).
Proof.
  intros Heq Hset Hok Hc. pose proof (ms_pos _ _ Hok) as Hpos. pose proof Hl as Hr0. rw Heq in Hr0.
  destruct (reads_step _ _ _ _ Hr0) as (_ & _ & Hr1). destruct (reads_step _ _ _ _ Hr1) as (Hd & _ & Hr2).
  destruct (reads_step _ _ _ _ Hr2) as (Hb & Hb0 & _). pose proof (reads_bound _ _ _ Hr2).
  destruct (set_class _ _ _ _ _ _ Hr2 Hset) as (ep & Hend & Hr3 & Hm).
  pose proof (classend_safe pat (q + 1 + 1) 91 ltac:(lia) Hb Hb0) as Hs. rw Hend in Hs. destruct Hs as [Hep _].
  rw /match_escape Hd LOk_bind. destruct (decide (102 = 98)); [done|]. destruct (decide (102 = 102)); [|done]. cbv zeta.
  replace (q + 2) with (q + 1 + 1) by lia. rw Hb LOk_bind. destruct (decide (91 <> 91)); [done|]. rw Hend LOk_bind /frontier.
  assert ((if decide (s = 0) then LOk 0 else char_at (src ms) (s - 1)) = LOk (char_before (src ms) s)) as ->.
  { rw /char_before. destruct (decide (s = 0)); [done|]. rw char_at_drop; [lia|]. by rw head_lookup lookup_drop Nat.add_0_r. }
  assert (char_at (src ms) s = LOk (char_here (src ms) s)) as ->.
  { rw /char_here char_at_drop; [lia|]. by rw head_lookup lookup_drop Nat.add_0_r. }
  rw !LOk_bind !Hm LOk_bind. cbn [meanings meanings1]. destruct (set_has neg es (char_before _ _)); simpl; [by exists ms|].
  destruct (set_has neg es (char_here _ _)); simpl; [|by exists ms]. rw app_nil_r. apply next_agrees; [split; [lia|done]|done..].
Qed.

Lemma back_agrees d ms s : l = L_ESC :: d :: l' -> isdigit d = true -> ms_ok s ms ->
  captures_ok (shape ms) (IBack d :: its) = true ->
  agrees (match_escape pat rec ms s q) (meanings (src ms) (IBack d :: its) s (abs ms)).
Proof.
  intros Heq Hdig Hok Hc. pose proof (ms_pos _ _ Hok) as Hpos. pose proof Hl as Hr0. rw Heq in Hr0.
  destruct (reads_step _ _ _ _ Hr0) as (_ & _ & Hr1). destruct (reads_step _ _ _ _ Hr1) as (Hd & _ & Hr2).
  apply andb_true_iff in Hc as [Hd1 Hc]. apply bool_decide_eq_true in Hd1 as [H49 Hsh].
  rw /match_escape Hd LOk_bind Hdig. assert (d <> 98 /\ d <> 102) as [? ?] by (split; intros ->; done).
  destruct (decide (d = 98)); [done|]. destruct (decide (d = 102)); [done|].
  rw match_capture_spec //. rw LOk_bind. cbn [meanings meanings1]. destruct (abs ms !! _) as [[i|i|i k]|] eqn:Hcap; [by exists ms..| |by exists ms].
  destruct (decide (seg _ _ _ = _)) as [Hseg|]; [|by exists ms]. rw bind_singleton.
  assert (Z.to_nat (d - 49) < level ms)%nat as Hlev by (apply lookup_lt_Some in Hcap; by rw (abs_length s) in Hcap).
  destruct (shape_lookup s ms _ Hok Hlev) as (c & _ & [Hi Hcok] & Habs & Hun). rw Habs in Hcap. injection Hcap as Hcap.
  rw /abs_cap in Hcap. destruct (decide (len c = _)); [done|]. destruct (decide (len c = _)); [done|]. injection Hcap as <- <-.
  destruct Hcok as [[? _]|[?|Hcl]]; [done..|]. rw !seg_take in Hseg; [lia..|]. apply (f_equal length) in Hseg. rw !length_take !length_drop in Hseg.
  apply next_agrees; [split; [lia|by replace (q + 2) with (q + 1 + 1) by lia]| |done]. eapply ms_ok_later; [|exact Hok]. lia.
Qed.

Lemma escape_agrees it l0 ms s : l = L_ESC :: l0 -> parse_escape l0 = Some (it, l') -> ms_ok s ms ->
  captures_ok (shape ms) (it :: its) = true -> agrees (match_escape pat rec ms s q) (meanings (src ms) (it :: its) s (abs ms)).
Proof.
  intros Heq Hp Hok Hc. destruct l0 as [|d l1]; [done|]. simpl in Hp. destruct (decide (d = 98)) as [->|].
  { destruct l1 as [|b [|e l2]]; [done..|]. injection Hp as <- ->. by apply balance_agrees. }
  destruct (decide (d = 102)) as [->|].
  { destruct l1 as [|c l2]; [done|]. destruct (decide (c = 91)) as [->|]; [|done].
    destruct (parse_set l2) as [[[neg es] r]|] eqn:Hset; [|done]. simpl in Hp. injection Hp as <- ->. by eapply frontier_agrees. }
  destruct (isdigit d) eqn:Hdig; [injection Hp as <- ->; by apply back_agrees|].
  pose proof Hl as Hr0. rw Heq in Hr0. destruct (reads_step _ _ _ _ Hr0) as (_ & _ & Hr1).
  destruct (reads_step _ _ _ _ Hr1) as (Hd & _ & _). rw /match_escape Hd LOk_bind Hdig.
  destruct (decide (d = 98)); [done|]. destruct (decide (d = 102)); [done|]. apply default_agrees; [by rw Heq|done|].
  rw /parse_default in Hp. destruct (parse_single _) as [[x r]|]; [|done]. simpl in Hp. by destruct (_ ≫= rep_of); injection Hp as <- _.
Qed.

Lemma body_agrees it ms s : parse_item l = Some (it, l') -> (l' = [] -> its = []) -> ms_ok s ms ->
  captures_ok (shape ms) (it :: its) = true -> agrees (match_body pat rec ms s q) (meanings (src ms) (it :: its) s (abs ms)).
Proof.
  intros Hp Hnil Hok Hc. assert (exists c l1, l = c :: l1) as (c & l1 & Heq) by (destruct l; [done|by do 2 eexists]).
  pose proof Hl as Hr0. rw Heq in Hr0. destruct (reads_step _ _ _ _ Hr0) as (Hch & Hc0 & Hr1). rw /match_body Hch LOk_bind.
  assert (parse_default l = Some (it, l') -> agrees (match_default pat rec ms s q) (meanings (src ms) (it :: its) s (abs ms))) as Hdef.
  { intros Hd. apply default_agrees; [done..|]. rw /parse_default in Hd. destruct (parse_single _) as [[x r]|]; [|done].
    simpl in Hd. by destruct (_ ≫= rep_of); injection Hd as <- _. }
  assert (forall what cp, what = CAP_UNFINISHED \/ what = CAP_POSITION -> cp = abs_cap (MkCapture s what) ->
    bool_decide (length (shape ms) < LUA_MAXCAPTURES)%nat && captures_ok (shape ms ++ [is_open cp]) its = true ->
    forall p1, next_at p1 -> agrees (start_capture rec ms s p1 what) ('(s, cs) ← [(s, abs ms ++ [cp])]; meanings (src ms) its s cs)) as Hstart.
  { intros what cp Hw Hcp [Hlen Hc']%andb_true_iff p1 Hn. apply bool_decide_eq_true in Hlen. rw (shape_length s) // in Hlen.
    rw bind_singleton. by apply start_agrees. }
  rw {1}Heq in Hp. simpl in Hp. rw -Heq in Hp. destruct (decide (c = 40)).
  { rw (reads_char _ _ _ Hr1) LOk_bind. destruct (decide (head l1 = Some 41)) as [Hh|Hh]; injection Hp as <- Hl'.
    - rw Hh. simpl. apply Hstart; [by right|done..|]. split; [lia|]. destruct l1 as [|d l1]; [done|]. rw -Hl'.
      destruct (reads_step _ _ _ _ Hr1) as (_ & _ & Hr2). by replace (q + 2) with (q + 1 + 1) by lia.
    - destruct (decide (_ = 41)) as [He|_]; [destruct l1; simplify_eq/=|].
      apply Hstart; [by left|done..|]. split; [lia|]. by rw -Hl'. }
  destruct (decide (c = 41)); [injection Hp as <- Hl'; apply close_agrees; [split; [lia|by rw -Hl']|done..]|].
  destruct (decide (c = L_ESC)); [subst c; by eapply escape_agrees|]. destruct (decide (c = 0)); [done|].
  destruct (decide (c = 36)) as [->|].
  - rw (reads_char _ _ _ Hr1) LOk_bind. destruct (decide (36 = 36 /\ l1 = [])) as [[_ ->]|Hne].
    + injection Hp as <- Hl'. rw Hnil; [done|]. simpl. destruct (decide _); simpl; by exists ms.
    + destruct l1 as [|d l1]; [by destruct Hne|]. destruct (reads_step _ _ _ _ Hr1) as (_ & Hd0 & _). simpl.
      destruct (decide (d = 0)); [done|]. by apply Hdef.
  - destruct (decide (c = 36 /\ _)) as [[? _]|_]; [done|]. by apply Hdef.
Qed.
End items.

Lemma match_loop_agrees pat (fuel k : nat) l its ms s p : reads pat p l -> parse k l = Some its -> ms_ok s ms ->
  captures_ok (shape ms) its = true -> length pat - p < fuel ->
  agrees (match_loop pat fuel ms s p) (meanings (src ms) its s (abs ms)).
Proof.
  revert k l its ms s p. induction fuel as [|fuel IH] => k l its ms s p Hr Hp Hok Hc Hf; pose proof (reads_bound _ _ _ Hr); [lia|].
  simpl. destruct l as [|c l1].
  { assert (its = []) as -> by (destruct k; simpl in Hp; congruence).
    rw /match_body (reads_char _ _ _ Hr) LOk_bind. by exists ms. }
  destruct k as [|k]; [done|]. cbn [parse] in Hp. destruct (parse_item (c :: l1)) as [[it l2]|] eqn:Hit; [|done]. simpl in Hp.
  destruct (parse k l2) as [its'|] eqn:Hrest; [|done]. injection Hp as <-.
  apply (body_agrees pat (match_loop pat fuel) p (c :: l1) l2 its'); [|done| |done| |done..].
  - intros ms' s' p' Hp' Hok'. apply match_loop_safe; [done|lia..].
  - intros p1 ms' s' Hlt Hr' Hok' Hc'. apply (IH k l2); [done..|lia].
  - intros ->. destruct k; simpl in Hrest; congruence.
Qed.

Lemma do_match_first pat p l its s cs s1 : reads pat p l -> parse_pattern l = Some its -> captures_ok [] its = true ->
  length cs = LUA_MAXCAPTURES -> 0 <= s1 <= length s -> length s < size_max - 2 ->
  exists ms', do_match pat (MkMatch s 0 cs) s1 p = LOk (fst <$> head (meanings s its s1 []), ms') /\
    length (capture ms') = LUA_MAXCAPTURES /\
    forall e caps, head (meanings s its s1 []) = Some (e, caps) -> abs ms' = caps /\ s1 <= e /\ ms_ok e ms' /\ src ms' = s.
Proof.
  intros Hr Hp Hc Hcs Hs1 Hs. assert (ms_ok s1 (MkMatch s 0 cs)) as Hok by (by apply start_ok).
  pose proof (reads_bound _ _ _ Hr) as Hb.
  pose proof (match_loop_agrees pat (S (length pat)) _ l its (MkMatch s 0 cs) s1 p Hr Hp Hok Hc ltac:(lia)) as Ha.
  pose proof (do_match_safe pat _ s1 p Hok ltac:(lia)) as Hsafe. rw /do_match in Hsafe *.
  change (src (MkMatch s 0 cs)) with s in Ha. destruct (meanings s its s1 (abs (MkMatch s 0 cs))) as [|[e caps] rest] eqn:Hm; change (abs (MkMatch s 0 cs)) with (@nil cap) in Hm;
    rw Hm; rw /agrees in Ha.
  - destruct Ha as [ms' Heq]. rw Heq in Hsafe *. exists ms'. split; [done|]. split; [|done].
    destruct Hsafe as (_ & _ & Hlen & _). simpl in Hlen. congruence.
  - destruct Ha as (ms' & Heq & Habs). rw Heq in Hsafe *. exists ms'. destruct Hsafe as (He & Hsrc & Hok').
    split; [done|]. split; [by apply (ms_array _ _ Hok')|]. by intros ? ? [= <- <-].
Qed.

(** No capture is left open. *)
Lemma meanings1_captures src it its s cs s' cs' : captures_ok (is_open <$> cs) (it :: its) = true ->
  (s', cs') ∈ meanings1 src it s cs -> captures_ok (is_open <$> cs') its = true.
Proof.
  destruct it as [x r|b e|neg es|d| | | |]; simpl; intros Hc Hin.
  - apply list_elem_of_fmap in Hin as (k & [= -> ->] & _). done.
  - destruct (decide _); [|by apply not_elem_of_nil in Hin]. destruct (balance _ _ _ _); [|by apply not_elem_of_nil in Hin].
    by apply list_elem_of_singleton in Hin as [= -> ->].
  - destruct (_ && _); [|by apply not_elem_of_nil in Hin]. by apply list_elem_of_singleton in Hin as [= -> ->].
  - apply andb_true_iff in Hc as [_ Hc]. destruct (cs !! _) as [[]|]; try by apply not_elem_of_nil in Hin.
    destruct (decide _); [|by apply not_elem_of_nil in Hin]. by apply list_elem_of_singleton in Hin as [= -> ->].
  - apply andb_true_iff in Hc as [_ Hc]. apply list_elem_of_singleton in Hin as [= -> ->]. by rw fmap_app.
  - apply andb_true_iff in Hc as [_ Hc]. apply list_elem_of_singleton in Hin as [= -> ->]. by rw fmap_app.
  - rw length_fmap in Hc. destruct (last_open _ _) as [l|]; [|done]. destruct (cs !! l) as [[]|]; try by apply not_elem_of_nil in Hin.
    apply list_elem_of_singleton in Hin as [= -> ->]. by rw list_fmap_insert.
  - destruct (decide _); [|by apply not_elem_of_nil in Hin]. by apply list_elem_of_singleton in Hin as [= -> ->].
Qed.

Lemma meanings_closed src its s cs e cs' : captures_ok (is_open <$> cs) its = true -> (e, cs') ∈ meanings src its s cs ->
  Forall (fun c => is_open c = false) cs'.
Proof.
  revert s cs. induction its as [|it its IH] => s cs Hc Hin.
  - apply list_elem_of_singleton in Hin as [= -> ->]. simpl in Hc. apply bool_decide_eq_true in Hc.
    apply Forall_forall. intros c Hin. destruct (is_open c) eqn:Ho; [|done]. destruct Hc. rw -Ho. by apply list_elem_of_fmap_2.
  - cbn [meanings] in Hin. apply list_elem_of_bind in Hin as ([s1 cs1] & Hin & Hin1). eapply IH; [|exact Hin].
    by eapply meanings1_captures.
Qed.

(** The value of a capture. *)
Definition cap_value (s : list Z) (c : cap) : lua_val :=
  match c with
  | Closed i k => VString (seg s i (i + k))
  | Position i => VInteger (i + 1)
  | Open _ => VString []
  end.

Lemma push_onecapture_value e0 ms i c s e : ms_ok e0 ms -> abs ms !! i = Some c -> is_open c = false ->
  push_onecapture ms i s e = LOk (cap_value (src ms) c).
Proof.
  intros Hok Hc Ho. assert (i < level ms)%nat as Hi by (apply lookup_lt_Some in Hc; by rw (abs_length e0) in Hc).
  destruct (shape_lookup e0 ms i Hok Hi) as (c' & Hg & [Hin Hcok] & Habs & _). rw Hc in Habs. injection Habs as ->.
  rw /push_onecapture. destruct (decide (level ms <= i)%nat); [lia|]. rw Hg LOk_bind. rw is_open_abs in Ho.
  apply bool_decide_eq_false in Ho. rw /abs_cap. destruct (decide (len c' = CAP_UNFINISHED)); [done|].
  destruct (decide (len c' = CAP_POSITION)); [done|]. destruct Hcok as [[? _]|[?|?]]; [done..|].
  rw lstring_ok; [lia..|]. rw LOk_bind /cap_value seg_take; [lia|]. done.
Qed.

(** What string.find and string.match push for the captures. *)
Definition shown (s : list Z) (whole : option (Z * Z)) (caps : list cap) : list lua_val :=
  match caps, whole with
  | [], Some (a, b) => [VString (seg s a b)]
  | _, _ => cap_value s <$> caps
  end.

Lemma push_captures_values e0 used ms whole : ms_ok e0 ms -> used + 32 <= LUAI_MAXCSTACK -> 0 <= used ->
  (forall a b, whole = Some (a, b) -> 0 <= a <= b /\ b <= length (src ms)) -> Forall (fun c => is_open c = false) (abs ms) ->
  push_captures used ms whole = LOk (shown (src ms) whole (abs ms)).
Proof.
  intros Hok Hused H0 Hw Hcl. pose proof (ms_level _ _ Hok). change LUA_MAXCAPTURES with 32%nat in *. rw /push_captures.
  assert (forall k : nat, (k <= 32)%nat -> luaL_checkstack used k "too many captures" = LOk ()) as Hst.
  { intros k Hk. rw /luaL_checkstack /lua_checkstack. change LUAI_MAXCSTACK with 32767 in *. by rw bool_decide_false; [lia|]. }
  destruct (default (0, 0) whole) as [a b] eqn:Hd. pose proof (abs_length _ _ Hok) as Hlen. rw Hst; [case_decide; lia|]. rw LOk_bind.
  assert (forall i n, (i + n = level ms)%nat -> push_loop ms i n a b = LOk (cap_value (src ms) <$> drop i (abs ms))) as Hloop.
  { intros i n. revert i. induction n as [|n IH] => i Hi; cbn [push_loop].
    - rw drop_ge; [lia|]. done.
    - destruct (lookup_lt_is_Some_2 (abs ms) i) as [c Hc]; [lia|].
      rw (push_onecapture_value e0 _ _ c); [done..|by eapply (Forall_lookup_1 _ _ _ _ Hcl)|]. rw LOk_bind IH; [lia|].
      rw LOk_bind (drop_S _ _ _ Hc). done. }
  destruct (decide (level ms = 0%nat /\ whole <> None)) as [[Hz Hne]|Hne].
  - destruct whole as [[a' b']|]; [|done]. simpl in Hd. simplify_eq. destruct (Hw a b eq_refl).
    assert (abs ms = []) as -> by (apply length_zero_iff_nil; lia). cbn [push_loop]. rw /push_onecapture Hz /=.
    rw lstring_ok; [lia..|]. done.
  - rw Hloop; [done|]. rw drop_0 /shown. destruct (abs ms) as [|c cs] eqn:Habs; [|done]. destruct whole as [[a' b']|]; [|done].
    destruct Hne. split; [by rw -Hlen|done].
Qed.

(** ** string.find and string.match *)

(** The outcome of a search from [from] on: at the first position with a meaning, its first meaning. *)
Definition searched (s : list Z) (its : list item) (anchor find : bool) (from : Z) (vs : list lua_val) : Prop :=
  (vs = [] /\ (forall j, from <= j <= length s -> anchor = false \/ j = from -> meanings s its j [] = [])) \/
  (exists j e caps rest, from <= j <= length s /\ (anchor = true -> j = from) /\
    meanings s its j [] = (e, caps) :: rest /\ (forall k, from <= k < j -> meanings s its k [] = []) /\
    vs = if find then VInteger (j + 1) :: VInteger e :: shown s None caps else shown s (Some (j, e)) caps).

Section searching.
Context (used : Z) (s p : list Z) (from : Z) (l : list Z) (its : list item) (find anchor : bool).
Context (Hused : 0 <= used) (Hstack : used + 34 <= LUAI_MAXCSTACK) (Hs : length s < size_max - 2).
Context (Hr : reads p from l) (Hp : parse_pattern l = Some its) (Hc : captures_ok [] its = true).

Lemma find_loop_first (fuel : nat) cs s1 : length cs = LUA_MAXCAPTURES -> 0 <= s1 <= length s -> length s - s1 < fuel ->
  exists vs, find_loop fuel used find anchor s p from cs s1 = LOk vs /\ searched s its anchor find s1 vs.
Proof.
  revert cs s1. induction fuel as [|fuel IH] => cs s1 Hcs Hs1 Hf; [lia|]. cbn [find_loop].
  destruct (do_match_first p from l its s cs s1 Hr Hp Hc Hcs Hs1 Hs) as (ms & -> & Hlen & Hm). rw LOk_bind.
  destruct (meanings s its s1 []) as [|[e caps] rest] eqn:Hmean; simpl.
  - destruct (decide (s1 < length s /\ anchor = false)) as [[Hlt Ha]|Hend].
    + destruct (IH (capture ms) (s1 + 1) Hlen) as (vs & -> & Hv); [lia..|]. exists vs. split; [done|].
      assert (forall j, s1 <= j -> j < s1 + 1 \/ meanings s its j [] = [] -> meanings s its j [] = []) as Hext.
      { intros j Hj [?|?]; [|done]. by replace j with s1 by lia. }
      destruct Hv as [[-> Hv]|(j & e & caps & rest & Hj & Hja & Hmj & Hbefore & ->)]; [left|right].
      * split; [done|]. intros j Hj Hor. apply Hext; [lia|]. destruct (decide (j < s1 + 1)); [by left|right]. apply Hv; [lia|by left].
      * exists j, e, caps, rest. split_and!; [lia..|by rw Ha|done| |done]. intros k Hk. apply Hext; [lia|].
        destruct (decide (k < s1 + 1)); [by left|right]. apply Hbefore. lia.
    + exists []. split; [done|]. left. split; [done|]. intros j Hj Hor. replace j with s1; [done|].
      destruct Hor as [Ha| ->]; [|done]. destruct (decide (s1 < length s)); [by destruct Hend|lia].
  - destruct (Hm e caps eq_refl) as (Habs & Hle & Hok & Hsrc). pose proof (ms_pos _ _ Hok) as Hpos. rw Hsrc in Hpos.
    assert (Forall (fun c => is_open c = false) (abs ms)) as Hcl.
    { rw Habs. eapply (meanings_closed s its s1 []); [done|]. rw Hmean. apply list_elem_of_here. }
    assert (searched s its anchor find s1 (if find then VInteger (s1 + 1) :: VInteger e :: shown s None caps else shown s (Some (s1, e)) caps)).
    { right. exists s1, e, caps, rest. split_and!; [lia..|done|done|lia|done]. }
    destruct find.
    + rw (push_captures_values e); [done|lia|lia|done..|]. rw LOk_bind Hsrc Habs. by eexists.
    + rw (push_captures_values e); [done|lia|lia| |done|].
      { intros a b [= <- <-]. rw Hsrc. lia. }
      rw Hsrc Habs. by eexists.
Qed.
End searching.

(** The rest of the pattern behind the anchor. *)
Definition unanchored (p : list Z) : list Z := if decide (head p = Some 94) then tail p else p.

Lemma reads_anchor p : exists c, char_at p 0 = LOk c /\ bool_decide (c = 94) = bool_decide (head (c_str p) = Some 94) /\
  reads p (if bool_decide (c = 94) then 1 else 0) (unanchored (c_str p)).
Proof.
  assert (reads p 0 (c_str p)) as Hr by (split; [lia|by rw drop_0]).
  exists (default 0 (head (c_str p))). rw (reads_char _ _ _ Hr). split; [done|]. rw /unanchored.
  destruct (c_str p) as [|c l] eqn:Hp; simpl; [done|]. destruct (decide (Some c = Some 94)) as [[= ->]|].
  - split; [done|]. by apply reads_step in Hr as (_ & _ & ?).
  - rw !bool_decide_false //; congruence.
Qed.

(** C21: string.find and string.match return the leftmost match, and there the preferred one: for a
    pattern that is well-formed the search ends without an error at the first position, from the one
    asked for on, where the pattern has a meaning, with the ends, or the whole match, and the captures
    of its first meaning; with an anchor only the first position counts. It returns nothing exactly when
    no position has a meaning: backtracking loses no match. *)
Theorem find_leftmost (used : Z) (cs : list capture_t) (find : bool) (s p : list Z) (i : Z) (its : list item) :
  0 <= used -> used + 34 <= LUAI_MAXCSTACK -> length cs = LUA_MAXCAPTURES -> length s < size_max - 2 ->
  parse_pattern (unanchored (c_str p)) = Some its -> captures_ok [] its = true -> find && no_specials p = false ->
  exists vs, str_find_aux used cs find s p i false = LOk vs /\
    searched s its (bool_decide (head (c_str p) = Some 94)) find (find_init i (length s)) vs.
Proof.
  intros Hu Hst Hcs Hs Hp Hc Hsp. rw /str_find_aux. cbv zeta. rw orb_false_l Hsp.
  destruct (reads_anchor p) as (c & -> & <- & Hr). rw LOk_bind. pose proof (find_init_range i (length s) ltac:(lia)).
  apply (find_loop_first used s p _ (unanchored (c_str p))); [done..|lia].
Qed.

Lemma find_leftmost_witness :
  exists vs, str_find_aux 3 no_captures true (lit "x = f(a(b)c)") (lit "(%w+)(%b())") 1 false = LOk vs /\
    searched (lit "x = f(a(b)c)") [IOpen; ISingle (SClass 119) Plus; IClose; IOpen; IBalance 40 41; IClose]
      (bool_decide (head (c_str (lit "(%w+)(%b())")) = Some 94)) true (find_init 1 (length (lit "x = f(a(b)c)"))) vs.
Proof.
  apply (find_leftmost 3 no_captures true (lit "x = f(a(b)c)") (lit "(%w+)(%b())") 1
    [IOpen; ISingle (SClass 119) Plus; IClose; IOpen; IBalance 40 41; IClose]);
    first [discriminate | reflexivity | (vm_compute; discriminate)].
Defined.

(** ** Patterns without special characters *)

Definition plain_char (c : Z) : Prop := (c ∉ SPECIALS) /\ c <> 41 /\ c <> 0.

Lemma plain_c_str p : Forall plain_char p -> c_str p = p.
Proof. induction 1 as [|c p (_ & _ & Hc) _ IH]; simpl; [done|]. destruct (decide (c = 0)); [done|]. by rw IH. Qed.

Lemma plain_not c d : plain_char c -> d ∈ SPECIALS -> c <> d.
Proof. by intros [? _] ? ->. Qed.

Lemma parse_plain p : Forall plain_char p -> parse_pattern p = Some ((fun c => ISingle (SChar c) One) <$> p).
Proof.
  rw /parse_pattern. induction 1 as [|c p Hc Hp IH]; [done|]. simpl.
  assert (forall d, bool_decide (d ∈ SPECIALS) = true -> c <> d) as Hne.
  { intros d Hd. apply bool_decide_eq_true in Hd. by apply plain_not. }
  assert (parse_default (c :: p) = Some (ISingle (SChar c) One, p)) as Hdef.
  { rw /parse_default /=. destruct (decide (c = L_ESC)); [by destruct (Hne L_ESC eq_refl)|].
    destruct (decide (c = 91)); [by destruct (Hne 91 eq_refl)|]. destruct (decide (c = 46)); [by destruct (Hne 46 eq_refl)|]. simpl.
    destruct Hp as [|d p Hd _]; [done|]. simpl. rw /rep_of.
    assert (forall x, bool_decide (x ∈ SPECIALS) = true -> d <> x) as Hned.
    { intros x Hx. apply bool_decide_eq_true in Hx. by apply plain_not. }
    destruct (decide (d = 63)); [by destruct (Hned 63 eq_refl)|]. destruct (decide (d = 42)); [by destruct (Hned 42 eq_refl)|].
    destruct (decide (d = 43)); [by destruct (Hned 43 eq_refl)|]. by destruct (decide (d = 45)); [destruct (Hned 45 eq_refl)|]. }
  destruct (decide (c = 40)); [by destruct (Hne 40 eq_refl)|]. destruct (decide (c = 41)); [by destruct Hc as (_ & ? & _)|].
  destruct (decide (c = L_ESC)); [by destruct (Hne L_ESC eq_refl)|].
  destruct (decide (c = 36 /\ p = [])) as [[? _]|_]; [by destruct (Hne 36 eq_refl)|]. rw Hdef. simpl. by rw IH.
Qed.

Lemma plain_meanings s p i : 0 <= i -> meanings s ((fun c => ISingle (SChar c) One) <$> p) i [] =
  if decide (occurs s p i) then [(i + length p, [])] else [].
Proof.
  revert i. induction p as [|c p IH] => i Hi.
  { simpl. rw Z.add_0_r. by destruct (decide (occurs s [] i)) as [|[]]. }
  cbn [fmap list_fmap meanings meanings1]. rw list_fmap_bind /lengths.
  destruct (drop (Z.to_nat i) s) as [|d t] eqn:Hd; simpl.
  { by destruct (decide (occurs s (c :: p) i)) as [Ho|]; [rw /occurs Hd in Ho|]. }
  case_bool_decide as Hcd; simpl.
  - subst d. change (i + 1%nat) with (i + 1). rw app_nil_r IH; [lia|].
    assert (occurs s p (i + 1) <-> occurs s (c :: p) i) as Hiff.
    { rw /occurs drop_next; [lia|]. rw Hd /=. naive_solver congruence. }
    destruct (decide (occurs s p (i + 1))), (decide (occurs s (c :: p) i)); try tauto. by replace (i + 1 + length p) with (i + S (length p)) by lia.
  - destruct (decide (occurs s (c :: p) i)) as [Ho|]; [|done]. rw /occurs Hd /= in Ho. congruence.
Qed.

(** The plain search that string.find makes when the pattern has no special characters is
    equivalent to matching: it returns the same values as the loop of match() would, except for
    patterns with a closing parenthesis, which is not among the special characters though match() does
    not take it literally, and with a null, where match() ends the pattern. *)
Theorem plain_find_equiv (used : Z) (cs : list capture_t) (s p : list Z) (i : Z) :
  0 <= used -> used + 34 <= LUAI_MAXCSTACK -> length cs = LUA_MAXCAPTURES -> length s < size_max - 2 ->
  Forall plain_char p ->
  str_find used cs s p i false = find_loop (S (length s)) used true false s p 0 cs (find_init i (length s)).
Proof.
  intros Hu Hst Hcs Hs Hp. rw /str_find /str_find_aux. cbv zeta. assert (no_specials p = true) as ->.
  { apply bool_decide_eq_true. rw plain_c_str //. eapply Forall_impl; [exact Hp|]. by intros c [? _]. }
  simpl andb. cbv iota. pose proof (find_init_range i (length s) ltac:(lia)) as Hi. set (i0 := find_init _ _) in *. clearbody i0.
  assert (reads p 0 p) as Hr by (split; [lia|by rw drop_0 plain_c_str]).
  set (its := (fun c => ISingle (SChar c) One) <$> p).
  assert (captures_ok [] its = true) as Hc by (rw /its; clear; by induction p).
  destruct (find_loop_first used s p 0 p its true false Hu Hst Hs Hr (parse_plain p Hp) Hc (S (length s)) cs i0 Hcs Hi) as (vs & -> & Hv); [lia|].
  destruct (lmemfind_ok s p i0 Hi) as (r & -> & Hfirst). rw LOk_bind.
  assert (forall j, 0 <= j -> meanings s its j [] = if decide (occurs s p j) then [(j + length p, [])] else []) as Hm by (intros; by apply plain_meanings).
  assert (forall k, i0 <= k -> occurs s p k -> (forall j, i0 <= j < k -> ~ occurs s p j) -> k <= length s) as Hle.
  { intros k Hk Ho Hno. destruct (decide (p = [])) as [->|]; [|pose proof (occurs_length s p k ltac:(lia) ltac:(done) Ho); lia].
    destruct (decide (i0 < k)); [|lia]. destruct (Hno i0); [lia|done]. }
  destruct Hv as [[-> Hv]|(j & e & caps & rest & Hj & _ & Hmj & Hbefore & ->)].
  - destruct r as [k|]; [|done]. destruct Hfirst as (Hk & Ho & Hno). exfalso. specialize (Hle k Hk Ho Hno).
    specialize (Hv k ltac:(lia) (or_introl eq_refl)). rw Hm in Hv; [lia|]. by destruct (decide _).
  - rw Hm in Hmj; [lia|]. destruct (decide (occurs s p j)) as [Ho|]; [|done]. injection Hmj as <- <- _.
    destruct r as [k|]; [|by destruct (Hfirst j ltac:(lia))]. destruct Hfirst as (Hk & Hok & Hno). assert (k = j) as ->; [|done].
    destruct (Z.lt_trichotomy k j) as [Hlt|[?|Hlt]]; [|done|by destruct (Hno j ltac:(lia))].
    specialize (Hbefore k ltac:(lia)). rw Hm in Hbefore; [lia|]. by destruct (decide (occurs s p k)).
Qed.

Lemma plain_find_equiv_witness :
  str_find 3 no_captures (lit "a=b; b=c") (lit "b=") 1 false =
  find_loop (S (length (lit "a=b; b=c"))) 3 true false (lit "a=b; b=c") (lit "b=") 0 no_captures (find_init 1 (length (lit "a=b; b=c"))).
Proof.
  apply (plain_find_equiv 3 no_captures (lit "a=b; b=c") (lit "b=") 1); try (first [discriminate | reflexivity | (vm_compute; discriminate)]).
  repeat constructor; try discriminate; apply (bool_decide_unpack _); vm_compute; exact I.
Defined.
