(* ===== verification/LuaTab.v ===== *)
(** LuaTab: the table library, src/liblua/src/ltablib.c, on the integer keys of tables:
    table.insert, table.remove, table.concat, table.foreachi and table.sort.

    The library reaches a table through lua_rawgeti() and lua_rawseti(); [RawTable] is what
    these promise, whatever holds the elements. A value is None for nil. The length that
    luaL_getn() finds is an argument. The order function of table.sort answers by its
    arguments alone; functions called by table.foreachi may change the table. *)

From Corelib Require Import ssreflect.
From stdpp Require Import base list numbers strings gmap sorting.
From Stdlib Require Import ZArith Lia.
From S2P Require Import Prelude Libc LuaObject LuaStr.

(** ** The interface to tables *)

(** Setting a key that is present cannot fail; setting a new one may raise an error. *)
Class RawTable (V T : Type) := {
  rawgeti : T -> Z -> option V;
  rawseti : T -> Z -> option V -> lres T;
  table_ok : T -> Prop;
  rawseti_spec (t : T) (i : Z) (v : option V) : table_ok t ->
    lsafe (rawseti t i v) (fun t' => table_ok t' /\ forall j, rawgeti t' j = if decide (j = i) then v else rawgeti t j);
  rawseti_present (t : T) (i : Z) (v : option V) : table_ok t -> rawgeti t i <> None -> exists t', rawseti t i v = LOk t'
}.

(** Finite maps. *)
#[export, refine] Instance gmap_table (V : Type) : RawTable V (gmap Z V) := {|
  rawgeti t i := t !! i;
  rawseti t i v := LOk (partial_alter (fun _ => v) i t);
  table_ok _ := True
|}.
Proof.
  - intros t i v _. split; [done|]. intros j. destruct (decide (j = i)) as [->|]; [apply lookup_partial_alter_eq|].
    by apply lookup_partial_alter_ne.
  - intros t i v _ _. by eexists.
Defined.

(** [a + b] on [int]. *)
Definition int_add (a b : Z) : lres Z :=
  if decide (int_min <= a + b <= int_max) then LOk (a + b) else LFault SignedOverflow.

Section tablib.
Context {V T : Type} `{!RawTable V T}.

(** ** Insertion and removal *)

(** The loop that moves up the elements behind [pos]. *)
Fixpoint move_up (fuel : nat) (t : T) (i pos : Z) : lres T :=
  match fuel with
  | O => LFault OutOfFuel
  | S fuel =>
      if decide (i > pos) then
        t ← rawseti t i (rawgeti t (i - 1));
        move_up fuel t (i - 1) pos
      else LOk t
  end.

(** [n] is the length; the position is None when there are two arguments. *)
Definition tinsert (t : T) (n : Z) (pos : option Z) (v : option V) : lres T :=
  e ← int_add n 1;
  match pos with
  | None => rawseti t e v
  | Some pos =>
      let e := if decide (pos > e) then pos else e in
      t ← move_up (S (Z.to_nat (e - pos))) t e pos;
      rawseti t pos v
  end.

(** The loop that moves down the elements behind [pos]. *)
Fixpoint move_down (fuel : nat) (t : T) (pos e : Z) : lres T :=
  match fuel with
  | O => LFault OutOfFuel
  | S fuel =>
      if decide (pos < e) then
        t ← rawseti t pos (rawgeti t (pos + 1));
        move_down fuel t (pos + 1) e
      else LOk t
  end.

(** The value returned, if there is something to remove, and the table. *)
Definition tremove (t : T) (n : Z) (pos : option Z) : lres (option (option V) * T) :=
  let e := n in
  let pos := default e pos in
  if decide (1 <= pos <= e) then
    let result := rawgeti t pos in
    t ← move_down (S (Z.to_nat (e - pos))) t pos e;
    t ← rawseti t e None;
    LOk (Some result, t)
  else LOk (None, t).

(** ** Concatenation *)

Section concat.
(** lua_tolstring() of strings and numbers, luaL_typename() *)
Context (tolstring : V -> option (list Z)) (typename : option V -> cstring).

Definition addfield (t : T) (b : list Z) (i : Z) : lres (list Z) :=
  match rawgeti t i ≫= tolstring with
  | Some s => LOk (b ++ s)
  | None => LError (lit "invalid value (" ++ typename (rawgeti t i) ++ lit ") at index " ++ fmt_d i ++ lit " in table for 'concat'")
  end.

Fixpoint concat_loop (fuel : nat) (t : T) (sep : list Z) (i last : Z) (b : list Z) : lres (list Z) :=
  match fuel with
  | O => LFault OutOfFuel
  | S fuel =>
      if decide (i < last) then b ← addfield t b i; concat_loop fuel t sep (i + 1) last (b ++ sep)
      else if decide (i = last) then addfield t b i
      else LOk b
  end.
Definition tconcat (t : T) (sep : list Z) (i last : Z) : lres (list Z) :=
  concat_loop (S (Z.to_nat (last - i))) t sep i last [].
End concat.

(** ** Traversal *)

(** The function gets an index and the value there, and may change the table. *)
Fixpoint foreachi_loop {R : Type} (fuel : nat) (f : T -> Z -> option V -> lres (option R * T)) (t : T) (i n : Z)
    : lres (option R * T) :=
  match fuel with
  | O => LFault OutOfFuel
  | S fuel =>
      if decide (i <= n) then
        '(r, t) ← f t i (rawgeti t i);
        match r with
        | Some r => LOk (Some r, t)
        | None => i ← int_add i 1; foreachi_loop fuel f t i n
        end
      else LOk (None, t)
  end.
Definition foreachi {R : Type} (f : T -> Z -> option V -> lres (option R * T)) (t : T) (n : Z) : lres (option R * T) :=
  foreachi_loop (S (Z.to_nat n)) f t 1 n.

(** ** Quicksort *)

Section quicksort.
(** sort_comp(): the order function, or the comparison of Lua. *)
Context (sort_comp : option V -> option V -> lres bool).

(** The value on the top of the stack and the one below. *)
Definition set2 (t : T) (i j : Z) (top below : option V) : lres T :=
  t ← rawseti t i top; rawseti t j below.

(** repeat ++i until a[i] >= P *)
Fixpoint scan_up (fuel : nat) (t : T) (i u : Z) (P : option V) : lres Z :=
  match fuel with
  | O => LFault OutOfFuel
  | S fuel =>
      let i := i + 1 in
      c ← sort_comp (rawgeti t i) P;
      if c : bool then
        if decide (i > u) then LError (lit "invalid order function for sorting") else scan_up fuel t i u P
      else LOk i
  end.

(** repeat --j until a[j] <= P *)
Fixpoint scan_down (fuel : nat) (t : T) (j l : Z) (P : option V) : lres Z :=
  match fuel with
  | O => LFault OutOfFuel
  | S fuel =>
      let j := j - 1 in
      c ← sort_comp P (rawgeti t j);
      if c : bool then
        if decide (j < l) then LError (lit "invalid order function for sorting") else scan_down fuel t j l P
      else LOk j
  end.

(** invariant: a[l..i] <= P <= a[j..u] *)
Fixpoint partition (fuel : nat) (t : T) (l u i j : Z) (P : option V) : lres (Z * T) :=
  match fuel with
  | O => LFault OutOfFuel
  | S fuel =>
      i ← scan_up (S (S (Z.to_nat (u - i)))) t i u P;
      j ← scan_down (S (S (Z.to_nat (j - l)))) t j l P;
      if decide (j < i) then LOk (i, t)
      else
        t ← set2 t i j (rawgeti t j) (rawgeti t i);
        partition fuel t l u i j P
  end.

(** a[u] < a[l]? *)
Definition order_ends (t : T) (l u : Z) : lres T :=
  c ← sort_comp (rawgeti t u) (rawgeti t l);
  if c : bool then set2 t l u (rawgeti t u) (rawgeti t l) else LOk t.

(** a[i] < a[l]? or a[u] < a[i]? *)
Definition order_middle (t : T) (l i u : Z) : lres T :=
  c ← sort_comp (rawgeti t i) (rawgeti t l);
  if c : bool then set2 t i l (rawgeti t l) (rawgeti t i)
  else
    c ← sort_comp (rawgeti t u) (rawgeti t i);
    if c : bool then set2 t i u (rawgeti t u) (rawgeti t i) else LOk t.

(** The pivot a[i] goes to a[u-1], and when the others are divided, to its place. *)
Definition divide (t : T) (l i u : Z) : lres (Z * T) :=
  let P := rawgeti t i in
  t ← set2 t i (u - 1) (rawgeti t (u - 1)) P;
  '(i, t) ← partition (S (Z.to_nat (u - l))) t l u l (u - 1) P;
  t ← set2 t (u - 1) i (rawgeti t i) (rawgeti t (u - 1));
  LOk (i, t).

Fixpoint auxsort (fuel : nat) (t : T) (l u : Z) : lres T :=
  match fuel with
  | O => LFault OutOfFuel
  | S fuel =>
      if decide (l < u) then
        t ← order_ends t l u;
        if decide (u - l = 1) then LOk t
        else
          s ← int_add l u;
          let i := Z.quot s 2 in
          t ← order_middle t l i u;
          if decide (u - l = 2) then LOk t
          else
            '(i, t) ← divide t l i u;
            if decide (i - l < u - i) then t ← auxsort fuel t l (i - 1); auxsort fuel t (i + 1) u
            else t ← auxsort fuel t (i + 1) u; auxsort fuel t l (i - 1)
      else LOk t
  end.

(** [used] slots of the stack are in use. *)
Definition sort (used : Z) (t : T) (n : Z) : lres T :=
  _ ← luaL_checkstack used 40 "";
  auxsort (S (Z.to_nat n)) t 1 n.
End quicksort.
End tablib.

(** ** Examples *)

Definition table_of (l : list Z) : gmap Z Z := list_to_map (zip (seqZ 1 (length l)) l).
Definition less (a b : option Z) : lres bool :=
  match a, b with
  | Some a, Some b => LOk (bool_decide (a < b))
  | _, _ => LError (lit "attempt to compare")
  end.

Example sort_example : (t ← sort less 2 (table_of [5; 2; 8; 1; 9; 2; 7]) 7; LOk ((t !!.) <$> seqZ 1 7)) =
  LOk (Some <$> [1; 2; 2; 5; 7; 8; 9]).
Proof. vm_compute. reflexivity. Qed.
Example insert_example : (t ← tinsert (table_of [5; 2; 8]) 3 (Some 2) (Some 7); LOk ((t !!.) <$> seqZ 1 4)) =
  LOk (Some <$> [5; 7; 2; 8]).
Proof. vm_compute. reflexivity. Qed.

(** ** Proofs: cells of a table *)

Section cells.
Context {V T : Type} `{!RawTable V T}.
Implicit Types (t : T) (l u i j k : Z).

(** The values at the keys from [l] to [u]. *)
Definition vals t l u : list (option V) := rawgeti t <$> seqZ l (u - l + 1).

Lemma vals_Forall (Q : option V -> Prop) t l u : Forall Q (vals t l u) <-> forall k, l <= k <= u -> Q (rawgeti t k).
Proof.
  rw /vals Forall_fmap Forall_forall. split.
  - intros HQ k Hk. apply HQ. apply elem_of_seqZ. lia.
  - intros HQ k Hk%elem_of_seqZ. apply HQ. lia.
Qed.

Lemma vals_ext t t' l u : (forall k, l <= k <= u -> rawgeti t' k = rawgeti t k) -> vals t' l u = vals t l u.
Proof. intros Heq. apply list_fmap_ext. intros i k Hk%list_elem_of_lookup_2%elem_of_seqZ. apply Heq. lia. Qed.

Lemma vals_split t l m u : l <= m + 1 -> m <= u -> vals t l u = vals t l m ++ vals t (m + 1) u.
Proof.
  intros Hl Hm. rw /vals -fmap_app. replace (u - l + 1) with ((m - l + 1) + (u - (m + 1) + 1)) by lia.
  rw seqZ_app; [lia..|]. by replace (l + (m - l + 1)) with (m + 1) by lia.
Qed.

(** Only the cells from [l] to [u] have changed, and they hold the same values in some order. *)
Definition shuffled l u t t' : Prop :=
  table_ok t' /\ (forall k, ~ l <= k <= u -> rawgeti t' k = rawgeti t k) /\ vals t' l u ≡ₚ vals t l u.

Lemma shuffled_refl l u t : table_ok t -> shuffled l u t t.
Proof. intros ?. by split; [|split]. Qed.

Lemma shuffled_trans l u t1 t2 t3 : shuffled l u t1 t2 -> shuffled l u t2 t3 -> shuffled l u t1 t3.
Proof.
  intros (_ & Ho1 & Hp1) (? & Ho2 & Hp2). split; [done|split; [|by rw Hp2]].
  intros k Hk. by rw Ho2 // Ho1.
Qed.

Lemma shuffled_Forall (Q : option V -> Prop) l u t t' : shuffled l u t t' ->
  (forall k, l <= k <= u -> Q (rawgeti t k)) -> forall k, l <= k <= u -> Q (rawgeti t' k).
Proof. intros (_ & _ & Hp) HQ. apply vals_Forall. rw Hp. by apply vals_Forall. Qed.

Lemma shuffled_widen l u l' u' t t' : l' <= l -> u <= u' -> l <= u + 1 -> shuffled l u t t' -> shuffled l' u' t t'.
Proof.
  intros Hl Hu Hlu (? & Ho & Hp). split; [done|]. split; [intros k Hk; apply Ho; lia|].
  rw !(vals_split _ l' (l - 1) u'); [lia..|]. replace (l - 1 + 1) with l by lia. rw !(vals_split _ l u u'); [lia..|].
  rw (vals_ext t t' l' (l - 1)); [intros k Hk; apply Ho; lia|]. rw (vals_ext t t' (u + 1) u'); [intros k Hk; apply Ho; lia|].
  by rw Hp.
Qed.

(** The exchange of two keys. *)
Definition exchange i j k : Z := if decide (k = i) then j else if decide (k = j) then i else k.

Lemma exchange_involutive i j k : exchange i j (exchange i j k) = k.
Proof. rw /exchange. repeat case_decide; congruence. Qed.

Lemma exchange_seqZ l n i j : l <= i < l + n -> l <= j < l + n -> exchange i j <$> seqZ l n ≡ₚ seqZ l n.
Proof.
  intros Hi Hj. apply NoDup_Permutation.
  - apply NoDup_fmap_2; [|apply NoDup_seqZ]. intros a b Hab. by rw -(exchange_involutive i j a) Hab exchange_involutive.
  - apply NoDup_seqZ.
  - intros k. rw list_elem_of_fmap elem_of_seqZ. split.
    + intros (k' & -> & Hk'%elem_of_seqZ). rw /exchange. repeat case_decide; lia.
    + intros Hk. exists (exchange i j k). rw exchange_involutive elem_of_seqZ. split; [done|]. rw /exchange. repeat case_decide; lia.
Qed.

Lemma set2_swap t l u i j : table_ok t -> l <= i <= u -> l <= j <= u -> rawgeti t i <> None -> rawgeti t j <> None ->
  exists t', set2 t i j (rawgeti t j) (rawgeti t i) = LOk t' /\ shuffled l u t t' /\
    forall k, rawgeti t' k = rawgeti t (exchange i j k).
Proof.
  intros Hok Hi Hj Hni Hnj. rw /set2. destruct (rawseti_present t i (rawgeti t j) Hok Hni) as [t1 Ht1].
  pose proof (rawseti_spec t i (rawgeti t j) Hok) as Hs. rw Ht1 in Hs. destruct Hs as [Hok1 Hg1]. rw Ht1 LOk_bind.
  destruct (rawseti_present t1 j (rawgeti t i) Hok1) as [t2 Ht2]; [rw Hg1; by case_decide|].
  pose proof (rawseti_spec t1 j (rawgeti t i) Hok1) as Hs. rw Ht2 in Hs. destruct Hs as [Hok2 Hg2].
  assert (forall k, rawgeti t2 k = rawgeti t (exchange i j k)) as Hg.
  { intros k. rw Hg2 Hg1 /exchange. repeat case_decide; congruence. }
  exists t2. split; [done|]. split; [|done]. split; [done|split].
  - intros k Hk. rw Hg. f_equal. rw /exchange. repeat case_decide; lia.
  - etrans; [|apply fmap_Permutation, (exchange_seqZ l (u - l + 1) i j); lia]. rw -list_fmap_compose /vals.
    erewrite list_fmap_ext; [reflexivity|]. intros ? k _. apply Hg.
Qed.
End cells.

(** ** Proofs: sorting *)

(** An order function that makes sense on the values [D]: it answers without error, and what it answers
    is a strict weak order. *)
Record order_on {V : Type} (D : option V -> Prop) (comp : option V -> option V -> lres bool) (ltb : option V -> option V -> bool)
    : Prop := {
  order_value a : D a -> a <> None;
  order_answer a b : D a -> D b -> comp a b = LOk (ltb a b);
  order_irrefl a : D a -> ltb a a = false;
  order_asym a b : D a -> D b -> ltb a b = true -> ltb b a = false;
  order_trans a b c : D a -> D b -> D c -> ltb b a = false -> ltb c b = false -> ltb c a = false
}.

Section sorting.
Context {V T : Type} `{!RawTable V T}.
Context (comp : option V -> option V -> lres bool) (D : option V -> Prop) (ltb : option V -> option V -> bool).
Context (Hord : order_on D comp ltb).
Implicit Types (t : T) (l u i j k : Z) (P : option V).

Abbreviation le a b := (ltb b a = false).

(** The cells hold values that can be compared. *)
Definition cells t l u : Prop := forall k, l <= k <= u -> D (rawgeti t k).
Definition in_order t l u : Prop := forall a b, l <= a <= b -> b <= u -> le (rawgeti t a) (rawgeti t b).

Lemma shuffled_cells l u t t' : shuffled l u t t' -> cells t l u -> cells t' l u.
Proof. intros Hs Hc. exact (shuffled_Forall D _ _ t t' Hs Hc). Qed.

Lemma swap_cells t l u i j : table_ok t -> cells t l u -> l <= i <= u -> l <= j <= u ->
  exists t', set2 t i j (rawgeti t j) (rawgeti t i) = LOk t' /\ shuffled l u t t' /\ cells t' l u /\
    forall k, rawgeti t' k = rawgeti t (exchange i j k).
Proof.
  intros Hok Hc Hi Hj. destruct (set2_swap t l u i j) as (t' & ? & Hs & ?); [done..|by apply (order_value _ _ _ Hord), Hc|by apply (order_value _ _ _ Hord), Hc|].
  exists t'. split_and!; [done..|by apply (shuffled_cells _ _ t)|done].
Qed.

Lemma scan_up_spec (fuel : nat) t l u i m P : cells t l u -> D P -> l <= i < m -> m <= u -> le P (rawgeti t m) -> m - i < fuel ->
  exists i', scan_up comp fuel t i u P = LOk i' /\ i < i' <= m /\ le P (rawgeti t i') /\
    forall k, i < k < i' -> le (rawgeti t k) P.
Proof.
  intros Hc HP. revert i. induction fuel as [|fuel IH] => i Hi Hm Hstop Hf; [lia|]. cbn [scan_up]. cbv zeta.
  rw (order_answer _ _ _ Hord) //; [apply Hc; lia|]. rw LOk_bind. destruct (ltb (rawgeti t (i + 1)) P) eqn:Hlt.
  - destruct (decide (i + 1 > u)); [lia|]. assert (i + 1 <> m) by congruence.
    destruct (IH (i + 1)) as (i' & -> & Hi' & Hge & Hbefore); [lia..|done|lia|]. exists i'. split_and!; [done|lia|lia|done|].
    intros k Hk. destruct (decide (k = i + 1)) as [->|]; [|apply Hbefore; lia].
    apply (order_asym _ _ _ Hord); [apply Hc; lia|done..].
  - exists (i + 1). split_and!; [done|lia|lia|done|]. lia.
Qed.

Lemma scan_down_spec (fuel : nat) t l u j P : cells t l u -> D P -> l < j <= u -> le (rawgeti t l) P -> j - l < fuel ->
  exists j', scan_down comp fuel t j l P = LOk j' /\ l <= j' < j /\ le (rawgeti t j') P /\
    forall k, j' < k < j -> le P (rawgeti t k).
Proof.
  intros Hc HP. revert j. induction fuel as [|fuel IH] => j Hj Hstop Hf; [lia|]. cbn [scan_down]. cbv zeta.
  rw (order_answer _ _ _ Hord) //; [apply Hc; lia|]. rw LOk_bind. destruct (ltb P (rawgeti t (j - 1))) eqn:Hlt.
  - destruct (decide (j - 1 < l)); [lia|]. assert (j - 1 <> l) by congruence.
    destruct (IH (j - 1)) as (j' & -> & Hj' & Hge & Hbehind); [lia|done|lia|]. exists j'. split_and!; [done|lia|lia|done|].
    intros k Hk. destruct (decide (k = j - 1)) as [->|]; [|apply Hbehind; lia].
    apply (order_asym _ _ _ Hord); [done|apply Hc; lia|done].
  - exists (j - 1). split_and!; [done|lia|lia|done|]. lia.
Qed.

(** invariant: a[l..i] <= P <= a[j..u], and P is in a[u-1] *)
Definition divided t l u i j P : Prop :=
  rawgeti t (u - 1) = P /\ (forall k, l <= k <= i -> le (rawgeti t k) P) /\ (forall k, j <= k <= u -> le P (rawgeti t k)).

Lemma partition_spec (fuel : nat) t l u i j P : table_ok t -> cells t l u -> divided t l u i j P ->
  l <= i < u - 1 -> l < j <= u - 1 -> u - i < fuel ->
  exists i' t', partition comp fuel t l u i j P = LOk (i', t') /\ shuffled l u t t' /\ l < i' <= u - 1 /\
    divided t' l u (i' - 1) i' P.
Proof.
  revert t i j. induction fuel as [|fuel IH] => t i j Hok Hc [HP [Hlow Hhigh]] Hi Hj Hf; [lia|]. cbn [partition].
  assert (D P) as HDP by (rw -HP; apply Hc; lia).
  destruct (scan_up_spec (S (S (Z.to_nat (u - i)))) t l u i (u - 1) P) as (i' & -> & Hi' & Hgei & Hbefore);
    [done..|lia|lia|rw HP; by apply (order_irrefl _ _ _ Hord)|lia|].
  rw LOk_bind. destruct (scan_down_spec (S (S (Z.to_nat (j - l)))) t l u j P) as (j' & -> & Hj' & Hlej & Hbehind);
    [done..|lia|apply Hlow; lia|lia|].
  rw LOk_bind. destruct (decide (j' < i')) as [Hlt|Hge].
  - exists i', t. split_and!; [done|by apply shuffled_refl|lia|lia|split_and!; [done|..]].
    + intros k Hk. destruct (decide (k <= i)); [apply Hlow; lia|apply Hbefore; lia].
    + intros k Hk. destruct (decide (k = i')) as [->|]; [done|]. destruct (decide (k < j)); [apply Hbehind; lia|apply Hhigh; lia].
  - destruct (swap_cells t l u i' j') as (t1 & -> & Hs1 & Hc1 & Hg1); [done..|lia|lia|]. rw LOk_bind.
    assert (forall k, i' < k < j' \/ k < i' \/ j' < k -> rawgeti t1 k = rawgeti t k) as Hsame.
    { intros k Hk. rw Hg1 /exchange. repeat case_decide; [lia..|done]. }
    assert (rawgeti t1 i' = rawgeti t j' /\ rawgeti t1 j' = rawgeti t i') as [Hgi Hgj].
    { rw !Hg1 /exchange. repeat case_decide; naive_solver congruence. }
    destruct (IH t1 i' j') as (i2 & t2 & -> & Hs2 & Hi2 & Hd2).
    + by destruct Hs1.
    + done.
    + split_and!; [rw Hsame; [lia|done]| |].
      * intros k Hk. destruct (decide (k = i')) as [->|]; [by rw Hgi|]. rw Hsame; [lia|].
        destruct (decide (k <= i)); [apply Hlow; lia|apply Hbefore; lia].
      * intros k Hk. destruct (decide (k = j')) as [->|]; [by rw Hgj|]. rw Hsame; [lia|].
        destruct (decide (k < j)); [apply Hbehind; lia|apply Hhigh; lia].
    + lia.
    + lia.
    + lia.
    + exists i2, t2. split_and!; [done|by eapply shuffled_trans|lia|lia|done].
Qed.

Lemma order_ends_spec t l u : table_ok t -> cells t l u -> l < u ->
  exists t', order_ends comp t l u = LOk t' /\ shuffled l u t t' /\ le (rawgeti t' l) (rawgeti t' u).
Proof.
  intros Hok Hc Hlu. assert (D (rawgeti t l) /\ D (rawgeti t u)) as [HDl HDu] by (split; apply Hc; lia).
  rw /order_ends (order_answer _ _ _ Hord) // LOk_bind. destruct (ltb (rawgeti t u) (rawgeti t l)) eqn:Hlt.
  - destruct (swap_cells t l u l u) as (t' & -> & Hs & _ & Hg); [done..|lia|lia|]. exists t'. split_and!; [done..|].
    rw !Hg /exchange. repeat case_decide; try lia. by apply (order_asym _ _ _ Hord).
  - exists t. split_and!; [done|by apply shuffled_refl|done].
Qed.

Lemma order_middle_spec t l i u : table_ok t -> cells t l u -> l < i < u -> le (rawgeti t l) (rawgeti t u) ->
  exists t', order_middle comp t l i u = LOk t' /\ shuffled l u t t' /\
    le (rawgeti t' l) (rawgeti t' i) /\ le (rawgeti t' i) (rawgeti t' u).
Proof.
  intros Hok Hc Hi Hle. assert (D (rawgeti t l) /\ D (rawgeti t i) /\ D (rawgeti t u)) as (HDl & HDi & HDu) by (split_and!; apply Hc; lia).
  rw /order_middle (order_answer _ _ _ Hord (rawgeti t i) (rawgeti t l)) // LOk_bind. destruct (ltb (rawgeti t i) (rawgeti t l)) eqn:Hlt.
  - destruct (swap_cells t l u i l) as (t' & -> & Hs & _ & Hg); [done..|lia|lia|]. exists t'. split_and!; [done..| |];
      rw !Hg /exchange; repeat case_decide; try lia; [by apply (order_asym _ _ _ Hord)|done].
  - rw (order_answer _ _ _ Hord) // LOk_bind. destruct (ltb (rawgeti t u) (rawgeti t i)) eqn:Hlt2.
    + destruct (swap_cells t l u i u) as (t' & -> & Hs & _ & Hg); [done..|lia|lia|]. exists t'. split_and!; [done..| |];
        rw !Hg /exchange; repeat case_decide; try lia; [done|by apply (order_asym _ _ _ Hord)].
    + exists t. split_and!; [done|by apply shuffled_refl|done..].
Qed.

Lemma pieces_in_order t l i u P : cells t l u -> l < i < u -> rawgeti t i = P -> in_order t l (i - 1) -> in_order t (i + 1) u ->
  (forall k, l <= k <= i - 1 -> le (rawgeti t k) P) -> (forall k, i + 1 <= k <= u -> le P (rawgeti t k)) -> in_order t l u.
Proof.
  intros Hc Hi HP H1 H2 Hlow Hhigh a b Hab Hb. assert (D P) as HDP by (rw -HP; apply Hc; lia).
  assert (forall k, l <= k <= i -> le (rawgeti t k) P) as Hlow'.
  { intros k Hk. destruct (decide (k = i)) as [->|]; [rw HP; by apply (order_irrefl _ _ _ Hord)|apply Hlow; lia]. }
  assert (forall k, i <= k <= u -> le P (rawgeti t k)) as Hhigh'.
  { intros k Hk. destruct (decide (k = i)) as [->|]; [rw HP; by apply (order_irrefl _ _ _ Hord)|apply Hhigh; lia]. }
  destruct (decide (b < i)); [apply H1; lia|]. destruct (decide (i < a)); [apply H2; lia|].
  apply (order_trans _ _ _ Hord _ P); [apply Hc; lia|done|apply Hc; lia|apply Hlow'; lia|apply Hhigh'; lia].
Qed.

(** What sorting a range does. *)
Definition sorted_range t l u (m : lres T) : Prop := exists t', m = LOk t' /\ shuffled l u t t' /\ in_order t' l u.

(** Sorting the two parts, in either order, when the elements are divided by the one at [i]. *)
Lemma sort_parts (rec : T -> Z -> Z -> lres T) t l i u P l1 u1 l2 u2 :
  (forall t l' u', table_ok t -> cells t l' u' -> l <= l' <= u' -> u' <= u -> u' - l' < u - l -> sorted_range t l' u' (rec t l' u')) ->
  table_ok t -> cells t l u -> l < i < u -> rawgeti t i = P ->
  (forall k, l <= k <= i - 1 -> le (rawgeti t k) P) -> (forall k, i + 1 <= k <= u -> le P (rawgeti t k)) ->
  (l1, u1, l2, u2) = (l, i - 1, i + 1, u) \/ (l1, u1, l2, u2) = (i + 1, u, l, i - 1) ->
  sorted_range t l u (t ← rec t l1 u1; rec t l2 u2).
Proof.
  intros Hrec Hok Hc Hi HP Hlow Hhigh Hcase.
  assert (l <= l1 <= u1 /\ u1 <= u /\ l <= l2 <= u2 /\ u2 <= u /\ (u1 < i /\ i < l2 \/ u2 < i /\ i < l1)) as (? & ? & ? & ? & Hdis)
    by (destruct Hcase as [Heq|Heq]; injection Heq as -> -> -> ->; lia).
  destruct (Hrec t l1 u1) as (t1 & -> & Hs1 & Ho1); [done|intros k Hk; apply Hc; lia|lia..|]. rw LOk_bind.
  assert (shuffled l u t t1) as Hw1 by (eapply shuffled_widen; [| | |exact Hs1]; lia).
  destruct (Hrec t1 l2 u2) as (t2 & -> & Hs2 & Ho2); [by destruct Hs1|intros k Hk; apply (shuffled_cells _ _ _ _ Hw1 Hc); lia|lia..|].
  assert (shuffled l u t1 t2) as Hw2 by (eapply shuffled_widen; [| | |exact Hs2]; lia).
  exists t2. split; [done|]. assert (shuffled l u t t2) as Hw by (by eapply shuffled_trans). split; [done|].
  pose proof Hs1 as (_ & Hout1 & _). pose proof Hs2 as (_ & Hout2 & _).
  assert (in_order t2 l1 u1) as Ho1' by (intros a b Ha Hb; rw !Hout2; [lia..|]; apply Ho1; lia).
  assert (forall (Q : option V -> Prop), (forall k, l1 <= k <= u1 -> Q (rawgeti t k)) -> forall k, l1 <= k <= u1 -> Q (rawgeti t2 k)) as Hq1.
  { intros Q HQ k Hk. rw Hout2; [lia|]. by apply (shuffled_Forall Q _ _ _ _ Hs1 HQ). }
  assert (forall (Q : option V -> Prop), (forall k, l2 <= k <= u2 -> Q (rawgeti t k)) -> forall k, l2 <= k <= u2 -> Q (rawgeti t2 k)) as Hq2.
  { intros Q HQ. apply (shuffled_Forall Q _ _ _ _ Hs2). intros k Hk. rw Hout1; [lia|]. by apply HQ. }
  apply (pieces_in_order t2 l i u P); [by apply (shuffled_cells _ _ _ _ Hw)|done|rw Hout2; [lia|]; rw Hout1; [lia|]; done|..];
    destruct Hcase as [Heq|Heq]; injection Heq as -> -> -> ->; try done.
  - by apply (Hq1 (fun v => le v P)).
  - by apply (Hq2 (fun v => le v P)).
  - by apply (Hq2 (fun v => le P v)).
  - by apply (Hq1 (fun v => le P v)).
Qed.

Lemma divide_spec t l i u : table_ok t -> cells t l u -> l < i < u -> u - l > 2 ->
  le (rawgeti t l) (rawgeti t i) -> le (rawgeti t i) (rawgeti t u) ->
  exists i' t', divide comp t l i u = LOk (i', t') /\ shuffled l u t t' /\ l < i' < u /\
    (forall k, l <= k <= i' - 1 -> le (rawgeti t' k) (rawgeti t' i')) /\
    (forall k, i' + 1 <= k <= u -> le (rawgeti t' i') (rawgeti t' k)).
Proof.
  intros Hok Hc Hi Hlu Hle Hle'. rw /divide. cbv zeta.
  destruct (swap_cells t l u i (u - 1)) as (t3 & -> & Hs3 & Hc3 & Hg3); [done..|lia|lia|]. rw LOk_bind. pose proof Hs3 as (Hok3 & _).
  set (P := rawgeti t i) in *. assert (forall k, k = l \/ k = u -> rawgeti t3 k = rawgeti t k) as Hsame by (intros k Hk; rw Hg3 /exchange; repeat case_decide; [lia..|done]).
  assert (rawgeti t3 (u - 1) = P) as HP3 by (rw Hg3 /exchange; repeat case_decide; rw /P; congruence).
  destruct (partition_spec (S (Z.to_nat (u - l))) t3 l u l (u - 1) P) as (i' & t4 & -> & Hs4 & Hi' & (HP4 & Hlow & Hhigh)); [done..| |lia|lia|lia|].
  { split_and!; [done| |].
    - intros k Hk. replace k with l by lia. rw Hsame; [by left|done].
    - intros k Hk. destruct (decide (k = u)) as [->|]; [rw Hsame; [by right|done]|].
      replace k with (u - 1) by lia. rw HP3. apply (order_irrefl _ _ _ Hord), Hc. lia. }
  rw LOk_bind. assert (cells t4 l u) as Hc4 by (by apply (shuffled_cells _ _ t3)). pose proof Hs4 as (Hok4 & _).
  destruct (swap_cells t4 l u (u - 1) i') as (t5 & -> & Hs5 & _ & Hg5); [done..|lia|lia|]. rw LOk_bind.
  exists i', t5. split; [done|]. split; [by eapply shuffled_trans; [|eapply shuffled_trans]|]. split; [lia|].
  assert (rawgeti t5 i' = P) as -> by (rw Hg5 /exchange; repeat case_decide; congruence).
  split; intros k Hk; rw Hg5 /exchange; repeat case_decide; try lia; [apply Hlow|apply Hhigh|apply Hhigh]; lia.
Qed.

Lemma in_order_one t k : D (rawgeti t k) -> in_order t k k.
Proof. intros HD a b Ha Hb. replace a with k by lia. replace b with k by lia. by apply (order_irrefl _ _ _ Hord). Qed.

Lemma auxsort_spec (fuel : nat) t l u : table_ok t -> cells t l u -> 1 <= l -> 2 * u <= int_max -> Z.max 0 (u - l) < fuel ->
  sorted_range t l u (auxsort comp fuel t l u).
Proof.
  revert t l u. induction fuel as [|fuel IH] => t l u Hok Hc Hl Hu Hf; [lia|]. cbn [auxsort].
  destruct (decide (l < u)) as [Hlu|].
  2: { exists t. split_and!; [done|by apply shuffled_refl|]. intros a b Ha Hb. replace b with a by lia.
       apply (order_irrefl _ _ _ Hord), Hc. lia. }
  destruct (order_ends_spec t l u Hok Hc Hlu) as (t1 & -> & Hs1 & Hle1). rw LOk_bind.
  assert (cells t1 l u) as Hc1 by (by apply (shuffled_cells _ _ t)). pose proof Hs1 as (Hok1 & _).
  destruct (decide (u - l = 1)) as [H1|H1].
  { exists t1. split_and!; [done..|]. intros a b Ha Hb. destruct (decide (a = b)) as [->|].
    - apply (order_irrefl _ _ _ Hord), Hc1. lia.
    - replace a with l by lia. by replace b with u by lia. }
  rw /int_add. destruct (decide (int_min <= l + u <= int_max)) as [_|[]]; [|rw /int_min; lia]. rw LOk_bind. cbv zeta. rw Z.quot_div_nonneg; [lia..|].
  assert (l < (l + u) / 2 < u) as Hmid.
  { pose proof (Z.div_mod (l + u) 2 ltac:(lia)). pose proof (Z.mod_pos_bound (l + u) 2 ltac:(lia)). lia. }
  set (i := (l + u) / 2) in *. clearbody i.
  destruct (order_middle_spec t1 l i u Hok1 Hc1 Hmid Hle1) as (t2 & -> & Hs2 & Hle2 & Hle2'). rw LOk_bind.
  assert (cells t2 l u) as Hc2 by (by apply (shuffled_cells _ _ t1)). pose proof Hs2 as (Hok2 & _).
  assert (shuffled l u t t2) as Hst2 by (by eapply shuffled_trans).
  destruct (decide (u - l = 2)) as [H2|H2].
  { exists t2. split_and!; [done..|]. apply (pieces_in_order t2 l i u (rawgeti t2 i)); [done..| | | |].
    - replace (i - 1) with l by lia. apply in_order_one, Hc2. lia.
    - replace (i + 1) with u by lia. apply in_order_one, Hc2. lia.
    - intros k Hk. by replace k with l by lia.
    - intros k Hk. by replace k with u by lia. }
  destruct (divide_spec t2 l i u) as (i' & t3 & -> & Hs3 & Hi' & Hlow & Hhigh); [done..|lia|done|done|]. rw LOk_bind.
  assert (cells t3 l u) as Hc3 by (by apply (shuffled_cells _ _ t2)). pose proof Hs3 as (Hok3 & _).
  assert (forall l1 u1 l2 u2, (l1, u1, l2, u2) = (l, i' - 1, i' + 1, u) \/ (l1, u1, l2, u2) = (i' + 1, u, l, i' - 1) ->
    sorted_range t l u (t ← auxsort comp fuel t3 l1 u1; auxsort comp fuel t l2 u2)) as Hparts.
  { intros l1 u1 l2 u2 Hcase. destruct (sort_parts (auxsort comp fuel) t3 l i' u (rawgeti t3 i') l1 u1 l2 u2) as (t4 & ? & ? & ?); [|done..|].
    - intros t' l' u' ? ? ? ? ?. by apply IH; try lia.
    - exists t4. split_and!; [done|eapply shuffled_trans; [exact Hst2|by eapply shuffled_trans]|done]. }
  destruct (decide _); apply Hparts; [by left|by right].
Qed.
End sorting.

(** C36: table.sort sorts. With an order function that answers without errors as a strict weak order on
    the elements, on any table with the promised behaviour, it ends without an error and without
    overflow, for arrays below 2^30 elements; the elements are a permutation of the ones before, each
    is not less than those in front of it, and no other key has changed. *)
Theorem sort_sorts {V T : Type} `{!RawTable V T} (comp : option V -> option V -> lres bool) (D : option V -> Prop)
    (ltb : option V -> option V -> bool) (used : Z) (t : T) (n : Z) :
  order_on D comp ltb -> table_ok t -> (forall k, 1 <= k <= n -> D (rawgeti t k)) -> used + 40 <= LUAI_MAXCSTACK -> 2 * n <= int_max ->
  exists t', sort comp used t n = LOk t' /\ vals t' 1 n ≡ₚ vals t 1 n /\
    (forall a b, 1 <= a <= b -> b <= n -> ltb (rawgeti t' b) (rawgeti t' a) = false) /\
    (forall k, ~ 1 <= k <= n -> rawgeti t' k = rawgeti t k).
Proof.
  intros Hord Hok Hc Hused Hn. rw /sort /luaL_checkstack /lua_checkstack. change LUAI_MAXCSTACK with 32767 in *.
  rw bool_decide_false; [lia|]. simpl negb. cbv iota. change (LOk ()) with (mret (M := lres) ()).
  destruct (auxsort_spec comp D ltb Hord (S (Z.to_nat n)) t 1 n) as (t' & Heq & (_ & Ho & Hp) & Hs); [done..|lia|].
  exists t'. split_and!; [exact Heq|done..].
Qed.

Definition is_num (v : option Z) : Prop := v <> None.
Definition less_b (a b : option Z) : bool := match a, b with Some a, Some b => bool_decide (a < b) | _, _ => false end.

Lemma less_order : order_on is_num less less_b.
Proof.
  split; rw /is_num /less_b.
  - done.
  - intros [a|] [b|] ? ?; done.
  - intros [a|] ?; [|done]. apply bool_decide_eq_false. lia.
  - intros [a|] [b|] ? ?; try done. rw bool_decide_eq_true bool_decide_eq_false. lia.
  - intros [a|] [b|] [c|] ? ? ?; try done. rw !bool_decide_eq_false. lia.
Qed.

Lemma sort_sorts_witness :
  exists t', sort less 2 (table_of [5; 2; 8; 1; 9; 2; 7]) 7 = LOk t' /\ vals t' 1 7 ≡ₚ vals (table_of [5; 2; 8; 1; 9; 2; 7]) 1 7 /\
    (forall a b, 1 <= a <= b -> b <= 7 -> less_b (rawgeti t' b) (rawgeti t' a) = false) /\
    (forall k, ~ 1 <= k <= 7 -> rawgeti t' k = rawgeti (table_of [5; 2; 8; 1; 9; 2; 7]) k).
Proof.
  apply (sort_sorts less is_num less_b 2 (table_of [5; 2; 8; 1; 9; 2; 7]) 7).
  - apply less_order.
  - exact I.
  - apply (vals_Forall is_num (table_of [5; 2; 8; 1; 9; 2; 7]) 1 7). vm_compute. repeat constructor; discriminate.
  - discriminate.
  - discriminate.
Defined.

(** With an order function that is not an order the test for it comes one element too late: it accepts
    that the element behind the last one is not less than the pivot, and exchanges the two. This call
    moves an element to the key 5 of a table of length 4 and leaves nil at the key 2, without an error. *)
Theorem sort_leaves_range :
  let comp (a b : option Z) := LOk (bool_decide (a = Some 1 /\ b = Some 1)) in
  let t := table_of [2; 1; 2; 1] in
  exists t', sort comp 2 t 4 = LOk t' /\ vals t 1 5 = [Some 2; Some 1; Some 2; Some 1; None] /\
    vals t' 1 5 = [Some 2; None; Some 2; Some 1; Some 1].
Proof. vm_compute. eexists. split_and!; reflexivity. Qed.

(** ** Proofs: insertion, removal, concatenation *)

Section arrays.
Context {V T : Type} `{!RawTable V T}.
Implicit Types (t : T).

Lemma move_up_safe (fuel : nat) t i pos : table_ok t -> Z.max 0 (i - pos) < fuel ->
  lsafe (move_up fuel t i pos) (fun t' => table_ok t' /\
    forall k, rawgeti t' k = if decide (pos < k <= i) then rawgeti t (k - 1) else rawgeti t k).
Proof.
  revert t i. induction fuel as [|fuel IH] => t i Hok Hf; [lia|]. cbn [move_up]. destruct (decide (i > pos)).
  - eapply lsafe_then; [by apply rawseti_spec|]. intros t1 [Hok1 Hg1]. eapply lsafe_mono; [|apply IH; [done|lia]].
    intros t2 [Hok2 Hg2]. split; [done|]. intros k. rw Hg2 !Hg1. repeat case_decide; try lia; congruence.
  - split; [done|]. intros k. case_decide; [lia|done].
Qed.

Lemma move_down_safe (fuel : nat) t pos e : table_ok t -> Z.max 0 (e - pos) < fuel ->
  lsafe (move_down fuel t pos e) (fun t' => table_ok t' /\
    forall k, rawgeti t' k = if decide (pos <= k < e) then rawgeti t (k + 1) else rawgeti t k).
Proof.
  revert t pos. induction fuel as [|fuel IH] => t pos Hok Hf; [lia|]. cbn [move_down]. destruct (decide (pos < e)).
  - eapply lsafe_then; [by apply rawseti_spec|]. intros t1 [Hok1 Hg1]. eapply lsafe_mono; [|apply IH; [done|lia]].
    intros t2 [Hok2 Hg2]. split; [done|]. intros k. rw Hg2 !Hg1. repeat case_decide; try lia; congruence.
  - split; [done|]. intros k. case_decide; [lia|done].
Qed.

(** table.insert at a position within the array makes room there and puts the value into it, and
    table.remove at that position takes it out again and restores the array. Either may raise the error
    of a table that cannot grow. *)
Theorem insert_remove t (n pos : Z) (v : option V) :
  table_ok t -> 1 <= pos <= n + 1 -> n < int_max ->
  lsafe (tinsert t n (Some pos) v) (fun t1 =>
    (forall k, rawgeti t1 k = if decide (k = pos) then v else if decide (pos < k <= n + 1) then rawgeti t (k - 1) else rawgeti t k) /\
    lsafe (tremove t1 (n + 1) (Some pos)) (fun rt =>
      rt.1 = Some v /\ forall k, rawgeti rt.2 k = if decide (k = n + 1) then None else rawgeti t k)).
Proof.
  intros Hok Hpos Hn. rw /tinsert /int_add. destruct (decide (int_min <= n + 1 <= int_max)) as [_|[]]; [|rw /int_min; lia].
  rw LOk_bind. cbv zeta. destruct (decide (pos > n + 1)); [lia|].
  eapply lsafe_then; [apply move_up_safe; [done|lia]|]. intros t1 [Hok1 Hg1].
  eapply lsafe_mono; [|by apply rawseti_spec]. intros t2 [Hok2 Hg2].
  assert (forall k, rawgeti t2 k = if decide (k = pos) then v else if decide (pos < k <= n + 1) then rawgeti t (k - 1) else rawgeti t k) as Hg.
  { intros k. by rw Hg2 Hg1. }
  split; [done|]. rw /tremove. cbv zeta. change (default (n + 1) (Some pos)) with pos. destruct (decide (1 <= pos <= n + 1)); [|lia].
  eapply lsafe_then; [apply move_down_safe; [done|lia]|]. intros t3 [Hok3 Hg3].
  eapply lsafe_then; [by apply rawseti_spec|]. intros t4 [_ Hg4]. simpl. split; [rw Hg; by case_decide|].
  intros k. rw Hg4 Hg3 !Hg. repeat case_decide; try lia; f_equal; lia.
Qed.

(** The strings with the separator between them. *)
Fixpoint joined (sep : list Z) (ss : list (list Z)) : list Z :=
  match ss with
  | [] => []
  | [s] => s
  | s :: ss => s ++ sep ++ joined sep ss
  end.

(** table.concat joins the strings of a range, and of the first value that is not one it says the index. *)
Theorem concat_joins (tolstring : V -> option (list Z)) (typename : option V -> cstring) t (sep : list Z) (i last : Z) :
  (forall ss, (fun k => rawgeti t k ≫= tolstring) <$> seqZ i (last - i + 1) = Some <$> ss ->
    tconcat tolstring typename t sep i last = LOk (joined sep ss)) /\
  (forall k, i <= k <= last -> (forall j, i <= j < k -> rawgeti t j ≫= tolstring <> None) -> rawgeti t k ≫= tolstring = None ->
    tconcat tolstring typename t sep i last =
      LError (lit "invalid value (" ++ typename (rawgeti t k) ++ lit ") at index " ++ fmt_d k ++ lit " in table for 'concat'")).
Proof.
  rw /tconcat. split.
  - intros ss. assert (forall (fuel : nat) j ss b, Z.max 0 (last - j) < fuel ->
      (fun k => rawgeti t k ≫= tolstring) <$> seqZ j (last - j + 1) = Some <$> ss ->
      concat_loop tolstring typename fuel t sep j last b = LOk (b ++ joined sep ss)) as Hloop;
      [|intros Hss; apply (Hloop _ i ss []); [lia|done]].
    clear ss. induction fuel as [|fuel IH] => j ss b Hf Hss; [lia|]. cbn [concat_loop].
    destruct (decide (j <= last)).
    2: { destruct (decide (j < last)); [lia|]. destruct (decide (j = last)); [lia|].
         rw seqZ_nil in Hss; [lia|]. destruct ss; [|done]. by rw app_nil_r. }
    rw seqZ_cons in Hss; [lia|]. destruct ss as [|s ss]; [done|]. injection Hss as Hs Hss.
    replace (Z.succ j) with (j + 1) in Hss by lia. replace (Z.pred (last - j + 1)) with (last - (j + 1) + 1) in Hss by lia.
    rw /addfield Hs. destruct (decide (j < last)).
    + rw LOk_bind (IH _ ss); [lia|done|]. destruct ss as [|s' ss]; [|by rw /= -!app_assoc].
      rw seqZ_cons in Hss; [lia|done].
    + destruct (decide (j = last)); [|lia]. rw seqZ_nil in Hss; [lia|]. by destruct ss.
  - intros k Hk Hbefore Hnone.
    assert (forall (fuel : nat) j b, i <= j <= k -> Z.max 0 (last - j) < fuel -> concat_loop tolstring typename fuel t sep j last b =
      LError (lit "invalid value (" ++ typename (rawgeti t k) ++ lit ") at index " ++ fmt_d k ++ lit " in table for 'concat'")) as Hloop;
      [|apply Hloop; lia].
    induction fuel as [|fuel IH] => j b Hj Hf; [lia|]. cbn [concat_loop]. rw /addfield.
    destruct (decide (j = k)) as [->|].
    + rw Hnone. destruct (decide (k < last)); [done|]. by destruct (decide (k = last)); [|lia].
    + destruct (decide (j < last)); [|lia]. destruct (rawgeti t j ≫= tolstring) as [s|] eqn:Hs; [|by destruct (Hbefore j ltac:(lia))].
      rw LOk_bind. apply IH; lia.
Qed.
End arrays.
