(* ===== verification/LuaNumber.v ===== *)
(** LuaNumber: numbers and keys of tables, as src/liblua/src/ltable.c sees them.

    A [lua_Number] is a double: its sign, mantissa and exponent, in the one form that binary64
    has for it. Objects are known by their addresses. What the conversion of a number outside
    the range of [int] gives is not defined by C and depends on the machine ([wild_int]); so
    do the hashes of strings, which lstring.c computes ([strhash]). *)

From Corelib Require Import ssreflect.
From stdpp Require Import base list numbers strings.
From Stdlib Require Import ZArith Lia.
From S2P Require Import Prelude LuaObject.

(** ** Numbers *)

Inductive number :=
| NNaN
| NInf (s : bool)
| NZero (s : bool)
| NFin (s : bool) (m : positive) (e : Z).

#[export] Instance number_eq_dec : EqDecision number.
Proof. solve_decision. Defined.

(** The mantissas and exponents of binary64: normal and subnormal numbers. *)
Definition fin_ok (m : positive) (e : Z) : bool :=
  bool_decide (2 ^ 52 <= Zpos m < 2 ^ 53 /\ -1074 <= e <= 971 \/ Zpos m < 2 ^ 52 /\ e = -1074).
Definition num_ok (n : number) : bool := match n with NFin _ m e => fin_ok m e | _ => true end.

(** [a == b] *)
Definition luai_numeq (a b : number) : bool :=
  match a, b with
  | NNaN, _ | _, NNaN => false
  | NZero _, NZero _ => true
  | _, _ => bool_decide (a = b)
  end.
Definition luai_numisnan (a : number) : bool := negb (luai_numeq a a).

(** [(lua_Number)k] of an [int] *)
Definition cast_num (k : Z) : number :=
  match k with
  | Z0 => NZero false
  | Zpos p => NFin false (Z.to_pos (Zpos p * 2 ^ (52 - Z.log2 (Zpos p)))) (Z.log2 (Zpos p) - 52)
  | Zneg p => NFin true (Z.to_pos (Zpos p * 2 ^ (52 - Z.log2 (Zpos p)))) (Z.log2 (Zpos p) - 52)
  end.

(** The integer part, towards zero. *)
Definition trunc (s : bool) (m : positive) (e : Z) : Z :=
  let z := if decide (0 <= e) then Zpos m * 2 ^ e else Zpos m / 2 ^ (- e) in
  if s then - z else z.

(** The bits of the representation. *)
Definition num_bits (n : number) : Z :=
  let sign (s : bool) := if s then 2 ^ 63 else 0 in
  match n with
  | NNaN => 2047 * 2 ^ 52 + 2 ^ 51
  | NInf s => sign s + 2047 * 2 ^ 52
  | NZero s => sign s
  | NFin s m e => if decide (2 ^ 52 <= Zpos m) then sign s + (e + 1075) * 2 ^ 52 + (Zpos m - 2 ^ 52) else sign s + Zpos m
  end.

(** ** Keys *)

(** A string, a light userdata, or another object with its type, by address. *)
Inductive tkey :=
| TNil
| TBool (b : bool)
| TNum (n : number)
| TStr (p : Z)
| TLight (p : Z)
| TObj (tt : Z) (p : Z).

#[export] Instance tkey_eq_dec : EqDecision tkey.
Proof. solve_decision. Defined.

(** Hashes are [unsigned int], and the conversion gives some [int]. *)
Class LuaEnv := {
  strhash : Z -> Z;
  wild_int : number -> Z;
  wild_int_range (n : number) : int_min <= wild_int n <= int_max
}.

Definition luaO_rawequalObj (a b : tkey) : bool :=
  match a, b with
  | TNil, TNil => true
  | TNum a, TNum b => luai_numeq a b
  | TBool a, TBool b => bool_decide (a = b)
  | TLight a, TLight b => bool_decide (a = b)
  | TStr a, TStr b => bool_decide (a = b)
  | TObj ta a, TObj tb b => bool_decide (ta = tb /\ a = b)
  | _, _ => false
  end.

Section env.
Context `{LuaEnv}.

(** [(int)d] *)
Definition lua_number2int (n : number) : Z :=
  match n with
  | NZero _ => 0
  | NFin s m e => if decide (int_min <= trunc s m e <= int_max) then trunc s m e else wild_int n
  | _ => wild_int n
  end.

Definition arrayindex (key : tkey) : Z :=
  match key with
  | TNum n => if luai_numeq (cast_num (lua_number2int n)) n then lua_number2int n else -1
  | _ => -1
  end.
End env.

(** ** Equal keys *)

(** The two zeros are one key. *)
Definition kid (k : tkey) : tkey := match k with TNum (NZero _) => TNum (NZero false) | _ => k end.

(** A key that can be stored: not nil, not a NaN, and a double. *)
Definition key_ok (k : tkey) : bool :=
  match k with
  | TNil => false
  | TNum NNaN => false
  | TNum n => num_ok n
  | _ => true
  end.

Lemma rawequal_kid a b : key_ok a = true -> key_ok b = true -> luaO_rawequalObj a b = bool_decide (kid a = kid b).
Proof.
  assert (forall P Q : Prop, (P <-> Q) -> forall (HP : Decision P) (HQ : Decision Q), bool_decide P = bool_decide Q) as Hext.
  { intros P Q HPQ HP HQ. by apply bool_decide_ext. }
  destruct a as [|x|[|x|x|x m e]|x|x|x p], b as [|y|[|y|y|y m' e']|y|y|y p']; simpl; intros ? ?; try done;
    try (symmetry; by apply bool_decide_false); apply Hext; naive_solver.
Qed.

Lemma rawequal_nil k : key_ok k = true -> luaO_rawequalObj TNil k = false.
Proof. by destruct k. Qed.

(** *** Integers *)

Lemma cast_num_parts (p : positive) : Zpos p < 2 ^ 53 ->
  let m := Z.to_pos (Zpos p * 2 ^ (52 - Z.log2 (Zpos p))) in
  let e := Z.log2 (Zpos p) - 52 in
  Zpos m = Zpos p * 2 ^ (52 - Z.log2 (Zpos p)) /\ 2 ^ 52 <= Zpos m < 2 ^ 53 /\ -52 <= e <= 0 /\ Zpos m = Zpos p * 2 ^ (- e).
Proof.
  intros Hp m e. pose proof (Z.log2_spec (Zpos p) ltac:(lia)) as Hl. pose proof (Z.log2_nonneg (Zpos p)).
  assert (Z.log2 (Zpos p) <= 52) by (assert (Z.log2 (Zpos p) < 53); [apply Z.log2_lt_pow2; lia|lia]).
  assert (0 < 2 ^ (52 - Z.log2 (Zpos p))) by (apply Z.pow_pos_nonneg; lia).
  assert (Zpos m = Zpos p * 2 ^ (52 - Z.log2 (Zpos p))) as Hm by (rw /m Z2Pos.id; [apply Z.mul_pos_pos; lia|done]).
  split; [done|]. split; [|split; [rw /e; lia|rw Hm /e; f_equal; f_equal; lia]].
  rw Hm. set (l := Z.log2 (Zpos p)) in *. set (d := 52 - l) in *.
  assert (2 ^ 52 = 2 ^ l * 2 ^ d) as -> by (rw -Z.pow_add_r; [lia..|]; f_equal; lia).
  assert (2 ^ 53 = 2 ^ Z.succ l * 2 ^ d) as -> by (rw -Z.pow_add_r; [lia..|]; f_equal; lia). nia.
Qed.

Section integers.
Context `{LuaEnv}.

Lemma trunc_cast s (p : positive) : Zpos p < 2 ^ 53 ->
  trunc s (Z.to_pos (Zpos p * 2 ^ (52 - Z.log2 (Zpos p)))) (Z.log2 (Zpos p) - 52) = if s then Zneg p else Zpos p.
Proof.
  intros Hp. destruct (cast_num_parts p Hp) as (_ & Hr & He & Hm). set (m := Z.to_pos _) in *. set (e := _ - 52) in *.
  rw /trunc. assert (0 < 2 ^ (- e)) by (apply Z.pow_pos_nonneg; lia).
  assert ((if decide (0 <= e) then Zpos m * 2 ^ e else Zpos m / 2 ^ (- e)) = Zpos p) as ->; [|by destruct s].
  rw Hm. destruct (decide (0 <= e)); [|by apply Z.div_mul; lia]. replace e with 0 by lia. lia.
Qed.

Lemma number2int_cast k : int_min <= k <= int_max -> lua_number2int (cast_num k) = k.
Proof.
  rw /int_min /int_max => Hk. destruct k as [|p|p]; [done|..]; rw /cast_num /lua_number2int trunc_cast; try lia;
    by rw decide_True.
Qed.

Lemma cast_num_ok k : int_min <= k <= int_max -> num_ok (cast_num k) = true /\ cast_num k <> NNaN.
Proof.
  rw /int_min /int_max => Hk. destruct k as [|p|p]; [done|..]; split; try done; apply bool_decide_eq_true;
    destruct (cast_num_parts p) as (_ & Hr & He & _); lia.
Qed.

Lemma numeq_eq a b : luai_numeq a b = true -> kid (TNum a) = kid (TNum b).
Proof. destruct a, b; simpl; try done; intros ?%bool_decide_eq_true; congruence. Qed.

Lemma numeq_refl a : a <> NNaN -> luai_numeq a a = true.
Proof. destruct a; try done; intros _; by apply bool_decide_eq_true. Qed.

Lemma number2int_kid a b : kid (TNum a) = kid (TNum b) -> lua_number2int a = lua_number2int b.
Proof. destruct a, b; cbn [kid]; intros Heq; simplify_eq; done. Qed.

Lemma cast_num_inj j k : int_min <= j <= int_max -> int_min <= k <= int_max ->
  kid (TNum (cast_num j)) = kid (TNum (cast_num k)) -> j = k.
Proof.
  intros Hj Hk Heq. rw -(number2int_cast j) // -(number2int_cast k) //.
  by apply number2int_kid.
Qed.

(** An array index is the integer that the key is equal to. *)
Lemma arrayindex_cast k : int_min <= k <= int_max -> arrayindex (TNum (cast_num k)) = k.
Proof. intros Hk. rw /arrayindex number2int_cast // numeq_refl //. by apply cast_num_ok. Qed.

Lemma arrayindex_kid a b : key_ok a = true -> key_ok b = true -> kid a = kid b -> arrayindex a = arrayindex b.
Proof.
  destruct a as [| |[| | |]| | |], b as [| |[| | |]| | |]; simpl; intros ? ? Heq; simplify_eq; try done.
Qed.

Lemma number2int_range n : int_min <= lua_number2int n <= int_max.
Proof.
  destruct n as [|s|s|s m e]; simpl; try apply wild_int_range; [rw /int_min /int_max; lia|].
  destruct (decide _); [done|apply wild_int_range].
Qed.

Lemma arrayindex_range k : int_min <= arrayindex k <= int_max.
Proof.
  destruct k; simpl; try (rw /int_min /int_max; lia). destruct (luai_numeq _ _); [apply number2int_range|].
  rw /int_min /int_max; lia.
Qed.

(** A key that is an array index is that number. *)
Lemma arrayindex_eq k : arrayindex k <> -1 -> kid k = kid (TNum (cast_num (arrayindex k))).
Proof. destruct k as [| |n| | |]; cbn [arrayindex]; try done. destruct (luai_numeq _ _) eqn:E; [|done]. by rw -(numeq_eq _ _ E). Qed.

Lemma arrayindex_inj a b : arrayindex a <> -1 -> arrayindex a = arrayindex b -> kid a = kid b.
Proof. intros Ha Hab. rw (arrayindex_eq a) // (arrayindex_eq b) -?Hab //. Qed.
End integers.

(** An environment for concrete runs. *)
#[program] Definition plain_env : LuaEnv := {| strhash := fun p => p mod 2 ^ 32; wild_int := fun _ => int_min |}.
Next Obligation. intros n. rw /int_min /int_max /=. lia. Qed.
