(* ===== verification/LuaTable.v ===== *)
(** LuaTable: the tables of Lua, src/liblua/src/ltable.c: an array part and a hash part, which
    is a chained scatter table with Brent's variation.

    Nodes are known by their index in the node vector. The values have any type; nil is None.
    A pointer to a value, as luaH_get() and luaH_set() return it, is a [slot]: the constant
    luaO_nilobject, an element of the array part, or the value of a node. The static node that
    all tables without a hash part share is the one node of a table with [isdummy]; a store to
    it is a fault. The functions newkey(), rehash(), resize() and luaH_set() call each other:
    [newkey] has the depth of the calls as its fuel. Counts of elements stay below 2^28, so
    they are integers without bounds. Keys die only in the garbage collector, which is not
    modelled; nor are the flags and the metatable, which these functions do not read. *)

From Corelib Require Import ssreflect.
From stdpp Require Import base list numbers strings.
From Stdlib Require Import ZArith Lia.
From S2P Require Import Prelude LuaObject LuaNumber.

(** ** The data *)

Section data.
Context {V : Type}.

Record Node := mkNode { gval : option V; gkey : tkey; gnext : option nat }.

Record Table := mkTable {
  array : list (option V);
  lsizenode : Z;
  node : list Node;
  isdummy : bool;
  lastfree : Z
}.
End data.
Arguments Node V : clear implicits.
Arguments Table V : clear implicits.

Inductive slot :=
| SNilObject
| SArray (i : nat)
| SNode (i : nat).

#[export] Instance slot_eq_dec : EqDecision slot.
Proof. solve_decision. Defined.

Definition MAXBITS : Z := 26.
Definition MAXASIZE : Z := Z.shiftl 1 MAXBITS.

Definition twoto (x : Z) : Z := Z.shiftl 1 x.
Definition lmod (s size : Z) : Z := Z.land s (size - 1).
Definition lift {A} (c : res A) : lres A := match c with Ok a => LOk a | Err f => LFault f end.
(** The argument of luaO_log2() is an [unsigned int]. *)
Definition ceillog2 (x : Z) : lres Z := r ← lift (luaO_log2 ((x - 1) mod 2 ^ 32)); LOk (r + 1).

Definition is_nil {A} (o : option A) : bool := match o with None => true | Some _ => false end.
Definition key_nil (k : tkey) : bool := match k with TNil => true | _ => false end.

Section table.
Context `{LuaEnv} {V : Type}.
Implicit Types t : Table V.

Definition sizenode t : Z := twoto (lsizenode t).
Definition sizearray t : Z := length (array t).
Definition gnode t (i : nat) : lres (Node V) := match node t !! i with Some n => LOk n | None => LFault OutOfBounds end.

Definition dummynode_ : Node V := mkNode None TNil None.

(** ** Hashing *)

Definition hashpow2 t (n : Z) : nat := Z.to_nat (lmod n (sizenode t)).
Definition hashstr t (str : Z) : nat := hashpow2 t (strhash str).
Definition hashboolean t (p : bool) : nat := hashpow2 t (if p then 1 else 0).
(** The remainder is of [unsigned int]. *)
Definition hashmod t (n : Z) : nat := Z.to_nat (n mod Z.lor (sizenode t - 1) 1).
Definition hashpointer t (p : Z) : nat := hashmod t (p mod 2 ^ 32).

(** A number is two [unsigned int]; they are added up. *)
Definition hashnum t (n : number) : nat :=
  if luai_numeq n (NZero false) then 0%nat
  else
    let a0 := num_bits n mod 2 ^ 32 in
    let a1 := num_bits n / 2 ^ 32 in
    hashmod t ((a0 + a1) mod 2 ^ 32).

(** The pointer that a nil has is null: only dummies and nodes without a value have that key. *)
Definition mainposition t (key : tkey) : nat :=
  match key with
  | TNum n => hashnum t n
  | TStr p => hashstr t p
  | TBool b => hashboolean t b
  | TLight p => hashpointer t p
  | TObj _ p => hashpointer t p
  | TNil => hashpointer t 0
  end.

(** ** Searching *)

(** The loops [do { ... n = gnext(n); } while (n)] over the chain of a node. *)
Fixpoint chain_find (fuel : nat) (found : tkey -> bool) t (n : nat) : lres (option nat) :=
  match fuel with
  | O => LFault OutOfFuel
  | S fuel =>
      nd ← gnode t n;
      if found (gkey nd) then LOk (Some n)
      else match gnext nd with
           | Some n => chain_find fuel found t n
           | None => LOk None
           end
  end.
Definition chain_slot (found : tkey -> bool) t (n : nat) : lres slot :=
  r ← chain_find (S (length (node t))) found t n;
  LOk (match r with Some i => SNode i | None => SNilObject end).

(** The difference [key-1] is an [int], and is compared as [unsigned int]. *)
Definition luaH_getnum t (key : Z) : lres slot :=
  if decide (int_min <= key - 1) then
    if decide ((key - 1) mod 2 ^ 32 < sizearray t) then LOk (SArray (Z.to_nat (key - 1)))
    else
      let nk := cast_num key in
      chain_slot (fun k => match k with TNum n => luai_numeq n nk | _ => false end) t (hashnum t nk)
  else LFault SignedOverflow.

Definition luaH_getstr t (key : Z) : lres slot :=
  chain_slot (fun k => match k with TStr p => bool_decide (p = key) | _ => false end) t (hashstr t key).

Definition luaH_get t (key : tkey) : lres slot :=
  let generic := chain_slot (fun k => luaO_rawequalObj k key) t (mainposition t key) in
  match key with
  | TNil => LOk SNilObject
  | TStr p => luaH_getstr t p
  | TNum n =>
      let k := lua_number2int n in
      if luai_numeq (cast_num k) n then luaH_getnum t k else generic
  | _ => generic
  end.

(** ** Values behind pointers *)

Definition slot_get t (s : slot) : option V :=
  match s with
  | SNilObject => None
  | SArray i => default None (array t !! i)
  | SNode i => n ← node t !! i; gval n
  end.

Definition with_array t a : Table V := mkTable a (lsizenode t) (node t) (isdummy t) (lastfree t).
Definition with_lastfree t l : Table V := mkTable (array t) (lsizenode t) (node t) (isdummy t) l.

(** A store to the node at an index. *)
Definition put_node t (i : nat) (n : Node V) : lres (Table V) :=
  if isdummy t then LFault StaticClobber
  else if decide (i < length (node t)) then LOk (mkTable (array t) (lsizenode t) (<[i := n]> (node t)) (isdummy t) (lastfree t))
  else LFault OutOfBounds.

(** [setobj2t(L, slot, v)] *)
Definition slot_put t (s : slot) (v : option V) : lres (Table V) :=
  match s with
  | SNilObject => LFault StaticClobber
  | SArray i =>
      if decide (i < length (array t)) then LOk (with_array t (<[i := v]> (array t))) else LFault OutOfBounds
  | SNode i => n ← gnode t i; put_node t i (mkNode v (gkey n) (gnext n))
  end.

(** ** Sizes *)

Definition setarrayvector t (size : Z) : Table V :=
  with_array t (take (Z.to_nat size) (array t) ++ replicate (Z.to_nat size - length (array t)) None).

Definition setnodevector t (size : Z) : lres (Table V) :=
  if decide (size = 0) then LOk (mkTable (array t) 0 [dummynode_] true 0)
  else
    lsize ← ceillog2 size;
    if decide (lsize > MAXBITS) then LError (lit "table overflow")
    else
      let size := twoto lsize in
      LOk (mkTable (array t) lsize (replicate (Z.to_nat size) (mkNode None TNil None)) false size).

Definition luaH_new (narray nhash : Z) : lres (Table V) :=
  let t := mkTable [] 0 [dummynode_] true 0 in
  setnodevector (setarrayvector t narray) nhash.

(** *** Counting *)

(** [nums[lg] += c] *)
Definition nums_add (nums : list Z) (lg c : Z) : lres (list Z) :=
  match nums !! Z.to_nat lg with
  | Some v => LOk (<[Z.to_nat lg := v + c]> nums)
  | None => LFault OutOfBounds
  end.

(** The new size of the array part, and how many elements go there. [n] and [na] are the best found. *)
Fixpoint computesizes_loop (fuel : nat) (nums : list Z) (narray i twotoi a na n : Z) : lres (Z * Z) :=
  match fuel with
  | O => LFault OutOfFuel
  | S fuel =>
      if decide (Z.quot twotoi 2 < narray) then
        match nums !! Z.to_nat i with
        | None => LFault OutOfBounds
        | Some c =>
            let '(a, na, n) :=
              if decide (c > 0) then
                let a := a + c in
                if decide (a > Z.quot twotoi 2) then (a, a, twotoi) else (a, na, n)
              else (a, na, n) in
            if decide (a = narray) then LOk (n, na)
            else computesizes_loop fuel nums narray (i + 1) (twotoi * 2) a na n
        end
      else LOk (n, na)
  end.
Definition computesizes (nums : list Z) (narray : Z) : lres (Z * Z) :=
  computesizes_loop (S (length nums)) nums narray 0 1 0 0 0.

Definition countint (key : tkey) (nums : list Z) : lres (Z * list Z) :=
  let k := arrayindex key in
  if decide (0 < k <= MAXASIZE) then
    lg ← ceillog2 k;
    nums ← nums_add nums lg 1;
    LOk (1, nums)
  else LOk (0, nums).

(** The elements of the array part at [i], ..., [lim]. *)
Fixpoint count_slice (fuel : nat) t (i lim lc : Z) : lres (Z * Z) :=
  match fuel with
  | O => LFault OutOfFuel
  | S fuel =>
      if decide (i <= lim) then
        match array t !! Z.to_nat (i - 1) with
        | None => LFault OutOfBounds
        | Some v => count_slice fuel t (i + 1) lim (if is_nil v then lc else lc + 1)
        end
      else LOk (lc, i)
  end.

(** The fuel is the number of slices left. *)
Fixpoint numusearray_loop (fuel : nat) t (lg ttlg i ause : Z) (nums : list Z) : lres (Z * list Z) :=
  match fuel with
  | O => LOk (ause, nums)
  | S fuel =>
      let lim := if decide (ttlg > sizearray t) then sizearray t else ttlg in
      if decide (ttlg > sizearray t /\ i > lim) then LOk (ause, nums)
      else
        '(lc, i) ← count_slice (S (Z.to_nat (lim - i + 1))) t i lim 0;
        nums ← nums_add nums lg lc;
        numusearray_loop fuel t (lg + 1) (ttlg * 2) i (ause + lc) nums
  end.
Definition numusearray t (nums : list Z) : lres (Z * list Z) :=
  numusearray_loop (Z.to_nat (MAXBITS + 1)) t 0 1 1 0 nums.

(** From the last node to the first; the total, what is added to [*pnasize], the counts. *)
Fixpoint numusehash_loop (ns : list (Node V)) (totaluse ause : Z) (nums : list Z) : lres (Z * Z * list Z) :=
  match ns with
  | [] => LOk (totaluse, ause, nums)
  | n :: ns =>
      if is_nil (gval n) then numusehash_loop ns totaluse ause nums
      else
        '(c, nums) ← countint (gkey n) nums;
        numusehash_loop ns (totaluse + 1) (ause + c) nums
  end.
Definition numusehash t (nums : list Z) : lres (Z * Z * list Z) := numusehash_loop (reverse (node t)) 0 0 nums.

(** ** Insertion *)

(** The loop runs downwards from [lastfree]. *)
Fixpoint getfreepos_loop (fuel : nat) t (lastfree : Z) : lres (option nat * Z) :=
  match fuel with
  | O => LFault OutOfFuel
  | S fuel =>
      if decide (lastfree > 0) then
        n ← gnode t (Z.to_nat (lastfree - 1));
        if key_nil (gkey n) then LOk (Some (Z.to_nat (lastfree - 1)), lastfree - 1)
        else getfreepos_loop fuel t (lastfree - 1)
      else LOk (None, lastfree - 1)
  end.
Definition getfreepos t : lres (option nat * Table V) :=
  '(n, l) ← getfreepos_loop (S (Z.to_nat (lastfree t))) t (lastfree t);
  LOk (n, with_lastfree t l).

(** The node before [mp] in the chain of [othern]. *)
Fixpoint find_previous (fuel : nat) t (othern mp : nat) : lres nat :=
  match fuel with
  | O => LFault OutOfFuel
  | S fuel =>
      n ← gnode t othern;
      match gnext n with
      | Some next => if decide (next = mp) then LOk othern else find_previous fuel t next mp
      | None => LFault NullDeref
      end
  end.

(** What newkey() does with a free node [n]: the table and the place of the new key. *)
Definition make_room t (mp n : nat) : lres (Table V * nat) :=
  nmp ← gnode t mp;
  let othern := mainposition t (gkey nmp) in
  if decide (othern <> mp) then
    othern ← find_previous (S (length (node t))) t othern mp;
    no ← gnode t othern;
    t ← put_node t othern (mkNode (gval no) (gkey no) (Some n));
    nmp ← gnode t mp;
    t ← put_node t n nmp;
    t ← put_node t mp (mkNode None (gkey nmp) None);
    LOk (t, mp)
  else
    nn ← gnode t n;
    t ← put_node t n (mkNode (gval nn) (gkey nn) (gnext nmp));
    t ← put_node t mp (mkNode (gval nmp) (gkey nmp) (Some n));
    LOk (t, n).

(** Each of the following functions is given the newkey() that it calls. *)
Section knot.
Context (newkey : Table V -> tkey -> lres (Table V * slot)).

Definition luaH_set_ t (key : tkey) : lres (Table V * slot) :=
  p ← luaH_get t key;
  match p with
  | SNilObject =>
      match key with
      | TNil => LError (lit "table index is nil")
      | TNum n => if luai_numisnan n then LError (lit "table index is NaN") else newkey t key
      | _ => newkey t key
      end
  | _ => LOk (t, p)
  end.

Definition luaH_setnum_ t (key : Z) : lres (Table V * slot) :=
  p ← luaH_getnum t key;
  match p with
  | SNilObject => newkey t (TNum (cast_num key))
  | _ => LOk (t, p)
  end.

Definition luaH_setstr_ t (key : Z) : lres (Table V * slot) :=
  p ← luaH_getstr t key;
  match p with
  | SNilObject => newkey t (TStr key)
  | _ => LOk (t, p)
  end.

(** The elements from [i] on of the array part that shrinks. *)
Fixpoint reinsert_array (vs : list (option V)) (i : Z) t : lres (Table V) :=
  match vs with
  | [] => LOk t
  | None :: vs => reinsert_array vs (i + 1) t
  | Some v :: vs =>
      '(t, s) ← luaH_setnum_ t (i + 1);
      t ← slot_put t s (Some v);
      reinsert_array vs (i + 1) t
  end.

(** The nodes of the old hash part, the last one first. *)
Fixpoint reinsert_nodes (ns : list (Node V)) t : lres (Table V) :=
  match ns with
  | [] => LOk t
  | n :: ns =>
      match gval n with
      | None => reinsert_nodes ns t
      | Some v =>
          '(t, s) ← luaH_set_ t (gkey n);
          t ← slot_put t s (Some v);
          reinsert_nodes ns t
      end
  end.

Definition resize t (nasize nhsize : Z) : lres (Table V) :=
  let oldasize := sizearray t in
  let old := array t in
  let nold := node t in
  let t := if decide (nasize > oldasize) then setarrayvector t nasize else t in
  t ← setnodevector t nhsize;
  t ← (if decide (nasize < oldasize) then
         reinsert_array (drop (Z.to_nat nasize) old) nasize (with_array t (take (Z.to_nat nasize) old))
       else LOk t);
  reinsert_nodes (reverse nold) t.

Definition rehash t (ek : tkey) : lres (Table V) :=
  let nums := replicate (Z.to_nat (MAXBITS + 1)) 0 in
  '(nasize, nums) ← numusearray t nums;
  '(hashuse, ause, nums) ← numusehash t nums;
  let totaluse := nasize + hashuse in
  '(c, nums) ← countint ek nums;
  let nasize := nasize + ause + c in
  let totaluse := totaluse + 1 in
  '(nasize, na) ← computesizes nums nasize;
  resize t nasize (totaluse - na).
End knot.

Definition put_key t (mp : nat) (key : tkey) : lres (Table V * slot) :=
  n ← gnode t mp;
  t ← put_node t mp (mkNode (gval n) key (gnext n));
  LOk (t, SNode mp).

Fixpoint newkey (fuel : nat) t (key : tkey) : lres (Table V * slot) :=
  match fuel with
  | O => LFault OutOfFuel
  | S fuel =>
      let mp := mainposition t key in
      nmp ← gnode t mp;
      if negb (is_nil (gval nmp)) || isdummy t then
        '(n, t) ← getfreepos t;
        match n with
        | None =>
            t ← rehash (newkey fuel) t key;
            luaH_set_ (newkey fuel) t key
        | Some n =>
            '(t, mp) ← make_room t mp n;
            put_key t mp key
        end
      else put_key t mp key
  end.

(** A table that has been resized has room for the key: the calls nest twice. *)
Definition luaH_set t (key : tkey) : lres (Table V * slot) := luaH_set_ (newkey 2) t key.
Definition luaH_setnum t (key : Z) : lres (Table V * slot) := luaH_setnum_ (newkey 2) t key.
Definition luaH_setstr t (key : Z) : lres (Table V * slot) := luaH_setstr_ (newkey 2) t key.
Definition luaH_resizearray t (nasize : Z) : lres (Table V) :=
  resize (newkey 2) t nasize (if isdummy t then 0 else sizenode t).

(** ** Traversal *)

(** The index, among the elements of the array part and then the nodes, of a key; -1 for nil. *)
Definition findindex t (key : tkey) : lres Z :=
  if key_nil key then LOk (-1)
  else
    let i := arrayindex key in
    if decide (0 < i <= sizearray t) then LOk (i - 1)
    else
      r ← chain_find (S (length (node t))) (fun k => luaO_rawequalObj k key) t (mainposition t key);
      match r with
      | Some i => LOk (Z.of_nat i + sizearray t)
      | None => LError (lit "invalid key to 'next'")
      end.

Fixpoint next_array (fuel : nat) t (i : Z) : lres (Z * option (tkey * V)) :=
  match fuel with
  | O => LFault OutOfFuel
  | S fuel =>
      if decide (i < sizearray t) then
        match array t !! Z.to_nat i with
        | None => LFault OutOfBounds
        | Some None => next_array fuel t (i + 1)
        | Some (Some v) => LOk (i, Some (TNum (cast_num (i + 1)), v))
        end
      else LOk (i, None)
  end.

Fixpoint next_node (fuel : nat) t (i : Z) : lres (option (tkey * V)) :=
  match fuel with
  | O => LFault OutOfFuel
  | S fuel =>
      if decide (i < sizenode t) then
        n ← gnode t (Z.to_nat i);
        match gval n with
        | None => next_node fuel t (i + 1)
        | Some v => LOk (Some (gkey n, v))
        end
      else LOk None
  end.

(** The key and the value after [key]; None when it returns 0. *)
Definition luaH_next t (key : tkey) : lres (option (tkey * V)) :=
  i ← findindex t key;
  '(i, r) ← next_array (S (length (array t))) t (i + 1);
  match r with
  | Some kv => LOk (Some kv)
  | None => next_node (S (length (node t))) t (i - sizearray t)
  end.

(** ** The length *)

(** What luaH_getnum() points to. Its argument is an [int]. *)
Definition getnum_val t (j : Z) : lres (option V) :=
  s ← luaH_getnum t (to_int j);
  LOk (slot_get t s).

Fixpoint linear_search (fuel : nat) t (i : Z) : lres Z :=
  match fuel with
  | O => LFault OutOfFuel
  | S fuel =>
      v ← getnum_val t i;
      if is_nil v then LOk (i - 1) else linear_search fuel t ((i + 1) mod 2 ^ 32)
  end.

Fixpoint binary_search (fuel : nat) (get : Z -> lres (option V)) (i j : Z) : lres Z :=
  match fuel with
  | O => LFault OutOfFuel
  | S fuel =>
      if decide (j - i > 1) then
        let m := (i + j) / 2 in
        v ← get m;
        if is_nil v then binary_search fuel get i m else binary_search fuel get m j
      else LOk i
  end.

(** The loop that doubles [j]; the keys that a table can have end the linear search. *)
Fixpoint unbound_loop (fuel : nat) t (i j : Z) : lres Z :=
  match fuel with
  | O => LFault OutOfFuel
  | S fuel =>
      v ← getnum_val t j;
      if is_nil v then binary_search 32 (getnum_val t) i j
      else
        let i := j in
        let j := (j * 2) mod 2 ^ 32 in
        if decide (j > int_max) then linear_search (S (length (array t) + length (node t))) t 1
        else unbound_loop fuel t i j
  end.
Definition unbound_search t (j : Z) : lres Z := unbound_loop 33 t j ((j + 1) mod 2 ^ 32).

Definition array_val t (m : Z) : lres (option V) :=
  match array t !! Z.to_nat (m - 1) with Some v => LOk v | None => LFault OutOfBounds end.

Definition luaH_getn t : lres Z :=
  let j := sizearray t in
  last_nil ← (if decide (j > 0) then v ← array_val t j; LOk (is_nil v) else LOk false) : lres bool;
  if (last_nil : bool) then binary_search 32 (array_val t) 0 j
  else if isdummy t then LOk j
  else unbound_search t j.
End table.
