(* ===== verification/LuaTabChain.v ===== *)
(** LuaTabChain: the chains of the hash part of a table (ltable.c), and what insertion does to
    them.

    Only the keys and the links of the nodes matter here, and the main position of each key. *)

From Corelib Require Import ssreflect.
From stdpp Require Import base list numbers strings sets.
From Stdlib Require Import ZArith Lia.
From S2P Require Import Prelude LuaObject LuaNumber LuaTable.

(** ** Chains *)

(** The nodes from a link on. *)
Inductive chain (nx : list (option nat)) : option nat -> list nat -> Prop :=
| chain_nil : chain nx None []
| chain_cons (i : nat) o l : nx !! i = Some o -> chain nx o l -> chain nx (Some i) (i :: l).

Section chains.
Context (nx : list (option nat)).

Lemma chain_det o l l' : chain nx o l -> chain nx o l' -> l = l'.
Proof.
  intros Hl. revert l'. induction Hl as [|i o l Hi Hl IH] => l' Hl'; inversion Hl' as [|? o' ? Hi' Hl'']; [done|].
  simplify_eq. by rw (IH _ Hl'').
Qed.

Lemma chain_suffix o l1 i l2 : chain nx o (l1 ++ i :: l2) -> chain nx (Some i) (i :: l2).
Proof.
  revert o. induction l1 as [|j l1 IH] => o Hl; inversion Hl; simplify_eq/=; [done|]. by eapply IH.
Qed.

Lemma chain_NoDup o l : chain nx o l -> NoDup l.
Proof.
  induction 1 as [|i o l Hi Hl IH]; constructor; [|done]. intros (l1 & l2 & ->)%list_elem_of_split.
  pose proof (chain_suffix _ _ _ _ Hl) as Hs. pose proof (chain_cons _ _ _ _ Hi Hl) as Hc.
  pose proof (chain_det _ _ _ Hs Hc) as Heq. apply (f_equal length) in Heq. rw /= length_app /= in Heq. lia.
Qed.

Lemma chain_lookup o l i : chain nx o l -> i ∈ l -> is_Some (nx !! i).
Proof. induction 1 as [|j o l Hj Hl IH]; [by intros ?%elem_of_nil|]. intros [->|?]%elem_of_cons; [by eexists|by apply IH]. Qed.

Lemma chain_length o l : chain nx o l -> (length l <= length nx)%nat.
Proof.
  intros Hl. rw -(length_seq (length nx) 0). apply submseteq_length. apply NoDup_submseteq; [by eapply chain_NoDup|].
  intros i Hi. apply elem_of_seq. pose proof (lookup_lt_is_Some_1 _ _ (chain_lookup _ _ _ Hl Hi)). lia.
Qed.

(** Behind its first node a chain has only nodes that are linked to. *)
Lemma chain_linked o l i : chain nx o l -> i ∈ l -> o = Some i \/ exists j, nx !! j = Some (Some i).
Proof.
  induction 1 as [|j o l Hj Hl IH]; [by intros ?%elem_of_nil|]. intros [->|Hi]%elem_of_cons; [by left|].
  destruct (IH Hi) as [->|?]; right; [by exists j|done].
Qed.
End chains.

(** *** Searching a chain *)

Section search.
Context {V : Type}.
Implicit Types t : Table V.

Lemma gnode_next t i o : (gnext <$> node t) !! i = Some o -> exists nd, node t !! i = Some nd /\ gnext nd = o /\ gnode t i = LOk nd.
Proof. rw list_lookup_fmap_Some. intros (nd & ? & ?). exists nd. rw /gnode. naive_solver (by simplify_option_eq). Qed.

Lemma chain_find_spec t found fuel i l : chain (gnext <$> node t) (Some i) l -> (length l <= fuel)%nat ->
  exists r, chain_find fuel found t i = LOk r /\
    match r with
    | Some j => j ∈ l /\ exists nd, node t !! j = Some nd /\ found (gkey nd) = true
    | None => forall j nd, j ∈ l -> node t !! j = Some nd -> found (gkey nd) = false
    end.
Proof.
  revert i l. induction fuel as [|fuel IH] => i l Hl Hf; inversion Hl as [|? o l' Hi Hl']; simplify_eq/=; [lia|].
  destruct (gnode_next _ _ _ Hi) as (nd & Hnd & <- & ->). rw LOk_bind.
  destruct (found (gkey nd)) eqn:Hfd; [exists (Some i); split; [done|]; split; [by apply list_elem_of_here|by exists nd]|].
  destruct (gnext nd) as [j|]; last first.
  { inversion Hl'; subst. exists None. split; [done|]. intros j nd' [->|Hj]%elem_of_cons; [congruence|by apply elem_of_nil in Hj]. }
  destruct (IH j l' Hl' ltac:(lia)) as ([j'|] & -> & Hr); [exists (Some j')|exists None]; (split; [done|]).
  - destruct Hr as [? ?]. split; [by apply list_elem_of_further|done].
  - intros j' nd' [->|Hj']%elem_of_cons; [congruence|by apply Hr].
Qed.

Lemma find_previous_spec t fuel i l p : chain (gnext <$> node t) (Some i) l -> (length l <= fuel)%nat -> p ∈ l -> p <> i ->
  exists o, find_previous fuel t i p = LOk o /\ (gnext <$> node t) !! o = Some (Some p).
Proof.
  revert i l. induction fuel as [|fuel IH] => i l Hl Hf Hp Hpi; inversion Hl as [|? o l' Hi Hl']; simplify_eq/=; [lia|].
  apply elem_of_cons in Hp as [?|Hp]; [done|]. destruct (gnode_next _ _ _ Hi) as (nd & Hnd & <- & ->). rw LOk_bind.
  destruct (gnext nd) as [j|] eqn:Hj; [|inversion Hl'; subst; by apply elem_of_nil in Hp].
  destruct (decide (j = p)) as [->|Hjp]; [by exists i|]. apply (IH j l'); [done|lia|done|congruence].
Qed.
End search.

(** *** Changing links *)

Section relink.
Context (nx : list (option nat)) (p f : nat) (np : option nat).
Context (Hpf : p <> f) (Hp : nx !! p = Some np) (Hf : nx !! f = Some None).

(** A free node goes behind [p]. *)
Lemma chain_insert o l : chain nx o l -> f ∉ l ->
  chain (<[p := Some f]> (<[f := np]> nx)) o (l ≫= fun i => if decide (i = p) then [p; f] else [i]).
Proof.
  pose proof (lookup_lt_Some _ _ _ Hp). pose proof (lookup_lt_Some _ _ _ Hf).
  induction 1 as [|i o l Hi Hl IH] => Hfl; [constructor|]. apply not_elem_of_cons in Hfl as [Hfi Hfl].
  specialize (IH Hfl). rw bind_cons. destruct (decide (i = p)) as [->|Hip]; simpl.
  - econstructor; [apply list_lookup_insert_eq; by rw length_insert|]. simplify_eq.
    econstructor; [|done]. rw list_lookup_insert_ne //. by apply list_lookup_insert_eq.
  - econstructor; [|done]. rw !list_lookup_insert_ne //.
Qed.

(** The node [p], which comes after [q], moves to the free one. *)
Definition moved (i : nat) : nat := if decide (i = p) then f else i.

Context (q : nat) (Hq : nx !! q = Some (Some p)) (Hinj : forall i, nx !! i = Some (Some p) -> i = q) (Hpp : np <> Some p).

Lemma chain_move o l : chain nx o l -> f ∉ l ->
  chain (<[p := None]> (<[f := np]> (<[q := Some f]> nx))) (moved <$> o) (moved <$> l).
Proof.
  pose proof (lookup_lt_Some _ _ _ Hp). pose proof (lookup_lt_Some _ _ _ Hf). pose proof (lookup_lt_Some _ _ _ Hq).
  assert (q <> f) by congruence. assert (q <> p) by congruence.
  induction 1 as [|i o l Hi Hl IH] => Hfl; [constructor|]. apply not_elem_of_cons in Hfl as [Hfi Hfl].
  specialize (IH Hfl). csimpl. econstructor; [|exact IH]. rw {1}/moved. destruct (decide (i = p)) as [->|Hip].
  - rw list_lookup_insert_ne // list_lookup_insert_eq ?length_insert //. assert (np = o) as Hno by congruence. rw Hno. f_equal.
    destruct o as [j|]; [|done]. rw /= /moved decide_False //. congruence.
  - rw !(list_lookup_insert_ne _ p) // !(list_lookup_insert_ne _ f) //. destruct (decide (i = q)) as [->|Hiq].
    + rw list_lookup_insert_eq //. simplify_eq/=. by rw /moved decide_True.
    + rw list_lookup_insert_ne // Hi. f_equal. destruct o as [j|]; [|done]. rw /= /moved decide_False //. intros ->.
      by apply Hiq, Hinj.
Qed.
End relink.

(** ** The hash part *)

Section hash.
Context (mp : tkey -> nat).

(** The keys and the links of the nodes: every key lies on the chain of its main position, and
    the node at a main position that is in use has a key of that main position. *)
Record hash_ok (ks : list tkey) (nx : list (option nat)) : Prop := {
  h_length : length nx = length ks;
  h_key i k : ks !! i = Some k -> k <> TNil -> key_ok k = true;
  h_distinct i j k k' : ks !! i = Some k -> ks !! j = Some k' -> k <> TNil -> k' <> TNil -> kid k = kid k' -> i = j;
  h_free i : ks !! i = Some TNil -> nx !! i = Some None;
  h_link i j : nx !! i = Some (Some j) -> exists k, ks !! j = Some k /\ k <> TNil;
  h_inj i i' j : nx !! i = Some (Some j) -> nx !! i' = Some (Some j) -> i = i';
  h_chain i : (i < length ks)%nat -> exists l, chain nx (Some i) l;
  h_main i k : ks !! i = Some k -> k <> TNil -> exists l, chain nx (Some (mp k)) l /\ i ∈ l;
  h_own i k : ks !! i = Some k -> k <> TNil -> exists k', ks !! mp k = Some k' /\ k' <> TNil /\ mp k' = mp k
}.

Definition fresh_key (ks : list tkey) (k : tkey) : Prop := forall i k', ks !! i = Some k' -> k' <> TNil -> kid k' <> kid k.

Section ops.
Context (ks : list tkey) (nx : list (option nat)) (Hok : hash_ok ks nx).

(** A chain goes through a free node only if it starts there. *)
Lemma free_not_in_chain f o l : ks !! f = Some TNil -> chain nx o l -> o <> Some f -> f ∉ l.
Proof.
  intros Hf Hl Ho Hin. destruct (chain_linked _ _ _ _ Hl Hin) as [?|[j Hj]]; [done|].
  destruct (h_link _ _ Hok _ _ Hj) as (k & Hk & Hn). congruence.
Qed.

(** The main position of a new key is free, or its key has no value: it takes that node. *)
Lemma hash_take p k : key_ok k = true -> mp k = p -> (p < length ks)%nat -> fresh_key ks k -> hash_ok (<[p := k]> ks) nx.
Proof.
  intros Hk Hp Hlt Hfr. assert (k <> TNil) by (by destruct k).
  assert (forall i k', <[p := k]> ks !! i = Some k' -> i = p /\ k' = k \/ i <> p /\ ks !! i = Some k') as Hi.
  { intros i k'. rw list_lookup_insert_Some. naive_solver. }
  split.
  - rw length_insert. apply (h_length _ _ Hok).
  - intros i k' [[? ->]|[? ?]]%Hi; [done|]. by eapply (h_key _ _ Hok).
  - intros i j k1 k2 [[-> ->]|[? Hk1]]%Hi [[-> ->]|[? Hk2]]%Hi ? ? Hkid; try done; [..|by eapply (h_distinct _ _ Hok)].
    + by destruct (Hfr _ _ Hk2).
    + by destruct (Hfr _ _ Hk1).
  - intros i [[-> ?]|[? ?]]%Hi; [congruence|]. by apply (h_free _ _ Hok).
  - intros i j (k' & Hk' & ?)%(h_link _ _ Hok). destruct (decide (j = p)) as [->|].
    + exists k. by rw list_lookup_insert_eq.
    + exists k'. by rw list_lookup_insert_ne.
  - apply (h_inj _ _ Hok).
  - intros i. rw length_insert. apply (h_chain _ _ Hok).
  - intros i k' [[-> ->]|[? ?]]%Hi ?; [|by eapply (h_main _ _ Hok)].
    destruct (h_chain _ _ Hok p Hlt) as [l Hl]. exists l. rw Hp. split; [done|]. inversion Hl. apply list_elem_of_here.
  - intros i k' Hi' Hn. destruct (decide (mp k' = p)) as [->|Hne]; [exists k; by rw list_lookup_insert_eq|].
    apply Hi in Hi' as [[-> ->]|[? Hi']]; [done|]. destruct (h_own _ _ Hok _ _ Hi' Hn) as (k'' & ? & ?).
    exists k''. by rw list_lookup_insert_ne.
Qed.

(** No link leads to a free node. *)
Lemma free_not_linked f i j : ks !! f = Some TNil -> nx !! i = Some (Some j) -> j <> f.
Proof. intros Hf (k' & ? & ?)%(h_link _ _ Hok). congruence. Qed.

Lemma chain_head i : (i < length ks)%nat -> exists l, chain nx (Some i) l /\ i ∈ l.
Proof. intros Hlt. destruct (h_chain _ _ Hok i Hlt) as [l Hl]. exists l. split; [done|]. inversion Hl. apply list_elem_of_here. Qed.

(** The main position is taken by a key that belongs there: the new key goes behind it. *)
Section insert.
Context (p f : nat) (k kp : tkey) (np : option nat).
Context (Hk : key_ok k = true) (Hmp : mp k = p) (Hfr : fresh_key ks k).
Context (Hp : ks !! p = Some kp) (Hkp : kp <> TNil) (Hmpp : mp kp = p) (Hf : ks !! f = Some TNil) (Hnp : nx !! p = Some np).
Let ks' := <[f := k]> ks.
Let nx' := <[p := Some f]> (<[f := np]> nx).

#[local] Lemma ins_ne : p <> f.
Proof. congruence. Qed.

#[local] Lemma ins_key i k' : ks' !! i = Some k' -> i = f /\ k' = k \/ i <> f /\ ks !! i = Some k'.
Proof. rw list_lookup_insert_Some. naive_solver. Qed.

#[local] Lemma ins_next i o : nx' !! i = Some o -> i = p /\ o = Some f \/ i = f /\ nx !! p = Some o \/ i <> p /\ nx !! i = Some o.
Proof. rw Hnp !list_lookup_insert_Some. naive_solver. Qed.

#[local] Lemma ins_at_free : ks' !! f = Some k /\ nx' !! f = Some np.
Proof.
  pose proof ins_ne. pose proof (lookup_lt_Some _ _ _ Hf). pose proof (lookup_lt_Some _ _ _ (h_free _ _ Hok _ Hf)).
  split; [by apply list_lookup_insert_eq|]. rw list_lookup_insert_ne //. by apply list_lookup_insert_eq.
Qed.

#[local] Lemma ins_chain o l : chain nx o l -> o <> Some f ->
  exists l', chain nx' o l' /\ (forall i, i ∈ l -> i ∈ l') /\ (p ∈ l -> f ∈ l').
Proof.
  intros Hl Ho. pose proof (h_free _ _ Hok _ Hf). pose proof ins_ne.
  eexists. split; [apply chain_insert; try done; by eapply free_not_in_chain|].
  split; [intros i Hi'|intros Hi']; apply list_elem_of_bind; eexists; (split; [|exact Hi']); destruct (decide _); set_solver.
Qed.

#[local] Lemma ins_chains i : (i < length ks)%nat -> exists l, chain nx' (Some i) l.
Proof.
  intros Hlt. destruct (h_chain _ _ Hok i Hlt) as [l Hl].
  destruct (decide (i = f)) as [->|]; [|destruct (ins_chain _ _ Hl) as (l' & ? & _); [congruence|by exists l']].
  destruct (h_chain _ _ Hok p) as [lp Hlp]; [by eapply lookup_lt_Some|]. inversion Hlp as [|? o l1 Ho Hl1].
  destruct (ins_chain _ _ Hl1) as (l' & Hl' & _); [intros Hof; rw Hof in Ho; by eapply free_not_linked|].
  exists (f :: l'). econstructor; [apply ins_at_free|]. by assert (np = o) as -> by congruence.
Qed.

#[local] Lemma ins_links i j : nx' !! i = Some (Some j) -> exists k', ks' !! j = Some k' /\ k' <> TNil.
Proof.
  intros Hij. destruct (decide (j = f)) as [->|Hjf]; [exists k; split; [apply ins_at_free|by destruct k]|].
  rw list_lookup_insert_ne //. destruct (ins_next _ _ Hij) as [[-> ?]|[[-> Hj]|[? Hj]]]; [congruence|by eapply (h_link _ _ Hok)..].
Qed.

#[local] Lemma ins_inj i i' j : nx' !! i = Some (Some j) -> nx' !! i' = Some (Some j) -> i = i'.
Proof.
  pose proof (fun i j => free_not_linked f i j Hf) as Hlf.
  pose proof (h_inj _ _ Hok) as Hinj. intros Hi%ins_next Hi'%ins_next. clear - Hlf Hinj Hi Hi'. naive_solver.
Qed.

#[local] Lemma ins_main i k' : ks' !! i = Some k' -> k' <> TNil -> exists l, chain nx' (Some (mp k')) l /\ i ∈ l.
Proof.
  pose proof ins_ne. intros [[-> ->]|[Hif Hik]]%ins_key Hnil.
  - destruct (chain_head p) as (l & Hl & Hin); [by eapply lookup_lt_Some|].
    destruct (ins_chain _ _ Hl) as (l' & ? & _ & ?); [congruence|]. exists l'. rw Hmp. naive_solver.
  - destruct (h_main _ _ Hok _ _ Hik Hnil) as (l & Hl & Hil). destruct (h_own _ _ Hok _ _ Hik Hnil) as (k2 & ? & ? & ?).
    destruct (ins_chain _ _ Hl) as (l' & ? & ? & _); [congruence|]. exists l'. naive_solver.
Qed.

Lemma hash_insert : hash_ok ks' nx'.
Proof.
  pose proof ins_ne. split.
  - rw !length_insert. apply (h_length _ _ Hok).
  - intros i k' [[? ->]|[? ?]]%ins_key; [done|]. by eapply (h_key _ _ Hok).
  - intros i j k1 k2 [[-> ->]|[? Hk1]]%ins_key [[-> ->]|[? Hk2]]%ins_key ? ? Hkid; try done; [..|by eapply (h_distinct _ _ Hok)].
    + by destruct (Hfr _ _ Hk2).
    + by destruct (Hfr _ _ Hk1).
  - intros i [[-> ?]|[? Hi']]%ins_key; [by destruct k|]. rw !list_lookup_insert_ne //; [congruence|]. by apply (h_free _ _ Hok).
  - apply ins_links.
  - apply ins_inj.
  - intros i. rw length_insert. apply ins_chains.
  - apply ins_main.
  - intros i k' [[-> ->]|[Hif Hik]]%ins_key Hnil.
    + exists kp. rw Hmp list_lookup_insert_ne //.
    + destruct (h_own _ _ Hok _ _ Hik Hnil) as (k2 & ? & ? & ?). exists k2. rw list_lookup_insert_ne //. congruence.
Qed.
End insert.

(** The main position is taken by a key that belongs elsewhere: that key moves to a free node. *)
Section move.
Context (p f q : nat) (kp : tkey) (np : option nat).
Context (Hp : ks !! p = Some kp) (Hkp : kp <> TNil) (Hmpp : mp kp <> p) (Hf : ks !! f = Some TNil).
Context (Hnp : nx !! p = Some np) (Hq : nx !! q = Some (Some p)).
Let ks' := <[p := TNil]> (<[f := kp]> ks).
Let nx' := <[p := None]> (<[f := np]> (<[q := Some f]> nx)).

#[local] Lemma mv_ne : p <> f /\ q <> f /\ np <> Some p /\ q <> p.
Proof.
  pose proof (h_free _ _ Hok _ Hf) as Hnf. assert (np <> Some p) as Hpp; [|split_and!; congruence].
  intros Hnp'. destruct (h_chain _ _ Hok p) as [l Hl]; [by eapply lookup_lt_Some|]. pose proof (chain_NoDup _ _ _ Hl) as Hnd.
  inversion Hl as [|? o l1 Ho Hl1 H1 H2]. rw -H2 in Hnd. apply NoDup_cons in Hnd as [[] _].
  assert (o = Some p) as Hop by congruence. rw Hop in Hl1. inversion Hl1. apply list_elem_of_here.
Qed.

#[local] Lemma mv_key i k' : ks' !! i = Some k' -> k' <> TNil -> i = f /\ k' = kp \/ i <> f /\ i <> p /\ ks !! i = Some k'.
Proof. rw !list_lookup_insert_Some. naive_solver. Qed.

#[local] Lemma mv_keep i k' : i <> p -> ks !! i = Some k' -> k' <> TNil -> ks' !! i = Some k'.
Proof. intros ? ? ?. rw !list_lookup_insert_ne //. congruence. Qed.

#[local] Lemma mv_next i o : nx' !! i = Some o ->
  i = p /\ o = None \/ i = f /\ nx !! p = Some o \/ i = q /\ o = Some f \/ i <> p /\ i <> q /\ nx !! i = Some o.
Proof. rw Hnp !list_lookup_insert_Some. naive_solver. Qed.

#[local] Lemma mv_chain o l : chain nx o l -> o <> Some f -> chain nx' (moved p f <$> o) (moved p f <$> l).
Proof.
  intros Hl Ho. pose proof (h_free _ _ Hok _ Hf). destruct mv_ne as (? & ? & ? & ?).
  apply chain_move; try done; [|by eapply free_not_in_chain]. intros i Hip. by eapply (h_inj _ _ Hok).
Qed.

(** No key has [p] as its main position. *)
#[local] Lemma mv_own i k' : ks !! i = Some k' -> k' <> TNil -> mp k' <> p /\ mp k' <> f.
Proof. intros Hik Hnil. destruct (h_own _ _ Hok _ _ Hik Hnil) as (k2 & Hk2 & ? & ?). split; intros Heq; congruence. Qed.

#[local] Lemma mv_free i : ks' !! i = Some TNil -> nx' !! i = Some None.
Proof.
  destruct mv_ne as (? & ? & ? & ?). intros Hik. destruct (decide (i = p)) as [->|].
  { apply list_lookup_insert_eq. rw !length_insert. by eapply lookup_lt_Some. }
  rw list_lookup_insert_ne // in Hik. destruct (decide (i = f)) as [->|].
  { rw list_lookup_insert_eq in Hik; [by eapply lookup_lt_Some|]. congruence. }
  rw list_lookup_insert_ne // in Hik. pose proof (h_free _ _ Hok _ Hik). rw !list_lookup_insert_ne //. congruence.
Qed.

#[local] Lemma mv_links i j : nx' !! i = Some (Some j) -> exists k, ks' !! j = Some k /\ k <> TNil.
Proof.
  destruct mv_ne as (? & ? & ? & ?). intros Hij. destruct (decide (j = f)) as [->|Hjf].
  { exists kp. rw list_lookup_insert_ne // list_lookup_insert_eq //. by eapply lookup_lt_Some. }
  assert (exists i', nx !! i' = Some (Some j) /\ j <> p) as (i' & Hi' & Hjp).
  { destruct (mv_next _ _ Hij) as [[-> ?]|[[-> Hj]|[[-> Hj]|(? & Hiq & Hj)]]]; try congruence; [exists p; split; congruence|].
    exists i. split; [done|]. intros ->. apply Hiq. by eapply (h_inj _ _ Hok). }
  destruct (h_link _ _ Hok _ _ Hi') as (k' & ? & ?). exists k'. split; [by apply mv_keep|done].
Qed.

#[local] Lemma mv_inj i i' j : nx' !! i = Some (Some j) -> nx' !! i' = Some (Some j) -> i = i'.
Proof.
  pose proof (fun i j => free_not_linked f i j Hf) as Hlf.
  pose proof (h_inj _ _ Hok) as Hinj. intros Hi%mv_next Hi'%mv_next. clear - Hlf Hinj Hi Hi'. naive_solver.
Qed.

#[local] Lemma mv_chains i : (i < length ks)%nat -> exists l, chain nx' (Some i) l.
Proof.
  intros Hlt. destruct mv_ne as (? & ? & ? & ?). destruct (decide (i = p)) as [->|Hip].
  { exists [p]. econstructor; [|constructor]. apply list_lookup_insert_eq. rw !length_insert. by eapply lookup_lt_Some. }
  assert (exists i', (i' < length ks)%nat /\ i' <> f /\ moved p f i' = i) as (i' & Hi' & Hf' & <-).
  { rw /moved. destruct (decide (i = f)) as [->|Hif]; [exists p|exists i]; case_decide; try done.
    split_and!; try done. by eapply lookup_lt_Some. }
  destruct (h_chain _ _ Hok i' Hi') as [l Hl]. exists (moved p f <$> l). apply (mv_chain _ _ Hl). congruence.
Qed.

#[local] Lemma mv_from i k' : ks' !! i = Some k' -> k' <> TNil -> exists i', ks !! i' = Some k' /\ moved p f i' = i.
Proof. intros Hik Hnil. rw /moved. destruct (mv_key _ _ Hik Hnil) as [[-> ->]|(? & ? & ?)]; [exists p; by rw decide_True|exists i; by rw decide_False]. Qed.

Lemma hash_move : hash_ok ks' nx'.
Proof.
  split.
  - rw !length_insert. apply (h_length _ _ Hok).
  - intros i k' Hik Hnil. destruct (mv_from _ _ Hik Hnil) as (i' & ? & _). by eapply (h_key _ _ Hok).
  - intros i j k1 k2 Hk1 Hk2 Hn1 Hn2 Hkid. destruct (mv_from _ _ Hk1 Hn1) as (i' & Hi' & <-), (mv_from _ _ Hk2 Hn2) as (j' & Hj' & <-).
    f_equal. by eapply (h_distinct _ _ Hok).
  - apply mv_free.
  - apply mv_links.
  - apply mv_inj.
  - intros i. rw !length_insert. apply mv_chains.
  - intros i k' Hik Hnil. destruct (mv_from _ _ Hik Hnil) as (i' & Hi' & <-), (h_main _ _ Hok _ _ Hi' Hnil) as (l & Hl & Hil).
    destruct (mv_own _ _ Hi' Hnil) as [? ?]. exists (moved p f <$> l). split; [|by apply list_elem_of_fmap_2].
    pose proof (mv_chain _ _ Hl ltac:(congruence)) as Hc. by rw /= {1}/moved decide_False // in Hc.
  - intros i k' Hik Hnil. destruct (mv_from _ _ Hik Hnil) as (i' & Hi' & _), (h_own _ _ Hok _ _ Hi' Hnil) as (k2 & ? & ? & ?).
    destruct (mv_own _ _ Hi' Hnil) as [? ?]. exists k2. split; [by apply mv_keep|done].
Qed.
End move.
End ops.
End hash.
