(* ===== verification/LuaTabOk.v ===== *)
(** LuaTabOk: well-formed tables (ltable.c), what a search in one finds, and the insertion of a
    key while the hash part has a free node. *)

From Corelib Require Import ssreflect.
From stdpp Require Import base list numbers strings.
From Stdlib Require Import ZArith Lia.
From S2P Require Import Prelude LuaObject LuaStr LuaNumber LuaTable LuaTabChain.

(** ** Where a key is *)

Definition hfind (ks : list tkey) (k : tkey) : option nat := fst <$> list_find (fun k' => k' <> TNil /\ kid k' = kid k) ks.
(** The number of keys in nodes. *)
Definition nkeys (ks : list tkey) : nat := length (filter (fun k => k <> TNil) ks).

Section ok.
Context `{LuaEnv} {V : Type}.
Implicit Types (t : Table V) (ns : list (Node V)).

Abbreviation keys t := (gkey <$> node t).
Abbreviation nexts t := (gnext <$> node t).

(** A key that can be set. The smallest [int] is left out: [key-1] overflows in luaH_getnum(). *)
Definition valid_key (k : tkey) : Prop := key_ok k = true /\ arrayindex k <> int_min.
Definition in_array t (k : tkey) : Prop := 1 <= arrayindex k <= sizearray t.
Definition in_array_dec t k : Decision (in_array t k).
Proof. rw /in_array. apply _. Defined.
#[local] Hint Extern 0 (Decision (in_array _ _)) => apply in_array_dec : typeclass_instances.

Definition slot_of t (k : tkey) : slot :=
  if decide (in_array t k) then SArray (Z.to_nat (arrayindex k - 1))
  else match hfind (keys t) k with Some i => SNode i | None => SNilObject end.
(** The value that a table has for a key. *)
Definition tlookup t (k : tkey) : option V := slot_get t (slot_of t k).

(** The nodes that can be used. *)
Definition capacity t : nat := if isdummy t then 0%nat else length (node t).

Record tab_ok t : Prop := {
  t_lsize : 0 <= lsizenode t <= MAXBITS;
  t_size : length (node t) = sizenode t :> Z;
  t_array : sizearray t <= MAXASIZE;
  t_hash : hash_ok (mainposition t) (keys t) (nexts t);
  t_nil i n : node t !! i = Some n -> gkey n = TNil -> gval n = None;
  t_hkey i n : node t !! i = Some n -> gkey n <> TNil -> ~ in_array t (gkey n) /\ valid_key (gkey n);
  t_dummy : isdummy t = true -> node t = [dummynode_] /\ lastfree t <= 0;
  t_lastfree : lastfree t <= length (node t);
  t_free (i : nat) n : isdummy t = false -> lastfree t <= i -> node t !! i = Some n -> gkey n <> TNil
}.

(** ** Main positions *)

Lemma MAXASIZE_val : MAXASIZE = 2 ^ 26.
Proof. done. Qed.

Lemma twoto_pow x : 0 <= x -> twoto x = 2 ^ x.
Proof. intros ?. rw /twoto Z.shiftl_mul_pow2 //. lia. Qed.

Lemma odd_size x : 0 <= x <= MAXBITS -> 1 <= Z.lor (twoto x - 1) 1 <= twoto x.
Proof.
  rw /MAXBITS => Hx.
  assert (forallb (fun n => bool_decide (1 <= Z.lor (twoto (Z.of_nat n) - 1) 1 <= twoto (Z.of_nat n))) (seq 0 27) = true)
    as Hall by (vm_compute; reflexivity).
  rw forallb_forall in Hall. specialize (Hall (Z.to_nat x) ltac:(apply in_seq; lia)).
  apply bool_decide_eq_true in Hall. by rw Z2Nat.id in Hall; [lia|].
Qed.

Lemma mainposition_lt t k : tab_ok t -> (mainposition t k < length (node t))%nat.
Proof.
  intros Hok. destruct (t_lsize _ Hok) as [Hl1 Hl2]. pose proof (t_size _ Hok) as Hs. rw /sizenode in Hs.
  assert (0 < 2 ^ lsizenode t) by (apply Z.pow_pos_nonneg; lia). pose proof (twoto_pow _ Hl1) as Htw.
  assert (forall z, (hashpow2 t z < length (node t))%nat) as Hp.
  { intros z. rw /hashpow2 /lmod /sizenode Htw. replace (2 ^ lsizenode t - 1) with (Z.ones (lsizenode t)) by (rw Z.ones_equiv; lia).
    rw Z.land_ones //. pose proof (Z.mod_pos_bound z (2 ^ lsizenode t)). lia. }
  assert (forall z, (hashmod t z < length (node t))%nat) as Hm.
  { intros z. rw /hashmod /sizenode. pose proof (odd_size (lsizenode t) ltac:(lia)).
    pose proof (Z.mod_pos_bound z (Z.lor (twoto (lsizenode t) - 1) 1)). lia. }
  destruct k; simpl; try apply Hp; try apply Hm. rw /hashnum. destruct (luai_numeq _ _); [lia|apply Hm].
Qed.

Lemma mainposition_kid t a b : kid a = kid b -> mainposition t a = mainposition t b.
Proof.
  destruct a as [| |[| | |]| | |], b as [| |[| | |]| | |]; cbn [kid]; intros Heq; simplify_eq; done.
Qed.

(** The main position depends on the size of the hash part only. *)
Lemma mainposition_size t t' : lsizenode t = lsizenode t' -> mainposition t = mainposition t'.
Proof. destruct t, t'. simpl. by intros ->. Qed.

(** ** Searches *)

Section find.
Context (mp : tkey -> nat) (ks : list tkey) (nx : list (option nat)) (Hok : hash_ok mp ks nx).

Lemma hfind_Some k i : hfind ks k = Some i <-> exists k', ks !! i = Some k' /\ k' <> TNil /\ kid k' = kid k.
Proof.
  rw /hfind. split.
  - destruct (list_find _ ks) as [[j k']|] eqn:E; [|done]. intros [= <-]. apply list_find_Some in E as (? & [? ?] & _). by exists k'.
  - intros (k' & Hi & Hn & Hk). apply fmap_Some. exists (i, k'). split; [|done]. apply list_find_Some. split; [done|]. split; [done|].
    intros j k2 Hj Hlt [Hn2 Hk2]. assert (j = i); [|lia]. eapply (h_distinct _ _ _ Hok); try done. congruence.
Qed.

Lemma hfind_None k : hfind ks k = None <-> fresh_key ks k.
Proof.
  split.
  - intros Hn i k' Hi Hk' Hkid. assert (hfind ks k = Some i) by (apply hfind_Some; by exists k'). congruence.
  - intros Hf. destruct (hfind ks k) as [i|] eqn:E; [|done]. apply hfind_Some in E as (k' & Hi & Hn & Hk). by destruct (Hf i k').
Qed.
End find.

Lemma hfind_kid ks a b : kid a = kid b -> hfind ks a = hfind ks b.
Proof. intros Heq. rw /hfind. f_equal. apply list_find_ext => k'. by rw Heq. Qed.

Lemma slot_of_array t k : in_array t k -> slot_of t k = SArray (Z.to_nat (arrayindex k - 1)).
Proof. intros Ha. rw /slot_of. by destruct (decide (in_array t k)). Qed.

Lemma slot_of_hash t k : ~ in_array t k -> slot_of t k = match hfind (keys t) k with Some i => SNode i | None => SNilObject end.
Proof. intros Ha. rw /slot_of. by destruct (decide (in_array t k)). Qed.

Lemma slot_of_kid t a b : key_ok a = true -> key_ok b = true -> kid a = kid b -> slot_of t a = slot_of t b.
Proof.
  intros Ha Hb Heq. pose proof (arrayindex_kid a b Ha Hb Heq) as Hi.
  rw /slot_of (hfind_kid _ a b) // Hi. rw (decide_ext (in_array t a) (in_array t b)) //. by rw /in_array Hi.
Qed.

Lemma key_at t i k : keys t !! i = Some k -> exists n, node t !! i = Some n /\ gkey n = k.
Proof. rw list_lookup_fmap_Some. naive_solver. Qed.

(** A walk through the chain of a key finds the node that has the key. *)
Lemma chain_find_hfind t k found : tab_ok t -> key_ok k = true -> (forall k', found k' = luaO_rawequalObj k' k) ->
  chain_find (S (length (node t))) found t (mainposition t k) = LOk (hfind (keys t) k).
Proof.
  intros Hok Hk Hfd. pose proof (t_hash _ Hok) as Hh. pose proof (mainposition_lt t k Hok) as Hlt.
  destruct (h_chain _ _ _ Hh (mainposition t k)) as [l Hl]; [by rw length_fmap|].
  pose proof (chain_length _ _ _ Hl) as Hlen. rw length_fmap in Hlen.
  destruct (chain_find_spec t found (S (length (node t))) _ _ Hl ltac:(lia)) as (r & -> & Hr). f_equal. symmetry.
  assert (forall n i, node t !! i = Some n -> gkey n <> TNil -> found (gkey n) = bool_decide (kid (gkey n) = kid k)) as Hraw.
  { intros n i Hi Hn. rw Hfd rawequal_kid //. by destruct (t_hkey _ Hok i n Hi Hn) as (_ & ? & _). }
  destruct r as [j|].
  - destruct Hr as (Hj & nd & Hnd & Hf). assert (gkey nd <> TNil) as Hn. { rw Hfd in Hf. by destruct (gkey nd), k. }
    eapply hfind_Some; [done|]. exists (gkey nd). rw list_lookup_fmap Hnd. split_and!; try done.
    by rw (Hraw nd j Hnd Hn) bool_decide_eq_true in Hf.
  - eapply hfind_None; [done|]. intros i k' Hi Hn Hkid. destruct (h_main _ _ _ Hh _ _ Hi Hn) as (l' & Hl' & Hin).
    rw (mainposition_kid t k' k) // in Hl'. rw (chain_det _ _ _ _ Hl' Hl) in Hin. destruct (key_at t i k' Hi) as (nd & Hnd & <-).
    pose proof (Hr i nd Hin Hnd) as Hfalse. rw (Hraw nd i Hnd Hn) bool_decide_eq_false in Hfalse. done.
Qed.

Lemma chain_slot_hfind t k found : tab_ok t -> key_ok k = true -> (forall k', found k' = luaO_rawequalObj k' k) ->
  chain_slot found t (mainposition t k) = LOk (match hfind (keys t) k with Some i => SNode i | None => SNilObject end).
Proof. intros. by rw /chain_slot chain_find_hfind. Qed.

Lemma getnum_spec t key : tab_ok t -> int_min < key <= int_max -> luaH_getnum t key = LOk (slot_of t (TNum (cast_num key))).
Proof.
  intros Hok Hkey. rw /luaH_getnum. rw decide_True; [rw /int_min in Hkey |- *; lia|].
  destruct (cast_num_ok key ltac:(lia)) as [Hc Hn].
  pose proof (arrayindex_cast key ltac:(lia)) as Hidx. rw /slot_of Hidx. pose proof (t_array _ Hok) as Ha. rw MAXASIZE_val in Ha.
  assert ((key - 1) mod 2 ^ 32 < sizearray t <-> in_array t (TNum (cast_num key))) as Hiff.
  { rw /in_array Hidx. rw /int_min /int_max in Hkey. destruct (decide (1 <= key)); [rw Z.mod_small; lia|].
    rw -(Z.mod_add (key - 1) 1) // Z.mod_small; lia. }
  destruct (decide ((key - 1) mod 2 ^ 32 < sizearray t)), (decide (in_array t (TNum (cast_num key)))); try (exfalso; tauto); [done|].
  rw -(chain_slot_hfind t (TNum (cast_num key)) (fun k => match k with TNum n => luai_numeq n (cast_num key) | _ => false end)) //.
  simpl. by destruct (cast_num key).
Qed.

Lemma getstr_spec t p : tab_ok t -> luaH_getstr t p = LOk (slot_of t (TStr p)).
Proof.
  intros Hok. rw /luaH_getstr slot_of_hash; [rw /in_array /=; lia|].
  rw -(chain_slot_hfind t (TStr p) (fun k => match k with TStr p' => bool_decide (p' = p) | _ => false end)) //.
Qed.

Lemma get_spec t k : tab_ok t -> valid_key k -> luaH_get t k = LOk (slot_of t k).
Proof.
  intros Hok [Hk Hmin]. assert (arrayindex k = -1 ->
    chain_slot (fun k' => luaO_rawequalObj k' k) t (mainposition t k) = LOk (slot_of t k)) as Hgen.
  { intros Hidx. rw slot_of_hash; [rw /in_array; lia|]. by apply chain_slot_hfind. }
  destruct k as [|b|n|p|p|tt p]; cbn [luaH_get]; try (by apply Hgen); [done|].
  cbv zeta. destruct (luai_numeq (cast_num (lua_number2int n)) n) eqn:E; [|by apply Hgen; rw /= E].
  rw /= E in Hmin. pose proof (number2int_range n) as Hr. rw getnum_spec //; [lia|]. f_equal. apply slot_of_kid; [|done|by apply numeq_eq].
  destruct (cast_num_ok _ Hr) as [? ?]. simpl. by destruct (cast_num _).
Qed.
End ok.

#[export] Hint Extern 0 (Decision (in_array _ _)) => apply in_array_dec : typeclass_instances.
