(* ===== verification/LuaTabInsert.v ===== *)
(** LuaTabInsert: newkey() of ltable.c puts a key into a free node of the hash part: the
    table stays well formed, and no value is lost. *)

From Corelib Require Import ssreflect.
From stdpp Require Import base list numbers strings.
From Stdlib Require Import ZArith Lia.
From S2P Require Import Prelude LuaObject LuaStr LuaNumber LuaTable LuaTabChain LuaTabOk.

(** ** Counting keys *)

Lemma nkeys_app ks ks' : nkeys (ks ++ ks') = (nkeys ks + nkeys ks')%nat.
Proof. by rw /nkeys filter_app length_app. Qed.

Lemma nkeys_cons k ks : nkeys (k :: ks) = ((if decide (k = TNil) then 0 else 1) + nkeys ks)%nat.
Proof. rw /nkeys filter_cons. by destruct (decide (k = TNil)), (decide (k <> TNil)). Qed.

Lemma nkeys_insert ks i k k' : ks !! i = Some k ->
  (nkeys (<[i := k']> ks) + (if decide (k = TNil) then 0 else 1) = nkeys ks + (if decide (k' = TNil) then 0 else 1))%nat.
Proof.
  intros Hi. rw -{2}(take_drop_middle ks i k Hi) insert_take_drop; [by eapply lookup_lt_Some|]. rw !nkeys_app !nkeys_cons. lia.
Qed.

Lemma nkeys_le ks : (nkeys ks <= length ks)%nat.
Proof. apply length_filter. Qed.

Lemma nkeys_full ks : (forall i k, ks !! i = Some k -> k <> TNil) -> nkeys ks = length ks.
Proof.
  induction ks as [|k ks IH] => Hall; [done|]. rw nkeys_cons decide_False /=; [by apply (Hall 0%nat)|].
  f_equal. apply IH => i k'. apply (Hall (S i)).
Qed.

Section insert.
Context `{LuaEnv} {V : Type}.
Implicit Types (t : Table V) (ns : list (Node V)).

Abbreviation keys t := (gkey <$> node t).
Abbreviation nexts t := (gnext <$> node t).

(** ** The values in nodes *)

Definition hent ns (k : tkey) (v : V) : Prop := exists (i : nat) n, ns !! i = Some n /\ gkey n = k /\ gval n = Some v.

Lemma hent_insert_nil ns i n n' k v : ns !! i = Some n -> gval n = None -> gval n' = None ->
  hent (<[i := n']> ns) k v <-> hent ns k v.
Proof.
  intros Hi Hn Hn'. split; intros (j & m & Hj & Hk & Hv); exists j, m; (split; [|done]).
  - apply list_lookup_insert_Some in Hj as [(_ & <- & _)|[_ ?]]; [congruence|done].
  - rw list_lookup_insert_ne //. intros ->. congruence.
Qed.

Lemma hent_insert_link ns i n n' k v : ns !! i = Some n -> gval n' = gval n -> gkey n' = gkey n ->
  hent (<[i := n']> ns) k v <-> hent ns k v.
Proof.
  intros Hi Hn Hn'. pose proof (lookup_lt_Some _ _ _ Hi). split; intros (j & m & Hj & Hk & Hv).
  - apply list_lookup_insert_Some in Hj as [(<- & <- & _)|[_ ?]]; [exists i, n; by rw -Hn -Hn'|by exists j, m].
  - destruct (decide (j = i)) as [->|]; [exists i, n'; rw list_lookup_insert_eq //; simplify_eq; by rw Hn Hn'|].
    exists j, m. by rw list_lookup_insert_ne.
Qed.

Lemma hent_move ns p f n nf n' m k v : p <> f -> ns !! p = Some n -> ns !! f = Some nf -> gval nf = None -> gval n' = None ->
  gkey m = gkey n -> gval m = gval n -> hent (<[p := n']> (<[f := m]> ns)) k v <-> hent ns k v.
Proof.
  intros Hpf Hp Hf Hnf Hn' Hmk Hmv. pose proof (lookup_lt_Some _ _ _ Hf). split; intros (j & nd & Hj & Hk & Hv).
  - apply list_lookup_insert_Some in Hj as [(_ & <- & _)|[? Hj]]; [congruence|].
    apply list_lookup_insert_Some in Hj as [(<- & <- & _)|[? Hj]]; [exists p, n; by rw -Hmk -Hmv|by exists j, nd].
  - destruct (decide (j = p)) as [->|]; [exists f, m; rw list_lookup_insert_ne // list_lookup_insert_eq //; simplify_eq; by rw Hmk Hmv|].
    exists j, nd. rw !list_lookup_insert_ne //. intros ->. congruence.
Qed.

Lemma tlookup_hash t k v : tab_ok t -> ~ in_array t k -> tlookup t k = Some v <-> exists k0, hent (node t) k0 v /\ kid k0 = kid k.
Proof.
  intros Hok Ha. rw /tlookup slot_of_hash //. pose proof (t_hash _ Hok) as Hh. split.
  - destruct (hfind (keys t) k) as [i|] eqn:E; [|done]. apply (hfind_Some _ _ _ Hh) in E as (k' & Hi & _ & Hk).
    destruct (key_at t i k' Hi) as (n & Hn & <-). rw /slot_get Hn /= => Hv. exists (gkey n). split; [by exists i, n|done].
  - intros (k0 & (i & n & Hn & <- & Hv) & Hk). assert (hfind (keys t) k = Some i) as ->; [|by rw /slot_get Hn].
    apply (hfind_Some _ _ _ Hh). exists (gkey n). rw list_lookup_fmap Hn. split_and!; try done.
    intros Hnil. pose proof (t_nil _ Hok _ _ Hn Hnil). congruence.
Qed.

(** ** A key in its node *)

(** The key [k] has node [i] of [t'], without a value yet; all else is as in [t]. *)
Record placed t (k : tkey) t' (i : nat) : Prop := {
  p_ok : tab_ok t';
  p_array : array t' = array t;
  p_capacity : capacity t' = capacity t;
  p_find : hfind (keys t') k = Some i;
  p_nkeys : (nkeys (keys t') <= S (nkeys (keys t)))%nat;
  p_hent k0 v : hent (node t') k0 v <-> hent (node t) k0 v
}.

(** New nodes for a table. *)
Lemma placed_intro t k ns i l : tab_ok t -> valid_key k -> ~ in_array t k -> isdummy t = false -> length ns = length (node t) ->
  hash_ok (mainposition t) (gkey <$> ns) (gnext <$> ns) ->
  (exists n, ns !! i = Some n /\ gkey n = k) ->
  (forall j n, ns !! j = Some n -> gkey n = TNil -> gval n = None) ->
  (forall k', k' ∈ gkey <$> ns -> k' = k \/ k' ∈ keys t) ->
  l <= length (node t) -> (forall (j : nat) n, l <= j -> ns !! j = Some n -> gkey n <> TNil) ->
  (nkeys (gkey <$> ns) <= S (nkeys (keys t)))%nat ->
  (forall k0 v, hent ns k0 v <-> hent (node t) k0 v) ->
  placed t k (mkTable (array t) (lsizenode t) ns (isdummy t) l) i.
Proof.
  intros Hok Hk Ha Hd Hlen Hh (n & Hi & Hkn) Hnil Hks Hl Hfree Hcount Hent. split; simpl; try done; last first.
  - eapply hfind_Some; [done|]. exists k. rw list_lookup_fmap Hi /= Hkn. split_and!; try done. by destruct Hk, k.
  - by rw /capacity /= Hd Hlen.
  - split; simpl; try done; try apply Hok.
    + rw Hlen. apply Hok.
    + intros j m Hj Hm. destruct (Hks (gkey m)) as [->|Hin]; [apply list_elem_of_lookup; exists j; by rw list_lookup_fmap Hj|done|].
      apply list_elem_of_lookup in Hin as [j' Hj']. destruct (key_at t _ _ Hj') as (m' & Hm' & Heq). rw -Heq.
      apply (t_hkey _ Hok j' m'); congruence.
    + by rw Hd.
    + by rw Hlen.
    + intros j m _. apply Hfree.
Qed.

(** ** Free nodes *)

Lemma getfreepos_loop_spec t l fuel : l <= length (node t) -> (Z.to_nat l < fuel)%nat ->
  exists r l', getfreepos_loop fuel t l = LOk (r, l') /\ l' < l /\
    match r with
    | Some f => l' = f /\ (exists n, node t !! f = Some n /\ gkey n = TNil) /\
        forall (i : nat) n, f < i < l -> node t !! i = Some n -> gkey n <> TNil
    | None => forall (i : nat) n, i < l -> node t !! i = Some n -> gkey n <> TNil
    end.
Proof.
  revert l. induction fuel as [|fuel IH] => l Hl Hf; [lia|]. cbn [getfreepos_loop]. destruct (decide (l > 0)) as [Hpos|Hpos]; last first.
  { exists None, (l - 1). split; [done|]. split; [lia|]. intros i n ?. lia. }
  destruct (lookup_lt_is_Some_2 (node t) (Z.to_nat (l - 1))) as [n Hn]; [lia|]. rw /gnode Hn LOk_bind.
  destruct (key_nil (gkey n)) eqn:Hk.
  - exists (Some (Z.to_nat (l - 1))), (l - 1). split; [done|]. split; [lia|]. split; [lia|]. split; [exists n; by destruct (gkey n)|]. intros. lia.
  - assert (gkey n <> TNil) as Hnn by (by intros E; rw E in Hk).
    destruct (IH (l - 1) ltac:(lia) ltac:(lia)) as (r & l' & Heq & Hl' & Hr). exists r, l'. split; [done|]. split; [lia|].
    assert (forall (i : nat) m, i < l -> ~ i < l - 1 -> node t !! i = Some m -> gkey m <> TNil) as Hlast.
    { intros i m ? ? Him. assert (i = Z.to_nat (l - 1)) as -> by lia. by simplify_eq. }
    destruct r as [f|].
    + destruct Hr as (-> & Hex & Hr). split; [done|]. split; [done|]. intros i m Hi Him. destruct (decide (i < l - 1)); [by apply (Hr i); [lia|]|].
      apply (Hlast i m); [lia..|done].
    + intros i m Hi Him. destruct (decide (i < l - 1)); [by apply (Hr i)|]. by apply (Hlast i m).
Qed.

Lemma getfreepos_spec t : tab_ok t -> exists r l, getfreepos t = LOk (r, with_lastfree t l) /\ l <= length (node t) /\
    match r with
    | Some f => isdummy t = false /\ (exists n, node t !! f = Some n /\ gkey n = TNil) /\
        forall (i : nat) n, l <= i -> i <> f -> node t !! i = Some n -> gkey n <> TNil
    | None => tab_ok (with_lastfree t l) /\ (capacity t <= nkeys (keys t))%nat
    end.
Proof.
  intros Hok. pose proof (t_lastfree _ Hok). rw /getfreepos.
  destruct (getfreepos_loop_spec t (lastfree t) (S (Z.to_nat (lastfree t)))) as (r & l & -> & Hl & Hr); [done|lia|].
  exists r, l. split; [done|]. split; [lia|]. destruct r as [f|].
  - destruct Hr as (-> & Hex & Hr). split.
    { destruct (isdummy t) eqn:Hd; [|done]. destruct (t_dummy _ Hok Hd) as [_ ?]. lia. }
    split; [done|]. intros i n Hi Hne Hn. destruct (decide (i < lastfree t)); [apply (Hr i n); [lia|done]|].
    destruct (isdummy t) eqn:Hd; [destruct (t_dummy _ Hok Hd); lia|]. apply (t_free _ Hok i n); [done|lia|done].
  - assert (isdummy t = false -> forall (i : nat) n, node t !! i = Some n -> gkey n <> TNil) as Hall.
    { intros Hd i n Hn. destruct (decide (i < lastfree t)); [by apply (Hr i)|]. apply (t_free _ Hok i n); [done|lia|done]. }
    split.
    + split; simpl; try apply Hok; [|lia|intros i n Hd _; by apply Hall].
      intros Hd. destruct (t_dummy _ Hok Hd). split; [done|lia].
    + rw /capacity. destruct (isdummy t); [lia|]. rw nkeys_full ?length_fmap //.
      intros i k (n & Hn & <-)%key_at. by eapply Hall.
Qed.

(** ** The three ways to place a key *)

Lemma put_key_spec t mp k n : isdummy t = false -> node t !! mp = Some n ->
  put_key t mp k = LOk (mkTable (array t) (lsizenode t) (<[mp := mkNode (gval n) k (gnext n)]> (node t)) (isdummy t) (lastfree t), SNode mp).
Proof. intros Hd Hn. rw /put_key /gnode Hn LOk_bind /put_node Hd decide_True //. by apply lookup_lt_Some in Hn; lia. Qed.

Section place.
Context (t : Table V) (k : tkey) (Hok : tab_ok t) (Hk : valid_key k) (Ha : ~ in_array t k) (Hfr : hfind (keys t) k = None) (Hd : isdummy t = false).

#[local] Lemma key_fresh : fresh_key (keys t) k.
Proof. eapply hfind_None; [apply Hok|done]. Qed.

(** The main position has no value. *)
Lemma place_main n : node t !! mainposition t k = Some n -> gval n = None ->
  exists t', put_key t (mainposition t k) k = LOk (t', SNode (mainposition t k)) /\ placed t k t' (mainposition t k).
Proof.
  intros Hn Hv. set (p := mainposition t k) in *. pose proof (lookup_lt_Some _ _ _ Hn) as Hlt.
  eexists. split; [by apply put_key_spec|]. apply placed_intro; try done.
  - by rw length_insert.
  - rw !list_fmap_insert /=. rw (list_insert_id (nexts t)); [by rw list_lookup_fmap Hn|].
    apply hash_take; [apply Hok|apply Hk|done|by rw length_fmap|apply key_fresh].
  - eexists. by rw list_lookup_insert_eq.
  - intros j m [(<- & <- & _)|[_ Hj]]%list_lookup_insert_Some; [done|]. by apply (t_nil _ Hok j).
  - intros k'. rw list_fmap_insert /= => Hin. apply list_elem_of_lookup in Hin as [j [(_ & -> & _)|[_ Hj]]%list_lookup_insert_Some]; [by left|].
    right. apply list_elem_of_lookup. by exists j.
  - apply Hok.
  - intros j m Hj [(<- & <- & _)|[_ Hm]]%list_lookup_insert_Some; [simpl; by destruct Hk, k|]. by apply (t_free _ Hok j m).
  - rw list_fmap_insert /=. pose proof (nkeys_insert (keys t) p (gkey n) k) as Hc. rw list_lookup_fmap Hn in Hc.
    specialize (Hc eq_refl). repeat case_decide; lia.
  - intros k0 v. by eapply hent_insert_nil.
Qed.

Context (f : nat) (l : Z) (nf nmp : Node V) (Hf : node t !! f = Some nf) (Hnf : gkey nf = TNil) (Hl : l <= length (node t)).
Context (Hfree : forall (i : nat) n, l <= i -> i <> f -> node t !! i = Some n -> gkey n <> TNil).
Context (Hmp : node t !! mainposition t k = Some nmp) (Hv : gval nmp <> None).
Let p := mainposition t k.

#[local] Lemma mp_used : gkey nmp <> TNil /\ p <> f.
Proof. assert (gkey nmp <> TNil) by (intros E; by apply (t_nil _ Hok _ _ Hmp) in E). split; [done|]. rw /p. congruence. Qed.

(** The colliding node is in its main position: the new key goes behind it. *)
Lemma place_behind : mainposition t (gkey nmp) = p ->
  exists t', ('(t, mp) ← make_room (with_lastfree t l) p f; put_key t mp k) = LOk (t', SNode f) /\ placed t k t' f.
Proof.
  intros Hm. destruct mp_used as [Hu Hpf]. pose proof (lookup_lt_Some _ _ _ Hf) as Hflt. pose proof (lookup_lt_Some _ _ _ Hmp) as Hplt.
  pose proof (t_nil _ Hok _ _ Hf Hnf) as Hvf.
  set (ns := <[f := mkNode None k (gnext nmp)]> (<[p := mkNode (gval nmp) (gkey nmp) (Some f)]> (<[f := mkNode None TNil (gnext nmp)]> (node t)))).
  assert (('(t, mp) ← make_room (with_lastfree t l) p f; put_key t mp k) = LOk (mkTable (array t) (lsizenode t) ns (isdummy t) l, SNode f)) as ->.
  { rw /make_room /gnode (mainposition_size (with_lastfree t l) t) // /= Hmp LOk_bind Hm decide_False; [tauto|]. rw Hf LOk_bind /put_node /= Hd decide_True; [lia|].
    rw LOk_bind /= length_insert decide_True; [lia|]. rw !LOk_bind Hvf Hnf.
    rw (put_key_spec _ _ _ (mkNode None TNil (gnext nmp))) //. by rw /= list_lookup_insert_ne // list_lookup_insert_eq. }
  eexists. split; [done|].
  assert (gkey <$> ns = <[f := k]> (keys t)) as Hks.
  { rw /ns !list_fmap_insert /=. rw (list_insert_id (<[f := TNil]> _)); [rw list_lookup_insert_ne // list_lookup_fmap Hmp //|].
    by rw list_insert_insert_eq. }
  apply placed_intro; try done.
  - by rw /ns !length_insert.
  - rw Hks /ns !list_fmap_insert /=. rw list_insert_insert_ne // list_insert_insert_eq.
    eapply (hash_insert _ _ _ (t_hash _ Hok) p f k (gkey nmp)); try done; [apply Hk|apply key_fresh|..]; rw list_lookup_fmap ?Hmp ?Hf /= ?Hnf //.
  - eexists. rw /ns list_lookup_insert_eq ?length_insert //.
  - intros j m. rw /ns. intros [(<- & <- & _)|[? [(<- & <- & _)|[? Hj]]%list_lookup_insert_Some]]%list_lookup_insert_Some; try done.
    rw list_lookup_insert_ne // in Hj. by apply (t_nil _ Hok j).
  - intros k'. rw Hks => Hin. apply list_elem_of_lookup in Hin as [j [(_ & -> & _)|[_ Hj]]%list_lookup_insert_Some]; [by left|].
    right. apply list_elem_of_lookup. by exists j.
  - intros j m Hj. rw /ns. intros [(<- & <- & _)|[? [(<- & <- & _)|[? Hm']]%list_lookup_insert_Some]]%list_lookup_insert_Some; [by destruct Hk, k|done|].
    rw list_lookup_insert_ne // in Hm'. by eapply Hfree.
  - rw Hks. pose proof (nkeys_insert (keys t) f (gkey nf) k) as Hc. rw list_lookup_fmap Hf in Hc.
    specialize (Hc eq_refl). repeat case_decide; lia.
  - intros k0 v. rw /ns. rw (hent_insert_nil _ _ (mkNode None TNil (gnext nmp))) //; [rw list_lookup_insert_ne // list_lookup_insert_eq //|].
    rw (hent_insert_link _ _ nmp) //; [rw list_lookup_insert_ne //|]. by eapply hent_insert_nil.
Qed.

(** The node before the colliding one, which is not in its main position. *)
#[local] Lemma previous_node : mainposition t (gkey nmp) <> p ->
  exists o no, find_previous (S (length (node t))) (with_lastfree t l) (mainposition t (gkey nmp)) p = LOk o /\
    node t !! o = Some no /\ gnext no = Some p.
Proof.
  intros Hm. destruct mp_used as [Hu Hpf]. pose proof (t_hash _ Hok) as Hh.
  destruct (h_main _ _ _ Hh p (gkey nmp)) as (c & Hc & Hin); [by rw list_lookup_fmap Hmp|done|].
  pose proof (chain_length _ _ _ Hc) as Hlen. rw length_fmap in Hlen.
  destruct (find_previous_spec (with_lastfree t l) (S (length (node t))) _ _ p Hc) as (o & Ho & Hno); [lia|done|congruence|].
  destruct (gnode_next (with_lastfree t l) _ _ Hno) as (no & ? & ? & _). by exists o, no.
Qed.

(** The colliding node is not in its main position: it moves, and the new key takes its place. *)
Lemma place_moved : mainposition t (gkey nmp) <> p ->
  exists t', ('(t, mp) ← make_room (with_lastfree t l) p f; put_key t mp k) = LOk (t', SNode p) /\ placed t k t' p.
Proof.
  intros Hm. destruct mp_used as [Hu Hpf]. destruct (previous_node Hm) as (o & no & Hfp & Hno & Hnext).
  pose proof (lookup_lt_Some _ _ _ Hf) as Hflt. pose proof (lookup_lt_Some _ _ _ Hmp) as Hplt. pose proof (lookup_lt_Some _ _ _ Hno) as Holt.
  pose proof (t_nil _ Hok _ _ Hf Hnf) as Hvf. pose proof (t_hash _ Hok) as Hh.
  assert (hash_ok (mainposition t) (<[p := TNil]> (<[f := gkey nmp]> (keys t))) (<[p := None]> (<[f := gnext nmp]> (<[o := Some f]> (nexts t))))) as Hh'.
  { apply (hash_move _ _ _ Hh); try done; rw list_lookup_fmap ?Hmp ?Hf ?Hno //= ?Hnf ?Hnext //. }
  assert (nexts t !! f = Some None) as Hnf' by (apply (h_free _ _ _ Hh); by rw list_lookup_fmap Hf /= Hnf).
  assert (o <> f) as Hof by (intros ->; rw list_lookup_fmap Hno in Hnf'; simplify_eq/=; congruence).
  assert (o <> p) as Hop.
  { intros ->. pose proof (h_chain _ _ _ Hh p) as [c Hc]; [by rw length_fmap|]. pose proof (chain_NoDup _ _ _ Hc) as Hnd.
    inversion Hc as [|? x c' Hx Hc' E1 E2]. rw -E2 in Hnd. apply NoDup_cons in Hnd as [[] _]. rw list_lookup_fmap Hno in Hx. simplify_eq/=.
    rw Hnext in Hc'. inversion Hc'. apply list_elem_of_here. }
  set (ns1 := <[o := mkNode (gval no) (gkey no) (Some f)]> (node t)).
  set (ns := <[p := mkNode None k None]> (<[p := mkNode None (gkey nmp) None]> (<[f := nmp]> ns1))).
  assert (('(t, mp) ← make_room (with_lastfree t l) p f; put_key t mp k) = LOk (mkTable (array t) (lsizenode t) ns (isdummy t) l, SNode p)) as ->.
  { rw /make_room (mainposition_size (with_lastfree t l) t) // /gnode. cbn [node with_lastfree].
    rw Hmp LOk_bind decide_True // Hfp LOk_bind Hno LOk_bind.
    rw /put_node /= Hd decide_True; [lia|]. rw LOk_bind /= list_lookup_insert_ne // Hmp LOk_bind length_insert decide_True; [lia|].
    rw LOk_bind /= !length_insert decide_True; [lia|]. rw !LOk_bind.
    rw (put_key_spec _ _ _ (mkNode None (gkey nmp) None)) //. by rw /= list_lookup_insert_eq ?length_insert. }
  eexists. split; [done|].
  assert (gkey <$> ns = <[p := k]> (<[p := TNil]> (<[f := gkey nmp]> (keys t)))) as Hks.
  { rw /ns /ns1 !list_fmap_insert /= !list_insert_insert_eq. do 2 f_equal. apply list_insert_id. by rw list_lookup_fmap Hno. }
  assert (forall i k', (<[p := TNil]> (<[f := gkey nmp]> (keys t))) !! i = Some k' -> k' = TNil \/ k' ∈ keys t) as Hold.
  { intros i k' [(_ & <- & _)|[_ [(_ & <- & _)|[_ Hi]]%list_lookup_insert_Some]]%list_lookup_insert_Some; [by left|right..].
    - apply list_elem_of_lookup. exists p. by rw list_lookup_fmap Hmp.
    - apply list_elem_of_lookup. by exists i. }
  apply placed_intro; try done.
  - by rw /ns /ns1 !length_insert.
  - rw Hks. assert (gnext <$> ns = <[p := None]> (<[f := gnext nmp]> (<[o := Some f]> (nexts t)))) as ->
      by rw /ns /ns1 !list_fmap_insert /= list_insert_insert_eq //.
    apply (hash_take _ _ _ Hh'); [apply Hk|done|by rw !length_insert length_fmap|].
    intros i k' Hi Hn. destruct (Hold _ _ Hi) as [->|[j Hj]%list_elem_of_lookup]; [done|]. by apply (key_fresh j).
  - eexists. by rw /ns list_lookup_insert_eq // /ns1 !length_insert.
  - intros j m. rw /ns list_insert_insert_eq. intros [(<- & <- & _)|[? [(<- & <- & _)|[? Hj]]%list_lookup_insert_Some]]%list_lookup_insert_Some; try done.
    apply list_lookup_insert_Some in Hj as [(<- & <- & _)|[_ Hj]]; [simpl; by apply (t_nil _ Hok o)|by apply (t_nil _ Hok j)].
  - intros k'. rw Hks list_insert_insert_eq => Hin. apply list_elem_of_lookup in Hin as [j Hj].
    apply list_lookup_insert_Some in Hj as [(_ & -> & _)|[? Hj]]; [by left|right].
    destruct (Hold j k') as [->|?]; [rw list_lookup_insert_ne //| |done].
    apply list_elem_of_lookup. destruct (decide (j = f)) as [->|]; [rw list_lookup_insert_eq ?length_fmap // in Hj; congruence|].
    rw list_lookup_insert_ne // in Hj. by exists j.
  - intros j m Hj. rw /ns list_insert_insert_eq. intros [(<- & <- & _)|[? [(<- & <- & _)|[? Hm']]%list_lookup_insert_Some]]%list_lookup_insert_Some; [by destruct Hk, k|done|].
    apply list_lookup_insert_Some in Hm' as [(<- & <- & _)|[_ Hm']]; [simpl; by apply (Hfree o)|]. by eapply Hfree.
  - rw Hks list_insert_insert_eq. pose proof (nkeys_insert (keys t) f TNil (gkey nmp)) as Hc. rw list_lookup_fmap Hf /= Hnf in Hc.
    pose proof (nkeys_insert (<[f := gkey nmp]> (keys t)) p (gkey nmp) k) as Hc'. rw list_lookup_insert_ne // list_lookup_fmap Hmp in Hc'.
    specialize (Hc eq_refl). specialize (Hc' eq_refl). repeat case_decide; lia.
  - intros k0 v. rw /ns list_insert_insert_eq /ns1. rw (hent_move _ p f nmp nf) //; [by rw list_lookup_insert_ne..|].
    by apply (hent_insert_link _ _ no).
Qed.
End place.

(** ** newkey() *)

(** A new key is placed, or there is no free node and the table is rehashed. *)
Lemma newkey_cases fuel t k : tab_ok t -> valid_key k -> slot_of t k = SNilObject ->
  (exists t' i, newkey (S fuel) t k = LOk (t', SNode i) /\ placed t k t' i) \/
  (capacity t <= nkeys (keys t))%nat /\
    exists l, tab_ok (with_lastfree t l) /\
      newkey (S fuel) t k = (t' ← rehash (newkey fuel) (with_lastfree t l) k; luaH_set_ (newkey fuel) t' k).
Proof.
  intros Hok Hk Hs. assert (~ in_array t k) as Ha by (intros E; by rw slot_of_array in Hs).
  rw slot_of_hash // in Hs. destruct (hfind (keys t) k) eqn:Hfr; [done|].
  destruct (lookup_lt_is_Some_2 (node t) (mainposition t k)) as [nmp Hmp]; [by apply mainposition_lt|].
  cbn [newkey]. cbv zeta. rw /gnode Hmp !LOk_bind.
  destruct (negb (is_nil (gval nmp)) || isdummy t) eqn:Hc; last first.
  { apply orb_false_iff in Hc as [Hv Hd]. left. destruct (place_main t k Hok Hk Ha Hfr Hd nmp Hmp) as (t' & ? & ?); [by destruct (gval nmp)|]. by eexists _, _. }
  destruct (getfreepos_spec t Hok) as (r & l & -> & Hl & Hr). rw !LOk_bind. destruct r as [f|]; [left|right].
  - destruct Hr as (Hd & (nf & Hf & Hnf) & Hfree). rw Hd orb_false_r in Hc. assert (gval nmp <> None) by (by destruct (gval nmp)).
    destruct (decide (mainposition t (gkey nmp) = mainposition t k)).
    + destruct (place_behind t k Hok Hk Ha Hfr Hd f l nf nmp) as (t' & ? & ?); try done. by eexists _, _.
    + destruct (place_moved t k Hok Hk Ha Hfr Hd f l nf nmp) as (t' & ? & ?); try done. by eexists _, _.
  - destruct Hr as [Hok' Hcap]. split; [done|]. by exists l.
Qed.
End insert.
