(* ===== verification/LuaTabStore.v ===== *)
(** LuaTabStore: stores through the pointers that luaH_set() of ltable.c returns, and the
    elements of a table in the order of its parts.

    Here the hash part always has a free node for a new key; then newkey() does not rehash. *)

From Corelib Require Import ssreflect.
From stdpp Require Import base list numbers strings.
From Stdlib Require Import ZArith Lia.
From S2P Require Import Prelude LuaObject LuaStr LuaNumber LuaTable LuaTabChain LuaTabOk LuaTabInsert.

Section store.
Context `{LuaEnv} {V : Type}.
Implicit Types (t : Table V) (ns : list (Node V)).

Abbreviation keys t := (gkey <$> node t).

(** ** One store *)

(** A key is where only it can be. *)
Lemma slot_of_inj t a b : tab_ok t -> key_ok a = true -> key_ok b = true -> slot_of t a <> SNilObject ->
  slot_of t a = slot_of t b -> kid a = kid b.
Proof.
  intros Hok Ha Hb. pose proof (t_hash _ Hok) as Hh. destruct (decide (in_array t a)) as [Hia|Hia], (decide (in_array t b)) as [Hib|Hib].
  - rw !slot_of_array // => _ [= Heq]. rw /in_array in Hia Hib. apply arrayindex_inj; lia.
  - rw (slot_of_array t a) // (slot_of_hash t b) //. destruct (hfind (keys t) b); intros; discriminate.
  - rw (slot_of_array t b) // (slot_of_hash t a) //. destruct (hfind (keys t) a); intros; discriminate.
  - rw !slot_of_hash //. destruct (hfind (keys t) a) as [i|] eqn:Ea; [|done]. destruct (hfind (keys t) b) as [j|] eqn:Eb; [|done]. intros _ [= <-].
    apply (hfind_Some _ _ _ Hh) in Ea as (k & Hk & _ & <-). apply (hfind_Some _ _ _ Hh) in Eb as (k' & Hk' & _ & <-). congruence.
Qed.

(** Tables with the same keys in the same places. *)
Lemma slot_of_same t t' k : keys t' = keys t -> sizearray t' = sizearray t -> slot_of t' k = slot_of t k.
Proof.
  intros Hk Hs. destruct (decide (in_array t k)) as [Ha|Ha].
  - rw !slot_of_array // /in_array Hs //.
  - rw !slot_of_hash // ?Hk // /in_array Hs //.
Qed.

Lemma tab_ok_vals t t' : tab_ok t -> array t' = array t \/ length (array t') = length (array t) ->
  isdummy t' = isdummy t -> lsizenode t' = lsizenode t -> lastfree t' = lastfree t ->
  keys t' = keys t -> gnext <$> node t' = gnext <$> node t ->
  (forall i n, node t' !! i = Some n -> gkey n = TNil -> gval n = None) -> (isdummy t = true -> node t' = node t) -> tab_ok t'.
Proof.
  intros Hok Ha Hd Hls Hlf Hk Hn Hnil Hdn. assert (length (array t') = length (array t)) as Hl by (destruct Ha; congruence).
  assert (length (node t') = length (node t)) as Hlen by (apply (f_equal length) in Hk; by rw !length_fmap in Hk).
  assert (sizearray t' = sizearray t) as Hsz by (by rw /sizearray Hl).
  assert (forall i n, node t' !! i = Some n -> exists n', node t !! i = Some n' /\ gkey n' = gkey n) as Hnode.
  { intros i n Hi. apply key_at. by rw -Hk list_lookup_fmap Hi. }
  split; rw ?Hls ?Hlen ?Hlf ?Hk ?Hn ?Hsz /sizenode ?Hls ?(mainposition_size t' t) //; try apply Hok.
  - intros i n Hi Hg. destruct (Hnode i n Hi) as (n' & Hn' & Hg'). rw -Hg' /in_array Hsz. apply (t_hkey _ Hok i n' Hn'). congruence.
  - rw Hd => Hdt. rw Hdn //. by apply (t_dummy _ Hok).
  - rw Hd. intros i n Hdt Hi Hin. destruct (Hnode i n Hin) as (n' & Hn' & <-). by apply (t_free _ Hok i n').
Qed.

Lemma put_spec t k v : tab_ok t -> valid_key k -> slot_of t k <> SNilObject ->
  exists t', slot_put t (slot_of t k) v = LOk t' /\ tab_ok t' /\ capacity t' = capacity t /\ sizearray t' = sizearray t /\
    keys t' = keys t /\
    forall k', key_ok k' = true -> tlookup t' k' = if decide (kid k' = kid k) then v else tlookup t k'.
Proof.
  intros Hok Hk Hs. pose proof (t_hash _ Hok) as Hh.
  assert (forall t', slot_put t (slot_of t k) v = LOk t' -> keys t' = keys t -> sizearray t' = sizearray t ->
    (forall s, slot_get t' s = if decide (s = slot_of t k) then v else slot_get t s) ->
    forall k', key_ok k' = true -> tlookup t' k' = if decide (kid k' = kid k) then v else tlookup t k') as Hget.
  { intros t' _ Hks Hsz Hslot k' Hk'. rw /tlookup Hslot (slot_of_same t t') //.
    destruct (decide (kid k' = kid k)) as [Heq|Hne]; [rw decide_True //; apply slot_of_kid; by try apply Hk|].
    rw decide_False //. intros Heq. apply Hne. symmetry. eapply slot_of_inj; try done. apply Hk. }
  destruct (decide (in_array t k)) as [Ha|Ha].
  - rw slot_of_array // in Hs Hget |- *. set (i := Z.to_nat (arrayindex k - 1)) in *.
    assert (i < length (array t))%nat as Hi by (rw /in_array /sizearray in Ha; lia).
    assert (slot_put t (SArray i) v = LOk (with_array t (<[i := v]> (array t)))) as Hput by (rw /= decide_True //; lia).
    eexists. split; [done|]. assert (sizearray (with_array t (<[i := v]> (array t))) = sizearray t) by (rw /sizearray /= length_insert //).
    split; [|split; [done|split; [done|split; [done|]]]].
    + apply (tab_ok_vals t); try done; [right; by rw /= length_insert|apply Hok].
    + apply Hget; try done. intros [|j|j]; simpl; try done. destruct (decide (j = i)) as [->|Hne].
      * rw decide_True // list_lookup_insert_eq //.
      * rw decide_False; [congruence|]. rw list_lookup_insert_ne //.
  - rw slot_of_hash // in Hs Hget |- *. destruct (hfind (keys t) k) as [i|] eqn:E; [|done].
    apply (hfind_Some _ _ _ Hh) in E as (k0 & Hi & Hnil & Hkid). destruct (key_at t i k0 Hi) as (n & Hn & Hg).
    assert (isdummy t = false) as Hd.
    { destruct (isdummy t) eqn:Hd; [|done]. destruct (t_dummy _ Hok Hd) as [Hdn _]. rw Hdn in Hn. destruct i; simplify_eq/=; done. }
    pose proof (lookup_lt_Some _ _ _ Hn) as Hlt. set (n' := mkNode v (gkey n) (gnext n)).
    set (t' := mkTable (array t) (lsizenode t) (<[i := n']> (node t)) (isdummy t) (lastfree t)).
    assert (slot_put t (SNode i) v = LOk t') as Hput by (rw /= /gnode Hn LOk_bind /put_node Hd decide_True //; [lia|]; by rw /t' Hd).
    assert (keys t' = keys t) as Hks by (rw /= list_fmap_insert; apply list_insert_id; by rw list_lookup_fmap Hn).
    exists t'. split; [done|]. split; [|split; [|split; [done|split; [done|]]]].
    + apply (tab_ok_vals t); try done; [by left|rw /= list_fmap_insert; apply list_insert_id; by rw list_lookup_fmap Hn| |congruence].
      intros j m [(<- & <- & _)|[_ Hj]]%list_lookup_insert_Some; [simpl; congruence|by apply (t_nil _ Hok j)].
    + by rw /capacity /= length_insert.
    + apply Hget; try done. intros [|j|j]; simpl; try done. destruct (decide (j = i)) as [->|Hne].
      * rw decide_True // list_lookup_insert_eq //.
      * rw decide_False; [congruence|]. rw list_lookup_insert_ne //.
Qed.

(** ** A key that is set *)

Lemma placed_lookup t k t' i : tab_ok t -> placed t k t' i -> forall k', key_ok k' = true -> tlookup t' k' = tlookup t k'.
Proof.
  intros Hok Hp k' Hk'. pose proof (p_array _ _ _ _ Hp) as Ha. destruct (decide (in_array t k')) as [Hi|Hi].
  - rw /tlookup !slot_of_array /= ?Ha //. by rw /in_array /sizearray Ha.
  - apply option_eq => v. rw (tlookup_hash t) // (tlookup_hash t'); [apply Hp|by rw /in_array /sizearray Ha|].
    by setoid_rewrite (p_hent _ _ _ _ Hp).
Qed.

(** What luaH_set() gives when it does not rehash. *)
Lemma set_room fuel t k : tab_ok t -> valid_key k -> (slot_of t k = SNilObject -> nkeys (keys t) < capacity t)%nat ->
  exists t', luaH_set_ (newkey (S fuel)) t k = LOk (t', slot_of t' k) /\ slot_of t' k <> SNilObject /\ tab_ok t' /\
    array t' = array t /\ capacity t' = capacity t /\
    (nkeys (keys t') <= nkeys (keys t) + (if decide (in_array t k) then 0 else 1))%nat /\
    forall k', key_ok k' = true -> tlookup t' k' = tlookup t k'.
Proof.
  intros Hok Hk Hroom. rw /luaH_set_ get_spec // LOk_bind. destruct (decide (slot_of t k = SNilObject)) as [Hs|Hs]; last first.
  { exists t. split; [by destruct (slot_of t k)|]. split_and!; try done. lia. }
  destruct (newkey_cases fuel t k Hok Hk Hs) as [(t' & i & Hnk & Hp)|[Hcap _]]; [|specialize (Hroom Hs); lia].
  assert (~ in_array t k) as Ha by (intros E; by rw slot_of_array in Hs).
  assert (slot_of t' k = SNode i) as Hslot.
  { rw slot_of_hash ?(p_find _ _ _ _ Hp) //. by rw /in_array /sizearray (p_array _ _ _ _ Hp). }
  exists t'. rw Hs Hslot Hnk. split.
  { destruct Hk as [Hk _]. destruct k as [|b|n|p|p|tt p]; try done. rw /luai_numisnan. rw numeq_refl //. by destruct n. }
  split; [done|]. split; [apply Hp|]. split; [apply Hp|]. split; [apply Hp|]. split; [|by apply placed_lookup with (k := k) (i := i)].
  rw decide_False //. pose proof (p_nkeys _ _ _ _ Hp). lia.
Qed.

(** ** Many stores *)

Fixpoint store_all (nk : Table V -> tkey -> lres (Table V * slot)) (kvs : list (tkey * V)) t : lres (Table V) :=
  match kvs with
  | [] => LOk t
  | (k, v) :: kvs =>
      '(t, s) ← luaH_set_ nk t k;
      t ← slot_put t s (Some v);
      store_all nk kvs t
  end.

Lemma store_all_app nk kvs1 kvs2 t : store_all nk (kvs1 ++ kvs2) t = (t ← store_all nk kvs1 t; store_all nk kvs2 t).
Proof.
  revert t. induction kvs1 as [|[k v] kvs1 IH] => t; [done|]. cbn [store_all app].
  destruct (luaH_set_ nk t k) as [[t1 s]| |]; [|done..]. rw !LOk_bind. destruct (slot_put t1 s (Some v)); [|done..]. by rw !LOk_bind IH.
Qed.

(** The keys that an array part of size [n] does not hold. *)
Definition outside (n : Z) (kvs : list (tkey * V)) : nat := length (filter (fun kv => ~ 1 <= arrayindex kv.1 <= n) kvs).

Definition bound_to (kvs : list (tkey * V)) (k : tkey) (v : V) : Prop := exists k0, (k0, v) ∈ kvs /\ kid k0 = kid k.

Lemma bound_to_cons k0 v0 kvs k v : bound_to ((k0, v0) :: kvs) k v <-> kid k0 = kid k /\ v0 = v \/ bound_to kvs k v.
Proof.
  rw /bound_to. split.
  - intros (k1 & [[= -> ->]|Hin]%elem_of_cons & Hk); [by left|]. right. by exists k1.
  - intros [[Hk ->]|(k1 & Hin & Hk)]; [exists k0|exists k1]; (split; [|done]); [apply list_elem_of_here|by apply list_elem_of_further].
Qed.

(** Distinct keys are stored one after the other, if there is a free node for each that needs one. *)
Lemma store_all_room fuel kvs t : tab_ok t -> Forall (fun kv => valid_key kv.1) kvs -> NoDup ((fun kv => kid kv.1) <$> kvs) ->
  (nkeys (keys t) + outside (sizearray t) kvs <= capacity t)%nat ->
  exists t', store_all (newkey (S fuel)) kvs t = LOk t' /\ tab_ok t' /\ sizearray t' = sizearray t /\ capacity t' = capacity t /\
    (nkeys (keys t') <= nkeys (keys t) + outside (sizearray t) kvs)%nat /\
    forall k v, key_ok k = true -> tlookup t' k = Some v <-> bound_to kvs k v \/ (forall w, ~ bound_to kvs k w) /\ tlookup t k = Some v.
Proof.
  revert t. induction kvs as [|[k v] kvs IH] => t Hok Hval Hnd Hroom.
  { exists t. split; [done|]. split_and!; try done; [lia|]. intros k v Hk. rw /bound_to. setoid_rewrite elem_of_nil. naive_solver. }
  apply Forall_cons in Hval as [Hk Hval]. apply NoDup_cons in Hnd as [Hni Hnd]. cbn [fst] in Hk, Hni.
  assert (outside (sizearray t) ((k, v) :: kvs) = (if decide (in_array t k) then 0 else 1) + outside (sizearray t) kvs)%nat as Hout.
  { rw /outside filter_cons /=. destruct (decide (~ _)) as [E|E], (decide (in_array t k)) as [E'|E']; rw /in_array in E'; try done; lia. }
  rw Hout in Hroom. destruct (set_room fuel t k Hok Hk) as (t1 & Hset & Hs1 & Hok1 & Ha1 & Hc1 & Hn1 & Hl1).
  { intros Hs. destruct (decide (in_array t k)); [by rw slot_of_array in Hs|]. lia. }
  destruct (put_spec t1 k (Some v) Hok1 Hk Hs1) as (t2 & Hput & Hok2 & Hc2 & Hsz2 & Hks2 & Hl2).
  assert (sizearray t2 = sizearray t) as Hsz by (rw Hsz2 /sizearray Ha1 //).
  destruct (IH t2 Hok2 Hval Hnd) as (t' & Hall & Hok' & Hsz' & Hc' & Hn' & Hl'); [rw Hsz Hks2; lia|].
  exists t'. cbn [store_all]. rw Hset LOk_bind Hput LOk_bind Hall. split; [done|]. split; [done|]. split; [congruence|]. split; [congruence|].
  split; [rw Hsz Hks2 in Hn'; lia|]. intros k' v' Hk'. rw Hl' // Hl2 // Hl1 //. setoid_rewrite bound_to_cons.
  assert (forall w, bound_to kvs k' w -> kid k' <> kid k) as Hother.
  { intros w (k0 & Hin & Hk0) Heq. apply Hni. apply list_elem_of_fmap. exists (k0, w). split; [simpl; congruence|done]. }
  destruct (decide (kid k' = kid k)) as [Heq|Hne]; naive_solver.
Qed.
End store.
