(* ===== verification/LuaTabCount.v ===== *)
(** LuaTabCount: the elements of a table in the order of its parts, and how rehash() of
    ltable.c counts its integer keys and chooses the new size of the array part. *)

From Corelib Require Import ssreflect.
From stdpp Require Import base list numbers strings.
From Stdlib Require Import ZArith Lia.
From S2P Require Import Prelude LuaObject LuaStr LuaNumber LuaTable LuaTabChain LuaTabOk LuaTabInsert LuaTabStore.

(** ** Counting *)

(** How many members of a list have a property. *)
Definition count {A} (P : A -> Prop) `{forall x, Decision (P x)} (l : list A) : Z := length (filter P l).

Section count.
Context {A : Type} (P : A -> Prop) `{forall x, Decision (P x)}.

Lemma count_app l l' : count P (l ++ l') = count P l + count P l'.
Proof. rw /count filter_app length_app. lia. Qed.

Lemma count_cons x l : count P (x :: l) = (if decide (P x) then 1 else 0) + count P l.
Proof. rw /count filter_cons. destruct (decide (P x)); simpl; lia. Qed.

Lemma count_nonneg l : 0 <= count P l.
Proof. rw /count. lia. Qed.

Lemma count_length l : count P l <= length l.
Proof. rw /count. pose proof (length_filter P l). lia. Qed.

Lemma count_all l : Forall P l -> count P l = length l.
Proof. induction 1 as [|x l Hx _ IH]; [done|]. rw count_cons decide_True // IH /=. lia. Qed.

Lemma count_none l : Forall (fun x => ~ P x) l -> count P l = 0.
Proof. induction 1 as [|x l Hx _ IH]; [done|]. rw count_cons decide_False // IH. Qed.

Lemma filter_all l : Forall P l -> filter P l = l.
Proof. induction 1 as [|x l Hx _ IH]; [done|]. by rw filter_cons decide_True // IH. Qed.

Lemma count_perm l l' : l ≡ₚ l' -> count P l = count P l'.
Proof. intros Hp. rw /count. f_equal. apply Permutation_length. by apply filter_Permutation. Qed.
End count.

Lemma count_ext {A} (P Q : A -> Prop) `{forall x, Decision (P x)} `{forall x, Decision (Q x)} l :
  Forall (fun x => P x <-> Q x) l -> count P l = count Q l.
Proof. induction 1 as [|x l Hx _ IH]; [done|]. rw !count_cons IH (decide_ext (P x) (Q x)) //. Qed.

(** A count splits by another property. *)
Lemma count_split {A} (P Q R : A -> Prop) `{forall x, Decision (P x)} `{forall x, Decision (Q x)} `{forall x, Decision (R x)} l :
  Forall (fun x => (R x <-> P x \/ Q x) /\ ~ (P x /\ Q x)) l -> count R l = count P l + count Q l.
Proof.
  induction 1 as [|x l [Hx Hn] _ IH]; [done|]. rw !count_cons IH.
  destruct (decide (P x)), (decide (Q x)), (decide (R x)); try lia; tauto.
Qed.

(** ** Slices *)

Lemma ceillog2_spec x : 0 < x < 2 ^ 32 -> ceillog2 x = LOk (Z.log2_up x).
Proof.
  intros Hx. rw /ceillog2 Z.mod_small; [lia|]. rw /Z.log2_up. destruct luaO_log2_spec as [H0 Hlog].
  destruct (decide (x = 1)) as [->|Hne]; [done|]. rw Hlog; [lia|].
  assert ((1 ?= x) = Lt) as -> by (apply Z.compare_lt_iff; lia). cbn [lift]. by rw LOk_bind -Z.sub_1_r.
Qed.

(** The slice of an index is the one that its power of two closes. *)
Lemma log2_up_le x i : 0 < x -> 0 <= i -> Z.log2_up x <= i <-> x <= 2 ^ i.
Proof. intros ? ?. symmetry. by apply Z.log2_up_le_pow2. Qed.

(** The counters hold, for each slice, the number of indices in it. *)
Definition counts (nums : list Z) (L : list Z) : Prop :=
  length nums = Z.to_nat (MAXBITS + 1) /\
  forall lg, 0 <= lg <= MAXBITS -> nums !! Z.to_nat lg = Some (count (fun z => Z.log2_up z = lg) L).

Lemma counts_zero : counts (replicate (Z.to_nat (MAXBITS + 1)) 0) [].
Proof. split; [by rw length_replicate|]. intros lg Hlg. rw lookup_replicate_2 //. rw /MAXBITS in Hlg |- *. lia. Qed.

Lemma counts_add nums L lg zs : counts nums L -> 0 <= lg <= MAXBITS -> Forall (fun z => Z.log2_up z = lg) zs ->
  exists nums', nums_add nums lg (length zs) = LOk nums' /\ counts nums' (zs ++ L).
Proof.
  intros [Hlen Hnums] Hlg Hzs. rw /nums_add Hnums //. eexists. split; [done|]. split; [by rw length_insert|].
  intros lg' Hlg'. rw count_app. destruct (decide (lg' = lg)) as [->|Hne].
  - rw list_lookup_insert_eq; [rw Hlen /MAXBITS; rw /MAXBITS in Hlg; lia|]. rw (count_all _ zs) //. f_equal. lia.
  - rw list_lookup_insert_ne; [lia|]. rw Hnums // (count_none _ zs) //. eapply Forall_impl; [done|]. simpl. intros; congruence.
Qed.

Lemma counts_perm nums L L' : L ≡ₚ L' -> counts nums L -> counts nums L'.
Proof. intros Hp [Hlen Hnums]. split; [done|]. intros lg Hlg. by rw Hnums // (count_perm _ _ _ Hp). Qed.

(** ** The choice of a size *)

(** The number of indices up to the size [n]. *)
Definition upto (n : Z) (L : list Z) : Z := count (fun z => z <= n) L.

Lemma upto_step (L : list Z) i : Forall (fun z => 0 < z) L -> 0 <= i ->
  upto (2 ^ i) L = (if decide (i = 0) then 0 else upto (2 ^ (i - 1)) L) + count (fun z => Z.log2_up z = i) L.
Proof.
  intros HL Hi. rw /upto. destruct (decide (i = 0)) as [->|Hne].
  - apply count_ext. eapply Forall_impl; [done|]. intros z Hz. simpl in Hz. change (2 ^ 0) with 1. pose proof (log2_up_le z 0 Hz ltac:(lia)) as Hl.
    change (2 ^ 0) with 1 in Hl. pose proof (Z.log2_up_nonneg z). lia.
  - apply count_split. eapply Forall_impl; [done|]. intros z Hz. simpl in Hz.
    pose proof (log2_up_le z i Hz ltac:(lia)). pose proof (log2_up_le z (i - 1) Hz ltac:(lia)). lia.
Qed.

Lemma upto_all n L : Forall (fun z => z <= n) L -> upto n L = length L.
Proof. apply count_all. Qed.

(** There are no more than [n] distinct indices up to [n]. *)
Lemma upto_NoDup (n : nat) L : NoDup L -> Forall (fun z => 0 < z) L -> upto n L <= n.
Proof.
  intros Hnd HL. rw /upto /count. assert (length (filter (fun z : Z => (z <= n)%Z) L) <= length (Z.of_nat <$> seq 1 n))%nat as Hle; [|rw length_fmap length_seq in Hle; lia].
  apply submseteq_length, NoDup_submseteq; [by apply NoDup_filter|]. intros z [Hz Hin]%list_elem_of_filter.
  rw Forall_forall in HL. specialize (HL z Hin). apply list_elem_of_fmap. exists (Z.to_nat z). split; [lia|]. apply elem_of_seq. lia.
Qed.

(** No power of two below 2^i is larger than [n] and more than half in use. *)
Definition best (L : list Z) (i n : Z) : Prop := NoDup L -> forall j, 0 <= j < i -> 2 ^ j < 2 * upto (2 ^ j) L -> 2 ^ j <= n.

Section best.
Context (L : list Z) (HL : Forall (fun z => 0 < z) L).

#[local] Lemma upto_pow i : NoDup L -> 0 <= i -> upto (2 ^ i) L <= 2 ^ i.
Proof.
  intros Hnd Hi. assert (0 < 2 ^ i) by (apply Z.pow_pos_nonneg; lia). pose proof (upto_NoDup (Z.to_nat (2 ^ i)) L Hnd HL) as Hu. by rw Z2Nat.id in Hu; [lia|].
Qed.

Lemma best_skip i n : 0 <= i -> best L i n -> (NoDup L -> 2 * upto (2 ^ i) L <= 2 ^ i) -> best L (i + 1) n.
Proof. intros Hi Hb Hs Hnd j Hj Hlt. destruct (decide (j = i)) as [->|]; [specialize (Hs Hnd); lia|]. apply Hb; [done|lia|done]. Qed.

Lemma best_take i : 0 <= i -> best L (i + 1) (2 ^ i).
Proof. intros Hi Hnd j Hj _. apply Z.pow_le_mono_r; lia. Qed.

(** An empty slice does not help. *)
Lemma best_empty i n : 0 <= i -> best L i n -> count (fun z => Z.log2_up z = i) L = 0 -> best L (i + 1) n.
Proof.
  intros Hi Hb Hc. apply best_skip; [done|done|]. intros Hnd. rw upto_step // Hc. destruct (decide (i = 0)) as [->|Hne]; [done|].
  pose proof (upto_pow (i - 1) Hnd ltac:(lia)). replace (2 ^ i) with (2 * 2 ^ (i - 1)); [lia|]. rw -Z.pow_succ_r; [lia|]. f_equal. lia.
Qed.

(** The end of the loop. *)
Lemma best_done i n m : 0 <= i -> best L i n -> (NoDup L -> 2 * length L <= 2 ^ i) -> best L m n.
Proof.
  intros Hi Hb Hle Hnd j Hj Hlt. destruct (decide (j < i)); [apply Hb; [done|lia|done]|]. specialize (Hle Hnd).
  assert (2 ^ i <= 2 ^ j) by (apply Z.pow_le_mono_r; lia). pose proof (count_length (fun z => z <= 2 ^ j) L). rw /upto in Hlt. lia.
Qed.
End best.

(** The loop of computesizes() at the slice [i]. *)
Lemma computesizes_loop_spec nums L (fuel : nat) i a na n : counts nums L -> Forall (fun z => 0 < z <= MAXASIZE) L ->
  0 <= i <= MAXBITS + 1 -> MAXBITS + 1 - i < fuel ->
  a = (if decide (i = 0) then 0 else upto (2 ^ (i - 1)) L) -> (i <> 0 -> a <> length L) ->
  (n = 0 \/ exists j, 0 <= j < i /\ n = 2 ^ j) -> na = upto n L -> (n = 0 \/ n < 2 * na) -> best L i n ->
  exists n' na', computesizes_loop fuel nums (length L) i (2 ^ i) a na n = LOk (n', na') /\
    (n' = 0 \/ exists j, 0 <= j < MAXBITS + 1 /\ n' = 2 ^ j) /\ na' = upto n' L /\ (n' = 0 \/ n' < 2 * na') /\ best L (MAXBITS + 1) n'.
Proof.
  intros Hc HL. revert i a na n. induction fuel as [|fuel IH] => i a na n Hi Hf Ha Hal Hn Hna Hhalf Hbest; [rw /MAXBITS in Hi Hf; lia|].
  assert (Forall (fun z => 0 < z) L) as Hpos by (eapply Forall_impl; [done|]; simpl; lia).
  assert (forall m i', (m = 0 \/ exists j, 0 <= j < i /\ m = 2 ^ j) -> i <= i' -> m = 0 \/ exists j, 0 <= j < i' /\ m = 2 ^ j) as Hmono.
  { intros m i' [?|(j & ? & ?)] Hii; [by left|right; exists j; split; [lia|done]]. }
  assert (Z.quot (2 ^ i) 2 = 2 ^ i / 2) as Hq by (apply Z.quot_div_nonneg; lia).
  pose proof (Z.div_mod (2 ^ i) 2 ltac:(lia)). pose proof (Z.mod_pos_bound (2 ^ i) 2 ltac:(lia)).
  cbn [computesizes_loop]. destruct (decide (Z.quot (2 ^ i) 2 < length L)) as [Hlt|Hge]; last first.
  { exists n, na. split_and!; try done; [apply Hmono; [done|lia]|]. apply (best_done L i); [lia|done|]. intros _. lia. }
  assert (i <= MAXBITS) as Hi'.
  { destruct (decide (i <= MAXBITS)); [done|]. assert (i = MAXBITS + 1) as -> by lia. destruct Hal; [done|].
    rw Ha. destruct (decide _) as [?|_]; [done|]. apply upto_all. eapply Forall_impl; [exact HL|]. intros z Hz. rw MAXASIZE_val in Hz. rw /MAXBITS. simpl in *. lia. }
  destruct Hc as [Hlen Hnums]. rw Hnums; [lia|]. cbv zeta. set (c := count _ L).
  pose proof (upto_step L i Hpos ltac:(lia)) as Hup. rw -Ha -/c in Hup. assert (0 <= c) as Hc0 by apply count_nonneg.
  set (st := if decide (c > 0) then _ else _).
  assert (exists na2 n2, st = (a + c, na2, n2) /\ (n2 = 0 \/ exists j, 0 <= j < i + 1 /\ n2 = 2 ^ j) /\ na2 = upto n2 L /\ (n2 = 0 \/ n2 < 2 * na2) /\ best L (i + 1) n2)
    as (na2 & n2 & -> & Hn2 & Hna2 & Hh2 & Hb2).
  { rw /st. destruct (decide (c > 0)) as [|Hc1]; [destruct (decide (a + c > Z.quot (2 ^ i) 2)) as [Hgt|Hle]|].
    - exists (a + c), (2 ^ i). split_and!; [done|right; exists i; split; [lia|done]|done|right; rw Hq in Hgt; lia|by apply best_take; lia].
    - exists na, n. split_and!; try done; [apply Hmono; [done|lia]|]. apply best_skip; [lia|done|]. intros _. lia.
    - exists na, n. split_and!; try done; [by replace (a + c) with a by lia|apply Hmono; [done|lia]|]. apply best_empty; [done|lia|done|]. rw -/c. lia. }
  destruct (decide (a + c = length L)) as [Heq|Hneq].
  { exists n2, na2. split_and!; try done; [destruct Hn2 as [?|(j & ? & ?)]; [by left|right; exists j; split; [lia|done]]|].
    apply (best_done L (i + 1)); [lia|done|]. intros Hnd. pose proof (upto_pow L Hpos i Hnd ltac:(lia)). rw Z.pow_add_r; [lia..|]. lia. }
  replace (2 ^ i * 2) with (2 ^ (i + 1)) by (rw Z.pow_add_r; [lia..|]; lia).
  apply IH; [lia|lia| |done..]. destruct (decide (i + 1 = 0)); [lia|]. replace (i + 1 - 1) with i by lia. lia.
Qed.

Lemma computesizes_full nums L : counts nums L -> Forall (fun z => 0 < z <= MAXASIZE) L ->
  exists n, computesizes nums (length L) = LOk (n, upto n L) /\ (n = 0 \/ exists j, 0 <= j < MAXBITS + 1 /\ n = 2 ^ j) /\
    (n = 0 \/ n < 2 * upto n L) /\ best L (MAXBITS + 1) n.
Proof.
  intros Hc HL. pose proof Hc as [Hlen _].
  destruct (computesizes_loop_spec nums L (S (length nums)) 0 0 0 0 Hc HL) as (n & na & Heq & Hn & -> & Hh & Hb); try done.
  - rw Hlen /MAXBITS. lia.
  - by left.
  - symmetry. apply count_none. eapply Forall_impl; [done|]. simpl. lia.
  - by left.
  - intros _ j Hj. lia.
  - exists n. done.
Qed.

Lemma computesizes_spec nums L : counts nums L -> Forall (fun z => 0 < z <= MAXASIZE) L ->
  exists n, computesizes nums (length L) = LOk (n, upto n L) /\ 0 <= n <= MAXASIZE.
Proof.
  intros Hc HL. destruct (computesizes_full nums L Hc HL) as (n & Heq & Hn & _). exists n. split; [done|]. rw MAXASIZE_val.
  destruct Hn as [->|(j & Hj & ->)]; [lia|]. rw /MAXBITS in Hj. split; [by apply Z.pow_nonneg|]. apply Z.pow_le_mono_r; lia.
Qed.

(** Computesizes() chooses for the array part the largest power of two such that more than half of
    the indices up to it are in use, given the counts of distinct indices in the slices between powers
    of two, or 0 if there is none; it returns how many indices that is, and never reads behind the
    counters. (That an empty slice is passed over without a test does not matter.) *)
Theorem computesizes_largest nums L : counts nums L -> NoDup L -> Forall (fun z => 0 < z <= MAXASIZE) L ->
  exists n, computesizes nums (length L) = LOk (n, Z.of_nat (length (filter (fun z => z <= n) L))) /\
    (n = 0 \/ (exists j, 0 <= j <= MAXBITS /\ n = 2 ^ j) /\ n < 2 * length (filter (fun z => z <= n) L)) /\
    forall j, 0 <= j <= MAXBITS -> 2 ^ j < 2 * length (filter (fun z => z <= 2 ^ j) L) -> 2 ^ j <= n.
Proof.
  intros Hc Hnd HL. destruct (computesizes_full nums L Hc HL) as (n & Heq & Hn & Hh & Hb). exists n. split; [exact Heq|]. split.
  - destruct Hn as [->|(j & Hj & ->)]; [by left|right]. split; [exists j; split; [lia|done]|].
    destruct Hh as [Hz|?]; [|done]. assert (0 < 2 ^ j) by (apply Z.pow_pos_nonneg; lia). lia.
  - intros j Hj. apply (Hb Hnd j). lia.
Qed.

(** The keys 1, 2, 3 and 7. *)
Definition sample_nums : list Z := [1; 1; 1; 1] ++ replicate 23 0.

Lemma computesizes_largest_witness : counts sample_nums [3; 1; 7; 2] /\ exists n, computesizes sample_nums 4 = LOk (n, 3) /\ n = 4.
Proof.
  assert (counts sample_nums [3; 1; 7; 2]) as Hc.
  { split; [reflexivity|]. intros lg Hlg. rw /MAXBITS in Hlg.
    assert (forallb (fun i => bool_decide (sample_nums !! i = Some (count (fun z => Z.log2_up z = Z.of_nat i) [3; 1; 7; 2]))) (seq 0 27) = true) as Hall by (vm_compute; reflexivity).
    rw forallb_forall in Hall. specialize (Hall (Z.to_nat lg) ltac:(apply in_seq; lia)). apply bool_decide_eq_true in Hall. by rw Z2Nat.id in Hall; [lia|]. }
  split; [exact Hc|]. destruct (computesizes_largest sample_nums [3; 1; 7; 2] Hc) as (n & Heq & _).
  - apply (bool_decide_eq_true_1 _). vm_compute. reflexivity.
  - repeat constructor; vm_compute; discriminate.
  - exists n. assert (n = 4) as -> by (vm_compute in Heq; by injection Heq as <-). split; [exact Heq|reflexivity].
Defined.

(** ** The elements of a table *)

Section elements.
Context `{LuaEnv} {V : Type}.
Implicit Types (t : Table V) (ns : list (Node V)).

(** The elements of an array part from the index [i] on. *)
Fixpoint aents (i : Z) (vs : list (option V)) : list (tkey * V) :=
  match vs with
  | [] => []
  | None :: vs => aents (i + 1) vs
  | Some v :: vs => (TNum (cast_num (i + 1)), v) :: aents (i + 1) vs
  end.
Definition nents ns : list (tkey * V) := omap (fun n => v ← gval n; Some (gkey n, v)) ns.
Definition entries t : list (tkey * V) := aents 0 (array t) ++ nents (node t).

(** The integer keys that can be array indices. *)
Definition indices (ks : list tkey) : list Z := filter (fun z => 0 < z <= MAXASIZE) (arrayindex <$> ks).

Lemma indices_app ks ks' : indices (ks ++ ks') = indices ks ++ indices ks'.
Proof. by rw /indices fmap_app filter_app. Qed.

Lemma indices_range ks : Forall (fun z => 0 < z <= MAXASIZE) (indices ks).
Proof. apply Forall_forall => z Hz. by apply list_elem_of_filter in Hz as [? _]. Qed.

Lemma aents_app i vs vs' : aents i (vs ++ vs') = aents i vs ++ aents (i + length vs) vs'.
Proof.
  revert i. induction vs as [|[v|] vs IH] => i /=; rw ?IH ?Z.add_0_r //; [f_equal|]; f_equal; f_equal; lia.
Qed.

Lemma aents_elem i vs k v : (k, v) ∈ aents i vs <-> exists j : nat, vs !! j = Some (Some v) /\ k = TNum (cast_num (i + j + 1)).
Proof.
  revert i. induction vs as [|o vs IH] => i; simpl.
  { split; [by intros ?%elem_of_nil|by intros (j & ? & _)]. }
  assert ((k, v) ∈ aents (i + 1) vs <-> exists j : nat, (o :: vs) !! S j = Some (Some v) /\ k = TNum (cast_num (i + S j + 1))) as Htl.
  { rw IH. apply exist_proper => j. simpl. replace (i + 1 + j + 1) with (i + S j + 1) by lia. done. }
  destruct o as [w|].
  - rw elem_of_cons Htl. split.
    + intros [[= -> ->]|(j & ? & ?)]; [exists 0%nat; split; [done|]; do 2 f_equal; lia|by exists (S j)].
    + intros ([|j] & Hj & ->); simplify_eq/=; [left; do 3 f_equal; lia|right; by exists j].
  - rw Htl. split; [intros (j & ? & ?); by exists (S j)|]. intros ([|j] & Hj & ->); simplify_eq/=. by exists j.
Qed.

Lemma nents_elem ns k v : (k, v) ∈ nents ns <-> hent ns k v.
Proof.
  rw /nents /hent list_elem_of_omap. split.
  - intros (n & [i Hi]%list_elem_of_lookup & Hn). destruct (gval n) eqn:E; simplify_eq/=. by exists i, n.
  - intros (i & n & Hi & <- & Hv). exists n. split; [apply list_elem_of_lookup; by exists i|]. by rw Hv.
Qed.

(** *** The array part *)

Lemma count_slice_spec t (fuel : nat) i lim lc : 1 <= i -> lim <= sizearray t -> lim - i + 1 < fuel -> i <= lim + 1 ->
  count_slice fuel t i lim lc =
    LOk (lc + length (aents (i - 1) (take (Z.to_nat (lim - i + 1)) (drop (Z.to_nat (i - 1)) (array t)))), lim + 1).
Proof.
  revert i lc. induction fuel as [|fuel IH] => i lc Hi Hlim Hf Hil; [lia|]. cbn [count_slice]. case_decide as Hle; last first.
  { assert (i = lim + 1) as -> by lia. replace (Z.to_nat (lim - (lim + 1) + 1)) with 0%nat by lia. simpl. do 2 f_equal. lia. }
  destruct (lookup_lt_is_Some_2 (array t) (Z.to_nat (i - 1))) as [o Ho]; [rw /sizearray in Hlim; lia|]. rw Ho IH; [lia..|].
  rw (drop_S _ _ _ Ho). replace (Z.to_nat (lim - i + 1)) with (S (Z.to_nat (lim - (i + 1) + 1))) by lia.
  replace (S (Z.to_nat (i - 1))) with (Z.to_nat (i + 1 - 1)) by lia. cbn [take aents].
  replace (i - 1 + 1) with (i + 1 - 1) by lia. destruct o; simpl; do 2 f_equal; lia.
Qed.

(** The indices of the elements in one slice. *)
Lemma aents_indices i vs : 0 <= i -> i + length vs <= MAXASIZE ->
  length (indices (aents i vs).*1) = length (aents i vs) /\ Forall (fun z => i < z <= i + length vs) (indices (aents i vs).*1).
Proof.
  intros Hi Hle. rw MAXASIZE_val in Hle.
  assert (Forall (fun z => i < z <= i + length vs) (arrayindex <$> (aents i vs).*1)) as Hall.
  { rw -list_fmap_compose. apply Forall_fmap, Forall_forall. intros [k v] (j & Hj & ->)%aents_elem. apply lookup_lt_Some in Hj. simpl.
    pose proof (arrayindex_cast (i + j + 1) ltac:(rw /int_min /int_max; lia)) as Hidx. simpl in Hidx. rw Hidx. lia. }
  assert (indices (aents i vs).*1 = arrayindex <$> (aents i vs).*1) as ->.
  { apply filter_all. eapply Forall_impl; [exact Hall|]. intros z Hz. rw MAXASIZE_val. simpl in Hz. lia. }
  by rw !length_fmap.
Qed.

(** Where the slice [lg] begins. *)
Definition slice_end t (lg : Z) : Z := Z.min (if decide (lg = 0) then 0 else 2 ^ (lg - 1)) (sizearray t).

Lemma slice_end_step t lg : 0 <= lg -> slice_end t lg <= slice_end t (lg + 1) /\ slice_end t (lg + 1) = Z.min (2 ^ lg) (sizearray t) /\
  0 <= slice_end t lg <= sizearray t.
Proof.
  intros Hlg. rw /slice_end. destruct (decide (lg + 1 = 0)); [lia|]. replace (lg + 1 - 1) with lg by lia.
  assert (0 < 2 ^ lg) by (apply Z.pow_pos_nonneg; lia). assert (0 <= sizearray t) by (rw /sizearray; lia).
  destruct (decide (lg = 0)); [lia|]. assert (2 ^ (lg - 1) <= 2 ^ lg) by (apply Z.pow_le_mono_r; lia).
  assert (0 < 2 ^ (lg - 1)) by (apply Z.pow_pos_nonneg; lia). lia.
Qed.

Lemma slice_log2 t lg z : 0 <= lg -> slice_end t lg < z <= slice_end t (lg + 1) -> Z.log2_up z = lg.
Proof.
  intros Hlg. destruct (slice_end_step t lg Hlg) as (_ & -> & ?) => Hz. assert (0 < z) by lia. pose proof (Z.log2_up_nonneg z).
  pose proof (log2_up_le z lg ltac:(lia) Hlg). assert (lg = 0 \/ 0 < lg) as [->|Hpos] by lia; [lia|].
  pose proof (log2_up_le z (lg - 1) ltac:(lia) ltac:(lia)). rw /slice_end in Hz. destruct (decide (lg = 0)); lia.
Qed.

Lemma numusearray_loop_spec t fuel lg nums L : sizearray t <= MAXASIZE -> 0 <= lg -> lg + Z.of_nat fuel = MAXBITS + 1 ->
  let seen := take (Z.to_nat (slice_end t lg)) (array t) in
  counts nums (indices (aents 0 seen).*1 ++ L) ->
  exists nums', numusearray_loop fuel t lg (2 ^ lg) (slice_end t lg + 1) (length (aents 0 seen)) nums =
      LOk (Z.of_nat (length (aents 0 (array t))), nums') /\ counts nums' (indices (aents 0 (array t)).*1 ++ L).
Proof.
  intros Hsz. revert lg nums. induction fuel as [|fuel IH] => lg nums Hlg Hfuel seen Hc.
  { exists nums. assert (seen = array t) as <-; [|done]. apply take_ge. assert (lg = MAXBITS + 1) as -> by lia.
    rw MAXASIZE_val in Hsz. rw /slice_end. destruct (decide _) as [?|_]; [done|]. change (2 ^ (MAXBITS + 1 - 1)) with (2 ^ 26).
    rw /sizearray in Hsz |- *. lia. }
  destruct (slice_end_step t lg Hlg) as (Hle & Hend & Hse). cbn [numusearray_loop]. cbv zeta.
  assert ((if decide (2 ^ lg > sizearray t) then sizearray t else 2 ^ lg) = slice_end t (lg + 1)) as ->.
  { rw Hend. destruct (decide (2 ^ lg > sizearray t)); lia. }
  destruct (decide (2 ^ lg > sizearray t /\ _)) as [[? ?]|Hgo].
  { exists nums. assert (seen = array t) as <-; [|done]. apply take_ge. rw /sizearray in Hend *. lia. }
  rw count_slice_spec; [lia..|]. replace (slice_end t lg + 1 - 1) with (slice_end t lg) by lia.
  set (sl := take _ (drop _ (array t))).
  assert (take (Z.to_nat (slice_end t (lg + 1))) (array t) = seen ++ sl) as Hsplit.
  { rw /seen /sl. replace (Z.to_nat (slice_end t (lg + 1))) with (Z.to_nat (slice_end t lg) + Z.to_nat (slice_end t (lg + 1) - (slice_end t lg + 1) + 1))%nat by lia.
    by rw -take_take_drop. }
  assert (length seen = Z.to_nat (slice_end t lg)) as Hlseen by (rw /seen length_take; rw /sizearray in Hse; lia).
  assert (length sl = slice_end t (lg + 1) - slice_end t lg :> Z) as Hlsl.
  { rw /sl length_take length_drop. pose proof (slice_end_step t (lg + 1)). rw /sizearray in H0. lia. }
  destruct (aents_indices (slice_end t lg) sl) as [Hlen Hin]; [lia|pose proof (slice_end_step t (lg + 1)); lia|].
  destruct (counts_add nums (indices (aents 0 seen).*1 ++ L) lg (indices (aents (slice_end t lg) sl).*1) Hc) as (nums' & Hadd & Hc').
  { lia. }
  { eapply Forall_impl; [exact Hin|]. intros z Hz. simpl in Hz. apply (slice_log2 t); lia. }
  rw LOk_bind Z.add_0_l -Hlen Hadd LOk_bind.
  assert (aents 0 (take (Z.to_nat (slice_end t (lg + 1))) (array t)) = aents 0 seen ++ aents (slice_end t lg) sl) as Hents.
  { rw Hsplit aents_app Hlseen. do 2 f_equal. lia. }
  destruct (IH (lg + 1) nums') as (nums'' & Heq & Hc''); [lia|lia| |].
  { eapply counts_perm; [|exact Hc']. rw Hents fmap_app indices_app -app_assoc. solve_Permutation. }
  exists nums''. split; [|done]. rw -Heq Hents length_app Hlen. f_equal; [rw Z.pow_add_r; [lia..|]; lia|lia].
Qed.

Lemma numusearray_spec t nums L : sizearray t <= MAXASIZE -> counts nums L ->
  exists nums', numusearray t nums = LOk (Z.of_nat (length (aents 0 (array t))), nums') /\ counts nums' (indices (aents 0 (array t)).*1 ++ L).
Proof.
  intros Hsz Hc. assert (slice_end t 0 = 0) as H0 by (rw /slice_end /sizearray; destruct (decide (0 = 0)); lia).
  pose proof (numusearray_loop_spec t (Z.to_nat (MAXBITS + 1)) 0 nums L Hsz) as Hl. rw H0 in Hl. by apply Hl.
Qed.

(** *** The hash part *)

Lemma countint_spec k nums L : counts nums L ->
  exists nums', countint k nums = LOk (Z.of_nat (length (indices [k])), nums') /\ counts nums' (indices [k] ++ L).
Proof.
  intros Hc. rw /countint /indices list_fmap_singleton filter_cons filter_nil /=. case_decide as Hk; [|by exists nums].
  rw MAXASIZE_val in Hk. rw ceillog2_spec; [lia|]. rw LOk_bind.
  destruct (counts_add nums L (Z.log2_up (arrayindex k)) [arrayindex k] Hc) as (nums' & Hadd & Hc').
  - split; [apply Z.log2_up_nonneg|]. apply log2_up_le; [lia|done|]. rw /MAXBITS. lia.
  - by constructor.
  - exists nums'. by rw Hadd.
Qed.

Lemma numusehash_loop_spec ns tot ause nums L : counts nums L ->
  exists nums', numusehash_loop ns tot ause nums =
      LOk (tot + length (nents ns), ause + length (indices (nents ns).*1), nums') /\ counts nums' (indices (nents ns).*1 ++ L).
Proof.
  revert tot ause nums L. induction ns as [|n ns IH] => tot ause nums L Hc; simpl.
  { exists nums. rw !Z.add_0_r. done. }
  destruct (gval n) as [v|] eqn:E; simpl; [|by apply IH].
  destruct (countint_spec (gkey n) nums L Hc) as (nums1 & -> & Hc1). rw LOk_bind.
  destruct (IH (tot + 1) (ause + length (indices [gkey n])) nums1 _ Hc1) as (nums' & -> & Hc').
  exists nums'. pose proof (indices_app [gkey n] (nents ns).*1) as Hia. simpl in Hia. rw Hia. split.
  - rw length_app. do 2 f_equal. f_equal; lia.
  - eapply counts_perm; [|exact Hc']. solve_Permutation.
Qed.
End elements.
