(* ===== verification/LuaTabRehash.v ===== *)
(** LuaTabRehash: resize() and rehash() of ltable.c, and with them every insertion into a table:
    a table behaves as a finite map from keys to values. *)

From Corelib Require Import ssreflect.
From stdpp Require Import base list numbers strings.
From Stdlib Require Import ZArith Lia.
From S2P Require Import Prelude LuaObject LuaStr LuaNumber LuaTable LuaTabChain LuaTabOk LuaTabInsert LuaTabStore LuaTabCount.

Section rehash.
Context `{LuaEnv} {V : Type}.
Implicit Types (t : Table V) (ns : list (Node V)).

Abbreviation keys t := (gkey <$> node t).

(** ** The elements *)

Lemma array_index t (j : nat) : tab_ok t -> (j < length (array t))%nat -> arrayindex (TNum (cast_num (0 + j + 1))) = j + 1.
Proof.
  intros Hok Hj. pose proof (t_array _ Hok) as Ha. rw MAXASIZE_val /sizearray in Ha.
  rw arrayindex_cast; [rw /int_min /int_max; lia|lia].
Qed.

Lemma entries_key t k v : tab_ok t -> (k, v) ∈ entries t -> valid_key k /\ tlookup t k = Some v.
Proof.
  intros Hok [(j & Hj & ->)%aents_elem|Hin%nents_elem]%elem_of_app.
  - pose proof (lookup_lt_Some _ _ _ Hj) as Hlt. pose proof (array_index t j Hok Hlt) as Hidx.
    pose proof (t_array _ Hok) as Ha. rw MAXASIZE_val /sizearray in Ha.
    destruct (cast_num_ok (0 + j + 1)) as [Hc Hn]; [rw /int_min /int_max; lia|]. split.
    { split; [simpl in Hn, Hc |- *; by destruct (cast_num _)|]. rw Hidx /int_min. lia. }
    rw /tlookup slot_of_array; [rw /in_array Hidx /sizearray; lia|]. rw Hidx /=. by replace (Z.to_nat (j + 1 - 1)) with j by lia; rw Hj.
  - destruct Hin as (i & n & Hi & <- & Hv). assert (gkey n <> TNil) as Hn.
    { intros E. pose proof (t_nil _ Hok _ _ Hi E). congruence. }
    destruct (t_hkey _ Hok _ _ Hi Hn) as [Ha Hk]. split; [done|]. apply tlookup_hash; [done..|]. exists (gkey n). split; [by exists i, n|done].
Qed.

(** What a table has for a key is in its elements. *)
Lemma tlookup_entries t k v : tab_ok t -> key_ok k = true -> tlookup t k = Some v <-> bound_to (entries t) k v.
Proof.
  intros Hok Hk. split; last first.
  { intros (k0 & Hin & Hkid). destruct (entries_key t k0 v Hok Hin) as [[Hk0 _] <-]. rw /tlookup (slot_of_kid t k k0) //. }
  destruct (decide (in_array t k)) as [Ha|Ha].
  - rw /tlookup slot_of_array //= => Hv. pose proof Ha as Ha'. rw /in_array /sizearray in Ha'. set (j := Z.to_nat (arrayindex k - 1)) in *.
    exists (TNum (cast_num (0 + j + 1))). split.
    + apply elem_of_app. left. apply aents_elem. exists j. split; [|done]. by destruct (array t !! j) as [[w|]|]; simplify_eq/=.
    + symmetry. rw (arrayindex_eq k); [lia|]. do 3 f_equal. lia.
  - intros (k0 & Hin & Hkid)%tlookup_hash; [|done..]. exists k0. split; [|done]. apply elem_of_app. right. by apply nents_elem.
Qed.

Lemma nents_NoDup t : tab_ok t -> NoDup ((fun kv => kid kv.1) <$> nents (node t)).
Proof.
  intros Hok. pose proof (h_distinct _ _ _ (t_hash _ Hok)) as Hd. pose proof (t_nil _ Hok) as Hnil.
  setoid_rewrite list_lookup_fmap in Hd. revert Hd Hnil. generalize (node t). clear.
  induction l as [|n ns IH] => Hd Hnil; [constructor|].
  assert (NoDup ((fun kv => kid kv.1) <$> nents ns)) as Hns.
  { apply IH; [|intros i; apply (Hnil (S i))]. intros i j k k' Hi Hj ? ? ?. assert (S i = S j); [|lia]. by eapply (Hd (S i) (S j)). }
  rw /nents /=. destruct (gval n) as [v|] eqn:E; [|done]. csimpl. constructor; [|done].
  intros ([k w] & Hkid & Hin)%list_elem_of_fmap. apply nents_elem in Hin as (i & m & Hi & <- & Hw).
  assert (0%nat = S i); [|lia]. eapply (Hd 0%nat (S i)); simpl; rw ?Hi //.
  - intros Hn. pose proof (Hnil 0%nat n eq_refl Hn). congruence.
  - intros Hn. pose proof (Hnil (S i) m Hi Hn). congruence.
Qed.

Lemma aents_NoDup i (vs : list (option V)) : 0 <= i -> i + length vs <= MAXASIZE -> NoDup ((fun kv => kid kv.1) <$> aents i vs).
Proof.
  rw MAXASIZE_val. revert i. induction vs as [|o vs IH] => i Hi Hle; [constructor|]. simpl in Hle.
  destruct o as [v|]; simpl; [|apply IH; lia]. constructor; [|apply IH; lia].
  intros ([k w] & Hkid & (j & Hj & ->)%aents_elem)%list_elem_of_fmap. apply lookup_lt_Some in Hj.
  cbn [fst] in Hkid. apply cast_num_inj in Hkid; rw /int_min /int_max; lia.
Qed.

(** No key is there twice. *)
Lemma entries_NoDup t : tab_ok t -> NoDup ((fun kv => kid kv.1) <$> entries t).
Proof.
  intros Hok. rw /entries fmap_app. apply NoDup_app. split; [|split; [|by apply nents_NoDup]].
  - apply aents_NoDup; [done|]. rw Z.add_0_l. apply Hok.
  - intros x ([k v] & -> & (j & Hj & ->)%aents_elem)%list_elem_of_fmap ([k' v'] & Hkid & Hin%nents_elem)%list_elem_of_fmap.
    destruct Hin as (i & n & Hi & <- & Hv). assert (gkey n <> TNil) as Hn.
    { intros E. pose proof (t_nil _ Hok _ _ Hi E). congruence. }
    destruct (t_hkey _ Hok _ _ Hi Hn) as [Hna [Hk _]]. apply lookup_lt_Some in Hj. pose proof (array_index t j Hok Hj) as Hidx.
    apply Hna. rw /in_array -(arrayindex_kid _ _ _ Hk Hkid) ?Hidx /sizearray; [|lia].
    pose proof (t_array _ Hok) as Ha. rw MAXASIZE_val /sizearray in Ha.
    destruct (cast_num_ok (0 + j + 1)) as [Hc Hnn]; [rw /int_min /int_max; lia|]. simpl in Hnn, Hc |- *. by destruct (cast_num _).
Qed.

(** ** A new hash part *)

Lemma new_chain n i : (i < n)%nat -> chain (gnext <$> replicate n (mkNode (V := V) None TNil None)) (Some i) [i].
Proof. intros Hi. econstructor; [|constructor]. by rw list_lookup_fmap lookup_replicate_2. Qed.

Lemma new_hash_ok mp n : hash_ok mp (gkey <$> replicate n (mkNode (V := V) None TNil None)) (gnext <$> replicate n (mkNode (V := V) None TNil None)).
Proof.
  assert (forall i k, (gkey <$> replicate n (mkNode (V := V) None TNil None)) !! i = Some k -> k = TNil) as Hnil.
  { intros i k. rw list_lookup_fmap_Some. intros (m & ? & Hm). apply lookup_replicate in Hm as [-> _]. done. }
  assert (forall i o, (gnext <$> replicate n (mkNode (V := V) None TNil None)) !! i = Some o -> o = None) as Hnone.
  { intros i o. rw list_lookup_fmap_Some. intros (m & ? & Hm). apply lookup_replicate in Hm as [-> _]. done. }
  split; rw ?length_fmap //; try (intros i k Hk; by apply Hnil in Hk).
  - intros i j k k' Hk%Hnil. done.
  - intros i Hi. apply lookup_lt_Some in Hi. rw length_fmap length_replicate in Hi. by rw list_lookup_fmap lookup_replicate_2.
  - intros i j Hij%Hnone. done.
  - intros i i' j Hij%Hnone. done.
  - intros i Hi. rw length_replicate in Hi. exists [i]. by apply new_chain.
Qed.

Lemma new_nkeys n : nkeys (gkey <$> replicate n (mkNode (V := V) None TNil None)) = 0%nat.
Proof. induction n as [|n IH]; [done|]. rw /= nkeys_cons IH. by destruct (decide (TNil = TNil)). Qed.

Lemma new_tab_ok (a : list (option V)) ls d lf : length a <= MAXASIZE -> 0 <= ls <= MAXBITS -> (d = true -> ls = 0 /\ lf = 0) ->
  (d = false -> lf = twoto ls) -> tab_ok (mkTable a ls (replicate (Z.to_nat (twoto ls)) (mkNode None TNil None)) d lf).
Proof.
  intros Ha Hls Hd1 Hd2. assert (0 < twoto ls) by (rw twoto_pow; [lia|]; apply Z.pow_pos_nonneg; lia).
  split; simpl; rw ?length_replicate /sizenode /=; try done; try lia.
  - apply new_hash_ok.
  - intros i n Hi. by apply lookup_replicate in Hi as [-> _].
  - intros i n Hi. by apply lookup_replicate in Hi as [-> _].
  - intros ->. destruct Hd1 as [-> ->]; [done|]. done.
  - destruct d; [destruct Hd1 as [_ ->]; [done|]; lia|]. rw Hd2 //. lia.
  - intros i n -> Hi Hn. rw Hd2 // in Hi. apply lookup_lt_Some in Hn. rw length_replicate in Hn. lia.
Qed.

(** Room for [size] keys, or the error. *)
Lemma setnodevector_spec t size : sizearray t <= MAXASIZE -> 0 <= size < 2 ^ 31 ->
  2 ^ MAXBITS < size /\ setnodevector t size = LError (lit "table overflow") \/
  exists t', setnodevector t size = LOk t' /\ tab_ok t' /\ array t' = array t /\ size <= capacity t' /\ nkeys (keys t') = 0%nat /\
    nents (node t') = [].
Proof.
  intros Ha Hs. rw /setnodevector. assert (forall n, nents (V := V) (replicate n (mkNode None TNil None)) = []) as Hne by (induction n; [done|]; by rw /nents /=).
  destruct (decide (size = 0)) as [->|Hne0]; [right|].
  - eexists. split; [done|]. split; [|done]. apply (new_tab_ok (array t) 0 true 0); [done|done|done|done].
  - rw ceillog2_spec; [lia|]. rw LOk_bind. pose proof (Z.log2_up_nonneg size). destruct (decide (Z.log2_up size > MAXBITS)) as [Hgt|Hle]; [left|right].
    { split; [|done]. pose proof (log2_up_le size MAXBITS ltac:(lia) ltac:(done)). lia. }
    eexists. split; [done|]. split; [apply new_tab_ok; [done|lia|done|done]|]. split; [done|]. split; [|split; [apply new_nkeys|apply Hne]].
    rw /capacity /= length_replicate twoto_pow //. assert (size <= 2 ^ Z.log2_up size) by (by apply log2_up_le; lia). lia.
Qed.

(** ** Resizing *)

Lemma numisnan_cast key : luai_numisnan (cast_num key) = false.
Proof. rw /luai_numisnan numeq_refl //. by destruct key. Qed.

Lemma setnum_set nk t key : int_min <= key <= int_max -> luaH_setnum_ nk t key = luaH_set_ nk t (TNum (cast_num key)).
Proof.
  intros Hk. rw /luaH_set_ /luaH_get number2int_cast // numeq_refl; [by apply cast_num_ok|]. rw /luaH_setnum_.
  destruct (luaH_getnum t key) as [[| |]| |]; [|done..]. by rw !LOk_bind numisnan_cast.
Qed.

Lemma reinsert_array_store nk vs i t : 0 <= i -> i + length vs <= int_max -> reinsert_array nk vs i t = store_all nk (aents i vs) t.
Proof.
  revert i t. induction vs as [|[v|] vs IH] => i t Hi Hle; [done| |]; simpl in Hle; cbn [reinsert_array aents store_all]; [|apply IH; lia].
  rw setnum_set; [rw /int_min; lia|]. destruct (luaH_set_ nk t (TNum (cast_num (i + 1)))) as [[t1 s]| |]; [|done..]. rw !LOk_bind.
  destruct (slot_put t1 s (Some v)); [|done..]. rw !LOk_bind. apply IH; lia.
Qed.

Lemma reinsert_nodes_store nk ns t : reinsert_nodes nk ns t = store_all nk (nents ns) t.
Proof.
  revert t. induction ns as [|n ns IH] => t; [done|]. rw /nents. cbn [reinsert_nodes omap list_omap]. destruct (gval n) as [v|]; [|apply IH].
  cbn [mbind option_bind store_all]. destruct (luaH_set_ nk t (gkey n)) as [[t1 s]| |]; [|done..]. rw !LOk_bind.
  destruct (slot_put t1 s (Some v)); [|done..]. rw !LOk_bind. apply IH.
Qed.

Lemma bound_to_app (l l' : list (tkey * V)) k v : bound_to (l ++ l') k v <-> bound_to l k v \/ bound_to l' k v.
Proof. rw /bound_to. setoid_rewrite elem_of_app. naive_solver. Qed.

Lemma bound_to_perm (l l' : list (tkey * V)) k v : l ≡ₚ l' -> bound_to l k v <-> bound_to l' k v.
Proof. intros Hp. rw /bound_to. by setoid_rewrite Hp. Qed.

Lemma outside_app n (l l' : list (tkey * V)) : outside n (l ++ l') = (outside n l + outside n l')%nat.
Proof. by rw /outside filter_app length_app. Qed.

Lemma outside_perm n (l l' : list (tkey * V)) : l ≡ₚ l' -> outside n l = outside n l'.
Proof. intros Hp. apply Permutation_length. by apply filter_Permutation. Qed.

(** The elements that stay in an array part, and those that have to be inserted again. *)
Definition kept t (n : Z) : list (tkey * V) := aents 0 (take (Z.to_nat n) (array t)).
Definition reinserted t (n : Z) : list (tkey * V) := aents n (drop (Z.to_nat n) (array t)) ++ nents (reverse (node t)).
Definition resized (a : list (option V)) (n : Z) : list (option V) := take (Z.to_nat n) a ++ replicate (Z.to_nat n - length a) None.

Lemma nents_reverse ns : nents (reverse ns) ≡ₚ nents ns.
Proof. apply omap_Permutation. apply reverse_Permutation. Qed.

Lemma entries_split t n : 0 <= n -> entries t ≡ₚ kept t n ++ reinserted t n.
Proof.
  intros Hn. rw /entries /kept /reinserted nents_reverse app_assoc. f_equiv.
  rw -{1}(take_drop (Z.to_nat n) (array t)) aents_app length_take. f_equiv.
  destruct (decide (Z.to_nat n <= length (array t))%nat); [|by rw drop_ge; [lia|]]. rw Z.add_0_l Nat.min_l // Z2Nat.id //.
Qed.

Lemma kept_inside t n : tab_ok t -> outside n (kept t n) = 0%nat.
Proof.
  intros Hok. assert (count (fun kv : tkey * V => ~ 1 <= arrayindex kv.1 <= n) (kept t n) = 0) as Hc; [|rw /count in Hc; rw /outside; lia].
  apply count_none, Forall_forall. intros [k v] (j & Hj & ->)%aents_elem Hout. apply Hout.
  pose proof (lookup_lt_Some _ _ _ Hj) as Hlt. rw length_take in Hlt. cbn [fst]. rw (array_index t) //; lia.
Qed.

Lemma aents_nils i n : aents (V := V) i (replicate n None) = [].
Proof. revert i. induction n as [|n IH] => i; [done|]. apply IH. Qed.

Lemma resize_store nk t nasize nhsize : tab_ok t -> 0 <= nasize <= MAXASIZE ->
  resize nk t nasize nhsize = (t0 ← setnodevector (with_array t (resized (array t) nasize)) nhsize; store_all nk (reinserted t nasize) t0).
Proof.
  intros Hok Hn. pose proof (t_array _ Hok) as Ha. rw MAXASIZE_val in Ha. rw /resize /resized /reinserted /sizearray. rw /sizearray in Ha.
  assert (forall a, setnodevector (with_array t a) nhsize = (t1 ← setnodevector t nhsize; LOk (with_array t1 a))) as Hcomm.
  { intros a. rw /setnodevector. destruct (decide (nhsize = 0)); [done|]. destruct (ceillog2 nhsize) as [ls| |]; [|done..].
    rw !LOk_bind. by destruct (decide (ls > MAXBITS)). }
  destruct (decide (nasize > length (array t))) as [Hgt|Hle]; [|destruct (decide (nasize < length (array t))) as [Hlt|Hge]].
  - destruct (decide (nasize < length (array t))); [lia|]. rw drop_ge; [lia|]. rw /setarrayvector Hcomm. destruct (setnodevector t nhsize) as [t0| |]; [|done..].
    by rw !LOk_bind reinsert_nodes_store.
  - rw Hcomm. destruct (setnodevector t nhsize) as [t0| |]; [|done..]. rw !LOk_bind store_all_app.
    replace (Z.to_nat nasize - length (array t))%nat with 0%nat by lia. rw app_nil_r reinsert_array_store; [lia|rw length_drop /int_max; lia|].
    destruct (store_all nk _ _) as [t1| |]; [|done..]. by rw !LOk_bind reinsert_nodes_store.
  - rw take_ge; [lia|]. rw drop_ge; [lia|]. replace (Z.to_nat nasize - length (array t))%nat with 0%nat by lia. rw app_nil_r.
    assert (with_array t (array t) = t) as -> by (by destruct t). destruct (setnodevector t nhsize) as [t0| |]; [|done..].
    by rw !LOk_bind reinsert_nodes_store.
Qed.

(** With enough nodes, a table of other sizes has the same elements. *)
Lemma resize_spec fuel t nasize nhsize : tab_ok t -> 0 <= nasize <= MAXASIZE -> outside nasize (entries t) <= nhsize < 2 ^ 31 ->
  2 ^ MAXBITS < nhsize /\ resize (newkey (S fuel)) t nasize nhsize = LError (lit "table overflow") \/
  exists t', resize (newkey (S fuel)) t nasize nhsize = LOk t' /\ tab_ok t' /\ sizearray t' = nasize /\
    nhsize <= capacity t' /\ (nkeys (keys t') <= outside nasize (entries t))%nat /\
    forall k, key_ok k = true -> tlookup t' k = tlookup t k.
Proof.
  intros Hok Hn Hh. pose proof (entries_split t nasize ltac:(lia)) as Hsplit. rw (outside_perm _ _ _ Hsplit) outside_app kept_inside // in Hh |- *.
  simpl in Hh. rw resize_store //. set (a0 := resized (array t) nasize).
  assert (length a0 = nasize :> Z) as Hlen by (rw /a0 /resized length_app length_take length_replicate; lia).
  destruct (setnodevector_spec (with_array t a0) nhsize) as [[? ->]|(t0 & -> & Hok0 & Ha0 & Hcap & Hnk & Hne)]; [rw /sizearray /=; lia|lia|by left|right].
  assert (sizearray t0 = nasize) as Hsz by (by rw /sizearray Ha0 /=). rw LOk_bind.
  assert (NoDup ((fun kv => kid kv.1) <$> kept t nasize ++ reinserted t nasize)) as Hnd by (rw -Hsplit; by apply entries_NoDup).
  rw fmap_app in Hnd. apply NoDup_app in Hnd as (_ & Hdisj & Hnd).
  destruct (store_all_room fuel (reinserted t nasize) t0 Hok0) as (t' & Heq & Hok' & Hsz' & Hcap' & Hnk' & Hl); [|done|rw Hsz Hnk; lia|].
  { apply Forall_forall. intros [k v] Hin. apply (entries_key t k v Hok). rw Hsplit. apply elem_of_app. by right. }
  exists t'. split; [done|]. split; [done|]. split; [congruence|]. split; [lia|]. split; [rw Hsz in Hnk'; lia|].
  intros k Hk. apply option_eq => v. rw Hl // (tlookup_entries t) // (bound_to_perm _ _ _ _ Hsplit) bound_to_app (tlookup_entries t0) //.
  assert (entries t0 = kept t nasize) as ->.
  { rw /entries Hne Ha0 /= /a0 /resized aents_app aents_nils !app_nil_r //. }
  assert (bound_to (kept t nasize) k v -> forall w, ~ bound_to (reinserted t nasize) k w) as Hex.
  { intros (k1 & Hin1 & Hk1) w (k2 & Hin2 & Hk2). apply (Hdisj (kid k)); apply list_elem_of_fmap;
      [exists (k1, v)|exists (k2, w)]; split; done. }
  naive_solver.
Qed.

(** ** Rehashing *)

(** The keys that go to the array part, and the others. *)
Lemma outside_upto n (kvs : list (tkey * V)) : n <= MAXASIZE -> outside n kvs + upto n (indices kvs.*1) = length kvs.
Proof.
  intros Hn. induction kvs as [|[k v] kvs IH]; [done|]. rw /outside /indices /upto filter_cons fmap_cons fmap_cons filter_cons.
  rw /outside /upto /indices in IH. cbn [fst length]. destruct (decide (0 < arrayindex k <= MAXASIZE)), (decide (~ _)) as [E|E]; rw ?count_cons; cbn [length];
    try destruct (decide (arrayindex k <= n)); lia.
Qed.

Lemma outside_le n (kvs : list (tkey * V)) : (outside n kvs <= length kvs)%nat.
Proof. apply length_filter. Qed.

Lemma nents_length ns : (length (nents ns) <= length ns)%nat.
Proof.
  induction ns as [|n ns IH]; [done|]. rw /nents in IH |- *. cbn [omap list_omap length].
  destruct (gval n); cbn [mbind option_bind length]; lia.
Qed.

Lemma aents_length i (vs : list (option V)) : (length (aents i vs) <= length vs)%nat.
Proof. revert i. induction vs as [|[v|] vs IH] => i; simpl; [done|..]; specialize (IH (i + 1)); lia. Qed.

Lemma entries_length t : tab_ok t -> length (entries t) <= 2 ^ 27.
Proof.
  intros Hok. rw /entries length_app. pose proof (nents_length (node t)). pose proof (aents_length 0 (array t)).
  pose proof (t_array _ Hok) as Ha. rw MAXASIZE_val /sizearray in Ha. pose proof (t_size _ Hok) as Hs. pose proof (t_lsize _ Hok) as Hl.
  rw /sizenode twoto_pow in Hs; [lia|]. rw /MAXBITS in Hl. assert (2 ^ lsizenode t <= 2 ^ 26) by (apply Z.pow_le_mono_r; lia). lia.
Qed.

(** A rehashed table has the same elements, and room for one more key. *)
Lemma rehash_spec fuel t k : tab_ok t ->
  2 ^ MAXBITS <= length (entries t) /\ rehash (newkey (S fuel)) t k = LError (lit "table overflow") \/
  exists t', rehash (newkey (S fuel)) t k = LOk t' /\ tab_ok t' /\ (~ in_array t' k -> nkeys (keys t') < capacity t')%nat /\
    forall k', key_ok k' = true -> tlookup t' k' = tlookup t k'.
Proof.
  intros Hok. rw /rehash. destruct (numusearray_spec t _ [] (t_array _ Hok) counts_zero) as (nums1 & -> & Hc1). rw LOk_bind.
  rw /numusehash. destruct (numusehash_loop_spec (reverse (node t)) 0 0 nums1 _ Hc1) as (nums2 & -> & Hc2). rw LOk_bind.
  destruct (countint_spec k nums2 _ Hc2) as (nums3 & -> & Hc3). rw LOk_bind. rw app_nil_r in Hc3.
  set (L := indices [k] ++ _) in Hc3. assert (L ≡ₚ indices [k] ++ indices (entries t).*1) as HL.
  { rw /L /entries fmap_app indices_app. f_equiv. rw Permutation_app_comm. f_equiv. apply filter_Permutation, fmap_Permutation, fmap_Permutation, nents_reverse. }
  assert (Forall (fun z => 0 < z <= MAXASIZE) L) as HLr by (rw HL; apply Forall_app; split; apply indices_range).
  assert (length (nents (reverse (node t))) = length (nents (node t))) as Hlr by (apply Permutation_length, nents_reverse).
  destruct (aents_indices 0 (array t)) as [Hal _]; [done|apply Hok|].
  match goal with |- context [computesizes nums3 ?n] => assert (n = length L) as -> by (rw /L !length_app -Hal; lia) end.
  destruct (computesizes_spec nums3 L Hc3 HLr) as (n & -> & Hn). rw LOk_bind.
  pose proof (outside_upto n (entries t) ltac:(lia)) as Hou. pose proof (outside_le n (entries t)). pose proof (entries_length t Hok) as Hel.
  assert (upto n L = upto n (indices [k]) + upto n (indices (entries t).*1)) as Hup by (rw /upto (count_perm _ _ _ HL) count_app //).
  assert (length (entries t) = length (aents 0 (array t)) + length (nents (node t)) :> Z) as Hle by (rw /entries length_app; lia).
  assert (0 <= upto n (indices [k]) <= 1 /\ (~ 1 <= arrayindex k <= n -> upto n (indices [k]) = 0)) as [Hk01 Hk0].
  { rw /indices list_fmap_singleton filter_cons filter_nil /upto. destruct (decide (0 < arrayindex k <= MAXASIZE)); [|done].
    rw count_cons. assert (count (fun z => z <= n) [] = 0) as -> by done. destruct (decide (arrayindex k <= n)); lia. }
  match goal with |- context [resize _ t n ?h] => set (nh := h) end.
  assert (nh = outside n (entries t) + (1 - upto n (indices [k]))) as Hnh by (rw /nh Hup Hlr; lia).
  destruct (resize_spec fuel t n nh Hok Hn) as [[? ->]|(t' & -> & Hok' & Hsz & Hcap & Hnk & Hl)]; [lia|left; split; [lia|done]|right].
  exists t'. split; [done|]. split; [done|]. split; [|done]. rw /in_array Hsz => Hout. specialize (Hk0 Hout). lia.
Qed.

(** ** Every insertion *)

Lemma newkey_spec t k : tab_ok t -> valid_key k -> slot_of t k = SNilObject ->
  2 ^ MAXBITS <= length (entries t) /\ newkey 2 t k = LError (lit "table overflow") \/
  exists t', newkey 2 t k = LOk (t', slot_of t' k) /\ slot_of t' k <> SNilObject /\ tab_ok t' /\
    forall k', key_ok k' = true -> tlookup t' k' = tlookup t k'.
Proof.
  intros Hok Hk Hs. destruct (newkey_cases 1 t k Hok Hk Hs) as [(t' & i & -> & Hp)|(_ & l & Hok1 & ->)]; [right|].
  - assert (~ in_array t k) as Ha by (intros E; by rw slot_of_array in Hs). assert (slot_of t' k = SNode i) as Hslot.
    { rw slot_of_hash ?(p_find _ _ _ _ Hp) //. by rw /in_array /sizearray (p_array _ _ _ _ Hp). }
    exists t'. rw Hslot. split_and!; [done|done|apply Hp|by apply placed_lookup with (k := k) (i := i)].
  - destruct (rehash_spec 0 _ k Hok1) as [[? ->]|(t1 & -> & Hok2 & Hroom & Hl)]; [by left|right]. rw LOk_bind.
    destruct (set_room 0 t1 k Hok2 Hk) as (t' & -> & Hs' & Hok' & _ & _ & _ & Hl').
    { intros Hs1. apply Hroom. intros E. by rw slot_of_array in Hs1. }
    exists t'. split_and!; try done. intros k' Hk'. rw Hl' // Hl //.
Qed.

(** What luaH_set() promises: the pointer to the value of the key, in a table with the same elements. *)
Lemma set_spec t k : tab_ok t -> valid_key k ->
  2 ^ MAXBITS <= length (entries t) /\ luaH_set t k = LError (lit "table overflow") \/
  exists t', luaH_set t k = LOk (t', slot_of t' k) /\ slot_of t' k <> SNilObject /\ tab_ok t' /\
    forall k', key_ok k' = true -> tlookup t' k' = tlookup t k'.
Proof.
  intros Hok Hk. rw /luaH_set /luaH_set_ get_spec // LOk_bind. destruct (decide (slot_of t k = SNilObject)) as [Hs|Hs].
  - rw Hs. assert (match k with TNil => LError (lit "table index is nil") | TNum n => if luai_numisnan n then LError (lit "table index is NaN") else newkey 2 t k
      | _ => newkey 2 t k end = newkey 2 t k) as ->; [|by apply newkey_spec].
    destruct Hk as [Hk _]. destruct k as [|b|n|p|p|tt p]; try done. rw /luai_numisnan numeq_refl //. by destruct n.
  - right. exists t. split; [by destruct (slot_of t k)|done].
Qed.
End rehash.
