(* ===== verification/LuaTabMap.v ===== *)
(** LuaTabMap: tables (ltable.c) as finite maps: what the functions of the API that reach
    a table directly (lapi.c) promise. *)

From Corelib Require Import ssreflect.
From stdpp Require Import base list numbers strings.
From Stdlib Require Import ZArith Lia.
From S2P Require Import Prelude LuaObject LuaStr LuaTab LuaNumber LuaTable LuaTabChain LuaTabOk LuaTabInsert LuaTabStore LuaTabCount LuaTabRehash.

Section api.
Context `{LuaEnv} {V : Type}.
Implicit Types t : Table V.

(** ** The API on a table *)

(** The key and the value are on the stack. *)
Definition lua_rawget t (k : tkey) : lres (option V) := s ← luaH_get t k; LOk (slot_get t s).
Definition lua_rawset t (k : tkey) (v : option V) : lres (Table V) := '(t, s) ← luaH_set t k; slot_put t s v.
Definition lua_rawgeti t (n : Z) : lres (option V) := s ← luaH_getnum t n; LOk (slot_get t s).
Definition lua_rawseti t (n : Z) (v : option V) : lres (Table V) := '(t, s) ← luaH_setnum t n; slot_put t s v.

(** Stores one after the other. *)
Fixpoint stores (kvs : list (tkey * option V)) t : lres (Table V) :=
  match kvs with
  | [] => LOk t
  | (k, v) :: kvs => t ← lua_rawset t k v; stores kvs t
  end.

(** The value that was stored last under a key that is equal to [k]. *)
Fixpoint last_stored (kvs : list (tkey * option V)) (k : tkey) (old : option V) : option V :=
  match kvs with
  | [] => old
  | (k', v) :: kvs => last_stored kvs k (if luaO_rawequalObj k' k then v else old)
  end.

(** All pairs that lua_next() gives, from the key on. *)
Fixpoint traverse (fuel : nat) t (key : tkey) : lres (list (tkey * V)) :=
  match fuel with
  | O => LFault OutOfFuel
  | S fuel =>
      r ← luaH_next t key;
      match r with
      | None => LOk []
      | Some (k, v) => l ← traverse fuel t k; LOk ((k, v) :: l)
      end
  end.

(** ** Get and set *)

Lemma rawget_lookup t k : tab_ok t -> valid_key k -> lua_rawget t k = LOk (tlookup t k).
Proof. intros Hok Hk. by rw /lua_rawget get_spec // LOk_bind. Qed.

Lemma rawset_lookup t k v : tab_ok t -> valid_key k ->
  2 ^ MAXBITS <= length (entries t) /\ lua_rawset t k v = LError (lit "table overflow") \/
  exists t', lua_rawset t k v = LOk t' /\ tab_ok t' /\
    forall k', key_ok k' = true -> tlookup t' k' = if decide (kid k' = kid k) then v else tlookup t k'.
Proof.
  intros Hok Hk. rw /lua_rawset. destruct (set_spec t k Hok Hk) as [[? ->]|(t1 & -> & Hs & Hok1 & Hl)]; [by left|right].
  destruct (put_spec t1 k v Hok1 Hk Hs) as (t' & Hput & Hok' & _ & _ & _ & Hl'). exists t'. rw LOk_bind. split; [done|]. split; [done|].
  intros k' Hk'. by rw Hl' // Hl.
Qed.

(** C28: a table is a finite map. Storing a value under a key (any key but nil, NaN and the smallest
    int) gives a well-formed table in which that key, and every key that Lua holds to be equal to it,
    has the value, and every other key has the value that it had before: whether the key is in the
    array part or in a chain of the hash part, whether the colliding node moves, and whether the table
    is rehashed, with all its elements going to their new places. The only error is "table overflow",
    and only a table of 2^26 elements or more raises it. *)
Theorem rawset_rawget t k v : tab_ok t -> valid_key k ->
  2 ^ MAXBITS <= length (entries t) /\ lua_rawset t k v = LError (lit "table overflow") \/
  exists t', lua_rawset t k v = LOk t' /\ tab_ok t' /\
    forall k', valid_key k' -> lua_rawget t' k' = if luaO_rawequalObj k' k then LOk v else lua_rawget t k'.
Proof.
  intros Hok Hk. destruct (rawset_lookup t k v Hok Hk) as [?|(t' & Hset & Hok' & Hl)]; [by left|right].
  exists t'. split; [done|]. split; [done|]. intros k' Hk'. rw !rawget_lookup // Hl; [apply Hk'|].
  rw rawequal_kid; [apply Hk'|apply Hk|]. by destruct (decide (kid k' = kid k)); [rw bool_decide_true|rw bool_decide_false].
Qed.

(** *** Present keys *)

Lemma set_present t k : tab_ok t -> valid_key k -> slot_of t k <> SNilObject -> luaH_set t k = LOk (t, slot_of t k).
Proof. intros Hok Hk Hs. rw /luaH_set /luaH_set_ get_spec // LOk_bind. by destruct (slot_of t k). Qed.

Lemma rawset_present t k v : tab_ok t -> valid_key k -> tlookup t k <> None -> exists t', lua_rawset t k v = LOk t'.
Proof.
  intros Hok Hk Hl. assert (slot_of t k <> SNilObject) as Hs by (intros E; by rw /tlookup E in Hl).
  destruct (put_spec t k v Hok Hk Hs) as (t' & Hput & _). exists t'. by rw /lua_rawset set_present // LOk_bind.
Qed.

(** ** New tables *)

Lemma new_spec narray nhash : 0 <= narray <= MAXASIZE -> 0 <= nhash < 2 ^ 31 ->
  2 ^ MAXBITS < nhash /\ luaH_new (V := V) narray nhash = LError (lit "table overflow") \/
  exists t, luaH_new narray nhash = LOk t /\ tab_ok t /\ entries t = [].
Proof.
  intros Ha Hh. rw /luaH_new /setarrayvector /=. rw take_nil /= Nat.sub_0_r.
  match goal with |- context [setnodevector ?x nhash] => destruct (setnodevector_spec x nhash) as [[? ->]|(t & -> & Hok & Hat & _ & _ & Hne)] end;
    [rw /sizearray /= length_replicate; lia|done|by left|right].
  exists t. split; [done|]. split; [done|]. by rw /entries Hne Hat /= aents_nils.
Qed.

(** A store adds at most one element. *)
Lemma entries_grow t t' k v : tab_ok t -> tab_ok t' ->
  (forall k', key_ok k' = true -> tlookup t' k' = if decide (kid k' = kid k) then v else tlookup t k') ->
  (length (entries t') <= S (length (entries t)))%nat.
Proof.
  intros Hok Hok' Hl. rw -(length_fmap (fun kv => kid kv.1) (entries t')) -(length_fmap (fun kv => kid kv.1) (entries t)).
  change (S (length ((fun kv => kid kv.1) <$> entries t))) with (length (kid k :: ((fun kv => kid kv.1) <$> entries t))).
  apply submseteq_length, NoDup_submseteq; [by apply entries_NoDup|]. intros x ([k0 v0] & -> & Hin)%list_elem_of_fmap. cbn [fst].
  destruct (entries_key t' k0 v0 Hok' Hin) as [[Hk0 _] Hv0]. rw Hl // in Hv0. apply elem_of_cons.
  destruct (decide (kid k0 = kid k)) as [|_]; [by left|right]. apply tlookup_entries in Hv0 as (k1 & Hin1 & <-); [|done..].
  apply list_elem_of_fmap. by exists (k1, v0).
Qed.

Lemma stores_spec kvs t : tab_ok t -> Forall (fun kv => valid_key kv.1) kvs -> length (entries t) + length kvs <= 2 ^ MAXBITS ->
  exists t', stores kvs t = LOk t' /\ tab_ok t' /\ forall k, valid_key k -> tlookup t' k = last_stored kvs k (tlookup t k).
Proof.
  revert t. induction kvs as [|[k v] kvs IH] => t Hok Hval Hlen; [by exists t|]. apply Forall_cons in Hval as [Hk Hval]. cbn [fst length] in Hk, Hlen.
  cbn [stores]. destruct (rawset_lookup t k v Hok Hk) as [[? _]|(t1 & -> & Hok1 & Hl1)]; [lia|]. rw LOk_bind.
  pose proof (entries_grow t t1 k v Hok Hok1 Hl1). destruct (IH t1 Hok1 Hval) as (t' & -> & Hok' & Hl'); [lia|].
  exists t'. split; [done|]. split; [done|]. intros k' Hk'. rw Hl' //. cbn [last_stored]. rw Hl1; [apply Hk'|]. f_equal.
  rw rawequal_kid; [apply Hk|apply Hk'|]. destruct (decide (kid k' = kid k)) as [->|Hne]; [by rw bool_decide_true|].
  rw bool_decide_false //.
Qed.

(** From the creation of a table on, whatever sizes it was created with, a read after any number of
    stores gives the value stored last under a key equal to the one asked for, or nil if there is
    none; the stores raise no error as long as there are fewer than 2^26 of them. *)
Theorem table_history narray nhash (kvs : list (tkey * option V)) : 0 <= narray <= MAXASIZE -> 0 <= nhash <= 2 ^ MAXBITS ->
  Forall (fun kv => valid_key kv.1) kvs -> length kvs <= 2 ^ MAXBITS ->
  exists t t', luaH_new narray nhash = LOk t /\ stores kvs t = LOk t' /\
    forall k, valid_key k -> lua_rawget t' k = LOk (last_stored kvs k None).
Proof.
  intros Ha Hh Hval Hlen. destruct (new_spec narray nhash Ha) as [[? _]|(t & Hnew & Hok & He)]; [rw /MAXBITS in Hh; lia|lia|].
  destruct (stores_spec kvs t Hok Hval) as (t' & Hst & Hok' & Hl); [rw He; done|]. exists t, t'. split; [done|]. split; [done|].
  intros k Hk. rw rawget_lookup // Hl //. do 2 f_equal. destruct (tlookup t k) as [v|] eqn:E; [|done].
  apply tlookup_entries in E as (k0 & Hin & _); [|done|apply Hk]. rw He in Hin. by apply elem_of_nil in Hin.
Qed.

(** ** A larger array part *)

Lemma resizearray_room t nasize : tab_ok t -> sizearray t <= nasize -> outside nasize (entries t) <= (if isdummy t then 0 else sizenode t).
Proof.
  intros Hok Hn. assert (0 <= sizearray t) by (rw /sizearray; lia). rw (outside_perm _ _ _ (entries_split t nasize ltac:(lia))) outside_app kept_inside //.
  rw /reinserted drop_ge; [rw /sizearray in Hn; lia|]. rw (outside_perm _ _ _ (nents_reverse (node t))).
  pose proof (outside_le nasize (nents (node t))). pose proof (nents_length (node t)). pose proof (t_size _ Hok).
  destruct (isdummy t) eqn:Hd; [|lia]. destruct (t_dummy _ Hok Hd) as [Hdn _]. by rw Hdn.
Qed.

(** Making the array part larger, as a table constructor does before it stores its items, always
    succeeds and changes no value: the elements of the hash part are inserted again into a hash
    part of the same size, and those whose keys the array part now holds move there. *)
Theorem resizearray_same t nasize : tab_ok t -> sizearray t <= nasize <= MAXASIZE ->
  exists t', luaH_resizearray t nasize = LOk t' /\ tab_ok t' /\ sizearray t' = nasize /\
    forall k, valid_key k -> lua_rawget t' k = lua_rawget t k.
Proof.
  intros Hok Hn. assert (0 <= sizearray t) by (rw /sizearray; lia). pose proof (t_lsize _ Hok) as Hls. rw /MAXBITS in Hls.
  assert (0 <= (if isdummy t then 0 else sizenode t) <= 2 ^ 26) as Hsize.
  { destruct (isdummy t); [lia|]. rw /sizenode twoto_pow; [lia|]. split; [by apply Z.pow_nonneg|]. apply Z.pow_le_mono_r; lia. }
  pose proof (resizearray_room t nasize Hok ltac:(lia)). rw /luaH_resizearray.
  destruct (resize_spec 1 t nasize (if isdummy t then 0 else sizenode t) Hok) as [[Hbig _]|(t' & -> & Hok' & Hsz & _ & _ & Hl)]; [lia|lia|rw /MAXBITS in Hbig; lia|].
  exists t'. split; [done|]. split; [done|]. split; [done|]. intros k Hk. rw !rawget_lookup // Hl //. apply Hk.
Qed.

(** ** Keys that are refused *)

Lemma nan_find t : tab_ok t -> chain_slot (fun k => luaO_rawequalObj k (TNum NNaN)) t (mainposition t (TNum NNaN)) = LOk SNilObject.
Proof.
  intros Hok. pose proof (t_hash _ Hok) as Hh. pose proof (mainposition_lt t (TNum NNaN) Hok) as Hlt.
  destruct (h_chain _ _ _ Hh (mainposition t (TNum NNaN))) as [l Hl]; [by rw length_fmap|].
  pose proof (chain_length _ _ _ Hl) as Hlen. rw length_fmap in Hlen. rw /chain_slot.
  destruct (chain_find_spec t (fun k => luaO_rawequalObj k (TNum NNaN)) (S (length (node t))) _ _ Hl ltac:(lia)) as ([j|] & -> & Hr); [|done].
  destruct Hr as (_ & nd & _ & Hf). by destruct (gkey nd) as [| |[]| | |].
Qed.

(** Nil and NaN are no keys: reading at them gives nil, and storing at them raises the error
    for each, whatever the table holds. At the smallest int, luaH_getnum() computes [key-1],
    which overflows: the behaviour of reads and stores at that number is undefined. *)
Theorem refused_keys t v : tab_ok t ->
  lua_rawget t TNil = LOk None /\ lua_rawset t TNil v = LError (lit "table index is nil") /\
  lua_rawget t (TNum NNaN) = LOk None /\ lua_rawset t (TNum NNaN) v = LError (lit "table index is NaN") /\
  lua_rawget t (TNum (cast_num int_min)) = LFault SignedOverflow /\ lua_rawset t (TNum (cast_num int_min)) v = LFault SignedOverflow.
Proof.
  intros Hok. assert (luaH_get t (TNum NNaN) = LOk SNilObject) as Hnan.
  { cbn [luaH_get]. cbv zeta. assert (luai_numeq (cast_num (lua_number2int NNaN)) NNaN = false) as -> by (by destruct (cast_num _)). by apply nan_find. }
  assert (luaH_get t (TNum (cast_num int_min)) = LFault SignedOverflow) as Hmin.
  { cbn [luaH_get]. cbv zeta. rw number2int_cast; [rw /int_min /int_max; lia|]. done. }
  rw /lua_rawget /lua_rawset /luaH_set /luaH_set_ Hnan Hmin. done.
Qed.

(** ** Integer keys *)

Lemma rawseti_rawset t n v : int_min <= n <= int_max -> lua_rawseti t n v = lua_rawset t (TNum (cast_num n)) v.
Proof. intros Hn. by rw /lua_rawseti /lua_rawset /luaH_setnum setnum_set. Qed.

Lemma cast_valid n : int_min < n <= int_max -> valid_key (TNum (cast_num n)).
Proof.
  intros Hn. destruct (cast_num_ok n ltac:(lia)) as [Hc Hnn]. split; [simpl; by destruct (cast_num n)|]. rw arrayindex_cast; lia.
Qed.

Lemma rawgeti_lookup t n : tab_ok t -> int_min < n <= int_max -> lua_rawgeti t n = LOk (tlookup t (TNum (cast_num n))).
Proof. intros Hok Hn. by rw /lua_rawgeti getnum_spec // LOk_bind. Qed.
End api.

(** Tables are what the table library relies on. An index that is no [int], or the smallest one,
    is not passed to these functions. *)
#[export, refine] Instance hash_table `{LuaEnv} (V : Type) : RawTable V (Table V) := {|
  rawgeti t i := if decide (int_min < i <= int_max) then match lua_rawgeti t i with LOk v => v | _ => None end else None;
  rawseti t i v := if decide (int_min < i <= int_max) then lua_rawseti t i v else LError [];
  table_ok := tab_ok
|}.
Proof.
  - intros t i v Hok. destruct (decide (int_min < i <= int_max)) as [Hi|]; [|done].
    rw rawseti_rawset; [lia|]. destruct (rawset_lookup t _ v Hok (cast_valid i Hi)) as [[_ ->]|(t' & -> & Hok' & Hl)]; [done|].
    split; [done|]. intros j. destruct (decide (int_min < j <= int_max)) as [Hj|Hj]; last first.
    { by destruct (decide (j = i)) as [->|]. }
    rw !rawgeti_lookup // Hl; [by apply cast_valid|]. destruct (decide (j = i)) as [->|Hne]; [by rw decide_True|].
    rw decide_False //. intros Heq. apply cast_num_inj in Heq; lia.
  - intros t i v Hok. destruct (decide (int_min < i <= int_max)) as [Hi|]; [|done]. rw rawgeti_lookup // rawseti_rawset; [lia|].
    apply rawset_present; [done|by apply cast_valid].
Defined.

(** ** Concrete tables *)

Section samples.
#[local] Existing Instance plain_env.

(** Keys of several kinds: an array part, collisions, and several rehashes. *)
Definition sample_keys : list (tkey * option Z) :=
  [(TNum (cast_num 1), Some 10); (TStr 77, Some 11); (TStr 78, Some 12); (TNum (cast_num 2), Some 13); (TNum (cast_num 3), Some 14);
   (TBool true, Some 15); (TObj 5 1234, Some 16); (TNum (NZero true), Some 17); (TNum (cast_num 4), Some 18);
   (TNum (cast_num 100), Some 19); (TNum (NInf true), Some 20); (TStr 81, Some 21); (TStr 78, None); (TLight 77, Some 22)].
Definition empty_table : Table Z := mkTable [] 0 [dummynode_] true 0.
Definition sample_table : Table Z := Eval vm_compute in match stores sample_keys empty_table with LOk t => t | _ => empty_table end.

Lemma empty_ok : tab_ok empty_table /\ entries empty_table = [].
Proof. destruct (new_spec (V := Z) 0 0) as [[? _]|(t & [= <-] & Hok & He)]; [done|done|done|]. done. Qed.

Lemma sample_valid : Forall (fun kv : tkey * option Z => valid_key kv.1) sample_keys.
Proof. repeat constructor; vm_compute; discriminate. Qed.

Lemma sample_ok : tab_ok sample_table.
Proof.
  destruct empty_ok as [Hok He]. destruct (stores_spec sample_keys empty_table Hok sample_valid) as (t & Hst & Hok' & _); [rw He; vm_compute; discriminate|].
  vm_compute in Hst. injection Hst as <-. exact Hok'.
Qed.

Lemma rawset_rawget_witness : exists t', lua_rawset sample_table (TStr 45) (Some 1) = LOk t' /\ lua_rawget t' (TStr 45) = LOk (Some 1).
Proof.
  destruct (rawset_rawget sample_table (TStr 45) (Some 1) sample_ok) as [[Hbig _]|(t' & Hset & _ & Hget)].
  - split; [reflexivity|discriminate].
  - vm_compute in Hbig. by destruct Hbig.
  - exists t'. split; [exact Hset|]. rw Hget; [split; [reflexivity|discriminate]|]. reflexivity.
Defined.

Lemma table_history_witness : exists t t', luaH_new 2 3 = LOk t /\ stores sample_keys t = LOk t' /\
  lua_rawget t' (TStr 78) = LOk None /\ lua_rawget t' (TNum (NZero false)) = LOk (Some 17).
Proof.
  destruct (table_history 2 3 sample_keys) as (t & t' & Hn & Hs & Hget); [split; vm_compute; discriminate..|exact sample_valid|vm_compute; discriminate|].
  exists t, t'. split; [exact Hn|]. split; [exact Hs|]. split; (rw Hget; [split; [reflexivity|discriminate]|reflexivity]).
Defined.

Lemma resizearray_same_witness : exists t', luaH_resizearray sample_table 128 = LOk t' /\ sizearray t' = 128 /\
  lua_rawget t' (TNum (cast_num 100)) = lua_rawget sample_table (TNum (cast_num 100)).
Proof.
  destruct (resizearray_same sample_table 128 sample_ok) as (t' & Ht & _ & Hsz & Hget); [split; vm_compute; discriminate|].
  exists t'. split; [exact Ht|]. split; [exact Hsz|]. apply Hget. split; [reflexivity|vm_compute; discriminate].
Defined.

Lemma refused_keys_witness : lua_rawset sample_table (TNum NNaN) (Some 1) = LError (lit "table index is NaN").
Proof. destruct (refused_keys sample_table (Some 1) sample_ok) as (_ & _ & _ & Hnan & _). exact Hnan. Defined.
End samples.
