(* ===== verification/LuaTabNext.v ===== *)
(** LuaTabNext: traversal of tables and their length (luaH_next() and luaH_getn() of ltable.c). *)

From Corelib Require Import ssreflect.
From stdpp Require Import base list numbers strings.
From Stdlib Require Import ZArith Lia.
From S2P Require Import Prelude LuaObject LuaStr LuaNumber LuaTable LuaTabChain LuaTabOk LuaTabInsert LuaTabStore LuaTabCount LuaTabRehash LuaTabMap.

Section next.
Context `{LuaEnv} {V : Type}.
Implicit Types t : Table V.

Abbreviation keys t := (gkey <$> node t).

(** ** Traversal *)

(** The elements at the index [i] of a traversal and behind it. *)
Definition from t (i : Z) : list (tkey * V) :=
  aents i (drop (Z.to_nat i) (array t)) ++ nents (drop (Z.to_nat (i - sizearray t)) (node t)).

Lemma from_0 t : from t 0 = entries t.
Proof. rw /from /entries /sizearray. by replace (Z.to_nat (0 - length (array t))) with 0%nat by lia. Qed.

Lemma from_array t i o : 0 <= i -> array t !! Z.to_nat i = Some o ->
  from t i = match o with Some v => (TNum (cast_num (i + 1)), v) :: from t (i + 1) | None => from t (i + 1) end.
Proof.
  intros Hi Ho. pose proof (lookup_lt_Some _ _ _ Ho). rw /from (drop_S _ _ _ Ho) /sizearray.
  replace (Z.to_nat (i + 1)) with (S (Z.to_nat i)) by lia. replace (Z.to_nat (i + 1 - length (array t))) with (Z.to_nat (i - length (array t))) by lia.
  by destruct o.
Qed.

Lemma from_node t i n : 0 <= i -> node t !! Z.to_nat i = Some n ->
  from t (i + sizearray t) = match gval n with Some v => (gkey n, v) :: from t (i + 1 + sizearray t) | None => from t (i + 1 + sizearray t) end.
Proof.
  intros Hi Hn. rw /from. rw !(drop_ge (array t)); [rw /sizearray; lia..|]. replace (Z.to_nat (i + sizearray t - sizearray t)) with (Z.to_nat i) by lia.
  replace (Z.to_nat (i + 1 + sizearray t - sizearray t)) with (S (Z.to_nat i)) by lia. rw (drop_S _ _ _ Hn) /nents /=. by destruct (gval n).
Qed.

(** The loops find the first element at [i] or behind it. *)
Lemma next_array_spec t fuel i : 0 <= i -> Z.max 0 (sizearray t - i) < Z.of_nat fuel ->
  exists r, next_array fuel t i = LOk r /\
    match r with
    | (_, Some kv) => exists p, i <= p < sizearray t /\ kv.1 = TNum (cast_num (p + 1)) /\ from t i = kv :: from t (p + 1)
    | (j, None) => j = Z.max i (sizearray t) /\ from t i = from t j
    end.
Proof.
  revert i. induction fuel as [|fuel IH] => i Hi Hf; [lia|].
  cbn [next_array]. destruct (decide (i < sizearray t)) as [Hlt|Hge]; last first.
  { exists (i, None). split; [done|]. split; [lia|]. done. }
  destruct (lookup_lt_is_Some_2 (array t) (Z.to_nat i)) as [o Ho]; [rw /sizearray in Hlt; lia|]. rw Ho (from_array t i o) //.
  destruct o as [v|]; [exists (i, Some (TNum (cast_num (i + 1)), v)); split; [done|]; exists i; split_and!; [lia|lia|done..]|].
  destruct (IH (i + 1)) as ([j [kv|]] & -> & Hr); [lia..| |]; eexists; (split; [done|]).
  - destruct Hr as (p & Hp & ? & ?). exists p. split; [lia|done].
  - destruct Hr as [-> ?]. split; [lia|done].
Qed.

Lemma next_node_spec t fuel i : tab_ok t -> 0 <= i -> Z.max 0 (sizenode t - i) < Z.of_nat fuel ->
  exists r, next_node fuel t i = LOk r /\
    match r with
    | Some kv => exists (p : nat) n, node t !! p = Some n /\ gval n = Some kv.2 /\ gkey n = kv.1 /\
        from t (i + sizearray t) = kv :: from t (p + 1 + sizearray t)
    | None => from t (i + sizearray t) = []
    end.
Proof.
  intros Hok. pose proof (t_size _ Hok) as Hs. revert i. induction fuel as [|fuel IH] => i Hi Hf.
  { lia. }
  cbn [next_node]. destruct (decide (i < sizenode t)) as [Hlt|Hge]; last first.
  { exists None. split; [done|]. rw /from !drop_ge //; rw /sizearray; lia. }
  destruct (lookup_lt_is_Some_2 (node t) (Z.to_nat i)) as [n Hn]; [lia|]. rw /gnode Hn LOk_bind (from_node t i n) //.
  destruct (gval n) as [v|] eqn:Hv.
  - exists (Some (gkey n, v)). split; [done|]. exists (Z.to_nat i), n. split_and!; try done. rw Z2Nat.id //.
  - destruct (IH (i + 1)) as (r & -> & Hr); [lia..|]. by exists r.
Qed.

Lemma findindex_node t (i : nat) n : tab_ok t -> node t !! i = Some n -> gkey n <> TNil -> findindex t (gkey n) = LOk (i + sizearray t).
Proof.
  intros Hok Hi Hn. destruct (t_hkey _ Hok i n Hi Hn) as [Ha [Hk _]]. rw /findindex. assert (key_nil (gkey n) = false) as -> by (by destruct (gkey n)).
  rw /in_array in Ha. destruct (decide (0 < arrayindex (gkey n) <= sizearray t)); [lia|]. rw chain_find_hfind //.
  assert (hfind (keys t) (gkey n) = Some i) as ->; [|done]. eapply hfind_Some; [apply Hok|]. exists (gkey n). by rw list_lookup_fmap Hi.
Qed.

Lemma findindex_array t p : tab_ok t -> 0 <= p < sizearray t -> findindex t (TNum (cast_num (p + 1))) = LOk p.
Proof.
  intros Hok Hp. pose proof (t_array _ Hok) as Ha. rw MAXASIZE_val in Ha. rw /findindex arrayindex_cast; [rw /int_min /int_max; lia|].
  cbn [key_nil]. destruct (decide (0 < p + 1 <= sizearray t)); [f_equal; lia|lia].
Qed.

(** One step: the next element, and where it is. *)
Lemma next_spec t k i : tab_ok t -> findindex t k = LOk i -> -1 <= i ->
  exists r, luaH_next t k = LOk r /\
    match r with
    | Some kv => exists p, 0 <= p /\ findindex t kv.1 = LOk p /\ from t (i + 1) = kv :: from t (p + 1)
    | None => from t (i + 1) = []
    end.
Proof.
  intros Hok Hi Hge. rw /luaH_next Hi LOk_bind. pose proof (t_size _ Hok) as Hs.
  destruct (next_array_spec t (S (length (array t))) (i + 1)) as ([j r] & -> & Hr); [lia|rw /sizearray; lia|]. rw LOk_bind. destruct r as [kv|].
  - exists (Some kv). split; [done|]. destruct Hr as (p & Hp & Hk & Hf). exists p. split; [lia|]. rw Hk findindex_array //. lia.
  - destruct Hr as [Hj Hf]. destruct (next_node_spec t (S (length (node t))) (j - sizearray t)) as (r & -> & Hr); [done|lia|lia|].
    exists r. split; [done|]. rw Hf. replace (j - sizearray t + sizearray t) with j in Hr by lia. destruct r as [kv|]; [|done].
    destruct Hr as (p & n & Hn & Hv & Hk & ->). exists (p + sizearray t). rw -Hk (findindex_node t p) //.
    { intros E. pose proof (t_nil _ Hok _ _ Hn E). congruence. }
    split; [rw /sizearray; lia|]. split; [done|]. do 2 f_equal. lia.
Qed.

Lemma traverse_spec t fuel k i : tab_ok t -> findindex t k = LOk i -> -1 <= i -> (length (from t (i + 1)) < fuel)%nat ->
  traverse fuel t k = LOk (from t (i + 1)).
Proof.
  intros Hok. revert k i. induction fuel as [|fuel IH] => k i Hi Hge Hlen; [lia|]. cbn [traverse].
  destruct (next_spec t k i Hok Hi Hge) as ([[k' v]|] & -> & Hr); rw LOk_bind; [|by rw Hr].
  destruct Hr as (p & Hp & Hfi & Hf). rw Hf /= in Hlen. rw (IH k' p) //; [lia|lia|]. by rw LOk_bind Hf.
Qed.


(** ** The length *)

(** A boundary: the last of the elements 1, 2, ... that are there, up to some nil. *)
Definition border t (n : Z) : Prop := (n = 0 \/ exists v, lua_rawgeti t n = LOk (Some v)) /\ lua_rawgeti t (n + 1) = LOk None.

Lemma binary_search_spec (get : Z -> lres (option V)) (f : nat) i j : i < j -> j - i <= 2 ^ Z.of_nat f ->
  (forall m, i < m < j -> exists o, get m = LOk o) -> get j = LOk None ->
  exists r, binary_search (S f) get i j = LOk r /\ i <= r < j /\ (r = i \/ exists v, get r = LOk (Some v)) /\ get (r + 1) = LOk None.
Proof.
  revert i j. induction f as [|f IH] => i j Hlt Hd Hget Hj; cbn [binary_search]; destruct (decide (j - i > 1)) as [Hgt|Hle].
  1: change (2 ^ Z.of_nat 0) with 1 in Hd; lia.
  1,3: exists i; split; [done|]; split; [lia|]; split; [by left|]; by replace (i + 1) with j by lia.
  assert (i < (i + j) / 2 < j) as Hm by (pose proof (Z.div_mod (i + j) 2 ltac:(lia)); pose proof (Z.mod_pos_bound (i + j) 2 ltac:(lia)); lia). cbv zeta.
  rw Nat2Z.inj_succ Z.pow_succ_r in Hd; [lia|]. pose proof (Z.div_mod (i + j) 2 ltac:(lia)). pose proof (Z.mod_pos_bound (i + j) 2 ltac:(lia)).
  destruct (Hget _ Hm) as [o Ho]. rw Ho LOk_bind. destruct o as [v|]; cbn [is_nil].
  - destruct (IH ((i + j) / 2) j) as (r & Heq & Hr & Hv & Hn); [lia|lia|intros m ?; apply Hget; lia|done|].
    exists r. split; [exact Heq|]. split; [lia|]. split; [|done]. right. destruct Hv as [->|?]; [by exists v|done].
  - destruct (IH i ((i + j) / 2)) as (r & Heq & Hr & Hv & Hn); [lia|lia|intros m ?; apply Hget; lia|done|].
    exists r. split; [exact Heq|]. split; [lia|]. done.
Qed.

Lemma getnum_val_spec t j : tab_ok t -> 0 < j <= int_max -> getnum_val t j = LOk (tlookup t (TNum (cast_num j))) /\ lua_rawgeti t j = getnum_val t j.
Proof.
  intros Hok Hj. rw /getnum_val to_int_small; [rw /int_min; lia|]. rw getnum_spec //; [rw /int_min; lia|]. rw LOk_bind. split; [done|].
  rw rawgeti_lookup //. rw /int_min. lia.
Qed.

(** There are not more elements 1, ..., n than there are elements. *)
Lemma present_bound t (n : nat) : tab_ok t -> n <= int_max -> (forall j, 0 < j <= n -> tlookup t (TNum (cast_num j)) <> None) ->
  (n <= length (array t) + length (node t))%nat.
Proof.
  intros Hok Hn Hall. transitivity (length (entries t)); last first.
  { rw /entries length_app. pose proof (nents_length (node t)). pose proof (aents_length 0 (array t)). lia. }
  rw -(length_fmap (fun kv => kid kv.1) (entries t)). replace n with (length ((fun j : nat => kid (TNum (cast_num j))) <$> seq 1 n)) by rw length_fmap length_seq //.
  apply submseteq_length, NoDup_submseteq.
  - apply NoDup_fmap_2_strong; [|apply NoDup_seq]. intros x y Hx%elem_of_seq Hy%elem_of_seq Heq. apply cast_num_inj in Heq; rw /int_min; lia.
  - intros x (j & -> & Hj%elem_of_seq)%list_elem_of_fmap. specialize (Hall j ltac:(lia)).
    destruct (tlookup t (TNum (cast_num j))) as [v|] eqn:E; [|done]. apply tlookup_entries in E as (k & Hin & <-); [|done|].
    + apply list_elem_of_fmap. by exists (k, v).
    + apply cast_valid. rw /int_min. lia.
Qed.

Lemma linear_search_spec t fuel (i : nat) : tab_ok t -> (0 < i)%nat -> (forall j, 0 < j < i -> tlookup t (TNum (cast_num j)) <> None) ->
  (length (array t) + length (node t) < fuel + (i - 1))%nat ->
  exists n, linear_search fuel t i = LOk n /\ i - 1 <= n /\ border t n.
Proof.
  intros Hok. assert (length (array t) + length (node t) <= 2 ^ 27) as Hmax.
  { pose proof (t_array _ Hok) as Ha. rw MAXASIZE_val /sizearray in Ha. pose proof (t_size _ Hok) as Hs. pose proof (t_lsize _ Hok) as Hl.
    rw /sizenode twoto_pow in Hs; [lia|]. rw /MAXBITS in Hl. assert (2 ^ lsizenode t <= 2 ^ 26) by (apply Z.pow_le_mono_r; lia). lia. }
  revert i. induction fuel as [|fuel IH] => i Hi Hall Hf.
  all: assert (i - 1 <= length (array t) + length (node t))%nat as Hb.
  1,3: destruct (decide (i - 1 <= 2 ^ 27 + 1)%Z); [apply (present_bound t (i - 1) Hok); [rw /int_max; lia|intros j ?; apply Hall; lia]|].
  1,2: exfalso; assert (Z.to_nat (2 ^ 27 + 1) <= length (array t) + length (node t))%nat; [|lia];
    apply present_bound; [done|rw /int_max; lia|intros j ?; apply Hall; lia].
  1: lia.
  cbn [linear_search]. destruct (getnum_val_spec t i Hok) as [Hg Hgi]; [rw /int_max; lia|]. rw Hg LOk_bind.
  destruct (tlookup t (TNum (cast_num i))) as [v|] eqn:E; cbn [is_nil].
  - rw Z.mod_small; [lia|]. replace (i + 1) with (Z.of_nat (S i)) by lia. destruct (IH (S i)) as (n & Hn & ? & ?); [lia| |lia|].
    + intros j Hj. destruct (decide (j = i)) as [->|]; [congruence|]. apply Hall. lia.
    + exists n. split; [done|]. split; [lia|done].
  - exists (i - 1). split; [done|]. split; [lia|]. split.
    + destruct (decide (i = 1%nat)) as [->|Hne]; [by left|right]. specialize (Hall (i - 1) ltac:(lia)).
      destruct (getnum_val_spec t (i - 1) Hok) as [Hg' Hgi']; [rw /int_max; lia|]. rw Hgi' Hg'. destruct (tlookup _ _) as [v|]; [by exists v|done].
    + replace (i - 1 + 1) with (Z.of_nat i) by lia. by rw Hgi Hg.
Qed.

Lemma unbound_loop_spec t fuel i j : tab_ok t -> 0 <= i < j -> j <= int_max -> (i = 0 \/ exists v, lua_rawgeti t i = LOk (Some v)) ->
  2 ^ 31 <= j * 2 ^ (Z.of_nat fuel - 1) -> exists n, unbound_loop fuel t i j = LOk n /\ 0 <= n /\ border t n.
Proof.
  intros Hok. revert i j. induction fuel as [|fuel IH] => i j Hij Hj Hi Hf.
  { change (2 ^ (Z.of_nat 0 - 1)) with 0 in Hf. lia. }
  cbn [unbound_loop]. destruct (getnum_val_spec t j Hok ltac:(lia)) as [Hg Hgi]. rw Hg LOk_bind.
  assert (forall m, 0 < m <= int_max -> getnum_val t m = lua_rawgeti t m) as Hgv by (intros m ?; symmetry; by apply getnum_val_spec).
  destruct (tlookup t (TNum (cast_num j))) as [v|] eqn:E; cbn [is_nil].
  - cbv zeta. rw /int_max in Hj |- *. rw Z.mod_small; [lia|]. destruct (decide (j * 2 > 2 ^ 31 - 1)) as [Hbig|Hsmall].
    + destruct (linear_search_spec t (S (length (array t) + length (node t))) 1 Hok) as (n & Hn & ? & ?); [lia|intros m ?; lia|lia|].
      exists n. split; [exact Hn|]. split; [lia|done].
    + apply IH; [lia|rw /int_max; lia|right; exists v; by rw Hgi Hg|]. replace (Z.of_nat (S fuel) - 1) with (Z.of_nat fuel) in Hf by lia.
      destruct fuel as [|fuel]; [change (2 ^ Z.of_nat 0) with 1 in Hf; lia|]. replace (Z.of_nat (S fuel)) with (Z.succ (Z.of_nat fuel)) in Hf |- * by lia.
      rw Z.pow_succ_r in Hf; [lia|]. replace (Z.succ fuel - 1) with (Z.of_nat fuel) by lia. lia.
  - destruct (binary_search_spec (getnum_val t) 31 i j) as (n & -> & Hn & Hv & Hnil); [lia|rw /int_max in Hj; lia| |by rw Hg|].
    { intros m Hm. eexists. apply getnum_val_spec; [done|lia]. }
    exists n. split; [done|]. split; [lia|]. split; [|rw -Hgv //; lia].
    destruct (decide (n = i)) as [->|Hne]; [done|]. right. destruct Hv as [?|[v Hv]]; [done|]. exists v. rw -Hgv //. lia.
Qed.

Lemma array_val_spec t m : tab_ok t -> 0 < m <= sizearray t -> exists o, array_val t m = LOk o /\ lua_rawgeti t m = LOk o.
Proof.
  intros Hok Hm. pose proof (t_array _ Hok) as Ha. rw MAXASIZE_val in Ha. rw rawgeti_lookup //; [rw /int_min /int_max; lia|].
  rw /array_val. destruct (lookup_lt_is_Some_2 (array t) (Z.to_nat (m - 1))) as [o Ho]; [rw /sizearray in Hm; lia|]. rw Ho. exists o. split; [done|].
  pose proof (arrayindex_cast m ltac:(rw /int_min /int_max; lia)) as Hidx. rw /tlookup slot_of_array; [rw /in_array Hidx; lia|]. by rw Hidx /= Ho.
Qed.

(** LuaH_getn() ends and returns a boundary of the table, whatever the table holds: 0 or the
    index of an element that is not nil, such that the next one is nil. It searches the array part if
    that ends with nil, and otherwise doubles an index in the hash part until it finds a nil, falling
    back to a linear search if the indices that are there reach 2^30; then no element is left out. *)
Theorem getn_border t : tab_ok t -> exists n, luaH_getn t = LOk n /\ 0 <= n /\ border t n.
Proof.
  intros Hok. pose proof (t_array _ Hok) as Ha. rw MAXASIZE_val in Ha. assert (0 <= sizearray t) by (rw /sizearray; lia). rw /luaH_getn.
  assert (forall b, (if decide (sizearray t > 0) then v ← array_val t (sizearray t); LOk (is_nil v) else LOk false : lres bool) = LOk b ->
    b = false -> sizearray t = 0 \/ exists v, lua_rawgeti t (sizearray t) = LOk (Some v)) as Hlast.
  { intros b. destruct (decide (sizearray t > 0)) as [Hp|]; [|lia]. destruct (array_val_spec t (sizearray t) Hok) as (o & -> & Hg); [lia|].
    rw LOk_bind. intros [= <-]. destruct o as [v|]; [|done]. intros _. right. by exists v. }
  set (c := if decide (sizearray t > 0) then _ else _) in *.
  assert (exists b, c = LOk b /\ (b = true -> 0 < sizearray t /\ array_val t (sizearray t) = LOk None)) as (b & Hc & Hb).
  { rw /c. destruct (decide (sizearray t > 0)) as [Hp|]; [|by exists false]. destruct (array_val_spec t (sizearray t) Hok) as (o & -> & _); [lia|].
    exists (is_nil o). split; [done|]. destruct o; [done|]. split; [lia|done]. }
  rw Hc LOk_bind. specialize (Hlast b Hc). destruct b; [|specialize (Hlast eq_refl); destruct (isdummy t) eqn:Hd].
  - destruct Hb as [Hp Hn]; [done|].
    destruct (binary_search_spec (array_val t) 31 0 (sizearray t)) as (n & -> & Hn' & Hv & Hnil); [lia|lia| |done|].
    { intros m Hm. destruct (array_val_spec t m Hok) as (o & ? & _); [lia|]. by exists o. }
    exists n. split; [done|]. split; [lia|]. split.
    + destruct (decide (n = 0)); [by left|right]. destruct Hv as [?|[v Hv]]; [done|]. exists v.
      destruct (array_val_spec t n Hok) as (o & Ho & ->); [lia|]. congruence.
    + destruct (array_val_spec t (n + 1) Hok) as (o & Ho & ->); [lia|]. congruence.
  - exists (sizearray t). split; [done|]. split; [done|]. split; [done|]. rw rawgeti_lookup //; [rw /int_min /int_max; lia|]. f_equal.
    destruct (tlookup t (TNum (cast_num (sizearray t + 1)))) as [v|] eqn:E; [|done]. apply tlookup_hash in E as (k & (i & n & Hn & _ & Hv) & _); [|done|].
    + destruct (t_dummy _ Hok Hd) as [Hdn _]. rw Hdn in Hn. destruct i; simplify_eq/=.
    + rw /in_array arrayindex_cast; [rw /int_min /int_max; lia|]. lia.
  - rw /unbound_search Z.mod_small; [lia|]. apply unbound_loop_spec; try done; [lia|rw /int_max; lia|].
    change (2 ^ (Z.of_nat 33 - 1)) with (2 ^ 32). lia.
Qed.
End next.

Section samples.
#[local] Existing Instance plain_env.


Lemma getn_border_witness : exists n, luaH_getn sample_table = LOk n /\ border sample_table n /\ n = 4.
Proof.
  destruct (getn_border sample_table sample_ok) as (n & Hn & _ & Hb). exists n. split; [exact Hn|]. split; [exact Hb|].
  vm_compute in Hn. by injection Hn as <-.
Defined.
End samples.
