(* ===== verification/LuaCode.v ===== *)
(** LuaCode: the code generator of Lua, src/liblua/src/lcode.c, on the state of the function
    that is compiled (FuncState and expdesc of lparser.h).

    The instructions and lines up to [pc] are lists, and [pc] is their length; the elements
    behind it are not used. Constants are values of [tkey]; the table that finds them is a
    hash table of ltable.c. The members of the union of an expression are told apart: a read of
    the member that was not written is a fault, and so is an assertion (lua_assert) that
    fails. The arithmetic of doubles is that of the Standard Library; pow() is a parameter. *)

From Corelib Require Import ssreflect.
From stdpp Require Import base list numbers strings.
From Stdlib Require Import ZArith Lia SpecFloat.
From S2P Require Import Prelude LuaObject LuaZio LuaOpcodes LuaCheck LuaLex LuaNumber LuaTable.

(** ** Arithmetic *)

Definition of_number (n : number) : spec_float :=
  match n with NNaN => S754_nan | NInf s => S754_infinity s | NZero s => S754_zero s | NFin s m e => S754_finite s m e end.
Definition to_number (f : spec_float) : number :=
  match f with S754_nan => NNaN | S754_infinity s => NInf s | S754_zero s => NZero s | S754_finite s m e => NFin s m e end.
Definition num_op (op : Z -> Z -> spec_float -> spec_float -> spec_float) (a b : number) : number := to_number (op 53 1024 (of_number a) (of_number b)).

Definition luai_numadd : number -> number -> number := num_op SFadd.
Definition luai_numsub : number -> number -> number := num_op SFsub.
Definition luai_nummul : number -> number -> number := num_op SFmul.
Definition luai_numdiv : number -> number -> number := num_op SFdiv.
Definition luai_numunm (a : number) : number := to_number (SFopp (of_number a)).
(** floor() of <math.h>: a number with an exponent below zero has less than 53 bits before the point. *)
Definition c_floor (n : number) : number :=
  match n with
  | NFin s m e =>
      if decide (0 <= e) then n
      else
        let q := (if s then Zneg m else Zpos m) / 2 ^ (- e) in
        if decide (q = 0) then NZero s else cast_num q
  | _ => n
  end.
Definition luai_nummod (a b : number) : number := luai_numsub a (luai_nummul (c_floor (luai_numdiv a b)) b).

(** ** Expressions *)

Inductive expkind :=
| VVOID | VNIL | VTRUE | VFALSE
| VK | VKNUM | VLOCAL | VUPVAL | VGLOBAL | VINDEXED
| VJMP | VRELOCABLE | VNONRELOC | VCALL | VVARARG.

#[export] Instance expkind_eq_dec : EqDecision expkind.
Proof. solve_decision. Defined.

(** [aux] has no value before it is written. *)
Inductive expunion :=
| U_s (info : Z) (aux : option Z)
| U_nval (n : number).

Record expdesc := MkExp { e_k : expkind; e_u : expunion; e_t : Z; e_f : Z }.

Definition NO_JUMP : Z := -1.
Definition hasjumps (e : expdesc) : bool := bool_decide (e_t e <> e_f e).
Definition isnumeral (e : expdesc) : bool := bool_decide (e_k e = VKNUM /\ e_t e = NO_JUMP /\ e_f e = NO_JUMP).

Definition info (e : expdesc) : lres Z := match e_u e with U_s i _ => LOk i | U_nval _ => LFault UninitRead end.
Definition aux (e : expdesc) : lres Z := match e_u e with U_s _ (Some a) => LOk a | _ => LFault UninitRead end.
Definition nval (e : expdesc) : lres number := match e_u e with U_nval n => LOk n | U_s _ _ => LFault UninitRead end.
Definition set_kind (e : expdesc) (k : expkind) : expdesc := MkExp k (e_u e) (e_t e) (e_f e).
Definition set_info (e : expdesc) (k : expkind) (i : Z) : expdesc :=
  MkExp k (U_s i (match e_u e with U_s _ a => a | U_nval _ => None end)) (e_t e) (e_f e).
Definition set_t (e : expdesc) (t : Z) : expdesc := MkExp (e_k e) (e_u e) t (e_f e).
Definition set_f (e : expdesc) (f : Z) : expdesc := MkExp (e_k e) (e_u e) (e_t e) f.

(** ** The state *)

(** [h] is at the address [hptr]. *)
Record FuncState := MkFunc {
  ls : @LexState number;
  code : list Z;
  sizecode : Z;
  lineinfo : list Z;
  sizelineinfo : Z;
  k : list tkey;
  sizek : Z;
  maxstacksize : Z;
  h : Table number;
  hptr : Z;
  lasttarget : Z;
  jpc : Z;
  fs_freereg : Z;
  nactvar : Z
}.

Section setters.
Implicit Type fs : FuncState.
Definition pc fs : Z := length (code fs).
Definition nk fs : Z := length (k fs).

Definition set_codes fs c sc l sl := MkFunc (ls fs) c sc l sl (k fs) (sizek fs) (maxstacksize fs) (h fs) (hptr fs) (lasttarget fs) (jpc fs) (fs_freereg fs) (nactvar fs).
Definition set_code fs c := set_codes fs c (sizecode fs) (lineinfo fs) (sizelineinfo fs).
Definition set_consts fs c s t := MkFunc (ls fs) (code fs) (sizecode fs) (lineinfo fs) (sizelineinfo fs) c s (maxstacksize fs) t (hptr fs) (lasttarget fs) (jpc fs) (fs_freereg fs) (nactvar fs).
Definition set_maxstack fs m := MkFunc (ls fs) (code fs) (sizecode fs) (lineinfo fs) (sizelineinfo fs) (k fs) (sizek fs) m (h fs) (hptr fs) (lasttarget fs) (jpc fs) (fs_freereg fs) (nactvar fs).
Definition set_lasttarget fs l := MkFunc (ls fs) (code fs) (sizecode fs) (lineinfo fs) (sizelineinfo fs) (k fs) (sizek fs) (maxstacksize fs) (h fs) (hptr fs) l (jpc fs) (fs_freereg fs) (nactvar fs).
Definition set_jpc fs j := MkFunc (ls fs) (code fs) (sizecode fs) (lineinfo fs) (sizelineinfo fs) (k fs) (sizek fs) (maxstacksize fs) (h fs) (hptr fs) (lasttarget fs) j (fs_freereg fs) (nactvar fs).
Definition set_freereg fs r := MkFunc (ls fs) (code fs) (sizecode fs) (lineinfo fs) (sizelineinfo fs) (k fs) (sizek fs) (maxstacksize fs) (h fs) (hptr fs) (lasttarget fs) (jpc fs) r (nactvar fs).
End setters.

Section generator.
Context `{LuaEnv} (pow : number -> number -> number).
Implicit Type fs : FuncState.
Implicit Type e : expdesc.

(** open_func() of lparser.c: a new function; [hptr] is where its table of constants is. *)
Definition open_func (l : @LexState number) (hptr : Z) : lres FuncState :=
  t ← luaH_new 0 0;
  LOk (MkFunc l [] 0 [] 0 [] 0 2 t hptr (-1) NO_JUMP 0 0).

Definition luai_numpow : number -> number -> number := pow.

Definition lua_assert (b : bool) : lres unit := if b then LOk () else LFault AssertFail.

(** [&fs->f->code[pc]]: reading and writing *)
Definition code_get fs (pc : Z) : lres Z :=
  if decide (0 <= pc) then match code fs !! Z.to_nat pc with Some i => LOk i | None => LFault OutOfBounds end else LFault OutOfBounds.
Definition code_put fs (pc : Z) (i : Z) : lres FuncState :=
  if decide (0 <= pc < length (code fs)) then LOk (set_code fs (<[Z.to_nat pc := i]> (code fs))) else LFault OutOfBounds.
Definition getcode fs e : lres Z := i ← info e; code_get fs i.
Definition setcode fs e (i : Z) : lres FuncState := p ← info e; code_put fs p i.

(** [luaP_opmodes[m]] has an element for every opcode. *)
Definition testTMode_ (m : Z) : lres bool := if decide (m < NUM_OPCODES) then LOk (testTMode m) else LFault OutOfBounds.

(** ** Jumps *)

Definition fixjump fs (pc dest : Z) : lres FuncState :=
  jmp ← code_get fs pc;
  let offset := dest - (pc + 1) in
  _ ← lua_assert (bool_decide (dest <> NO_JUMP));
  if decide (Z.abs offset > MAXARG_sBx) then luaX_syntaxerror (ls fs) "control structure too long"
  else code_put fs pc (SETARG_sBx jmp offset).

Definition luaK_getlabel fs : Z * FuncState := (pc fs, set_lasttarget fs (pc fs)).

Definition getjump fs (pc : Z) : lres Z :=
  i ← code_get fs pc;
  let offset := GETARG_sBx i in
  if decide (offset = NO_JUMP) then LOk NO_JUMP else LOk (pc + 1 + offset).

(** The position of the instruction. *)
Definition getjumpcontrol fs (pc : Z) : lres Z :=
  if decide (pc >= 1) then
    pi ← code_get fs (pc - 1);
    b ← testTMode_ (GET_OPCODE pi);
    LOk (if (b : bool) then pc - 1 else pc)
  else LOk pc.

(** A list has no more jumps than there are instructions. *)
Fixpoint need_value_loop (fuel : nat) fs (list : Z) : lres bool :=
  match fuel with
  | O => LFault OutOfFuel
  | S fuel =>
      if decide (list = NO_JUMP) then LOk false
      else
        c ← getjumpcontrol fs list;
        i ← code_get fs c;
        if decide (GET_OPCODE i <> OP_TESTSET) then LOk true
        else
          list ← getjump fs list;
          need_value_loop fuel fs list
  end.
Definition need_value fs (list : Z) : lres bool := need_value_loop (S (length (code fs))) fs list.

Definition patchtestreg fs (node reg : Z) : lres (bool * FuncState) :=
  c ← getjumpcontrol fs node;
  i ← code_get fs c;
  if decide (GET_OPCODE i <> OP_TESTSET) then LOk (false, fs)
  else
    fs ← (if decide (reg <> NO_REG /\ reg <> GETARG_B i) then code_put fs c (SETARG_A i reg)
          else code_put fs c (CREATE_ABC OP_TEST (GETARG_B i) 0 (GETARG_C i)));
    LOk (true, fs).

Fixpoint removevalues_loop (fuel : nat) fs (list : Z) : lres FuncState :=
  match fuel with
  | O => LFault OutOfFuel
  | S fuel =>
      if decide (list = NO_JUMP) then LOk fs
      else
        '(_, fs) ← patchtestreg fs list NO_REG;
        list ← getjump fs list;
        removevalues_loop fuel fs list
  end.
Definition removevalues fs (list : Z) : lres FuncState := removevalues_loop (S (length (code fs))) fs list.

Fixpoint patchlistaux_loop (fuel : nat) fs (list vtarget reg dtarget : Z) : lres FuncState :=
  match fuel with
  | O => LFault OutOfFuel
  | S fuel =>
      if decide (list = NO_JUMP) then LOk fs
      else
        next ← getjump fs list;
        '(b, fs) ← patchtestreg fs list reg;
        fs ← fixjump fs list (if (b : bool) then vtarget else dtarget);
        patchlistaux_loop fuel fs next vtarget reg dtarget
  end.
Definition patchlistaux fs (list vtarget reg dtarget : Z) : lres FuncState := patchlistaux_loop (S (length (code fs))) fs list vtarget reg dtarget.

Definition dischargejpc fs : lres FuncState :=
  fs ← patchlistaux fs (jpc fs) (pc fs) NO_REG (pc fs);
  LOk (set_jpc fs NO_JUMP).

(** The last jump of a list that is not empty. *)
Fixpoint concat_last (fuel : nat) fs (list : Z) : lres Z :=
  match fuel with
  | O => LFault OutOfFuel
  | S fuel =>
      next ← getjump fs list;
      if decide (next <> NO_JUMP) then concat_last fuel fs next else LOk list
  end.
(** The list [*l1], and the state. *)
Definition luaK_concat fs (l1 l2 : Z) : lres (Z * FuncState) :=
  if decide (l2 = NO_JUMP) then LOk (l1, fs)
  else if decide (l1 = NO_JUMP) then LOk (l2, fs)
  else
    list ← concat_last (S (length (code fs))) fs l1;
    fs ← fixjump fs list l2;
    LOk (l1, fs).

Definition luaK_patchtohere fs (list : Z) : lres FuncState :=
  let '(_, fs) := luaK_getlabel fs in
  '(j, fs) ← luaK_concat fs (jpc fs) list;
  LOk (set_jpc fs j).

Definition luaK_patchlist fs (list target : Z) : lres FuncState :=
  if decide (target = pc fs) then luaK_patchtohere fs list
  else
    _ ← lua_assert (bool_decide (target < pc fs));
    patchlistaux fs list target NO_REG target.

(** ** Instructions *)

Definition MINSIZEARRAY : Z := 4.
(** The new size. *)
Definition luaM_growaux_ (size limit : Z) (errormsg : string) : lres Z :=
  if decide (size >= limit / 2) then
    if decide (size >= limit) then LError (lit errormsg) else LOk limit
  else LOk (Z.max (size * 2) MINSIZEARRAY).
Definition luaM_growvector (nelems size limit : Z) (e : string) : lres Z := if decide (nelems + 1 > size) then luaM_growaux_ size limit e else LOk size.

Definition luaK_code fs (i line : Z) : lres (Z * FuncState) :=
  fs ← dischargejpc fs;
  sc ← luaM_growvector (pc fs) (sizecode fs) MAX_INT "code size overflow";
  sl ← luaM_growvector (pc fs) (sizelineinfo fs) MAX_INT "code size overflow";
  LOk (pc fs, set_codes fs (code fs ++ [i]) sc (lineinfo fs ++ [line]) sl).

Definition luaK_codeABC fs (o a b c : Z) : lres (Z * FuncState) :=
  _ ← lua_assert (bool_decide (getOpMode o = iABC));
  _ ← lua_assert (bool_decide (getBMode o <> OpArgN \/ b = 0));
  _ ← lua_assert (bool_decide (getCMode o <> OpArgN \/ c = 0));
  luaK_code fs (CREATE_ABC o a b c) (lastline (ls fs)).
Definition luaK_codeABx fs (o a bc : Z) : lres (Z * FuncState) :=
  _ ← lua_assert (bool_decide (getOpMode o = iABx \/ getOpMode o = iAsBx));
  _ ← lua_assert (bool_decide (getCMode o = OpArgN));
  luaK_code fs (CREATE_ABx o a bc) (lastline (ls fs)).
Definition luaK_codeAsBx fs (o a sbx : Z) : lres (Z * FuncState) := luaK_codeABx fs o a (sbx + MAXARG_sBx).

Definition luaK_fixline fs (line : Z) : lres FuncState :=
  if decide (0 < pc fs) then LOk (set_codes fs (code fs) (sizecode fs) (<[Z.to_nat (pc fs - 1) := line]> (lineinfo fs)) (sizelineinfo fs)) else LFault OutOfBounds.

Definition luaK_nil fs (from n : Z) : lres FuncState :=
  let emit fs := '(_, fs) ← luaK_codeABC fs OP_LOADNIL from (from + n - 1) 0; LOk fs in
  if decide (pc fs > lasttarget fs) then
    if decide (pc fs = 0) then
      if decide (from >= nactvar fs) then LOk fs else emit fs
    else
      previous ← code_get fs (pc fs - 1);
      if decide (GET_OPCODE previous = OP_LOADNIL) then
        let pfrom := GETARG_A previous in
        let pto := GETARG_B previous in
        if decide (pfrom <= from /\ from <= pto + 1) then
          if decide (from + n - 1 > pto) then code_put fs (pc fs - 1) (SETARG_B previous (from + n - 1)) else LOk fs
        else emit fs
      else emit fs
  else emit fs.

Definition luaK_jump fs : lres (Z * FuncState) :=
  let j0 := jpc fs in
  '(j, fs) ← luaK_codeAsBx (set_jpc fs NO_JUMP) OP_JMP 0 NO_JUMP;
  luaK_concat fs j j0.

Definition luaK_ret fs (first nret : Z) : lres FuncState := '(_, fs) ← luaK_codeABC fs OP_RETURN first (nret + 1) 0; LOk fs.

Definition condjump fs (op A B C : Z) : lres (Z * FuncState) :=
  '(_, fs) ← luaK_codeABC fs op A B C;
  luaK_jump fs.

(** ** Registers *)

Definition cast_byte (z : Z) : Z := z mod 256.

Definition luaK_checkstack fs (n : Z) : lres FuncState :=
  let newstack := fs_freereg fs + n in
  if decide (newstack > maxstacksize fs) then
    if decide (newstack >= MAXSTACK) then luaX_syntaxerror (ls fs) "function or expression too complex"
    else LOk (set_maxstack fs (cast_byte newstack))
  else LOk fs.

Definition luaK_reserveregs fs (n : Z) : lres FuncState :=
  fs ← luaK_checkstack fs n;
  LOk (set_freereg fs (fs_freereg fs + n)).

Definition freereg fs (reg : Z) : lres FuncState :=
  if decide (ISK reg = false /\ reg >= nactvar fs) then
    let fs := set_freereg fs (fs_freereg fs - 1) in
    _ ← lua_assert (bool_decide (reg = fs_freereg fs));
    LOk fs
  else LOk fs.

Definition freeexp fs e : lres FuncState :=
  if decide (e_k e = VNONRELOC) then
    i ← info e;
    freereg fs i
  else LOk fs.

(** ** Constants *)

(** All values of the table are numbers. *)
Definition addk fs (key v : tkey) : lres (Z * FuncState) :=
  '(t, idx) ← luaH_set (h fs) key;
  match slot_get t idx with
  | Some n =>
      let i := lua_number2int n in
      _ ← match k fs !! Z.to_nat i with Some kv => lua_assert (luaO_rawequalObj kv v) | None => LFault OutOfBounds end;
      LOk (i, set_consts fs (k fs) (sizek fs) t)
  | None =>
      t ← slot_put t idx (Some (cast_num (nk fs)));
      sk ← luaM_growvector (nk fs) (sizek fs) MAXARG_Bx "constant table overflow";
      LOk (nk fs, set_consts fs (k fs ++ [v]) sk t)
  end.

Definition LUA_TTABLE : Z := 5.
Definition luaK_stringK fs (s : Z) : lres (Z * FuncState) := addk fs (TStr s) (TStr s).
Definition luaK_numberK fs (r : number) : lres (Z * FuncState) := addk fs (TNum r) (TNum r).
Definition boolK fs (b : bool) : lres (Z * FuncState) := addk fs (TBool b) (TBool b).
Definition nilK fs : lres (Z * FuncState) := addk fs (TObj LUA_TTABLE (hptr fs)) TNil.

(** ** Expressions to registers *)

Definition luaK_setreturns fs e (nresults : Z) : lres FuncState :=
  if decide (e_k e = VCALL) then
    i ← getcode fs e;
    setcode fs e (SETARG_C i (nresults + 1))
  else if decide (e_k e = VVARARG) then
    i ← getcode fs e;
    fs ← setcode fs e (SETARG_B i (nresults + 1));
    i ← getcode fs e;
    fs ← setcode fs e (SETARG_A i (fs_freereg fs));
    luaK_reserveregs fs 1
  else LOk fs.

Definition luaK_setoneret fs e : lres (FuncState * expdesc) :=
  if decide (e_k e = VCALL) then
    i ← getcode fs e;
    LOk (fs, set_info e VNONRELOC (GETARG_A i))
  else if decide (e_k e = VVARARG) then
    i ← getcode fs e;
    fs ← setcode fs e (SETARG_B i 2);
    LOk (fs, set_kind e VRELOCABLE)
  else LOk (fs, e).

Definition luaK_dischargevars fs e : lres (FuncState * expdesc) :=
  match e_k e with
  | VLOCAL => LOk (fs, set_kind e VNONRELOC)
  | VUPVAL =>
      i ← info e;
      '(p, fs) ← luaK_codeABC fs OP_GETUPVAL 0 i 0;
      LOk (fs, set_info e VRELOCABLE p)
  | VGLOBAL =>
      i ← info e;
      '(p, fs) ← luaK_codeABx fs OP_GETGLOBAL 0 i;
      LOk (fs, set_info e VRELOCABLE p)
  | VINDEXED =>
      a ← aux e;
      i ← info e;
      fs ← freereg fs a;
      fs ← freereg fs i;
      '(p, fs) ← luaK_codeABC fs OP_GETTABLE 0 i a;
      LOk (fs, set_info e VRELOCABLE p)
  | VVARARG | VCALL => luaK_setoneret fs e
  | _ => LOk (fs, e)
  end.

Definition code_label fs (A b jump : Z) : lres (Z * FuncState) :=
  let '(_, fs) := luaK_getlabel fs in
  luaK_codeABC fs OP_LOADBOOL A b jump.

Definition discharge2reg fs e (reg : Z) : lres (FuncState * expdesc) :=
  '(fs, e) ← luaK_dischargevars fs e;
  let done fs := LOk (fs, set_info e VNONRELOC reg) in
  match e_k e with
  | VNIL => fs ← luaK_nil fs reg 1; done fs
  | VFALSE | VTRUE => '(_, fs) ← luaK_codeABC fs OP_LOADBOOL reg (if decide (e_k e = VTRUE) then 1 else 0) 0; done fs
  | VK => i ← info e; '(_, fs) ← luaK_codeABx fs OP_LOADK reg i; done fs
  | VKNUM =>
      n ← nval e;
      '(i, fs) ← luaK_numberK fs n;
      '(_, fs) ← luaK_codeABx fs OP_LOADK reg i;
      done fs
  | VRELOCABLE =>
      i ← getcode fs e;
      fs ← setcode fs e (SETARG_A i reg);
      done fs
  | VNONRELOC =>
      i ← info e;
      fs ← (if decide (reg <> i) then '(_, fs) ← luaK_codeABC fs OP_MOVE reg i 0; LOk fs else LOk fs);
      done fs
  | _ =>
      _ ← lua_assert (bool_decide (e_k e = VVOID \/ e_k e = VJMP));
      LOk (fs, e)
  end.

Definition discharge2anyreg fs e : lres (FuncState * expdesc) :=
  if decide (e_k e <> VNONRELOC) then
    fs ← luaK_reserveregs fs 1;
    discharge2reg fs e (fs_freereg fs - 1)
  else LOk (fs, e).

(** The second half of exp2reg(): the jumps of the expression. *)
Definition exp2reg_jumps fs e (reg : Z) : lres FuncState :=
  if hasjumps e then
    nt ← need_value fs (e_t e);
    nv ← (if (nt : bool) then LOk true else need_value fs (e_f e));
    '(p_f, p_t, fs) ← (if (nv : bool) then
                         '(fj, fs) ← (if decide (e_k e = VJMP) then LOk (NO_JUMP, fs) else luaK_jump fs);
                         '(p_f, fs) ← code_label fs reg 0 1;
                         '(p_t, fs) ← code_label fs reg 1 0;
                         fs ← luaK_patchtohere fs fj;
                         LOk (p_f, p_t, fs)
                       else LOk (NO_JUMP, NO_JUMP, fs));
    let '(final, fs) := luaK_getlabel fs in
    fs ← patchlistaux fs (e_f e) final reg p_f;
    patchlistaux fs (e_t e) final reg p_t
  else LOk fs.
Definition exp2reg fs e (reg : Z) : lres (FuncState * expdesc) :=
  '(fs, e) ← discharge2reg fs e reg;
  '(fs, e) ← (if decide (e_k e = VJMP) then
                i ← info e;
                '(t, fs) ← luaK_concat fs (e_t e) i;
                LOk (fs, set_t e t)
              else LOk (fs, e));
  fs ← exp2reg_jumps fs e reg;
  LOk (fs, set_info (set_f (set_t e NO_JUMP) NO_JUMP) VNONRELOC reg).

Definition luaK_exp2nextreg fs e : lres (FuncState * expdesc) :=
  '(fs, e) ← luaK_dischargevars fs e;
  fs ← freeexp fs e;
  fs ← luaK_reserveregs fs 1;
  exp2reg fs e (fs_freereg fs - 1).

Definition luaK_exp2anyreg fs e : lres (Z * FuncState * expdesc) :=
  '(fs, e) ← luaK_dischargevars fs e;
  let default :=
    '(fs, e) ← luaK_exp2nextreg fs e;
    i ← info e;
    LOk (i, fs, e) in
  if decide (e_k e = VNONRELOC) then
    i ← info e;
    if negb (hasjumps e) then LOk (i, fs, e)
    else if decide (i >= nactvar fs) then
      '(fs, e) ← exp2reg fs e i;
      i ← info e;
      LOk (i, fs, e)
    else default
  else default.

Definition luaK_exp2val fs e : lres (FuncState * expdesc) :=
  if hasjumps e then '(_, fs, e) ← luaK_exp2anyreg fs e; LOk (fs, e)
  else luaK_dischargevars fs e.

Definition luaK_exp2RK fs e : lres (Z * FuncState * expdesc) :=
  '(fs, e) ← luaK_exp2val fs e;
  match e_k e with
  | VKNUM | VTRUE | VFALSE | VNIL =>
      if decide (nk fs <= MAXINDEXRK) then
        '(i, fs) ← (if decide (e_k e = VNIL) then nilK fs
                    else if decide (e_k e = VKNUM) then n ← nval e; luaK_numberK fs n
                    else boolK fs (bool_decide (e_k e = VTRUE)));
        LOk (RKASK i, fs, set_info e VK i)
      else luaK_exp2anyreg fs e
  | VK =>
      i ← info e;
      if decide (i <= MAXINDEXRK) then LOk (RKASK i, fs, e) else luaK_exp2anyreg fs e
  | _ => luaK_exp2anyreg fs e
  end.

Definition luaK_storevar fs (var ex : expdesc) : lres (FuncState * expdesc) :=
  match e_k var with
  | VLOCAL =>
      fs ← freeexp fs ex;
      i ← info var;
      exp2reg fs ex i
  | VUPVAL =>
      '(e, fs, ex) ← luaK_exp2anyreg fs ex;
      i ← info var;
      '(_, fs) ← luaK_codeABC fs OP_SETUPVAL e i 0;
      fs ← freeexp fs ex;
      LOk (fs, ex)
  | VGLOBAL =>
      '(e, fs, ex) ← luaK_exp2anyreg fs ex;
      i ← info var;
      '(_, fs) ← luaK_codeABx fs OP_SETGLOBAL e i;
      fs ← freeexp fs ex;
      LOk (fs, ex)
  | VINDEXED =>
      '(e, fs, ex) ← luaK_exp2RK fs ex;
      i ← info var;
      a ← aux var;
      '(_, fs) ← luaK_codeABC fs OP_SETTABLE i a e;
      fs ← freeexp fs ex;
      LOk (fs, ex)
  | _ => LFault AssertFail
  end.

Definition luaK_self fs e (key : expdesc) : lres (FuncState * expdesc * expdesc) :=
  '(_, fs, e) ← luaK_exp2anyreg fs e;
  fs ← freeexp fs e;
  let func := fs_freereg fs in
  fs ← luaK_reserveregs fs 2;
  i ← info e;
  '(rk, fs, key) ← luaK_exp2RK fs key;
  '(_, fs) ← luaK_codeABC fs OP_SELF func i rk;
  fs ← freeexp fs key;
  LOk (fs, set_info e VNONRELOC func, key).

(** ** Conditions *)

Definition invertjump fs e : lres FuncState :=
  p ← info e;
  c ← getjumpcontrol fs p;
  i ← code_get fs c;
  b ← testTMode_ (GET_OPCODE i);
  _ ← lua_assert (b && bool_decide (GET_OPCODE i <> OP_TESTSET /\ GET_OPCODE i <> OP_TEST));
  code_put fs c (SETARG_A i (if decide (GETARG_A i = 0) then 1 else 0)).

(** [fs->pc--] removes the last instruction. *)
Definition drop_last fs : FuncState :=
  let n := Nat.pred (length (code fs)) in
  set_codes fs (take n (code fs)) (sizecode fs) (take n (lineinfo fs)) (sizelineinfo fs).

(** [cond] is 0 or 1. *)
Definition jumponcond fs e (cond : Z) : lres (Z * FuncState * expdesc) :=
  let default :=
    '(fs, e) ← discharge2anyreg fs e;
    fs ← freeexp fs e;
    i ← info e;
    '(j, fs) ← condjump fs OP_TESTSET NO_REG i cond;
    LOk (j, fs, e) in
  if decide (e_k e = VRELOCABLE) then
    ie ← getcode fs e;
    if decide (GET_OPCODE ie = OP_NOT) then
      '(j, fs) ← condjump (drop_last fs) OP_TEST (GETARG_B ie) 0 (if decide (cond = 0) then 1 else 0);
      LOk (j, fs, e)
    else default
  else default.

Definition luaK_goiftrue fs e : lres (FuncState * expdesc) :=
  '(fs, e) ← luaK_dischargevars fs e;
  '(pc, fs, e) ← match e_k e with
                 | VK | VKNUM | VTRUE => LOk (NO_JUMP, fs, e)
                 | VFALSE => '(j, fs) ← luaK_jump fs; LOk (j, fs, e)
                 | VJMP => fs ← invertjump fs e; i ← info e; LOk (i, fs, e)
                 | _ => jumponcond fs e 0
                 end;
  '(f, fs) ← luaK_concat fs (e_f e) pc;
  fs ← luaK_patchtohere fs (e_t e);
  LOk (fs, set_t (set_f e f) NO_JUMP).

Definition luaK_goiffalse fs e : lres (FuncState * expdesc) :=
  '(fs, e) ← luaK_dischargevars fs e;
  '(pc, fs, e) ← match e_k e with
                 | VNIL | VFALSE => LOk (NO_JUMP, fs, e)
                 | VTRUE => '(j, fs) ← luaK_jump fs; LOk (j, fs, e)
                 | VJMP => i ← info e; LOk (i, fs, e)
                 | _ => jumponcond fs e 1
                 end;
  '(t, fs) ← luaK_concat fs (e_t e) pc;
  fs ← luaK_patchtohere fs (e_f e);
  LOk (fs, set_f (set_t e t) NO_JUMP).

Definition codenot fs e : lres (FuncState * expdesc) :=
  '(fs, e) ← luaK_dischargevars fs e;
  '(fs, e) ← match e_k e with
             | VNIL | VFALSE => LOk (fs, set_kind e VTRUE)
             | VK | VKNUM | VTRUE => LOk (fs, set_kind e VFALSE)
             | VJMP => fs ← invertjump fs e; LOk (fs, e)
             | VRELOCABLE | VNONRELOC =>
                 '(fs, e) ← discharge2anyreg fs e;
                 fs ← freeexp fs e;
                 i ← info e;
                 '(p, fs) ← luaK_codeABC fs OP_NOT 0 i 0;
                 LOk (fs, set_info e VRELOCABLE p)
             | _ => LFault AssertFail
             end;
  let e := set_t (set_f e (e_t e)) (e_f e) in
  fs ← removevalues fs (e_f e);
  fs ← removevalues fs (e_t e);
  LOk (fs, e).

(** ** Operators *)

Definition luaK_indexed fs (t key : expdesc) : lres (FuncState * expdesc * expdesc) :=
  '(rk, fs, key) ← luaK_exp2RK fs key;
  i ← info t;
  LOk (fs, MkExp VINDEXED (U_s i (Some rk)) (e_t t) (e_f t), key).

(** The folded expression, if there is one. *)
Definition constfolding (op : Z) (e1 e2 : expdesc) : lres (option expdesc) :=
  if negb (isnumeral e1) || negb (isnumeral e2) then LOk None
  else
    v1 ← nval e1;
    v2 ← nval e2;
    let zero := luai_numeq v2 (NZero false) in
    r ← (if decide (op = OP_ADD) then LOk (Some (luai_numadd v1 v2))
         else if decide (op = OP_SUB) then LOk (Some (luai_numsub v1 v2))
         else if decide (op = OP_MUL) then LOk (Some (luai_nummul v1 v2))
         else if decide (op = OP_DIV) then LOk (if zero then None else Some (luai_numdiv v1 v2))
         else if decide (op = OP_MOD) then LOk (if zero then None else Some (luai_nummod v1 v2))
         else if decide (op = OP_POW) then LOk (Some (luai_numpow v1 v2))
         else if decide (op = OP_UNM) then LOk (Some (luai_numunm v1))
         else if decide (op = OP_LEN) then LOk None
         else LFault AssertFail);
    LOk (match r with
         | None => None
         | Some r => if luai_numisnan r then None else Some (MkExp (e_k e1) (U_nval r) (e_t e1) (e_f e1))
         end).

Definition codearith fs (op : Z) (e1 e2 : expdesc) : lres (FuncState * expdesc * expdesc) :=
  folded ← constfolding op e1 e2;
  match folded with
  | Some e1 => LOk (fs, e1, e2)
  | None =>
      '(o2, fs, e2) ← (if decide (op <> OP_UNM /\ op <> OP_LEN) then luaK_exp2RK fs e2 else LOk (0, fs, e2));
      '(o1, fs, e1) ← luaK_exp2RK fs e1;
      fs ← (if decide (o1 > o2) then fs ← freeexp fs e1; freeexp fs e2 else fs ← freeexp fs e2; freeexp fs e1);
      '(p, fs) ← luaK_codeABC fs op 0 o1 o2;
      LOk (fs, set_info e1 VRELOCABLE p, e2)
  end.

Definition codecomp fs (op cond : Z) (e1 e2 : expdesc) : lres (FuncState * expdesc * expdesc) :=
  '(o1, fs, e1) ← luaK_exp2RK fs e1;
  '(o2, fs, e2) ← luaK_exp2RK fs e2;
  fs ← freeexp fs e2;
  fs ← freeexp fs e1;
  let '(o1, o2, cond) := if decide (cond = 0 /\ op <> OP_EQ) then (o2, o1, 1) else (o1, o2, cond) in
  '(j, fs) ← condjump fs op cond o1 o2;
  LOk (fs, set_info e1 VJMP j, e2).

Inductive UnOpr := OPR_MINUS | OPR_NOT | OPR_LEN | OPR_NOUNOPR.
Inductive BinOpr :=
| OPR_ADD | OPR_SUB | OPR_MUL | OPR_DIV | OPR_MOD | OPR_POW
| OPR_CONCAT
| OPR_NE | OPR_EQ
| OPR_LT | OPR_LE | OPR_GT | OPR_GE
| OPR_AND | OPR_OR
| OPR_NOBINOPR.

Definition luaK_prefix fs (op : UnOpr) e : lres (FuncState * expdesc) :=
  let e2 := MkExp VKNUM (U_nval (NZero false)) NO_JUMP NO_JUMP in
  match op with
  | OPR_MINUS =>
      '(fs, e) ← (if isnumeral e then LOk (fs, e) else '(_, fs, e) ← luaK_exp2anyreg fs e; LOk (fs, e));
      '(fs, e, _) ← codearith fs OP_UNM e e2;
      LOk (fs, e)
  | OPR_NOT => codenot fs e
  | OPR_LEN =>
      '(_, fs, e) ← luaK_exp2anyreg fs e;
      '(fs, e, _) ← codearith fs OP_LEN e e2;
      LOk (fs, e)
  | OPR_NOUNOPR => LFault AssertFail
  end.

Definition luaK_infix fs (op : BinOpr) (v : expdesc) : lres (FuncState * expdesc) :=
  match op with
  | OPR_AND => luaK_goiftrue fs v
  | OPR_OR => luaK_goiffalse fs v
  | OPR_CONCAT => luaK_exp2nextreg fs v
  | OPR_ADD | OPR_SUB | OPR_MUL | OPR_DIV | OPR_MOD | OPR_POW =>
      if isnumeral v then LOk (fs, v) else '(_, fs, v) ← luaK_exp2RK fs v; LOk (fs, v)
  | _ => '(_, fs, v) ← luaK_exp2RK fs v; LOk (fs, v)
  end.

Definition luaK_posfix fs (op : BinOpr) (e1 e2 : expdesc) : lres (FuncState * expdesc * expdesc) :=
  match op with
  | OPR_AND =>
      _ ← lua_assert (bool_decide (e_t e1 = NO_JUMP));
      '(fs, e2) ← luaK_dischargevars fs e2;
      '(f, fs) ← luaK_concat fs (e_f e2) (e_f e1);
      LOk (fs, set_f e2 f, set_f e2 f)
  | OPR_OR =>
      _ ← lua_assert (bool_decide (e_f e1 = NO_JUMP));
      '(fs, e2) ← luaK_dischargevars fs e2;
      '(t, fs) ← luaK_concat fs (e_t e2) (e_t e1);
      LOk (fs, set_t e2 t, set_t e2 t)
  | OPR_CONCAT =>
      '(fs, e2) ← luaK_exp2val fs e2;
      concat ← (if decide (e_k e2 = VRELOCABLE) then i ← getcode fs e2; LOk (bool_decide (GET_OPCODE i = OP_CONCAT)) else LOk false);
      if (concat : bool) then
        i1 ← info e1;
        c ← getcode fs e2;
        _ ← lua_assert (bool_decide (i1 = GETARG_B c - 1));
        fs ← freeexp fs e1;
        fs ← setcode fs e2 (SETARG_B c i1);
        i2 ← info e2;
        LOk (fs, set_info e1 VRELOCABLE i2, e2)
      else
        '(fs, e2) ← luaK_exp2nextreg fs e2;
        codearith fs OP_CONCAT e1 e2
  | OPR_ADD => codearith fs OP_ADD e1 e2
  | OPR_SUB => codearith fs OP_SUB e1 e2
  | OPR_MUL => codearith fs OP_MUL e1 e2
  | OPR_DIV => codearith fs OP_DIV e1 e2
  | OPR_MOD => codearith fs OP_MOD e1 e2
  | OPR_POW => codearith fs OP_POW e1 e2
  | OPR_EQ => codecomp fs OP_EQ 1 e1 e2
  | OPR_NE => codecomp fs OP_EQ 0 e1 e2
  | OPR_LT => codecomp fs OP_LT 1 e1 e2
  | OPR_LE => codecomp fs OP_LE 1 e1 e2
  | OPR_GT => codecomp fs OP_LT 0 e1 e2
  | OPR_GE => codecomp fs OP_LE 0 e1 e2
  | OPR_NOBINOPR => LFault AssertFail
  end.

Definition LFIELDS_PER_FLUSH : Z := 50.
Definition luaK_setlist fs (base nelems tostore : Z) : lres FuncState :=
  let c := Z.quot (nelems - 1) LFIELDS_PER_FLUSH + 1 in
  let b := if decide (tostore = LUA_MULTRET) then 0 else tostore in
  _ ← lua_assert (bool_decide (tostore <> 0));
  fs ← (if decide (c <= MAXARG_C) then '(_, fs) ← luaK_codeABC fs OP_SETLIST base b c; LOk fs
        else
          '(_, fs) ← luaK_codeABC fs OP_SETLIST base b 0;
          '(_, fs) ← luaK_code fs (u32 c) (lastline (ls fs));
          LOk fs);
  LOk (set_freereg fs (base + 1)).
End generator.
