(* ===== verification/LuaJump.v ===== *)
(** LuaJump: the jump lists of the code generator, src/liblua/src/lcode.c. A list of jumps that
    wait for their target is threaded through their offsets. Here it is a list of positions:
    luaK_concat() appends, patchlistaux() sends every jump of the list to its target and
    changes nothing else, and what luaK_patchtohere() collects goes to the next instruction. *)

From Corelib Require Import ssreflect.
From stdpp Require Import base list numbers strings sets.
From Stdlib Require Import ZArith Lia.
From S2P Require Import Prelude LuaObject LuaOpcodes LuaLex LuaNumber LuaTable LuaCode.

Implicit Type fs : FuncState.

(** ** Fields *)

Lemma set_field_u32 n p i u : field_in n p -> is_u32 i -> 0 <= u < 2 ^ n -> is_u32 (set_field n p i u).
Proof.
  intros Hf Hi Hu. assert (u32 (set_field n p i u) = set_field n p i u) as <-; [|apply u32_range]. apply Z.bits_inj' => b Hb. rw u32_bit //. case_bool_decide; [done|].
  rw /= set_field_bit //. destruct Hf as (? & ? & ? & _). case_decide; [lia|]. symmetry. apply u32_high; [done|lia].
Qed.

Lemma MAXARG_sBx_val : MAXARG_sBx = 131071.
Proof. reflexivity. Qed.

(** An offset that fits is read back, and the opcode stays. *)
Lemma setarg_sbx i off : is_u32 i -> Z.abs off <= MAXARG_sBx ->
  GETARG_sBx (SETARG_sBx i off) = off /\ GET_OPCODE (SETARG_sBx i off) = GET_OPCODE i /\ is_u32 (SETARG_sBx i off).
Proof.
  intros Hi Ho. rw MAXARG_sBx_val in Ho. destruct fields_in as (_ & _ & _ & _ & FX). assert (0 <= off + MAXARG_sBx < 2 ^ SIZE_Bx) as Hr by (rw MAXARG_sBx_val; change (2 ^ SIZE_Bx) with 262144; lia).
  assert (is_u32 (off + MAXARG_sBx)) as Hu by (rw /is_u32; change (2 ^ SIZE_Bx) with 262144 in Hr; lia).
  rw /GETARG_sBx /SETARG_sBx (u32_small _ Hu) /SETARG_Bx. split; [|split; [|by apply set_field_u32]].
  - change (GETARG_Bx ?x) with (field SIZE_Bx POS_Bx x). rw field_set //. lia.
  - change (GET_OPCODE ?x) with (field SIZE_OP POS_OP x). rw field_set_other //. left. done.
Qed.

(** ** Code *)

Definition word (c : list Z) (p : Z) : option Z := if decide (0 <= p) then c !! Z.to_nat p else None.

Lemma word_range c p i : word c p = Some i -> 0 <= p < length c.
Proof. rw /word. case_decide; [|done]. intros Hi%lookup_lt_Some. lia. Qed.
Lemma code_get_word fs p i : word (code fs) p = Some i -> code_get fs p = LOk i.
Proof. rw /word /code_get. case_decide; [|done]. by intros ->. Qed.
Lemma code_put_word fs p i j : word (code fs) p = Some i -> code_put fs p j = LOk (set_code fs (<[Z.to_nat p := j]> (code fs))).
Proof. intros Hp%word_range. rw /code_put decide_True //. Qed.
Lemma word_insert c p q i j : word c p = Some i -> word (<[Z.to_nat p := j]> c) q = if decide (q = p) then Some j else word c q.
Proof.
  intros Hp%word_range. rw /word. destruct (decide (q = p)) as [->|]; [rw decide_True; [lia|]; apply list_lookup_insert_eq; lia|].
  case_decide; [|done]. apply list_lookup_insert_ne. lia.
Qed.
Lemma word_snoc c i q : word (c ++ [i]) q = if decide (q = length c) then Some i else word c q.
Proof.
  rw /word. destruct (decide (q = length c)) as [->|].
  - rw decide_True; [lia|]. rw Nat2Z.id. apply list_lookup_middle. done.
  - case_decide; [|done]. destruct (decide (Z.to_nat q < length c)%nat); [by rw lookup_app_l|]. rw !lookup_ge_None_2 //; [rw length_app /=; lia|lia].
Qed.

(** ** Jump lists *)

Definition jump_op (i : Z) : bool := bool_decide (GET_OPCODE i < NUM_OPCODES) && bool_decide (getOpMode (GET_OPCODE i) = iAsBx).
Definition link (p i : Z) : Z := if decide (GETARG_sBx i = NO_JUMP) then NO_JUMP else p + 1 + GETARG_sBx i.
(** Where the machine goes from a jump. *)
Definition jump_dest (p i : Z) : Z := p + 1 + GETARG_sBx i.

Inductive jumps (c : list Z) : Z -> list Z -> Prop :=
| jumps_nil : jumps c NO_JUMP []
| jumps_cons p i ps : word c p = Some i -> jumps c (link p i) ps -> jumps c p (p :: ps).

(** A jump, and before it no word that is not an instruction: such words follow OP_SETLIST. *)
Definition jump_ok (c : list Z) (p : Z) : Prop :=
  (exists i, word c p = Some i /\ is_u32 i /\ jump_op i = true) /\
  (1 <= p -> exists i, word c (p - 1) = Some i /\ is_u32 i /\ GET_OPCODE i < NUM_OPCODES).

Definition jump_list (c : list Z) (l : Z) (ps : list Z) : Prop := jumps c l ps /\ NoDup ps /\ Forall (jump_ok c) ps.

(** Whether the jump is controlled by OP_TESTSET. *)
Definition testset (c : list Z) (p : Z) : bool := match word c (p - 1) with Some i => bool_decide (GET_OPCODE i = OP_TESTSET) | None => false end.

(** The instruction OP_TESTSET that stores in a register, or OP_TEST if there is none or the value is there. *)
Definition test_with (reg i : Z) : Z :=
  if decide (reg <> NO_REG /\ reg <> GETARG_B i) then SETARG_A i reg else CREATE_ABC OP_TEST (GETARG_B i) 0 (GETARG_C i).

Lemma opcode_range i : 0 <= GET_OPCODE i < 64.
Proof. rw /GET_OPCODE. change (MASK1 SIZE_OP 0) with (Z.ones 6). rw Z.land_ones //. apply Z.mod_pos_bound. done. Qed.

(** No instruction that jumps is a test. *)
Lemma jump_op_cases i : jump_op i = true -> testTMode (GET_OPCODE i) = false /\ GET_OPCODE i <> OP_TESTSET.
Proof.
  rw /jump_op. intros [Ho%bool_decide_eq_true_1 Hm%bool_decide_eq_true_1]%andb_prop. pose proof (opcode_range i) as Hr. change NUM_OPCODES with 38 in Ho.
  assert (Forall (fun n => getOpMode (Z.of_nat n) = iAsBx -> testTMode (Z.of_nat n) = false /\ Z.of_nat n <> OP_TESTSET) (seq 0 38)) as HF by (repeat (apply Forall_cons; split; [by vm_compute|]); by apply Forall_nil).
  pose proof (proj1 (Forall_forall _ _) HF (Z.to_nat (GET_OPCODE i))) as HP. rw Z2Nat.id in HP; [lia|]. apply HP; [|done]. apply elem_of_seq. lia.
Qed.

(** ** One jump *)

Lemma getjump_link fs p i : word (code fs) p = Some i -> getjump fs p = LOk (link p i).
Proof. intros Hi. rw /getjump (code_get_word _ _ _ Hi) LOk_bind /link. by case_decide. Qed.

Lemma getjumpcontrol_spec fs p : jump_ok (code fs) p ->
  getjumpcontrol fs p = LOk (if decide (p >= 1) then match word (code fs) (p - 1) with Some i => if testTMode (GET_OPCODE i) then p - 1 else p | None => p end else p).
Proof.
  intros [_ Hb]. rw /getjumpcontrol. case_decide as Hp; [|done]. destruct Hb as (i & Hi & _ & Ho); [lia|]. by rw (code_get_word _ _ _ Hi) LOk_bind /testTMode_ decide_True // LOk_bind Hi.
Qed.

Lemma testset_mode i : GET_OPCODE i = OP_TESTSET -> testTMode (GET_OPCODE i) = true.
Proof. by intros ->. Qed.

Lemma testset_word c p : testset c p = true -> exists i, word c (p - 1) = Some i /\ GET_OPCODE i = OP_TESTSET.
Proof. rw /testset. destruct (word c (p - 1)) as [i|]; [|done]. intros Ho%bool_decide_eq_true_1. by exists i. Qed.

(** The instruction that getjumpcontrol() finds is OP_TESTSET just if the one before the jump is. *)
Lemma control_testset fs p : jump_ok (code fs) p -> exists q i, getjumpcontrol fs p = LOk q /\ code_get fs q = LOk i /\ word (code fs) q = Some i /\
  (GET_OPCODE i = OP_TESTSET -> q = p - 1 /\ testset (code fs) p = true) /\ (testset (code fs) p = true -> GET_OPCODE i = OP_TESTSET).
Proof.
  intros Hok. rw (getjumpcontrol_spec fs p Hok). destruct Hok as [(i & Hi & _ & Hj) Hb]. destruct (jump_op_cases i Hj) as [_ Hno].
  assert (forall x, word (code fs) p = Some x -> code_get fs p = LOk x) as Hget by (intros x; apply code_get_word).
  case_decide as Hp.
  - destruct Hb as (x & Hx & _ & _); [lia|]. rw Hx. destruct (testTMode (GET_OPCODE x)) eqn:Ht.
    + exists (p - 1), x. split; [done|]. split; [by apply code_get_word|]. split; [done|]. rw /testset Hx. split; [intros Ho; split; [done|by apply bool_decide_eq_true_2]|by intros ?%bool_decide_eq_true_1].
    + exists p, i. split; [done|]. split; [by apply Hget|]. split; [done|]. split; [done|]. rw /testset Hx. intros Ho%bool_decide_eq_true_1%testset_mode. congruence.
  - exists p, i. split; [done|]. split; [by apply Hget|]. split; [done|]. split; [done|]. intros (x & Hx%word_range & _)%testset_word. lia.
Qed.

Definition test_patched (c : list Z) (p reg : Z) : list Z :=
  if testset c p then match word c (p - 1) with Some i => <[Z.to_nat (p - 1) := test_with reg i]> c | None => c end else c.

Lemma patchtestreg_spec fs p reg : jump_ok (code fs) p -> patchtestreg fs p reg = LOk (testset (code fs) p, set_code fs (test_patched (code fs) p reg)).
Proof.
  intros Hok. destruct (control_testset fs p Hok) as (q & i & Hq & Hi & Hw & Hts & Hts'). rw /patchtestreg Hq LOk_bind Hi LOk_bind. rw /test_patched. case_decide as Ho.
  - destruct (testset (code fs) p) eqn:E; [by destruct Ho; apply Hts'|]. by destruct fs.
  - assert (GET_OPCODE i = OP_TESTSET) as Ho2 by lia. destruct (Hts Ho2) as [-> E]. rw E Hw /test_with. by case_decide; rw (code_put_word _ _ _ _ Hw) LOk_bind.
Qed.

Lemma test_patched_length c p reg : length (test_patched c p reg) = length c.
Proof. rw /test_patched. destruct (testset c p); [|done]. destruct (word c (p - 1)); [apply length_insert|done]. Qed.

Lemma test_patched_word c p reg q : ~ (testset c p = true /\ q = p - 1) -> word (test_patched c p reg) q = word c q.
Proof.
  intros Hn. rw /test_patched. destruct (testset c p) eqn:E; [|done]. destruct (word c (p - 1)) as [i|] eqn:Hi; [|done]. rw (word_insert _ _ _ _ _ Hi). case_decide; [|done]. by destruct Hn.
Qed.

Lemma test_patched_test c p reg i : testset c p = true -> word c (p - 1) = Some i -> word (test_patched c p reg) (p - 1) = Some (test_with reg i).
Proof. intros E Hi. rw /test_patched E Hi (word_insert _ _ _ _ _ Hi) decide_True //. Qed.

(** An error of the parser is a message. *)
Lemma syntaxerror_is {A} (l : @LexState number) msg : exists m, @luaX_syntaxerror number A l msg = LError m.
Proof. pose proof (@lexerror_safe number A l msg (token (t l)) (fun _ => False)) as Hs. rw /luaX_syntaxerror. destruct (luaX_lexerror _ _ _) as [| m|]; [done|by exists m|done]. Qed.

Definition too_far (p dest : Z) : Prop := Z.abs (dest - (p + 1)) > MAXARG_sBx.

Lemma fixjump_spec fs p i dest : word (code fs) p = Some i -> dest <> NO_JUMP ->
  match fixjump fs p dest with
  | LOk fs' => ~ too_far p dest /\ fs' = set_code fs (<[Z.to_nat p := SETARG_sBx i (dest - (p + 1))]> (code fs))
  | LError _ => too_far p dest
  | LFault _ => False
  end.
Proof.
  intros Hi Hd. rw /fixjump (code_get_word _ _ _ Hi) LOk_bind bool_decide_true // LOk_bind. case_decide; [by destruct (syntaxerror_is (A := FuncState) (ls fs) "control structure too long") as [m ->]|]. by rw (code_put_word _ _ _ _ Hi).
Qed.

(** ** Patching *)

(** Jumps that OP_TESTSET controls go to [v], the others to [d]. *)
Definition target_of (c : list Z) (v d p : Z) : Z := if testset c p then v else d.

Record patched (c c' : list Z) (ps : list Z) (v reg d : Z) : Prop := {
  pt_length : length c' = length c;
  pt_jump p : p ∈ ps -> exists i, word c p = Some i /\ word c' p = Some (SETARG_sBx i (target_of c v d p - (p + 1)));
  pt_test p i : p ∈ ps -> testset c p = true -> word c (p - 1) = Some i -> word c' (p - 1) = Some (test_with reg i);
  pt_other q : q ∉ ps -> (forall p, p ∈ ps -> testset c p = true -> q <> p - 1) -> word c' q = word c q
}.

(** A jump does not control another one. *)
Lemma jump_not_test c p q : jump_ok c p -> testset c q = true -> p <> q - 1.
Proof. intros [(i & Hi & _ & Hj) _] (x & Hx & Ho)%testset_word ->. destruct (jump_op_cases i Hj) as [_ Hno]. congruence. Qed.

(** The other jumps are as they were. *)
Lemma patch_keeps c c' p i off : word c p = Some i -> is_u32 i -> Z.abs off <= MAXARG_sBx -> length c' = length c -> word c' p = Some (SETARG_sBx i off) ->
  (forall q, q <> p -> ~ (testset c p = true /\ q = p - 1) -> word c' q = word c q) ->
  forall q, q <> p -> jump_ok c q -> jump_ok c p -> word c' q = word c q /\ jump_ok c' q /\ testset c' q = testset c q.
Proof.
  intros Hi Hu Hoff Hlen Hp Hother q Hne Hq Hjp. destruct (setarg_sbx i off Hu Hoff) as (_ & Hop & Hu').
  assert (word c' q = word c q) as Hwq by (apply Hother; [done|intros [Ht ->]; by apply (jump_not_test c (p - 1) p)]).
  assert (q - 1 <> p -> word c' (q - 1) = word c (q - 1)) as Hwq1 by (intros ?; apply Hother; [done|lia]).
  split; [done|]. destruct Hq as [Hqj Hqb]. split.
  - split; [by rw Hwq|]. intros Hge. destruct (Hqb Hge) as (x & Hx & Hux & Ho). destruct (decide (q - 1 = p)) as [E|]; [|exists x; by rw Hwq1].
    rw E in Hx |- *. exists (SETARG_sBx i off). split; [done|]. split; [done|]. rw Hop. congruence.
  - rw /testset. destruct (decide (q - 1 = p)) as [E|]; [|by rw Hwq1]. by rw E Hp Hi Hop.
Qed.

Lemma jumps_same c c' l ps : (forall p, p ∈ ps -> word c' p = word c p) -> jumps c l ps -> jumps c' l ps.
Proof. intros Hw Hj. induction Hj as [|p i ps Hi _ IH]; [constructor|]. apply (jumps_cons _ _ i); [rw Hw //; apply list_elem_of_here|]. apply IH. intros q Hq. apply Hw. by apply list_elem_of_further. Qed.

Lemma jumps_head c l ps : jumps c l ps -> l = NO_JUMP /\ ps = [] \/ 0 <= l /\ exists i rest, ps = l :: rest /\ word c l = Some i /\ jumps c (link l i) rest.
Proof. intros [|p i rest Hi Hr]; [by left|]. right. split; [by apply word_range in Hi as [? _]|]. by exists i, rest. Qed.

(** A step of the loop: the code after it. *)
Definition patch_step (c : list Z) (p i v reg d : Z) : list Z := <[Z.to_nat p := SETARG_sBx i (target_of c v d p - (p + 1))]> (test_patched c p reg).

Section patch_step.
Context (c : list Z) (p i v reg d : Z) (Hi : word c p = Some i) (Hok : jump_ok c p) (Hnear : ~ too_far p (target_of c v d p)).

Lemma step_offset : is_u32 i /\ Z.abs (target_of c v d p - (p + 1)) <= MAXARG_sBx.
Proof using Hi Hok Hnear. pose proof Hnear as Hn. rw /too_far in Hn. destruct Hok as [(x & Hx & Hu & _) _]. split; [congruence|lia]. Qed.

Lemma step_before : word (test_patched c p reg) p = Some i.
Proof using Hi. rw test_patched_word //. lia. Qed.

Lemma step_length : length (patch_step c p i v reg d) = length c.
Proof using. by rw /patch_step length_insert test_patched_length. Qed.

Lemma step_word q : word (patch_step c p i v reg d) q = if decide (q = p) then Some (SETARG_sBx i (target_of c v d p - (p + 1))) else word (test_patched c p reg) q.
Proof using Hi. by rw /patch_step (word_insert _ _ _ _ _ step_before). Qed.

Lemma step_other q : q <> p -> ~ (testset c p = true /\ q = p - 1) -> word (patch_step c p i v reg d) q = word c q.
Proof using Hi. intros Hne Hnt. by rw step_word decide_False // test_patched_word. Qed.

Lemma step_keeps q : q <> p -> jump_ok c q -> word (patch_step c p i v reg d) q = word c q /\ jump_ok (patch_step c p i v reg d) q /\ testset (patch_step c p i v reg d) q = testset c q.
Proof using Hi Hok Hnear.
  intros Hne Hq. destruct step_offset as [Hu Ho]. apply (patch_keeps c _ p i _ Hi Hu Ho step_length); [by rw step_word decide_True|exact step_other|done|done|done].
Qed.

(** The step and the rest of the list. *)
Lemma patched_cons c' ps : p ∉ ps -> Forall (jump_ok c) ps -> patched (patch_step c p i v reg d) c' ps v reg d -> patched c c' (p :: ps) v reg d.
Proof using Hi Hok Hnear.
  intros Hnin HF [Hlen Hj Ht Ho]. set (c2 := patch_step c p i v reg d) in *. assert (forall q, q ∈ ps -> q <> p /\ jump_ok c q) as Hps by (intros q Hq; split; [set_solver|by apply (proj1 (Forall_forall _ _) HF)]).
  assert (forall q, q ∈ ps -> testset c2 q = testset c q) as Hts by (intros q Hq; destruct (Hps q Hq); by apply step_keeps).
  split.
  - by rw Hlen step_length.
  - intros q [->|Hq]%elem_of_cons.
    + exists i. split; [done|]. rw Ho //; [|by rw step_word decide_True]. intros q Hq. rw Hts //. by apply jump_not_test.
    + destruct (Hps q Hq) as [Hne Hjq]. destruct (Hj q Hq) as (x & Hx & Hx'). destruct (step_keeps q Hne Hjq) as (Hw & _ & Ht'). exists x. rw -Hw. split; [done|]. by rw Hx' /target_of Ht'.
  - intros q x [->|Hq]%elem_of_cons Htq Hx.
    + rw Ho; [intros Hin; destruct (Hps _ Hin) as [_ Hjq]; by apply (jump_not_test c (p - 1) p)|intros q Hq _ E; destruct (Hps q Hq); lia|]. rw step_word decide_False; [lia|]. by apply test_patched_test.
    + destruct (Hps q Hq) as [Hne Hjq]. apply Ht; [done|by rw Hts|]. rw step_other //; [|lia]. intros E. apply (jump_not_test c p q Hok Htq). done.
  - intros q Hq Hnt. apply not_elem_of_cons in Hq as [Hne Hq]. rw Ho //; [|apply step_other; [done|]; intros [E1 E2]; apply (Hnt p); [apply list_elem_of_here|done|done]].
    intros q' Hq'. rw Hts //. intros Htq. apply Hnt; [by apply list_elem_of_further|done].
Qed.
End patch_step.

Lemma patched_nil c v reg d : patched c c [] v reg d.
Proof. split; [done|by intros p []%elem_of_nil|by intros p i []%elem_of_nil|done]. Qed.

Lemma patchlistaux_loop_spec fuel fs l ps v reg d : jump_list (code fs) l ps -> (length ps < fuel)%nat -> (forall p, p ∈ ps -> target_of (code fs) v d p <> NO_JUMP) ->
  match patchlistaux_loop fuel fs l v reg d with
  | LOk fs' => (forall p, p ∈ ps -> ~ too_far p (target_of (code fs) v d p)) /\ fs' = set_code fs (code fs') /\ patched (code fs) (code fs') ps v reg d
  | LError _ => exists p, p ∈ ps /\ too_far p (target_of (code fs) v d p)
  | LFault _ => False
  end.
Proof.
  revert fs l ps. induction fuel as [|fuel IH]; intros fs l ps (Hj & Hnd & HF) Hlen Hdest; [lia|]. cbn [patchlistaux_loop]. destruct (jumps_head _ _ _ Hj) as [[-> ->]|[Hge (i & rest & -> & Hi & Hr)]].
  { destruct (decide (NO_JUMP = NO_JUMP)); [|done]. split; [by intros p []%elem_of_nil|]. split; [by destruct fs|apply patched_nil]. }
  destruct (decide (l = NO_JUMP)) as [E|_]; [rw /NO_JUMP in E; lia|]. apply Forall_cons in HF as [Hok HF]. apply NoDup_cons in Hnd as [Hnin Hnd]. rw (getjump_link _ _ _ Hi) LOk_bind (patchtestreg_spec _ _ _ Hok) LOk_bind.
  fold (target_of (code fs) v d l). set (fs1 := set_code fs (test_patched (code fs) l reg)). pose proof (Hdest l (list_elem_of_here _ _)) as Hd.
  pose proof (fixjump_spec fs1 l i (target_of (code fs) v d l) (step_before _ _ _ reg Hi) Hd) as Hfix. destruct (fixjump fs1 l (target_of (code fs) v d l)) as [fs2| |]; [|exists l; split; [apply list_elem_of_here|done]|done].
  destruct Hfix as [Hnear ->]. rw LOk_bind. set (fs2 := set_code fs1 _). assert (code fs2 = patch_step (code fs) l i v reg d) as Hc by done.
  assert (forall q, q ∈ rest -> q <> l /\ jump_ok (code fs) q) as Hps by (intros q Hq; split; [set_solver|by apply (proj1 (Forall_forall _ _) HF)]).
  assert (forall q, q ∈ rest -> word (code fs2) q = word (code fs) q /\ jump_ok (code fs2) q /\ testset (code fs2) q = testset (code fs) q) as Hk by (intros q Hq; destruct (Hps q Hq); rw Hc; by apply step_keeps).
  assert (forall q, q ∈ rest -> target_of (code fs2) v d q = target_of (code fs) v d q) as Htg by (intros q Hq; rw /target_of; by destruct (Hk q Hq) as (_ & _ & ->)).
  assert (jump_list (code fs2) (link l i) rest) as HJ2.
  { split; [|split; [done|]]. - apply (jumps_same (code fs)); [|done]. intros q Hq. by apply Hk. - apply Forall_forall. intros q Hq. by apply Hk. }
  specialize (IH fs2 (link l i) rest HJ2 ltac:(simpl in Hlen; lia)). destruct (patchlistaux_loop fuel fs2 (link l i) v reg d) as [fs'| |].
  - destruct IH as (Hn & Hfs & HP); [intros q Hq; rw Htg //; apply Hdest; by apply list_elem_of_further|]. split; [intros q [->|Hq]%elem_of_cons; [done|]; rw -Htg //; by apply Hn|]. split; [by rw Hfs|].
    rw Hc in HP. by apply (patched_cons (code fs) l i).
  - destruct IH as (q & Hq & Hfar); [intros q Hq; rw Htg //; apply Hdest; by apply list_elem_of_further|]. exists q. rw -Htg //. split; [by apply list_elem_of_further|done].
  - apply IH. intros q Hq. rw Htg //. apply Hdest. by apply list_elem_of_further.
Qed.

(** *** Lists *)

Lemma jump_list_length c l ps : jump_list c l ps -> (length ps <= length c)%nat.
Proof.
  intros (_ & Hnd & HF). assert (forall p, p ∈ ps -> 0 <= p < length c) as Hr by (intros p Hp; destruct (proj1 (Forall_forall _ _) HF p Hp) as [(i & Hi & _) _]; by eapply word_range).
  assert (length (Z.to_nat <$> ps) <= length (seq 0 (length c)))%nat as Hle; [|by rw length_fmap length_seq in Hle]. apply submseteq_length, NoDup_submseteq.
  - apply NoDup_fmap_2_strong; [|done]. intros x y Hx%Hr Hy%Hr. lia.
  - intros n (p & -> & Hp%Hr)%list_elem_of_fmap. apply elem_of_seq. lia.
Qed.

Lemma patchlistaux_spec fs l ps v reg d : jump_list (code fs) l ps -> (forall p, p ∈ ps -> target_of (code fs) v d p <> NO_JUMP) ->
  match patchlistaux fs l v reg d with
  | LOk fs' => (forall p, p ∈ ps -> ~ too_far p (target_of (code fs) v d p)) /\ fs' = set_code fs (code fs') /\ patched (code fs) (code fs') ps v reg d
  | LError _ => exists p, p ∈ ps /\ too_far p (target_of (code fs) v d p)
  | LFault _ => False
  end.
Proof. intros HJ Hd. apply patchlistaux_loop_spec; [done| |done]. pose proof (jump_list_length _ _ _ HJ). lia. Qed.

Lemma last_shift (q p : Z) ps : List.last (q :: ps) p = List.last ps q.
Proof. revert q p. induction ps as [|r ps IH]; intros q p; [done|]. change (List.last (r :: ps) p = List.last (r :: ps) q). by rw !IH. Qed.

Lemma concat_last_spec fuel fs p ps i : word (code fs) p = Some i -> jumps (code fs) (link p i) ps -> (length ps < fuel)%nat -> concat_last fuel fs p = LOk (List.last ps p).
Proof.
  revert p ps i. induction fuel as [|fuel IH]; intros p ps i Hi Hj Hlen; [lia|]. cbn [concat_last]. rw (getjump_link _ _ _ Hi) LOk_bind.
  destruct (jumps_head _ _ _ Hj) as [[-> ->]|[Hge (x & rest & -> & Hx & Hr)]]; [by destruct (decide _)|]. destruct (decide _) as [_|E]; [|rw /NO_JUMP in E; lia].
  rw (IH _ _ _ Hx Hr); [simpl in Hlen; lia|]. by rw last_shift.
Qed.

Lemma last_cons_elem (p : Z) ps : List.last ps p ∈ p :: ps.
Proof. revert p. induction ps as [|q ps IH]; intros p; [apply list_elem_of_here|]. rw last_shift. apply list_elem_of_further, IH. Qed.

Lemma jumps_inv c l p ps : jumps c l (p :: ps) -> l = p /\ exists i, word c p = Some i /\ jumps c (link p i) ps.
Proof. inversion 1; subst. eauto. Qed.

(** The link of the last jump is changed. *)
Lemma jumps_app c c' l p ps m qs i : jumps c l (p :: ps) -> NoDup (p :: ps) -> jumps c' m qs -> word c' (List.last ps p) = Some i -> link (List.last ps p) i = m ->
  (forall q, q <> List.last ps p -> word c' q = word c q) -> jumps c' l (p :: ps ++ qs).
Proof.
  revert l p. induction ps as [|r ps IH]; intros l p Hj Hnd Hq Hi Hl Hsame; apply jumps_inv in Hj as [-> (x & Hx & Hr)].
  - apply (jumps_cons _ _ i); [done|]. simpl in Hl. by rw Hl.
  - rw last_shift in Hi. rw last_shift in Hl. rw last_shift in Hsame. apply NoDup_cons in Hnd as [Hnin Hnd]. apply (jumps_cons _ _ x); [|by apply IH]. rw Hsame //. intros E. apply Hnin. rw E. apply last_cons_elem.
Qed.

(** A new offset keeps jumps jumps. *)
Lemma relink_ok c q i off : word c q = Some i -> is_u32 i -> jump_op i = true -> Z.abs off <= MAXARG_sBx ->
  let c' := <[Z.to_nat q := SETARG_sBx i off]> c in forall p, (jump_ok c p -> jump_ok c' p) /\ testset c' p = testset c p.
Proof.
  intros Hi Hu Hj Hoff c' p. destruct (setarg_sbx i off Hu Hoff) as (_ & Hop & Hu').
  assert (forall r x, word c r = Some x -> exists x', word c' r = Some x' /\ (is_u32 x -> is_u32 x') /\ GET_OPCODE x' = GET_OPCODE x) as Hw.
  { intros r x Hx. rw /c' (word_insert _ _ _ _ _ Hi). case_decide as E; [|by exists x]. subst r. exists (SETARG_sBx i off). split; [done|]. split; [done|]. congruence. }
  split.
  - intros [(x & Hx & Hux & Hjx) Hb]. split.
    + destruct (Hw _ _ Hx) as (x' & Hx' & Hu2 & Ho). exists x'. split; [done|]. split; [auto|]. by rw /jump_op Ho.
    + intros (y & Hy & Huy & Hoy)%Hb. destruct (Hw _ _ Hy) as (y' & Hy' & Hu2 & Ho). exists y'. split; [done|]. split; [auto|]. by rw Ho.
  - rw /testset. destruct (word c (p - 1)) as [y|] eqn:Hy; [destruct (Hw _ _ Hy) as (y' & -> & _ & ->); done|]. rw /c' (word_insert _ _ _ _ _ Hi). case_decide as E; [congruence|]. by rw Hy.
Qed.

(** What concatenation does to a state: the list, and the code but for links. *)
Record concatenated fs fs' (l : Z) (ps qs : list Z) : Prop := {
  cc_list : jump_list (code fs') l (ps ++ qs);
  cc_state : fs' = set_code fs (code fs');
  cc_length : length (code fs') = length (code fs);
  cc_other p : p ∉ ps -> word (code fs') p = word (code fs) p;
  cc_jump p i : word (code fs) p = Some i -> exists i', word (code fs') p = Some i' /\ GET_OPCODE i' = GET_OPCODE i;
  cc_testset p : testset (code fs') p = testset (code fs) p;
  cc_ok p : jump_ok (code fs) p -> jump_ok (code fs') p
}.

Lemma concatenated_same fs l ps qs : jump_list (code fs) l (ps ++ qs) -> concatenated fs fs l ps qs.
Proof. intros HJ. split; try done; [by destruct fs|]. intros p i Hi. by exists i. Qed.

Lemma concat_spec fs l1 ps l2 qs : jump_list (code fs) l1 ps -> jump_list (code fs) l2 qs -> (forall p, p ∈ ps -> p ∉ qs) ->
  match luaK_concat fs l1 l2 with
  | LOk (l, fs') => concatenated fs fs' l ps qs
  | LError _ => exists p, p ∈ ps /\ too_far p l2
  | LFault _ => False
  end.
Proof.
  intros HJ1 HJ2 Hdis. pose proof (jump_list_length _ _ _ HJ1) as Hlen. pose proof HJ1 as (Hj1 & Hnd1 & HF1). pose proof HJ2 as (Hj2 & Hnd2 & HF2). rw /luaK_concat.
  destruct (jumps_head _ _ _ Hj2) as [[-> ->]|[Hge2 (i2 & r2 & Eq2 & Hi2 & Hr2)]]; [destruct (decide _); [|done]; apply concatenated_same; by rw app_nil_r|].
  destruct (decide _) as [E|_]; [rw /NO_JUMP in E; lia|]. destruct (jumps_head _ _ _ Hj1) as [[-> ->]|[Hge1 (i1 & r1 & -> & Hi1 & Hr1)]]; [destruct (decide _); [|done]; by apply concatenated_same|].
  destruct (decide _) as [E|_]; [rw /NO_JUMP in E; lia|]. rw (concat_last_spec _ _ _ r1 i1) //; [simpl in Hlen; lia|]. rw LOk_bind. set (q := List.last r1 l1).
  assert (q ∈ l1 :: r1) as Hq by apply last_cons_elem. destruct (proj1 (Forall_forall _ _) HF1 q Hq) as [(i & Hi & Hu & Hjo) _].
  pose proof (fixjump_spec fs q i l2 Hi ltac:(rw /NO_JUMP; lia)) as Hfix. destruct (fixjump fs q l2) as [fs'| |]; [|by exists q|done]. destruct Hfix as [Hnear ->]. rw LOk_bind.
  assert (Z.abs (l2 - (q + 1)) <= MAXARG_sBx) as Hoff by (rw /too_far in Hnear; lia). destruct (setarg_sbx i _ Hu Hoff) as (Hget & Hop & Hu'). pose proof (relink_ok _ _ _ _ Hi Hu Hjo Hoff) as Hre. cbv zeta in Hre.
  set (c' := <[Z.to_nat q := SETARG_sBx i (l2 - (q + 1))]> (code fs)) in *. assert (forall p, word c' p = if decide (p = q) then Some (SETARG_sBx i (l2 - (q + 1))) else word (code fs) p) as Hw by (intros p; by rw /c' (word_insert _ _ _ _ _ Hi)).
  assert (forall p, p <> q -> word c' p = word (code fs) p) as Hwo by (intros p Hne; by rw Hw decide_False).
  assert (forall p, p ∈ qs -> p <> q) as Hqq by (intros p Hp ->; by apply (Hdis q)). assert (l2 <> q) as Hl2 by (apply Hqq; rw Eq2; apply list_elem_of_here).
  split; simpl; try done.
  - split; [|split].
    + change ((l1 :: r1) ++ qs) with (l1 :: r1 ++ qs). apply (jumps_app (code fs) _ _ _ _ l2 _ (SETARG_sBx i (l2 - (q + 1)))); try done.
      * apply (jumps_same (code fs)); [|done]. intros p Hp. by apply Hwo, Hqq.
      * by rw Hw decide_True.
      * fold q. rw /link Hget. destruct (decide _) as [E|_]; [rw /NO_JUMP in E; lia|lia].
    + by apply (proj2 (NoDup_app (l1 :: r1) qs)).
    + apply (proj2 (Forall_app _ (l1 :: r1) qs)). split; (eapply Forall_impl; [done|]); intros p; apply Hre.
  - by rw length_insert.
  - intros p Hp. apply Hwo. by intros ->.
  - intros p x Hx. rw Hw. case_decide as E; [|by exists x]. eexists. split; [done|]. congruence.
  - intros p. apply Hre.
  - intros p. apply Hre.
Qed.

(** ** Instructions *)

Lemma pc_not_no_jump fs : pc fs <> NO_JUMP.
Proof. rw /pc /NO_JUMP. lia. Qed.
Lemma target_both c d p : target_of c d d p = d.
Proof. rw /target_of. by destruct (testset c p). Qed.

Lemma dischargejpc_spec fs js : jump_list (code fs) (jpc fs) js ->
  match dischargejpc fs with
  | LOk fs' => (forall p, p ∈ js -> ~ too_far p (pc fs)) /\ fs' = set_jpc (set_code fs (code fs')) NO_JUMP /\ patched (code fs) (code fs') js (pc fs) NO_REG (pc fs)
  | LError _ => exists p, p ∈ js /\ too_far p (pc fs)
  | LFault _ => False
  end.
Proof.
  intros HJ. pose proof (patchlistaux_spec fs (jpc fs) js (pc fs) NO_REG (pc fs) HJ) as Hp. rw /dischargejpc. destruct (patchlistaux fs (jpc fs) (pc fs) NO_REG (pc fs)) as [fs'| |].
  - destruct Hp as (Hn & Hfs & HP); [intros; rw target_both; apply pc_not_no_jump|]. rw LOk_bind. split; [intros p Hin; rw -(target_both (code fs) (pc fs) p); by apply Hn|]. split; [by rw {1}Hfs|done].
  - destruct Hp as (p & ? & Hf); [intros; rw target_both; apply pc_not_no_jump|]. exists p. by rw target_both in Hf.
  - apply Hp. intros. rw target_both. apply pc_not_no_jump.
Qed.

Lemma growvector_spec n size limit msg : match luaM_growvector n size limit msg with LOk _ => True | LError _ => limit <= size | LFault _ => False end.
Proof. rw /luaM_growvector /luaM_growaux_. do 3 (case_decide; try done). lia. Qed.

Definition vector_full fs : Prop := MAX_INT <= sizecode fs \/ MAX_INT <= sizelineinfo fs.

(** The waiting jumps go to the new instruction. *)
Lemma luaK_code_spec fs js i line : jump_list (code fs) (jpc fs) js ->
  match luaK_code fs i line with
  | LOk (p, fs') => p = pc fs /\ jpc fs' = NO_JUMP /\ (forall p, p ∈ js -> ~ too_far p (pc fs)) /\
      exists c, patched (code fs) c js (pc fs) NO_REG (pc fs) /\ code fs' = c ++ [i] /\ lasttarget fs' = lasttarget fs
  | LError _ => (exists p, p ∈ js /\ too_far p (pc fs)) \/ vector_full fs
  | LFault _ => False
  end.
Proof.
  intros HJ. pose proof (dischargejpc_spec fs js HJ) as Hd. rw /luaK_code. destruct (dischargejpc fs) as [fs1| |]; [|by left|done]. destruct Hd as (Hn & Hfs1 & HP). rw LOk_bind.
  assert (sizecode fs1 = sizecode fs /\ sizelineinfo fs1 = sizelineinfo fs /\ lasttarget fs1 = lasttarget fs /\ jpc fs1 = NO_JUMP) as (E1 & E2 & E3 & E4) by (by rw Hfs1).
  pose proof (growvector_spec (pc fs1) (sizecode fs1) MAX_INT "code size overflow") as G1. destruct (luaM_growvector (pc fs1) (sizecode fs1) MAX_INT "code size overflow") as [sc| |]; [|right; left; congruence|done]. rw LOk_bind.
  pose proof (growvector_spec (pc fs1) (sizelineinfo fs1) MAX_INT "code size overflow") as G2. destruct (luaM_growvector (pc fs1) (sizelineinfo fs1) MAX_INT "code size overflow") as [sl| |]; [|right; right; congruence|done]. rw LOk_bind.
  split; [by rw /pc (pt_length _ _ _ _ _ _ HP)|]. split; [done|]. split; [done|]. by exists (code fs1).
Qed.

Lemma patchtohere_spec fs l js ps : jump_list (code fs) (jpc fs) js -> jump_list (code fs) l ps -> (forall p, p ∈ js -> p ∉ ps) ->
  match luaK_patchtohere fs l with
  | LOk fs' => concatenated (set_lasttarget fs (pc fs)) (set_jpc fs' (jpc fs)) (jpc fs') js ps
  | LError _ => exists p, p ∈ js /\ too_far p l
  | LFault _ => False
  end.
Proof.
  intros HJ1 HJ2 Hdis. rw /luaK_patchtohere /luaK_getlabel. pose proof (concat_spec (set_lasttarget fs (pc fs)) (jpc fs) js l ps HJ1 HJ2 Hdis) as Hc. cbv beta iota. change (jpc (set_lasttarget fs (pc fs))) with (jpc fs).
  destruct (luaK_concat (set_lasttarget fs (pc fs)) (jpc fs) l) as [[j fs']| |]; [|done|done]. rw LOk_bind. destruct Hc as [C1 C2 C3 C4 C5 C6 C7]. split; try done. simpl. rw C2. done.
Qed.

(** Where the jump at [q] goes, and what its test has become. *)
Definition goes_to (c' : list Z) (q p : Z) : Prop := exists i, word c' q = Some i /\ jump_dest q i = p.

Lemma patched_goes c c' ps v reg d q : patched c c' ps v reg d -> Forall (jump_ok c) ps -> (forall p, p ∈ ps -> ~ too_far p (target_of c v d p)) -> q ∈ ps -> goes_to c' q (target_of c v d q).
Proof.
  intros HP HF Hn Hq. destruct (pt_jump _ _ _ _ _ _ HP q Hq) as (i & Hi & Hi'). destruct (proj1 (Forall_forall _ _) HF q Hq) as [(x & Hx & Hu & _) _]. specialize (Hn q Hq). rw /too_far in Hn.
  eexists. split; [exact Hi'|]. rw /jump_dest. destruct (setarg_sbx i (target_of c v d q - (q + 1))) as (-> & _); [congruence|lia|lia].
Qed.

(** *** What stays *)

(** Another list of jumps is as it was. *)
Definition keeps_list (c c' : list Z) (qs : list Z) : Prop := forall q, q ∈ qs -> word c' q = word c q /\ jump_ok c' q /\ testset c' q = testset c q.

Lemma keeps_list_jumps c c' l qs : keeps_list c c' qs -> jump_list c l qs -> jump_list c' l qs.
Proof.
  intros HK (Hj & Hnd & HF). split; [apply (jumps_same c); [intros p Hp; by destruct (HK p Hp)|done]|]. split; [done|]. apply Forall_forall. intros q Hq. destruct (HK q Hq) as (_ & ? & _). done.
Qed.

Lemma keeps_list_trans c1 c2 c3 qs : keeps_list c1 c2 qs -> keeps_list c2 c3 qs -> keeps_list c1 c3 qs.
Proof. intros H1 H2 q Hq. destruct (H1 q Hq) as (E1 & _ & E2), (H2 q Hq) as (E3 & ? & E4). split; [congruence|]. split; [done|congruence]. Qed.

Lemma patched_keeps_list c c' ps qs v reg d : patched c c' ps v reg d -> Forall (jump_ok c) ps -> (forall p, p ∈ ps -> ~ too_far p (target_of c v d p)) ->
  Forall (jump_ok c) qs -> (forall p, p ∈ ps -> p ∉ qs) -> keeps_list c c' qs.
Proof.
  intros HP HF Hn HQ Hdis q Hq. pose proof (proj1 (Forall_forall _ _) HQ q Hq) as Hok. assert (q ∉ ps) as Hnq by (intros Hin; by apply (Hdis q)).
  assert (word c' q = word c q) as Hw by (apply (pt_other _ _ _ _ _ _ HP); [done|]; intros p Hp Ht; by apply (jump_not_test c)).
  assert (forall x, word c (q - 1) = Some x -> exists x', word c' (q - 1) = Some x' /\ (is_u32 x -> is_u32 x') /\ GET_OPCODE x' = GET_OPCODE x) as Hb.
  { intros x Hx. destruct (decide (q - 1 ∈ ps)) as [Hin|Hni].
    - destruct (pt_jump _ _ _ _ _ _ HP _ Hin) as (y & Hy & Hy'). destruct (proj1 (Forall_forall _ _) HF _ Hin) as [(z & Hz & Huz & _) _]. specialize (Hn _ Hin). rw /too_far in Hn.
      destruct (setarg_sbx y (target_of c v d (q - 1) - (q - 1 + 1))) as (_ & Ho & Hu); [congruence|lia|]. eexists. split; [exact Hy'|]. split; [done|]. congruence.
    - exists x. split; [|done]. rw (pt_other _ _ _ _ _ _ HP) //. intros p Hp _ E. assert (q = p) as -> by lia. done. }
  split; [done|]. destruct Hok as [Hqj Hqb]. split.
  - split; [by rw Hw|]. intros (x & Hx & Hu & Ho)%Hqb. destruct (Hb x Hx) as (x' & ? & ? & E). exists x'. rw E. auto.
  - rw /testset. destruct (word c (q - 1)) as [x|] eqn:Hx; [destruct (Hb x eq_refl) as (x' & -> & _ & ->); done|]. destruct (word c' (q - 1)) as [x'|] eqn:Hx'; [|done].
    exfalso. apply word_range in Hx'. rw (pt_length _ _ _ _ _ _ HP) in Hx'. rw /word decide_True in Hx; [lia|]. apply lookup_ge_None in Hx. lia.
Qed.

Lemma keeps_list_snoc c i qs : Forall (jump_ok c) qs -> keeps_list c (c ++ [i]) qs.
Proof.
  intros HF q Hq. pose proof (proj1 (Forall_forall _ _) HF q Hq) as [(x & Hx & Hux) Hb]. pose proof (word_range _ _ _ Hx) as Hr.
  assert (forall r, r < length c -> word (c ++ [i]) r = word c r) as Hw by (intros r Hr'; rw word_snoc decide_False //; lia).
  split; [apply Hw; lia|]. split; [split; [rw Hw; [lia|]; by exists x|rw Hw; [lia|]; done]|]. rw /testset Hw //. lia.
Qed.

(** *** New instructions *)

Definition plain_op (i : Z) : Prop := is_u32 i /\ GET_OPCODE i < NUM_OPCODES.
(** The last word of the code is an instruction. *)
Definition last_ok (c : list Z) : Prop := forall i, word c (length c - 1) = Some i -> plain_op i.

Lemma jump_list_nil c : jump_list c NO_JUMP [].
Proof. split; [constructor|]. split; [constructor|done]. Qed.

(** Without waiting jumps an instruction is added and nothing else changes. *)
Lemma luaK_code_plain fs i line : jpc fs = NO_JUMP ->
  match luaK_code fs i line with
  | LOk (p, fs') => p = pc fs /\ jpc fs' = NO_JUMP /\ code fs' = code fs ++ [i] /\ lasttarget fs' = lasttarget fs
  | LError _ => vector_full fs
  | LFault _ => False
  end.
Proof.
  intros Hj. pose proof (luaK_code_spec fs [] i line) as Hc. rw Hj in Hc. specialize (Hc (jump_list_nil _)). destruct (luaK_code fs i line) as [[p fs']| |]; [|destruct Hc as [(p & Hp%elem_of_nil & _)|?]; done|done].
  destruct Hc as (? & ? & _ & c & HP & Hcode & ?). split; [done|]. split; [done|]. split; [|done]. rw Hcode. f_equal. apply list_eq. intros n.
  assert (word c n = word (code fs) n) as E by (apply (pt_other _ _ _ _ _ _ HP); [by intros ?%elem_of_nil|by intros q ?%elem_of_nil]). rw /word in E. destruct (decide (0 <= Z.of_nat n)); [|lia]. by rw Nat2Z.id in E.
Qed.

Lemma jmp_word : let i := CREATE_ABx OP_JMP 0 (NO_JUMP + MAXARG_sBx) in is_u32 i /\ jump_op i = true /\ GETARG_sBx i = NO_JUMP.
Proof. split; [split; vm_compute; [discriminate|reflexivity]|]. by vm_compute. Qed.

Lemma new_jump_ok c i : last_ok c -> is_u32 i -> jump_op i = true -> jump_ok (c ++ [i]) (length c).
Proof.
  intros Hl Hu Hj. split; [exists i; rw word_snoc decide_True //|]. intros Hge. destruct (word c (length c - 1)) as [x|] eqn:Hx; [|rw /word decide_True in Hx; [lia|]; apply lookup_ge_None in Hx; lia].
  exists x. rw word_snoc decide_False; [lia|]. destruct (Hl x Hx). done.
Qed.

Lemma luaK_jump_spec fs js : jump_list (code fs) (jpc fs) js -> last_ok (code fs) ->
  match luaK_jump fs with
  | LOk (j, fs') => j = pc fs /\ jump_list (code fs') j (j :: js) /\ jpc fs' = NO_JUMP /\ pc fs' = pc fs + 1 /\ (forall q, q <> pc fs -> word (code fs') q = word (code fs) q) /\ last_ok (code fs')
  | LError _ => too_far (pc fs) (jpc fs) \/ vector_full fs
  | LFault _ => False
  end.
Proof.
  intros HJ Hl. rw /luaK_jump /luaK_codeAsBx /luaK_codeABx. set (w := CREATE_ABx OP_JMP 0 (NO_JUMP + MAXARG_sBx)). destruct jmp_word as (Hu & Hj & Hs). fold w in Hu, Hj, Hs. rw !LOk_bind.
  pose proof (luaK_code_plain (set_jpc fs NO_JUMP) w (lastline (ls (set_jpc fs NO_JUMP))) eq_refl) as Hc. destruct (luaK_code (set_jpc fs NO_JUMP) w _) as [[j fs1]| |]; [|by right|done].
  destruct Hc as (-> & Hj1 & Hcode & _). rw LOk_bind. simpl in Hcode. change (pc (set_jpc fs NO_JUMP)) with (pc fs). pose proof (new_jump_ok _ _ Hl Hu Hj) as Hnew. rw -Hcode in Hnew. change (length (code fs) : Z) with (pc fs) in Hnew.
  assert (forall q, q <> pc fs -> word (code fs1) q = word (code fs) q) as Hw by (intros q Hq; rw Hcode word_snoc decide_False //). assert (word (code fs1) (pc fs) = Some w) as Hwj by (rw Hcode word_snoc decide_True //).
  assert (jump_list (code fs1) (pc fs) [pc fs]) as HJ1.
  { split; [apply (jumps_cons _ _ w); [done|]; rw /link; destruct (decide _); [constructor|done]|]. split; [apply NoDup_singleton|]. by apply Forall_singleton. }
  pose proof (keeps_list_snoc (code fs) w js (proj2 (proj2 HJ))) as Hk. rw -Hcode in Hk. pose proof (keeps_list_jumps _ _ _ _ Hk HJ) as HJ2.
  assert (forall p, p ∈ [pc fs] -> p ∉ js) as Hdis. { intros p ->%list_elem_of_singleton Hin. destruct (proj1 (Forall_forall _ _) (proj2 (proj2 HJ)) _ Hin) as [(x & Hx%word_range & _) _]. rw /pc in Hx. lia. }
  pose proof (concat_spec fs1 (pc fs) [pc fs] (jpc fs) js HJ1 HJ2 Hdis) as Hcc. destruct (luaK_concat fs1 (pc fs) (jpc fs)) as [[l fs']| |]; [|left; destruct Hcc as (p & ->%list_elem_of_singleton & ?); done|done].
  destruct Hcc as [C1 C2 C3 C4 C5 C6 _]. assert (l = pc fs) as -> by (by destruct C1 as [(? & _)%jumps_inv _]). split; [done|]. split; [done|]. split; [by rw C2|]. split; [rw /pc C3 Hcode length_app /=; lia|]. split.
  - intros q Hq. rw C4; [by intros ->%list_elem_of_singleton|by apply Hw].
  - intros x Hx. assert (word (code fs') (pc fs) = Some x) as Hx' by (rw -Hx; f_equal; rw C3 Hcode length_app /= /pc; lia). destruct C1 as (_ & _ & [[(y & Hy & Huy & Hjy) _] _]%Forall_cons). rw Hy in Hx'. injection Hx' as <-. split; [done|]. rw /jump_op in Hjy. by apply andb_prop in Hjy as [?%bool_decide_eq_true_1 _].
Qed.

(** C30: A list of jumps that luaK_patchtohere() is given goes to the next instruction, with the jumps that waited
    already: whatever instruction luaK_code() writes, each of them leads to it, a test that would have stored a value
    stores none, and no other instruction changes. The only errors are a jump that is too long and a full vector. *)
Theorem jumps_to_here (fs : FuncState) (l : Z) (js ps : list Z) (i line : Z) :
  jump_list (code fs) (jpc fs) js -> jump_list (code fs) l ps -> (forall p, p ∈ js -> p ∉ ps) ->
  match fs1 ← luaK_patchtohere fs l; luaK_code fs1 i line with
  | LOk (p, fs') =>
      p = pc fs /\ pc fs' = pc fs + 1 /\ word (code fs') p = Some i /\ jpc fs' = NO_JUMP /\
      (forall q, q ∈ js ++ ps -> goes_to (code fs') q p) /\
      (forall q x, q ∈ js ++ ps -> testset (code fs) q = true -> word (code fs) (q - 1) = Some x -> word (code fs') (q - 1) = Some (CREATE_ABC OP_TEST (GETARG_B x) 0 (GETARG_C x))) /\
      (forall q, 0 <= q < pc fs -> q ∉ js ++ ps -> (forall r, r ∈ js ++ ps -> testset (code fs) r = true -> q <> r - 1) -> word (code fs') q = word (code fs) q)
  | LError _ => (exists q d, q ∈ js ++ ps /\ d ∈ [pc fs; l] /\ too_far q d) \/ vector_full fs
  | LFault _ => False
  end.
Proof.
  intros HJ1 HJ2 Hdis. pose proof (patchtohere_spec fs l js ps HJ1 HJ2 Hdis) as Hp. destruct (luaK_patchtohere fs l) as [fs1| |]; [|left; destruct Hp as (p & ? & ?); exists p, l; set_solver|done].
  rw LOk_bind. destruct Hp as [HL HS Hlen Hoth Hjmp Hts _]. simpl in HL, Hlen, Hoth, Hjmp, Hts. assert (pc fs1 = pc fs /\ sizecode fs1 = sizecode fs /\ sizelineinfo fs1 = sizelineinfo fs) as (Epc & Esc & Esl).
  { split; [by rw /pc Hlen|]. split; [by apply (f_equal sizecode) in HS|by apply (f_equal sizelineinfo) in HS]. }
  pose proof (luaK_code_spec fs1 (js ++ ps) i line HL) as Hc. destruct (luaK_code fs1 i line) as [[p fs']| |]; [|rw Epc in Hc; rw /vector_full Esc Esl in Hc; destruct Hc as [(q & ? & ?)|?]; [left; exists q, (pc fs); set_solver|by right]|done].
  destruct Hc as (-> & Hj & Hn & c & HP & Hcode & _). rw Epc in HP, Hn |- *. assert (length c = length (code fs)) as Hlc by (by rw (pt_length _ _ _ _ _ _ HP) Hlen).
  assert (forall q, q <> pc fs -> word (code fs') q = word c q) as Hw by (intros q Hq; rw Hcode word_snoc decide_False //; rw Hlc; done).
  assert (forall q, q ∈ js ++ ps -> jump_ok (code fs) q) as Hok by (intros q [Hq|Hq]%elem_of_app; [by apply (proj1 (Forall_forall _ _) (proj2 (proj2 HJ1)))|by apply (proj1 (Forall_forall _ _) (proj2 (proj2 HJ2)))]).
  assert (forall q, jump_ok (code fs) q -> 0 <= q < pc fs) as Hrange by (intros q [(x & Hx & _) _]; by eapply word_range).
  split; [done|]. split; [rw /pc Hcode length_app Hlc /=; lia|]. split; [rw Hcode word_snoc decide_True // Hlc //|]. split; [done|]. split; [|split].
  - intros q Hq. pose proof (Hrange q (Hok q Hq)) as Hr. destruct (patched_goes _ _ _ _ _ _ q HP (proj2 (proj2 HL))) as (x & Hx & Hd); [intros r Hr'; rw target_both; by apply Hn|done|]. rw target_both in Hd. exists x. split; [rw Hw //; lia|done].
  - intros q x Hq Ht Hx. pose proof (word_range _ _ _ Hx) as Hr. rw Hw; [rw /pc; lia|]. rw (pt_test _ _ _ _ _ _ HP q x Hq); [by rw Hts|rw Hoth //; intros Hin; apply (jump_not_test (code fs) (q - 1) q); [apply Hok; set_solver|done|done]|].
    rw /test_with. by destruct (decide _) as [[? _]|_].
  - intros q Hr Hq Hnt. rw Hw; [lia|]. rw (pt_other _ _ _ _ _ _ HP q Hq); [intros r Hr'; rw Hts; by apply Hnt|]. apply Hoth. set_solver.
Qed.
