(* ===== verification/LuaCond.v ===== *)
(** LuaCond: how the code generator, src/liblua/src/lcode.c, puts the value of a condition in a
    register (exp2reg()): every jump of the lists of the expression ends at the instruction
    behind it, with the value of its test, true or false in the register. *)

From Corelib Require Import ssreflect.
From stdpp Require Import base list numbers strings sets.
From Stdlib Require Import ZArith Lia.
From S2P Require Import Prelude LuaObject LuaZio LuaOpcodes LuaCheck LuaLex LuaNumber LuaTable LuaTabMap LuaCode LuaJump.

Implicit Type fs : FuncState.
Implicit Type e : expdesc.

Lemma need_value_loop_spec fuel fs l ps : jump_list (code fs) l ps -> (length ps < fuel)%nat -> need_value_loop fuel fs l = LOk (existsb (fun p => negb (testset (code fs) p)) ps).
Proof.
  revert l ps. induction fuel as [|fuel IH]; intros l ps (Hj & Hnd & HF) Hlen; [lia|]. cbn [need_value_loop]. destruct (jumps_head _ _ _ Hj) as [[-> ->]|[Hge (i & rest & -> & Hi & Hr)]]; [by destruct (decide _)|].
  destruct (decide _) as [E|_]; [rw /NO_JUMP in E; lia|]. apply Forall_cons in HF as [Hok HF]. apply NoDup_cons in Hnd as [_ Hnd]. destruct (control_testset fs l Hok) as (q & x & -> & Hx & _ & Hts & Hts'). rw LOk_bind Hx LOk_bind.
  cbn [existsb]. destruct (decide (GET_OPCODE x <> OP_TESTSET)) as [Ho|Ho].
  - destruct (testset (code fs) l); [by destruct Ho; apply Hts'|done].
  - assert (GET_OPCODE x = OP_TESTSET) as Ho' by lia. destruct (Hts Ho') as [_ ->]. rw (getjump_link _ _ _ Hi) LOk_bind. apply IH; [done|simpl in Hlen; lia].
Qed.

Lemma need_value_spec fs l ps : jump_list (code fs) l ps -> need_value fs l = LOk (existsb (fun p => negb (testset (code fs) p)) ps).
Proof. intros HJ. apply need_value_loop_spec; [done|]. pose proof (jump_list_length _ _ _ HJ). lia. Qed.

(** ** Both lists *)

(** A jump of the list goes to [v] with the value of its test in [reg], or to [d]. *)
Definition arrives (c c' : list Z) (v reg d q : Z) : Prop :=
  goes_to c' q (target_of c v d q) /\ (testset c q = true -> forall x, word c (q - 1) = Some x -> word c' (q - 1) = Some (test_with reg x)).

(** Positions that are not jumps of the lists, nor their tests. *)
Definition outside_of (c : list Z) (ps : list Z) (q : Z) : Prop := q ∉ ps /\ forall p, p ∈ ps -> testset c p = true -> q <> p - 1.

Lemma patched_arrives c c' ps v reg d q : patched c c' ps v reg d -> Forall (jump_ok c) ps -> (forall p, p ∈ ps -> ~ too_far p (target_of c v d p)) -> q ∈ ps -> arrives c c' v reg d q.
Proof. intros HP HF Hn Hq. split; [by eapply patched_goes|]. intros Ht x Hx. by eapply pt_test. Qed.

Lemma patch_both fs f fls t ts v reg df dt : jump_list (code fs) f fls -> jump_list (code fs) t ts -> (forall q, q ∈ fls -> q ∉ ts) ->
  (forall q, q ∈ fls -> target_of (code fs) v df q <> NO_JUMP) -> (forall q, q ∈ ts -> target_of (code fs) v dt q <> NO_JUMP) ->
  match fs ← patchlistaux fs f v reg df; patchlistaux fs t v reg dt with
  | LOk fs' => fs' = set_code fs (code fs') /\ length (code fs') = length (code fs) /\
      (forall q, q ∈ fls -> arrives (code fs) (code fs') v reg df q) /\ (forall q, q ∈ ts -> arrives (code fs) (code fs') v reg dt q) /\
      (forall q, outside_of (code fs) (fls ++ ts) q -> word (code fs') q = word (code fs) q) /\
      (forall qs, Forall (jump_ok (code fs)) qs -> (forall q, q ∈ qs -> q ∉ fls ++ ts) -> keeps_list (code fs) (code fs') qs)
  | LError _ => True
  | LFault _ => False
  end.
Proof.
  intros HF HT Hdis Hdf Hdt. pose proof (patchlistaux_spec fs f fls v reg df HF Hdf) as H1. destruct (patchlistaux fs f v reg df) as [fs1| |]; [|done|done]. destruct H1 as (Hn1 & E1 & HP1). rw LOk_bind.
  assert (keeps_list (code fs) (code fs1) ts) as Hk by (eapply patched_keeps_list; [exact HP1|apply HF|done|apply HT|done]).
  assert (forall q, q ∈ ts -> target_of (code fs1) v dt q = target_of (code fs) v dt q) as Htg by (intros q Hq; rw /target_of; by destruct (Hk q Hq) as (_ & _ & ->)).
  pose proof (keeps_list_jumps _ _ _ _ Hk HT) as HT1. pose proof (patchlistaux_spec fs1 t ts v reg dt HT1) as H2. destruct (patchlistaux fs1 t v reg dt) as [fs2| |].
  2: done. 2: { apply H2. intros q Hq. rw Htg //. by apply Hdt. }
  destruct H2 as (Hn2 & E2 & HP2); [intros q Hq; rw Htg //; by apply Hdt|].
  assert (forall q, q ∈ ts -> testset (code fs1) q = testset (code fs) q) as Hts by (intros q Hq; by destruct (Hk q Hq) as (_ & _ & ?)).
  assert (forall q, q ∈ fls -> word (code fs2) q = word (code fs1) q) as Hwf.
  { intros q Hq. apply (pt_other _ _ _ _ _ _ HP2); [by apply Hdis|]. intros p Hp. rw Hts //. apply jump_not_test. by apply (proj1 (Forall_forall _ _) (proj2 (proj2 HF))). }
  split; [by rw E2 {1}E1|]. split; [rw (pt_length _ _ _ _ _ _ HP2) (pt_length _ _ _ _ _ _ HP1) //|]. split; [|split; [|split]].
  - intros q Hq. destruct (patched_arrives _ _ _ _ _ _ q HP1 (proj2 (proj2 HF)) Hn1 Hq) as [(i & Hi & Hd) Ht]. split; [exists i; by rw Hwf|]. intros Htq x Hx. rw (pt_other _ _ _ _ _ _ HP2); [|intros p Hp _ E; by assert (q = p) as -> by lia; apply (Hdis p)|by apply Ht].
    intros Hin. apply (jump_not_test (code fs) (q - 1) q); [|done|done]. by apply (proj1 (Forall_forall _ _) (proj2 (proj2 HT))).
  - intros q Hq. destruct (patched_arrives _ _ _ _ _ _ q HP2 (proj2 (proj2 HT1)) Hn2 Hq) as [Hg Ht]. rw Htg // in Hg. split; [done|]. intros Htq x Hx. apply Ht; [by rw Hts|]. rw (pt_other _ _ _ _ _ _ HP1) //.
    + intros Hin. apply (jump_not_test (code fs) (q - 1) q); [|done|done]. by apply (proj1 (Forall_forall _ _) (proj2 (proj2 HF))).
    + intros p Hp _ E. assert (q = p) as -> by lia. by apply (Hdis p).
  - intros q [Hq Hnt]. rw (pt_other _ _ _ _ _ _ HP2); [set_solver|intros p Hp; rw Hts //; apply Hnt; set_solver|]. apply (pt_other _ _ _ _ _ _ HP1); [set_solver|]. intros p Hp. apply Hnt. set_solver.
  - intros qs HQ Hd. assert (keeps_list (code fs) (code fs1) qs) as K1 by (eapply patched_keeps_list; [exact HP1|apply HF|done|done|]; intros p Hp Hin; apply (Hd p Hin); set_solver).
    eapply keeps_list_trans; [exact K1|]. eapply patched_keeps_list; [exact HP2|apply HT1|done| |intros p Hp Hin; apply (Hd p Hin); set_solver]. apply Forall_forall. intros q Hq. by destruct (K1 q Hq) as (_ & ? & _).
Qed.

(** ** The labels *)

Definition LOADBOOL (reg b jump : Z) : Z := CREATE_ABC OP_LOADBOOL reg b jump.

(** Code that is added keeps the lists. *)
Lemma keeps_list_prefix c c' qs : (forall q, q < length c -> word c' q = word c q) -> Forall (jump_ok c) qs -> keeps_list c c' qs.
Proof.
  intros Hw HF q Hq. pose proof (proj1 (Forall_forall _ _) HF q Hq) as [(x & Hx & Hux) Hb]. pose proof (word_range _ _ _ Hx) as Hr.
  split; [apply Hw; lia|]. split; [split; [rw Hw; [lia|]; by exists x|rw Hw; [lia|]; done]|]. rw /testset Hw //. lia.
Qed.

Lemma code_label_spec fs reg b jump : jpc fs = NO_JUMP ->
  match code_label fs reg b jump with
  | LOk (p, fs') => p = pc fs /\ jpc fs' = NO_JUMP /\ code fs' = code fs ++ [LOADBOOL reg b jump]
  | LError _ => True
  | LFault _ => False
  end.
Proof.
  intros Hj. rw /code_label /luaK_getlabel /luaK_codeABC. cbv beta iota. 
  assert (forall P Q : Prop, P -> forall HD : Decision (P \/ Q), lua_assert (bool_decide (P \/ Q)) = LOk ()) as Hor by (intros P Q HP HD; rw bool_decide_true; [by left|done]).
  rw (Hor (getBMode OP_LOADBOOL <> OpArgN)); [by vm_compute|]. rw !LOk_bind.
  pose proof (luaK_code_plain (set_lasttarget fs (pc fs)) (LOADBOOL reg b jump) (lastline (ls (set_lasttarget fs (pc fs)))) Hj) as Hc. rw /LOADBOOL in Hc. destruct (luaK_code _ _ _) as [[p fs']| |]; [|done|done].
  destruct Hc as (-> & ? & ? & _). done.
Qed.

Section labels.
Context (fs : FuncState) (e : expdesc) (reg : Z) (js : list Z).

(** The jumps that wait for the end of the expression. *)
Definition waiting : list Z := if decide (e_k e = VJMP) then [] else pc fs :: js.

Lemma labels_spec : jump_list (code fs) (jpc fs) js -> last_ok (code fs) -> (e_k e = VJMP -> jpc fs = NO_JUMP) ->
  match '(fj, fs) ← (if decide (e_k e = VJMP) then LOk (NO_JUMP, fs) else luaK_jump fs);
        '(p_f, fs) ← code_label fs reg 0 1;
        '(p_t, fs) ← code_label fs reg 1 0;
        fs ← luaK_patchtohere fs fj;
        LOk (p_f, p_t, fs) with
  | LOk (p_f, p_t, fs') => p_f = pc fs' - 2 /\ p_t = pc fs' - 1 /\ pc fs + 2 <= pc fs' /\ word (code fs') p_f = Some (LOADBOOL reg 0 1) /\ word (code fs') p_t = Some (LOADBOOL reg 1 0) /\
      (forall q, q < length (code fs) -> word (code fs') q = word (code fs) q) /\ jump_list (code fs') (jpc fs') waiting
  | LError _ => True
  | LFault _ => False
  end.
Proof using.
  intros HJ Hl Hv. assert (match (if decide (e_k e = VJMP) then LOk (NO_JUMP, fs) else luaK_jump fs) with
    | LOk (fj, fs1) => jpc fs1 = NO_JUMP /\ jump_list (code fs1) fj waiting /\ (forall q, q < length (code fs) -> word (code fs1) q = word (code fs) q) /\ pc fs <= pc fs1
    | LError _ => True | LFault _ => False end) as H1.
  { rw /waiting. destruct (decide (e_k e = VJMP)) as [Ek|]; [split; [auto|]; split; [apply jump_list_nil|by split]|]. pose proof (luaK_jump_spec fs js HJ Hl) as Hjmp. destruct (luaK_jump fs) as [[j fs1]| |]; [|done|done].
    destruct Hjmp as (-> & ? & ? & Hpc & Hw & _). split; [done|]. split; [done|]. split; [intros q Hq; apply Hw; rw /pc; lia|lia]. }
  destruct (if decide (e_k e = VJMP) then LOk (NO_JUMP, fs) else luaK_jump fs) as [[fj fs1]| |]; [|done|done]. destruct H1 as (Hj1 & HL1 & Hw1 & Hpc1). rw LOk_bind.
  pose proof (code_label_spec fs1 reg 0 1 Hj1) as H2. destruct (code_label fs1 reg 0 1) as [[p_f fs2]| |]; [|done|done]. destruct H2 as (-> & Hj2 & E2). rw LOk_bind.
  pose proof (code_label_spec fs2 reg 1 0 Hj2) as H3. destruct (code_label fs2 reg 1 0) as [[p_t fs3]| |]; [|done|done]. destruct H3 as (-> & Hj3 & E3). rw LOk_bind.
  assert (jump_list (code fs3) fj waiting) as HL3. { rw E3 E2. eapply keeps_list_jumps; [apply keeps_list_snoc; rw -E2|rw -E2]; [|]. 2: { rw E2. eapply keeps_list_jumps; [apply keeps_list_snoc, HL1|exact HL1]. } rw E2. apply (keeps_list_jumps _ _ fj _ (keeps_list_snoc _ _ _ (proj2 (proj2 HL1))) HL1). }
  pose proof (patchtohere_spec fs3 fj [] waiting) as H4. rw Hj3 in H4. specialize (H4 (jump_list_nil _) HL3 ltac:(by intros p ?%elem_of_nil)). destruct (luaK_patchtohere fs3 fj) as [fs4| |]; [|done|done]. rw LOk_bind.
  destruct H4 as [C1 _ C3 C4 _ _ _]. simpl in C1, C3, C4. assert (forall q, word (code fs4) q = word (code fs3) q) as Hw4 by (intros q; apply C4; by intros ?%elem_of_nil).
  assert (pc fs4 = pc fs1 + 2) as Hpc4 by (rw /pc C3 E3 E2 !length_app /=; lia). assert (pc fs2 = pc fs1 + 1) as Hpc2 by (rw /pc E2 length_app /=; lia).
  split; [lia|]. split; [lia|]. split; [lia|]. split; [|split; [|split; [|done]]].
  - rw Hw4 E3 word_snoc decide_False; [change (length (code fs2) : Z) with (pc fs2); lia|]. rw E2 word_snoc decide_True //.
  - rw Hw4 E3 word_snoc decide_True //.
  - intros q Hq. rw /pc in Hpc1, Hpc2. rw Hw4 E3 word_snoc decide_False; [lia|]. rw E2 word_snoc decide_False; [lia|]. by apply Hw1.
Qed.
End labels.

(** ** The value *)

(** What exp2reg() has done with the jumps: [final] is the position behind the expression. *)
Record value_in (c c' : list Z) (ts fls : list Z) (reg final : Z) : Prop := {
  vi_true q : q ∈ ts -> arrives c c' final reg (final - 1) q;
  vi_false q : q ∈ fls -> arrives c c' final reg (final - 2) q;
  vi_loads q : q ∈ ts ++ fls -> testset c q = false -> word c' (final - 2) = Some (LOADBOOL reg 0 1) /\ word c' (final - 1) = Some (LOADBOOL reg 1 0)
}.

(** With a test the other target does not matter. *)
Lemma arrives_test c c' v reg d d' q : testset c q = true -> arrives c c' v reg d q -> arrives c c' v reg d' q.
Proof. intros Ht. by rw /arrives /target_of Ht. Qed.

Lemma keeps_arrives c c1 c' v reg d q : word c1 (q - 1) = word c (q - 1) \/ testset c q = false -> testset c1 q = testset c q -> arrives c1 c' v reg d q -> arrives c c' v reg d q.
Proof. intros Hw Ht [Hg Hx]. split; [by rw /target_of -Ht|]. intros Htq x. destruct Hw as [<-|E]; [apply Hx; by rw Ht|by rw E in Htq]. Qed.

Lemma existsb_none c ps : existsb (fun p => negb (testset c p)) ps = false -> forall q, q ∈ ps -> testset c q = true.
Proof. intros He q Hq. destruct (testset c q) eqn:E; [done|]. assert (existsb (fun p => negb (testset c p)) ps = true) as H; [|congruence]. apply existsb_exists. exists q. split; [by apply list_elem_of_In|by rw E]. Qed.

(** What a condition is: its lists, and that no jumps wait if it is a jump itself. *)
Record condition fs e (js ts fls : list Z) : Prop := {
  cd_jpc : jump_list (code fs) (jpc fs) js;
  cd_true : jump_list (code fs) (e_t e) ts;
  cd_false : jump_list (code fs) (e_f e) fls;
  cd_nodup : NoDup (js ++ fls ++ ts);
  cd_last : last_ok (code fs);
  cd_jump : e_k e = VJMP -> jpc fs = NO_JUMP
}.

Definition jumps_done fs e (reg : Z) (js ts fls : list Z) fs' : Prop :=
  value_in (code fs) (code fs') ts fls reg (pc fs') /\
  (forall q, q < pc fs -> outside_of (code fs) (fls ++ ts) q -> word (code fs') q = word (code fs) q) /\
  (pc fs' = pc fs /\ jump_list (code fs') (jpc fs') js \/ pc fs + 2 <= pc fs' /\ jump_list (code fs') (jpc fs') (waiting fs e js)).

Lemma hasjumps_none fs e js ts fls : condition fs e js ts fls -> hasjumps e = false -> ts = [] /\ fls = [].
Proof.
  intros [_ HT HF Hnd _ _] Hh%bool_decide_eq_false_1. assert (e_t e = e_f e) as E by (by apply dec_stable). apply NoDup_app in Hnd as (_ & _ & (_ & Hdis & _)%NoDup_app).
  destruct HT as (Hjt & _), HF as (Hjf & _). rw E in Hjt. destruct (jumps_head _ _ _ Hjt) as [[El ->]|[Hge (i & r & -> & _)]]; destruct (jumps_head _ _ _ Hjf) as [[El' ->]|[Hge' (i' & r' & -> & _)]]; try done.
  - rw El /NO_JUMP in Hge'. lia.
  - rw El' /NO_JUMP in Hge. lia.
  - destruct (Hdis (e_f e)); apply list_elem_of_here.
Qed.

Lemma jump_in_range c l ps q : jump_list c l ps -> q ∈ ps -> 0 <= q < length c.
Proof. intros (_ & _ & HF) Hq. destruct (proj1 (Forall_forall _ _) HF q Hq) as [(x & Hx & _) _]. by eapply word_range. Qed.

Section finish.
Context (fs : FuncState) (e : expdesc) (reg : Z) (js ts fls : list Z) (HC : condition fs e js ts fls).
Context (fsM : FuncState) (w : list Z) (p_f p_t : Z).
Context (Hpre : forall q, q < length (code fs) -> word (code fsM) q = word (code fs) q) (Hlen : (length (code fs) <= length (code fsM))%nat).
Context (HW : jump_list (code fsM) (jpc fsM) w) (Hdw : forall q, q ∈ w -> q ∉ fls ++ ts).
Context (Hlab : (forall q, q ∈ ts ++ fls -> testset (code fs) q = true) \/
  p_f = pc fsM - 2 /\ p_t = pc fsM - 1 /\ pc fs + 2 <= pc fsM /\ word (code fsM) p_f = Some (LOADBOOL reg 0 1) /\ word (code fsM) p_t = Some (LOADBOOL reg 1 0)).

Lemma lists_range q : q ∈ fls ++ ts -> 0 <= q < length (code fs).
Proof using HC. intros [Hq|Hq]%elem_of_app; [eapply jump_in_range; [apply (cd_false _ _ _ _ _ HC)|done]|eapply jump_in_range; [apply (cd_true _ _ _ _ _ HC)|done]]. Qed.

Lemma lists_kept : keeps_list (code fs) (code fsM) ts /\ keeps_list (code fs) (code fsM) fls.
Proof using HC Hpre. split; apply keeps_list_prefix; try done; [apply (cd_true _ _ _ _ _ HC)|apply (cd_false _ _ _ _ _ HC)]. Qed.

Lemma lists_testset q : q ∈ fls ++ ts -> testset (code fsM) q = testset (code fs) q.
Proof using HC Hpre. destruct lists_kept as [K1 K2]. intros [Hq|Hq]%elem_of_app; [by destruct (K2 q Hq) as (_ & _ & ?)|by destruct (K1 q Hq) as (_ & _ & ?)]. Qed.

(** Every jump has a target. *)
Lemma lists_target q d : q ∈ fls ++ ts -> d = p_f \/ d = p_t -> target_of (code fsM) (pc fsM) d q <> NO_JUMP.
Proof using All.
  intros Hq Hd. rw /target_of (lists_testset q Hq). destruct Hlab as [Hall|(-> & -> & Hge & _)]; [rw Hall; [set_solver|apply pc_not_no_jump]|]. destruct (testset (code fs) q); [apply pc_not_no_jump|]. rw /NO_JUMP. rw /pc in Hge, Hd |- *. lia.
Qed.

Lemma outside_prefix q : outside_of (code fs) (fls ++ ts) q -> outside_of (code fsM) (fls ++ ts) q.
Proof using HC Hpre. intros [Hq Ht]. split; [done|]. intros p Hp. rw lists_testset //. by apply Ht. Qed.

Lemma outside_new q : length (code fs) <= q -> outside_of (code fsM) (fls ++ ts) q.
Proof using HC Hlen. intros Hq. split; [intros Hin; apply lists_range in Hin; lia|]. intros p Hp%lists_range _. lia. Qed.

Lemma finish_spec :
  match fs ← patchlistaux (set_lasttarget fsM (pc fsM)) (e_f e) (pc fsM) reg p_f; patchlistaux fs (e_t e) (pc fsM) reg p_t with
  | LOk fs' => value_in (code fs) (code fs') ts fls reg (pc fs') /\ (forall q, q < pc fs -> outside_of (code fs) (fls ++ ts) q -> word (code fs') q = word (code fs) q) /\
      pc fs' = pc fsM /\ jump_list (code fs') (jpc fs') w
  | LError _ => True
  | LFault _ => False
  end.
Proof using HC Hpre Hlen HW Hdw Hlab.
  destruct lists_kept as [K1 K2]. pose proof (patch_both (set_lasttarget fsM (pc fsM)) (e_f e) fls (e_t e) ts (pc fsM) reg p_f p_t) as HB. simpl in HB.
  specialize (HB (keeps_list_jumps _ _ _ _ K2 (cd_false _ _ _ _ _ HC)) (keeps_list_jumps _ _ _ _ K1 (cd_true _ _ _ _ _ HC))).
  pose proof (cd_nodup _ _ _ _ _ HC) as (_ & _ & (_ & Hdis & _)%NoDup_app)%NoDup_app. specialize (HB Hdis ltac:(intros q Hq; apply lists_target; [set_solver|by left]) ltac:(intros q Hq; apply lists_target; [set_solver|by right])).
  destruct (fs ← patchlistaux (set_lasttarget fsM (pc fsM)) (e_f e) (pc fsM) reg p_f; patchlistaux fs (e_t e) (pc fsM) reg p_t) as [fs'| |]; [|done|done]. destruct HB as (Efs & El & HF & HT & HO & HK). simpl in El.
  assert (pc fs' = pc fsM) as Hpc by (by rw /pc El). assert (jpc fs' = jpc fsM) as Hj by (by rw Efs).
  assert (forall q d, q ∈ fls ++ ts -> arrives (code fsM) (code fs') (pc fsM) reg d q -> arrives (code fs) (code fs') (pc fsM) reg d q) as Hback.
  { intros q d Hq. apply keeps_arrives; [left; apply Hpre; pose proof (lists_range q Hq); lia|by apply lists_testset]. }
  split; [|split; [|split; [done|]]].
  - rw Hpc. split.
    + intros q Hq. apply Hback; [set_solver|]. destruct Hlab as [Hall|(_ & E & _)]; [apply (arrives_test _ _ _ _ p_t); [rw lists_testset; [set_solver|]; apply Hall; set_solver|by apply HT]|rw -E; by apply HT].
    + intros q Hq. apply Hback; [set_solver|]. destruct Hlab as [Hall|(E & _)]; [apply (arrives_test _ _ _ _ p_f); [rw lists_testset; [set_solver|]; apply Hall; set_solver|by apply HF]|rw -E; by apply HF].
    + intros q Hq Hts. destruct Hlab as [Hall|(-> & -> & Hge & W1 & W2)]; [rw Hall // in Hts|]. rw /pc in Hge. rw !HO; [apply outside_new; rw /pc; lia|apply outside_new; rw /pc; lia|done].
  - intros q Hq Ho. rw HO; [by apply outside_prefix|]. by apply Hpre.
  - rw Hj. eapply keeps_list_jumps; [apply HK; [apply HW|exact Hdw]|exact HW].
Qed.
End finish.

Lemma exp2reg_jumps_spec fs e reg js ts fls : condition fs e js ts fls ->
  match exp2reg_jumps fs e reg with LOk fs' => jumps_done fs e reg js ts fls fs' | LError _ => True | LFault _ => False end.
Proof.
  intros HC. pose proof HC as [HJ HT HF Hnd Hl Hv]. rw /exp2reg_jumps. destruct (hasjumps e) eqn:Hh.
  2: { destruct (hasjumps_none _ _ _ _ _ HC Hh) as [-> ->]. split; [split; by intros q ?%elem_of_nil|]. split; [done|by left]. }
  rw (need_value_spec _ _ _ HT) LOk_bind. pose proof Hnd as (_ & Hd1 & _)%NoDup_app.
  set (bt := existsb _ ts). set (bf := existsb (fun p => negb (testset (code fs) p)) fls). assert ((if bt then LOk true else need_value fs (e_f e)) = LOk (bt || bf)) as -> by (rw (need_value_spec _ _ _ HF); by destruct bt). rw LOk_bind.
  destruct (bt || bf) eqn:Hb.
  - pose proof (labels_spec fs e reg js HJ Hl Hv) as HL. destruct (_ ≫= _) as [[[p_f p_t] fsM]| |]; [|done|done]. destruct HL as (-> & -> & Hge & W1 & W2 & Hpre & HW). rw LOk_bind /luaK_getlabel.
    assert (forall q, q ∈ waiting fs e js -> q ∉ fls ++ ts) as Hdw.
    { rw /waiting. intros q. destruct (decide _); [by intros ?%elem_of_nil|]. intros [->|Hq]%elem_of_cons; [|by apply Hd1]. intros Hin%(lists_range fs e js ts fls HC). rw /pc in Hin. lia. }
    pose proof (finish_spec fs e reg js ts fls HC fsM (waiting fs e js) (pc fsM - 2) (pc fsM - 1) Hpre ltac:(rw /pc in Hge; lia) HW Hdw ltac:(right; by split_and!)) as HS.
    destruct (_ ≫= _) as [fs'| |]; [|done|done]. destruct HS as (? & ? & Hpc & ?). split; [done|]. split; [done|]. right. by rw Hpc.
  - apply orb_false_iff in Hb as [Hbt Hbf]. rw LOk_bind /luaK_getlabel.
    pose proof (finish_spec fs e reg js ts fls HC fs js NO_JUMP NO_JUMP ltac:(done) ltac:(done) HJ Hd1) as HS. specialize (HS ltac:(left; intros q [Hq|Hq]%elem_of_app; [by apply (existsb_none _ _ Hbt)|by apply (existsb_none _ _ Hbf)])).
    destruct (_ ≫= _) as [fs'| |]; [|done|done]. destruct HS as (? & ? & Hpc & ?). split; [done|]. split; [done|]. by left.
Qed.

(** ** exp2reg() *)

(** A condition whose own value is in the register, or is that of its last jump: that jump belongs to the true ones. *)
Inductive conditional fs e (reg : Z) (js fls : list Z) : list Z -> Prop :=
| in_register ts : e_k e = VNONRELOC -> info e = LOk reg -> condition fs e js ts fls -> conditional fs e reg js fls ts
| by_jump i ts0 rest : e_k e = VJMP -> info e = LOk i -> condition fs e js ts0 fls -> jump_list (code fs) i rest -> NoDup (fls ++ ts0 ++ rest) -> conditional fs e reg js fls (ts0 ++ rest).

Definition in_reg fs (r : FuncState * expdesc) e (reg : Z) (js ts fls : list Z) : Prop :=
  (e_k r.2 = VNONRELOC /\ info r.2 = LOk reg /\ e_t r.2 = NO_JUMP /\ e_f r.2 = NO_JUMP) /\ jumps_done fs e reg js ts fls r.1.

Lemma concat_condition fs fs1 e l js ts0 rest fls : condition fs e js ts0 fls -> e_k e = VJMP -> jump_list (code fs) l rest -> NoDup (fls ++ ts0 ++ rest) -> forall t, concatenated fs fs1 t ts0 rest ->
  condition fs1 (set_t e t) js (ts0 ++ rest) fls.
Proof.
  intros [HJ HT HF Hnd Hl Hv] Ek HL Hnd2 t [C1 C2 C3 C4 C5 C6 C7]. assert (js = []) as ->.
  { rw (Hv Ek) in HJ. destruct HJ as (Hj & _). destruct (jumps_head _ _ _ Hj) as [[_ ?]|[Hge _]]; [done|]. rw /NO_JUMP in Hge. lia. }
  pose proof Hnd2 as (_ & Hd & _)%NoDup_app. assert (jpc fs1 = NO_JUMP) as Hj1 by (rw C2; by apply Hv). split; simpl.
  - rw Hj1. apply jump_list_nil.
  - done.
  - eapply keeps_list_jumps; [|exact HF]. intros q Hq. split; [apply C4; intros Hin; apply (Hd q Hq); set_solver|]. split; [|done]. apply C7. by apply (proj1 (Forall_forall _ _) (proj2 (proj2 HF))).
  - done.
  - intros x Hx. rw C3 in Hx. destruct (decide (length (code fs) - 1 ∈ ts0)) as [Hin|Hni]; [|apply Hl; by rw -C4].
    destruct (C7 _ (proj1 (Forall_forall _ _) (proj2 (proj2 HT)) _ Hin)) as [(y & Hy & Hu & Ho) _]. rw Hy in Hx. injection Hx as <-. split; [done|]. rw /jump_op in Ho. by apply andb_prop in Ho as [?%bool_decide_eq_true_1 _].
  - done.
Qed.

Lemma concat_done fs fs1 fs' e t reg js ts0 rest fls : e_k e = VJMP -> (forall q, q ∈ ts0 -> jump_ok (code fs) q) -> concatenated fs fs1 t ts0 rest ->
  jumps_done fs1 (set_t e t) reg js (ts0 ++ rest) fls fs' -> jumps_done fs e reg js (ts0 ++ rest) fls fs'.
Proof.
  intros Ek Hok [C1 C2 C3 C4 C5 C6 C7] ([V1 V2 V3] & Ho & Hp).
  assert (forall q d, arrives (code fs1) (code fs') (pc fs') reg d q -> arrives (code fs) (code fs') (pc fs') reg d q) as Hback.
  { intros q d. apply keeps_arrives; [|done]. destruct (testset (code fs) q) eqn:E; [left|by right]. apply C4. intros Hin. by apply (jump_not_test (code fs) (q - 1) q (Hok _ Hin)). }
  assert (pc fs1 = pc fs) as Hpc by (by rw /pc C3). split; [|split].
  - split; [intros q Hq; by apply Hback, V1|intros q Hq; by apply Hback, V2|]. intros q Hq Ht. apply (V3 q Hq). by rw C6.
  - intros q Hq [Hni Hnt]. rw Ho; [by rw Hpc|split; [done|intros p Hp'; rw C6; by apply Hnt]|]. apply C4. set_solver.
  - rw /waiting Hpc /= Ek in Hp. by rw /waiting Ek.
Qed.

