(* ===== verification/LuaConst.v ===== *)
(** LuaConst: the constants of a function and the optimization of OP_LOADNIL in the code
    generator, src/liblua/src/lcode.c. *)

From Corelib Require Import ssreflect.
From stdpp Require Import base list numbers strings sets.
From Stdlib Require Import ZArith Lia.
From S2P Require Import Prelude LuaObject LuaZio LuaOpcodes LuaCheck LuaLex LuaNumber LuaTable LuaTabOk LuaTabStore LuaTabCount LuaTabRehash LuaTabMap LuaCode LuaJump.

Implicit Type fs : FuncState.

(** ** OP_LOADNIL *)

Lemma setarg_b i b : is_u32 i -> 0 <= b <= MAXARG_B -> GET_OPCODE (SETARG_B i b) = GET_OPCODE i /\ GETARG_A (SETARG_B i b) = GETARG_A i /\ GETARG_B (SETARG_B i b) = b.
Proof.
  intros Hi Hb. destruct fields_in as (_ & _ & FB & _). assert (0 <= b < 2 ^ SIZE_B) as Hr by (change MAXARG_B with 511 in Hb; change (2 ^ SIZE_B) with 512; lia). rw /SETARG_B.
  change (GET_OPCODE ?x) with (field SIZE_OP POS_OP x). change (GETARG_A ?x) with (field SIZE_A POS_A x). change (GETARG_B ?x) with (field SIZE_B POS_B x).
  split; [rw field_set_other //; by left|]. split; [rw field_set_other //; by left|by rw field_set].
Qed.

Section loadnil.
Context {V : Type} (nil : V) (effect : Z -> (Z -> V) -> Z -> V).

(** What the machine does in a block of instructions. *)
Fixpoint run_block (c : list Z) (regs : Z -> V) : Z -> V :=
  match c with
  | [] => regs
  | i :: c => run_block c (effect i regs)
  end.

Lemma run_block_snoc c i regs : run_block (c ++ [i]) regs = effect i (run_block c regs).
Proof using. revert regs. induction c as [|j c IH]; intros regs; [done|apply IH]. Qed.

Definition set_nil (from to : Z) (regs : Z -> V) : Z -> V := fun r => if decide (from <= r <= to) then nil else regs r.

(** OP_LOADNIL sets the registers from A to B. *)
Definition nil_effect : Prop := forall i regs r, GET_OPCODE i = OP_LOADNIL -> effect i regs r = set_nil (GETARG_A i) (GETARG_B i) regs r.
End loadnil.

Lemma loadnil_fields from to : 0 <= from <= MAXARG_A -> 0 <= to <= MAXARG_B ->
  let i := CREATE_ABC OP_LOADNIL from to 0 in GET_OPCODE i = OP_LOADNIL /\ GETARG_A i = from /\ GETARG_B i = to.
Proof.
  intros Hf Ht i. change MAXARG_A with 255 in Hf. change MAXARG_B with 511 in Ht. destruct (CREATE_ABC_fields OP_LOADNIL from to 0) as (? & ? & ? & _); try done; lia.
Qed.

(** C31: luaK_nil() may extend the last instruction, or add none at the beginning of a function, where registers are
    nil: a run of the block ends as if the registers had been set to nil one by one. An instruction that jumps can
    lead behind is never changed. The only error is a full vector. *)
Theorem luaK_nil_equiv {V : Type} (nil : V) (effect : Z -> (Z -> V) -> Z -> V) (fs : FuncState) (from n : Z) (regs : Z -> V) :
  nil_effect nil effect -> jpc fs = NO_JUMP -> Forall is_u32 (code fs) -> 0 <= from <= MAXARG_A -> 1 <= n -> from + n - 1 <= MAXARG_B ->
  (code fs = [] -> forall r, nactvar fs <= r -> regs r = nil) ->
  match luaK_nil fs from n with
  | LOk fs' =>
      (forall r, run_block effect (code fs') regs r = set_nil nil from (from + n - 1) (run_block effect (code fs) regs) r) /\
      (pc fs <= lasttarget fs -> take (length (code fs)) (code fs') = code fs)
  | LError _ => vector_full fs
  | LFault _ => False
  end.
Proof.
  intros He Hj Hu Hfrom Hn Hto Hclean. destruct (loadnil_fields from (from + n - 1) Hfrom ltac:(lia)) as (Ho & Ha & Hb). set (new := CREATE_ABC OP_LOADNIL from (from + n - 1) 0) in *.
  assert (match '(_, fs) ← luaK_codeABC fs OP_LOADNIL from (from + n - 1) 0; LOk fs with
    | LOk fs' => code fs' = code fs ++ [new] | LError _ => vector_full fs | LFault _ => False end) as Hemit.
  { rw /luaK_codeABC. change (lua_assert (bool_decide (getCMode OP_LOADNIL <> OpArgN \/ 0 = 0))) with (LOk ()). assert (lua_assert (bool_decide (getBMode OP_LOADNIL <> OpArgN \/ from + n - 1 = 0)) = LOk ()) as -> by (rw bool_decide_true //; by left). rw !LOk_bind.
    pose proof (luaK_code_plain fs new (lastline (ls fs)) Hj) as Hc. rw -/new. destruct (luaK_code fs new (lastline (ls fs))) as [[p fs']| |]; [|done|done]. by destruct Hc as (_ & _ & ? & _). }
  assert (match '(_, fs) ← luaK_codeABC fs OP_LOADNIL from (from + n - 1) 0; LOk fs with
    | LOk fs' => (forall r, run_block effect (code fs') regs r = set_nil nil from (from + n - 1) (run_block effect (code fs) regs) r) /\ (pc fs <= lasttarget fs -> take (length (code fs)) (code fs') = code fs)
    | LError _ => vector_full fs | LFault _ => False end) as Hfull.
  { destruct (_ ≫= _) as [fs'| |]; [|done|done]. rw Hemit. split; [intros r; by rw run_block_snoc He // Ha Hb|]. intros _. by rw take_app_length. }
  rw /luaK_nil. destruct (decide (pc fs > lasttarget fs)) as [Hpc|]; [|exact Hfull]. destruct (decide (pc fs = 0)) as [E0|Hne].
  - destruct (decide (from >= nactvar fs)); [|exact Hfull]. assert (code fs = []) as E by (apply length_zero_iff_nil; rw /pc in E0; lia). split; [|lia]. intros r. rw E /= /set_nil. case_decide; [|done]. apply Hclean; [done|lia].
  - destruct (exists_last (l := code fs)) as (pre & prev & E); [rw /pc in Hne; by destruct (code fs)|].
    assert (word (code fs) (pc fs - 1) = Some prev) as Hw by (rw E word_snoc decide_True //; rw /pc E length_app /=; lia). rw (code_get_word _ _ _ Hw) LOk_bind.
    destruct (decide (GET_OPCODE prev = OP_LOADNIL)) as [Hop|]; [|exact Hfull]. destruct (decide (_ /\ _)) as [[H1 H2]|]; [|exact Hfull].
    assert (forall r, run_block effect (code fs) regs r = set_nil nil (GETARG_A prev) (GETARG_B prev) (run_block effect pre regs) r) as Hrun by (intros r; by rw E run_block_snoc He).
    destruct (decide (from + n - 1 > GETARG_B prev)) as [Hgt|Hle].
    + rw (code_put_word _ _ _ _ Hw). split; [|lia]. intros r. assert (is_u32 prev) as Hup by (rw E in Hu; by apply Forall_app in Hu as [_ [? _]%Forall_cons]). destruct (setarg_b prev (from + n - 1) Hup ltac:(lia)) as (F1 & F2 & F3).
      assert (<[Z.to_nat (pc fs - 1) := SETARG_B prev (from + n - 1)]> (code fs) = pre ++ [SETARG_B prev (from + n - 1)]) as E2.
      { rw /pc E length_app. replace (Z.to_nat _) with (length pre + 0)%nat by (simpl; lia). by rw insert_app_r. }
      rw [code _]/= E2 run_block_snoc He; [by rw F1|]. rw F2 F3 /set_nil !Hrun /set_nil. repeat case_decide; try done; lia.
    + split; [|lia]. intros r. rw /set_nil !Hrun /set_nil. repeat case_decide; try done; lia.
Qed.

(** ** Constants *)

Section constants.
Context `{LuaEnv}.

(** The key of a constant; nil cannot be a key. *)
Definition const_key fs (v : tkey) : tkey := match v with TNil => TObj LUA_TTABLE (hptr fs) | _ => v end.
Definition is_const (v : tkey) : Prop := match v with TNil | TBool _ | TStr _ => True | TNum _ => valid_key v | _ => False end.

Record consts_ok fs : Prop := {
  ko_table : tab_ok (h fs);
  ko_find key n : key_ok key = true -> tlookup (h fs) key = Some n -> exists i v, n = cast_num (Z.of_nat i) /\ k fs !! i = Some v /\ kid (const_key fs v) = kid key;
  ko_index i v : k fs !! i = Some v -> is_const v /\ tlookup (h fs) (const_key fs v) = Some (cast_num (Z.of_nat i));
  ko_size : nk fs <= sizek fs <= MAXARG_Bx
}.

Lemma const_valid fs v : is_const v -> valid_key (const_key fs v).
Proof using. destruct v; try done. Qed.

Lemma const_equal fs u v : is_const u -> is_const v -> luaO_rawequalObj u v = bool_decide (kid (const_key fs u) = kid (const_key fs v)).
Proof using.
  intros Hu Hv. destruct u as [|bu|nu|su|pu|tu pu], v as [|bv|nv|sv|pv|tv pv]; try done; try (by rw bool_decide_true); try (symmetry; apply bool_decide_false; by try destruct nu; try destruct nv).
  - apply rawequal_kid; done.
  - apply rawequal_kid; [apply Hu|apply Hv].
  - apply rawequal_kid; done.
Qed.

(** The index of a constant: one that is there, or a new one behind the others. *)
Definition constant_at fs (v : tkey) (r : lres (Z * FuncState)) : Prop :=
  match r with
  | LOk (i, fs') =>
      consts_ok fs' /\ (exists n u, i = Z.of_nat n /\ k fs' !! n = Some u /\ luaO_rawequalObj u v = true) /\
      (k fs' = k fs \/ k fs' = k fs ++ [v] /\ Forall (fun u => luaO_rawequalObj u v = false) (k fs))
  | LError _ => MAXARG_Bx <= sizek fs \/ 2 ^ MAXBITS <= length (entries (h fs))
  | LFault _ => False
  end.

Lemma growvector_const n size : n <= size <= MAXARG_Bx ->
  match luaM_growvector n size MAXARG_Bx "constant table overflow" with LOk s => n + 1 <= s <= MAXARG_Bx | LError _ => MAXARG_Bx <= size | LFault _ => False end.
Proof using. change MAXARG_Bx with 262143. change (262143 / 2) with 131071. intros Hn. rw /luaM_growvector /luaM_growaux_ /MINSIZEARRAY. change (262143 / 2) with 131071. repeat case_decide; lia. Qed.

Lemma addk_spec fs v : consts_ok fs -> is_const v -> constant_at fs v (addk fs (const_key fs v) v).
Proof using.
  intros [HT HF HI HS] Hv. pose proof (const_valid fs v Hv) as Hk. rw /constant_at /addk. destruct (set_spec (h fs) (const_key fs v) HT Hk) as [[? ->]|(t & -> & Hs & Ht & Hl)]; [by right|]. rw LOk_bind.
  change (slot_get t (slot_of t (const_key fs v))) with (tlookup t (const_key fs v)). rw Hl; [apply Hk|]. destruct (tlookup (h fs) (const_key fs v)) as [n|] eqn:Hn.
  - destruct (HF _ _ (proj1 Hk) Hn) as (i & u & -> & Hu & Hkid). assert (Z.of_nat i < 2 ^ 18) as Hi by (apply lookup_lt_Some in Hu; rw /nk in HS; change MAXARG_Bx with 262143 in HS; lia).
    rw number2int_cast; [rw /int_min /int_max; lia|]. rw Nat2Z.id Hu. assert (luaO_rawequalObj u v = true) as Heq by (rw (const_equal fs u v (proj1 (HI _ _ Hu)) Hv); by apply bool_decide_true).
    rw Heq LOk_bind. split; [|split; [by exists i, u|by left]]. split; try done; simpl.
    + intros key m Hkey. rw Hl //. by apply HF.
    + intros j w Hw. destruct (HI j w Hw) as [Hc Hlk]. split; [done|]. change (const_key _ w) with (const_key fs w). rw Hl //. by apply const_valid.
  - destruct (put_spec t (const_key fs v) (Some (cast_num (nk fs))) Ht Hk Hs) as (t' & -> & Ht' & _ & _ & _ & Hl'). rw LOk_bind. pose proof (growvector_const _ _ HS) as HG. destruct (luaM_growvector _ _ _ _) as [s| |]; [|by left|done]. rw LOk_bind.
    assert (forall i u, k fs !! i = Some u -> kid (const_key fs u) <> kid (const_key fs v)) as Hne.
    { intros i u Hu E. destruct (HI i u Hu) as [Hc Hlk]. assert (tlookup (h fs) (const_key fs u) = tlookup (h fs) (const_key fs v)) as E2; [|congruence]. rw /tlookup (slot_of_kid _ (const_key fs u) (const_key fs v)) //; [by apply const_valid|apply Hk]. }
    split; [|split].
    + split; try done; simpl.
      * intros key m Hkey Hm. rw Hl' // in Hm. destruct (decide (kid key = kid (const_key fs v))) as [E|].
        -- injection Hm as <-. exists (length (k fs)), v. split; [done|]. split; [by apply list_lookup_middle|done].
        -- rw Hl // in Hm. destruct (HF key m Hkey Hm) as (i & u & ? & Hu & ?). exists i, u. split; [done|]. split; [by apply lookup_app_l_Some|done].
      * intros i u Hu. change (const_key _ u) with (const_key fs u). apply lookup_app_Some in Hu as [Hu|[Hge Hu]].
        -- destruct (HI i u Hu) as [Hc Hlk]. split; [done|]. rw Hl'; [by apply const_valid|]. rw decide_False; [by apply (Hne i)|]. rw Hl //. by apply const_valid.
        -- destruct (i - length (k fs))%nat as [|j] eqn:Ej; [|done]. injection Hu as <-. split; [done|]. rw Hl'; [apply Hk|]. rw decide_True // /nk. do 2 f_equal. lia.
      * rw /nk length_app /=. rw /nk in HG. lia.
    + exists (length (k fs)), v. split; [done|]. split; [by apply list_lookup_middle|]. rw (const_equal fs v v Hv Hv). by apply bool_decide_true.
    + right. split; [done|]. apply Forall_lookup. intros i u Hu. rw (const_equal fs u v (proj1 (HI i u Hu)) Hv). apply bool_decide_false. by apply (Hne i).
Qed.
End constants.

