(* ===== verification/LuaCodeFlaws.v ===== *)
(** LuaCodeFlaws: functions that the code generator, src/liblua/src/lcode.c, compiles, as
    examples of what the theorems on it say, and those on which it goes wrong: the word behind
    an OP_SETLIST is taken for an instruction, and the sign of a zero is lost. *)

From Corelib Require Import ssreflect.
From stdpp Require Import base list numbers strings sets.
From Stdlib Require Import ZArith Lia.
From S2P Require Import Prelude LuaObject LuaZio LuaOpcodes LuaCheck LuaLex LuaNumber LuaTable LuaTabOk LuaTabRehash LuaTabMap LuaCode LuaJump LuaCond LuaConst.

#[local] Existing Instance plain_env.

(** ** A new function *)

Definition demo_lex : @LexState number := MkLex EOZ 1 1 (MkToken TK_EOS SNone) (MkToken TK_EOS SNone) (MkZio [] []) true [] (lit "=demo") 46.
Definition new_func : FuncState := MkFunc demo_lex [] 0 [] 0 [] 0 2 (mkTable [] 0 [dummynode_] true 0) 4096 (-1) NO_JUMP 0 0.

Lemma new_func_open : open_func demo_lex 4096 = LOk new_func.
Proof. reflexivity. Qed.

(** *** Examples *)

(** x and y: the first test jumps if [x] is false. *)
Definition tested : FuncState := set_code new_func [CREATE_ABC OP_TESTSET NO_REG 0 0; CREATE_ABx OP_JMP 0 (NO_JUMP + MAXARG_sBx)].

Lemma tested_jump : jump_list (code tested) 1 [1].
Proof.
  split; [apply (jumps_cons _ _ (CREATE_ABx OP_JMP 0 (NO_JUMP + MAXARG_sBx))); [reflexivity|]; vm_compute; constructor|]. split; [apply NoDup_singleton|]. apply Forall_singleton. split.
  - eexists. split; [reflexivity|]. split; [split; vm_compute; [discriminate|reflexivity]|reflexivity].
  - intros _. eexists. split; [reflexivity|]. split; [split; vm_compute; [discriminate|reflexivity]|reflexivity].
Qed.

Lemma jumps_to_here_witness : exists p fs', (fs1 ← luaK_patchtohere tested 1; luaK_code fs1 (CREATE_ABC OP_RETURN 0 1 0) 1) = LOk (p, fs') /\ goes_to (code fs') 1 p.
Proof.
  pose proof (jumps_to_here tested 1 [] [1] (CREATE_ABC OP_RETURN 0 1 0) 1 (jump_list_nil _) tested_jump ltac:(by intros p ?%elem_of_nil)) as Hj.
  destruct (fs1 ← luaK_patchtohere tested 1; luaK_code fs1 (CREATE_ABC OP_RETURN 0 1 0) 1) as [[p fs']| |] eqn:E; [|vm_compute in E; discriminate E|destruct Hj].
  exists p, fs'. split; [reflexivity|]. destruct Hj as (_ & _ & _ & _ & Hg & _). apply Hg. apply list_elem_of_here.
Defined.

(** x == y *)
Definition compared : FuncState := set_code new_func [CREATE_ABC OP_EQ 1 0 1; CREATE_ABx OP_JMP 0 (NO_JUMP + MAXARG_sBx)].
Definition comparison : expdesc := MkExp VJMP (U_s 1 None) NO_JUMP NO_JUMP.

Lemma comparison_conditional : conditional compared comparison 2 [] [] [1].
Proof.
  apply (by_jump _ _ _ _ _ 1 [] [1]); [reflexivity|reflexivity|..].
  - split; try exact (jump_list_nil _); [constructor|intros i Hi; injection Hi as <-; split; [split; vm_compute; [discriminate|reflexivity]|reflexivity]|reflexivity].
  - split; [apply (jumps_cons _ _ (CREATE_ABx OP_JMP 0 (NO_JUMP + MAXARG_sBx))); [reflexivity|]; vm_compute; constructor|]. split; [apply NoDup_singleton|]. apply Forall_singleton. split.
    + eexists. split; [reflexivity|]. split; [split; vm_compute; [discriminate|reflexivity]|reflexivity].
    + intros _. eexists. split; [reflexivity|]. split; [split; vm_compute; [discriminate|reflexivity]|reflexivity].
  - apply NoDup_singleton.
Qed.


(** The machine does nothing but OP_LOADNIL here. *)
Definition only_nils (i : Z) (regs : Z -> option Z) : Z -> option Z := if decide (GET_OPCODE i = OP_LOADNIL) then set_nil None (GETARG_A i) (GETARG_B i) regs else regs.
Definition one_nil : FuncState := set_code new_func [CREATE_ABC OP_LOADNIL 0 1 0].

Lemma luaK_nil_equiv_witness : exists fs', luaK_nil one_nil 2 3 = LOk fs' /\ length (code fs') = 1%nat /\
  forall r, run_block only_nils (code fs') Some r = set_nil None 2 4 (run_block only_nils (code one_nil) Some) r.
Proof.
  pose proof (luaK_nil_equiv None only_nils one_nil 2 3 Some ltac:(intros i regs r Ho; rw /only_nils; by destruct (decide _)) eq_refl ltac:(repeat constructor; vm_compute; discriminate || reflexivity)
    ltac:(vm_compute; split; discriminate) ltac:(lia) ltac:(vm_compute; discriminate) ltac:(discriminate)) as Hn.
  destruct (luaK_nil one_nil 2 3) as [fs'| |] eqn:E; [|vm_compute in E; discriminate E|destruct Hn]. exists fs'. split; [reflexivity|]. split; [vm_compute in E; injection E as <-; reflexivity|]. exact (proj1 Hn).
Defined.

Lemma new_func_consts : consts_ok new_func.
Proof.
  assert (tab_ok (h new_func)) as HT by (apply (new_tab_ok (V := number) [] 0 true 0); [vm_compute; discriminate|vm_compute; split; discriminate|done|done]).
  split; [exact HT| |by intros i v|vm_compute; split; discriminate]. intros key n Hk Hn. apply (tlookup_entries (h new_func) key n HT Hk) in Hn as (k' & Hin & _). vm_compute in Hin. by apply elem_of_nil in Hin.
Qed.


(** ** The word behind OP_SETLIST *)

(** The last block of a constructor, a jump, as that of a break statement, and the code that it leads to. *)
Definition constructor_break (nelems : Z) : lres (FuncState * FuncState) :=
  fs ← luaK_setlist new_func 0 nelems LFIELDS_PER_FLUSH;
  '(j, fs) ← luaK_jump fs;
  fs1 ← luaK_patchtohere fs j;
  fs2 ← luaK_ret fs1 0 0;
  LOk (fs, fs2).


(** With 27500 elements the word is not even an opcode, and the test reads behind the end of luaP_opmodes. *)
Theorem setlist_word_read : constructor_break 27500 = LFault OutOfBounds.
Proof. vm_compute. reflexivity. Qed.

(** ** The sign of zero *)

(** The constants -0 and 0 are the same key: the second one gets the index of the first, and so its sign. *)
Theorem numberK_zero_sign :
  match '(i, fs) ← luaK_numberK new_func (luai_numunm (NZero false)); '(j, fs) ← luaK_numberK fs (NZero false); LOk (i, j, fs) with
  | LOk (i, j, fs) => i = 0 /\ j = 0 /\ k fs = [TNum (NZero true)]
  | _ => False
  end.
Proof. vm_compute. done. Qed.
