(* ===== verification/LuaHeap.v ===== *)
(** LuaHeap: the collectable objects of Lua and the state of the garbage collector: GCObject
    and global_State (src/liblua/src/lobject.h, lstate.h), the marks of objects (lgc.h), and
    the pointers that an object holds.

    Objects live in a heap; a pointer to an object that was freed is a location without an
    object. The lists that the collector links through the fields [next] and [gclist] of the
    objects are lists of locations; [sweepgc], a pointer into the list of all objects, is the
    number of objects before it. The byte [marked] is given by its bits. *)

From Corelib Require Import ssreflect.
From stdpp Require Import base list gmap numbers strings.
From Stdlib Require Import ZArith Lia.
From S2P Require Import Prelude.

(** ** Marks *)

(** Bit 3 is [FINALIZEDBIT] of userdata and [KEYWEAKBIT] of tables, bit 4 [VALUEWEAKBIT]. *)
Record marks := Marks { white0 : bool; white1 : bool; black : bool; bit3 : bool; bit4 : bool; fixed : bool; sfixed : bool }.

#[export] Instance marks_eq_dec : EqDecision marks.
Proof. solve_decision. Defined.

Definition iswhite (m : marks) : bool := white0 m || white1 m.
Definition isblack (m : marks) : bool := black m.
Definition isgray (m : marks) : bool := negb (isblack m) && negb (iswhite m).
Definition white2gray (m : marks) : marks := Marks false false (black m) (bit3 m) (bit4 m) (fixed m) (sfixed m).
Definition gray2black (m : marks) : marks := Marks (white0 m) (white1 m) true (bit3 m) (bit4 m) (fixed m) (sfixed m).
Definition black2gray (m : marks) : marks := Marks (white0 m) (white1 m) false (bit3 m) (bit4 m) (fixed m) (sfixed m).
Definition stringmark (m : marks) : marks := white2gray m.
Definition changewhite (m : marks) : marks :=
  Marks (negb (white0 m)) (negb (white1 m)) (black m) (bit3 m) (bit4 m) (fixed m) (sfixed m).
Definition isfinalized (m : marks) : bool := bit3 m.
Definition markfinalized (m : marks) : marks := Marks (white0 m) (white1 m) (black m) true (bit4 m) (fixed m) (sfixed m).
Definition set_weak (m : marks) (weakkey weakvalue : bool) : marks :=
  Marks (white0 m) (white1 m) (black m) weakkey weakvalue (fixed m) (sfixed m).

(** [currentwhite] is a byte of the same kind. *)
Definition luaC_white (currentwhite : marks) : marks := Marks (white0 currentwhite) (white1 currentwhite) false false false false false.
Definition makewhite (currentwhite m : marks) : marks :=
  Marks (white0 currentwhite) (white1 currentwhite) false (bit3 m) (bit4 m) (fixed m) (sfixed m).
Definition otherwhite (currentwhite : marks) : marks := changewhite currentwhite.
Definition isdead (currentwhite m : marks) : bool :=
  white0 m && white0 (otherwhite currentwhite) || white1 m && white1 (otherwhite currentwhite).
(** [(marked ^ WHITEBITS) & deadmask], with the mask otherwhite(g) *)
Definition notdead (deadmask m : marks) : bool :=
  let x := changewhite m in
  white0 x && white0 deadmask || white1 x && white1 deadmask || black x && black deadmask || bit3 x && bit3 deadmask ||
  bit4 x && bit4 deadmask || fixed x && fixed deadmask || sfixed x && sfixed deadmask.

(** ** Objects *)

(** nil, another value that is not collectable, or a pointer to an object *)
Inductive gcvalue :=
| VNil
| VPlain (z : Z)
| VRef (o : loc).

#[export] Instance gcvalue_eq_dec : EqDecision gcvalue.
Proof. solve_decision. Defined.

(** Keys of nodes; a key whose entry was removed is dead. *)
Inductive gckey :=
| KNil
| KPlain (z : Z)
| KRef (o : loc)
| KDead (o : loc).

(** The field [v] of an upvalue: a slot of the stack of a thread, or its own value. *)
Inductive upval_v :=
| UOpen (th : loc) (i : nat)
| UClosed (v : gcvalue).

Inductive gcbody :=
| BString (s : list Z)
| BUdata (metatable : option loc) (env : loc)
| BUpval (v : upval_v)
| BCClosure (env : loc) (upvalue : list gcvalue)
| BLClosure (env : loc) (p : loc) (upvals : list loc)
| BTable (metatable : option loc) (array : list gcvalue) (node : list (gckey * gcvalue))
| BProto (source : option loc) (k : list gcvalue) (upvalues p locvars : list (option loc))
| BThread (l_gt : gcvalue) (stack : list gcvalue) (top : nat) (ci_top : list nat) (openupval : list loc).

Record GCObject := mkObject { marked : marks; body : gcbody }.

(** ** The state *)

Inductive gcphase := GCSpause | GCSpropagate | GCSsweepstring | GCSsweep | GCSfinalize.

#[export] Instance gcphase_eq_dec : EqDecision gcphase.
Proof. solve_decision. Defined.

(** [tmudata] begins with the element that its last one points to; [running] is the thread that calls
    the collector; [tm_gc] and [tm_mode] are the names of two tag methods. *)
Record global_State := mkGlobal {
  heap : gmap loc GCObject;
  currentwhite : marks;
  gcstate : gcphase;
  strt : list (list loc);
  sweepstrgc : nat;
  rootgc : list loc;
  sweepgc : nat;
  gray : list loc;
  grayagain : list loc;
  weak : list loc;
  tmudata : list loc;
  uvhead : list loc;
  l_registry : gcvalue;
  mainthread : loc;
  running : loc;
  mt : list (option loc);
  tm_gc : loc;
  tm_mode : loc
}.

Section setters.
Implicit Type g : global_State.

Definition set_heap g h := mkGlobal h (currentwhite g) (gcstate g) (strt g) (sweepstrgc g) (rootgc g) (sweepgc g) (gray g)
  (grayagain g) (weak g) (tmudata g) (uvhead g) (l_registry g) (mainthread g) (running g) (mt g) (tm_gc g) (tm_mode g).
Definition set_white g w := mkGlobal (heap g) w (gcstate g) (strt g) (sweepstrgc g) (rootgc g) (sweepgc g) (gray g)
  (grayagain g) (weak g) (tmudata g) (uvhead g) (l_registry g) (mainthread g) (running g) (mt g) (tm_gc g) (tm_mode g).
Definition set_gcstate g s := mkGlobal (heap g) (currentwhite g) s (strt g) (sweepstrgc g) (rootgc g) (sweepgc g) (gray g)
  (grayagain g) (weak g) (tmudata g) (uvhead g) (l_registry g) (mainthread g) (running g) (mt g) (tm_gc g) (tm_mode g).
Definition set_strt g s i := mkGlobal (heap g) (currentwhite g) (gcstate g) s i (rootgc g) (sweepgc g) (gray g)
  (grayagain g) (weak g) (tmudata g) (uvhead g) (l_registry g) (mainthread g) (running g) (mt g) (tm_gc g) (tm_mode g).
Definition set_rootgc g r i := mkGlobal (heap g) (currentwhite g) (gcstate g) (strt g) (sweepstrgc g) r i (gray g)
  (grayagain g) (weak g) (tmudata g) (uvhead g) (l_registry g) (mainthread g) (running g) (mt g) (tm_gc g) (tm_mode g).
Definition set_lists g a b c := mkGlobal (heap g) (currentwhite g) (gcstate g) (strt g) (sweepstrgc g) (rootgc g) (sweepgc g)
  a b c (tmudata g) (uvhead g) (l_registry g) (mainthread g) (running g) (mt g) (tm_gc g) (tm_mode g).
Definition set_tmudata g u := mkGlobal (heap g) (currentwhite g) (gcstate g) (strt g) (sweepstrgc g) (rootgc g) (sweepgc g)
  (gray g) (grayagain g) (weak g) u (uvhead g) (l_registry g) (mainthread g) (running g) (mt g) (tm_gc g) (tm_mode g).
Definition set_uvhead g u := mkGlobal (heap g) (currentwhite g) (gcstate g) (strt g) (sweepstrgc g) (rootgc g) (sweepgc g)
  (gray g) (grayagain g) (weak g) (tmudata g) u (l_registry g) (mainthread g) (running g) (mt g) (tm_gc g) (tm_mode g).
Definition set_roots g th m := mkGlobal (heap g) (currentwhite g) (gcstate g) (strt g) (sweepstrgc g) (rootgc g) (sweepgc g)
  (gray g) (grayagain g) (weak g) (tmudata g) (uvhead g) (l_registry g) (mainthread g) th m (tm_gc g) (tm_mode g).

(** An object that is used must not have been freed. *)
Definition get g (o : loc) : res GCObject := match heap g !! o with Some x => Ok x | None => Err UseAfterFree end.
Definition put g (o : loc) (x : GCObject) : global_State := set_heap g (<[o := x]> (heap g)).
Definition set_marks g (o : loc) (f : marks -> marks) : res global_State :=
  x ← get g o;
  Ok (put g o (mkObject (f (marked x)) (body x))).
End setters.

(** ** The pointers of an object *)

Definition vref (v : gcvalue) : list loc := match v with VRef o => [o] | _ => [] end.
Definition kref (k : gckey) : list loc := match k with KRef o => [o] | _ => [] end.
Definition oref (o : option loc) : list loc := match o with Some o => [o] | None => [] end.
(** The pointers of an entry; those of one without a value do not count. *)
Definition nref (n : gckey * gcvalue) : list loc := match n.2 with VNil => [] | v => kref n.1 ++ vref v end.

(** The value of an upvalue. *)
Definition stack_slot (h : gmap loc GCObject) (th : loc) (i : nat) : option gcvalue :=
  x ← h !! th;
  match body x with
  | BThread _ stack _ _ _ => stack !! i
  | _ => None
  end.
Definition upval_value (h : gmap loc GCObject) (v : upval_v) : res gcvalue :=
  match v with
  | UClosed v => Ok v
  | UOpen th i => match stack_slot h th i with Some v => Ok v | None => Err UseAfterFree end
  end.
Definition upval_refs (h : gmap loc GCObject) (v : upval_v) : list loc :=
  match upval_value h v with Ok v => vref v | Err _ => [] end.

Definition refs (h : gmap loc GCObject) (b : gcbody) : list loc :=
  match b with
  | BString _ => []
  | BUdata m e => oref m ++ [e]
  | BUpval v => upval_refs h v
  | BCClosure e us => e :: (us ≫= vref)
  | BLClosure e p us => e :: p :: us
  | BTable m a ns => oref m ++ (a ≫= vref) ++ (ns ≫= nref)
  | BProto s k us ps ls => oref s ++ (k ≫= vref) ++ (us ≫= oref) ++ (ps ≫= oref) ++ (ls ≫= oref)
  | BThread gt st top _ _ => vref gt ++ (take top st ≫= vref)
  end.
