(* ===== verification/LuaGC.v ===== *)
(** LuaGC: the garbage collector of Lua, src/liblua/src/lgc.c, and the functions that make
    objects and manage upvalues (lfunc.c, lstring.c).

    The collector is incremental: singlestep() is one step, and between two steps the program
    runs. Its marks are white (two shades, one of them current), gray and black. A use of an
    object that was freed is a fault, and so is an assertion of the code (lua_assert) that
    fails. The amounts of memory, which decide when the collector runs, are not modelled, nor
    are the sizes of stacks and buffers. *)

From Corelib Require Import ssreflect.
From stdpp Require Import base list gmap numbers strings.
From Stdlib Require Import ZArith Lia.
From S2P Require Import Prelude LuaHeap.

Implicit Type g : global_State.

(** ** Marking *)

(** Every call turns a white object gray: the number of objects bounds the depth. *)
Fixpoint reallymarkobject_ (fuel : nat) g (o : loc) : res global_State :=
  match fuel with
  | O => Err OutOfFuel
  | S fuel =>
      let markobject_ g (t : loc) := x ← get g t; if iswhite (marked x) then reallymarkobject_ fuel g t else Ok g in
      x ← get g o;
      _ ← c_assert (iswhite (marked x) && negb (isdead (currentwhite g) (marked x)));
      g ← set_marks g o white2gray;
      match body x with
      | BString _ => Ok g
      | BUdata m e =>
          g ← set_marks g o gray2black;
          g ← match m with Some m => markobject_ g m | None => Ok g end;
          markobject_ g e
      | BUpval v =>
          w ← upval_value (heap g) v;
          g ← match w with VRef p => markobject_ g p | _ => Ok g end;
          match v with
          | UClosed _ => set_marks g o gray2black
          | UOpen _ _ => Ok g
          end
      | _ => Ok (set_lists g (o :: gray g) (grayagain g) (weak g))
      end
  end.
Definition reallymarkobject g (o : loc) : res global_State := reallymarkobject_ (size (heap g)) g o.

Definition markobject g (t : loc) : res global_State :=
  x ← get g t;
  if iswhite (marked x) then reallymarkobject g t else Ok g.
Definition markvalue g (v : gcvalue) : res global_State := match v with VRef o => markobject g o | _ => Ok g end.
Definition marknull g (o : option loc) : res global_State := match o with Some o => markobject g o | None => Ok g end.

(** The loops that mark the elements of an array. *)
Fixpoint markobjects g (os : list loc) : res global_State :=
  match os with
  | [] => Ok g
  | o :: os => g ← markobject g o; markobjects g os
  end.
Definition markvalues g (vs : list gcvalue) : res global_State := markobjects g (vs ≫= vref).
Fixpoint markstrings g (os : list (option loc)) : res global_State :=
  match os with
  | [] => Ok g
  | None :: os => markstrings g os
  | Some o :: os => g ← set_marks g o stringmark; markstrings g os
  end.

(** ** Tag methods *)

Fixpoint mode_char (c : Z) (s : list Z) : bool :=
  match s with
  | [] => false
  | x :: s => if decide (x = c) then true else if decide (x = 0) then false else mode_char c s
  end.

(** The value of a tag method in a metatable; nil if there is none. *)
Definition fasttm g (events : option loc) (name : loc) : res gcvalue :=
  match events with
  | None => Ok VNil
  | Some t =>
      x ← get g t;
      match body x with
      | BTable _ _ ns => Ok (match list_find (fun n : gckey * gcvalue => kref n.1 = [name]) ns with Some (_, n) => n.2 | None => VNil end)
      | _ => Err AssertFail
      end
  end.

(** Whether keys and values of a table with this metatable are weak. *)
Definition weak_mode g (metatable : option loc) : res (bool * bool) :=
  mode ← fasttm g metatable (tm_mode g);
  match mode with
  | VRef o =>
      x ← get g o;
      match body x with
      | BString s => Ok (mode_char 107 s, mode_char 118 s)
      | _ => Ok (false, false)
      end
  | _ => Ok (false, false)
  end.

(** ** Traversing *)

Definition removeentry (n : gckey * gcvalue) : gckey * gcvalue := (match n.1 with KRef o => KDead o | k => k end, n.2).
Definition remove_empty (n : gckey * gcvalue) : gckey * gcvalue := match n.2 with VNil => removeentry n | _ => n end.

(** An entry with a value has a key, and one that is not dead. *)
Definition node_ok (n : gckey * gcvalue) : bool := match n with (_, VNil) => true | (KDead _, _) | (KNil, _) => false | _ => true end.

(** What the loop over the nodes marks, the last node first. *)
Definition node_marks (weakkey weakvalue : bool) (n : gckey * gcvalue) : list loc :=
  match n.2 with
  | VNil => []
  | v => (if weakkey then [] else kref n.1) ++ (if weakvalue then [] else vref v)
  end.

Definition traversetable g (h : loc) : res (bool * global_State) :=
  x ← get g h;
  match body x with
  | BTable m a ns =>
      g ← marknull g m;
      '(weakkey, weakvalue) ← weak_mode g m;
      g ← (if weakkey || weakvalue then
             g ← set_marks g h (fun m => set_weak m weakkey weakvalue);
             Ok (set_lists g (gray g) (grayagain g) (h :: weak g))
           else Ok g);
      if weakkey && weakvalue then Ok (true, g)
      else
        g ← (if weakvalue then Ok g else markvalues g (reverse a));
        _ ← c_assert (forallb node_ok ns);
        g ← markobjects g (reverse ns ≫= node_marks weakkey weakvalue);
        x ← get g h;
        let g := put g h (mkObject (marked x) (BTable m a (remove_empty <$> ns))) in
        Ok (weakkey || weakvalue, g)
  | _ => Err AssertFail
  end.

Definition traverseproto g (source : option loc) (k : list gcvalue) (upvalues p locvars : list (option loc)) : res global_State :=
  g ← markstrings g [source];
  g ← markvalues g k;
  g ← markstrings g upvalues;
  g ← markobjects g (p ≫= oref);
  markstrings g locvars.

Definition traverseclosure g (b : gcbody) : res global_State :=
  match b with
  | BCClosure env upvalue => g ← markobject g env; markvalues g upvalue
  | BLClosure env p upvals => g ← markobject g env; g ← markobject g p; markobjects g upvals
  | _ => Err AssertFail
  end.

(** The slots from the top to the limit of all calls are cleared. *)
Definition clear_slots (stack : list gcvalue) (top lim : nat) : list gcvalue :=
  imap (fun i v => if decide (top <= i <= lim)%nat then VNil else v) stack.
Definition traversestack g (l : loc) : res global_State :=
  x ← get g l;
  match body x with
  | BThread gt stack top cis ups =>
      g ← markvalue g gt;
      let lim := foldr Nat.max top cis in
      g ← markvalues g (take top stack);
      x ← get g l;
      Ok (put g l (mkObject (marked x) (BThread gt (clear_slots stack top lim) top cis ups)))
  | _ => Err AssertFail
  end.

Definition propagatemark g : res global_State :=
  match gray g with
  | [] => Err NullDeref
  | o :: rest =>
      x ← get g o;
      _ ← c_assert (isgray (marked x));
      g ← set_marks g o gray2black;
      let g := set_lists g rest (grayagain g) (weak g) in
      match body x with
      | BTable _ _ _ =>
          '(w, g) ← traversetable g o;
          if (w : bool) then set_marks g o black2gray else Ok g
      | BCClosure _ _ | BLClosure _ _ _ => traverseclosure g (body x)
      | BThread _ _ _ _ _ =>
          let g := set_lists g (gray g) (o :: grayagain g) (weak g) in
          g ← set_marks g o black2gray;
          traversestack g o
      | BProto s k us ps ls => traverseproto g s k us ps ls
      | _ => Err AssertFail
      end
  end.

(** A step takes an object from the list, and each object gets there once. *)
Fixpoint propagateall_ (fuel : nat) g : res global_State :=
  match fuel with
  | O => Err OutOfFuel
  | S fuel => match gray g with [] => Ok g | _ => g ← propagatemark g; propagateall_ fuel g end
  end.
Definition propagateall g : res global_State := propagateall_ (S (size (heap g) + length (gray g))) g.

(** ** Roots *)

Fixpoint markmts g (ms : list (option loc)) : res global_State :=
  match ms with
  | [] => Ok g
  | m :: ms => g ← marknull g m; markmts g ms
  end.
Definition markmt g : res global_State := markmts g (mt g).

Definition thread_gt g (l : loc) : res gcvalue :=
  x ← get g l;
  match body x with BThread gt _ _ _ _ => Ok gt | _ => Err AssertFail end.

Definition markroot g : res global_State :=
  let g := set_lists g [] [] [] in
  g ← markobject g (mainthread g);
  gt ← thread_gt g (mainthread g);
  g ← markvalue g gt;
  g ← markvalue g (l_registry g);
  g ← markmt g;
  Ok (set_gcstate g GCSpropagate).

(** ** The atomic step *)

Fixpoint remark (uvs : list loc) g : res global_State :=
  match uvs with
  | [] => Ok g
  | uv :: uvs =>
      x ← get g uv;
      g ← (if isgray (marked x) then
             match body x with
             | BUpval v => w ← upval_value (heap g) v; markvalue g w
             | _ => Err AssertFail
             end
           else Ok g);
      remark uvs g
  end.
Definition remarkupvals g : res global_State := remark (uvhead g) g.

(** The userdata follow the main thread in the list of objects. The loop gives those that stay and
    those that move. *)
Fixpoint separate_loop (all : bool) (us : list loc) g : res (list loc * list loc * global_State) :=
  match us with
  | [] => Ok ([], [], g)
  | curr :: us =>
      x ← get g curr;
      if negb (iswhite (marked x) || all) || isfinalized (marked x) then
        '(stay, move, g) ← separate_loop all us g;
        Ok (curr :: stay, move, g)
      else
        match body x with
        | BUdata m _ =>
            tm ← fasttm g m (tm_gc g);
            g ← set_marks g curr markfinalized;
            '(stay, move, g) ← separate_loop all us g;
            match tm with
            | VNil => Ok (curr :: stay, move, g)
            | _ => Ok (stay, curr :: move, g)
            end
        | _ => Err AssertFail
        end
  end.
(** The number of objects up to the main thread. *)
Definition main_end g : nat := match list_find (fun o => o = mainthread g) (rootgc g) with Some (i, _) => S i | None => length (rootgc g) end.
Definition luaC_separateudata g (all : bool) : res global_State :=
  let n := main_end g in
  '(stay, move, g) ← separate_loop all (drop n (rootgc g)) g;
  Ok (set_tmudata (set_rootgc g (take n (rootgc g) ++ stay) (sweepgc g)) (tmudata g ++ move)).

Fixpoint marktmu_loop (us : list loc) g : res global_State :=
  match us with
  | [] => Ok g
  | u :: us =>
      g ← set_marks g u (makewhite (currentwhite g));
      g ← reallymarkobject g u;
      marktmu_loop us g
  end.
Definition marktmu g : res global_State := marktmu_loop (tmudata g) g.

(** *** Weak tables *)

Definition iscleared g (v : gcvalue) (iskey : bool) : res (bool * global_State) :=
  match v with
  | VRef o =>
      x ← get g o;
      match body x with
      | BString _ => g ← set_marks g o stringmark; Ok (false, g)
      | BUdata _ _ => Ok (iswhite (marked x) || (negb iskey && isfinalized (marked x)), g)
      | _ => Ok (iswhite (marked x), g)
      end
  | _ => Ok (false, g)
  end.
Definition key2tval (k : gckey) : gcvalue := match k with KNil => VNil | KPlain z => VPlain z | KRef o => VRef o | KDead o => VRef o end.

(** From the last element to the first. *)
Fixpoint clear_array g (vs : list gcvalue) : res (list gcvalue * global_State) :=
  match vs with
  | [] => Ok ([], g)
  | v :: vs =>
      '(vs, g) ← clear_array g vs;
      '(c, g) ← iscleared g v false;
      Ok ((if (c : bool) then VNil else v) :: vs, g)
  end.
Fixpoint clear_nodes g (ns : list (gckey * gcvalue)) : res (list (gckey * gcvalue) * global_State) :=
  match ns with
  | [] => Ok ([], g)
  | n :: ns =>
      '(ns, g) ← clear_nodes g ns;
      match n.2 with
      | VNil => Ok (n :: ns, g)
      | _ =>
          '(c, g) ← iscleared g (key2tval n.1) true;
          '(c, g) ← (if (c : bool) then Ok (true, g) else iscleared g n.2 false);
          Ok ((if (c : bool) then removeentry (n.1, VNil) else n) :: ns, g)
      end
  end.
Fixpoint cleartable (l : list loc) g : res global_State :=
  match l with
  | [] => Ok g
  | h :: l =>
      x ← get g h;
      match body x with
      | BTable m a ns =>
          _ ← c_assert (bit3 (marked x) || bit4 (marked x));
          '(a, g) ← (if bit4 (marked x) then clear_array g a else Ok (a, g));
          '(ns, g) ← clear_nodes g ns;
          x ← get g h;
          cleartable l (put g h (mkObject (marked x) (BTable m a ns)))
      | _ => Err AssertFail
      end
  end.

(** The first part marks what is reachable, the second deals with finalizers and weak tables. *)
Definition atomic_mark g : res global_State :=
  g ← remarkupvals g;
  g ← propagateall g;
  let g := set_lists g (weak g) (grayagain g) [] in
  x ← get g (mainthread g);
  _ ← c_assert (negb (iswhite (marked x)));
  g ← markobject g (running g);
  g ← markmt g;
  g ← propagateall g;
  let g := set_lists g (grayagain g) [] (weak g) in
  propagateall g.
Definition atomic g : res global_State :=
  g ← atomic_mark g;
  g ← luaC_separateudata g false;
  g ← marktmu g;
  g ← propagateall g;
  g ← cleartable (weak g) g;
  let g := set_white g (otherwhite (currentwhite g)) in
  Ok (set_gcstate (set_rootgc (set_strt g (strt g) 0) (rootgc g) 0) GCSsweepstring).

(** ** Upvalues *)

(** An object that is put into the list of all objects at a position; [sweepgc] points to a place
    in the list. *)
Definition root_insert g (pos : nat) (o : loc) : global_State :=
  set_rootgc g (take pos (rootgc g) ++ o :: drop pos (rootgc g)) (if decide (pos < sweepgc g)%nat then S (sweepgc g) else sweepgc g).

(** The second assertion of luaC_barrierf(); see [barrierf_phase_fails]. *)
Definition barrierf_phase g : bool := bool_decide (gcstate g <> GCSfinalize /\ gcstate g <> GCSpause).

Definition luaC_barrierf g (o v : loc) : res global_State :=
  xo ← get g o;
  xv ← get g v;
  _ ← c_assert (isblack (marked xo) && iswhite (marked xv) && negb (isdead (currentwhite g) (marked xv)) && negb (isdead (currentwhite g) (marked xo)));
  if decide (gcstate g = GCSpropagate) then reallymarkobject g v
  else set_marks g o (makewhite (currentwhite g)).

Definition luaC_barrierback g (t : loc) : res global_State :=
  x ← get g t;
  _ ← c_assert (isblack (marked x) && negb (isdead (currentwhite g) (marked x)));
  _ ← c_assert (bool_decide (gcstate g <> GCSfinalize /\ gcstate g <> GCSpause));
  g ← set_marks g t black2gray;
  Ok (set_lists g (gray g) (t :: grayagain g) (weak g)).

(** luaC_barrier() and luaC_objbarrier(); luaC_barriert() and luaC_objbarriert(). *)
Definition luaC_objbarrier g (p o : loc) : res global_State :=
  xo ← get g o;
  if iswhite (marked xo) then xp ← get g p; if isblack (marked xp) then luaC_barrierf g p o else Ok g else Ok g.
Definition luaC_barrier g (p : loc) (v : gcvalue) : res global_State := match v with VRef o => luaC_objbarrier g p o | _ => Ok g end.
Definition luaC_objbarriert g (t o : loc) : res global_State :=
  xo ← get g o;
  if iswhite (marked xo) then xt ← get g t; if isblack (marked xt) then luaC_barrierback g t else Ok g else Ok g.

Definition luaC_barriert g (t : loc) (v : gcvalue) : res global_State := match v with VRef o => luaC_objbarriert g t o | _ => Ok g end.

Definition luaC_linkupval g (uv : loc) (v : gcvalue) : res global_State :=
  let g := root_insert g 0 uv in
  x ← get g uv;
  if isgray (marked x) then
    if decide (gcstate g = GCSpropagate) then
      g ← set_marks g uv gray2black;
      luaC_barrier g uv v
    else
      g ← set_marks g uv (makewhite (currentwhite g));
      _ ← c_assert (bool_decide (gcstate g <> GCSfinalize /\ gcstate g <> GCSpause));
      Ok g
  else Ok g.

Definition unlinkupval g (uv : loc) : global_State := set_uvhead g (filter (fun o => o <> uv) (uvhead g)).
Definition free g (o : loc) : global_State := set_heap g (delete o (heap g)).
Definition luaF_freeupval g (uv : loc) : res global_State :=
  x ← get g uv;
  match body x with
  | BUpval (UOpen _ _) => Ok (free (unlinkupval g uv) uv)
  | BUpval (UClosed _) => Ok (free g uv)
  | _ => Err AssertFail
  end.

Definition set_openupval g (th : loc) (ups : list loc) : res global_State :=
  x ← get g th;
  match body x with
  | BThread gt st top cis _ => Ok (put g th (mkObject (marked x) (BThread gt st top cis ups)))
  | _ => Err AssertFail
  end.

(** The open upvalues of a thread, the topmost first. *)
Fixpoint close_loop (ups : list loc) (th : loc) (level : nat) g : res global_State :=
  match ups with
  | [] => Ok g
  | uv :: ups =>
      x ← get g uv;
      match body x with
      | BUpval (UOpen t i) =>
          if decide (level <= i)%nat then
            _ ← c_assert (negb (isblack (marked x)));
            g ← set_openupval g th ups;
            if isdead (currentwhite g) (marked x) then
              g ← luaF_freeupval g uv;
              close_loop ups th level g
            else
              let g := unlinkupval g uv in
              v ← upval_value (heap g) (UOpen t i);
              let g := put g uv (mkObject (marked x) (BUpval (UClosed v))) in
              g ← luaC_linkupval g uv v;
              close_loop ups th level g
          else Ok g
      | _ => Err AssertFail
      end
  end.
Definition luaF_close g (th : loc) (level : nat) : res global_State :=
  x ← get g th;
  match body x with
  | BThread _ _ _ _ ups => close_loop ups th level g
  | _ => Err AssertFail
  end.

(** ** Sweeping *)

Definition luaE_freethread g (th : loc) : res global_State :=
  g ← luaF_close g th 0;
  x ← get g th;
  match body x with
  | BThread _ _ _ _ ups => _ ← c_assert (match ups with [] => true | _ => false end); Ok (free g th)
  | _ => Err AssertFail
  end.

Definition freeobj g (o : loc) : res global_State :=
  x ← get g o;
  match body x with
  | BUpval _ => luaF_freeupval g o
  | BThread _ _ _ _ _ =>
      _ ← c_assert (bool_decide (o <> running g /\ o <> mainthread g));
      luaE_freethread g o
  | _ => Ok (free g o)
  end.

(** A whole list of strings, or of the open upvalues of a thread: what is left of it. *)
Fixpoint sweepwholelist (l : list loc) g : res (list loc * global_State) :=
  match l with
  | [] => Ok ([], g)
  | curr :: l =>
      x ← get g curr;
      if notdead (otherwhite (currentwhite g)) (marked x) then
        g ← set_marks g curr (makewhite (currentwhite g));
        '(l, g) ← sweepwholelist l g;
        Ok (curr :: l, g)
      else
        g ← freeobj g curr;
        sweepwholelist l g
  end.

(** The object at [sweepgc]: it is made white and [sweepgc] advances, or it is freed. *)
Definition sweepcurr g (curr : loc) : res global_State :=
  x ← get g curr;
  g ← match body x with
      | BThread _ _ _ _ ups => '(ups, g) ← sweepwholelist ups g; set_openupval g curr ups
      | _ => Ok g
      end;
  if notdead (otherwhite (currentwhite g)) (marked x) then
    g ← set_marks g curr (makewhite (currentwhite g));
    Ok (set_rootgc g (rootgc g) (S (sweepgc g)))
  else freeobj (set_rootgc g (delete (sweepgc g) (rootgc g)) (sweepgc g)) curr.

(** The list of all objects from [sweepgc] on, [count] objects at most. *)
Fixpoint sweeplist (count : nat) g : res global_State :=
  match count with
  | O => Ok g
  | S count =>
      match rootgc g !! sweepgc g with
      | None => Ok g
      | Some curr => g ← sweepcurr g curr; sweeplist count g
      end
  end.

(** ** Finalizers *)

(** The userdata goes back to the list of all objects; the tag method is called with it next. *)
Definition GCTM g : res global_State :=
  match tmudata g with
  | [] => Err NullDeref
  | o :: us =>
      let g := root_insert (set_tmudata g us) (main_end g) o in
      set_marks g o (makewhite (currentwhite g))
  end.

(** ** Strings *)

(** The hash value of a string; of long strings not all characters count. *)
Fixpoint hash_loop (fuel : nat) (str : list Z) (step l1 h : Z) : Z :=
  match fuel with
  | O => h
  | S fuel =>
      if decide (step <= l1) then
        hash_loop fuel str step (l1 - step) (Z.lxor h ((Z.shiftl h 5 + Z.shiftr h 2 + str !!! Z.to_nat (l1 - 1) mod 256) mod 2 ^ 32))
      else h
  end.
Definition luaS_hash (str : list Z) : Z :=
  let l := Z.of_nat (length str) in
  hash_loop (length str) str (Z.shiftr l 5 + 1) l (l mod 2 ^ 32).

(** The bucket of a hash value in a table whose size is a power of two. *)
Definition strbucket (h : Z) (size : nat) : nat := Z.to_nat (Z.land h (Z.of_nat size - 1)).

Definition string_of g (o : loc) : res (list Z) :=
  x ← get g o;
  match body x with BString s => Ok s | _ => Err AssertFail end.

(** Strings go to the front of their new buckets, one after the other. *)
Fixpoint rehash_strings (os : list loc) (newhash : list (list loc)) g : res (list (list loc)) :=
  match os with
  | [] => Ok newhash
  | p :: os =>
      str ← string_of g p;
      let h1 := strbucket (luaS_hash str) (length newhash) in
      match newhash !! h1 with
      | Some l => rehash_strings os (<[h1 := p :: l]> newhash) g
      | None => Err OutOfBounds
      end
  end.
Definition luaS_resize g (newsize : nat) : res global_State :=
  if decide (gcstate g = GCSsweepstring) then Ok g
  else
    newhash ← rehash_strings (concat (strt g)) (replicate newsize []) g;
    Ok (set_strt g newhash (sweepstrgc g)).

(** A new string at the location [new]. *)
Definition newlstr g (str : list Z) (h : Z) (new : loc) : res global_State :=
  let g := put g new (mkObject (luaC_white (currentwhite g)) (BString str)) in
  let size := length (strt g) in
  let h1 := strbucket h size in
  match strt g !! h1 with
  | None => Err OutOfBounds
  | Some l =>
      let g := set_strt g (<[h1 := new :: l]> (strt g)) (sweepstrgc g) in
      if decide (size < length (concat (strt g)))%nat then
        if decide (Z.of_nat size <= (2 ^ 31 - 1) / 2) then luaS_resize g (size * 2) else Ok g
      else Ok g
  end.

Fixpoint find_string (os : list loc) (str : list Z) g : res (option loc) :=
  match os with
  | [] => Ok None
  | o :: os =>
      s ← string_of g o;
      if decide (s = str) then Ok (Some o) else find_string os str g
  end.
Definition luaS_newlstr g (str : list Z) (new : loc) : res (loc * global_State) :=
  let h := luaS_hash str in
  match strt g !! strbucket h (length (strt g)) with
  | None => Err OutOfBounds
  | Some l =>
      r ← find_string l str g;
      match r with
      | Some o =>
          x ← get g o;
          g ← (if isdead (currentwhite g) (marked x) then set_marks g o changewhite else Ok g);
          Ok (o, g)
      | None =>
          g ← newlstr g str h new;
          Ok (new, g)
      end
  end.

Definition MINSTRTABSIZE : nat := 32.
(** checkSizes() for the string table. *)
Definition checkSizes g : res global_State :=
  let size := length (strt g) in
  if decide (length (concat (strt g)) < size / 4 /\ MINSTRTABSIZE * 2 < size)%nat then luaS_resize g (size / 2) else Ok g.

(** ** The steps *)

Definition GCSWEEPMAX : nat := 40.

Definition singlestep g : res global_State :=
  match gcstate g with
  | GCSpause => markroot g
  | GCSpropagate => match gray g with [] => atomic g | _ => propagatemark g end
  | GCSsweepstring =>
      match strt g !! sweepstrgc g with
      | None => Err OutOfBounds
      | Some l =>
          let i := sweepstrgc g in
          '(l, g) ← sweepwholelist l g;
          let g := set_strt g (<[i := l]> (strt g)) (S i) in
          Ok (if decide (length (strt g) <= S i)%nat then set_gcstate g GCSsweep else g)
      end
  | GCSsweep =>
      g ← sweeplist GCSWEEPMAX g;
      match rootgc g !! sweepgc g with
      | None => g ← checkSizes g; Ok (set_gcstate g GCSfinalize)
      | Some _ => Ok g
      end
  | GCSfinalize => match tmudata g with [] => Ok (set_gcstate g GCSpause) | _ => GCTM g end
  end.

(** The beginning of luaC_fullgc(): a mark phase is abandoned, and all objects are made white. *)
Definition fullgc_reset g : global_State :=
  if decide (gcstate g = GCSpause \/ gcstate g = GCSpropagate) then
    set_gcstate (set_lists (set_rootgc (set_strt g (strt g) 0) (rootgc g) 0) [] [] []) GCSsweepstring
  else g.

(** ** New objects *)

Definition luaC_link g (o : loc) (b : gcbody) : global_State :=
  root_insert (put g o (mkObject (luaC_white (currentwhite g)) b)) 0 o.
Definition luaS_newudata g (o : loc) (e : loc) : global_State :=
  root_insert (put g o (mkObject (luaC_white (currentwhite g)) (BUdata None e))) (main_end g) o.

(** The upvalue for a stack slot: an open one that is there, or a new one. The list is in the order of
    falling slots; the result is the list up to the place, and the upvalue if it was found. *)
Fixpoint find_place (ups : list loc) (level : nat) g : res (list loc * list loc * option loc) :=
  match ups with
  | [] => Ok ([], [], None)
  | p :: ups =>
      x ← get g p;
      match body x with
      | BUpval (UOpen _ i) =>
          if decide (level <= i)%nat then
            if decide (i = level) then Ok ([], p :: ups, Some p)
            else '(before, after, r) ← find_place ups level g; Ok (p :: before, after, r)
          else Ok ([], p :: ups, None)
      | _ => Err AssertFail
      end
  end.
Definition luaF_findupval g (th : loc) (level : nat) (new : loc) : res (loc * global_State) :=
  x ← get g th;
  match body x with
  | BThread _ _ _ _ ups =>
      '(before, after, r) ← find_place ups level g;
      match r with
      | Some p =>
          xp ← get g p;
          g ← (if isdead (currentwhite g) (marked xp) then set_marks g p changewhite else Ok g);
          Ok (p, g)
      | None =>
          let g := put g new (mkObject (luaC_white (currentwhite g)) (BUpval (UOpen th level))) in
          g ← set_openupval g th (before ++ new :: after);
          Ok (new, set_uvhead g (new :: uvhead g))
      end
  | _ => Err AssertFail
  end.

(** ** Stores *)

Definition set_body g (o : loc) (b : gcbody) : res global_State :=
  x ← get g o;
  Ok (put g o (mkObject (marked x) b)).

(** A value is stored in an object, or in a table, and the barrier follows. *)
Definition store_object g (p : loc) (b : gcbody) (v : gcvalue) : res global_State := g ← set_body g p b; luaC_barrier g p v.
Definition store_table g (t : loc) (b : gcbody) (v : gcvalue) : res global_State := g ← set_body g t b; luaC_barriert g t v.
