(* ===== verification/LuaGCMark.v ===== *)
(** LuaGCMark: what marking does (reallymarkobject() of lgc.c): white objects become gray or
    black, and whatever becomes black points to no white object. *)

From Corelib Require Import ssreflect.
From stdpp Require Import base list gmap numbers strings.
From Stdlib Require Import ZArith Lia.
From S2P Require Import Prelude LuaHeap LuaGC.

Implicit Type g : global_State.

(** ** Colours *)

Definition has (P : GCObject -> Prop) g (o : loc) : Prop := exists x, heap g !! o = Some x /\ P x.
Abbreviation is_white := (has (fun x => iswhite (marked x) = true)).
Abbreviation nonwhite := (has (fun x => iswhite (marked x) = false)).
Abbreviation is_gray := (has (fun x => isgray (marked x) = true)).

(** All that an object points to is marked. *)
Definition covered g (o : loc) : Prop := exists x, heap g !! o = Some x /\ Forall (nonwhite g) (refs (heap g) (body x)).

(** Objects that wait in lists to be traversed. *)
Definition traversable (b : gcbody) : bool :=
  match b with BCClosure _ _ | BLClosure _ _ _ | BTable _ _ _ | BProto _ _ _ _ _ | BThread _ _ _ _ _ => true | _ => false end.
Definition is_string (b : gcbody) : bool := match b with BString _ => true | _ => false end.
Definition open_upval (b : gcbody) : bool := match b with BUpval (UOpen _ _) => true | _ => false end.

(** Objects of these kinds are never black. *)
Definition never_black (b : gcbody) : bool := match b with BThread _ _ _ _ _ | BUpval (UOpen _ _) | BString _ => true | _ => false end.

Definition white_set g : gset loc := dom (filter (fun kv : loc * GCObject => iswhite (marked kv.2) = true) (heap g)).

Lemma elem_white_set g o : o ∈ white_set g <-> is_white g o.
Proof.
  rw /white_set elem_of_dom. split.
  - intros [x [Hx Hw]%map_lookup_filter_Some]. by exists x.
  - intros (x & Hx & Hw). exists x. by apply map_lookup_filter_Some.
Qed.

Lemma white_nonwhite g o : is_white g o -> nonwhite g o -> False.
Proof. intros (x & Hx & ?) (y & Hy & ?). congruence. Qed.

(** A gray object that can wait. *)
Abbreviation waiting := (has (fun x => isgray (marked x) = true /\ traversable (body x) = true)).

Lemma white2gray_gray m : isblack m = false -> isgray (white2gray m) = true.
Proof. destruct m. rw /isgray /isblack /= => ->. done. Qed.
Lemma isgray_nonwhite m : isgray m = true -> iswhite m = false.
Proof. rw /isgray. destruct (iswhite m), (isblack m); done. Qed.
Lemma isgray_nonblack m : isgray m = true -> isblack m = false.
Proof. rw /isgray. destruct (iswhite m), (isblack m); done. Qed.
Lemma waiting_nonwhite g o : waiting g o -> nonwhite g o.
Proof. intros (x & Hx & Hg & _). exists x. split; [done|]. by apply isgray_nonwhite. Qed.

(** ** Marking *)

(** The bits other than the colour. *)
Definition same_flags (m m' : marks) : Prop := bit3 m' = bit3 m /\ bit4 m' = bit4 m /\ fixed m' = fixed m /\ sfixed m' = sfixed m.

(** How an object has been marked: it waits, is a string, or is black or an open upvalue and all that it
    points to is marked. *)
Definition well_marked g (new : list loc) (o : loc) (x : GCObject) : Prop :=
  o ∈ new /\ isgray (marked x) = true /\ traversable (body x) = true \/
  is_string (body x) = true /\ isgray (marked x) = true \/
  covered g o /\ traversable (body x) = false /\ is_string (body x) = false /\ isblack (marked x) = negb (open_upval (body x)).

(** From [g] to [g'], objects have been marked; those in [new] wait now, and those in [E] may not be
    complete yet. *)
Record marking (E new : list loc) g g' : Prop := {
  m_frame : g' = set_lists (set_heap g (heap g')) (gray g') (grayagain g) (weak g);
  m_none o : heap g !! o = None -> heap g' !! o = None;
  m_some o x : heap g !! o = Some x -> exists x', heap g' !! o = Some x' /\ body x' = body x /\
    (x' = x \/ iswhite (marked x) = true /\ iswhite (marked x') = false /\ same_flags (marked x) (marked x'));
  m_gray : gray g' = new ++ gray g;
  m_nodup : NoDup new;
  m_fresh o : o ∈ new -> is_white g o /\ waiting g' o;
  m_done o x : is_white g o -> heap g' !! o = Some x -> iswhite (marked x) = false -> o ∈ E \/ well_marked g' new o x
}.

Definition same_bodies (h h' : gmap loc GCObject) : Prop := forall o, body <$> h' !! o = body <$> h !! o.

Lemma refs_same h h' b : same_bodies h h' -> refs h' b = refs h b.
Proof.
  intros Hb. assert (forall th i, stack_slot h' th i = stack_slot h th i) as Hs.
  { intros th i. rw /stack_slot. specialize (Hb th). destruct (h !! th) as [x|], (h' !! th) as [x'|]; try done.
    simpl in *. injection Hb as ->. done. }
  destruct b as [| |v| | | | |]; try done. rw /= /upval_refs /upval_value. destruct v; [by rw Hs|done].
Qed.

Section marking.
Implicit Types (E new : list loc).

Lemma marking_bodies E new g g' : marking E new g g' -> same_bodies (heap g) (heap g').
Proof.
  intros HM o. destruct (heap g !! o) as [x|] eqn:Ho.
  - destruct (m_some _ _ _ _ HM o x Ho) as (x' & -> & Hb & _). by rw /= Hb.
  - by rw (m_none _ _ _ _ HM o Ho).
Qed.

Lemma marking_nonwhite E new g g' o : marking E new g g' -> nonwhite g o -> nonwhite g' o.
Proof.
  intros HM (x & Hx & Hw). destruct (m_some _ _ _ _ HM o x Hx) as (x' & Hx' & _ & [Heq|(? & ? & _)]); exists x'; (split; [done|congruence]).
Qed.

(** A marked object is not changed. *)
Lemma marking_kept E new g g' o x : marking E new g g' -> heap g !! o = Some x -> iswhite (marked x) = false -> heap g' !! o = Some x.
Proof. intros HM Hx Hw. destruct (m_some _ _ _ _ HM o x Hx) as (x' & Hx' & _ & [->|(? & _)]); [done|congruence]. Qed.

Lemma marking_waiting E new g g' o : marking E new g g' -> waiting g o -> waiting g' o.
Proof. intros HM (x & Hx & Hg & Ht). exists x. split; [|done]. by apply (marking_kept _ _ _ _ _ _ HM Hx), isgray_nonwhite. Qed.

Lemma marking_covered E new g g' o : marking E new g g' -> covered g o -> covered g' o.
Proof.
  intros HM (x & Hx & Hr). destruct (m_some _ _ _ _ HM o x Hx) as (x' & Hx' & Hb & _). exists x'. split; [done|].
  rw Hb (refs_same (heap g)); [by eapply marking_bodies|]. eapply Forall_impl; [done|]. intros c. by apply (marking_nonwhite _ _ _ _ _ HM).
Qed.

Lemma marking_white E new g g' o : marking E new g g' -> is_white g' o -> is_white g o.
Proof.
  intros HM (x' & Hx' & Hw). destruct (heap g !! o) as [x|] eqn:Hx; [|by rw (m_none _ _ _ _ HM o Hx) in Hx'].
  destruct (m_some _ _ _ _ HM o x Hx) as (y & Hy & _ & [Heq|(? & ? & _)]); [|congruence]. exists x. split; [done|congruence].
Qed.

Lemma marking_refl E g : marking E [] g g.
Proof.
  split; try done.
  - by destruct g.
  - intros o x Hx. exists x. split_and!; try done. by left.
  - constructor.
  - by intros o ?%elem_of_nil.
  - intros o x Hw Hx Hn. exfalso. apply (white_nonwhite g o); [done|]. by exists x.
Qed.

Lemma well_marked_mono E new1 new2 g1 g2 o x : marking E new2 g1 g2 -> well_marked g1 new1 o x -> well_marked g2 (new2 ++ new1) o x.
Proof.
  intros HM [(Hin & ?)|[?|(Hc & ?)]]; [left|by right; left|right; right].
  - split; [|done]. apply elem_of_app. by right.
  - split; [|done]. by eapply marking_covered.
Qed.

Lemma marking_trans E1 E2 new1 new2 g1 g2 g3 : marking E1 new1 g1 g2 -> marking E2 new2 g2 g3 -> marking (E1 ++ E2) (new2 ++ new1) g1 g3.
Proof.
  intros H12 H23. split.
  - rw (m_frame _ _ _ _ H23) {1 2 3}(m_frame _ _ _ _ H12). by destruct g1, g2, g3.
  - intros o Ho. by apply (m_none _ _ _ _ H23), (m_none _ _ _ _ H12).
  - intros o x Hx. destruct (m_some _ _ _ _ H12 o x Hx) as (y & Hy & Hby & Hmy).
    destruct (m_some _ _ _ _ H23 o y Hy) as (z & Hz & Hbz & Hmz). exists z. split; [done|]. split; [congruence|].
    destruct Hmy as [->|(Hw & Hw' & Hf)]; [done|]. right. destruct Hmz as [->|(? & _)]; [done|congruence].
  - rw (m_gray _ _ _ _ H23) (m_gray _ _ _ _ H12) app_assoc //.
  - apply NoDup_app. split; [apply H23|]. split; [|apply H12]. intros o Ho2 Ho1.
    apply (white_nonwhite g2 o); [by apply (m_fresh _ _ _ _ H23)|]. apply waiting_nonwhite. by apply (m_fresh _ _ _ _ H12).
  - intros o [Ho|Ho]%elem_of_app.
    + destruct (m_fresh _ _ _ _ H23 o Ho) as [Hw ?]. split; [by eapply marking_white|done].
    + destruct (m_fresh _ _ _ _ H12 o Ho) as [? Hw]. split; [done|by eapply marking_waiting].
  - intros o z Hw Hz Hnz. destruct Hw as (x & Hx & Hwx). destruct (m_some _ _ _ _ H12 o x Hx) as (y & Hy & _).
    destruct (iswhite (marked y)) eqn:Hwy.
    + destruct (m_done _ _ _ _ H23 o z) as [?|Hwm]; [by exists y|done|done|left; apply elem_of_app; by right|right].
      destruct Hwm as [(Hin & ?)|[?|(Hc & ?)]]; [left|by right; left|by right; right]. split; [apply elem_of_app; by left|done].
    + assert (z = y) as -> by (pose proof (marking_kept _ _ _ _ _ _ H23 Hy Hwy); congruence).
      destruct (m_done _ _ _ _ H12 o y) as [?|Hwm]; [by exists x|done|done|left; apply elem_of_app; by left|right].
      by eapply well_marked_mono.
Qed.

(** An object that was left incomplete is complete. *)
Lemma marking_complete E new g g' o x : marking (o :: E) new g g' -> heap g' !! o = Some x -> well_marked g' new o x -> marking E new g g'.
Proof.
  intros HM Hx Hwm. split; try apply HM. intros o' x' Hw Hx' Hn. destruct (decide (o' = o)) as [->|Hne]; [right; by simplify_eq|].
  destruct (m_done _ _ _ _ HM o' x' Hw Hx' Hn) as [[?|?]%elem_of_cons|?]; [done|by left|by right].
Qed.

Lemma marking_weaken E E' new g g' : marking E new g g' -> (forall o, o ∈ E -> o ∈ E') -> marking E' new g g'.
Proof.
  intros HM HE. split; try apply HM. intros o x Hw Hx Hn. destruct (m_done _ _ _ _ HM o x Hw Hx Hn); [left; by apply HE|by right].
Qed.

Lemma marking_white_set E new g g' : marking E new g g' -> white_set g' ⊆ white_set g.
Proof. intros HM o. rw !elem_white_set. by apply (marking_white _ _ _ _ _ HM). Qed.

(** No more objects wait than were white before. *)
Lemma marking_measure E new g g' : marking E new g g' ->
  (length (gray g') + size (white_set g') <= length (gray g) + size (white_set g))%nat.
Proof.
  intros HM. rw (m_gray _ _ _ _ HM) length_app.
  assert (length new + size (white_set g') <= size (white_set g))%nat; [|lia].
  rw -(size_list_to_set (C := gset loc) new); [apply HM|]. rw -size_union.
  { intros o Ho Hw. apply elem_of_list_to_set in Ho. apply elem_white_set in Hw. apply (white_nonwhite g' o); [done|]. apply waiting_nonwhite. by apply (m_fresh _ _ _ _ HM). }
  apply subseteq_size. intros o [Ho|Ho]%elem_of_union; [apply elem_of_list_to_set in Ho; apply elem_white_set; by apply (m_fresh _ _ _ _ HM)|].
  by apply (marking_white_set _ _ _ _ HM).
Qed.
End marking.

(** ** When marking is possible *)

(** Before the sweep: there are no dead objects, and no pointer to a freed one. *)
Record mark_ok g : Prop := {
  k_dead o x : heap g !! o = Some x -> isdead (currentwhite g) (marked x) = false;
  k_sane o x : heap g !! o = Some x -> iswhite (marked x) = true -> isblack (marked x) = false;
  k_refs o x : heap g !! o = Some x -> Forall (fun c => is_Some (heap g !! c)) (refs (heap g) (body x));
  k_upval o x v : heap g !! o = Some x -> body x = BUpval v -> exists w, upval_value (heap g) v = Ok w
}.

Lemma nonwhite_alive w m : iswhite m = false -> isdead w m = false.
Proof. rw /iswhite /isdead orb_false_iff => -[-> ->]. done. Qed.

Lemma upval_value_same h h' v : same_bodies h h' -> upval_value h' v = upval_value h v.
Proof.
  intros Hb. destruct v as [th i|]; [|done]. rw /= /stack_slot. specialize (Hb th).
  destruct (h !! th) as [x|], (h' !! th) as [x'|]; try done. simpl in *. injection Hb as ->. done.
Qed.

Lemma marking_back E new g g' o x' : marking E new g g' -> heap g' !! o = Some x' ->
  exists x, heap g !! o = Some x /\ body x' = body x /\ (x' = x \/ iswhite (marked x) = true /\ iswhite (marked x') = false /\ same_flags (marked x) (marked x')).
Proof.
  intros HM Hx'. destruct (heap g !! o) as [x|] eqn:Hx; [|by rw (m_none _ _ _ _ HM o Hx) in Hx'].
  destruct (m_some _ _ _ _ HM o x Hx) as (y & Hy & Hb & Hm). simplify_eq. by exists x.
Qed.

Lemma marking_white_eq E new g g' : marking E new g g' -> currentwhite g' = currentwhite g.
Proof. intros HM. by rw (m_frame _ _ _ _ HM). Qed.

Lemma marking_ok E new g g' : mark_ok g -> marking E new g g' -> mark_ok g'.
Proof.
  intros Hok HM. pose proof (marking_bodies _ _ _ _ HM) as Hb. split.
  - intros o x' Hx'. rw (marking_white_eq _ _ _ _ HM). destruct (marking_back _ _ _ _ _ _ HM Hx') as (x & Hx & _ & [Heq|(_ & ? & _)]); [subst x'; by apply (k_dead _ Hok o)|].
    by apply nonwhite_alive.
  - intros o x' Hx' Hw. destruct (marking_back _ _ _ _ _ _ HM Hx') as (x & Hx & _ & [Heq|(_ & ? & _)]); [subst x'; by apply (k_sane _ Hok o)|congruence].
  - intros o x' Hx'. destruct (marking_back _ _ _ _ _ _ HM Hx') as (x & Hx & Hbx & _). rw Hbx (refs_same _ _ _ Hb).
    eapply Forall_impl; [by apply (k_refs _ Hok o x)|]. intros c [y Hy]. destruct (m_some _ _ _ _ HM c y Hy) as (z & ? & _). by exists z.
  - intros o x' v Hx' Hv. destruct (marking_back _ _ _ _ _ _ HM Hx') as (x & Hx & Hbx & _).
    rw (upval_value_same _ _ _ Hb). apply (k_upval _ Hok o x v Hx). congruence.
Qed.

(** ** Marking one object *)

Lemma put_bodies g o x m : heap g !! o = Some x -> same_bodies (heap g) (heap (put g o (mkObject m (body x)))).
Proof. intros Hx o'. simpl. destruct (decide (o' = o)) as [->|]; [by rw lookup_insert_eq Hx|by rw lookup_insert_ne]. Qed.

(** An object gets a colour; it has yet to be completed. *)
Lemma marking_put g o x m : heap g !! o = Some x -> iswhite (marked x) = true -> iswhite m = false -> same_flags (marked x) m ->
  marking [o] [] g (put g o (mkObject m (body x))).
Proof.
  intros Hx Hw Hm Hf. split; simpl; try done.
  - intros o' Ho'. rw lookup_insert_ne //. congruence.
  - intros o' x' Hx'. destruct (decide (o' = o)) as [->|].
    + assert (x' = x) as -> by congruence. exists (mkObject m (body x)). rw lookup_insert_eq. split_and!; try done. by right.
    + exists x'. rw lookup_insert_ne //. split_and!; try done. by left.
  - constructor.
  - by intros o' ?%elem_of_nil.
  - intros o' x' Hw' Hx' Hn. destruct (decide (o' = o)) as [->|]; [left; apply list_elem_of_here|].
    rw lookup_insert_ne // in Hx'. exfalso. apply (white_nonwhite g o'); [done|]. by exists x'.
Qed.

Lemma put_nonwhite g o x c : iswhite (marked x) = false -> nonwhite g c -> nonwhite (put g o x) c.
Proof.
  intros Hm (y & Hy & ?). destruct (decide (c = o)) as [->|]; [exists x; by rw /= lookup_insert_eq|]. exists y. by rw /= lookup_insert_ne.
Qed.

(** It may change its colour while it is not complete. *)
Lemma marking_recolour new g g' o x m : marking [o] new g g' -> is_white g o -> o ∉ new -> heap g' !! o = Some x ->
  iswhite (marked x) = false -> iswhite m = false -> same_flags (marked x) m -> marking [o] new g (put g' o (mkObject m (body x))).
Proof.
  intros HM Hw Hni Hx Hwx Hm Hf. pose proof (put_bodies g' o x m Hx) as Hb.
  split; try apply HM.
  - rw (m_frame _ _ _ _ HM) /put /=. done.
  - intros o' Ho'. rw /= lookup_insert_ne; [|by apply (m_none _ _ _ _ HM)]. intros <-. by rw (m_none _ _ _ _ HM _ Ho') in Hx.
  - intros o' x' Hx'. destruct (m_some _ _ _ _ HM o' x' Hx') as (y & Hy & Hby & Hmy). destruct (decide (o' = o)) as [->|].
    + exists (mkObject m (body x)). rw /= lookup_insert_eq. simplify_eq. split_and!; try done. right.
      destruct Hmy as [->|(? & ? & Hf')]; [destruct Hw as (z & ? & ?); congruence|]. split_and!; try done.
      destruct Hf as (? & ? & ? & ?), Hf' as (? & ? & ? & ?). split_and!; simpl; congruence.
    + exists y. by rw /= lookup_insert_ne.
  - intros o' Ho'. destruct (m_fresh _ _ _ _ HM o' Ho') as [? (y & Hy & ?)]. split; [done|]. exists y. rw /= lookup_insert_ne //. congruence.
  - intros o' x' Hw' Hx' Hn. simpl in Hx'. destruct (decide (o' = o)) as [->|Hne]; [left; apply list_elem_of_here|]. rw lookup_insert_ne // in Hx'.
    destruct (m_done _ _ _ _ HM o' x' Hw' Hx' Hn) as [?|Hwm]; [by left|right].
    destruct Hwm as [?|[?|((y & Hy & Hr) & ?)]]; [by left|by right; left|right; right]. split; [|done]. exists y. rw /= lookup_insert_ne //. split; [done|].
    rw (refs_same _ _ _ Hb). eapply Forall_impl; [done|]. intros c. by apply put_nonwhite.
Qed.

(** Marking an object leaves fewer white ones. *)
Lemma marking_smaller E new g g' o : marking E new g g' -> is_white g o -> nonwhite g' o -> (size (white_set g') < size (white_set g))%nat.
Proof.
  intros HM Hw Hn. apply subset_size. split; [by eapply marking_white_set|]. intros Hsub.
  apply (white_nonwhite g' o); [|done]. by apply elem_white_set, Hsub, elem_white_set.
Qed.

Lemma put_put g o x y : put (put g o x) o y = put g o y.
Proof. rw /put /= insert_insert_eq //. Qed.

Lemma set_marks_eq g o f x : heap g !! o = Some x -> set_marks g o f = Ok (put g o (mkObject (f (marked x)) (body x))).
Proof. intros Hx. rw /set_marks /get Hx //. Qed.

Lemma get_eq g o x : heap g !! o = Some x -> get g o = Ok x.
Proof. intros Hx. rw /get Hx //. Qed.

(** An operation that marks: it succeeds, and the objects [os] are marked afterwards. *)
Definition marks_all (os : list loc) g (r : res global_State) : Prop :=
  exists g' new, r = Ok g' /\ marking [] new g g' /\ Forall (nonwhite g') os.

Lemma marks_all_nil g : marks_all [] g (Ok g).
Proof. exists g, []. split; [done|]. split; [apply marking_refl|done]. Qed.

Lemma marks_all_bind os1 os2 g r k : marks_all os1 g r -> (forall g' new, marking [] new g g' -> marks_all os2 g' (k g')) ->
  marks_all (os1 ++ os2) g (g' ← r; k g').
Proof.
  intros (g1 & new1 & -> & HM1 & Hn1) Hk. destruct (Hk g1 new1 HM1) as (g2 & new2 & Hr2 & HM2 & Hn2).
  exists g2, (new2 ++ new1). rw Ok_bind. split; [done|]. split; [apply (marking_trans [] [] _ _ _ _ _ HM1 HM2)|].
  apply Forall_app. split; [|done]. eapply Forall_impl; [exact Hn1|]. intros o. by apply (marking_nonwhite _ _ _ _ _ HM2).
Qed.

Definition allocated g (o : loc) : Prop := is_Some (heap g !! o).

Lemma marking_allocated E new g g' o : marking E new g g' -> allocated g o -> allocated g' o.
Proof. intros HM [x Hx]. destruct (m_some _ _ _ _ HM o x Hx) as (x' & ? & _). by exists x'. Qed.

(** Completing an object once all that it points to is marked. *)
Lemma marking_finish new g g' o x : marking [o] new g g' -> heap g' !! o = Some x -> Forall (nonwhite g') (refs (heap g') (body x)) ->
  traversable (body x) = false -> is_string (body x) = false -> isblack (marked x) = negb (open_upval (body x)) -> marking [] new g g'.
Proof. intros HM Hx Hr Ht Hs Hb. eapply marking_complete; [done|done|]. right; right. split; [|done]. by exists x. Qed.

(** An object is put into the list of gray ones. *)
Lemma marking_push g g1 o : marking [o] [] g g1 -> is_white g o -> waiting g1 o ->
  marking [] [o] g (set_lists g1 (o :: gray g) (grayagain g) (weak g)).
Proof.
  intros HM Hw Hg. split; try apply HM; try done.
  - rw {1}(m_frame _ _ _ _ HM). done.
  - apply NoDup_singleton.
  - by intros o' ->%list_elem_of_singleton.
  - intros o' x Hw' Hx Hn. right. destruct (m_done _ _ _ _ HM o' x Hw' Hx Hn) as [->%list_elem_of_singleton|Hwm].
    + left. split; [apply list_elem_of_here|]. destruct Hg as (y & Hy & ?). by simplify_eq/=.
    + destruct Hwm as [(Hin & _)|[?|?]]; [by apply elem_of_nil in Hin|by right; left|by right; right].
Qed.

Section reallymark.
Context (fuel : nat) (IH : forall g o, mark_ok g -> is_white g o -> (size (white_set g) <= fuel)%nat -> marks_all [o] g (reallymarkobject_ fuel g o)).

Let mark_ g (t : loc) : res global_State := x ← get g t; if iswhite (marked x) then reallymarkobject_ fuel g t else Ok g.

Lemma mark_inner g t : mark_ok g -> allocated g t -> (size (white_set g) <= fuel)%nat -> marks_all [t] g (mark_ g t).
Proof using IH.
  intros Hok [x Hx] Hsz. rw /mark_ (get_eq _ _ _ Hx) Ok_bind. destruct (iswhite (marked x)) eqn:Hw.
  - apply IH; [done| |done]. by exists x.
  - exists g, []. split; [done|]. split; [apply marking_refl|]. apply Forall_singleton. by exists x.
Qed.

Let mark_each (ts : list loc) : global_State -> res global_State := foldr (fun t k g => g ← mark_ g t; k g) Ok ts.

Lemma mark_inners g ts : mark_ok g -> Forall (allocated g) ts -> (size (white_set g) <= fuel)%nat ->
  marks_all ts g (mark_each ts g).
Proof using IH.
  revert g. induction ts as [|t ts IHts]; intros g Hok Hts Hsz; [apply marks_all_nil|].
  apply Forall_cons in Hts as [Ht Hts]. apply (marks_all_bind [t] ts); [by apply mark_inner|]. intros g' new HM.
  apply IHts; [by eapply marking_ok| |].
  - eapply Forall_impl; [exact Hts|]. intros o. by apply (marking_allocated _ _ _ _ _ HM).
  - pose proof (subseteq_size _ _ (marking_white_set _ _ _ _ HM)). lia.
Qed.
Lemma mark_children g o x m ts : mark_ok g -> heap g !! o = Some x -> iswhite (marked x) = true -> iswhite m = false ->
  same_flags (marked x) m -> (size (white_set g) <= S fuel)%nat -> Forall (allocated g) ts ->
  let g1 := put g o (mkObject m (body x)) in
  exists g2 new, mark_each ts g1 = Ok g2 /\ marking [o] new g g2 /\ (o ∉ new) /\
    Forall (nonwhite g2) ts /\ heap g2 !! o = Some (mkObject m (body x)).
Proof using IH.
  intros Hok Hx Hw Hm Hf Hsz Hts g1. pose proof (marking_put g o x m Hx Hw Hm Hf : marking [o] [] g g1) as HM1.
  assert (heap g1 !! o = Some (mkObject m (body x))) as Ho1 by (rw /g1 /= lookup_insert_eq //).
  destruct (mark_inners g1 ts) as (g2 & new & Hr & HM2 & Hn).
  - by eapply marking_ok.
  - eapply Forall_impl; [exact Hts|]. intros c. by apply (marking_allocated _ _ _ _ _ HM1).
  - assert (size (white_set g1) < size (white_set g))%nat; [|lia]. eapply (marking_smaller _ _ _ _ o HM1); [by exists x|]. by eexists.
  - exists g2, new. split; [done|]. split; [|split; [|split; [done|]]].
    + pose proof (marking_trans _ _ _ _ _ _ _ HM1 HM2) as HM. rw !app_nil_r in HM. apply HM.
    + intros Hin. apply (white_nonwhite g1 o); [by apply (m_fresh _ _ _ _ HM2)|]. by eexists.
    + by apply (marking_kept _ _ _ _ _ _ HM2 Ho1).
Qed.

Lemma bind_ret (r : res global_State) : (g ← r; Ok g) = r.
Proof. by destruct r. Qed.

Lemma reallymark_step g o : mark_ok g -> is_white g o -> (size (white_set g) <= S fuel)%nat -> marks_all [o] g (reallymarkobject_ (S fuel) g o).
Proof using IH.
  intros Hok (x & Hx & Hw) Hsz. cbn [reallymarkobject_]. rw (get_eq _ _ _ Hx) Ok_bind. rw Hw (k_dead _ Hok _ _ Hx) /=.
  rw (set_marks_eq _ _ _ _ Hx) Ok_bind.
  assert (forall new g', marking [] new g g' -> nonwhite g' o -> marks_all [o] g (Ok g')) as Hdone.
  { intros new g' HM Hn. exists g', new. split; [done|]. split; [done|by apply Forall_singleton]. }
  pose proof (k_refs _ Hok _ _ Hx) as Hrefs. pose proof (k_sane _ Hok _ _ Hx Hw) as Hblack. pose proof (k_upval _ Hok o x) as Hup.
  destruct x as [mk b]. simpl in *. pose proof (marking_put g o (mkObject mk b) (white2gray mk) Hx Hw eq_refl ltac:(done)) as HM1. simpl in HM1.
  assert (forall m', heap (put g o (mkObject m' b)) !! o = Some (mkObject m' b)) as Ho1 by (intros; rw /= lookup_insert_eq //).
  assert (marks_all [o] g (Ok (set_lists (put g o (mkObject (white2gray mk) b)) (o :: gray g) (grayagain g) (weak g))) \/ traversable b = false) as Htrav.
  { destruct (traversable b) eqn:Ht; [left|by right]. apply (Hdone [o]); [|eexists; split; [apply (Ho1 _)|done]].
    apply marking_push; try done; [by exists (mkObject mk b)|]. eexists. split; [apply Ho1|]. split; [by apply white2gray_gray|done]. }
  destruct b as [s|mt e|v|e us|e p us|mt a ns|src k us ps ls|gt st top cis ups]; try (by destruct Htrav).
  - apply (Hdone []); [|by eexists]. eapply marking_complete; [done|apply Ho1|]. right; left. by split; [|apply white2gray_gray].
  - rw (set_marks_eq _ _ _ _ (Ho1 _)) Ok_bind put_put.
    destruct (mark_children g o (mkObject mk (BUdata mt e)) (gray2black (white2gray mk)) (oref mt ++ [e])) as (g2 & new & Hr & HM & Hni & Hn & Ho2); try done.
    simpl in Hr, Ho2. match goal with |- marks_all _ _ ?r => assert (r = Ok g2) as -> end.
    { rw -Hr. destruct mt as [m|]; simpl; [|by rw bind_ret].
      match goal with |- _ = mark_ ?G m ≫= _ => change (mark_ G m ≫= (fun g => mark_ g e) = mark_ G m ≫= (fun g => mark_ g e ≫= fun g => Ok g)) end.
      destruct (mark_ _ m); simpl; [by rw bind_ret|done]. }
    apply (Hdone new); [|by eexists]. by eapply marking_finish.
  - destruct (Hup v Hx eq_refl) as (w & Hval). pose proof (marking_bodies _ _ _ _ HM1) as Hsb.
    rw (upval_value_same _ _ v Hsb) Hval Ok_bind.
    destruct (mark_children g o (mkObject mk (BUpval v)) (white2gray mk) (vref w)) as (g2 & new & Hr & HM & Hni & Hn & Ho2); try done.
    { by rw /= /upval_refs Hval in Hrefs. }
    simpl in Hr, Ho2. match goal with |- marks_all _ _ (_ ← ?r; _) => assert (r = Ok g2) as -> end.
    { rw -Hr. destruct w; try done. by rw /= bind_ret. }
    assert (upval_refs (heap g2) v = vref w) as Hrv by rw /upval_refs (upval_value_same _ _ _ (marking_bodies _ _ _ _ HM)) Hval //.
    rw Ok_bind. destruct v as [th i|v].
    + apply (Hdone new); [|by eexists]. eapply marking_finish; try done. by rw [refs _ _]Hrv.
    + rw (set_marks_eq _ _ _ _ Ho2) /=. apply (Hdone new); [|eexists; by rw /= lookup_insert_eq].
      simpl in Hval. assert (w = v) as -> by congruence.
      eapply (marking_finish new g _ o); [|rw /= lookup_insert_eq //| | | |]; try done.
      { apply (marking_recolour _ _ _ _ _ (gray2black (white2gray mk)) HM ltac:(by eexists) Hni Ho2); done. }
      eapply Forall_impl; [exact Hn|]. intros c. by apply put_nonwhite.
Qed.
End reallymark.

(** ** The operations that mark *)

Lemma reallymark_spec fuel g o : mark_ok g -> is_white g o -> (size (white_set g) <= fuel)%nat -> marks_all [o] g (reallymarkobject_ fuel g o).
Proof.
  revert g o. induction fuel as [|fuel IH]; intros g o Hok Hw Hsz; [|by apply reallymark_step].
  exfalso. apply elem_white_set in Hw. assert (size (white_set g) = 0%nat) as Hz%size_empty_inv by lia. set_solver.
Qed.

Lemma white_set_size g : (size (white_set g) <= size (heap g))%nat.
Proof. rw -(size_dom (D := gset loc)). apply subseteq_size. rw /white_set. apply dom_filter_subseteq. Qed.

Lemma reallymarkobject_spec g o : mark_ok g -> is_white g o -> marks_all [o] g (reallymarkobject g o).
Proof. intros Hok Hw. apply reallymark_spec; [done|done|]. apply white_set_size. Qed.

Lemma markobject_spec g o : mark_ok g -> allocated g o -> marks_all [o] g (markobject g o).
Proof.
  intros Hok [x Hx]. rw /markobject (get_eq _ _ _ Hx) Ok_bind. destruct (iswhite (marked x)) eqn:Hw.
  - apply reallymarkobject_spec; [done|]. by exists x.
  - exists g, []. split; [done|]. split; [apply marking_refl|]. apply Forall_singleton. by exists x.
Qed.

Lemma markvalue_spec g v : mark_ok g -> Forall (allocated g) (vref v) -> marks_all (vref v) g (markvalue g v).
Proof. intros Hok Ha. destruct v as [| |o]; try apply marks_all_nil. apply markobject_spec; [done|]. by apply (Forall_singleton (allocated g) o). Qed.

Lemma marknull_spec g o : mark_ok g -> Forall (allocated g) (oref o) -> marks_all (oref o) g (marknull g o).
Proof. intros Hok Ha. destruct o as [o|]; [|apply marks_all_nil]. apply markobject_spec; [done|]. by apply (Forall_singleton (allocated g) o). Qed.

(** The objects that a loop has yet to mark are still there. *)
Lemma marking_allocateds new g g' os : marking [] new g g' -> Forall (allocated g) os -> Forall (allocated g') os.
Proof. intros HM Ha. eapply Forall_impl; [exact Ha|]. intros o. apply (marking_allocated _ _ _ _ _ HM). Qed.

Lemma markobjects_spec g os : mark_ok g -> Forall (allocated g) os -> marks_all os g (markobjects g os).
Proof.
  revert g. induction os as [|o os IH]; intros g Hok Ha; [apply marks_all_nil|]. apply Forall_cons in Ha as [Ho Hos].
  apply (marks_all_bind [o] os); [by apply markobject_spec|]. intros g' new HM. apply IH; [by eapply marking_ok|by eapply marking_allocateds].
Qed.

Lemma markmts_spec g ms : mark_ok g -> Forall (allocated g) (ms ≫= oref) -> marks_all (ms ≫= oref) g (markmts g ms).
Proof.
  revert g. induction ms as [|m ms IH]; intros g Hok Ha; [apply marks_all_nil|]. simpl in Ha. apply Forall_app in Ha as [Hm Hms].
  apply (marks_all_bind (oref m)); [by apply marknull_spec|]. intros g' new HM. apply IH; [by eapply marking_ok|by eapply marking_allocateds].
Qed.

(** A string becomes gray. *)
Abbreviation string_at := (has (fun x => is_string (body x) = true)).

Lemma stringmark_spec g o : mark_ok g -> string_at g o -> marks_all [o] g (set_marks g o stringmark).
Proof.
  intros Hok (x & Hx & Hs). rw (set_marks_eq _ _ _ _ Hx). destruct (iswhite (marked x)) eqn:Hw.
  - assert (heap (put g o (mkObject (stringmark (marked x)) (body x))) !! o = Some (mkObject (stringmark (marked x)) (body x))) as Ho
      by (simpl; apply lookup_insert_eq).
    exists (put g o (mkObject (stringmark (marked x)) (body x))), []. split; [done|]. split; [|apply Forall_singleton; by eexists].
    eapply marking_complete; [by apply marking_put|exact Ho|]. right; left. split; [done|]. by apply white2gray_gray, (k_sane _ Hok o).
  - exists g, []. split; [|split; [apply marking_refl|apply Forall_singleton; by exists x]].
    f_equal. assert (mkObject (stringmark (marked x)) (body x) = x) as ->.
    { destruct x as [[w0 w1 ? ? ? ? ?] ?]. rw /iswhite /= in Hw. apply orb_false_iff in Hw as [-> ->]. done. }
    rw /put insert_id //. by destruct g.
Qed.

Lemma marking_string E new g g' o : marking E new g g' -> string_at g o -> string_at g' o.
Proof. intros HM (x & Hx & Hs). destruct (m_some _ _ _ _ HM o x Hx) as (x' & Hx' & Hb & _). exists x'. by rw Hb. Qed.

Lemma markstrings_spec g os : mark_ok g -> Forall (string_at g) (os ≫= oref) -> marks_all (os ≫= oref) g (markstrings g os).
Proof.
  revert g. induction os as [|[o|] os IH]; intros g Hok Ha; [apply marks_all_nil| |by apply IH]. simpl in Ha. apply Forall_cons in Ha as [Ho Hos].
  apply (marks_all_bind [o]); [by apply stringmark_spec|]. intros g' new HM. apply IH; [by eapply marking_ok|].
  eapply Forall_impl; [exact Hos|]. intros c. apply (marking_string _ _ _ _ _ HM).
Qed.
