(* ===== verification/LuaGCInv.v ===== *)
(** LuaGCInv: what holds of the objects of Lua at any time: the lists of lgc.c hold all of
    them, and open upvalues belong to threads. *)

From Corelib Require Import ssreflect.
From stdpp Require Import base list gmap numbers strings.
From Stdlib Require Import ZArith Lia.
From S2P Require Import Prelude LuaHeap LuaGC LuaGCMark.

Implicit Type g : global_State.

(** ** The structure of the heap *)

(** What the lists depend on: the kind of an object, and how threads and open upvalues refer to each other. *)
Inductive skel :=
| SkString
| SkUdata
| SkTable
| SkOpen (th : loc) (i : nat)
| SkThread (size top : nat) (ups : list loc)
| SkOther.

#[export] Instance skel_eq_dec : EqDecision skel.
Proof. solve_decision. Defined.

Definition skel_of (b : gcbody) : skel :=
  match b with
  | BString _ => SkString
  | BUdata _ _ => SkUdata
  | BTable _ _ _ => SkTable
  | BUpval (UOpen th i) => SkOpen th i
  | BThread _ st top _ ups => SkThread (length st) top ups
  | _ => SkOther
  end.
Definition sk g (o : loc) : option skel := (skel_of ∘ body) <$> heap g !! o.

(** The list that an object of a kind is in. *)
Definition home g (k : skel) : list loc :=
  match k with
  | SkString => concat (strt g)
  | SkUdata => rootgc g ++ tmudata g
  | SkOpen _ _ => uvhead g
  | _ => rootgc g
  end.
Definition in_root (k : skel) : Prop := match k with SkString | SkOpen _ _ => False | _ => True end.

Record shape g : Prop := {
  s_home o k : sk g o = Some k -> o ∈ home g k;
  s_root o : o ∈ rootgc g -> exists k, sk g o = Some k /\ in_root k;
  s_strt o : o ∈ concat (strt g) -> sk g o = Some SkString;
  s_tmu o : o ∈ tmudata g -> sk g o = Some SkUdata;
  s_uv o : o ∈ uvhead g -> exists th i, sk g o = Some (SkOpen th i);
  s_nodup : NoDup (rootgc g ++ tmudata g);
  s_nodup_strt : NoDup (concat (strt g));
  s_nodup_uv : NoDup (uvhead g);
  s_main : exists pre post, rootgc g = pre ++ mainthread g :: post /\ Forall (fun o => sk g o = Some SkUdata) post;
  s_mainthread : exists n top ups, sk g (mainthread g) = Some (SkThread n top ups);
  s_running : exists n top ups, sk g (running g) = Some (SkThread n top ups);
  s_thread th n top ups : sk g th = Some (SkThread n top ups) ->
    NoDup ups /\ (top <= n)%nat /\ Forall (fun uv => exists i, sk g uv = Some (SkOpen th i)) ups;
  s_open uv th i : sk g uv = Some (SkOpen th i) -> exists n top ups, sk g th = Some (SkThread n top ups) /\ uv ∈ ups /\ (i < top)%nat
}.

(** The lists that the structure depends on. *)
Definition same_lists g g' : Prop :=
  rootgc g' = rootgc g /\ concat (strt g') = concat (strt g) /\ tmudata g' = tmudata g /\ uvhead g' = uvhead g /\
  mainthread g' = mainthread g /\ running g' = running g.

Lemma same_lists_home g g' k : same_lists g g' -> home g' k = home g k.
Proof. intros (H1 & H2 & H3 & H4 & _). destruct k; rw /= ?H1 ?H2 ?H3 ?H4 //. Qed.

Lemma shape_ext g g' : (forall o, sk g' o = sk g o) -> same_lists g g' -> shape g -> shape g'.
Proof.
  intros Hsk Hl [? ? ? ? ? ? ? ? (pre & post & ? & ?) ? ? Ht Ho]. pose proof Hl as (H1 & H2 & H3 & H4 & H5 & H6).
  split; rw ?H1 ?H2 ?H3 ?H4 ?H5 ?H6 ?Hsk //; try (by intros o; rw ?Hsk; auto).
  - intros o k. rw Hsk (same_lists_home _ _ _ Hl). auto.
  - exists pre, post. split; [done|]. eapply Forall_impl; [done|]. intros o. by rw Hsk.
  - intros th n top ups. rw Hsk => /Ht [? [? HF]]. split_and!; try done. eapply Forall_impl; [done|]. intros uv [i ?]. exists i. by rw Hsk.
  - intros uv th i. rw !Hsk. apply Ho.
Qed.

(** ** Colours and types *)

Abbreviation alive := (fun g => has (fun x => isdead (currentwhite g) (marked x) = false) g).

(** One white is current. *)
Definition one_white (w : marks) : Prop := exists b f, w = Marks b (negb b) false false false f false.

Definition is_udata (b : gcbody) : bool := match b with BUdata _ _ => true | _ => false end.
Definition sane_object (x : GCObject) : Prop :=
  white0 (marked x) && white1 (marked x) = false /\ iswhite (marked x) && isblack (marked x) = false /\ never_black (body x) && isblack (marked x) = false /\
  is_udata (body x) && isgray (marked x) = false.
Definition sane g : Prop := forall o x, heap g !! o = Some x -> sane_object x.

(** Pointers that are used at a type. *)
Definition typed g (b : gcbody) : Prop :=
  match b with
  | BUdata m _ => Forall (fun o => sk g o = Some SkTable) (oref m)
  | BTable m _ ns => Forall (fun o => sk g o = Some SkTable) (oref m) /\ forallb node_ok ns = true
  | BProto s _ us _ ls => Forall (fun o => sk g o = Some SkString) (oref s ++ (us ≫= oref) ++ (ls ≫= oref))
  | _ => True
  end.

(** While objects are marked, none is dead, and there is no pointer to a freed one. *)
Record mbase g : Prop := {
  b_shape : shape g;
  b_white : one_white (currentwhite g);
  b_sane : sane g;
  b_dead o x : heap g !! o = Some x -> isdead (currentwhite g) (marked x) = false;
  b_refs o x : heap g !! o = Some x -> Forall (allocated g) (refs (heap g) (body x));
  b_typed o x : heap g !! o = Some x -> typed g (body x);
  b_fixed o x : heap g !! o = Some x -> fixed (marked x) = true -> skel_of (body x) = SkString \/ o = mainthread g
}.

(** An open upvalue has a value. *)
Lemma sk_lookup g o x : heap g !! o = Some x -> sk g o = Some (skel_of (body x)).
Proof. intros Hx. by rw /sk Hx. Qed.

Lemma sk_inv g o k : sk g o = Some k -> exists x, heap g !! o = Some x /\ skel_of (body x) = k.
Proof. rw /sk. destruct (heap g !! o) as [x|]; [|done]. intros [= <-]. by exists x. Qed.

Lemma skel_thread b n top ups : skel_of b = SkThread n top ups -> exists gt st cis, b = BThread gt st top cis ups /\ length st = n.
Proof. destruct b as [| |[]| | | | |]; try done. intros [= <- <- <-]. eauto. Qed.
Lemma skel_open b th i : skel_of b = SkOpen th i -> b = BUpval (UOpen th i).
Proof. destruct b as [| |[]| | | | |]; try done. by intros [= <- <-]. Qed.
Lemma skel_udata b : skel_of b = SkUdata -> exists m e, b = BUdata m e.
Proof. destruct b as [| |[]| | | | |]; try done. eauto. Qed.
Lemma skel_table b : skel_of b = SkTable -> exists m a ns, b = BTable m a ns.
Proof. destruct b as [| |[]| | | | |]; try done. eauto. Qed.
Lemma skel_string b : skel_of b = SkString -> exists s, b = BString s.
Proof. destruct b as [| |[]| | | | |]; try done. eauto. Qed.

Lemma shape_slot g uv th i : shape g -> sk g uv = Some (SkOpen th i) -> exists v, stack_slot (heap g) th i = Some v.
Proof.
  intros HS Huv. destruct (s_open _ HS _ _ _ Huv) as (n & top & ups & Hth & _ & Hi). destruct (s_thread _ HS _ _ _ _ Hth) as (_ & Hn & _).
  destruct (sk_inv _ _ _ Hth) as (y & Hy & (gt & st & cis & Hb & Hl)%skel_thread). rw /stack_slot Hy /= Hb. apply lookup_lt_is_Some. lia.
Qed.

Lemma mbase_mark_ok g : mbase g -> mark_ok g.
Proof.
  intros [HS _ Hs Hd Hr _ _]. split; try done.
  - intros o x Hx Hw. destruct (Hs o x Hx) as (_ & Hb & _). by rw Hw in Hb.
  - intros o x v Hx Hv. destruct v as [th i|v]; [|by eexists]. destruct (shape_slot g o th i HS) as [w Hw]; [by rw (sk_lookup _ _ _ Hx) Hv|].
    exists w. by rw /= Hw.
Qed.

(** ** What the collector does to objects before the sweep *)

(** Entries of tables and unused stack slots are removed. *)
Definition similar (b b' : gcbody) : Prop :=
  match b, b' with
  | BTable m a ns, BTable m' a' ns' => m' = m /\ (a' ≫= vref) ⊆ (a ≫= vref) /\ (ns' ≫= nref) ⊆ (ns ≫= nref) /\ (forallb node_ok ns = true -> forallb node_ok ns' = true)
  | BThread gt st top cis ups, BThread gt' st' top' cis' ups' =>
      gt' = gt /\ length st' = length st /\ take top st' = take top st /\ top' = top /\ ups' = ups
  | _, _ => b' = b
  end.

Lemma similar_refl b : similar b b.
Proof. by destruct b. Qed.
Lemma similar_trans b1 b2 b3 : similar b1 b2 -> similar b2 b3 -> similar b1 b3.
Proof.
  destruct b1; destruct b2; simpl; try congruence; intros H12; destruct b3; simpl; try congruence.
  - intros (? & ? & ? & ?). destruct H12 as (? & ? & ? & ?). split; [congruence|]. split; [by etrans|]. split; [by etrans|auto].
  - intros (? & ? & ? & ? & ?). destruct H12 as (? & ? & ? & ? & ?). subst. split_and!; congruence.
Qed.
Lemma similar_skel b b' : similar b b' -> skel_of b' = skel_of b.
Proof. destruct b, b'; simpl; try congruence; [by intros [= ->]|]. intros (? & -> & ? & -> & ->). done. Qed.

Record evolves g g' : Prop := {
  e_frame : g' = set_lists (set_heap g (heap g')) (gray g') (grayagain g') (weak g');
  e_none o : heap g !! o = None -> heap g' !! o = None;
  e_some o x : heap g !! o = Some x -> exists x', heap g' !! o = Some x' /\ similar (body x) (body x') /\
    (iswhite (marked x) = false -> iswhite (marked x') = false) /\ (iswhite (marked x') = true -> marked x' = marked x) /\
    fixed (marked x') = fixed (marked x)
}.

#[export] Instance evolves_refl : Reflexive evolves.
Proof. intros g. split; [by destruct g|done|]. intros o x Hx. exists x. split_and!; try done. apply similar_refl. Qed.
#[export] Instance evolves_trans : Transitive evolves.
Proof.
  intros g1 g2 g3 H12 H23. split.
  - rw (e_frame _ _ H23) (e_frame _ _ H12). by destruct g1, g2, g3.
  - intros o Ho. by apply (e_none _ _ H23), (e_none _ _ H12).
  - intros o x Hx. destruct (e_some _ _ H12 o x Hx) as (y & Hy & Hs & Hw & Hw' & Hf). destruct (e_some _ _ H23 o y Hy) as (z & Hz & Hs2 & Hw2 & Hw2' & Hf2).
    exists z. split; [done|]. split; [by eapply similar_trans|]. split; [by auto|]. split; [|congruence]. intros Hwz. rw (Hw2' Hwz). apply Hw'. by rw -(Hw2' Hwz).
Qed.

Section evolves.
Context (g g' : global_State) (HE : evolves g g').

Lemma evolves_sk o : sk g' o = sk g o.
Proof using HE.
  rw /sk. destruct (heap g !! o) as [x|] eqn:Hx; [|by rw (e_none _ _ HE _ Hx)].
  destruct (e_some _ _ HE o x Hx) as (x' & -> & Hs & _). by rw /= (similar_skel _ _ Hs).
Qed.

Lemma evolves_lists : same_lists g g'.
Proof using HE. rw (e_frame _ _ HE). done. Qed.

Lemma evolves_shape : shape g -> shape g'.
Proof using HE. apply shape_ext; [apply evolves_sk|apply evolves_lists]. Qed.

Lemma evolves_back o x' : heap g' !! o = Some x' -> exists x, heap g !! o = Some x /\ similar (body x) (body x') /\
  (iswhite (marked x) = false -> iswhite (marked x') = false) /\ (iswhite (marked x') = true -> marked x' = marked x) /\ fixed (marked x') = fixed (marked x).
Proof using HE.
  intros Hx'. destruct (heap g !! o) as [x|] eqn:Hx; [|by rw (e_none _ _ HE _ Hx) in Hx'].
  destruct (e_some _ _ HE o x Hx) as (y & Hy & Hs). exists x. split; [done|]. by assert (y = x') as <- by congruence.
Qed.

Lemma evolves_allocated o : allocated g o -> allocated g' o.
Proof using HE. intros [x Hx]. destruct (e_some _ _ HE o x Hx) as (y & Hy & _). by exists y. Qed.
Lemma evolves_nonwhite o : nonwhite g o -> nonwhite g' o.
Proof using HE. intros (x & Hx & Hw). destruct (e_some _ _ HE o x Hx) as (y & Hy & _ & Hn & _). exists y. auto. Qed.

Lemma evolves_slot uv th i : shape g -> sk g uv = Some (SkOpen th i) -> stack_slot (heap g') th i = stack_slot (heap g) th i.
Proof using HE.
  intros HS Huv. destruct (s_open _ HS _ _ _ Huv) as (n & top & ups & Hth & _ & Hi).
  destruct (sk_inv _ _ _ Hth) as (y & Hy & (gt & st & cis & Hb & Hl)%skel_thread). destruct (e_some _ _ HE th y Hy) as (y' & Hy' & Hs & _).
  rw /stack_slot Hy Hy' /= Hb. rw Hb in Hs. destruct (body y'); try done. destruct Hs as (_ & _ & Ht & _).
  rw -(lookup_take_lt stack top i Hi) -(lookup_take_lt st top i Hi) Ht //.
Qed.

(** Objects get no new pointers. *)
Lemma evolves_refs o x x' : shape g -> heap g !! o = Some x -> similar (body x) (body x') -> refs (heap g') (body x') ⊆ refs (heap g) (body x).
Proof using HE.
  intros HS Hx Hs. destruct (body x) as [| |v| | | | |] eqn:Hb, (body x') as [| |v'| | | | |]; simpl in Hs; try discriminate Hs;
    try (by injection Hs; intros; subst).
  - injection Hs as ->. destruct v as [th i|]; [|done]. rw /= /upval_refs /= (evolves_slot o); [done|by rw (sk_lookup _ _ _ Hx) Hb|done].
  - destruct Hs as (-> & ? & ? & _). simpl. set_solver.
  - destruct Hs as (-> & _ & Ht & -> & _). by rw /= Ht.
Qed.

Lemma evolves_covered o : shape g -> covered g o -> covered g' o.
Proof using HE.
  intros HS (x & Hx & Hr). destruct (e_some _ _ HE o x Hx) as (x' & Hx' & Hs & _). exists x'. split; [done|]. apply Forall_forall. intros c Hc.
  apply evolves_nonwhite. eapply Forall_forall; [exact Hr|]. by eapply evolves_refs.
Qed.
Lemma evolves_typed b : typed g b -> typed g' b.
Proof using HE.
  destruct b; simpl; try done; [intros HF|intros [HF ?]; split; [|done]|intros HF]; (eapply Forall_impl; [exact HF|]); intros o; by rw evolves_sk.
Qed.
Lemma similar_typed b b' : similar b b' -> typed g b -> typed g b'.
Proof using Type. destruct b, b'; simpl; try done; try (intros Hs; injection Hs; intros; by subst); try congruence. intros (-> & _ & _ & Hn) [? ?]. auto. Qed.

Lemma evolves_mbase : sane g' -> mbase g -> mbase g'.
Proof using HE.
  intros Hsane [HS Hone _ Hd Hr Ht Hfix]. assert (currentwhite g' = currentwhite g) as Hcw by (by rw (e_frame _ _ HE)).
  split; [by apply evolves_shape|by rw Hcw|done|..].
  - intros o x' Hx'. destruct (evolves_back _ _ Hx') as (x & Hx & _ & _ & Hw & _). rw Hcw. destruct (iswhite (marked x')) eqn:Hwx; [|by apply nonwhite_alive].
    rw (Hw eq_refl). by apply (Hd o).
  - intros o x' Hx'. destruct (evolves_back _ _ Hx') as (x & Hx & Hs & _). pose proof (evolves_refs _ _ _ HS Hx Hs) as Hsub.
    apply Forall_forall. intros c Hc. apply evolves_allocated. by eapply Forall_forall; [apply (Hr o x Hx)|apply Hsub].
  - intros o x' Hx'. destruct (evolves_back _ _ Hx') as (x & Hx & Hs & _). by apply evolves_typed, (similar_typed (body x)), (Ht o).
  - intros o x' Hx'. destruct (evolves_back _ _ Hx') as (x & Hx & Hs & _ & _ & ->). rw (similar_skel _ _ Hs).
    assert (mainthread g' = mainthread g) as -> by (by rw (e_frame _ _ HE)). by apply Hfix.
Qed.
End evolves.
