(* ===== verification/LuaGCTri.v ===== *)
(** LuaGCTri: the invariant of the mark phase of the collector (lgc.c): a black object points
    to no white one, and a gray object waits in a list. propagatemark() keeps it, and
    propagateall() empties the list of gray objects. *)

From Corelib Require Import ssreflect.
From stdpp Require Import base list gmap numbers strings.
From Stdlib Require Import ZArith Lia.
From S2P Require Import Prelude LuaHeap LuaGC LuaGCMark LuaGCInv.

Implicit Type g : global_State.

Lemma marking_evolves new g g' : marking [] new g g' -> evolves g g'.
Proof.
  intros HM. split; [|apply HM|].
  - rw {1}(m_frame _ _ _ _ HM). by rw (m_frame _ _ _ _ HM).
  - intros o x Hx. destruct (m_some _ _ _ _ HM o x Hx) as (x' & Hx' & Hb & Hm). exists x'. split; [done|]. rw Hb. split; [apply similar_refl|].
    destruct Hm as [->|(? & ? & _ & _ & ? & _)]; [done|]. split; [congruence|]. split; [congruence|done].
Qed.

Lemma marking_sane new g g' : sane g -> marking [] new g g' -> sane g'.
Proof.
  intros Hs HM o x' Hx'. destruct (marking_back _ _ _ _ _ _ HM Hx') as (x & Hx & Hb & Hm). destruct Hm as [->|(Hw & Hw' & _)]; [by apply (Hs o)|].
  assert (white0 (marked x') && white1 (marked x') = false) as H01.
  { rw /iswhite in Hw'. by apply orb_false_iff in Hw' as [-> _]. }
  split; [done|]. rw Hw'. split; [done|]. destruct (m_done _ _ _ _ HM o x') as [?%elem_of_nil|Hwm]; [by exists x|done|done|done|].
  destruct Hwm as [(_ & Hg & Ht)|[(Hst & Hg)|(_ & Ht & Hs' & Hbl)]].
  - rw (isgray_nonblack _ Hg) andb_false_r. split; [done|]. by destruct (body x').
  - rw (isgray_nonblack _ Hg) andb_false_r. split; [done|]. by destruct (body x').
  - rw /isgray Hbl. by destruct (body x') as [| |[]| | | | |].
Qed.

Lemma marking_mbase new g g' : mbase g -> marking [] new g g' -> mbase g'.
Proof. intros Hb HM. eapply evolves_mbase; [by eapply marking_evolves| |done]. eapply marking_sane; [by apply Hb|done]. Qed.

(** ** The invariant *)

(** The pointers of a weak table that keep objects, by the bits of the table. *)
Definition strong_refs (x : GCObject) : list loc :=
  match body x with
  | BTable m a ns => oref m ++ (if bit4 (marked x) then [] else a ≫= vref) ++ (ns ≫= node_marks (bit3 (marked x)) (bit4 (marked x)))
  | _ => []
  end.
Definition weak_covered g (o : loc) : Prop :=
  exists x, heap g !! o = Some x /\ skel_of (body x) = SkTable /\ bit3 (marked x) || bit4 (marked x) = true /\ Forall (nonwhite g) (strong_refs x).

(** All that an object in a list keeps is marked. *)
Definition complete g (o : loc) : Prop := (o ∈ weak g -> weak_covered g o) /\ (o ∉ weak g -> covered g o).

(** Objects with [D] are visited again later; the black objects in [X] may point to white ones; those
    in [C] are being traversed. *)
Record tri (D : loc -> Prop) (X C : list loc) g : Prop := {
  t_black o x : heap g !! o = Some x -> isblack (marked x) = true -> o ∉ X -> o ∉ C -> covered g o;
  t_gray o x : heap g !! o = Some x -> isgray (marked x) = true -> o ∉ C ->
    is_string (body x) = true \/ o ∈ gray g \/ (o ∈ grayagain g \/ o ∈ weak g \/ open_upval (body x) = true) /\ (D o \/ complete g o);
  t_nodup : NoDup (gray g ++ grayagain g ++ weak g);
  t_waiting o : o ∈ gray g ++ grayagain g ++ weak g -> o ∉ C -> waiting g o;
  t_current o : o ∈ C -> nonwhite g o
}.

Lemma marking_strong E new g g' x : marking E new g g' -> Forall (nonwhite g) (strong_refs x) -> Forall (nonwhite g') (strong_refs x).
Proof. intros HM HF. eapply Forall_impl; [exact HF|]. intros o. apply (marking_nonwhite _ _ _ _ _ HM). Qed.

Lemma marking_lists E new g g' : marking E new g g' -> grayagain g' = grayagain g /\ weak g' = weak g.
Proof. intros HM. by rw (m_frame _ _ _ _ HM). Qed.

Lemma marking_complete_obj E new g g' o : marking E new g g' -> nonwhite g o -> complete g o -> complete g' o.
Proof.
  intros HM (y & Hy & Hny) [Hw Hc]. destruct (marking_lists _ _ _ _ HM) as [_ Hweak]. rw /complete Hweak. split.
  - intros (x & Hx & ? & ? & HF)%Hw. assert (x = y) as -> by congruence. exists y. split; [by apply (marking_kept _ _ _ _ _ _ HM)|].
    split_and!; try done. by eapply marking_strong.
  - intros Hni%Hc. by eapply marking_covered.
Qed.

Lemma marking_covered_new new g g' o x : marking [] new g g' -> is_white g o -> heap g' !! o = Some x -> iswhite (marked x) = false ->
  well_marked g' new o x.
Proof. intros HM Hw Hx Hn. by destruct (m_done _ _ _ _ HM o x Hw Hx Hn) as [?%elem_of_nil|?]. Qed.

(** Marking keeps the invariant. *)
Lemma tri_marking D X C new g g' : tri D X C g -> marking [] new g g' -> tri D X C g'.
Proof.
  intros HT HM. destruct (marking_lists _ _ _ _ HM) as [Hga Hwk]. pose proof (m_gray _ _ _ _ HM) as Hgr.
  assert (forall o, o ∈ new -> o ∉ gray g ++ grayagain g ++ weak g) as Hnew.
  { intros o Ho Hin. apply (white_nonwhite g o); [by apply (m_fresh _ _ _ _ HM)|].
    destruct (decide (o ∈ C)); [by apply (t_current _ _ _ _ HT)|]. by apply waiting_nonwhite, (t_waiting _ _ _ _ HT). }
  split.
  - intros o x' Hx' Hb HX HC. destruct (marking_back _ _ _ _ _ _ HM Hx') as (x & Hx & _ & [->|(Hw & Hn & _)]).
    + eapply marking_covered; [done|]. by apply (t_black _ _ _ _ HT o x).
    + destruct (marking_covered_new _ _ _ o x' HM) as [(_ & Hg & _)|[(_ & Hg)|(? & _)]]; try done; [by exists x|..];
        apply isgray_nonblack in Hg; congruence.
  - intros o x' Hx' Hg HC. rw Hga Hwk Hgr. destruct (marking_back _ _ _ _ _ _ HM Hx') as (x & Hx & Hb & [->|(Hw & Hn & _)]).
    + destruct (t_gray _ _ _ _ HT o x Hx Hg HC) as [?|[?|(Hl & Hd)]]; [by left|right; left; set_solver|right; right]. split; [done|].
      destruct Hd as [?|Hc]; [by left|right]. eapply marking_complete_obj; [done| |done]. exists x. split; [done|]. by apply isgray_nonwhite.
    + destruct (marking_covered_new _ _ _ o x' HM) as [(? & _)|[(? & _)|(Hc & Ht & Hs & Hbl)]]; try done; [by exists x|right; left; set_solver|by left|].
      right; right. apply isgray_nonblack in Hg. assert (open_upval (body x') = true) as Hop by (by destruct (open_upval (body x')); rw Hg in Hbl).
      split; [by right; right|right]. split; [|done]. intros Hin. exfalso. rw Hwk in Hin. destruct (t_waiting _ _ _ _ HT o) as (y & Hy & Hgy & _); [set_solver|done|].
      apply isgray_nonwhite in Hgy. congruence.
  - rw Hgr Hga Hwk -app_assoc. apply NoDup_app. split; [apply HM|]. split; [done|apply HT].
  - intros o. rw Hgr Hga Hwk -app_assoc. intros [Hin|Hin]%elem_of_app HC; [by apply (m_fresh _ _ _ _ HM)|].
    eapply marking_waiting; [done|]. by apply (t_waiting _ _ _ _ HT).
  - intros o Ho. eapply marking_nonwhite; [done|]. by apply (t_current _ _ _ _ HT).
Qed.

(** *** The object that is being traversed *)

Lemma tri_enter D X g o : tri D X [] g -> nonwhite g o -> tri D X [o] g.
Proof.
  intros HT Hn. split; try apply HT.
  - intros o' x Hx Hb HX _. apply (t_black _ _ _ _ HT o' x Hx Hb HX). apply not_elem_of_nil.
  - intros o' x Hx Hg _. apply (t_gray _ _ _ _ HT o' x Hx Hg). apply not_elem_of_nil.
  - intros o' Ho' _. apply (t_waiting _ _ _ _ HT o' Ho'). apply not_elem_of_nil.
  - by intros o' ->%list_elem_of_singleton.
Qed.

(** It has been traversed when it is black and points to no white object, or it waits. *)
Lemma tri_leave D X g o x : tri D X [o] g -> heap g !! o = Some x ->
  isblack (marked x) = true /\ (o ∉ gray g ++ grayagain g ++ weak g) /\ covered g o \/
  isgray (marked x) = true /\ traversable (body x) = true /\ (o ∈ grayagain g \/ o ∈ weak g) /\ (D o \/ complete g o) -> tri D X [] g.
Proof.
  intros HT Hx Hc. split; try apply HT.
  - intros o' x' Hx' Hb HX _. destruct (decide (o' = o)) as [->|Hne]; [|apply (t_black _ _ _ _ HT o' x' Hx' Hb HX); set_solver].
    assert (x' = x) as -> by congruence. destruct Hc as [(_ & _ & ?)|(Hg & _)]; [done|]. apply isgray_nonblack in Hg. congruence.
  - intros o' x' Hx' Hg _. destruct (decide (o' = o)) as [->|Hne]; [|apply (t_gray _ _ _ _ HT o' x' Hx' Hg); set_solver].
    assert (x' = x) as -> by congruence. apply isgray_nonblack in Hg. destruct Hc as [(? & _)|(_ & _ & Hl & ?)]; [congruence|].
    right; right. split; [|done]. destruct Hl; [by left|by right; left].
  - intros o' Hin _. destruct (decide (o' = o)) as [->|Hne]; [|apply (t_waiting _ _ _ _ HT o' Hin); set_solver].
    destruct Hc as [(_ & ? & _)|(? & ? & _)]; [done|by exists x].
  - by intros o' ?%elem_of_nil.
Qed.

(** It may change, and go to another list. *)
Lemma tri_modify D X g g' o x' : shape g -> tri D X [o] g -> evolves g g' -> heap g' = <[o := x']> (heap g) -> iswhite (marked x') = false ->
  NoDup (gray g' ++ grayagain g' ++ weak g') ->
  (forall c, c <> o -> (c ∈ gray g' <-> c ∈ gray g) /\ (c ∈ grayagain g' <-> c ∈ grayagain g) /\ (c ∈ weak g' <-> c ∈ weak g)) -> tri D X [o] g'.
Proof.
  intros HS HT HE Hh Hn Hnd Hl. assert (forall c, c ∉ [o] -> c <> o /\ heap g' !! c = heap g !! c) as Hother.
  { intros c Hc. assert (c <> o) by set_solver. split; [done|]. by rw Hh lookup_insert_ne. }
  split; [..|done| |].
  - intros c x Hx Hb HX HC. apply evolves_covered with g; [done..|]. apply (t_black _ _ _ _ HT c x); [|done..]. by destruct (Hother c HC) as [_ <-].
  - intros c x Hx Hg HC. destruct (Hother c HC) as [Hne Hsame]. rw Hsame in Hx. destruct (Hl c Hne) as (Hl1 & Hl2 & Hl3). rw Hl1 Hl2 Hl3.
    destruct (t_gray _ _ _ _ HT c x Hx Hg HC) as [?|[?|(? & Hd)]]; [by left|by right; left|right; right]. split; [done|].
    destruct Hd as [?|[Hw Hc]]; [by left|right]. rw /complete Hl3. split; [|by intros ?%Hc; eapply evolves_covered].
    intros (y & Hy & ? & ? & HF)%Hw. exists y. rw Hsame. split_and!; try done. eapply Forall_impl; [exact HF|]. intros. by eapply evolves_nonwhite.
  - intros c Hin HC. destruct (Hother c HC) as [Hne Hsame]. destruct (Hl c Hne) as (Hl1 & Hl2 & Hl3).
    destruct (t_waiting _ _ _ _ HT c) as (y & Hy & ?); [|done|].
    { rw !elem_of_app in Hin |- *. tauto. }
    exists y. by rw Hsame.
  - intros c ->%list_elem_of_singleton. exists x'. by rw Hh lookup_insert_eq.
Qed.

(** Changing one object. *)
Lemma evolves_put g o x x' a b c : heap g !! o = Some x -> similar (body x) (body x') -> (iswhite (marked x) = false -> iswhite (marked x') = false) ->
  (iswhite (marked x') = true -> marked x' = marked x) -> fixed (marked x') = fixed (marked x) -> evolves g (set_lists (put g o x') a b c).
Proof.
  intros Hx Hs Hw Hw' Hf. split; [done|..]; simpl.
  - intros o' Ho'. rw lookup_insert_ne //. congruence.
  - intros o' y Hy. destruct (decide (o' = o)) as [->|].
    + assert (y = x) as -> by congruence. exists x'. by rw lookup_insert_eq.
    + exists y. rw lookup_insert_ne //. split_and!; try done. apply similar_refl.
Qed.

Lemma set_lists_self g : set_lists g (gray g) (grayagain g) (weak g) = g.
Proof. by destruct g. Qed.

Lemma sane_put g o x a b c : sane g -> sane_object x -> sane (set_lists (put g o x) a b c).
Proof. intros Hs Hx o' y. simpl. destruct (decide (o' = o)) as [->|]; [rw lookup_insert_eq; by intros [= <-]|rw lookup_insert_ne //; apply Hs]. Qed.

(** ** Traversals *)

Lemma allocated_refs g o x (os : list loc) : mbase g -> heap g !! o = Some x -> os ⊆ refs (heap g) (body x) -> Forall (allocated g) os.
Proof. intros HB Hx Hsub. apply Forall_forall. intros c Hc. eapply Forall_forall; [by apply (b_refs _ HB o x)|by apply Hsub]. Qed.

Lemma typed_strings g (os : list loc) : Forall (fun o => sk g o = Some SkString) os -> Forall (string_at g) os.
Proof. intros HF. eapply Forall_impl; [exact HF|]. intros c (x & Hx & (s & Hs)%skel_string)%sk_inv. exists x. by rw Hs. Qed.

Lemma marking_strings new g g' os : marking [] new g g' -> Forall (string_at g) os -> Forall (string_at g') os.
Proof. intros HM HF. eapply Forall_impl; [exact HF|]. intros c. apply (marking_string _ _ _ _ _ HM). Qed.

Lemma traverseclosure_spec g o x : mbase g -> heap g !! o = Some x -> skel_of (body x) = SkOther -> traversable (body x) = true ->
  (forall s k us ps ls, body x <> BProto s k us ps ls) -> marks_all (refs (heap g) (body x)) g (traverseclosure g (body x)).
Proof.
  intros HB Hx Hk Ht Hp. pose proof (b_refs _ HB _ _ Hx) as Hr. pose proof (mbase_mark_ok _ HB) as Hok.
  destruct (body x) as [| |[]|e us|e p us| | |]; try done; simpl in *.
  - apply Forall_cons in Hr as [He Hus]. apply (marks_all_bind [e]); [by apply markobject_spec|]. intros g1 new1 HM1.
    apply markobjects_spec; [by eapply marking_ok|by eapply marking_allocateds].
  - apply Forall_cons in Hr as [He [Hpr Hus]%Forall_cons]. apply (marks_all_bind [e]); [by apply markobject_spec|]. intros g1 new1 HM1.
    apply (marks_all_bind [p]); [apply markobject_spec; [by eapply marking_ok|by eapply marking_allocated]|]. intros g2 new2 HM2.
    apply markobjects_spec; [by eapply marking_ok; [eapply marking_ok|]|by do 2 (eapply marking_allocateds; [done|])].
  - by destruct (Hp source k upvalues p locvars).
Qed.

Lemma traverseproto_spec g o x s k us ps ls : mbase g -> heap g !! o = Some x -> body x = BProto s k us ps ls ->
  marks_all (refs (heap g) (body x)) g (traverseproto g s k us ps ls).
Proof.
  intros HB Hx Hb. pose proof (b_refs _ HB _ _ Hx) as Hr. pose proof (mbase_mark_ok _ HB) as Hok. pose proof (b_typed _ HB _ _ Hx) as Ht.
  rw Hb /= in Hr Ht |- *. apply Forall_app in Hr as [_ [Hk [_ [Hps _]%Forall_app]%Forall_app]%Forall_app].
  apply typed_strings in Ht. apply Forall_app in Ht as [Hs [Hus Hls]%Forall_app].
  pose proof (markstrings_spec g [s] Hok) as H1. rw /= app_nil_r in H1. apply marks_all_bind; [by apply H1|]. intros g1 n1 HM1.
  pose proof (marking_ok _ _ _ _ Hok HM1) as Hok1. apply marks_all_bind; [apply markobjects_spec; [done|by eapply marking_allocateds]|]. intros g2 n2 HM2.
  pose proof (marking_ok _ _ _ _ Hok1 HM2) as Hok2.
  apply marks_all_bind; [apply markstrings_spec; [done|by do 2 (eapply marking_strings; [done|])]|]. intros g3 n3 HM3.
  pose proof (marking_ok _ _ _ _ Hok2 HM3) as Hok3.
  apply marks_all_bind; [apply markobjects_spec; [done|by do 3 (eapply marking_allocateds; [done|])]|]. intros g4 n4 HM4.
  apply markstrings_spec; [by eapply marking_ok|by do 4 (eapply marking_strings; [done|])].
Qed.

(** *** Tables *)

Lemma fasttm_ok g m name : mbase g -> Forall (fun o => sk g o = Some SkTable) (oref m) -> exists v, fasttm g m name = Ok v /\ Forall (allocated g) (vref v).
Proof.
  intros HB Hm. destruct m as [t|]; [|by exists VNil]. apply Forall_cons in Hm as [Hm _].
  destruct (sk_inv _ _ _ Hm) as (x & Hx & (m & a & ns & Hb)%skel_table). rw /= (get_eq _ _ _ Hx) Ok_bind Hb.
  eexists. split; [done|]. pose proof (b_refs _ HB _ _ Hx) as Hr. rw Hb /= in Hr. apply Forall_app in Hr as [_ [_ Hr]%Forall_app].
  destruct (list_find _ ns) as [[i n]|] eqn:Hf; [|done]. apply list_find_Some in Hf as (Hi & _).
  apply Forall_forall. intros c Hc. eapply Forall_forall; [exact Hr|]. apply list_elem_of_bind. exists n. split; [|by apply list_elem_of_lookup_2 in Hi].
  rw /nref. destruct (n.2); set_solver.
Qed.

Lemma weak_mode_ok g m : mbase g -> Forall (fun o => sk g o = Some SkTable) (oref m) -> exists wk wv, weak_mode g m = Ok (wk, wv).
Proof.
  intros HB Hm. destruct (fasttm_ok g m (tm_mode g) HB Hm) as (v & Hv & Ha). rw /weak_mode Hv Ok_bind. destruct v as [| |o]; [by do 2 eexists..|].
  apply Forall_cons in Ha as [[x Hx] _]. rw (get_eq _ _ _ Hx) Ok_bind. destruct (body x); by do 2 eexists.
Qed.

(** Objects that wait or are white: each step of propagateall() leaves fewer. *)
Definition work g : nat := (length (gray g) + size (white_set g))%nat.

Lemma evolves_white_set g g' : evolves g g' -> (size (white_set g') <= size (white_set g))%nat.
Proof.
  intros HE. apply subseteq_size. intros o. rw !elem_white_set. intros (x' & Hx' & Hw). destruct (evolves_back _ _ HE _ _ Hx') as (x & Hx & _ & _ & Hm & _).
  exists x. split; [done|]. by rw -Hm.
Qed.

(** A step while an object is traversed. *)
Record traversal D X (o : loc) g g' : Prop := {
  v_evolves : evolves g g';
  v_base : mbase g';
  v_tri : tri D X [o] g';
  v_work : (work g' <= work g)%nat;
  v_lists : grayagain g' = grayagain g;
  v_fresh c : nonwhite g c -> c ∈ gray g' -> c ∈ gray g
}.

Lemma traversal_marking D X o new g g' : mbase g -> tri D X [o] g -> marking [] new g g' -> traversal D X o g g'.
Proof.
  intros HB HT HM. split; [by eapply marking_evolves|by eapply marking_mbase|by eapply tri_marking|by eapply marking_measure|by apply (marking_lists _ _ _ _ HM)|].
  intros c Hn. rw (m_gray _ _ _ _ HM). intros [Hin|?]%elem_of_app; [|done]. exfalso. apply (white_nonwhite g c); [by apply (m_fresh _ _ _ _ HM)|done].
Qed.

Lemma traversal_trans D X o g1 g2 g3 : traversal D X o g1 g2 -> traversal D X o g2 g3 -> traversal D X o g1 g3.
Proof. intros [? ? ? ? ? ?] [? ? ? ? ? ?]. split; [by etrans|done|done|lia|congruence|]. intros c Hn Hc. eauto using evolves_nonwhite. Qed.

(** The object itself changes, and may go to the list of weak tables. *)
Lemma traversal_put D X o x x' w g : mbase g -> tri D X [o] g -> heap g !! o = Some x -> similar (body x) (body x') -> iswhite (marked x) = false ->
  sane_object x' -> iswhite (marked x') = false -> fixed (marked x') = fixed (marked x) -> (w = weak g \/ w = o :: weak g /\ o ∉ gray g ++ grayagain g ++ weak g) ->
  traversal D X o g (set_lists (put g o x') (gray g) (grayagain g) w).
Proof.
  intros HB HT Hx Hs Hw Hsane Hw' Hfx Hweak.
  assert (evolves g (set_lists (put g o x') (gray g) (grayagain g) w)) as HE by (apply (evolves_put _ _ x); [done|done|done|congruence|done]).
  split; [done| | | |done|done].
  - eapply evolves_mbase; [done| |done]. by apply sane_put; [apply HB|].
  - eapply tri_modify; [apply HB|done|done|done|done| |]; simpl.
    + destruct Hweak as [->|[-> Hni]]; [apply HT|]. rw app_assoc -Permutation_middle -app_assoc. apply NoDup_cons. split; [done|apply HT].
    + intros c Hc. split_and!; try done. destruct Hweak as [->|[-> _]]; [done|]. rw elem_of_cons. intuition.
  - pose proof (evolves_white_set _ _ HE). rw /work /=. lia.
Qed.

Lemma reverse_bind {A B} (f : A -> list B) (l : list A) : reverse l ≫= f ≡ₚ l ≫= f.
Proof.
  induction l as [|x l IH]; [done|]. rw reverse_cons bind_app IH /= app_nil_r. apply Permutation_app_comm.
Qed.

Lemma Forall_reverse_bind {A B} (P : B -> Prop) (f : A -> list B) (l : list A) : Forall P (reverse l ≫= f) -> Forall P (l ≫= f).
Proof. rw !Forall_forall. intros HF c Hc. apply HF. by rw reverse_bind. Qed.

Lemma node_marks_nref wk wv n : node_marks wk wv n ⊆ nref n.
Proof. rw /node_marks /nref. destruct (n.2), wk, wv; set_solver. Qed.

Lemma node_marks_bind wk wv (ns : list (gckey * gcvalue)) : (ns ≫= node_marks wk wv) ⊆ (ns ≫= nref).
Proof. intros c. rw !list_elem_of_bind. intros (n & Hc & Hn). exists n. split; [by apply (node_marks_nref wk wv)|done]. Qed.

Lemma remove_empty_bind (f : gckey * gcvalue -> list loc) ns : (forall n, f (remove_empty n) = f n) -> (remove_empty <$> ns) ≫= f = ns ≫= f.
Proof. intros Hf. induction ns as [|n ns IH]; [done|]. rw fmap_cons !bind_cons Hf. by f_equal. Qed.
Lemma remove_empty_nref n : nref (remove_empty n) = nref n.
Proof. destruct n as [[] []]; done. Qed.
Lemma remove_empty_marks wk wv n : node_marks wk wv (remove_empty n) = node_marks wk wv n.
Proof. destruct n as [[] []]; done. Qed.

Lemma remove_empty_ok ns : forallb node_ok (remove_empty <$> ns) = forallb node_ok ns.
Proof. induction ns as [|n ns IH]; [done|]. simpl. f_equal; [|done]. by destruct n as [[] []]. Qed.

Lemma sane_black x : sane_object x -> isblack (marked x) = true -> iswhite (marked x) = false.
Proof. intros (_ & H & _) Hb. rw Hb andb_true_r in H. done. Qed.

(** The loops over the elements and the nodes. *)
Lemma table_marks D X g o x m a ns (wk wv : bool) : mbase g -> tri D X [o] g -> heap g !! o = Some x -> body x = BTable m a ns -> iswhite (marked x) = false ->
  exists g', (g ← (if wv then Ok g else markvalues g (reverse a)); markobjects g (reverse ns ≫= node_marks wk wv)) = Ok g' /\
    traversal D X o g g' /\ heap g' !! o = Some x /\ weak g' = weak g /\
    Forall (nonwhite g') ((if wv then [] else a ≫= vref) ++ (ns ≫= node_marks wk wv)).
Proof.
  intros HB HT Hx Hb Hw. pose proof (mbase_mark_ok _ HB) as Hok.
  assert (marks_all ((if wv then [] else reverse a ≫= vref) ++ (reverse ns ≫= node_marks wk wv)) g
    (g ← (if wv then Ok g else markvalues g (reverse a)); markobjects g (reverse ns ≫= node_marks wk wv))) as (g' & new & Hr & HM & HF).
  { apply marks_all_bind.
    - destruct wv; [apply marks_all_nil|]. apply markobjects_spec; [done|]. apply (allocated_refs _ _ _ _ HB Hx). rw Hb /= reverse_bind. set_solver.
    - intros g1 n1 HM1. apply markobjects_spec; [by eapply marking_ok|]. eapply marking_allocateds; [done|]. apply (allocated_refs _ _ _ _ HB Hx).
      rw Hb /= reverse_bind. pose proof (node_marks_bind wk wv ns). set_solver. }
  exists g'. split; [done|]. split; [by eapply traversal_marking|]. split; [by eapply marking_kept|]. split; [by apply (marking_lists _ _ _ _ HM)|].
  apply Forall_app in HF as [HF1 HF2]. apply Forall_app. split; [|by apply Forall_reverse_bind]. destruct wv; [done|]. by apply Forall_reverse_bind.
Qed.

(** Values for the bits of a weak table. *)
Lemma set_weak_object x wk wv : sane_object x -> sane_object (mkObject (set_weak (marked x) wk wv) (body x)).
Proof. destruct x as [[] ?]. done. Qed.

(** Of a weak table, bits record what is weak. *)
Lemma table_weaken D X g o x m a ns (wk wv : bool) : mbase g -> tri D X [o] g -> heap g !! o = Some x -> body x = BTable m a ns -> isblack (marked x) = true ->
  o ∉ gray g ++ grayagain g ++ weak g ->
  exists g' x', (if wk || wv then g ← set_marks g o (fun m => set_weak m wk wv); Ok (set_lists g (gray g) (grayagain g) (o :: weak g)) else Ok g) = Ok g' /\
    traversal D X o g g' /\ heap g' !! o = Some x' /\ body x' = BTable m a ns /\ isblack (marked x') = true /\
    (wk || wv = true -> o ∈ weak g' /\ bit3 (marked x') = wk /\ bit4 (marked x') = wv) /\ (wk || wv = false -> o ∉ weak g').
Proof.
  intros HB HT Hx Hb Hbl Hni. pose proof (b_sane _ HB _ _ Hx) as Hsx. pose proof (sane_black _ Hsx Hbl) as Hw. destruct (wk || wv) eqn:Hwkv.
  - rw (set_marks_eq _ _ _ _ Hx) Ok_bind. set (x' := mkObject (set_weak (marked x) wk wv) (body x)).
    exists (set_lists (put g o x') (gray g) (grayagain g) (o :: weak g)), x'. split; [done|]. split.
    { eapply traversal_put; [done|done|exact Hx|apply similar_refl|done|by apply set_weak_object|done|done|by right]. }
    split; [by rw /= lookup_insert_eq|]. split; [done|]. split; [done|]. split; [|done]. intros _. split; [apply list_elem_of_here|done].
  - exists g, x. split; [done|]. split; [apply (traversal_marking _ _ _ []); [done|done|apply marking_refl]|].
    split; [done|]. split; [done|]. split; [done|]. split; [done|]. set_solver.
Qed.

Lemma traversetable_spec D X g o x m a ns : mbase g -> tri D X [o] g -> heap g !! o = Some x -> body x = BTable m a ns -> isblack (marked x) = true ->
  o ∉ gray g ++ grayagain g ++ weak g ->
  exists w g' x', traversetable g o = Ok (w, g') /\ traversal D X o g g' /\ heap g' !! o = Some x' /\ skel_of (body x') = SkTable /\ isblack (marked x') = true /\
    (if w : bool then o ∈ weak g' /\ weak_covered g' o else (o ∉ weak g') /\ covered g' o).
Proof.
  intros HB HT Hx Hb Hbl Hni. pose proof (b_sane _ HB _ _ Hx) as Hsx. pose proof (sane_black _ Hsx Hbl) as Hw.
  rw /traversetable (get_eq _ _ _ Hx) Ok_bind Hb. pose proof (b_typed _ HB _ _ Hx) as Hty. rw Hb /= in Hty. destruct Hty as [Hty Hnodes].
  destruct (marknull_spec g m) as (g1 & n1 & -> & HM1 & Hm1); [by apply mbase_mark_ok|apply (allocated_refs _ _ _ _ HB Hx); rw Hb /=; set_solver|].
  pose proof (traversal_marking _ _ _ _ _ _ HB HT HM1) as V1. destruct (marking_lists _ _ _ _ HM1) as [Hga1 Hwk1].
  pose proof (marking_kept _ _ _ _ _ _ HM1 Hx Hw) as Hx1. rw Ok_bind.
  destruct (weak_mode_ok g1 m) as (wk & wv & Hmode); [apply V1| |].
  { eapply Forall_impl; [exact Hty|]. intros c. by rw (evolves_sk _ _ (v_evolves _ _ _ _ _ V1)). }
  rw Hmode Ok_bind. assert (o ∉ gray g1 ++ grayagain g1 ++ weak g1) as Hni1.
  { rw Hga1 Hwk1. intros [Hin|Hin]%elem_of_app; [|set_solver]. apply (v_fresh _ _ _ _ _ V1) in Hin; [set_solver|by exists x]. }
  destruct (table_weaken D X g1 o x m a ns wk wv) as (g2 & x2 & -> & V2 & Hx2 & Hb2 & Hbl2 & Hwt & Hwf); [apply V1|apply V1|done..|].
  rw Ok_bind. pose proof (b_sane _ (v_base _ _ _ _ _ V2) _ _ Hx2) as Hs2. pose proof (sane_black _ Hs2 Hbl2) as Hw2.
  pose proof (traversal_trans _ _ _ _ _ _ V1 V2) as V12.
  assert (Forall (nonwhite g2) (oref m)) as Hm2.
  { eapply Forall_impl; [exact Hm1|]. intros c. apply (evolves_nonwhite _ _ (v_evolves _ _ _ _ _ V2)). }
  destruct (wk && wv) eqn:Hall.
  { apply andb_true_iff in Hall as [-> ->]. destruct (Hwt eq_refl) as (? & Hb3 & Hb4). exists true, g2, x2. split_and!; try done; [by rw Hb2|].
    exists x2. rw Hb2 Hb3 Hb4. split_and!; try done. rw /strong_refs Hb2 Hb3 Hb4 /=. apply Forall_app. split; [done|].
    apply Forall_forall. intros c (n & Hc & _)%list_elem_of_bind. rw /node_marks in Hc. destruct (n.2); set_solver. }
  destruct (table_marks D X g2 o x2 m a ns wk wv) as (g3 & Hr & V3 & Hx3 & Hwk3 & HF); [apply V2|apply V2|done..|].
  destruct (if wv then Ok g2 else markvalues g2 (reverse a)) as [ga|]; [|done]. rw Ok_bind in Hr.
  set (x4 := mkObject (marked x2) (BTable m a (remove_empty <$> ns))).
  assert (traversal D X o g3 (set_lists (put g3 o x4) (gray g3) (grayagain g3) (weak g3))) as V4.
  { eapply traversal_put; [apply V3|apply V3|exact Hx3| |done|by destruct x2; simplify_eq/=|done|done|by left].
    rw Hb2 /=. split; [done|]. split; [done|]. by rw (remove_empty_bind _ _ remove_empty_nref) remove_empty_ok. }
  change (set_lists (put g3 o x4) (gray g3) (grayagain g3) (weak g3)) with (put g3 o x4) in V4.
  exists (wk || wv), (put g3 o x4), x4. split; [by rw Ok_bind Hnodes /= Hr Ok_bind (get_eq _ _ _ Hx3)|]. split; [by do 2 (eapply traversal_trans; [done|])|].
  split; [by rw /= lookup_insert_eq|]. split; [done|]. split; [done|].
  assert (Forall (nonwhite (put g3 o x4)) (oref m ++ (if wv then [] else a ≫= vref) ++ (ns ≫= node_marks wk wv))) as Hcov.
  { apply Forall_app. split; [eapply Forall_impl; [exact Hm2|]|eapply Forall_impl; [exact HF|]]; intros c Hc; (apply put_nonwhite; [done|]); [|done].
    by apply (evolves_nonwhite _ _ (v_evolves _ _ _ _ _ V3)). }
  destruct (wk || wv) eqn:Hor; rw /= Hwk3.
  - destruct (Hwt eq_refl) as (? & Hb3 & Hb4). split; [done|]. exists x4. split; [by rw /= lookup_insert_eq|]. split; [done|].
    rw /strong_refs /= Hb3 Hb4. split; [done|]. by rw (remove_empty_bind _ _ (remove_empty_marks wk wv)).
  - split; [by apply Hwf|]. exists x4. split; [by rw /= lookup_insert_eq|]. apply orb_false_iff in Hor as [-> ->].
    rw /= (remove_empty_bind _ _ remove_empty_nref). apply Hcov.
Qed.

(** *** Stacks *)

Lemma clear_slots_length st top lim : length (clear_slots st top lim) = length st.
Proof. apply length_imap. Qed.
Lemma clear_slots_take st top lim : take top (clear_slots st top lim) = take top st.
Proof.
  apply list_eq. intros i. destruct (decide (i < top)%nat); [|by rw (lookup_take_ge (clear_slots _ _ _)); [lia|]; rw lookup_take_ge; [lia|]]. rw !lookup_take_lt // list_lookup_imap.
  destruct (st !! i); [|done]. simpl. destruct (decide (top <= i <= lim)%nat); [lia|done].
Qed.

Lemma traversestack_spec D X g o x n top ups : mbase g -> tri D X [o] g -> heap g !! o = Some x -> skel_of (body x) = SkThread n top ups -> iswhite (marked x) = false ->
  exists g' x', traversestack g o = Ok g' /\ traversal D X o g g' /\ weak g' = weak g /\ heap g' !! o = Some x' /\ marked x' = marked x /\
    skel_of (body x') = SkThread n top ups /\ covered g' o.
Proof.
  intros HB HT Hx (gt & st & cis & Hb & Hl)%skel_thread Hw. pose proof (mbase_mark_ok _ HB) as Hok.
  rw /traversestack (get_eq _ _ _ Hx) Ok_bind Hb.
  destruct (marks_all_bind (vref gt) (take top st ≫= vref) g (markvalue g gt) (fun g => markvalues g (take top st))) as (g1 & new & Hr & HM & HF).
  { apply markvalue_spec; [done|]. apply (allocated_refs _ _ _ _ HB Hx). rw Hb /=. set_solver. }
  { intros g1 n1 HM1. apply markobjects_spec; [by eapply marking_ok|]. eapply marking_allocateds; [done|]. apply (allocated_refs _ _ _ _ HB Hx). rw Hb /=. set_solver. }
  pose proof (traversal_marking _ _ _ _ _ _ HB HT HM) as V1. pose proof (marking_kept _ _ _ _ _ _ HM Hx Hw) as Hx1.
  set (x2 := mkObject (marked x) (BThread gt (clear_slots st top (foldr Nat.max top cis)) top cis ups)).
  assert (traversal D X o g1 (set_lists (put g1 o x2) (gray g1) (grayagain g1) (weak g1))) as V2.
  { eapply traversal_put; [apply V1|apply V1|exact Hx1| |done| |done|done|by left].
    - rw Hb /= clear_slots_length clear_slots_take //.
    - pose proof (b_sane _ HB _ _ Hx) as Hs. by rw /sane_object Hb in Hs. }
  change (set_lists (put g1 o x2) (gray g1) (grayagain g1) (weak g1)) with (put g1 o x2) in V2.
  exists (put g1 o x2), x2. split.
  { apply bind_Ok in Hr as (ga & Hga & Hgb). by rw Hga Ok_bind Hgb Ok_bind (get_eq _ _ _ Hx1). }
  split; [by eapply traversal_trans|]. split; [by apply (marking_lists _ _ _ _ HM)|]. split; [by rw /= lookup_insert_eq|].
  split; [done|]. split; [by rw /= clear_slots_length Hl|]. exists x2. split; [by rw /= lookup_insert_eq|].
  rw /= clear_slots_take. eapply Forall_impl; [exact HF|]. intros c. by apply put_nonwhite.
Qed.

(** ** propagatemark() *)

Lemma tri_first D X g o rest : tri D X [] g -> gray g = o :: rest -> (o ∉ rest ++ grayagain g ++ weak g) /\ waiting g o.
Proof.
  intros HT Hg. pose proof (t_nodup _ _ _ _ HT) as Hnd. rw Hg /= in Hnd. apply NoDup_cons in Hnd as [? _]. split; [done|].
  apply (t_waiting _ _ _ _ HT); [|apply not_elem_of_nil]. rw Hg /=. apply list_elem_of_here.
Qed.

(** The first gray object is taken from the list. *)
Lemma tri_take D X g o rest x x1 ga : mbase g -> tri D X [] g -> gray g = o :: rest -> heap g !! o = Some x -> body x1 = body x -> sane_object x1 ->
  iswhite (marked x1) = false -> fixed (marked x1) = fixed (marked x) -> (ga = grayagain g \/ ga = o :: grayagain g) ->
  let g1 := set_lists (put g o x1) rest ga (weak g) in evolves g g1 /\ mbase g1 /\ tri D X [o] g1 /\ (work g1 < work g)%nat.
Proof.
  intros HB HT Hg Hx Hb Hs Hw Hfx Hga g1. destruct (tri_first _ _ _ _ _ HT Hg) as [Hni Hwait].
  assert (evolves g g1) as HE by (apply (evolves_put _ _ x); [done|rw Hb; apply similar_refl|done|congruence|done]).
  split; [done|]. split; [eapply evolves_mbase; [done|by apply sane_put; [apply HB|]|done]|]. split.
  - apply (tri_modify D X g g1 o x1); try done; [apply HB|apply tri_enter; [done|by apply waiting_nonwhite]| |]; simpl.
    + pose proof (t_nodup _ _ _ _ HT) as Hnd. rw Hg /= in Hnd. destruct Hga as [->| ->]; [by apply NoDup_cons in Hnd as [_ ?]|].
      by rw /= -Permutation_middle.
    + intros c Hc. rw Hg. split_and!; [set_solver| |done]. destruct Hga as [->| ->]; [done|set_solver].
  - pose proof (evolves_white_set _ _ HE). rw /work Hg /=. lia.
Qed.

(** What a step of the propagation does. *)
Record propagated D X g g' : Prop := {
  p_evolves : evolves g g';
  p_base : mbase g';
  p_tri : tri D X [] g';
  p_again : grayagain g ⊆ grayagain g'
}.

Lemma propagated_trans D X g1 g2 g3 : propagated D X g1 g2 -> propagated D X g2 g3 -> propagated D X g1 g3.
Proof. intros [? ? ? ?] [? ? ? ?]. split; [by etrans|done|done|by etrans]. Qed.

Lemma traversal_done D X g o g1 g' x' : evolves g g1 -> grayagain g ⊆ grayagain g1 -> traversal D X o g1 g' -> heap g' !! o = Some x' ->
  isblack (marked x') = true /\ (o ∉ gray g' ++ grayagain g' ++ weak g') /\ covered g' o \/
  isgray (marked x') = true /\ traversable (body x') = true /\ (o ∈ grayagain g' \/ o ∈ weak g') /\ (D o \/ complete g' o) -> propagated D X g g'.
Proof. intros HE Hga HV Hx Hc. split; [etrans; [done|apply HV]|apply HV|eapply tri_leave; [apply HV|done|done]|by rw (v_lists _ _ _ _ _ HV)]. Qed.

Lemma sane_blacken x : sane_object x -> never_black (body x) = false -> iswhite (marked x) = false -> sane_object (mkObject (gray2black (marked x)) (body x)).
Proof.
  intros (? & _ & _ & _) Hnb Hw. destruct x as [[] ?]. rw /iswhite /= in Hw. rw /sane_object /= Hnb /iswhite /= Hw /isgray /=. split_and!; try done. apply andb_false_r.
Qed.

(** An object that is traversed by marking what it points to. *)
Lemma propagate_marks D X g o rest x r : mbase g -> tri D X [] g -> gray g = o :: rest -> heap g !! o = Some x -> never_black (body x) = false ->
  let g1 := set_lists (put g o (mkObject (gray2black (marked x)) (body x))) rest (grayagain g) (weak g) in
  (mbase g1 -> heap g1 !! o = Some (mkObject (gray2black (marked x)) (body x)) -> marks_all (refs (heap g1) (body x)) g1 r) ->
  exists g', r = Ok g' /\ propagated D X g g' /\ (work g' < work g)%nat.
Proof.
  intros HB HT Hg Hx Hnb g1 Hr. destruct (tri_first _ _ _ _ _ HT Hg) as [Hni (y & Hy & Hgy & Hty)]. assert (y = x) as -> by congruence.
  set (x1 := mkObject (gray2black (marked x)) (body x)). fold x1 in g1. pose proof (isgray_nonwhite _ Hgy) as Hw.
  destruct (tri_take D X g o rest x x1 (grayagain g)) as (HE & HB1 & HT1 & Hwork); try done; [|by left|].
  { apply sane_blacken; [by apply (b_sane _ HB o)|done|done]. }
  fold g1 in HE, HB1, HT1, Hwork. assert (heap g1 !! o = Some x1) as Hx1 by (rw /g1 /= lookup_insert_eq //).
  destruct (Hr HB1 Hx1) as (g' & new & -> & HM & HF). exists g'. split; [done|].
  pose proof (traversal_marking _ _ _ _ _ _ HB1 HT1 HM) as HV. split; [|pose proof (v_work _ _ _ _ _ HV); lia].
  assert (heap g' !! o = Some x1) as Hx' by (by apply (marking_kept _ _ _ _ _ _ HM Hx1)).
  eapply traversal_done; [done|done|done|done|]. left. split; [done|]. destruct (marking_lists _ _ _ _ HM) as [-> ->]. split.
  - intros [Hin|Hin]%elem_of_app; [|rw /g1 /= in Hin; set_solver]. apply (v_fresh _ _ _ _ _ HV) in Hin; [rw /g1 /= in Hin; set_solver|]. by exists x1.
  - exists x1. split; [done|]. rw (refs_same (heap g1)); [by eapply marking_bodies|done].
Qed.

Lemma black2gray_gray m : iswhite m = false -> isgray (black2gray m) = true.
Proof. destruct m. rw /isgray /iswhite /= => ->. done. Qed.

Lemma propagate_table D X g o rest x m a ns : mbase g -> tri D X [] g -> gray g = o :: rest -> heap g !! o = Some x -> body x = BTable m a ns ->
  let g1 := set_lists (put g o (mkObject (gray2black (marked x)) (body x))) rest (grayagain g) (weak g) in
  exists g', ('(w, g) ← traversetable g1 o; if (w : bool) then set_marks g o black2gray else Ok g) = Ok g' /\ propagated D X g g' /\ (work g' < work g)%nat.
Proof.
  intros HB HT Hg Hx Hb g1. destruct (tri_first _ _ _ _ _ HT Hg) as [Hni (y & Hy & Hgy & Hty)]. assert (y = x) as -> by congruence.
  set (x1 := mkObject (gray2black (marked x)) (body x)). fold x1 in g1. pose proof (isgray_nonwhite _ Hgy) as Hw.
  destruct (tri_take D X g o rest x x1 (grayagain g)) as (HE & HB1 & HT1 & Hwork); try done; [|by left|].
  { apply sane_blacken; [by apply (b_sane _ HB o)|by rw Hb|done]. }
  fold g1 in HE, HB1, HT1, Hwork. assert (heap g1 !! o = Some x1) as Hx1 by (rw /g1 /= lookup_insert_eq //).
  destruct (traversetable_spec D X g1 o x1 m a ns) as (w & g2 & x2 & -> & HV & Hx2 & Hk2 & Hbl2 & Hc); try done. rw Ok_bind.
  pose proof (b_sane _ (v_base _ _ _ _ _ HV) _ _ Hx2) as Hs2. pose proof (sane_black _ Hs2 Hbl2) as Hw2.
  assert (o ∉ gray g2 ++ grayagain g2) as Hni2.
  { rw (v_lists _ _ _ _ _ HV). intros [Hin|Hin]%elem_of_app; [|rw /g1 /= in Hin; set_solver].
    apply (v_fresh _ _ _ _ _ HV) in Hin; [rw /g1 /= in Hin; set_solver|]. by exists x1. }
  pose proof (v_work _ _ _ _ _ HV) as Hwork2. destruct w.
  - destruct Hc as [Hin (y & Hy2 & _ & Hbits & HF)]. assert (y = x2) as -> by congruence. rw (set_marks_eq _ _ _ _ Hx2).
    set (x3 := mkObject (black2gray (marked x2)) (body x2)).
    assert (traversal D X o g2 (set_lists (put g2 o x3) (gray g2) (grayagain g2) (weak g2))) as V3.
    { eapply traversal_put; [apply HV|apply HV|exact Hx2|apply similar_refl|done| |done|done|by left].
      destruct Hs2 as (? & ? & _), (skel_table _ Hk2) as (m2 & a2 & ns2 & Hb2). rw /sane_object /x3 /= !andb_false_r Hb2 //. }
    change (set_lists (put g2 o x3) (gray g2) (grayagain g2) (weak g2)) with (put g2 o x3) in V3.
    exists (put g2 o x3). split; [done|]. split; [|pose proof (v_work _ _ _ _ _ V3); lia].
    eapply (traversal_done _ _ _ o g1 _ x3); [done|done|by eapply traversal_trans|by rw /= lookup_insert_eq|]. right.
    destruct (skel_table _ Hk2) as (m2 & a2 & ns2 & Hb2).
    split; [by apply black2gray_gray|]. split; [by rw /= Hb2|]. split; [by right|]. right. split; [|done]. intros _. exists x3. split; [by rw /= lookup_insert_eq|].
    split; [done|]. split; [done|]. eapply Forall_impl; [exact HF|]. intros c. by apply put_nonwhite.
  - destruct Hc as [Hnw Hc]. exists g2. split; [done|]. split; [|lia]. eapply traversal_done; [done|done|done|done|]. left. split; [done|]. split; [set_solver|done].
Qed.

Lemma propagate_thread D X g o rest x n top ups : mbase g -> tri D X [] g -> gray g = o :: rest -> heap g !! o = Some x -> skel_of (body x) = SkThread n top ups ->
  let g1 := set_lists g rest (o :: grayagain g) (weak g) in exists g', traversestack g1 o = Ok g' /\ propagated D X g g' /\ (work g' < work g)%nat.
Proof.
  intros HB HT Hg Hx Hb g1. destruct (tri_first _ _ _ _ _ HT Hg) as [Hni (y & Hy & Hgy & Hty)]. assert (y = x) as -> by congruence.
  destruct (tri_take D X g o rest x x (o :: grayagain g)) as (HE & HB1 & HT1 & Hwork); try done;
    [by apply (b_sane _ HB o)|by apply isgray_nonwhite|by right|].
  assert (set_lists (put g o x) rest (o :: grayagain g) (weak g) = g1) as Heq by (rw /put insert_id //). rw Heq in HE HB1 HT1 Hwork.
  destruct (traversestack_spec D X g1 o x n top ups) as (g2 & x2 & -> & HV & Hwk & Hx2 & Hm2 & Hk2 & Hc); try done; [by apply isgray_nonwhite|].
  exists g2. split; [done|]. split; [|pose proof (v_work _ _ _ _ _ HV); lia]. eapply traversal_done; [done|rw /g1 /=; set_solver|done|done|]. right.
  rw Hm2. split; [done|]. destruct (skel_thread _ _ _ _ Hk2) as (gt & st & cis & -> & _). split; [done|].
  rw (v_lists _ _ _ _ _ HV). split; [left; apply list_elem_of_here|]. right. split; [|done]. rw Hwk. intros Hin. rw /g1 /= in Hin. set_solver.
Qed.

Lemma propagatemark_spec D X g : mbase g -> tri D X [] g -> gray g <> [] ->
  exists g', propagatemark g = Ok g' /\ propagated D X g g' /\ (work g' < work g)%nat.
Proof.
  intros HB HT Hne. destruct (gray g) as [|o rest] eqn:Hg; [done|]. destruct (tri_first _ _ _ _ _ HT Hg) as [Hni (x & Hx & Hgx & Htx)].
  rw /propagatemark Hg (get_eq _ _ _ Hx) Ok_bind Hgx /= (set_marks_eq _ _ _ _ Hx) Ok_bind.
  destruct (body x) as [s|mt e|v|e us|e p us|mt a ns|src k us ps ls|gt st top cis ups] eqn:Hb; try done.
  - apply (propagate_marks D X g o rest x); try done; [by rw Hb|]. rw Hb. intros HB1 Hx1. by apply (traverseclosure_spec _ o _ HB1 Hx1).
  - apply (propagate_marks D X g o rest x); try done; [by rw Hb|]. rw Hb. intros HB1 Hx1. by apply (traverseclosure_spec _ o _ HB1 Hx1).
  - pose proof (propagate_table D X g o rest x mt a ns HB HT Hg Hx Hb) as Hp. by rw Hb in Hp.
  - apply (propagate_marks D X g o rest x); try done; [by rw Hb|]. rw Hb. intros HB1 Hx1. by apply (traverseproto_spec _ o _ _ _ _ _ _ HB1 Hx1).
  - destruct (propagate_thread D X g o rest x (length st) top ups) as (g' & Hr & Hp); try done; [by rw Hb|].
    exists g'. split; [|done]. rw /set_marks /get /= lookup_insert_eq /=.
    rw -Hr. f_equal. rw /put /= insert_insert_eq.
    assert (mkObject (black2gray (gray2black (marked x))) (BThread gt st top cis ups) = x) as ->.
    { apply isgray_nonblack in Hgx. destruct x as [[] ?]. simpl in *. by rw /isblack /= in Hgx; subst. }
    by rw (insert_id _ _ _ Hx).
Qed.

Lemma propagateall_loop D X fuel g : mbase g -> tri D X [] g -> (work g < fuel)%nat ->
  exists g', propagateall_ fuel g = Ok g' /\ propagated D X g g' /\ gray g' = [].
Proof.
  revert g. induction fuel as [|fuel IH]; intros g HB HT Hf; [lia|]. cbn [propagateall_]. destruct (gray g) as [|o rest] eqn:Hg.
  { exists g. split; [done|]. split; [|done]. by split. }
  destruct (propagatemark_spec D X g) as (g1 & -> & HP1 & Hw1); [done|done|by rw Hg|]. rw Ok_bind.
  destruct (IH g1) as (g' & Hr & HP & Hg'); [apply HP1|apply HP1|lia|]. exists g'. split; [done|]. split; [by eapply propagated_trans|done].
Qed.

Lemma propagateall_spec D X g : mbase g -> tri D X [] g -> exists g', propagateall g = Ok g' /\ propagated D X g g' /\ gray g' = [].
Proof. intros HB HT. apply propagateall_loop; [done|done|]. rw /work. pose proof (white_set_size g). lia. Qed.
