(* ===== verification/LuaGCAtomic.v ===== *)
(** LuaGCAtomic: the step atomic() that ends the mark phase (lgc.c). After it every object that
    is not dead points only to objects that are not dead, entries of weak tables included. *)

From Corelib Require Import ssreflect.
From stdpp Require Import base list gmap numbers strings.
From Stdlib Require Import ZArith Lia.
From S2P Require Import Prelude LuaHeap LuaGC LuaGCMark LuaGCInv LuaGCTri.

Implicit Type g : global_State.

(** ** Open upvalues *)

Lemma marking_waiting_gray new g g' o : marking [] new g g' -> is_gray g o -> is_gray g' o.
Proof. intros HM (x & Hx & Hg). exists x. split; [|done]. apply (marking_kept _ _ _ _ _ _ HM Hx). by apply isgray_nonwhite. Qed.

Lemma remark_spec uvs g : mbase g -> Forall (fun o => exists th i, sk g o = Some (SkOpen th i)) uvs ->
  exists g' new, remark uvs g = Ok g' /\ marking [] new g g' /\ Forall (fun o => is_gray g o -> covered g' o) uvs.
Proof.
  revert g. induction uvs as [|uv uvs IH]; intros g HB Huvs; [exists g, []; split; [done|]; split; [apply marking_refl|done]|].
  apply Forall_cons in Huvs as [(th & i & Huv) Huvs]. destruct (sk_inv _ _ _ Huv) as (x & Hx & Hb%skel_open).
  cbn [remark]. rw (get_eq _ _ _ Hx) Ok_bind Hb.
  destruct (shape_slot _ _ _ _ (b_shape _ HB) Huv) as (v & Hv).
  assert (exists g1 n1, (if isgray (marked x) then w ← upval_value (heap g) (UOpen th i); markvalue g w else Ok g) = Ok g1 /\ marking [] n1 g g1 /\
    (is_gray g uv -> covered g1 uv)) as (g1 & n1 & -> & HM1 & Hc).
  { destruct (isgray (marked x)) eqn:Hg; [|exists g, []; split; [done|]; split; [apply marking_refl|]; intros (y & ? & ?); congruence].
    rw /= Hv Ok_bind. destruct (markvalue_spec g v) as (g1 & n1 & -> & HM1 & HF); [by apply mbase_mark_ok| |].
    { apply (allocated_refs _ _ _ _ HB Hx). by rw Hb /= /upval_refs /= Hv. }
    exists g1, n1. split; [done|]. split; [done|]. intros _. exists x. split; [apply (marking_kept _ _ _ _ _ _ HM1 Hx); by apply isgray_nonwhite|].
    rw (refs_same _ _ _ (marking_bodies _ _ _ _ HM1)) Hb /= /upval_refs /= Hv. done. }
  rw Ok_bind. destruct (IH g1) as (g' & n' & Hr & HM' & HF'); [by eapply marking_mbase| |].
  { eapply Forall_impl; [exact Huvs|]. intros o. by rw (evolves_sk _ _ (marking_evolves _ _ _ HM1)). }
  exists g', (n' ++ n1). split; [done|]. split; [apply (marking_trans [] [] _ _ _ _ _ HM1 HM')|]. apply Forall_cons. split.
  - intros Hg. by apply (marking_covered _ _ _ _ _ HM'), Hc.
  - eapply Forall_impl; [exact HF'|]. intros o Ho Hg. apply Ho. by eapply marking_waiting_gray.
Qed.

Lemma marking_propagated D X new g g' : mbase g -> tri D X [] g -> marking [] new g g' -> propagated D X g g'.
Proof.
  intros HB HT HM. split; [by eapply marking_evolves|by eapply marking_mbase|by eapply tri_marking|]. by destruct (marking_lists _ _ _ _ HM) as [-> _].
Qed.

Definition upvals_covered g : Prop := forall o x, heap g !! o = Some x -> isgray (marked x) = true -> open_upval (body x) = true -> covered g o.

Lemma open_upval_skel b : open_upval b = true -> exists th i, skel_of b = SkOpen th i.
Proof. destruct b as [| |[th i|]| | | | |]; try done. eauto. Qed.

Lemma remarkupvals_spec D X g : mbase g -> tri D X [] g ->
  exists g', remarkupvals g = Ok g' /\ propagated D X g g' /\ upvals_covered g'.
Proof.
  intros HB HT. destruct (remark_spec (uvhead g) g) as (g' & new & Hr & HM & HF); [done|apply Forall_forall; intros o; apply (s_uv _ (b_shape _ HB))|].
  exists g'. split; [done|]. split; [by apply (marking_propagated _ _ new)|].
  intros o x' Hx' Hg (th & i & Hk)%open_upval_skel. destruct (marking_back _ _ _ _ _ _ HM Hx') as (x & Hx & Hb & Hm).
  rw Hb in Hk. assert (o ∈ uvhead g) as Hin.
  { apply (s_home _ (b_shape _ HB) o (SkOpen th i)). by rw (sk_lookup _ _ _ Hx) Hk. }
  destruct Hm as [->|(Hw & Hn & _)].
  - rw Forall_forall in HF. apply HF; [done|]. by exists x.
  - apply skel_open in Hk. destruct (marking_covered_new _ _ _ o x' HM) as [(_ & _ & Ht)|[(Hs & _)|(? & _)]]; try done; [by exists x|..]; by rw Hb Hk in Ht + rw Hb Hk in Hs.
Qed.

(** ** The lists of the atomic step *)

Lemma waiting_not_open g o x : waiting g o -> heap g !! o = Some x -> open_upval (body x) = false.
Proof. intros (y & Hy & _ & Ht) Hx. assert (y = x) as -> by congruence. by destruct (body x) as [| |[]| | | | |]. Qed.

Lemma tri_listed D X g o : tri D X [] g -> o ∈ gray g \/ o ∈ grayagain g \/ o ∈ weak g -> waiting g o.
Proof. intros HT Hin. apply (t_waiting _ _ _ _ HT); [|apply not_elem_of_nil]. rw !elem_of_app. tauto. Qed.

(** [D] holds of no open upvalue. *)
Definition not_upvals (D : loc -> Prop) g : Prop := forall o th i, D o -> sk g o <> Some (SkOpen th i).

Lemma tri_upvals D X g : tri D X [] g -> not_upvals D g -> upvals_covered g.
Proof.
  intros HT HD o x Hx Hg Ho. destruct (open_upval_skel _ Ho) as (th & i & Hk).
  assert (forall w, waiting g w -> w <> o) as Hnw by (intros w Hw ->; pose proof (waiting_not_open _ _ _ Hw Hx); congruence).
  destruct (t_gray _ _ _ _ HT o x Hx Hg) as [Hs|[Hin|(_ & [HDo|[_ Hc]])]]; [apply not_elem_of_nil|..].
  - by rw (skel_open _ _ _ Hk) in Hs.
  - exfalso. apply (Hnw o); [|done]. apply (tri_listed _ _ _ _ HT). tauto.
  - exfalso. apply (HD o th i HDo). by rw (sk_lookup _ _ _ Hx) Hk.
  - apply Hc. intros Hin. apply (Hnw o); [|done]. apply (tri_listed _ _ _ _ HT). tauto.
Qed.

(** The invariant after a change of the lists. *)
Lemma tri_relist D D' X g a b c : tri D X [] g -> upvals_covered g -> gray g ⊆ a -> NoDup (a ++ b ++ c) -> a ++ b ++ c ⊆ gray g ++ grayagain g ++ weak g ->
  (forall o, o ∈ grayagain g \/ o ∈ weak g -> o ∈ a \/ o ∈ b /\ D' o \/ o ∈ c /\ (D' o \/ o ∈ weak g /\ ~ D o)) -> tri D' X [] (set_lists g a b c).
Proof.
  intros HT Hu Ha Hnd Hsub Hl. split; simpl; [apply HT| |done|intros o Ho; apply (t_waiting _ _ _ _ HT); by apply Hsub|by intros o ?%elem_of_nil].
  intros o x Hx Hg _. destruct (t_gray _ _ _ _ HT o x Hx Hg) as [?|[?|(Ho & Hd)]]; [apply not_elem_of_nil|by left|by right; left; apply Ha|].
  assert (open_upval (body x) = true -> is_string (body x) = true \/ o ∈ a \/ (o ∈ b \/ o ∈ c \/ open_upval (body x) = true) /\ (D' o \/ complete (set_lists g a b c) o)) as Hop.
  { intros Hop. right; right. split; [by right; right|right]. split; simpl; [|by intros _; apply (Hu o x)]. intros Hin.
    rw (waiting_not_open g o x) // in Hop. apply (t_waiting _ _ _ _ HT); [|apply not_elem_of_nil]. apply Hsub. set_solver. }
  destruct (decide (open_upval (body x) = true)); [by apply Hop|]. assert (o ∈ grayagain g \/ o ∈ weak g) as Hin by tauto.
  destruct (Hl o Hin) as [?|[[? ?]|[Hc Hd']]]; [by right; left|right; right; tauto|]. right; right. split; [tauto|]. destruct Hd' as [?|[Hw HnD]]; [by left|].
  right. destruct Hd as [?|[Hwc _]]; [done|]. split; simpl; [by intros _; apply Hwc|done].
Qed.

Lemma mbase_lists g a b c : mbase g -> mbase (set_lists g a b c).
Proof. intros [HS ? ? ? ? Ht ?]. split; try done. by apply (shape_ext g). Qed.

Lemma evolves_set_lists g a b c : evolves g (set_lists g a b c).
Proof. split; [done|done|]. intros o x Hx. exists x. split_and!; try done. apply similar_refl. Qed.

Lemma evolves_not_upvals D g g' : evolves g g' -> not_upvals D g -> not_upvals D g'.
Proof. intros HE HD o th i Ho. rw (evolves_sk _ _ HE). by apply HD. Qed.

Lemma listed_not_upvals D X g (l : list loc) : tri D X [] g -> l ⊆ gray g ++ grayagain g ++ weak g -> not_upvals (fun o => o ∈ l) g.
Proof.
  intros HT Hl o th i Ho Hk. destruct (sk_inv _ _ _ Hk) as (x & Hx & Hb%skel_open).
  assert (waiting g o) as Hw by (apply (t_waiting _ _ _ _ HT); [by apply Hl|apply not_elem_of_nil]).
  pose proof (waiting_not_open _ _ _ Hw Hx) as Hop. by rw Hb in Hop.
Qed.

(** The roots that are marked again. *)
Definition roots g : list loc := mainthread g :: running g :: vref (l_registry g) ++ (mt g ≫= oref).

Lemma evolves_roots g g' : evolves g g' -> roots g' = roots g.
Proof. intros HE. by rw (e_frame _ _ HE). Qed.

Lemma markroots_spec D X g : mbase g -> tri D X [] g -> Forall (allocated g) (roots g) ->
  exists g', (g ← markobject g (running g); markmt g) = Ok g' /\ propagated D X g g' /\ Forall (nonwhite g') (running g :: (mt g ≫= oref)).
Proof.
  intros HB HT Ha. apply Forall_cons in Ha as [_ [Hr [_ Hm]%Forall_app]%Forall_cons].
  destruct (marks_all_bind [running g] (mt g ≫= oref) g (markobject g (running g)) markmt) as (g' & new & Hrun & HM & HF).
  - by apply markobject_spec; [apply mbase_mark_ok|].
  - intros g1 n1 HM1. rw /markmt. assert (mt g1 = mt g) as -> by (by rw (m_frame _ _ _ _ HM1)).
    apply markmts_spec; [apply mbase_mark_ok; by eapply marking_mbase|by eapply marking_allocateds].
  - exists g'. split; [done|]. split; [by eapply marking_propagated|done].
Qed.

(** The second half: the objects that wait in [grayagain] are traversed last. *)
Lemma atomic_again X g : mbase g -> tri (fun o => o ∈ grayagain g) X [] g -> Forall (allocated g) (roots g) ->
  exists g', (g ← markobject g (running g); g ← markmt g; g ← propagateall g; propagateall (set_lists g (grayagain g) [] (weak g))) = Ok g' /\
    evolves g g' /\ mbase g' /\ tri (fun _ => False) X [] g' /\ gray g' = [] /\ Forall (nonwhite g') (running g :: (mt g ≫= oref)).
Proof.
  intros HB HT Ha. destruct (markroots_spec _ _ _ HB HT Ha) as (g1 & Hr1 & P1 & HF1).
  pose proof (listed_not_upvals _ _ _ (grayagain g) HT ltac:(set_solver)) as Hnu.
  destruct (propagateall_spec _ _ _ (p_base _ _ _ _ P1) (p_tri _ _ _ _ P1)) as (g2 & Hr2 & P2 & Hg2).
  pose proof (p_tri _ _ _ _ P2) as HT2. pose proof (propagated_trans _ _ _ _ _ P1 P2) as P12.
  pose proof (tri_upvals _ _ _ HT2 (evolves_not_upvals _ _ _ (p_evolves _ _ _ _ P12) Hnu)) as Hu2.
  pose proof (t_nodup _ _ _ _ HT2) as Hnd2. rw Hg2 /= in Hnd2. set (g3 := set_lists g2 (grayagain g2) [] (weak g2)).
  assert (tri (fun _ => False) X [] g3) as HT3.
  { eapply tri_relist; [done|done|rw Hg2; set_solver|done|rw Hg2; set_solver|]. intros o [?|Hw]; [by left|]. right; right. split; [done|].
    right. split; [done|]. intros Hga%(p_again _ _ _ _ P12). apply NoDup_app in Hnd2 as (_ & Hd & _). by apply (Hd o). }
  destruct (propagateall_spec _ _ _ (mbase_lists _ (grayagain g2) [] (weak g2) (p_base _ _ _ _ P2)) HT3) as (g4 & Hr4 & P4 & Hg4).
  exists g4. apply bind_Ok in Hr1 as (ga & Hga & Hgb). split; [by rw Hga Ok_bind Hgb Ok_bind Hr2 Ok_bind Hr4|].
  assert (evolves g1 g4) as E14 by (etrans; [apply P2|]; etrans; [apply evolves_set_lists|apply P4]).
  split; [etrans; [apply P1|done]|]. split; [apply P4|]. split; [apply P4|]. split; [done|].
  eapply Forall_impl; [exact HF1|]. intros o. apply (evolves_nonwhite _ _ E14).
Qed.

Lemma atomic_mark_spec X g : mbase g -> tri (fun _ => True) X [] g -> nonwhite g (mainthread g) -> Forall (allocated g) (roots g) ->
  exists g', atomic_mark g = Ok g' /\ evolves g g' /\ mbase g' /\ tri (fun _ => False) X [] g' /\ gray g' = [] /\ Forall (nonwhite g') (running g :: (mt g ≫= oref)).
Proof.
  intros HB HT Hmain Ha. rw /atomic_mark. destruct (remarkupvals_spec _ _ _ HB HT) as (g1 & -> & P1 & Hu1). rw Ok_bind.
  pose proof (p_tri _ _ _ _ P1) as HT1. assert (tri (fun o => o ∈ grayagain g1 ++ weak g1) X [] g1) as HT1'.
  { rw -(set_lists_self g1). eapply tri_relist; [done|done|done|apply HT1|done|]. simpl. intros o. rw !elem_of_app. tauto. }
  pose proof (listed_not_upvals _ _ _ (grayagain g1 ++ weak g1) HT1 ltac:(set_solver)) as Hnu.
  destruct (propagateall_spec _ _ _ (p_base _ _ _ _ P1) HT1') as (g2 & -> & P2 & Hg2). rw Ok_bind. cbv zeta.
  pose proof (p_tri _ _ _ _ P2) as HT2. pose proof (tri_upvals _ _ _ HT2 (evolves_not_upvals _ _ _ (p_evolves _ _ _ _ P2) Hnu)) as Hu2.
  pose proof (t_nodup _ _ _ _ HT2) as Hnd2. rw Hg2 /= in Hnd2.
  set (g3 := set_lists g2 (weak g2) (grayagain g2) []).
  assert (tri (fun o => o ∈ grayagain g2) X [] g3) as HT3.
  { eapply tri_relist; [done|done|rw Hg2; set_solver| |rw Hg2; set_solver|tauto]. by rw app_nil_r Permutation_app_comm. }
  assert (evolves g g3) as E3 by (etrans; [apply P1|]; etrans; [apply P2|apply evolves_set_lists]).
  assert (mainthread g3 = mainthread g) as Hmt by (by rw (e_frame _ _ E3)).
  destruct (evolves_nonwhite _ _ E3 _ Hmain) as (xm & Hxm & Hwm). rw Hmt (get_eq _ _ _ Hxm) Ok_bind Hwm /=.
  pose proof (mbase_lists _ (weak g2) (grayagain g2) [] (p_base _ _ _ _ P2)) as HB3. fold g3 in HB3.
  destruct (atomic_again X g3 HB3 HT3) as (g4 & Hr4 & E4 & HB4 & HT4 & Hg4 & HF4).
  { rw (evolves_roots _ _ E3). eapply Forall_impl; [exact Ha|]. intros o. apply (evolves_allocated _ _ E3). }
  exists g4. split; [done|]. split; [by etrans|]. split_and!; try done. by rw (e_frame _ _ E3) /= in HF4.
Qed.
