(* ===== verification/LuaGCFinal.v ===== *)
(** LuaGCFinal: finalizers and weak tables at the end of the mark phase of the collector:
    luaC_separateudata(), marktmu(), cleartable() and the whole of atomic() (lgc.c). *)

From Corelib Require Import ssreflect.
From stdpp Require Import base list gmap numbers strings.
From Stdlib Require Import ZArith Lia.
From S2P Require Import Prelude LuaHeap LuaGC LuaGCMark LuaGCInv LuaGCTri LuaGCAtomic.

Implicit Type g : global_State.

(** ** Userdata to be finalized *)

(** Userdata get the mark of finalized ones. *)
Record finalizing g g' : Prop := {
  f_frame : g' = set_heap g (heap g');
  f_none o : heap g !! o = None -> heap g' !! o = None;
  f_some o x : heap g !! o = Some x -> exists x', heap g' !! o = Some x' /\ body x' = body x /\
    (x' = x \/ skel_of (body x) = SkUdata /\ marked x' = markfinalized (marked x))
}.

#[export] Instance finalizing_refl : Reflexive finalizing.
Proof. intros g. split; [by destruct g|done|]. intros o x Hx. exists x. auto. Qed.

#[export] Instance finalizing_trans : Transitive finalizing.
Proof.
  intros g1 g2 g3 H12 H23. split.
  - rw (f_frame _ _ H23) (f_frame _ _ H12). done.
  - intros o Ho. by apply (f_none _ _ H23), (f_none _ _ H12).
  - intros o x Hx. destruct (f_some _ _ H12 o x Hx) as (y & Hy & Hb & Hm). destruct (f_some _ _ H23 o y Hy) as (z & Hz & Hb2 & Hm2).
    exists z. split; [done|]. split; [congruence|]. destruct Hm as [->|[? Hm]]; [done|]. right. split; [done|].
    destruct Hm2 as [->|[_ Hm2]]; [done|]. rw Hm2 Hm. done.
Qed.

Section finalizing.
Context (g g' : global_State) (HF : finalizing g g').

Lemma finalizing_bodies : same_bodies (heap g) (heap g').
Proof using HF.
  intros o. destruct (heap g !! o) as [x|] eqn:Hx; [|by rw (f_none _ _ HF _ Hx)]. destruct (f_some _ _ HF o x Hx) as (x' & -> & Hb & _). by rw /= Hb.
Qed.
Lemma finalizing_sk o : sk g' o = sk g o.
Proof using HF. rw /sk. pose proof (finalizing_bodies o) as Hb. destruct (heap g !! o), (heap g' !! o); try done. simpl in *. by injection Hb as ->. Qed.

Lemma finalizing_back o x' : heap g' !! o = Some x' -> exists x, heap g !! o = Some x /\ body x' = body x /\
  (x' = x \/ skel_of (body x) = SkUdata /\ marked x' = markfinalized (marked x)).
Proof using HF.
  intros Hx'. destruct (heap g !! o) as [x|] eqn:Hx; [|by rw (f_none _ _ HF _ Hx) in Hx'].
  destruct (f_some _ _ HF o x Hx) as (y & Hy & Hm). exists x. split; [done|]. by assert (y = x') as <- by congruence.
Qed.

(** The colours are the same. *)
Lemma finalizing_colour o x' : heap g' !! o = Some x' -> exists x, heap g !! o = Some x /\ body x' = body x /\ iswhite (marked x') = iswhite (marked x) /\
  isblack (marked x') = isblack (marked x) /\ (forall w, isdead w (marked x') = isdead w (marked x)) /\ (sane_object x -> sane_object x') /\
  (skel_of (body x) <> SkUdata -> x' = x).
Proof using HF.
  intros Hx'. destruct (finalizing_back o x' Hx') as (x & Hx & Hb & Hm). exists x. split; [done|]. split; [done|].
  destruct Hm as [->|[Hk Hm]]; [done|]. rw /sane_object Hb Hm. by destruct x as [[] ?].
Qed.

Lemma finalizing_allocated o : allocated g o -> allocated g' o.
Proof using HF. intros [x Hx]. destruct (f_some _ _ HF o x Hx) as (x' & ? & _). by exists x'. Qed.
Lemma finalizing_nonwhite o : nonwhite g o -> nonwhite g' o.
Proof using HF.
  intros (x & Hx & Hw). destruct (f_some _ _ HF o x Hx) as (x' & Hx' & _). destruct (finalizing_colour o x' Hx') as (y & Hy & _ & Hwy & _).
  exists x'. split; [done|]. congruence.
Qed.

Lemma finalizing_mbase : mbase g -> mbase g'.
Proof using HF.
  intros [HS Hone Hs Hd Hr Ht Hfix]. assert (currentwhite g' = currentwhite g) as Hcw by (by rw (f_frame _ _ HF)).
  split; [|by rw Hcw|..].
  - apply (shape_ext g); [apply finalizing_sk| |done]. by rw (f_frame _ _ HF).
  - intros o x' Hx'. destruct (finalizing_colour _ _ Hx') as (x & Hx & _ & _ & _ & _ & Hsx & _). by apply Hsx, (Hs o).
  - intros o x' Hx'. destruct (finalizing_colour _ _ Hx') as (x & Hx & _ & _ & _ & -> & _). rw Hcw. by apply (Hd o).
  - intros o x' Hx'. destruct (finalizing_colour _ _ Hx') as (x & Hx & Hb & _). rw Hb (refs_same _ _ _ finalizing_bodies).
    eapply Forall_impl; [by apply (Hr o)|]. intros c. by apply finalizing_allocated.
  - intros o x' Hx'. destruct (finalizing_colour _ _ Hx') as (x & Hx & Hb & _). rw Hb. pose proof (Ht o x Hx) as Htx.
    destruct (body x); simpl in *; try done; [|destruct Htx as [Htx ?]; split; [|done]|]; (eapply Forall_impl; [exact Htx|]); intros c; by rw finalizing_sk.
  - intros o x' Hx'. assert (mainthread g' = mainthread g) as -> by (by rw (f_frame _ _ HF)).
    destruct (finalizing_back _ _ Hx') as (x & Hx & Hb & Hm). rw Hb. intros Hf. apply (Hfix o x Hx). destruct Hm as [->|[_ Hm]]; [done|]. by rw Hm in Hf.
Qed.

Lemma finalizing_covered o : covered g o -> covered g' o.
Proof using HF.
  intros (x & Hx & HR). destruct (f_some _ _ HF o x Hx) as (x' & Hx' & Hb & _). exists x'. split; [done|]. rw Hb (refs_same _ _ _ finalizing_bodies).
  eapply Forall_impl; [exact HR|]. intros c. apply finalizing_nonwhite.
Qed.

Lemma finalizing_tri D X C : tri D X C g -> tri D X C g'.
Proof using HF.
  intros HT. assert (gray g' = gray g /\ grayagain g' = grayagain g /\ weak g' = weak g) as (E1 & E2 & E3) by (by rw (f_frame _ _ HF)).
  split; rw ?E1 ?E2 ?E3.
  - intros o x' Hx' Hb HX HC. destruct (finalizing_colour _ _ Hx') as (x & Hx & _ & _ & Hbx & _). apply finalizing_covered, (t_black _ _ _ _ HT o x); congruence.
  - intros o x' Hx' Hg HC. destruct (finalizing_colour _ _ Hx') as (x & Hx & Hb & Hwx & Hbx & _). rw /isgray Hwx Hbx in Hg. rw Hb.
    destruct (t_gray _ _ _ _ HT o x Hx Hg HC) as [?|[?|(? & Hd)]]; [by left|by right; left|right; right]. split; [done|]. destruct Hd as [?|[Hw Hc]]; [by left|right].
    rw /complete E3. split; [|by intros ?%Hc; apply finalizing_covered]. intros (y & Hy & Hk & Hbits & HR)%Hw. exists y.
    destruct (f_some _ _ HF o y Hy) as (y' & Hy' & _ & [->|[? _]]); [|congruence]. split_and!; try done. eapply Forall_impl; [exact HR|]. intros c. apply finalizing_nonwhite.
  - apply HT.
  - intros o Hin HC. destruct (t_waiting _ _ _ _ HT o Hin HC) as (x & Hx & Hg & Ht). destruct (f_some _ _ HF o x Hx) as (x' & Hx' & Hb & _).
    destruct (finalizing_colour _ _ Hx') as (y & Hy & _ & Hwy & Hby & _). exists x'. rw /isgray Hwy Hby Hb. assert (y = x) as -> by congruence. done.
  - intros o Ho. apply finalizing_nonwhite, (t_current _ _ _ _ HT o Ho).
Qed.
End finalizing.

Lemma finalizing_put g o x : heap g !! o = Some x -> skel_of (body x) = SkUdata -> finalizing g (put g o (mkObject (markfinalized (marked x)) (body x))).
Proof.
  intros Hx Hk. split; [done|..]; simpl.
  - intros o' Ho'. rw lookup_insert_ne //. congruence.
  - intros o' y Hy. destruct (decide (o' = o)) as [->|].
    + assert (y = x) as -> by congruence. eexists. rw lookup_insert_eq. split; [done|]. split; [done|]. by right.
    + exists y. rw lookup_insert_ne //. auto.
Qed.

(** The loop: objects stay or move, those that move are white. *)
Lemma separate_loop_spec all us g : mbase g -> Forall (fun o => sk g o = Some SkUdata) us ->
  exists stay move g', separate_loop all us g = Ok (stay, move, g') /\ finalizing g g' /\ stay ++ move ≡ₚ us.
Proof.
  revert g. induction us as [|u us IH]; intros g HB Hus; [by exists [], [], g|].
  apply Forall_cons in Hus as [Hu Hus]. destruct (sk_inv _ _ _ Hu) as (x & Hx & Hk). cbn [separate_loop]. rw (get_eq _ _ _ Hx) Ok_bind.
  destruct (negb (iswhite (marked x) || all) || isfinalized (marked x)).
  - destruct (IH g HB Hus) as (stay & move & g' & -> & HF & HP). exists (u :: stay), move, g'. rw Ok_bind. split; [done|]. split; [done|]. by rw /= HP.
  - destruct (skel_udata _ Hk) as (m & e & Hb). pose proof (b_typed _ HB _ _ Hx) as Hty. rw Hb /= in Hty. rw Hb.
    destruct (fasttm_ok g m (tm_gc g) HB Hty) as (tm & -> & _). rw Ok_bind (set_marks_eq _ _ _ _ Hx) Ok_bind.
    pose proof (finalizing_put g u x Hx Hk) as HF1. set (g1 := put g u (mkObject (markfinalized (marked x)) (body x))) in *.
    destruct (IH g1) as (stay & move & g' & -> & HF & HP); [by eapply finalizing_mbase| |].
    { eapply Forall_impl; [exact Hus|]. intros o. by rw (finalizing_sk _ _ HF1). }
    rw Ok_bind. assert (finalizing g g') as HF' by (by etrans).
    destruct tm; [exists (u :: stay), move, g'|exists stay, (u :: move), g'..]; (split; [done|]; split; [done|]); [by rw /= HP|by rw -Permutation_middle HP..].
Qed.

(** The place after the main thread. *)
Lemma main_end_spec g : shape g -> exists pre post, rootgc g = pre ++ mainthread g :: post /\ main_end g = S (length pre) /\ (mainthread g ∉ pre) /\
  Forall (fun o => sk g o = Some SkUdata) post.
Proof.
  intros HS. destruct (s_main _ HS) as (pre & post & Hr & Hp). exists pre, post. pose proof (s_nodup _ HS) as Hnd. rw Hr -app_assoc in Hnd.
  assert (mainthread g ∉ pre) as Hni by (apply NoDup_app in Hnd as (_ & Hd & _); intros Hin; apply (Hd _ Hin); apply elem_of_app; left; apply list_elem_of_here).
  split; [done|]. split; [|done]. rw /main_end Hr. rw list_find_app_r; [by apply list_find_None, Forall_forall; intros o Ho ->|].
  simpl. destruct (decide (mainthread g = mainthread g)); [|done]. done.
Qed.

Lemma separate_shape g pre post stay move : shape g -> rootgc g = pre ++ mainthread g :: post -> Forall (fun o => sk g o = Some SkUdata) post ->
  stay ++ move ≡ₚ post -> shape (set_tmudata (set_rootgc g (pre ++ mainthread g :: stay) (sweepgc g)) (tmudata g ++ move)).
Proof.
  intros HS Hr Hp HP. assert (forall o, o ∈ stay ++ move -> sk g o = Some SkUdata) as Hu.
  { intros o Ho. rw HP in Ho. by apply (proj1 (Forall_forall _ _) Hp). }
  split; simpl; try apply HS.
  - intros o k Hk. change (sk g o = Some k) in Hk. pose proof (s_home _ HS o k Hk) as Hin. assert (o ∈ rootgc g -> k <> SkUdata -> o ∈ pre ++ mainthread g :: stay) as Hroot.
    { rw Hr. intros [?|[->|Hin']%elem_of_cons]%elem_of_app Hne; [set_solver|set_solver|]. apply (proj1 (Forall_forall _ _) Hp) in Hin'. rw Hk in Hin'. by injection Hin'. }
    destruct k; simpl in *; try (by apply Hroot); try done. rw Hr in Hin. rw -HP in Hin. set_solver.
  - intros o [?|[->|Ho]%elem_of_cons]%elem_of_app.
    + apply (s_root _ HS). rw Hr. set_solver.
    + apply (s_root _ HS). rw Hr. set_solver.
    + exists SkUdata. split; [|done]. apply Hu. set_solver.
  - intros o [?|?]%elem_of_app; [by apply (s_tmu _ HS)|apply Hu; set_solver].
  - pose proof (s_nodup _ HS) as Hnd. rw Hr -HP in Hnd. eapply NoDup_Permutation_proper; [|exact Hnd].
    rw -!app_assoc /=. do 2 f_equiv. rw -!app_assoc. f_equiv. by rw (Permutation_app_comm (tmudata g)).
  - exists pre, stay. split; [done|]. apply Forall_forall. intros o Ho. apply Hu. set_solver.
Qed.

Lemma luaC_separateudata_spec D g all : mbase g -> tri D (tmudata g) [] g ->
  exists g1 pre post stay move, luaC_separateudata g all = Ok (set_tmudata (set_rootgc g1 (pre ++ mainthread g1 :: stay) (sweepgc g1)) (tmudata g1 ++ move)) /\
    finalizing g g1 /\ rootgc g = pre ++ mainthread g :: post /\ Forall (fun o => sk g o = Some SkUdata) post /\ stay ++ move ≡ₚ post.
Proof.
  intros HB HT. destruct (main_end_spec _ (b_shape _ HB)) as (pre & post & Hr & He & _ & Hp).
  rw /luaC_separateudata He Hr. assert (take (S (length pre)) (pre ++ mainthread g :: post) = pre ++ [mainthread g]) as Ht.
  { rw take_app_ge; [lia|]. by replace (S (length pre) - length pre)%nat with 1%nat by lia. }
  assert (drop (S (length pre)) (pre ++ mainthread g :: post) = post) as Hd.
  { rw drop_app_ge; [lia|]. by replace (S (length pre) - length pre)%nat with 1%nat by lia. }
  rw Hd. destruct (separate_loop_spec all post g HB Hp) as (stay & move & g1 & -> & HF & HP). rw Ok_bind.
  exists g1, pre, post, stay, move. split; [|done]. assert (rootgc g1 = rootgc g /\ mainthread g1 = mainthread g) as [-> ->] by (by rw (f_frame _ _ HF)).
  by rw Hr Ht -app_assoc.
Qed.

(** *** They are marked *)

Lemma alive_white w m : one_white w -> isdead w m = false -> white0 m && white1 m = false -> iswhite m = true -> white0 m = white0 w /\ white1 m = white1 w.
Proof. intros (b & f & ->). destruct m as [[] [] ? ? ? ? ?], b; done. Qed.

Lemma makewhite_alive w m : one_white w -> isdead w (makewhite w m) = false /\ iswhite (makewhite w m) = true /\ white0 (makewhite w m) && white1 (makewhite w m) = false.
Proof. intros (b & f & ->). destruct m, b; done. Qed.

Lemma sane_makewhite w m b : one_white w -> sane_object (mkObject (makewhite w m) b).
Proof.
  intros Hone. destruct (makewhite_alive w m Hone) as (_ & Hw & H01). split; [exact H01|]. rw /isgray [iswhite _]Hw /= !andb_false_r. done.
Qed.

(** A mark that changes the colour of one object. *)
Lemma mbase_recolour g o x m : mbase g -> heap g !! o = Some x -> sane_object (mkObject m (body x)) -> isdead (currentwhite g) m = false -> fixed m = fixed (marked x) -> mbase (put g o (mkObject m (body x))).
Proof.
  intros [HS Hone Hs Hd Hr Ht Hfix] Hx Hsane Hdead Hfx. pose proof (put_bodies g o x m Hx) as Hb. set (g' := put g o (mkObject m (body x))) in *.
  assert (forall o', sk g' o' = sk g o') as Hsk.
  { intros o'. rw /sk. specialize (Hb o'). destruct (heap g !! o'), (heap g' !! o'); try done. simpl in *. by injection Hb as ->. }
  assert (forall o' x', heap g' !! o' = Some x' -> exists y, heap g !! o' = Some y /\ body x' = body y /\ (x' = y \/ x' = mkObject m (body x))) as Hback.
  { intros o' x'. rw /g' /=. destruct (decide (o' = o)) as [->|]; [rw lookup_insert_eq|rw lookup_insert_ne //]; [intros [= <-]; exists x; auto|intros Hx'; exists x'; auto]. }
  split; [by apply (shape_ext g)|done|..].
  - intros o' x' (y & Hy & _ & [->| ->])%Hback; [by apply (Hs o')|done].
  - intros o' x' (y & Hy & _ & [->| ->])%Hback; [by apply (Hd o')|done].
  - intros o' x' (y & Hy & Hbx & _)%Hback. rw Hbx (refs_same _ _ _ Hb). eapply Forall_impl; [by apply (Hr o')|]. intros c [z Hz].
    rw /allocated /g' /=. destruct (decide (c = o)) as [->|]; [by rw lookup_insert_eq|by rw lookup_insert_ne; [|exists z]].
  - intros o' x' (y & Hy & Hbx & _)%Hback. rw Hbx. pose proof (Ht o' y Hy) as Hty.
    destruct (body y); simpl in *; try done; [|destruct Hty as [Hty ?]; split; [|done]|]; (eapply Forall_impl; [exact Hty|]); intros c; by rw Hsk.
  - intros o' x'. rw /g' /=. destruct (decide (o' = o)) as [->|]; [rw lookup_insert_eq; intros [= <-]; rw /= Hfx; by apply Hfix|rw lookup_insert_ne //; apply Hfix].
Qed.

(** An object that was black is made white and marked again. *)
Lemma marking_again new g g' o x : heap g !! o = Some x -> isblack (marked x) = true -> iswhite (marked x) = false ->
  marking [] new (put g o (mkObject (makewhite (currentwhite g) (marked x)) (body x))) g' -> nonwhite g' o -> skel_of (body x) = SkUdata -> one_white (currentwhite g) ->
  marking [] new g g' /\ covered g' o.
Proof.
  intros Hx Hbl Hw HM Hn Hk Hone. set (g1 := put g o (mkObject (makewhite (currentwhite g) (marked x)) (body x))) in *.
  destruct (makewhite_alive _ (marked x) Hone) as (_ & Hw1 & _). destruct (skel_udata _ Hk) as (m & e & Hb).
  assert (is_white g1 o) as Hwo by (eexists; rw /g1 /= lookup_insert_eq; split; [done|exact Hw1]). destruct Hn as (x' & Hx' & Hwx').
  destruct (marking_covered_new _ _ _ o x' HM Hwo Hx' Hwx') as [(_ & _ & Ht)|[(Hs & _)|(Hcov & _ & _ & Hblx)]].
  { exfalso. destruct (marking_back _ _ _ _ _ _ HM Hx') as (y & Hy & Hby & _). rw /g1 /= lookup_insert_eq in Hy. injection Hy as <-. by rw Hby /= Hb in Ht. }
  { exfalso. destruct (marking_back _ _ _ _ _ _ HM Hx') as (y & Hy & Hby & _). rw /g1 /= lookup_insert_eq in Hy. injection Hy as <-. by rw Hby /= Hb in Hs. }
  assert (x' = x) as ->.
  { destruct (marking_back _ _ _ _ _ _ HM Hx') as (y & Hy & Hby & Hm). rw /g1 /= lookup_insert_eq in Hy. injection Hy as <-. simpl in *.
    destruct Hm as [->|(_ & _ & Hf)]; [by rw /= Hw1 in Hwx'|]. rw Hby Hb /= in Hblx. destruct x as [[] ?], x' as [[] ?]. rw /same_flags /iswhite /isblack /= in Hf Hw Hwx' Hbl Hblx *.
    apply orb_false_iff in Hw as [-> ->]. apply orb_false_iff in Hwx' as [-> ->]. destruct Hf as (-> & -> & -> & ->). simpl in *. by subst. }
  split; [|done]. assert (forall c, c <> o -> heap g1 !! c = heap g !! c) as Hother by (intros c Hc; by rw /g1 /= lookup_insert_ne).
  split; try apply HM.
  - intros c Hc. apply (m_none _ _ _ _ HM). rw Hother //. congruence.
  - intros c y Hy. destruct (decide (c = o)) as [->|Hne]; [|apply (m_some _ _ _ _ HM); by rw Hother]. assert (y = x) as -> by congruence. exists x. auto.
  - intros c Hc. destruct (m_fresh _ _ _ _ HM c Hc) as [(y & Hy & ?) (z & Hz & ? & Ht)]. split; [|by exists z]. exists y. rw -Hother //.
    intros ->. assert (z = x) as -> by congruence. by rw Hb in Ht.
  - intros c y (z & Hz & Hwz) Hy Hwy. apply (m_done _ _ _ _ HM c y); [|done..]. destruct (decide (c = o)) as [->|Hne]; [done|]. exists z. by rw Hother.
Qed.

(** *** marktmu() *)

Lemma tri_drop D u us C g : covered g u -> tri D (u :: us) C g -> tri D us C g.
Proof.
  intros Hc HT. split; try apply HT. intros o x Hx Hb HX HC. destruct (decide (o = u)) as [->|Hne]; [done|]. apply (t_black _ _ _ _ HT o x); set_solver.
Qed.

Lemma marktmu_step g u us : mbase g -> tri (fun _ => False) (u :: us) [] g -> sk g u = Some SkUdata ->
  exists g', (g ← set_marks g u (makewhite (currentwhite g)); reallymarkobject g u) = Ok g' /\ propagated (fun _ => False) us g g' /\ nonwhite g' u.
Proof.
  intros HB HT Hu. destruct (sk_inv _ _ _ Hu) as (x & Hx & Hk). rw (set_marks_eq _ _ _ _ Hx) Ok_bind.
  set (x1 := mkObject (makewhite (currentwhite g) (marked x)) (body x)). destruct (makewhite_alive _ (marked x) (b_white _ HB)) as (Hd1 & Hw1 & H01).
  assert (mbase (put g u x1)) as HB1.
  { apply mbase_recolour; [done|done|apply sane_makewhite, HB|done|done]. }
  destruct (reallymarkobject_spec (put g u x1) u) as (g' & new & -> & HM & HF); [by apply mbase_mark_ok|exists x1; by rw /= lookup_insert_eq|].
  apply Forall_cons in HF as [HF _]. exists g'. split; [done|]. assert (marking [] new g g' /\ covered g' u) as [HM' Hc].
  { destruct (iswhite (marked x)) eqn:Hw.
    - assert (x1 = x) as Hxx.
      { destruct (alive_white _ _ (b_white _ HB) (b_dead _ HB _ _ Hx) (proj1 (b_sane _ HB _ _ Hx)) Hw) as [E0 E1]. pose proof (b_sane _ HB _ _ Hx) as (_ & Hnb & _).
        rw Hw /= in Hnb. rw /x1 /makewhite -E0 -E1. destruct x as [[] ?]. rw /isblack /= in Hnb. by subst. }
      rw Hxx /put insert_id // in HM. replace (set_heap g (heap g)) with g in HM by (by destruct g). split; [done|]. destruct HF as (x' & Hx' & Hwx').
      destruct (marking_covered_new _ _ _ u x' HM) as [(_ & _ & Ht)|[(Hs & _)|(? & _)]]; try done; [by exists x|..];
        destruct (marking_back _ _ _ _ _ _ HM Hx') as (y & Hy & Hby & _); assert (y = x) as -> by congruence; destruct (skel_udata _ Hk) as (m & e & Hb); by rw Hby Hb in Ht + rw Hby Hb in Hs.
    - eapply marking_again; try done; [|by apply HB]. pose proof (b_sane _ HB _ _ Hx) as (_ & _ & _ & Hg). destruct (skel_udata _ Hk) as (m & e & Hb). rw /isgray Hw Hb /= in Hg. by destruct (isblack (marked x)). }
  split; [|done]. split; [by eapply marking_evolves|by eapply marking_mbase| |by destruct (marking_lists _ _ _ _ HM') as [-> _]].
  eapply tri_drop; [done|]. by eapply tri_marking.
Qed.

Lemma marktmu_loop_spec us g : mbase g -> tri (fun _ => False) us [] g -> Forall (fun o => sk g o = Some SkUdata) us ->
  exists g', marktmu_loop us g = Ok g' /\ propagated (fun _ => False) [] g g' /\ Forall (nonwhite g') us.
Proof.
  revert g. induction us as [|u us IH]; intros g HB HT Hus; [exists g; split; [done|]; split; [by split|done]|].
  apply Forall_cons in Hus as [Hu Hus]. destruct (marktmu_step g u us HB HT Hu) as (g1 & Hr & P1 & Hn1). apply bind_Ok in Hr as (ga & Ha & Hb).
  cbn [marktmu_loop]. rw Ha Ok_bind Hb Ok_bind. destruct (IH g1) as (g' & Hr & P' & HF); [apply P1|apply P1| |].
  { eapply Forall_impl; [exact Hus|]. intros o. by rw (evolves_sk _ _ (p_evolves _ _ _ _ P1)). }
  exists g'. split; [done|]. split; [split; [etrans; [apply P1|apply P']|apply P'|apply P'|etrans; [apply P1|apply P']]|].
  apply Forall_cons. split; [|done]. by apply (evolves_nonwhite _ _ (p_evolves _ _ _ _ P')).
Qed.

(** ** Weak tables *)

(** Every marked object points to marked ones; the weak tables in [l] have not been cleared yet. *)
Definition all_covered (l : list loc) g : Prop := (forall o, o ∈ l -> nonwhite g o /\ weak_covered g o) /\ (forall o, nonwhite g o -> o ∉ l -> covered g o).

Lemma tri_all_covered g : tri (fun _ => False) [] [] g -> gray g = [] -> all_covered (weak g) g.
Proof.
  intros HT Hg. split.
  - intros o Hin. pose proof (tri_listed _ _ _ o HT ltac:(tauto)) as Hw. split; [by apply waiting_nonwhite|]. destruct Hw as (x & Hx & Hgx & Ht).
    destruct (t_gray _ _ _ _ HT o x Hx Hgx) as [Hs|[Hin'|(_ & [?|[Hc _]])]]; [apply not_elem_of_nil|by destruct (body x)| |done|by apply Hc].
    rw Hg in Hin'. by apply elem_of_nil in Hin'.
  - intros o (x & Hx & Hw) Hni. destruct (isblack (marked x)) eqn:Hb; [by apply (t_black _ _ _ _ HT o x); try apply not_elem_of_nil|].
    assert (isgray (marked x) = true) as Hgx by (by rw /isgray Hb Hw). destruct (t_gray _ _ _ _ HT o x Hx Hgx) as [Hs|[Hin|(_ & [?|[_ Hc]])]]; [apply not_elem_of_nil|..].
    + exists x. split; [done|]. by destruct (body x).
    + rw Hg in Hin. by apply elem_of_nil in Hin.
    + done.
    + by apply Hc.
Qed.

(** Strings may be marked. *)
Lemma marking_all_covered l g g' : all_covered l g -> marking [] [] g g' -> all_covered l g'.
Proof.
  intros [Hl HA] HM. split.
  - intros o Hin. destruct (Hl o Hin) as ((z & Hz & Hwz) & y & Hy & ? & ? & HF). assert (z = y) as -> by congruence.
    pose proof (marking_kept _ _ _ _ _ _ HM Hy Hwz). split; [by exists y|]. exists y. split_and!; try done. by eapply marking_strong.
  - intros o (x' & Hx' & Hw') Hni. destruct (marking_back _ _ _ _ _ _ HM Hx') as (x & Hx & Hb & Hm). destruct (iswhite (marked x)) eqn:Hw.
    + destruct (marking_covered_new _ _ _ o x' HM) as [(Hin & _)|[(Hs & _)|(? & _)]]; try done; [by exists x|by apply elem_of_nil in Hin|].
      exists x'. split; [done|]. by destruct (body x').
    + eapply marking_covered; [done|]. apply HA; [by exists x|done].
Qed.

Lemma iscleared_spec g v k : mbase g -> Forall (allocated g) (vref v) ->
  exists c g', iscleared g v k = Ok (c, g') /\ marking [] [] g g' /\ (c = false -> Forall (nonwhite g') (vref v)).
Proof.
  intros HB Ha. destruct v as [| |o]; try (by exists false, g; split; [done|]; split; [apply marking_refl|]). apply Forall_cons in Ha as [[x Hx] _].
  rw /iscleared (get_eq _ _ _ Hx) Ok_bind.
  assert (forall b, exists c g', Ok (iswhite (marked x) || b, g) = Ok (c, g') /\ marking [] [] g g' /\ (c = false -> Forall (nonwhite g') (vref (VRef o)))) as Hcol.
  { intros b. exists (iswhite (marked x) || b), g. split; [done|]. split; [apply marking_refl|]. intros [Hw _]%orb_false_iff. apply Forall_singleton. by exists x. }
  destruct (body x) eqn:Hb; try (by rw -[iswhite _]orb_false_r; apply Hcol); [|by apply Hcol].
  destruct (stringmark_spec g o) as (g' & new & Hr & HM & HF); [by apply mbase_mark_ok|exists x; by rw Hb|]. exists false, g'. rw Hr Ok_bind. split; [done|].
  assert (new = []) as ->; [|done]. rw (set_marks_eq _ _ _ _ Hx) in Hr. injection Hr as <-. pose proof (m_gray _ _ _ _ HM) as Hg. simpl in Hg.
  apply (f_equal length) in Hg. rw length_app in Hg. destruct new; [done|]. simpl in Hg. lia.
Qed.

Lemma marking_nil_trans g1 g2 g3 : marking [] [] g1 g2 -> marking [] [] g2 g3 -> marking [] [] g1 g3.
Proof. intros H1 H2. apply (marking_trans [] [] [] [] _ _ _ H1 H2). Qed.

Lemma nonwhites_mono new g g' os : marking [] new g g' -> Forall (nonwhite g) os -> Forall (nonwhite g') os.
Proof. intros HM HF. eapply Forall_impl; [exact HF|]. intros o. apply (marking_nonwhite _ _ _ _ _ HM). Qed.

Lemma clear_array_spec g a : mbase g -> Forall (allocated g) (a ≫= vref) ->
  exists a' g', clear_array g a = Ok (a', g') /\ marking [] [] g g' /\ Forall (nonwhite g') (a' ≫= vref) /\ (a' ≫= vref) ⊆ (a ≫= vref).
Proof.
  intros HB. induction a as [|v a IH]; intros Ha; [exists [], g; split; [done|]; split; [apply marking_refl|done]|].
  simpl in Ha. apply Forall_app in Ha as [Hv Ha]. destruct (IH Ha) as (a' & g1 & Hr & HM1 & HF1 & Hs1). cbn [clear_array]. rw Hr Ok_bind.
  destruct (iscleared_spec g1 v false) as (c & g2 & -> & HM2 & Hc); [by eapply marking_mbase|by eapply marking_allocateds|]. rw Ok_bind.
  exists ((if c then VNil else v) :: a'), g2. split; [done|]. split; [by eapply marking_nil_trans|]. simpl. split.
  - apply Forall_app. split; [destruct c; [done|by apply Hc]|by eapply nonwhites_mono].
  - destruct c; set_solver.
Qed.

Lemma clear_node_spec g n : mbase g -> node_ok n = true -> n.2 <> VNil -> Forall (allocated g) (nref n) ->
  exists c g', ('(c, g) ← iscleared g (key2tval n.1) true; if (c : bool) then Ok (true, g) else iscleared g n.2 false) = Ok (c, g') /\ marking [] [] g g' /\
    (c = false -> Forall (nonwhite g') (nref n)).
Proof.
  intros HB Hok Hnil Ha. destruct n as [k v]. simpl in *. assert (nref (k, v) = kref k ++ vref v /\ vref (key2tval k) = kref k) as [Hn Hk] by (by destruct k, v).
  rw Hn in Ha |- *. apply Forall_app in Ha as [Hak Hav]. rw -Hk in Hak.
  destruct (iscleared_spec g (key2tval k) true HB Hak) as (c & g1 & -> & HM1 & Hc). rw Ok_bind. destruct c; [by exists true, g1|].
  destruct (iscleared_spec g1 v false) as (c & g2 & -> & HM2 & Hc2); [by eapply marking_mbase|by eapply marking_allocateds|].
  exists c, g2. split; [done|]. split; [by eapply marking_nil_trans|]. intros ->. apply Forall_app. split; [|by apply Hc2].
  rw -Hk. eapply nonwhites_mono; [done|by apply Hc].
Qed.

Lemma clear_nodes_spec g ns : mbase g -> forallb node_ok ns = true -> Forall (allocated g) (ns ≫= nref) ->
  exists ns' g', clear_nodes g ns = Ok (ns', g') /\ marking [] [] g g' /\ Forall (nonwhite g') (ns' ≫= nref) /\ (ns' ≫= nref) ⊆ (ns ≫= nref) /\ forallb node_ok ns' = true.
Proof.
  intros HB. induction ns as [|n ns IH]; intros Hok Ha; [exists [], g; split; [done|]; split; [apply marking_refl|done]|].
  simpl in Ha, Hok. apply Forall_app in Ha as [Hn Ha]. apply andb_true_iff in Hok as [Hokn Hok].
  destruct (IH Hok Ha) as (ns' & g1 & Hr & HM1 & HF1 & Hs1 & Hok1). cbn [clear_nodes]. rw Hr Ok_bind. destruct (decide (n.2 = VNil)) as [Hnil|Hnil].
  { rw Hnil. exists (n :: ns'), g1. split; [done|]. split; [done|]. rw /= Hokn /nref Hnil /=. done. }
  destruct (clear_node_spec g1 n) as (c & g2 & Hr2 & HM2 & Hc); [by eapply marking_mbase|done|done|by eapply marking_allocateds|].
  exists ((if c then removeentry (n.1, VNil) else n) :: ns'), g2. split.
  { apply bind_Ok in Hr2 as ([c1 ga] & Hca & Hcb). destruct (n.2) eqn:H2; [done|..]; rw Hca Ok_bind Hcb //. }
  split; [by eapply marking_nil_trans|]. rw /=. assert (nref (removeentry (n.1, VNil)) = []) as Hnr by done. split; [|split].
  - apply Forall_app. split; [destruct c; [by rw Hnr|by apply Hc]|by eapply nonwhites_mono].
  - destruct c; [rw Hnr|]; set_solver.
  - rw Hok1 andb_true_r. destruct c; [by destruct n as [[] ?]|done].
Qed.

(** One table is cleared. *)
Lemma all_covered_put h l g x x' : shape g -> all_covered (h :: l) g -> NoDup (h :: l) -> heap g !! h = Some x -> similar (body x) (body x') -> marked x' = marked x ->
  iswhite (marked x) = false -> Forall (nonwhite g) (refs (heap g) (body x')) -> skel_of (body x) = SkTable -> all_covered l (put g h x').
Proof.
  intros HS [Hl HA] [Hni _]%NoDup_cons Hx Hs Hm Hw Hr Hk.
  assert (evolves g (put g h x')) as HE.
  { apply (evolves_put g h x x' (gray g) (grayagain g) (weak g)); [done|done|by rw Hm..]. }
  assert (forall c, nonwhite (put g h x') c -> nonwhite g c) as Hback.
  { intros c (y & Hy & Hwy). simpl in Hy. destruct (decide (c = h)) as [->|]; [by exists x|]. exists y. by rw lookup_insert_ne in Hy. }
  assert (iswhite (marked x') = false) as Hw' by (by rw Hm). split.
  - intros o Ho. destruct (Hl o) as (Hn & y & Hy & ? & ? & HF); [by apply list_elem_of_further|]. split; [by apply put_nonwhite|].
    exists y. rw /= lookup_insert_ne; [set_solver|]. split_and!; try done. eapply Forall_impl; [exact HF|]. intros c. by apply put_nonwhite.
  - intros o Hn%Hback Ho. destruct (decide (o = h)) as [->|].
    + exists x'. split; [by rw /= lookup_insert_eq|]. rw -(similar_skel _ _ Hs) in Hk. destruct (skel_table _ Hk) as (m & a & ns & Hb). rw Hb /= in Hr *.
      eapply Forall_impl; [exact Hr|]. intros c. by apply put_nonwhite.
    + apply (evolves_covered g); [done|done|]. apply HA; [done|set_solver].
Qed.

Lemma cleartable_step h l g : mbase g -> all_covered (h :: l) g -> NoDup (h :: l) ->
  exists g', cleartable (h :: l) g = cleartable l g' /\ evolves g g' /\ mbase g' /\ all_covered l g'.
Proof.
  intros HB HA Hnd. destruct (proj1 HA h ltac:(apply list_elem_of_here)) as ((y & Hy & Hw) & x & Hx & Hk & Hbits & HF). assert (y = x) as -> by congruence.
  cbn [cleartable]. rw (get_eq _ _ _ Hx) Ok_bind. destruct (skel_table _ Hk) as (m & a & ns & Hb). rw Hb Hbits /=. rw /strong_refs Hb in HF.
  apply Forall_app in HF as [Hm [Ha _]%Forall_app]. pose proof (b_typed _ HB _ _ Hx) as Hty. rw Hb /= in Hty. destruct Hty as [_ Hnodes].
  pose proof (b_refs _ HB _ _ Hx) as Hr. rw Hb /= in Hr. apply Forall_app in Hr as [_ [Hra Hrn]%Forall_app].
  assert (exists a' g1, (if bit4 (marked x) then clear_array g a else Ok (a, g)) = Ok (a', g1) /\ marking [] [] g g1 /\ Forall (nonwhite g1) (a' ≫= vref) /\ (a' ≫= vref) ⊆ (a ≫= vref))
    as (a' & g1 & -> & HM1 & HF1 & Hs1).
  { destruct (bit4 (marked x)); [by apply clear_array_spec|]. exists a, g. split; [done|]. split; [apply marking_refl|done]. }
  rw Ok_bind. destruct (clear_nodes_spec g1 ns) as (ns' & g2 & -> & HM2 & HF2 & Hs2 & Hok2); [by eapply marking_mbase|done|by eapply marking_allocateds|]. rw Ok_bind.
  pose proof (marking_nil_trans _ _ _ HM1 HM2) as HM. pose proof (marking_mbase _ _ _ HB HM) as HB2.
  pose proof (marking_kept _ _ _ _ _ _ HM Hx Hw) as Hx2. rw (get_eq _ _ _ Hx2) Ok_bind. set (x3 := mkObject (marked x) (BTable m a' ns')).
  assert (similar (body x) (body x3)) as Hsim by (rw Hb; done).
  assert (evolves g2 (put g2 h x3)) as HE by (by apply (evolves_put g2 h x x3 (gray g2) (grayagain g2) (weak g2))).
  exists (put g2 h x3). split; [done|]. split; [etrans; [by eapply marking_evolves|done]|]. split.
  - eapply evolves_mbase; [done| |done]. apply (sane_put g2 h x3 (gray g2) (grayagain g2) (weak g2)); [apply HB2|].
    pose proof (b_sane _ HB2 _ _ Hx2) as Hsx. rw /sane_object Hb in Hsx. done.
  - eapply all_covered_put; [apply HB2|by eapply marking_all_covered|done|done|done|done|done| |done]. rw /=. apply Forall_app. split; [by apply (nonwhites_mono _ _ _ _ HM)|].
    apply Forall_app. split; [by apply (nonwhites_mono _ _ _ _ HM2)|done].
Qed.

Lemma cleartable_spec l g : mbase g -> all_covered l g -> NoDup l -> exists g', cleartable l g = Ok g' /\ evolves g g' /\ mbase g' /\ all_covered [] g'.
Proof.
  revert g. induction l as [|h l IH]; intros g HB HA Hnd; [by exists g|]. destruct (cleartable_step h l g HB HA Hnd) as (g1 & -> & HE & HB1 & HA1).
  destruct (IH g1 HB1 HA1) as (g' & Hr & HE' & ? & ?); [by apply NoDup_cons in Hnd as [_ ?]|]. exists g'. split; [done|]. split; [by etrans|done].
Qed.
