(* ===== verification/LuaGCPhase.v ===== *)
(** LuaGCPhase: the invariant of the collector between two steps, in each of its phases, and
    the steps of the mark phase: markroot(), propagatemark() and atomic() (lgc.c). *)

From Corelib Require Import ssreflect.
From stdpp Require Import base list gmap numbers strings.
From Stdlib Require Import ZArith Lia.
From S2P Require Import Prelude LuaHeap LuaGC LuaGCMark LuaGCInv LuaGCTri LuaGCAtomic LuaGCFinal.

Implicit Type g : global_State.

(** ** The invariant *)

(** An object that has been swept, or is new. *)
Definition clean (w : marks) (x : GCObject) : Prop := iswhite (marked x) = true /\ isdead w (marked x) = false.
Abbreviation clean_at := (fun g => has (clean (currentwhite g)) g).

(** A thread is swept together with its open upvalues. *)
Definition clean_object g (o : loc) : Prop := clean_at g o /\ forall n top ups, sk g o = Some (SkThread n top ups) -> Forall (clean_at g) ups.

Definition phase_inv g : Prop :=
  match gcstate g with
  | GCSpause | GCSfinalize =>
      (gcstate g = GCSpause -> tmudata g = []) /\ (forall o x, heap g !! o = Some x -> o ∉ tmudata g -> clean (currentwhite g) x)
  | GCSpropagate =>
      (forall o x, heap g !! o = Some x -> isdead (currentwhite g) (marked x) = false) /\ tri (fun _ => True) (tmudata g) [] g /\
      nonwhite g (mainthread g) /\ Forall (nonwhite g) (vref (l_registry g))
  | GCSsweepstring => (sweepstrgc g < length (strt g))%nat /\ sweepgc g = 0%nat /\ (forall o, o ∈ concat (take (sweepstrgc g) (strt g)) -> clean_at g o)
  | GCSsweep =>
      (forall o, o ∈ concat (strt g) -> clean_at g o) /\ (sweepgc g <= length (rootgc g))%nat /\
      (forall o, o ∈ take (sweepgc g) (rootgc g) -> clean_object g o)
  end.

Record base g : Prop := {
  i_shape : shape g;
  i_white : one_white (currentwhite g);
  i_sane : sane g;
  i_closed o x : heap g !! o = Some x -> isdead (currentwhite g) (marked x) = false -> Forall (alive g) (refs (heap g) (body x)) /\ typed g (body x);
  i_roots : Forall (alive g) (roots g ++ tmudata g);
  i_strt : strt g <> [];
  i_fixed o x : heap g !! o = Some x -> fixed (marked x) = true -> skel_of (body x) = SkString \/ o = mainthread g
}.

Record inv g : Prop := {
  i_base :> base g;
  i_phase : phase_inv g
}.

Definition none_dead g : Prop := forall o x, heap g !! o = Some x -> isdead (currentwhite g) (marked x) = false.

Lemma alive_allocated g o : alive g o -> allocated g o.
Proof. intros (x & Hx & _). by exists x. Qed.

Lemma alives_allocated g os : Forall (alive g) os -> Forall (allocated g) os.
Proof. intros HF. eapply Forall_impl; [exact HF|apply alive_allocated]. Qed.

Lemma inv_mbase g : inv g -> none_dead g -> mbase g.
Proof.
  intros HI Hd. split; try apply HI; [done|..]; intros o x Hx; destruct (i_closed _ HI o x Hx (Hd o x Hx)); [|done]. by apply alives_allocated.
Qed.

(** Without dead objects, what is allocated is alive. *)
Lemma none_dead_alive g o : none_dead g -> allocated g o -> alive g o.
Proof. intros Hd [x Hx]. exists x. split; [done|by apply (Hd o)]. Qed.

Lemma mbase_inv g : mbase g -> Forall (allocated g) (roots g ++ tmudata g) -> strt g <> [] -> phase_inv g -> inv g.
Proof.
  intros HB Hr Hs Hp. pose proof (b_dead _ HB : none_dead g) as Hd. split; [|done]. split; try apply HB; try done.
  - intros o x Hx _. split; [|by apply (b_typed _ HB o)]. eapply Forall_impl; [by apply (b_refs _ HB o)|]. intros c. by apply none_dead_alive.
  - eapply Forall_impl; [exact Hr|]. intros c. by apply none_dead_alive.
Qed.

(** The roots stay what they are while objects are marked. *)
Lemma evolves_inv g g' : evolves g g' -> mbase g' -> inv g -> phase_inv g' -> inv g'.
Proof.
  intros HE HB HI Hp. apply mbase_inv; [done| | |done].
  - rw (evolves_roots _ _ HE). assert (tmudata g' = tmudata g) as -> by (by rw (e_frame _ _ HE)).
    eapply Forall_impl; [apply alives_allocated, (i_roots _ HI)|]. intros c. apply (evolves_allocated _ _ HE).
  - rw (e_frame _ _ HE). apply HI.
Qed.

(** ** propagatemark() *)

Lemma propagate_step g : inv g -> gcstate g = GCSpropagate -> gray g <> [] -> exists g', propagatemark g = Ok g' /\ inv g' /\ gcstate g' = GCSpropagate /\ (work g' < work g)%nat.
Proof.
  intros HI Hs Hg. pose proof (i_phase _ HI) as Hp. rw /phase_inv Hs in Hp. destruct Hp as (Hd & HT & Hm & Hr).
  destruct (propagatemark_spec _ _ g (inv_mbase _ HI Hd) HT Hg) as (g' & Hrun & P & Hwork). exists g'. split; [done|].
  pose proof (p_evolves _ _ _ _ P) as HE. split; [|split; [by rw (e_frame _ _ HE)|done]]. eapply evolves_inv; [done|apply P|done|].
  assert (gcstate g' = GCSpropagate /\ tmudata g' = tmudata g /\ mainthread g' = mainthread g /\ l_registry g' = l_registry g) as (E1 & E2 & E3 & E4)
    by (by rw (e_frame _ _ HE)).
  rw /phase_inv E1 E2 E3 E4. split; [apply (b_dead _ (p_base _ _ _ _ P))|]. split; [apply P|]. split; [by apply (evolves_nonwhite _ _ HE)|].
  eapply Forall_impl; [exact Hr|]. intros c. apply (evolves_nonwhite _ _ HE).
Qed.

(** ** markroot() *)

(** Between two collections all objects are white, but for userdata that wait for their finalizers. *)
Definition all_clean g : Prop := forall o x, heap g !! o = Some x -> o ∉ tmudata g -> clean (currentwhite g) x.

Lemma all_clean_none_dead g : inv g -> all_clean g -> none_dead g.
Proof.
  intros HI Hc o x Hx. destruct (decide (o ∈ tmudata g)) as [Hin|Hni]; [|by apply (Hc o)].
  pose proof (i_roots _ HI) as HF. rw Forall_forall in HF. destruct (HF o) as (y & Hy & ?); [apply elem_of_app; by right|]. congruence.
Qed.

Lemma all_clean_tri D g : inv g -> all_clean g -> tri D (tmudata g) [] (set_lists g [] [] []).
Proof.
  intros HI Hc. split; simpl; [|..|constructor|by intros o ?%elem_of_nil|by intros o ?%elem_of_nil].
  - intros o x Hx Hb HX _. destruct (Hc o x Hx HX) as [Hw _]. destruct (i_sane _ HI o x Hx) as (_ & Hs & _). by rw Hw Hb in Hs.
  - intros o x Hx Hg _. exfalso. pose proof (isgray_nonwhite _ Hg) as Hn. destruct (decide (o ∈ tmudata g)) as [Hin|Hni]; [|destruct (Hc o x Hx Hni); congruence].
    pose proof (s_tmu _ (i_shape _ HI) o Hin) as Hk. rw (sk_lookup _ _ _ Hx) in Hk. injection Hk as (m & e & Hb)%skel_udata.
    destruct (i_sane _ HI o x Hx) as (_ & _ & _ & Hs). by rw Hb Hg in Hs.
Qed.

Lemma markroot_marks g : mbase g -> Forall (allocated g) (roots g) ->
  exists g', (g ← markobject g (mainthread g); gt ← thread_gt g (mainthread g); g ← markvalue g gt; g ← markvalue g (l_registry g); markmt g) = Ok g' /\
    exists new, marking [] new g g' /\ nonwhite g' (mainthread g) /\ Forall (nonwhite g') (vref (l_registry g)).
Proof.
  intros HB Ha. destruct (s_mainthread _ (b_shape _ HB)) as (n & top & ups & Hk).
  pose proof Ha as Hroots. apply Forall_cons in Ha as [Hmain [_ [Hreg Hmts]%Forall_app]%Forall_cons].
  destruct (markobject_spec g (mainthread g)) as (g1 & n1 & -> & HM1 & HF1); [by apply mbase_mark_ok|done|]. rw Ok_bind.
  apply Forall_cons in HF1 as [HF1 _]. pose proof (marking_mbase _ _ _ HB HM1) as HB1.
  rw -(evolves_sk _ _ (marking_evolves _ _ _ HM1)) in Hk. destruct (sk_inv _ _ _ Hk) as (x & Hx & (gt & st & cis & Hb & _)%skel_thread).
  assert (mainthread g1 = mainthread g /\ l_registry g1 = l_registry g) as [-> Er1] by (by rw (m_frame _ _ _ _ HM1)).
  rw /thread_gt (get_eq _ _ _ Hx) Ok_bind Hb Ok_bind.
  destruct (markvalue_spec g1 gt) as (g2 & n2 & -> & HM2 & _); [by apply mbase_mark_ok|apply (allocated_refs _ _ _ _ HB1 Hx); rw Hb /=; set_solver|]. rw Ok_bind.
  pose proof (marking_mbase _ _ _ HB1 HM2) as HB2. pose proof (marking_trans [] [] _ _ _ _ _ HM1 HM2) as HM12.
  assert (l_registry g2 = l_registry g) as -> by (by rw (m_frame _ _ _ _ HM12)).
  destruct (markvalue_spec g2 (l_registry g)) as (g3 & n3 & -> & HM3 & HF3); [by apply mbase_mark_ok|by eapply marking_allocateds|]. rw Ok_bind.
  pose proof (marking_trans [] [] _ _ _ _ _ HM12 HM3) as HM13. rw /markmt. assert (mt g3 = mt g) as -> by (by rw (m_frame _ _ _ _ HM13)).
  destruct (markmts_spec g3 (mt g)) as (g4 & n4 & -> & HM4 & HF4); [apply mbase_mark_ok; by eapply marking_mbase|by eapply marking_allocateds|].
  exists g4. split; [done|]. eexists. split; [apply (marking_trans [] [] _ _ _ _ _ HM13 HM4)|]. split.
  - by apply (marking_nonwhite _ _ _ _ _ HM4), (marking_nonwhite _ _ _ _ _ HM3), (marking_nonwhite _ _ _ _ _ HM2).
  - by apply (nonwhites_mono _ _ _ _ HM4).
Qed.

Lemma markroot_step g : inv g -> all_clean g -> exists g', markroot g = Ok g' /\ inv g'.
Proof.
  intros HI Hc. pose proof (all_clean_none_dead _ HI Hc) as Hd. set (g0 := set_lists g [] [] []).
  pose proof (mbase_lists _ [] [] [] (inv_mbase _ HI Hd) : mbase g0) as HB. pose proof (all_clean_tri (fun _ => True) _ HI Hc : tri _ (tmudata g0) [] g0) as HT.
  pose proof (i_roots _ HI) as Hroots. apply Forall_app in Hroots as [Hroots _].
  destruct (markroot_marks g0) as (g1 & Hr & new & HM & Hmain & Hreg); [done|by apply alives_allocated|].
  exists (set_gcstate g1 GCSpropagate). split.
  { rw /markroot. fold g0. do 4 (let H := fresh in apply bind_Ok in Hr as (? & H & Hr); rw H Ok_bind). by rw Hr. }
  pose proof (marking_mbase _ _ _ HB HM) as HB1. pose proof (marking_evolves _ _ _ HM) as HE. pose proof (tri_marking _ _ _ _ _ _ HT HM) as HT1.
  assert (tmudata g1 = tmudata g /\ roots g1 = roots g /\ strt g1 = strt g /\ mainthread g1 = mainthread g /\ l_registry g1 = l_registry g) as (E1 & E2 & E3 & E4 & E5)
    by (by rw (m_frame _ _ _ _ HM)).
  apply mbase_inv.
  - split; try apply HB1. apply (shape_ext g1); [done|done|apply HB1].
  - change (Forall (allocated g1) (roots g1 ++ tmudata g1)). rw E1 E2. eapply Forall_impl; [apply alives_allocated, (i_roots _ HI)|]. intros c. apply (evolves_allocated _ _ HE).
  - rw /= E3. apply HI.
  - rw /phase_inv /= E1 E4 E5. split; [apply HB1|]. split; [|done]. split; apply HT1.
Qed.

(** ** atomic() *)

(** When the white changes, what is marked is alive and the rest is dead. *)
Lemma flip_dead w m : one_white w -> isdead w m = false -> white0 m && white1 m = false -> isdead (otherwhite w) m = iswhite m.
Proof. intros (b & f & ->). destruct m as [[] [] ? ? ? ? ?], b; done. Qed.

Lemma one_white_flip w : one_white w -> one_white (otherwhite w).
Proof. intros (b & f & ->). exists (negb b), f. by destruct b. Qed.

(** Userdata with finalizers are kept, and entries of weak tables removed. *)
Lemma atomic_finish g : mbase g -> tri (fun _ => False) (tmudata g) [] g -> gray g = [] ->
  exists g', (g ← luaC_separateudata g false; g ← marktmu g; g ← propagateall g; cleartable (weak g) g) = Ok g' /\
    mbase g' /\ all_covered [] g' /\ (forall o, nonwhite g o -> nonwhite g' o) /\ Forall (nonwhite g') (tmudata g') /\
    roots g' = roots g /\ strt g' = strt g /\ currentwhite g' = currentwhite g.
Proof.
  intros HB HT Hg. destruct (luaC_separateudata_spec _ g false HB HT) as (g1 & pre & post & stay & move & -> & HF & Hr & Hpost & HP). rw Ok_bind.
  pose proof (finalizing_mbase _ _ HF HB) as HB1. pose proof (finalizing_tri _ _ HF _ _ _ HT) as HT1.
  assert (rootgc g1 = rootgc g /\ mainthread g1 = mainthread g /\ tmudata g1 = tmudata g) as (E1 & E2 & E3) by (by rw (f_frame _ _ HF)).
  set (g2 := set_tmudata (set_rootgc g1 (pre ++ mainthread g1 :: stay) (sweepgc g1)) (tmudata g1 ++ move)).
  assert (mbase g2) as HB2.
  { split; try apply HB1. apply (separate_shape _ _ post); [apply HB1|by rw E1 E2| |done]. eapply Forall_impl; [exact Hpost|]. intros o. by rw (finalizing_sk _ _ HF). }
  assert (tri (fun _ => False) (tmudata g2) [] g2) as HT2.
  { split; try apply HT1. intros o x Hx Hb HX HC. apply (t_black _ _ _ _ HT1 o x Hx Hb); [|done]. intros Hin. apply HX, elem_of_app. left. by rw E3. }
  destruct (marktmu_loop_spec (tmudata g2) g2 HB2 HT2) as (g3 & Hr3 & P3 & HF3); [apply Forall_forall; intros o; apply (s_tmu _ (b_shape _ HB2))|].
  rw /marktmu Hr3 Ok_bind. destruct (propagateall_spec _ _ _ (p_base _ _ _ _ P3) (p_tri _ _ _ _ P3)) as (g4 & -> & P4 & Hg4). rw Ok_bind.
  destruct (cleartable_spec (weak g4) g4) as (g5 & Hr5 & E5 & HB5 & HA5); [apply P4|by apply tri_all_covered; [apply P4|]| |].
  { pose proof (t_nodup _ _ _ _ (p_tri _ _ _ _ P4)) as Hnd. by apply NoDup_app in Hnd as (_ & _ & (_ & _ & ?)%NoDup_app). }
  exists g5. split; [done|]. assert (evolves g2 g5) as HE by (etrans; [apply P3|]; etrans; [apply P4|done]). split; [done|]. split; [done|]. split.
  { intros o Ho. apply (evolves_nonwhite _ _ HE). apply (finalizing_nonwhite _ _ HF o Ho). }
  assert (tmudata g5 = tmudata g2 /\ roots g5 = roots g2 /\ strt g5 = strt g2 /\ currentwhite g5 = currentwhite g2) as (-> & -> & -> & ->) by (by rw (e_frame _ _ HE)).
  split; [|by rw /g2 (f_frame _ _ HF)]. eapply Forall_impl; [exact HF3|]. intros o Ho. apply (evolves_nonwhite _ _ E5), (evolves_nonwhite _ _ (p_evolves _ _ _ _ P4)). done.
Qed.

(** Dead objects are those that are not marked. *)
Lemma flip_inv g : mbase g -> all_covered [] g -> Forall (nonwhite g) (roots g ++ tmudata g) -> strt g <> [] ->
  inv (set_gcstate (set_rootgc (set_strt (set_white g (otherwhite (currentwhite g))) (strt g) 0) (rootgc g) 0) GCSsweepstring).
Proof.
  intros HB [_ HA] Hr Hs. assert (forall o x, heap g !! o = Some x -> isdead (otherwhite (currentwhite g)) (marked x) = iswhite (marked x)) as Hflip.
  { intros o x Hx. apply flip_dead; [apply HB|by apply (b_dead _ HB o)|by apply (b_sane _ HB o)]. }
  set (g' := set_gcstate _ _). assert (forall o, nonwhite g o -> alive g' o) as Halive.
  { intros o (x & Hx & Hw). exists x. split; [done|]. by rw /= (Hflip o). }
  split; [split|].
  - apply (shape_ext g); [done|done|apply HB].
  - apply one_white_flip, HB.
  - apply HB.
  - intros o x Hx Hd. change (heap g !! o = Some x) in Hx. rw /= (Hflip o x Hx) in Hd. split; [|by apply (b_typed _ HB o x)]. destruct (HA o) as (y & Hy & HF); [by exists x|apply not_elem_of_nil|].
    assert (y = x) as -> by congruence. eapply Forall_impl; [exact HF|apply Halive].
  - eapply Forall_impl; [exact Hr|apply Halive].
  - done.
  - apply HB.
  - split; [destruct (strt g); [done|simpl; lia]|]. split; [done|]. by intros o ?%elem_of_nil.
Qed.

Lemma atomic_step g : inv g -> gcstate g = GCSpropagate -> exists g', atomic g = Ok g' /\ inv g'.
Proof.
  intros HI Hs. pose proof (i_phase _ HI) as Hp. rw /phase_inv Hs in Hp. destruct Hp as (Hd & HT & Hm & Hreg).
  pose proof (inv_mbase _ HI Hd) as HB. pose proof (i_roots _ HI) as Hroots. apply Forall_app in Hroots as [Hroots _].
  destruct (atomic_mark_spec _ _ HB HT Hm (alives_allocated _ _ Hroots)) as (g1 & Hr1 & E1 & HB1 & HT1 & Hg1 & HF1).
  assert (tmudata g1 = tmudata g /\ roots g1 = roots g /\ strt g1 = strt g) as (Et & Er & Es) by (by rw (e_frame _ _ E1)).
  destruct (atomic_finish g1) as (g2 & Hr2 & HB2 & HA2 & Hmono & Htmu & Er2 & Es2 & Ew2); [done|by rw Et|done|].
  exists (set_gcstate (set_rootgc (set_strt (set_white g2 (otherwhite (currentwhite g2))) (strt g2) 0) (rootgc g2) 0) GCSsweepstring). split.
  { rw /atomic Hr1 Ok_bind. do 3 (let H := fresh in apply bind_Ok in Hr2 as (? & H & Hr2); rw H Ok_bind). rw Hr2 Ok_bind. done. }
  apply flip_inv; [done|done| |by rw Es2 Es; apply HI]. apply Forall_app. split; [|done]. rw Er2 Er. apply Forall_cons in HF1 as [Hrun Hmt].
  rw /roots. apply Forall_cons. split; [by apply Hmono, (evolves_nonwhite _ _ E1)|]. apply Forall_cons. split; [by apply Hmono|]. apply Forall_app.
  split; (eapply Forall_impl; [eassumption|]); intros o Ho; apply Hmono; [by apply (evolves_nonwhite _ _ E1)|done].
Qed.
