(* ===== verification/LuaGCSweep.v ===== *)
(** LuaGCSweep: the sweep phases of the collector (sweeplist(), freeobj() of lgc.c): dead
    objects are freed, no object that is alive is, and the others become white. *)

From Corelib Require Import ssreflect.
From stdpp Require Import base list gmap numbers strings.
From Stdlib Require Import ZArith Lia.
From S2P Require Import Prelude LuaHeap LuaGC LuaGCMark LuaGCInv LuaGCTri LuaGCAtomic LuaGCFinal LuaGCPhase.

Implicit Type g : global_State.

(** ** Changes that keep what is alive *)

(** Pointers that are used at a type are pointers of the object. *)
Lemma typed_mono g g' b : typed g b -> Forall (alive g) (refs (heap g) b) ->
  (forall o k, alive g o -> k = SkTable \/ k = SkString -> sk g o = Some k -> sk g' o = Some k) -> typed g' b.
Proof.
  intros Ht HF Hk. rw Forall_forall in HF. destruct b as [|m e| | | |m a ns|s k us ps ls|]; simpl in *; try done.
  - apply Forall_forall. intros o Ho. apply Hk; [apply HF; set_solver|by left|by apply (proj1 (Forall_forall _ _) Ht)].
  - destruct Ht as [Ht ?]. split; [|done]. apply Forall_forall. intros o Ho. apply Hk; [apply HF; set_solver|by left|by apply (proj1 (Forall_forall _ _) Ht)].
  - apply Forall_forall. intros o Ho. apply Hk; [apply HF; set_solver|by right|by apply (proj1 (Forall_forall _ _) Ht)].
Qed.

(** What an upvalue points to depends on a stack. *)
Definition same_slots h h' (b : gcbody) : Prop := forall th i, b = BUpval (UOpen th i) -> stack_slot h' th i = stack_slot h th i.
Lemma refs_slots h h' b : same_slots h h' b -> refs h' b = refs h b.
Proof. intros Hs. destruct b as [| |[th i|]| | | | |]; try done. by rw /= /upval_refs /upval_value (Hs th i). Qed.

Lemma base_transfer g g' : base g -> shape g' -> sane g' -> currentwhite g' = currentwhite g ->
  (forall o x', heap g' !! o = Some x' -> isdead (currentwhite g) (marked x') = false -> Forall (alive g) (refs (heap g') (body x')) /\ typed g' (body x')) ->
  (forall o, alive g o -> alive g' o) -> Forall (alive g) (roots g' ++ tmudata g') -> strt g' <> [] ->
  (forall o x', heap g' !! o = Some x' -> fixed (marked x') = true -> skel_of (body x') = SkString \/ o = mainthread g') -> base g'.
Proof.
  intros HI HS Hsane Hw H1 H2 Hr Hs Hf. split; try done; [rw Hw; apply HI|..].
  - intros o x' Hx' Hd. rw Hw in Hd. destruct (H1 o x' Hx' Hd) as [HF Ht]. split; [|done]. eapply Forall_impl; [exact HF|apply H2].
  - eapply Forall_impl; [exact Hr|apply H2].
Qed.

(** The colour of an object changes. *)
Lemma put_sk g o x m c : heap g !! o = Some x -> sk (put g o (mkObject m (body x))) c = sk g c.
Proof. intros Hx. rw /sk. pose proof (put_bodies g o x m Hx c) as Hb. destruct (heap g !! c), (heap (put g o _) !! c); try done. simpl in *. by injection Hb as ->. Qed.

Lemma put_lookup g o x c y : heap (put g o x) !! c = Some y -> c = o /\ y = x \/ c <> o /\ heap g !! c = Some y.
Proof. simpl. destruct (decide (c = o)) as [->|]; [rw lookup_insert_eq; intros [= <-]; by left|rw lookup_insert_ne //; by right]. Qed.

Lemma typed_sk g g' b : (forall o, sk g' o = sk g o) -> typed g b -> typed g' b.
Proof.
  intros Hk. destruct b; simpl; try done; [intros HF|intros [HF ?]; split; [|done]|intros HF]; (eapply Forall_impl; [exact HF|]); intros o; by rw Hk.
Qed.

Lemma base_recolour g o x m : base g -> heap g !! o = Some x -> sane_object (mkObject m (body x)) -> isdead (currentwhite g) m = false ->
  (isdead (currentwhite g) (marked x) = false \/ Forall (alive g) (refs (heap g) (body x)) /\ typed g (body x)) -> fixed m = fixed (marked x) -> base (put g o (mkObject m (body x))).
Proof.
  intros HI Hx Hs Hd Hor Hf. pose proof (put_bodies g o x m Hx) as Hb. pose proof (put_sk g o x m) as Hsk. set (g' := put g o (mkObject m (body x))) in *.
  apply (base_transfer g); try done.
  - apply (shape_ext g); [by intros; apply Hsk|done|apply HI].
  - apply (sane_put g o _ (gray g) (grayagain g) (weak g)); [apply HI|done].
  - intros c y Hy Hdy. rw (refs_same _ _ _ Hb). assert (Forall (alive g) (refs (heap g) (body y)) /\ typed g (body y)) as [HF Ht].
    { apply put_lookup in Hy as [[-> ->]|[? Hy]]; [|exact (i_closed _ HI c y Hy Hdy)]. destruct Hor as [Hdx|?]; [exact (i_closed _ HI o x Hx Hdx)|done]. }
    split; [done|]. apply (typed_sk g); [by intros; apply Hsk|done].
  - intros c (y & Hy & Hdy). destruct (decide (c = o)) as [->|]; [exists (mkObject m (body x)); by rw /g' /= lookup_insert_eq|]. exists y. by rw /g' /= lookup_insert_ne.
  - apply HI.
  - apply HI.
  - intros c y Hy. apply put_lookup in Hy as [[-> ->]|[? Hy]]; [|by apply (i_fixed _ HI c y)]. rw /= Hf. by apply (i_fixed _ HI o x).
Qed.

Lemma base_whiten g o x : base g -> heap g !! o = Some x -> (isdead (currentwhite g) (marked x) = false \/ skel_of (body x) = SkString) ->
  base (put g o (mkObject (makewhite (currentwhite g) (marked x)) (body x))).
Proof.
  intros HI Hx Hor. destruct (makewhite_alive _ (marked x) (i_white _ HI)) as (Hd & _ & _). apply base_recolour; try done; [apply sane_makewhite, HI|].
  destruct Hor as [?|(s & ->)%skel_string]; [by left|by right].
Qed.

(** ** Freeing one object *)

(** An object leaves the lists and the heap. *)
Record dropped (o : loc) g g' : Prop := {
  d_sk c : sk g' c = if decide (c = o) then None else sk g c;
  d_root c : c ∈ rootgc g' <-> c ∈ rootgc g /\ c <> o;
  d_strt c : c ∈ concat (strt g') <-> c ∈ concat (strt g) /\ c <> o;
  d_tmu : tmudata g' = tmudata g;
  d_uv : uvhead g' = uvhead g;
  d_nodup : NoDup (rootgc g' ++ tmudata g');
  d_nodup_strt : NoDup (concat (strt g'));
  d_main : exists pre post, rootgc g' = pre ++ mainthread g :: post /\ forall c, c ∈ post -> c <> o /\ sk g c = Some SkUdata;
  d_mainthread : mainthread g' = mainthread g;
  d_running : running g' = running g
}.

Lemma shape_dropped o k g g' : shape g -> dropped o g g' -> sk g o = Some k -> (forall th i, k <> SkOpen th i) -> (forall n top ups, k = SkThread n top ups -> ups = []) ->
  o <> mainthread g -> o <> running g -> o ∉ tmudata g -> shape g'.
Proof.
  intros HS HD Hk Hno Hnt Hm Hrun Htmu. pose proof (d_sk _ _ _ HD) as Hsk. assert (forall c k', c <> o -> sk g c = Some k' -> sk g' c = Some k') as Hkeep.
  { intros c k' Hne Hc. rw Hsk. by destruct (decide (c = o)). }
  assert (forall c k', sk g' c = Some k' -> c <> o /\ sk g c = Some k') as Hback by (intros c k'; rw Hsk; by destruct (decide (c = o))).
  split; rw ?(d_tmu _ _ _ HD) ?(d_uv _ _ _ HD) ?(d_mainthread _ _ _ HD) ?(d_running _ _ _ HD).
  - intros c k' (Hne & Hc)%Hback. pose proof (s_home _ HS c k' Hc) as Hin. destruct k'; simpl in *; rw ?elem_of_app ?(d_tmu _ _ _ HD) ?(d_uv _ _ _ HD); rw ?elem_of_app in Hin;
      rw ?(d_root _ _ _ HD) ?(d_strt _ _ _ HD); tauto.
  - intros c [Hin Hne]%(d_root _ _ _ HD). destruct (s_root _ HS c Hin) as (k' & ? & ?). exists k'. auto.
  - intros c [Hin Hne]%(d_strt _ _ _ HD). apply Hkeep; [done|by apply (s_strt _ HS)].
  - intros c Hin. apply Hkeep; [by intros ->|by apply (s_tmu _ HS)].
  - intros c Hin. destruct (s_uv _ HS c Hin) as (th & i & Hc). exists th, i. apply Hkeep; [|done]. intros ->. apply (Hno th i). congruence.
  - rw -(d_tmu _ _ _ HD). apply HD.
  - apply HD.
  - apply HS.
  - destruct (d_main _ _ _ HD) as (pre & post & Hr & Hp). exists pre, post. split; [done|]. apply Forall_forall. intros c [? ?]%Hp. by apply Hkeep.
  - destruct (s_mainthread _ HS) as (n & top & ups & ?). exists n, top, ups. by apply Hkeep.
  - destruct (s_running _ HS) as (n & top & ups & ?). exists n, top, ups. by apply Hkeep.
  - intros th n top ups (Hne & Hth)%Hback. destruct (s_thread _ HS _ _ _ _ Hth) as (? & ? & HF). split_and!; try done. eapply Forall_impl; [exact HF|].
    intros uv (i & Huv). exists i. apply Hkeep; [|done]. intros ->. apply (Hno th i). congruence.
  - intros uv th i (Hne & Huv)%Hback. destruct (s_open _ HS _ _ _ Huv) as (n & top & ups & Hth & Hin & ?). exists n, top, ups. split; [|done]. apply Hkeep; [|done].
    intros ->. assert (ups = []) as -> by (apply (Hnt n top); congruence). by apply elem_of_nil in Hin.
Qed.

(** A stack does not change when another object is freed. *)
Lemma slot_delete h o th i : th <> o -> stack_slot (delete o h) th i = stack_slot h th i.
Proof. intros Hne. by rw /stack_slot lookup_delete_ne. Qed.

Lemma alive_delete g g' o c : heap g' = delete o (heap g) -> currentwhite g' = currentwhite g -> ~ alive g o -> alive g c -> alive g' c.
Proof. intros Hh Hw Hno Hc. destruct (decide (c = o)) as [->|]; [done|]. destruct Hc as (y & Hy & ?). exists y. by rw Hh Hw lookup_delete_ne. Qed.

Lemma base_dropped o x g g' : base g -> dropped o g g' -> heap g' = delete o (heap g) -> heap g !! o = Some x -> isdead (currentwhite g) (marked x) = true ->
  (forall th i, skel_of (body x) <> SkOpen th i) -> (forall n top ups, skel_of (body x) = SkThread n top ups -> ups = []) ->
  currentwhite g' = currentwhite g -> l_registry g' = l_registry g -> mt g' = mt g -> strt g' <> [] -> base g'.
Proof.
  intros HI HD Hh Hx Hdead Hno Hnt Hw Hreg Hmt Hs. assert (~ alive g o) as Hna by (intros (y & Hy & ?); congruence).
  assert (forall c, c ∈ roots g ++ tmudata g -> c <> o) as Hroots.
  { intros c Hc ->. apply Hna. by apply (proj1 (Forall_forall _ _) (i_roots _ HI)). }
  assert (shape g') as HS.
  { eapply (shape_dropped o (skel_of (body x))); [apply HI|done|by apply sk_lookup|done|done|..].
    - intros Heq. apply (Hroots (mainthread g)); [rw /roots; set_solver|done].
    - intros Heq. apply (Hroots (running g)); [rw /roots; set_solver|done].
    - intros Hin. apply (Hroots o); [set_solver|done]. }
  assert (roots g' = roots g) as Hr by (by rw /roots (d_mainthread _ _ _ HD) (d_running _ _ _ HD) Hreg Hmt).
  apply (base_transfer g); try done.
  - intros c y Hy. rw Hh in Hy. apply lookup_delete_Some in Hy as [_ Hy]. by apply (i_sane _ HI c).
  - intros c y Hy Hd. rw Hh in Hy. apply lookup_delete_Some in Hy as [Hne Hy]. destruct (i_closed _ HI c y Hy Hd) as [HF Ht]. assert (refs (heap g') (body y) = refs (heap g) (body y)) as Hrefs.
    { apply refs_slots. intros th i Hb. rw Hh. apply slot_delete. intros ->. assert (sk g c = Some (SkOpen o i)) as Hc by (by rw (sk_lookup _ _ _ Hy) Hb).
      destruct (s_open _ (i_shape _ HI) _ _ _ Hc) as (n & top & ups & Hth & Hin & _). rw (sk_lookup _ _ _ Hx) in Hth. injection Hth as Hth. rw (Hnt _ _ _ Hth) in Hin. by apply elem_of_nil in Hin. }
    rw Hrefs. split; [done|]. eapply typed_mono; [done|done|]. intros c' k Hc' _ Hk. rw (d_sk _ _ _ HD). destruct (decide (c' = o)) as [->|]; [done|done].
  - intros c. by apply (alive_delete g g' o).
  - rw Hr (d_tmu _ _ _ HD). apply HI.
  - intros c y Hy. rw Hh in Hy. apply lookup_delete_Some in Hy as [_ Hy]. rw (d_mainthread _ _ _ HD). by apply (i_fixed _ HI c).
Qed.

(** ** Strings *)

Lemma notdead_spec w m : one_white w -> notdead (otherwhite w) m = negb (isdead w m) || fixed m && fixed w.
Proof. intros (b & f & ->). destruct m as [[] [] [] [] [] [] []], b, f; done. Qed.

(** The state with a list in a bucket of the string table. *)
Definition with_bucket (i : nat) (l : list loc) g : global_State := set_strt g (<[i := l]> (strt g)) (sweepstrgc g).

Lemma concat_bucket (i : nat) l (s : list (list loc)) : (i < length s)%nat -> concat (<[i := l]> s) = concat (take i s) ++ l ++ concat (drop (S i) s).
Proof. intros Hi. rw insert_take_drop // concat_app /=. done. Qed.

Lemma with_bucket_dropped i g kept o l : (i < length (strt g))%nat -> shape (with_bucket i (kept ++ o :: l) g) -> sk g o = Some SkString ->
  dropped o (with_bucket i (kept ++ o :: l) g) (with_bucket i (kept ++ l) (free g o)).
Proof.
  intros Hi HS Ho. pose proof (s_nodup_strt _ HS) as Hnd. rw /= concat_bucket // -app_assoc /= in Hnd.
  assert (Permutation (concat (take i (strt g)) ++ kept ++ (o :: l) ++ concat (drop (S i) (strt g))) (o :: concat (take i (strt g)) ++ kept ++ l ++ concat (drop (S i) (strt g)))) as HP.
  { rw /=. rw !app_assoc -Permutation_middle. by rw -!app_assoc. }
  rw HP in Hnd. apply NoDup_cons in Hnd as [Hni Hnd].
  assert (forall c, c ∈ concat (<[i:=kept ++ o :: l]> (strt g)) <-> c = o \/ c ∈ concat (take i (strt g)) ++ kept ++ l ++ concat (drop (S i) (strt g))) as Hold.
  { intros c. rw concat_bucket // -app_assoc HP elem_of_cons. done. }
  assert (o ∉ rootgc g) as Hnr.
  { intros Hin. destruct (s_root _ HS o Hin) as (k & Hk & Hroot). change (sk g o = Some k) in Hk. rw Ho in Hk. by injection Hk as <-. }
  split; try done; simpl.
  - intros c. rw /sk /=. destruct (decide (c = o)) as [->|]; [by rw lookup_delete_eq|by rw lookup_delete_ne].
  - intros c. split; [|tauto]. intros Hc. split; [done|]. congruence.
  - intros c. rw Hold concat_bucket // -!app_assoc. split; [|tauto]. intros Hc. split; [by right|]. congruence.
  - apply HS.
  - by rw concat_bucket // -!app_assoc.
  - destruct (s_main _ HS) as (pre & post & Hr & Hp). exists pre, post. split; [done|]. intros c Hc. pose proof (proj1 (Forall_forall _ _) Hp c Hc) as Hk.
    split; [|done]. intros ->. change (sk g o = Some SkUdata) in Hk. congruence.
Qed.

Lemma sweep_bucket i l kept g : (i < length (strt g))%nat -> base (with_bucket i (kept ++ l) g) ->
  exists l' g', sweepwholelist l g = Ok (l', g') /\ base (with_bucket i (kept ++ l') g') /\ g' = set_heap g (heap g') /\
    Forall (clean_at g') l' /\ (forall c, c ∉ l -> heap g' !! c = heap g !! c).
Proof.
  revert kept g. induction l as [|o l IH]; intros kept g Hi HI; [by exists [], g; destruct g|].
  assert (sk g o = Some SkString) as Ho.
  { apply (s_strt _ (i_shape _ HI) o). rw /= concat_bucket // !elem_of_app. right; left; right. apply list_elem_of_here. }
  destruct (sk_inv _ _ _ Ho) as (x & Hx & Hk). cbn [sweepwholelist]. rw (get_eq _ _ _ Hx) Ok_bind.
  pose proof (i_white _ HI : one_white (currentwhite g)) as Hone. rw (notdead_spec _ _ Hone). assert (o ∉ l) as Hni.
  { pose proof (s_nodup_strt _ (i_shape _ HI)) as Hnd. rw /= concat_bucket // in Hnd. apply NoDup_app in Hnd as (_ & _ & Hnd). apply NoDup_app in Hnd as (Hnd & _ & _).
    apply NoDup_app in Hnd as (_ & _ & Hnd). by apply NoDup_cons in Hnd as [? _]. }
  destruct (negb (isdead (currentwhite g) (marked x)) || fixed (marked x) && fixed (currentwhite g)) eqn:Hnd.
  - rw (set_marks_eq _ _ _ _ Hx) Ok_bind. set (y := mkObject (makewhite (currentwhite g) (marked x)) (body x)).
    assert (base (with_bucket i ((kept ++ [o]) ++ l) (put g o y))) as HI1.
    { rw -app_assoc. apply (base_whiten (with_bucket i (kept ++ o :: l) g) o x); [done|done|by right]. }
    destruct (IH (kept ++ [o]) (put g o y)) as (l' & g' & -> & HI' & Hg' & Hc & Hother); [done|done|]. rw Ok_bind.
    exists (o :: l'), g'. split; [done|]. split; [by rw -app_assoc in HI'|]. split; [by rw Hg'|]. split.
    + apply Forall_cons. split; [|done]. exists y. rw (Hother o Hni) /= lookup_insert_eq. split; [done|].
      assert (currentwhite g' = currentwhite g) as -> by (by rw Hg'). destruct (makewhite_alive _ (marked x) Hone) as (? & ? & _). done.
    + intros c Hcn. rw Hother; [set_solver|]. rw /= lookup_insert_ne //. set_solver.
  - apply orb_false_iff in Hnd as [Hdead _]. apply negb_false_iff in Hdead. rw /freeobj (get_eq _ _ _ Hx) Ok_bind.
    assert (base (with_bucket i (kept ++ l) (free g o))) as HI1.
    { eapply (base_dropped o x (with_bucket i (kept ++ o :: l) g)); try done; [|by rw Hk|by rw Hk|]; [by apply with_bucket_dropped; [|apply HI|]|].
      simpl. intros Hnil. apply (f_equal length) in Hnil. rw length_insert /= in Hnil. lia. }
    destruct (IH kept (free g o)) as (l' & g' & Hr & HI' & Hg' & Hc & Hother); [done|done|]. exists l', g'. split.
    { destruct (skel_string _ Hk) as (s & ->). by rw Ok_bind. }
    split; [done|]. split; [by rw Hg'|]. split; [done|]. intros c Hcn. rw Hother; [set_solver|]. rw /= lookup_delete_ne //. set_solver.
Qed.

(** Fields that the invariant does not mention. *)
Lemma base_ext g g' : heap g' = heap g -> currentwhite g' = currentwhite g -> strt g' = strt g -> rootgc g' = rootgc g -> tmudata g' = tmudata g ->
  uvhead g' = uvhead g -> l_registry g' = l_registry g -> mainthread g' = mainthread g -> running g' = running g -> mt g' = mt g -> base g -> base g'.
Proof.
  intros Hh Hw Hs Hr Ht Hu Hreg Hm Hrun Hmt HI. assert (forall o, sk g' o = sk g o) as Hsk by (intros; by rw /sk Hh).
  apply (base_transfer g); try done.
  - apply (shape_ext g); [done| |apply HI]. by rw /same_lists Hr Hs Ht Hu Hm Hrun.
  - intros o x. rw Hh. apply (i_sane _ HI).
  - intros o x Hx Hd. rw Hh in Hx |- *. destruct (i_closed _ HI o x Hx Hd). split; [done|by apply (typed_sk g)].
  - intros o (x & Hx & Hd). exists x. by rw Hh Hw.
  - rw /roots Hm Hrun Hreg Hmt Ht. apply HI.
  - rw Hs. apply HI.
  - intros o x. rw Hh Hm. apply (i_fixed _ HI).
Qed.

Lemma sweepstring_step g : inv g -> gcstate g = GCSsweepstring -> exists g', singlestep g = Ok g' /\ inv g' /\
  (gcstate g' = GCSsweep \/ gcstate g' = GCSsweepstring /\ (length (strt g') - sweepstrgc g' < length (strt g) - sweepstrgc g)%nat).
Proof.
  intros [HI Hp] Hs. rw /phase_inv Hs in Hp. destruct Hp as (Hi & Hsg & Hclean). rw /singlestep Hs. set (i := sweepstrgc g) in *.
  destruct (lookup_lt_is_Some_2 _ _ Hi) as (l & Hl). rw Hl.
  destruct (sweep_bucket i l [] g Hi) as (l' & g' & -> & HI' & Hg' & Hc & Hother).
  { rw /with_bucket /= list_insert_id //. by apply (base_ext g). }
  rw Ok_bind. cbv zeta. assert (strt g' = strt g /\ currentwhite g' = currentwhite g /\ sweepgc g' = sweepgc g) as (Es & Ew & Eg) by (by rw Hg').
  set (g1 := set_strt g' (<[i := l']> (strt g')) (S i)). assert (base g1) as HB1 by (by apply (base_ext (with_bucket i l' g'))).
  assert (forall o, o ∈ concat (take (S i) (strt g1)) -> clean_at g1 o) as Hcl.
  { intros o. rw /g1 /= Es insert_take_drop // take_app_ge; [rw length_take; lia|]. rw concat_app length_take. replace (S i - i `min` length (strt g))%nat with 1%nat by lia.
    rw /= app_nil_r. intros [Ho|Ho]%elem_of_app; [|by apply (proj1 (Forall_forall _ _) Hc)].
    destruct (Hclean o Ho) as (x & Hx & Hcx). exists x. rw /g1 /= Ew Hother //. intros Hin.
    pose proof (s_nodup_strt _ (i_shape _ HI)) as Hnd. rw -(take_drop_middle _ _ _ Hl) concat_app in Hnd. apply NoDup_app in Hnd as (_ & Hd & _). apply (Hd o Ho).
    rw /=. apply elem_of_app. by left. }
  eexists. split; [done|]. assert (length (strt g1) = length (strt g)) as Hlen by (by rw /g1 /= Es length_insert).
  assert (gcstate g1 = GCSsweepstring) as E1 by (by rw /g1 Hg').
  destruct (decide (length (strt g1) <= S i)%nat); (split; [|simpl in *; auto with lia]).
  - split; [by apply (base_ext g1)|]. rw /phase_inv /=. split; [|split].
    + intros o Ho. apply (Hcl o). rw take_ge //.
    + rw Eg Hsg. lia.
    + rw Eg Hsg take_0. by intros o ?%elem_of_nil.
  - split; [done|]. rw /phase_inv E1. split; [simpl in *; lia|]. split; [by rw /g1 /= Eg|]. exact Hcl.
Qed.

(** ** Open upvalues *)

(** An open upvalue leaves its thread: it is freed, or it is closed and goes to the list of all objects. *)
Record unlinked (uv th : loc) (k' : option skel) g g' : Prop := {
  u_sk n top ups : sk g th = Some (SkThread n top ups) -> uv ∈ ups -> exists ups', NoDup ups' /\ (forall c, c ∈ ups' <-> c ∈ ups /\ c <> uv) /\
    forall c, sk g' c = if decide (c = uv) then k' else if decide (c = th) then Some (SkThread n top ups') else sk g c;
  u_root : k' = None /\ rootgc g' = rootgc g \/ k' = Some SkOther /\ (forall c, c ∈ rootgc g' <-> c = uv \/ c ∈ rootgc g);
  u_nodup : NoDup (rootgc g' ++ tmudata g');
  u_main : exists pre post, rootgc g' = pre ++ mainthread g :: post /\ forall c, c ∈ post -> sk g c = Some SkUdata;
  u_uv : uvhead g' = filter (fun c => c <> uv) (uvhead g);
  u_strt : concat (strt g') = concat (strt g);
  u_tmu : tmudata g' = tmudata g;
  u_mainthread : mainthread g' = mainthread g;
  u_running : running g' = running g
}.

Lemma shape_unlinked uv th i k' g g' : shape g -> sk g uv = Some (SkOpen th i) -> unlinked uv th k' g g' -> shape g'.
Proof.
  intros HS Huv HU. destruct (s_open _ HS _ _ _ Huv) as (n & top & ups & Hth & Hin & _). destruct (u_sk _ _ _ _ _ HU n top ups Hth Hin) as (ups' & Hnd' & Hups & Hsk).
  destruct (s_thread _ HS _ _ _ _ Hth) as (Hnd & Htop & HF). rw Forall_forall in HF.
  assert (th <> uv) as Hne by (intros ->; congruence).
  assert (sk g' th = Some (SkThread n top ups')) as Hth' by (rw Hsk; destruct (decide (th = uv)); [done|]; by destruct (decide (th = th))).
  assert (forall c k, sk g c = Some k -> c <> uv -> c <> th -> sk g' c = Some k) as Hkeep by (intros c k Hc ? ?; rw Hsk; destruct (decide (c = uv)); [done|]; by destruct (decide (c = th))).
  assert (forall c k, sk g c = Some k -> (forall a b, k <> SkOpen a b) -> (forall a b d, k <> SkThread a b d) -> sk g' c = Some k) as Hkeep'.
  { intros c k Hc H1 H2. apply Hkeep; [done| |]; intros ->; [apply (H1 th i)|apply (H2 n top ups)]; congruence. }
  assert (forall c a b, sk g c = Some (SkOpen a b) -> c <> uv -> sk g' c = Some (SkOpen a b)) as Hopen by (intros c a b Hc Hcu; apply Hkeep; [done|done|]; intros ->; congruence).
  assert (forall c, (exists a b d, sk g c = Some (SkThread a b d)) -> exists a b d, sk g' c = Some (SkThread a b d)) as Hthr.
  { intros c (a & b & d & Hc). destruct (decide (c = th)) as [->|]; [eauto|]. exists a, b, d. apply Hkeep; [done| |done]. intros ->. congruence. }
  assert (forall c k, sk g' c = Some k -> c = uv /\ k' = Some k \/ c = th /\ k = SkThread n top ups' \/ c <> uv /\ c <> th /\ sk g c = Some k) as Hback.
  { intros c k. rw Hsk. destruct (decide (c = uv)); [by left|]. destruct (decide (c = th)); [intros [= <-]; by right; left|by right; right]. }
  assert (forall c, c ∈ rootgc g -> c ∈ rootgc g') as Hroot by (intros c Hc; destruct (u_root _ _ _ _ _ HU) as [[_ ->]|[_ Hr]]; [done|apply Hr; by right]).
  split; rw ?(u_tmu _ _ _ _ _ HU) ?(u_uv _ _ _ _ _ HU) ?(u_mainthread _ _ _ _ _ HU) ?(u_running _ _ _ _ _ HU) ?(u_strt _ _ _ _ _ HU).
  - intros c k [[-> Hk]|[[-> ->]|(Hcu & _ & Hc)]]%Hback.
    + destruct (u_root _ _ _ _ _ HU) as [[? _]|[Hk' Hr]]; [congruence|]. rw Hk in Hk'. injection Hk' as ->. simpl. apply Hr. by left.
    + apply Hroot. apply (s_home _ HS th _ Hth).
    + pose proof (s_home _ HS c k Hc) as Hh. destruct k; simpl in *; rw ?(u_strt _ _ _ _ _ HU) ?(u_uv _ _ _ _ _ HU) ?(u_tmu _ _ _ _ _ HU); auto; [|by apply list_elem_of_filter].
      apply elem_of_app in Hh as [?|?]; apply elem_of_app; auto.
  - intros c Hc. destruct (decide (c = uv)) as [->|Hcu].
    + destruct (u_root _ _ _ _ _ HU) as [[_ Hr]|[-> _]]; [|exists SkOther; split; [rw Hsk; by destruct (decide (uv = uv))|done]].
      rw Hr in Hc. destruct (s_root _ HS uv Hc) as (k & Hk & Hr'). rw Huv in Hk. by injection Hk as <-.
    + assert (c ∈ rootgc g) as Hcg by (destruct (u_root _ _ _ _ _ HU) as [[_ Hr]|[_ Hr]]; [congruence|by apply Hr in Hc as [?|?]]).
      destruct (s_root _ HS c Hcg) as (k & Hk & Hr). destruct (decide (c = th)) as [->|]; [by eexists; split; [exact Hth'|]|]. exists k. split; [by apply Hkeep|done].
  - intros c Hc. by apply Hkeep'; [apply (s_strt _ HS)|..].
  - intros c Hc. by apply Hkeep'; [apply (s_tmu _ HS)|..].
  - intros c [Hcu Hc]%list_elem_of_filter. destruct (s_uv _ HS c Hc) as (a & b & ?). exists a, b. by apply Hopen.
  - rw -(u_tmu _ _ _ _ _ HU). apply HU.
  - apply HS.
  - apply NoDup_filter, HS.
  - destruct (u_main _ _ _ _ _ HU) as (pre & post & Hr & Hp). exists pre, post. split; [done|]. apply Forall_forall. intros c Hc%Hp. by apply Hkeep'.
  - apply Hthr, HS.
  - apply Hthr, HS.
  - intros c a b d [[-> Hk]|[[-> Hk]|(Hcu & Hct & Hc)]]%Hback.
    + destruct (u_root _ _ _ _ _ HU) as [[? _]|[? _]]; congruence.
    + injection Hk as -> -> ->. split; [done|]. split; [done|]. apply Forall_forall. intros c [Hc Hcu]%Hups. destruct (HF c Hc) as (j & ?). exists j. by apply Hopen.
    + destruct (s_thread _ HS _ _ _ _ Hc) as (? & ? & HF2). split; [done|]. split; [done|]. rw Forall_forall in HF2. apply Forall_forall. intros c' Hc'.
      destruct (HF2 c' Hc') as (j & Hj). exists j. apply Hopen; [done|]. intros ->. congruence.
  - intros c a b [[-> Hk]|[[-> Hk]|(Hcu & Hct & Hc)]]%Hback; [destruct (u_root _ _ _ _ _ HU) as [[? _]|[? _]]; congruence|done|].
    destruct (s_open _ HS _ _ _ Hc) as (n' & top' & ups2 & Ha & Hc2 & ?). destruct (decide (a = th)) as [->|].
    + rw Hth in Ha. injection Ha as <- <- <-. exists n, top, ups'. split; [done|]. split; [by apply Hups|done].
    + exists n', top', ups2. split; [|done]. apply Hkeep; [done| |done]. intros ->. congruence.
Qed.

(** The state with a list of open upvalues in a thread. *)
Definition set_ups (ups : list loc) (x : GCObject) : GCObject :=
  mkObject (marked x) (match body x with BThread gt st top cis _ => BThread gt st top cis ups | b => b end).
Definition with_ups (th : loc) (ups : list loc) g : global_State := set_heap g (alter (set_ups ups) th (heap g)).

Lemma set_openupval_eq g th ups n top ups0 : sk g th = Some (SkThread n top ups0) -> set_openupval g th ups = Ok (with_ups th ups g).
Proof.
  intros (x & Hx & (gt & st & cis & Hb & _)%skel_thread)%sk_inv. rw /set_openupval (get_eq _ _ _ Hx) Ok_bind Hb /put /with_ups. do 2 f_equal.
  apply map_eq. intros c. destruct (decide (c = th)) as [->|]; [by rw lookup_insert_eq lookup_alter_eq Hx /= /set_ups Hb|by rw lookup_insert_ne // lookup_alter_ne].
Qed.

Lemma with_ups_sk th ups g c n top ups0 : sk g th = Some (SkThread n top ups0) -> sk (with_ups th ups g) c = if decide (c = th) then Some (SkThread n top ups) else sk g c.
Proof.
  intros (x & Hx & (gt & st & cis & Hb & <-)%skel_thread)%sk_inv. rw /sk /=. destruct (decide (c = th)) as [->|]; [by rw lookup_alter_eq Hx /= Hb|by rw lookup_alter_ne].
Qed.

Lemma slot_set_ups h th ups c i : stack_slot (alter (set_ups ups) th h) c i = stack_slot h c i.
Proof.
  rw /stack_slot. destruct (decide (c = th)) as [->|]; [rw lookup_alter_eq|by rw lookup_alter_ne]. destruct (h !! th) as [x|]; [|done]. rw /= /set_ups /=. by destruct (body x).
Qed.
Lemma refs_set_ups h h' ups x : (forall th i, stack_slot h' th i = stack_slot h th i) -> refs h' (body (set_ups ups x)) = refs h (body x).
Proof. intros Hs. rw /set_ups /=. destruct (body x) as [| |[]| | | | |]; try done. by rw /= /upval_refs /= Hs. Qed.

Lemma with_ups_id th g n top ups : sk g th = Some (SkThread n top ups) -> with_ups th ups g = g.
Proof.
  intros (x & Hx & (gt & st & cis & Hb & _)%skel_thread)%sk_inv. rw /with_ups. rw alter_id; [|by destruct g]. intros y Hy. assert (y = x) as -> by congruence.
  rw /set_ups Hb -Hb. by destruct x.
Qed.

Lemma with_ups_put th ups g c x : c <> th -> with_ups th ups (put g c x) = put (with_ups th ups g) c x.
Proof. intros Hne. rw /with_ups /put /= alter_insert_ne //. Qed.
Lemma with_ups_free th ups g c : c <> th -> with_ups th ups (free (unlinkupval g c) c) = free (unlinkupval (with_ups th ups g) c) c.
Proof. intros Hne. rw /with_ups /free /= alter_delete_ne //. Qed.
Lemma with_ups_twice th ups ups' g : with_ups th ups (with_ups th ups' g) = with_ups th ups g.
Proof.
  rw /with_ups /=. f_equal. apply map_eq. intros c. destruct (decide (c = th)) as [->|]; [|by rw !lookup_alter_ne].
  rw !lookup_alter_eq. destruct (heap g !! th) as [x|]; [|done]. rw /set_ups /=. by destruct (body x).
Qed.

Lemma with_ups_unlinked uv th i K R k' g g1 : shape (with_ups th (K ++ uv :: R) g) -> sk g uv = Some (SkOpen th i) ->
  (k' = None /\ rootgc g1 = rootgc g \/ k' = Some SkOther /\ forall c, c ∈ rootgc g1 <-> c = uv \/ c ∈ rootgc g) ->
  (forall c, sk g1 c = if decide (c = uv) then k' else sk g c) -> NoDup (rootgc g1 ++ tmudata g1) ->
  (exists pre post, rootgc g1 = pre ++ mainthread g :: post /\ forall c, c ∈ post -> sk g c = Some SkUdata) ->
  uvhead g1 = filter (fun c => c <> uv) (uvhead g) -> strt g1 = strt g -> tmudata g1 = tmudata g -> mainthread g1 = mainthread g -> running g1 = running g ->
  unlinked uv th k' (with_ups th (K ++ uv :: R) g) (with_ups th (K ++ R) g1).
Proof.
  intros HS Huv Hroot Hsk Hnd (pre & post & Hr & Hp) Huvh Hs Ht Hm Hrun.
  assert (th <> uv) as Hne.
  { intros <-. assert (sk (with_ups th (K ++ th :: R) g) th = Some (SkOpen th i)) as Hth; [|].
    { destruct (sk_inv _ _ _ Huv) as (x & Hx & Hb%skel_open). rw /sk /= lookup_alter_eq Hx /= /set_ups Hb //. }
    destruct (s_open _ HS _ _ _ Hth) as (? & ? & ? & ? & _). congruence. }
  assert (exists n top ups0, sk g th = Some (SkThread n top ups0)) as (n & top & ups0 & Hth).
  { assert (sk (with_ups th (K ++ uv :: R) g) uv = Some (SkOpen th i)) as Huv' by (rw /sk /= lookup_alter_ne //).
    destruct (s_open _ HS _ _ _ Huv') as (n & top & ups & Ha & _). rw /sk /= lookup_alter_eq in Ha. destruct (heap g !! th) as [x|] eqn:Hx; [|done].
    rw /= /set_ups /= in Ha. rw /sk Hx /=. destruct (body x) as [| |[]| | | | |]; try done. eauto. }
  assert (sk g1 th = Some (SkThread n top ups0)) as Hth1 by (rw Hsk; by destruct (decide (th = uv))).
  split; try done.
  - intros n' top' ups. rw (with_ups_sk _ _ _ _ _ _ _ Hth). destruct (decide (th = th)); [|done]. intros [= <- <- <-] _. exists (K ++ R).
    assert (NoDup (uv :: K ++ R)) as [Hni HND]%NoDup_cons.
    { rw Permutation_middle. destruct (s_thread _ HS th n top (K ++ uv :: R)) as (? & _); [|done]. rw (with_ups_sk _ _ _ _ _ _ _ Hth). by destruct (decide (th = th)). }
    split; [done|]. split; [intros c; rw !elem_of_app elem_of_cons; set_solver|]. intros c. rw (with_ups_sk _ _ _ _ _ _ _ Hth1) (with_ups_sk _ _ _ _ _ _ _ Hth) Hsk.
    destruct (decide (c = th)) as [->|]; [by destruct (decide (th = uv))|done].
  - exists pre, post. split; [done|]. intros c Hc%Hp. rw (with_ups_sk _ _ _ _ _ _ _ Hth). destruct (decide (c = th)) as [->|]; [congruence|done].
  - by rw /= Hs.
Qed.

Lemma with_ups_lookup th ups g c y : heap (with_ups th ups g) !! c = Some y ->
  exists x, heap g !! c = Some x /\ marked y = marked x /\ (c <> th /\ y = x \/ c = th /\ y = set_ups ups x).
Proof.
  simpl. destruct (decide (c = th)) as [->|]; [|rw lookup_alter_ne //; intros Hy; exists y; auto].
  rw lookup_alter_eq. destruct (heap g !! th) as [x|]; [|done]. intros [= <-]. exists x. auto.
Qed.

Lemma with_ups_alive th ups g c : alive (with_ups th ups g) c <-> alive g c.
Proof.
  split.
  - intros (y & (x & Hx & Hm & _)%with_ups_lookup & Hd). exists x. by rw -Hm.
  - intros (x & Hx & Hd). destruct (decide (c = th)) as [->|]; [exists (set_ups ups x)|exists x]; rw /= ?lookup_alter_eq ?Hx // lookup_alter_ne //.
Qed.

Lemma set_ups_skel ups x k : skel_of (body (set_ups ups x)) = k -> (forall a b d, k <> SkThread a b d) -> skel_of (body x) = k.
Proof. rw /set_ups /=. destruct (body x) as [| |[]| | | | |]; try done. intros <- Hk. by destruct (Hk (length stack) top ups). Qed.
Lemma set_ups_typed g ups x : typed g (body x) -> typed g (body (set_ups ups x)).
Proof. rw /set_ups /=. by destruct (body x). Qed.
Lemma set_ups_sane ups x : sane_object x -> sane_object (set_ups ups x).
Proof. rw /sane_object /set_ups /=. by destruct (body x). Qed.
Lemma set_ups_string ups x : skel_of (body x) = SkString -> skel_of (body (set_ups ups x)) = SkString.
Proof. rw /set_ups /=. by destruct (body x). Qed.
Lemma set_ups_set_ups ups ups' x : set_ups ups (set_ups ups' x) = set_ups ups x.
Proof. rw /set_ups /=. by destruct (body x). Qed.

Lemma free_upval_slot th ups g uv v a j : heap g !! uv = Some v -> open_upval (body v) = true ->
  stack_slot (heap (with_ups th ups (free (unlinkupval g uv) uv))) a j = stack_slot (heap g) a j.
Proof.
  intros Hv Hop. rw /= slot_set_ups. destruct (decide (a = uv)) as [->|]; [|by apply slot_delete]. rw /stack_slot lookup_delete_eq Hv /=. by destruct (body v).
Qed.

Lemma base_free_upval uv th i K R g x : base (with_ups th (K ++ uv :: R) g) -> heap g !! uv = Some x -> body x = BUpval (UOpen th i) ->
  isdead (currentwhite g) (marked x) = true -> base (with_ups th (K ++ R) (free (unlinkupval g uv) uv)).
Proof.
  intros HI Hx Hb Hdead. set (G := with_ups th (K ++ uv :: R) g) in *. set (g1 := free (unlinkupval g uv) uv).
  assert (sk g uv = Some (SkOpen th i)) as Huv by (by rw (sk_lookup _ _ _ Hx) Hb).
  assert (unlinked uv th None G (with_ups th (K ++ R) g1)) as HU.
  { apply (with_ups_unlinked uv th i); try done; [apply HI|by left|..].
    - intros c. rw /sk /=. destruct (decide (c = uv)) as [->|]; [by rw lookup_delete_eq|by rw lookup_delete_ne].
    - apply (i_shape _ HI).
    - destruct (s_main _ (i_shape _ HI)) as (pre & post & Hr & Hp). exists pre, post. split; [done|]. intros c Hc.
      pose proof (proj1 (Forall_forall _ _) Hp c Hc) as Hk. destruct (sk_inv _ _ _ Hk) as (y & (z & Hz & _ & Hor)%with_ups_lookup & Hky).
      rw (sk_lookup _ _ _ Hz). destruct Hor as [[_ ->]|[-> ->]]; [by rw Hky|]. by rw (set_ups_skel _ _ _ Hky). }
  assert (~ alive G uv) as Hna by (rw with_ups_alive; intros (y & ? & ?); congruence).
  assert (forall c, alive G c -> alive (with_ups th (K ++ R) g1) c) as Hmono.
  { intros c Hc. apply with_ups_alive. apply (alive_delete g _ uv); [done|done|by rw -(with_ups_alive th (K ++ uv :: R))|by apply (with_ups_alive th (K ++ uv :: R))]. }
  assert (forall c y', heap (with_ups th (K ++ R) g1) !! c = Some y' -> exists y, heap G !! c = Some y /\ marked y' = marked y /\ (y' = y \/ y' = set_ups (K ++ R) y)) as Hback.
  { intros c y' (y & Hy & Hm & Hor)%with_ups_lookup. rw /g1 /= in Hy. apply lookup_delete_Some in Hy as [Hcu Hy]. destruct Hor as [[Hne ->]|[-> ->]].
    - exists y. rw /G /= lookup_alter_ne //. auto.
    - exists (set_ups (K ++ uv :: R) y). rw /G /= lookup_alter_eq Hy. split; [done|]. split; [done|]. right. by rw set_ups_set_ups. }
  assert (forall a j, stack_slot (heap (with_ups th (K ++ R) g1)) a j = stack_slot (heap G) a j) as Hslots.
  { intros a j. rw (free_upval_slot _ _ _ _ x); [done|by rw Hb|]. by rw /G /= slot_set_ups. }
  apply (base_transfer G); try done.
  - eapply shape_unlinked; [apply HI| |done]. rw /sk /G /= lookup_alter_ne; [|by rw Hx /= Hb]. intros <-.
    destruct (s_open _ (i_shape _ HI) th th i) as (? & ? & ? & Ha & _); [by rw /sk /= lookup_alter_eq Hx /= /set_ups Hb|]. by rw /sk /= lookup_alter_eq Hx /= /set_ups Hb in Ha.
  - intros c y' (y & Hy & _ & [->| ->])%Hback; [|apply set_ups_sane]; by apply (i_sane _ HI c).
  - intros c y' (y & Hy & Hm & Hor)%Hback Hd. rw Hm in Hd. destruct (i_closed _ HI c y Hy Hd) as [HF Ht]. assert (refs (heap (with_ups th (K ++ R) g1)) (body y') = refs (heap G) (body y)) as ->.
    { destruct Hor as [->| ->]; [|by apply refs_set_ups]. apply refs_slots. intros a j _. apply Hslots. }
    split; [done|]. eapply typed_mono; [destruct Hor as [->| ->]; [exact Ht|by apply set_ups_typed]| |].
    + destruct Hor as [->| ->]; [done|]. by rw (refs_set_ups (heap G)).
    + intros c' k Hc' Hk Hkc. destruct (sk_inv _ _ _ Hkc) as (z & (z0 & Hz & _ & Hor2)%with_ups_lookup & Hkz). assert (c' <> uv) by (by intros ->).
      assert (skel_of (body z0) = k) as Hkz0 by (destruct Hor2 as [[_ ->]|[-> ->]]; [done|]; apply (set_ups_skel _ _ _ Hkz); by destruct Hk as [->| ->]).
      rw /sk /=. destruct (decide (c' = th)) as [->|]; [rw lookup_alter_eq|rw lookup_alter_ne //]; rw lookup_delete_ne // Hz /= -Hkz0; [|done].
      destruct Hk as [->| ->]; rw /set_ups /=; by destruct (body z0) as [| |[]| | | | |].
  - apply HI.
  - apply HI.
  - intros c y' (y & Hy & Hm & Hor)%Hback Hf. rw Hm in Hf. destruct (i_fixed _ HI c y Hy Hf) as [Hk|?]; [left|by right]. destruct Hor as [->| ->]; [done|by apply set_ups_string].
Qed.

(** An object that is not fixed is freed exactly if it is dead. *)
Lemma notdead_unfixed w m : one_white w -> fixed m = false -> notdead (otherwhite w) m = negb (isdead w m).
Proof. intros Hw Hf. by rw notdead_spec // Hf orb_false_r. Qed.

Lemma sweep_upvals th n top l kept ups0 g : base (with_ups th (kept ++ l) g) -> sk g th = Some (SkThread n top ups0) ->
  exists l' g', sweepwholelist l g = Ok (l', g') /\ base (with_ups th (kept ++ l') g') /\ g' = set_uvhead (set_heap g (heap g')) (uvhead g') /\
    Forall (clean_at g') l' /\ (forall c, c ∉ l -> heap g' !! c = heap g !! c).
Proof.
  revert kept g. induction l as [|uv l IH]; intros kept g HI Hth; [by exists [], g; destruct g|].
  pose proof (i_shape _ HI) as HS. destruct (s_thread _ HS th n top (kept ++ uv :: l)) as (Hnd & _ & HF); [rw (with_ups_sk _ _ _ _ _ _ _ Hth); by destruct (decide (th = th))|].
  apply Forall_app in HF as [_ [(i & Huv) _]%Forall_cons]. rw (with_ups_sk _ _ _ _ _ _ _ Hth) in Huv. destruct (decide (uv = th)) as [|Hne]; [done|].
  destruct (sk_inv _ _ _ Huv) as (x & Hx & Hb%skel_open). assert (uv ∉ l) as Hni by (apply NoDup_app in Hnd as (_ & _ & [? _]%NoDup_cons); done).
  pose proof (i_white _ HI : one_white (currentwhite g)) as Hone. cbn [sweepwholelist]. rw (get_eq _ _ _ Hx) Ok_bind.
  assert (heap (with_ups th (kept ++ uv :: l) g) !! uv = Some x) as HxG by (by rw /= lookup_alter_ne).
  assert (fixed (marked x) = false) as Hfix.
  { destruct (fixed (marked x)) eqn:Hf; [|done]. destruct (i_fixed _ HI uv x HxG Hf) as [Hk|Heq]; [by rw Hb in Hk|].
    destruct (s_mainthread _ HS) as (? & ? & ? & Hm). rw (with_ups_sk _ _ _ _ _ _ _ Hth) in Hm. simpl in *. destruct (decide (mainthread g = th)); congruence. }
  rw notdead_unfixed //. destruct (isdead (currentwhite g) (marked x)) eqn:Hdead; simpl.
  - rw /freeobj (get_eq _ _ _ Hx) Ok_bind Hb /luaF_freeupval (get_eq _ _ _ Hx) Ok_bind Hb Ok_bind.
    destruct (IH kept (free (unlinkupval g uv) uv)) as (l' & g' & Hr & HI' & Hg' & Hc & Hother); [by eapply base_free_upval|by rw /sk /= lookup_delete_ne|].
    exists l', g'. split; [done|]. split; [done|]. split; [by rw Hg'|]. split; [done|]. intros c Hcn. rw Hother; [set_solver|]. rw /= lookup_delete_ne //. set_solver.
  - rw (set_marks_eq _ _ _ _ Hx) Ok_bind. set (y := mkObject (makewhite (currentwhite g) (marked x)) (body x)).
    destruct (IH (kept ++ [uv]) (put g uv y)) as (l' & g' & -> & HI' & Hg' & Hc & Hother).
    { rw -app_assoc with_ups_put //. apply (base_whiten (with_ups th (kept ++ uv :: l) g) uv x); [done|done|by left]. }
    { rw put_sk //. }
    rw Ok_bind. exists (uv :: l'), g'. split; [done|]. split; [by rw -app_assoc in HI'|]. split; [by rw Hg'|]. split.
    + apply Forall_cons. split; [|done]. exists y. rw (Hother uv Hni) /= lookup_insert_eq. split; [done|].
      assert (currentwhite g' = currentwhite g) as -> by (by rw Hg'). destruct (makewhite_alive _ (marked x) Hone) as (? & ? & _). done.
    + intros c Hcn. rw Hother; [set_solver|]. rw /= lookup_insert_ne //. set_solver.
Qed.
