(* ===== verification/LuaGCClose.v ===== *)
(** LuaGCClose: closing of upvalues (luaF_close() of lfunc.c, luaC_linkupval() of lgc.c) and
    the sweep of the list of all objects, where a dead thread closes its upvalues. *)

From Corelib Require Import ssreflect.
From stdpp Require Import base list gmap numbers strings.
From Stdlib Require Import ZArith Lia.
From S2P Require Import Prelude LuaHeap LuaGC LuaGCMark LuaGCInv LuaGCTri LuaGCAtomic LuaGCFinal LuaGCPhase LuaGCSweep.

Implicit Type g : global_State.

(** ** One upvalue *)

(** A dead thread that is being freed is no longer in the list of all objects. *)
Definition with_root (E : list loc) g : global_State := set_rootgc g (E ++ rootgc g) (sweepgc g).

Definition closed_upval (uv th : loc) (R : list loc) (x : GCObject) (v : gcvalue) g : global_State :=
  root_insert (put (unlinkupval (with_ups th R g) uv) uv (mkObject (marked x) (BUpval (UClosed v)))) 0 uv.

Lemma app_middle_inv {A} (E r pre post : list A) m : E ++ r = pre ++ m :: post -> m ∉ E -> exists pre', r = pre' ++ m :: post.
Proof.
  revert E. induction pre as [|a pre IH]; intros E Heq Hm; destruct E as [|e E]; simpl in *.
  - by exists [].
  - injection Heq as -> _. exfalso. apply Hm, list_elem_of_here.
  - by exists (a :: pre).
  - injection Heq as -> Heq. apply (IH E Heq). set_solver.
Qed.

Section close_one.
Context (E : list loc) (uv th : loc) (i : nat) (R : list loc) (g : global_State) (x : GCObject) (v : gcvalue) (n top : nat).
Context (HI : base (with_root E g)) (HE : mainthread g ∉ E) (Hth : sk g th = Some (SkThread n top (uv :: R))).
Context (Hx : heap g !! uv = Some x) (Hb : body x = BUpval (UOpen th i)) (Hv : stack_slot (heap g) th i = Some v).

Let G : global_State := with_root E g.
Let G' : global_State := with_root E (closed_upval uv th R x v g).

Lemma close_ne : uv <> th.
Proof using Hth Hx Hb. intros Heq. pose proof Hth as Ht. rw -Heq (sk_lookup _ _ _ Hx) Hb in Ht. done. Qed.

Lemma close_slots a j : stack_slot (heap G') a j = stack_slot (heap G) a j.
Proof using Hx Hb.
  change (heap G') with (<[uv := mkObject (marked x) (BUpval (UClosed v))]> (alter (set_ups R) th (heap g))). change (heap G) with (heap g).
  destruct (decide (a = uv)) as [->|Hne]; [by rw /stack_slot lookup_insert_eq Hx /= Hb|]. rw -(slot_set_ups (heap g) th R). by rw /stack_slot lookup_insert_ne.
Qed.

Lemma close_lookup c y' : heap G' !! c = Some y' -> exists y, heap G !! c = Some y /\ marked y' = marked y /\
  (c = uv /\ y' = mkObject (marked x) (BUpval (UClosed v)) \/ c <> uv /\ (y' = y \/ y' = set_ups R y)).
Proof using Hx.
  intros Hy. apply put_lookup in Hy as [[-> ->]|[Hne (y & Hy & Hm & Hor)%with_ups_lookup]]; [exists x; auto|].
  exists y. split; [done|]. split; [done|]. right. split; [done|]. destruct Hor as [[_ ->]|[_ ->]]; auto.
Qed.

Lemma close_alive c : alive G c -> alive G' c.
Proof using Hx.
  intros (y & Hy & Hd). destruct (decide (c = uv)) as [->|Hne].
  - eexists. split; [apply lookup_insert_eq|]. simpl. assert (y = x) as -> by (change (heap g !! uv = Some y) in Hy; congruence). done.
  - destruct (proj2 (with_ups_alive th R g c)) as (z & Hz & Hdz); [by exists y|]. exists z. split; [by rw /= lookup_insert_ne|done].
Qed.

Lemma close_unlinked : unlinked uv th (Some SkOther) G G'.
Proof using HI HE Hth Hx Hb Hv.
  assert (with_ups th ([] ++ uv :: R) G = G) as HG by (by apply (with_ups_id _ _ n top)). rw -{1}HG.
  set (y := mkObject (marked x) (BUpval (UClosed v))). set (g1 := set_rootgc (put (unlinkupval G uv) uv y) (E ++ uv :: rootgc g) (sweepgc (closed_upval uv th R x v g))).
  assert (G' = with_ups th ([] ++ R) g1) as HG'.
  { rw /G' /with_root /closed_upval /with_ups /=. rw alter_insert_ne; [|done]. apply not_eq_sym, close_ne. }
  rw HG'.   pose proof (s_nodup _ (i_shape _ HI)) as Hnd. simpl in Hnd. assert (uv ∉ E ++ rootgc g) as Hni.
  { intros Hin. destruct (s_root _ (i_shape _ HI) uv Hin) as (k & Hk & Hr). change (sk g uv = Some k) in Hk. rw (sk_lookup _ _ _ Hx) Hb in Hk. by injection Hk as <-. }
  assert (uv ∉ tmudata g) as Hnt.
  { intros Hin. pose proof (s_tmu _ (i_shape _ HI) uv Hin) as Hk. change (sk g uv = Some SkUdata) in Hk. by rw (sk_lookup _ _ _ Hx) Hb in Hk. }
  apply (with_ups_unlinked uv th i); try done.
  - rw HG. apply HI.
  - by rw (sk_lookup _ _ _ Hx : sk G uv = _) Hb.
  - right. split; [done|]. intros c. rw /g1 /=. set_solver.
  - intros c. rw /sk /g1 /=. destruct (decide (c = uv)) as [->|]; [by rw lookup_insert_eq|by rw lookup_insert_ne].
  - rw /g1 /= -app_assoc -Permutation_middle app_assoc. apply NoDup_cons. split; [set_solver|done].
  - destruct (s_main _ (i_shape _ HI)) as (pre & post & Hr & Hp). simpl in Hr.
    destruct (app_middle_inv _ _ _ _ _ Hr HE) as (pre' & Hr'). exists (E ++ uv :: pre'), post. split; [by rw /g1 /= Hr' -app_assoc|].
    intros c Hc. apply (proj1 (Forall_forall _ _) Hp c Hc).
Qed.

Lemma base_close : isdead (currentwhite g) (marked x) = false -> base G'.
Proof using HI HE Hth Hx Hb Hv.
  intros Hd. assert (shape G') as HS.
  { eapply shape_unlinked; [apply HI| |apply close_unlinked]. by rw (sk_lookup _ _ _ Hx : sk G uv = _) Hb. }
  assert (forall c k, k = SkTable \/ k = SkString -> sk G c = Some k -> sk G' c = Some k) as Hsk.
  { intros c k Hk Hc. destruct (u_sk _ _ _ _ _ close_unlinked n top (uv :: R) Hth ltac:(apply list_elem_of_here)) as (ups' & _ & _ & ->).
    destruct (decide (c = uv)) as [->|]; [|destruct (decide (c = th)) as [->|]; [|done]]; exfalso.
    - change (sk g uv = Some k) in Hc. rw (sk_lookup _ _ _ Hx) Hb in Hc. by destruct Hk as [->| ->].
    - change (sk g th = Some k) in Hc. rw Hth in Hc. by destruct Hk as [->| ->]. }
  apply (base_transfer G); try done.
  - intros c y' (y & Hy & Hm & [[-> ->]|[_ Hor]])%close_lookup.
    + pose proof (i_sane _ HI uv x Hx) as (? & ? & ? & ?). by rw /sane_object.
    + destruct Hor as [->| ->]; [|apply set_ups_sane]; by apply (i_sane _ HI c).
  - intros c y' (y & Hy & Hm & Hor)%close_lookup Hdy. rw Hm in Hdy. destruct (i_closed _ HI c y Hy Hdy) as [HF Ht].
    assert (refs (heap G') (body y') = refs (heap G) (body y)) as Hrefs.
    { destruct Hor as [[-> ->]|[_ [->| ->]]]; [|apply refs_slots; intros a j _; apply close_slots|apply refs_set_ups, close_slots].
      assert (y = x) as -> by (change (heap g !! uv = Some y) in Hy; congruence). by rw Hb /= /upval_refs /= Hv. }
    rw Hrefs. split; [done|]. destruct Hor as [[-> ->]|[_ Hor]]; [done|]. eapply typed_mono; [destruct Hor as [->| ->]; [exact Ht|by apply set_ups_typed]| |].
    + destruct Hor as [->| ->]; [done|]. by rw (refs_set_ups (heap G)).
    + intros c' k _. apply Hsk.
  - intros c. apply close_alive.
  - apply HI.
  - apply HI.
  - intros c y' (y & Hy & Hm & Hor)%close_lookup Hf. rw Hm in Hf. destruct (i_fixed _ HI c y Hy Hf) as [Hk|?]; [|by right]. left.
    destruct Hor as [[-> ->]|[_ [->| ->]]]; [|done|by apply set_ups_string]. assert (y = x) as -> by (change (heap g !! uv = Some y) in Hy; congruence). by rw Hb in Hk.
Qed.
End close_one.

(** One round of luaF_close(). *)
Lemma close_loop_cons uv th i R level g x v n top : sk g th = Some (SkThread n top (uv :: R)) -> heap g !! uv = Some x -> body x = BUpval (UOpen th i) ->
  (level <= i)%nat -> isblack (marked x) = false -> isdead (currentwhite g) (marked x) = false -> stack_slot (heap g) th i = Some v ->
  close_loop (uv :: R) th level g =
    (g' ← luaC_linkupval (put (unlinkupval (with_ups th R g) uv) uv (mkObject (marked x) (BUpval (UClosed v)))) uv v; close_loop R th level g').
Proof.
  intros Hth Hx Hb Hl Hbl Hd Hv. cbn [close_loop]. rw (get_eq _ _ _ Hx) Ok_bind Hb. destruct (decide (level <= i)%nat); [|done].
  rw Hbl /= (set_openupval_eq _ _ _ _ _ _ Hth) Ok_bind Hd. rw /= slot_set_ups Hv Ok_bind. done.
Qed.

(** The marks of objects stay. *)
Definition keeps_marks g g' : Prop := currentwhite g' = currentwhite g /\ forall c y, heap g !! c = Some y -> exists y', heap g' !! c = Some y' /\ marked y' = marked y.

Lemma keeps_marks_clean g g' c : keeps_marks g g' -> clean_at g c -> clean_at g' c.
Proof. intros [Hw Hk] (y & Hy & Hc). destruct (Hk c y Hy) as (y' & Hy' & Hm). exists y'. by rw /clean Hm Hw. Qed.
#[export] Instance keeps_marks_trans : Transitive keeps_marks.
Proof.
  intros g1 g2 g3 [W1 H1] [W2 H2]. split; [congruence|]. intros c y Hy. destruct (H1 c y Hy) as (z & Hz & Hm). destruct (H2 c z Hz) as (w & Hw & Hm2). exists w. split; [done|congruence].
Qed.

Lemma close_keeps_marks uv th R x v g : heap g !! uv = Some x -> keeps_marks g (closed_upval uv th R x v g).
Proof.
  intros Hx. split; [done|]. intros c y Hy. simpl. destruct (decide (c = uv)) as [->|]; [rw lookup_insert_eq; eexists; split; [done|]; simpl; congruence|rw lookup_insert_ne //].
  destruct (decide (c = th)) as [->|]; [rw lookup_alter_eq Hy; by eexists|rw lookup_alter_ne //; by exists y].
Qed.

(** Of the threads, a closed upvalue changes one. *)
Lemma close_sk uv th R x v g c n top ups : heap g !! uv = Some x -> sk g th = Some (SkThread n top ups) -> c <> uv ->
  sk (closed_upval uv th R x v g) c = if decide (c = th) then Some (SkThread n top R) else sk g c.
Proof. intros Hx Hth Hne. rw -(with_ups_sk th R g c n top ups Hth). by rw /sk /= lookup_insert_ne. Qed.

(** What closing upvalues leaves as it is. *)
Definition close_frame g g' : Prop :=
  g' = mkGlobal (heap g') (currentwhite g) (gcstate g) (strt g) (sweepstrgc g) (rootgc g') (sweepgc g') (gray g) (grayagain g) (weak g) (tmudata g)
    (uvhead g') (l_registry g) (mainthread g) (running g) (mt g) (tm_gc g) (tm_mode g).

Lemma luaC_linkupval_white g uv v x : heap g !! uv = Some x -> iswhite (marked x) = true -> luaC_linkupval g uv v = Ok (root_insert g 0 uv).
Proof. intros Hx Hw. rw /luaC_linkupval (get_eq (root_insert g 0 uv) uv x) // Ok_bind /isgray Hw andb_false_r. done. Qed.

(** The number of swept objects after [k] objects have been put before them. *)
Definition shifted (k s : nat) : nat := match s with O => O | S _ => (k + s)%nat end.

Lemma close_loop_clean E th n top ups g : base (with_root E g) -> mainthread g ∉ E -> sk g th = Some (SkThread n top ups) -> Forall (clean_at g) ups ->
  exists g', close_loop ups th 0 g = Ok g' /\ base (with_root E g') /\ sk g' th = Some (SkThread n top []) /\ keeps_marks g g' /\ close_frame g g' /\
    rootgc g' = reverse ups ++ rootgc g /\ sweepgc g' = shifted (length ups) (sweepgc g) /\
    (forall c, c ∉ ups -> c <> th -> sk g' c = sk g c) /\ Forall (fun c => sk g' c = Some SkOther) ups.
Proof.
  revert g. induction ups as [|uv R IH]; intros g HI HE Hth Hc.
  { exists g. split; [done|]. split; [done|]. split; [done|]. split; [split; [done|eauto]|]. split; [by destruct g|]. by destruct (sweepgc g). }
  destruct (s_thread _ (i_shape _ HI) th n top (uv :: R) Hth) as (Hnd & Htop & HF). apply Forall_cons in HF as [(i & Huv) HF]. change (sk g uv = Some (SkOpen th i)) in Huv.
  destruct (sk_inv _ _ _ Huv) as (x & Hx & Hb%skel_open). apply Forall_cons in Hc as [(y & Hy & Hw & Hd) Hc]. assert (y = x) as -> by congruence.
  destruct (shape_slot (with_root E g) uv th i (i_shape _ HI) Huv) as (v & Hv). change (stack_slot (heap g) th i = Some v) in Hv.
  destruct (i_sane _ HI uv x Hx) as (_ & Hbl & _). rw Hw /= in Hbl.
  rw (close_loop_cons uv th i R 0 g x v n top) //; [lia|]. rw (luaC_linkupval_white _ uv v (mkObject (marked x) (BUpval (UClosed v)))) //; [by rw /= lookup_insert_eq|].
  rw Ok_bind. change (root_insert _ 0 uv) with (closed_upval uv th R x v g). pose proof (close_keeps_marks uv th R x v g Hx) as HK.
  apply NoDup_cons in Hnd as [Hni _]. assert (th <> uv) as Hne by (intros ->; congruence).
  destruct (IH (closed_upval uv th R x v g)) as (g' & Hr & HI' & Hth' & HK' & HF' & Hroot & Hsw & Hsk & Hcl).
  - by eapply base_close.
  - done.
  - rw (close_sk uv th R x v g th n top (uv :: R)) //. by destruct (decide (th = th)).
  - eapply Forall_impl; [exact Hc|]. intros c. by apply keeps_marks_clean.
  - exists g'. split; [done|]. split; [done|]. split; [done|]. split; [by etrans|]. split; [done|]. split; [by rw Hroot /= reverse_cons -app_assoc|].
    split; [rw Hsw /=; destruct (sweepgc g); [done|]; simpl; lia|]. split.
    + intros c Hcn Hct. rw Hsk; [set_solver|done|]. rw (close_sk uv th R x v g c n top (uv :: R)) //; [set_solver|]. by destruct (decide (c = th)).
    + apply Forall_cons. split; [|done]. rw Hsk //. by rw /sk /= lookup_insert_eq.
Qed.

(** ** Sweeping the list of all objects *)

(** Strings have been swept, and the objects before [sweepgc]. *)
Definition swept g : Prop :=
  (forall o, o ∈ concat (strt g) -> clean_at g o) /\ (sweepgc g <= length (rootgc g))%nat /\ (forall o, o ∈ take (sweepgc g) (rootgc g) -> clean_object g o).

(** Objects other than upvalues of the thread that is swept stay as they are. *)
Lemma sweep_thread g th n top ups : base g -> swept g -> sk g th = Some (SkThread n top ups) ->
  exists g', ('(ups, g) ← sweepwholelist ups g; set_openupval g th ups) = Ok g' /\ base g' /\ swept g' /\
    (exists ups', sk g' th = Some (SkThread n top ups') /\ Forall (clean_at g') ups') /\
    (forall x, heap g !! th = Some x -> exists x', heap g' !! th = Some x' /\ marked x' = marked x) /\
    g' = set_uvhead (set_heap g (heap g')) (uvhead g') /\ uvhead g' ⊆ uvhead g.
Proof.
  intros HI (Hstr & Hlen & Hpre) Hth. pose proof (i_shape _ HI) as HS. destruct (s_thread _ HS _ _ _ _ Hth) as (Hnd & _ & HF). rw Forall_forall in HF.
  destruct (sweep_upvals th n top ups [] ups g) as (ups' & g1 & -> & HI1 & Hg1 & Hc & Hother); [by rw /= (with_ups_id _ _ n top)|done|].
  rw Ok_bind. assert (th ∉ ups) as Hni by (intros Hin; destruct (HF th Hin) as (i & ?); congruence).
  assert (sk g1 th = Some (SkThread n top ups)) as Hth1 by (by rw /sk Hother).
  rw (set_openupval_eq _ _ _ _ _ _ Hth1). exists (with_ups th ups' g1). split; [done|]. split; [done|].
  assert (currentwhite g1 = currentwhite g /\ strt g1 = strt g /\ rootgc g1 = rootgc g /\ sweepgc g1 = sweepgc g) as (E1 & E2 & E3 & E4) by (by rw Hg1).
  assert (forall c, clean_at g1 c -> clean_at (with_ups th ups' g1) c) as Hclean.
  { intros c (y & Hy & Hcy). simpl. destruct (decide (c = th)) as [->|]; [exists (set_ups ups' y); rw lookup_alter_eq Hy|exists y; rw lookup_alter_ne]; done. }
  assert (forall c, c ∉ ups -> clean_at g c -> clean_at (with_ups th ups' g1) c) as Hkeep.
  { intros c Hcn (y & Hy & Hcy). apply Hclean. exists y. by rw Hother // E1. }
  assert (forall c k, sk g c = Some k -> (forall a b, k <> SkOpen a b) -> c ∉ ups) as Hnot by (intros c k Hk Ho Hin; destruct (HF c Hin) as (j & Hj); apply (Ho th j); congruence).
  split; [|split; [|split; [|split]]].
  - split; [|split]; simpl; rw ?E2 ?E3 ?E4; [|done|].
    + intros o Ho. apply Hkeep; [|by apply Hstr]. eapply Hnot; [by apply (s_strt _ HS)|done].
    + intros o Ho. destruct (Hpre o Ho) as [Hco Hups]. destruct (s_root _ HS o) as (k & Hk & Hin); [eapply subseteq_take; done|].
      split; [apply Hkeep; [eapply Hnot; [done|by intros ? ? ->]|done]|]. intros a b d. rw (with_ups_sk _ _ _ _ _ _ _ Hth1). destruct (decide (o = th)) as [->|Hne].
      * intros [= <- <- <-]. eapply Forall_impl; [exact Hc|apply Hclean].
      * intros Hso. assert (sk g o = Some (SkThread a b d)) as Hso' by (rw -Hso /sk Hother //; eapply Hnot; [done|by intros ? ? ->]).
        apply Forall_forall. intros c Hcd. apply Hkeep; [|by eapply (proj1 (Forall_forall _ _)); [apply (Hups a b d)|]].
        intros Hin2. destruct (HF c Hin2) as (j & Hj). destruct (s_thread _ HS _ _ _ _ Hso') as (_ & _ & HF2). rw Forall_forall in HF2. destruct (HF2 c Hcd) as (j2 & Hj2). congruence.
  - exists ups'. rw (with_ups_sk _ _ _ _ _ _ _ Hth1). destruct (decide (th = th)); [|done]. split; [done|]. eapply Forall_impl; [exact Hc|apply Hclean].
  - intros x Hx. exists (set_ups ups' x). rw /= lookup_alter_eq Hother // Hx. done.
  - by rw {1}/with_ups Hg1.
  - intros c Hcu. destruct (s_uv _ (i_shape _ HI1) c Hcu) as (a & i & Hk). rw (with_ups_sk _ _ _ _ _ _ _ Hth1) in Hk. destruct (decide (c = th)); [done|].
    destruct (decide (c ∈ ups)) as [Hin|Hnin]; [destruct (HF c Hin) as (j & Hj); exact (s_home _ HS _ _ Hj)|]. rw /sk Hother // in Hk. exact (s_home _ HS c (SkOpen a i) Hk).
Qed.

(** What is left to do of the sweep: objects, and upvalues that a dead thread may leave. *)
Definition sweep_left g : nat := (length (rootgc g) - sweepgc g + length (uvhead g))%nat.

Lemma sub_length (l l' : list loc) : NoDup l -> l ⊆ l' -> (length l <= length l')%nat.
Proof. intros Hnd Hsub. apply submseteq_length, NoDup_submseteq; [done|]. intros x. apply Hsub. Qed.

(** *** A list without one of its elements *)

Lemma app_middle_cases {A} (l1 l2 pre post : list A) o m : l1 ++ o :: l2 = pre ++ m :: post -> o <> m ->
  (exists l, l1 = pre ++ m :: l /\ post = l ++ o :: l2) \/ (exists l, pre = l1 ++ o :: l /\ l2 = l ++ m :: post).
Proof.
  revert l1. induction pre as [|a pre IH]; intros l1 Heq Hne; destruct l1 as [|b l1]; simpl in *.
  - by injection Heq as -> _.
  - injection Heq as -> Heq. left. by exists l1.
  - injection Heq as -> Heq. right. by exists pre.
  - injection Heq as -> Heq. destruct (IH l1 Heq Hne) as [(l & -> & ->)|(l & -> & ->)]; [left|right]; by exists l.
Qed.

Lemma perm_cons_elem {A} (l1 l2 : list A) o c : l1 ≡ₚ o :: l2 -> c ∈ l1 <-> c = o \/ c ∈ l2.
Proof. intros HP. by rw HP elem_of_cons. Qed.

Lemma root_delete g i o : shape g -> rootgc g !! i = Some o -> o <> mainthread g ->
  rootgc g ≡ₚ o :: delete i (rootgc g) /\ (o ∉ delete i (rootgc g)) /\ take i (delete i (rootgc g)) = take i (rootgc g) /\
  exists pre post, delete i (rootgc g) = pre ++ mainthread g :: post /\ forall c, c ∈ post -> c <> o /\ sk g c = Some SkUdata.
Proof.
  intros HS Hi Hne. pose proof (take_drop_middle _ _ _ Hi) as Hmid. pose proof (s_nodup _ HS) as Hnd. apply NoDup_app in Hnd as (Hnd & _ & _).
  assert (rootgc g ≡ₚ o :: delete i (rootgc g)) as HP by (rw delete_take_drop Permutation_middle Hmid //).
  rw HP in Hnd. apply NoDup_cons in Hnd as [Hni Hnd]. split; [done|]. split; [done|]. pose proof (lookup_lt_Some _ _ _ Hi) as Hlen. split.
  { rw delete_take_drop take_app_le; [rw length_take; lia|]. by rw take_take Nat.min_id. }
  destruct (s_main _ HS) as (pre & post & Hr & Hp). rw Forall_forall in Hp. rw -{1}Hmid in Hr. rw delete_take_drop in Hni |- *.
  destruct (app_middle_cases _ _ _ _ _ _ Hr Hne) as [(l & H1 & ->)|(l & -> & H2)].
  - rw H1. exists pre, (l ++ drop (S i) (rootgc g)). split; [by rw -app_assoc|]. intros c Hc. split; [|apply Hp; set_solver]. intros ->. apply Hni. rw H1. set_solver.
  - rw H2. exists (take i (rootgc g) ++ l), post. split; [by rw app_assoc|]. intros c Hc. split; [|by apply Hp]. intros ->. apply Hni. rw H2. set_solver.
Qed.

(** The order of objects before the main thread does not matter. *)
Lemma base_reroot g r j : base g -> r ≡ₚ rootgc g -> (exists pre post, r = pre ++ mainthread g :: post /\ forall c, c ∈ post -> sk g c = Some SkUdata) -> base (set_rootgc g r j).
Proof.
  intros HI HP (pre & post & Hr & Hp). assert (shape (set_rootgc g r j)) as HS.
  { pose proof (i_shape _ HI) as HS. split; simpl; try apply HS.
    - intros o k Hk. pose proof (s_home _ HS o k Hk) as Hin. destruct k; simpl in *; rw ?elem_of_app ?HP; rw ?elem_of_app in Hin; done.
    - intros o Ho. rw HP in Ho. by apply (s_root _ HS).
    - rw HP. apply HS.
    - exists pre, post. split; [done|]. by apply Forall_forall. }
  split; try apply HI. done.
Qed.

(** *** An object that is alive *)

Lemma clean_put g o x c : clean (currentwhite g) x -> clean_at g c -> clean_at (put g o x) c.
Proof. intros Hx (y & Hy & Hc). destruct (decide (c = o)) as [->|]; [exists x; by rw /= lookup_insert_eq|]. exists y. by rw /= lookup_insert_ne. Qed.

Lemma sweep_alive g o x : base g -> swept g -> rootgc g !! sweepgc g = Some o -> heap g !! o = Some x -> isdead (currentwhite g) (marked x) = false ->
  (forall n top ups, sk g o = Some (SkThread n top ups) -> Forall (clean_at g) ups) ->
  let g' := set_rootgc (put g o (mkObject (makewhite (currentwhite g) (marked x)) (body x))) (rootgc g) (S (sweepgc g)) in base g' /\ swept g'.
Proof.
  intros HI (Hstr & Hlen & Hpre) Ho Hx Hd Hups g'. pose proof (base_whiten g o x HI Hx (or_introl Hd)) as HI1.
  split; [by eapply (base_ext (put g o _)); [..|exact HI1]|]. destruct (makewhite_alive _ (marked x) (i_white _ HI)) as (Hd1 & Hw1 & _).
  set (y := mkObject (makewhite (currentwhite g) (marked x)) (body x)) in *. assert (clean (currentwhite g) y) as Hcy by done.
  split; [|split]; simpl.
  - intros c Hc. by apply (clean_put g o y), Hstr.
  - pose proof (lookup_lt_Some _ _ _ Ho). lia.
  - intros c. rw (take_S_r _ _ _ Ho). assert (forall c, clean_object g c -> clean_object g' c) as Hkeep.
    { intros c' [H1 H2]. split; [by apply (clean_put g o y)|]. intros n top ups Hk. rw (put_sk g o x _ c' Hx : sk g' c' = sk g c') in Hk.
      eapply Forall_impl; [by eapply H2|]. intros. by apply (clean_put g o y). }
    intros [Hc| ->%list_elem_of_singleton]%elem_of_app; [by apply Hkeep, Hpre|]. split; [exists y; by rw /= lookup_insert_eq|].
    intros n top ups Hk. rw (put_sk g o x _ o Hx : sk g' o = sk g o) in Hk. eapply Forall_impl; [by eapply Hups|]. intros. by apply (clean_put g o y).
Qed.

(** *** An object that is dead *)

Lemma dead_not_root g o x : base g -> heap g !! o = Some x -> isdead (currentwhite g) (marked x) = true -> o ∉ roots g ++ tmudata g.
Proof. intros HI Hx Hd Hin. destruct (proj1 (Forall_forall _ _) (i_roots _ HI) o Hin) as (y & Hy & ?). congruence. Qed.

Lemma sweep_dead g o x : base g -> swept g -> rootgc g !! sweepgc g = Some o -> heap g !! o = Some x -> isdead (currentwhite g) (marked x) = true ->
  (forall n top ups, skel_of (body x) <> SkThread n top ups) ->
  let g' := free (set_rootgc g (delete (sweepgc g) (rootgc g)) (sweepgc g)) o in base g' /\ swept g'.
Proof.
  intros HI (Hstr & Hlen & Hpre) Ho Hx Hd Hnt g'. pose proof (i_shape _ HI) as HS. pose proof (dead_not_root _ _ _ HI Hx Hd) as Hnr.
  destruct (root_delete g _ o HS Ho) as (HP & Hni & Htake & pre & post & Hdel & Hpost); [intros ->; apply Hnr; rw /roots; set_solver|].
  destruct (s_root _ HS o (list_elem_of_lookup_2 _ _ _ Ho)) as (k & Hk & Hin). assert (k = skel_of (body x)) as -> by (rw (sk_lookup _ _ _ Hx) in Hk; by injection Hk).
  assert (dropped o g g') as HD.
  { split; try done; simpl.
    - intros c. rw /sk /=. destruct (decide (c = o)) as [->|]; [by rw lookup_delete_eq|by rw lookup_delete_ne].
    - intros c. rw (perm_cons_elem _ _ _ c HP). split; [intros Hc; split; [by right|]; congruence|tauto].
    - intros c. split; [intros Hc; split; [done|]|tauto]. intros ->. apply (s_strt _ HS) in Hc. rw (sk_lookup _ _ _ Hx) in Hc. injection Hc as Hc. by rw Hc in Hin.
    - pose proof (s_nodup _ HS) as Hnd. rw HP in Hnd. by apply NoDup_cons in Hnd as [_ ?].
    - apply HS.
    - by exists pre, post. }
  split; [eapply (base_dropped o x g); try done; [by intros th i Heq; rw Heq in Hin|by intros n top ups Heq; destruct (Hnt n top ups)|apply HI]|].
  assert (forall c, c <> o -> clean_at g c -> clean_at g' c) as Hkeep by (intros c Hne (y & Hy & ?); exists y; by rw /= lookup_delete_ne).
  split; [|split]; simpl.
  - intros c Hc. apply Hkeep; [|by apply Hstr]. by apply (d_strt _ _ _ HD) in Hc as [_ ?].
  - apply Permutation_length in HP. simpl in HP. pose proof (lookup_lt_Some _ _ _ Ho). lia.
  - rw Htake. intros c Hc. assert (c <> o) as Hne by (intros ->; apply Hni; rw -Htake in Hc; by eapply subseteq_take). destruct (Hpre c Hc) as [H1 H2]. split; [by apply Hkeep|].
    intros n top ups Hsk. rw (d_sk _ _ _ HD) in Hsk. destruct (decide (c = o)); [done|]. pose proof (H2 n top ups Hsk) as HF. rw Forall_forall in HF. apply Forall_forall. intros uv Huv.
    apply Hkeep; [|by apply HF]. intros ->. destruct (s_thread _ HS _ _ _ _ Hsk) as (_ & _ & HF2). destruct (proj1 (Forall_forall _ _) HF2 o Huv) as (j & Hj).
    rw (sk_lookup _ _ _ Hx) in Hj. injection Hj as Hj. by rw Hj in Hin.
Qed.

(** A dead thread: its upvalues, which are alive, are closed first. *)
Lemma free_thread g th x n top : base (with_root [th] g) -> heap g !! th = Some x -> isdead (currentwhite g) (marked x) = true ->
  sk g th = Some (SkThread n top []) -> (th ∉ rootgc g) -> base (free g th).
Proof.
  intros HI Hx Hd Hth Hni. pose proof (i_shape _ HI) as HS. pose proof (dead_not_root (with_root [th] g) th x HI Hx Hd) as Hnr.
  rw (sk_lookup _ _ _ Hx) in Hth. injection Hth as Hk. eapply (base_dropped th x (with_root [th] g)); try done; [|by rw Hk|by intros ? ? ? Heq; rw Heq in Hk; injection Hk|apply HI].
  split; try done; simpl.
  - intros c. rw /sk /=. destruct (decide (c = th)) as [->|]; [by rw lookup_delete_eq|by rw lookup_delete_ne].
  - intros c. rw elem_of_cons. split; [intros Hc; split; [by right|]; congruence|tauto].
  - intros c. split; [intros Hc; split; [done|]|tauto]. intros ->. apply (s_strt _ HS) in Hc. change (sk g th = Some SkString) in Hc. rw (sk_lookup _ _ _ Hx) Hk in Hc. done.
  - pose proof (s_nodup _ HS) as Hnd. simpl in Hnd. by apply NoDup_cons in Hnd as [_ ?].
  - apply HS.
  - destruct (s_main _ HS) as (pre & post & Hr & Hp). destruct (app_middle_inv [th] _ _ _ _ Hr) as (pre' & Hr'); [intros Heq%list_elem_of_singleton; apply Hnr; rw /roots; simpl in *; set_solver|].
    exists pre', post. split; [done|]. intros c Hc. split; [|by apply (proj1 (Forall_forall _ _) Hp)]. intros ->. apply Hni. simpl in Hr'. rw Hr'. set_solver.
Qed.

Lemma take_shifted k (l1 l2 : list loc) s : length l1 = k -> take (shifted k s) (l1 ++ l2) = if decide (s = 0%nat) then [] else l1 ++ take s l2.
Proof.
  intros Hl. destruct s as [|s]; [done|]. destruct (decide (S s = 0%nat)); [done|]. rw take_app_ge; [simpl; lia|]. rw /= Hl. by replace (k + S s - k)%nat with (S s) by lia.
Qed.

Lemma sweep_dead_thread g th x n top ups : base g -> swept g -> rootgc g !! sweepgc g = Some th -> heap g !! th = Some x -> isdead (currentwhite g) (marked x) = true ->
  sk g th = Some (SkThread n top ups) -> Forall (clean_at g) ups ->
  exists g', freeobj (set_rootgc g (delete (sweepgc g) (rootgc g)) (sweepgc g)) th = Ok g' /\ base g' /\ swept g' /\ gcstate g' = gcstate g /\ (sweep_left g' < sweep_left g)%nat.
Proof.
  intros HI (Hstr & Hlen & Hpre) Ho Hx Hd Hth Hups. pose proof (i_shape _ HI) as HS. pose proof (dead_not_root _ _ _ HI Hx Hd) as Hnr.
  destruct (root_delete g _ th HS Ho) as (HP & Hni & Htake & pre & post & Hdel & Hpost); [intros ->; apply Hnr; rw /roots; set_solver|].
  set (g1 := set_rootgc g (delete (sweepgc g) (rootgc g)) (sweepgc g)).
  assert (base (with_root [th] g1)) as HI1.
  { apply (base_reroot g (th :: delete (sweepgc g) (rootgc g)) (sweepgc g)); [done|done|]. exists (th :: pre), post. split; [by rw Hdel|]. intros c Hc. by apply Hpost. }
  assert (mainthread g1 ∉ [th]) as HE by (intros Heq%list_elem_of_singleton; apply Hnr; rw /roots; simpl in *; set_solver).
  destruct (close_loop_clean [th] th n top ups g1 HI1 HE Hth Hups) as (g2 & Hr & HI2 & Hth2 & HK & HF & Hroot & Hsw & Hsk & Hcl).
  destruct HK as [Hw2 HK]. destruct (HK th x Hx) as (x2 & Hx2 & Hm2). destruct (s_thread _ HS _ _ _ _ Hth) as (_ & _ & HFu). rw Forall_forall in HFu.
  assert (th ∉ rootgc g2) as Hni2.
  { rw Hroot. intros [Hin|Hin]%elem_of_app; [|done]. rw elem_of_reverse in Hin. destruct (HFu th Hin) as (j & ?). congruence. }
  assert (base (free g2 th)) as HI3 by (eapply free_thread; try done; by rw Hm2 Hw2).
  exists (free g2 th). split.
  { destruct (sk_inv _ _ _ Hth) as (y & Hy & (gt & st & cis & Hb & _)%skel_thread). assert (y = x) as -> by congruence.
    destruct (sk_inv _ _ _ Hth2) as (y2 & Hy2 & (gt2 & st2 & cis2 & Hb2 & _)%skel_thread).
    rw /freeobj (get_eq g1 th x Hx) Ok_bind Hb. assert (bool_decide (th <> running g1 /\ th <> mainthread g1) = true) as ->.
    { apply bool_decide_eq_true. split; intros ->; apply Hnr; rw /roots; simpl; set_solver. }
    rw /= /luaE_freethread /luaF_close (get_eq g1 th x Hx) Ok_bind Hb Hr Ok_bind (get_eq _ _ _ Hy2) Ok_bind Hb2 //. }
  split; [done|]. split; [|split; [by rw HF|]]; last first.
  { assert (length (ups ++ uvhead g2) <= length (uvhead g))%nat as Hle.
    { apply sub_length.
      - apply NoDup_app. split; [by apply (s_thread _ HS _ _ _ _ Hth)|]. split; [|apply (s_nodup_uv _ (i_shape _ HI2))]. intros c Hc Hc2. destruct (s_uv _ (i_shape _ HI2) c Hc2) as (a & j & Hk).
        pose proof (proj1 (Forall_forall _ _) Hcl c Hc) as Hko. change (sk g2 c = Some (SkOpen a j)) in Hk. simpl in Hko. congruence.
      - intros c [Hc|Hc]%elem_of_app; [destruct (HFu c Hc) as (j & Hj); exact (s_home _ HS _ _ Hj)|]. destruct (s_uv _ (i_shape _ HI2) c Hc) as (a & j & Hk). change (sk g2 c = Some (SkOpen a j)) in Hk.
        apply (s_home _ HS c (SkOpen a j)). rw -Hk. symmetry. apply Hsk; [|by intros ->; congruence]. intros Hin. pose proof (proj1 (Forall_forall _ _) Hcl c Hin) as Hko. simpl in Hko. congruence. }
    rw length_app in Hle. rw /sweep_left /= Hroot Hsw length_app length_reverse /=. apply Permutation_length in HP. simpl in HP. pose proof (lookup_lt_Some _ _ _ Ho). destruct (sweepgc g); simpl; lia. }
  assert (forall c, c <> th -> clean_at g c -> clean_at (free g2 th) c) as Hkeep.
  { intros c Hne Hc. destruct (keeps_marks_clean g1 g2 c) as (y & Hy & ?); [by split|done|]. exists y. by rw /= lookup_delete_ne. }
  split; [|split]; simpl.
  - assert (strt g2 = strt g) as -> by (by rw HF). intros c Hc. apply Hkeep; [|by apply Hstr]. intros ->. apply (s_strt _ HS) in Hc. congruence.
  - rw Hroot Hsw length_app length_reverse /=. apply Permutation_length in HP. simpl in HP. pose proof (lookup_lt_Some _ _ _ Ho). destruct (sweepgc g); simpl; lia.
  - rw Hroot Hsw take_shifted; [by rw length_reverse|]. simpl. destruct (decide (sweepgc g = 0%nat)); [by intros c ?%elem_of_nil|]. rw Htake.
    intros c [Hc|Hc]%elem_of_app.
    + rw elem_of_reverse in Hc. assert (c <> th) as Hne by (intros ->; destruct (HFu th Hc) as (j & ?); congruence).
      split; [apply Hkeep; [done|by apply (proj1 (Forall_forall _ _) Hups)]|]. intros a b d Hk. exfalso.
      rw /sk /= lookup_delete_ne // in Hk. pose proof (proj1 (Forall_forall _ _) Hcl c Hc) as Hko. simpl in Hko. rw /sk Hk in Hko. done.
    + assert (c ∈ rootgc g) as Hcr by (by eapply subseteq_take). assert (c <> th) as Hne by (intros ->; apply Hni; rw -Htake in Hc; by eapply subseteq_take).
      assert (c ∉ ups) as Hcu by (intros Hin; destruct (HFu c Hin) as (j & Hj); destruct (s_root _ HS c Hcr) as (k & Hk & Hkr); rw Hj in Hk; by injection Hk as <-).
      destruct (Hpre c Hc) as [H1 H2]. split; [by apply Hkeep|]. intros a b d Hk. rw /sk /= lookup_delete_ne // in Hk. change (sk g2 c = Some (SkThread a b d)) in Hk.
      rw Hsk // in Hk. pose proof (H2 a b d Hk) as HF2. eapply Forall_impl; [exact HF2|]. intros uv Huv. apply Hkeep; [|done]. intros ->.
      destruct Huv as (y & Hy & _ & ?). congruence.
Qed.

(** *** The loop *)

Lemma sweepcurr_spec g o : base g -> swept g -> rootgc g !! sweepgc g = Some o -> exists g', sweepcurr g o = Ok g' /\ base g' /\ swept g' /\ gcstate g' = gcstate g /\ (sweep_left g' < sweep_left g)%nat.
Proof.
  intros HI HSw Ho. destruct (s_root _ (i_shape _ HI) o (list_elem_of_lookup_2 _ _ _ Ho)) as (k & Hk & Hin). destruct (sk_inv _ _ _ Hk) as (x & Hx & Hkx).
  rw /sweepcurr (get_eq _ _ _ Hx) Ok_bind.
  assert (fixed (marked x) = true -> isdead (currentwhite g) (marked x) = false) as Hfix.
  { intros Hf. destruct (i_fixed _ HI o x Hx Hf) as [Hs| ->]; [by rw -Hkx Hs in Hin|]. pose proof (i_roots _ HI) as Hr. apply Forall_cons in Hr as [(y & Hy & ?) _]. congruence. }
  assert (forall w, one_white w -> w = currentwhite g -> notdead (otherwhite w) (marked x) = negb (isdead (currentwhite g) (marked x))) as Hnd.
  { intros w Hw ->. rw notdead_spec //. destruct (fixed (marked x)) eqn:Hf; [rw Hfix //|by rw orb_false_r]. }
  assert (exists g1 x1, match body x with BThread _ _ _ _ ups => '(ups, g) ← sweepwholelist ups g; set_openupval g o ups | _ => Ok g end = Ok g1 /\ base g1 /\ swept g1 /\
    (forall n top ups, sk g1 o = Some (SkThread n top ups) -> Forall (clean_at g1) ups) /\ heap g1 !! o = Some x1 /\ marked x1 = marked x /\
    (rootgc g1 = rootgc g /\ sweepgc g1 = sweepgc g /\ gcstate g1 = gcstate g /\ currentwhite g1 = currentwhite g /\ uvhead g1 ⊆ uvhead g)) as (g1 & x1 & -> & HI1 & HSw1 & Hups & Hx1 & Hm1 & E1 & E2 & E3 & E4 & E5).
  { destruct (body x) as [| |[]| | | | |gt st top cis ups] eqn:Hb;
      try (exists g, x; split; [done|]; split; [done|]; split; [done|]; split; [intros n' top' ups' Hs; by rw Hk -Hkx in Hs|done]).
    destruct (sweep_thread g o (length st) top ups HI HSw) as (g1 & Hr & HI1 & HSw1 & (ups' & Hth & HF) & Hm & Hg1 & Hsub); [by rw Hk -Hkx|].
    destruct (Hm x Hx) as (x1 & Hx1 & ?). exists g1, x1. split; [done|]. split; [done|]. split; [done|]. split; [|by split_and!; try done; rw Hg1]. rw Hth. by intros ? ? ? [= <- <- <-]. }
  rw Ok_bind (Hnd (currentwhite g1)) //; [apply HI1|]. rw -Hm1 -E4. assert (rootgc g1 !! sweepgc g1 = Some o) as Ho1 by (by rw E1 E2).
  assert (sweep_left g1 <= sweep_left g)%nat as Hleft by (rw /sweep_left E1 E2; pose proof (sub_length _ _ (s_nodup_uv _ (i_shape _ HI1)) E5); lia).
  pose proof (lookup_lt_Some _ _ _ Ho1) as Hlt. assert (sweep_left (free (set_rootgc g1 (delete (sweepgc g1) (rootgc g1)) (sweepgc g1)) o) < sweep_left g)%nat as Hfree.
  { rw /sweep_left /= length_delete; [|rw /sweep_left in Hleft; lia]. by exists o. }
  destruct (isdead (currentwhite g1) (marked x1)) eqn:Hd; simpl.
  - destruct (s_root _ (i_shape _ HI1) o (list_elem_of_lookup_2 _ _ _ Ho1)) as (k1 & Hk1 & Hin1). destruct k1 as [| | | |n top ups|] eqn:Hkk; try done.
    3: { destruct (sweep_dead_thread g1 o x1 n top ups) as (g' & ? & ? & ? & ? & ?); try done; [by apply (Hups n top)|]. exists g'. split; [done|]. split; [done|]. split; [done|]. split; [congruence|lia]. }
    all: destruct (sweep_dead g1 o x1) as [HI2 HSw2]; try done; [intros n' top' ups' Hs; rw (sk_lookup _ _ _ Hx1) Hs in Hk1; done|].
    all: rw (sk_lookup _ _ _ Hx1) in Hk1; injection Hk1 as Hk1.
    all: eexists; split; [|by split; [exact HI2|split; [exact HSw2|split; [|exact Hfree]]]].
    all: rw /freeobj (get_eq (set_rootgc g1 (delete (sweepgc g1) (rootgc g1)) (sweepgc g1)) o x1 Hx1) Ok_bind.
    all: destruct (body x1) as [| |[]| | | | |] eqn:Hb1; try done.
    rw /luaF_freeupval (get_eq (set_rootgc g1 (delete (sweepgc g1) (rootgc g1)) (sweepgc g1)) o x1 Hx1) Ok_bind Hb1. done.
  - rw (set_marks_eq _ _ _ _ Hx1) Ok_bind. destruct (sweep_alive g1 o x1) as [HI2 HSw2]; try done. eexists. split; [done|]. split; [exact HI2|]. split; [exact HSw2|]. split; [done|].
    rw /sweep_left /=. rw /sweep_left in Hleft. lia.
Qed.

Lemma sweeplist_spec count g : base g -> swept g -> exists g', sweeplist count g = Ok g' /\ base g' /\ swept g' /\ gcstate g' = gcstate g /\ (sweep_left g' <= sweep_left g)%nat /\
  ((0 < count)%nat -> is_Some (rootgc g !! sweepgc g) -> (sweep_left g' < sweep_left g)%nat).
Proof.
  revert g. induction count as [|count IH]; intros g HI HS; [exists g; split_and!; try done; lia|]. cbn [sweeplist]. destruct (rootgc g !! sweepgc g) as [o|] eqn:Ho; [|exists g; split_and!; try done; by intros _ []].
  destruct (sweepcurr_spec g o HI HS Ho) as (g1 & -> & HI1 & HS1 & E1 & Hl). rw Ok_bind. destruct (IH g1 HI1 HS1) as (g' & ? & ? & ? & ? & ? & _). exists g'. split; [done|]. split; [done|]. split; [done|].
  split; [congruence|]. split; [lia|intros; lia].
Qed.
