(* ===== verification/LuaGCStep.v ===== *)
(** LuaGCStep: singlestep() of the collector (lgc.c) in every phase: it never uses an object
    that was freed, no assertion fails, and the invariant is kept. *)

From Corelib Require Import ssreflect.
From stdpp Require Import base list gmap numbers strings.
From Stdlib Require Import ZArith Lia.
From S2P Require Import Prelude LuaHeap LuaGC LuaGCMark LuaGCInv LuaGCTri LuaGCAtomic LuaGCFinal LuaGCPhase LuaGCSweep LuaGCClose.

Implicit Type g : global_State.

(** ** The end of the sweep *)

Lemma swept_all_clean g : base g -> swept g -> (length (rootgc g) <= sweepgc g)%nat -> all_clean g.
Proof.
  intros HI (Hstr & _ & Hpre) Hlen. rw take_ge // in Hpre. pose proof (i_shape _ HI) as HS.
  assert (forall o x, heap g !! o = Some x -> clean_at g o -> clean (currentwhite g) x) as Hat by (intros o x Hx (y & Hy & ?); congruence).
  intros o x Hx Hni. apply (Hat o x Hx). pose proof (sk_lookup _ _ _ Hx) as Hk. pose proof (s_home _ HS o _ Hk) as Hin.
  destruct (skel_of (body x)) as [| | |th i|n top ups|] eqn:Hkx; simpl in Hin; try (by apply Hpre).
  - by apply Hstr.
  - apply elem_of_app in Hin as [?|?]; [by apply Hpre|done].
  - destruct (s_open _ HS _ _ _ Hk) as (n & top & ups & Hth & Hu & _). destruct (Hpre th) as [_ Hups]; [by apply (s_home _ HS th _ Hth)|].
    by apply (proj1 (Forall_forall _ _) (Hups n top ups Hth)).
Qed.

(** ** The string table *)

Lemma land_le h m : 0 <= h -> 0 <= m -> Z.land h m <= m.
Proof.
  intros Hh Hm. rw -{1}(Z2N.id h Hh) -{1 2}(Z2N.id m Hm) -N2Z.inj_land. apply N2Z.inj_le, N.land_le_r.
Qed.

Lemma strbucket_lt h size : (0 < size)%nat -> 0 <= h -> (strbucket h size < size)%nat.
Proof.
  intros Hs Hh. rw /strbucket. assert (0 <= Z.land h (Z.of_nat size - 1) <= Z.of_nat size - 1); [|lia]. split; [apply Z.land_nonneg; lia|]. by apply land_le; lia.
Qed.

Lemma hash_loop_nonneg fuel str step l1 h : 0 <= h -> 0 <= hash_loop fuel str step l1 h.
Proof.
  revert l1 h. induction fuel as [|fuel IH]; intros l1 h Hh; [done|]. cbn [hash_loop]. destruct (decide (step <= l1)); [|done]. apply IH. apply Z.lxor_nonneg.
  pose proof (Z.mod_pos_bound (Z.shiftl h 5 + Z.shiftr h 2 + str !!! Z.to_nat (l1 - 1) mod 256) (2 ^ 32) ltac:(lia)). lia.
Qed.
Lemma luaS_hash_nonneg str : 0 <= luaS_hash str.
Proof. apply hash_loop_nonneg. apply Z.mod_pos_bound. lia. Qed.

Lemma str_bucket_some str (t : list (list loc)) : t <> [] -> exists l, t !! strbucket (luaS_hash str) (length t) = Some l.
Proof. intros Ht. apply lookup_lt_is_Some. apply strbucket_lt; [destruct t; [done|simpl; lia]|apply luaS_hash_nonneg]. Qed.

Lemma concat_insert_cons (i : nat) (t : list (list loc)) l p : t !! i = Some l -> concat (<[i := p :: l]> t) ≡ₚ p :: concat t.
Proof.
  intros Hi. rw concat_bucket; [by eapply lookup_lt_Some|]. rw -{3}(take_drop_middle _ _ _ Hi) concat_app /=. by rw -Permutation_middle.
Qed.

Lemma string_of_ok g o : sk g o = Some SkString -> exists s, string_of g o = Ok s.
Proof. intros (x & Hx & (s & Hb)%skel_string)%sk_inv. exists s. by rw /string_of (get_eq _ _ _ Hx) Ok_bind Hb. Qed.

Lemma rehash_strings_spec os t g : Forall (fun o => sk g o = Some SkString) os -> t <> [] ->
  exists t', rehash_strings os t g = Ok t' /\ length t' = length t /\ concat t' ≡ₚ os ++ concat t.
Proof.
  revert t. induction os as [|p os IH]; intros t Hos Ht; [by exists t|]. apply Forall_cons in Hos as [Hp Hos]. destruct (string_of_ok _ _ Hp) as (s & Hs).
  cbn [rehash_strings]. rw Hs Ok_bind. destruct (str_bucket_some s t Ht) as (l & Hl). rw Hl.
  destruct (IH (<[strbucket (luaS_hash s) (length t) := p :: l]> t)) as (t' & Hr & Hlen & HP); [done| |].
  { intros Hnil. apply (f_equal length) in Hnil. rw length_insert in Hnil. by destruct t. }
  exists t'. split; [done|]. split; [by rw Hlen length_insert|]. rw HP (concat_insert_cons _ _ _ _ Hl) /=. by rw -Permutation_middle.
Qed.

Lemma base_restrt g t j : base g -> concat t ≡ₚ concat (strt g) -> t <> [] -> base (set_strt g t j).
Proof.
  intros HI HP Ht. assert (shape (set_strt g t j)) as HS.
  { pose proof (i_shape _ HI) as HS. split; simpl; try apply HS.
    - intros o k Hk. pose proof (s_home _ HS o k Hk) as Hin. destruct k; simpl in *; rw ?HP; done.
    - intros o Ho. rw HP in Ho. by apply (s_strt _ HS).
    - rw HP. apply HS. }
  split; try apply HI; done.
Qed.

(** The strings of the table are the same after its size has changed. *)
Lemma luaS_resize_spec g n : base g -> (0 < n)%nat ->
  exists g', luaS_resize g n = Ok g' /\ base g' /\ concat (strt g') ≡ₚ concat (strt g) /\ g' = set_strt g (strt g') (sweepstrgc g) /\ (gcstate g = GCSsweepstring -> g' = g).
Proof.
  intros HI Hn. rw /luaS_resize. destruct (decide (gcstate g = GCSsweepstring)); [by exists g; destruct g|].
  destruct (rehash_strings_spec (concat (strt g)) (replicate n []) g) as (t & -> & Hlen & HP).
  { apply Forall_forall. intros o. apply (s_strt _ (i_shape _ HI)). }
  { destruct n; [lia|done]. }
  assert (concat (replicate n []) = ([] : list loc)) as Hnil by (clear; induction n; done). rw Hnil app_nil_r in HP. rw Ok_bind.
  exists (set_strt g t (sweepstrgc g)). split; [done|]. split; [|done]. apply base_restrt; [done|done|]. intros ->. rw length_replicate /= in Hlen. lia.
Qed.

Lemma checkSizes_spec g : base g -> exists g', checkSizes g = Ok g' /\ base g' /\ concat (strt g') ≡ₚ concat (strt g) /\ g' = set_strt g (strt g') (sweepstrgc g).
Proof.
  intros HI. rw /checkSizes. destruct (decide _) as [[_ Hsz]|]; [|by exists g; destruct g].
  destruct (luaS_resize_spec g (length (strt g) / 2)) as (g' & ? & ? & ? & ? & _); [done| |by exists g']. rw /MINSTRTABSIZE in Hsz. apply Nat.div_str_pos. lia.
Qed.

Lemma sweep_step g : inv g -> gcstate g = GCSsweep -> exists g', singlestep g = Ok g' /\ inv g' /\ (gcstate g' = GCSfinalize \/ gcstate g' = GCSsweep /\ (sweep_left g' < sweep_left g)%nat).
Proof.
  intros [HI Hp] Hs. rw /phase_inv Hs in Hp. destruct (sweeplist_spec GCSWEEPMAX g HI Hp) as (g1 & Hr & HI1 & HS1 & E1 & Hle & Hlt). rw /singlestep Hs Hr Ok_bind.
  destruct (rootgc g1 !! sweepgc g1) as [o|] eqn:Ho.
  - exists g1. split; [done|]. split; [split; [done|]; by rw /phase_inv E1 Hs|]. right. split; [congruence|]. apply Hlt; [vm_compute; lia|].
    destruct (rootgc g !! sweepgc g) eqn:Hn; [done|]. exfalso. cbn [sweeplist GCSWEEPMAX] in Hr. rw Hn in Hr. injection Hr as <-. congruence.
  - apply lookup_ge_None in Ho. destruct (checkSizes_spec g1 HI1) as (g2 & -> & HI2 & _ & Hg2). rw Ok_bind. exists (set_gcstate g2 GCSfinalize). split; [done|]. split; [|by left].
    split; [by apply (base_ext g2)|]. rw /phase_inv /=. split; [done|]. pose proof (swept_all_clean _ HI1 HS1 Ho) as Hall. rw Hg2. exact Hall.
Qed.

(** ** Finalizers *)

(** A userdata returns to the list of all objects. *)
Lemma base_return g o us : base g -> tmudata g = o :: us -> base (root_insert (set_tmudata g us) (main_end g) o).
Proof.
  intros HI Ht. pose proof (i_shape _ HI) as HS. destruct (main_end_spec g HS) as (pre & post & Hr & He & Hni & Hp).
  assert (rootgc (root_insert (set_tmudata g us) (main_end g) o) = pre ++ mainthread g :: o :: post) as Hr'.
  { rw /= He Hr. rw take_app_ge; [lia|]. rw drop_app_ge; [lia|]. replace (S (length pre) - length pre)%nat with 1%nat by lia. by rw /= take_0 drop_0 -app_assoc. }
  set (g' := root_insert (set_tmudata g us) (main_end g) o) in *. assert (rootgc g' ++ tmudata g' ≡ₚ rootgc g ++ tmudata g) as HP.
  { rw Hr' Hr Ht /=. rw -!app_assoc /=. do 2 f_equiv. by rw Permutation_middle. }
  pose proof (s_tmu _ HS o ltac:(rw Ht; apply list_elem_of_here)) as Ho. assert (forall c, c ∈ rootgc g' <-> c = o \/ c ∈ rootgc g) as Hel by (intros c; rw Hr' Hr; set_solver).
  assert (shape g') as HS'.
  { split; try apply HS; simpl.
    - intros c k Hk. pose proof (s_home _ HS c k Hk) as Hin. destruct k; simpl in *; try done; try (apply Hel; by right). rw -HP in Hin. done.
    - intros c [->|Hc]%Hel; [by exists SkUdata|by apply (s_root _ HS)].
    - intros c Hc. apply (s_tmu _ HS). rw Ht. by apply list_elem_of_further.
    - change (NoDup (rootgc g' ++ tmudata g')). rw HP. apply HS.
    - exists pre, (o :: post). split; [done|]. apply Forall_cons. done. }
  pose proof (i_roots _ HI) as Hroots. split; try apply HI; [done|]. apply Forall_app in Hroots as [H1 H2]. apply Forall_app. split; [done|].
  rw Ht in H2. by apply Forall_cons in H2 as [_ ?].
Qed.

Lemma GCTM_spec g : inv g -> gcstate g = GCSfinalize -> tmudata g <> [] -> exists g', GCTM g = Ok g' /\ inv g'.
Proof.
  intros [HI Hp] Hs Ht. rw /phase_inv Hs in Hp. destruct Hp as [_ Hc]. rw /GCTM. destruct (tmudata g) as [|o us] eqn:Htm; [done|].
  pose proof (base_return g o us HI Htm) as HI1. set (g1 := root_insert (set_tmudata g us) (main_end g) o) in *.
  pose proof (proj1 (Forall_forall _ _) (i_roots _ HI) o ltac:(rw Htm; set_solver)) as (x & Hx & Hd).
  rw (set_marks_eq g1 o _ x Hx). eexists. split; [done|]. split; [by apply base_whiten; [|..|left]|].
  rw /phase_inv (_ : gcstate (put g1 o _) = GCSfinalize) //. split; [done|]. intros c y Hy Hni. apply put_lookup in Hy as [[-> ->]|[Hne Hy]].
  - destruct (makewhite_alive _ (marked x) (i_white _ HI)) as (? & ? & _). done.
  - apply (Hc c y Hy). simpl in Hni. set_solver.
Qed.

(** ** Every step *)

Lemma singlestep_inv g : inv g -> exists g', singlestep g = Ok g' /\ inv g'.
Proof.
  intros HI. destruct (gcstate g) eqn:Hs; rw /singlestep ?Hs.
  - apply markroot_step; [done|]. pose proof (i_phase _ HI) as Hp. rw /phase_inv Hs in Hp. exact (proj2 Hp).
  - destruct (gray g) eqn:Hg; [by apply atomic_step|]. destruct (propagate_step g) as (g' & ? & ? & _); [done|done|by rw Hg|by exists g'].
  - destruct (sweepstring_step g HI Hs) as (g' & Hr & ? & _). exists g'. by rw /singlestep Hs in Hr.
  - destruct (sweep_step g HI Hs) as (g' & Hr & ? & _). exists g'. by rw /singlestep Hs in Hr.
  - destruct (tmudata g) eqn:Ht; [|apply GCTM_spec; [done|done|by rw Ht]]. exists (set_gcstate g GCSpause). split; [done|]. destruct HI as [HI Hp].
    split; [by apply (base_ext g)|]. rw /phase_inv Hs in Hp. rw /phase_inv /=. split; [done|exact (proj2 Hp)].
Qed.

Lemma fullgc_reset_inv g : inv g -> inv (fullgc_reset g).
Proof.
  intros HI. rw /fullgc_reset. destruct (decide (gcstate g = GCSpause \/ gcstate g = GCSpropagate)); [|done].
  split; [by apply (base_ext g); try done; apply HI|]. rw /phase_inv /=. split; [|split; [done|by intros c ?%elem_of_nil]]. pose proof (i_strt _ HI). destruct (strt g); [done|simpl; lia].
Qed.
