(* ===== verification/LuaGCMut.v ===== *)
(** LuaGCMut: what the rest of the interpreter does to the objects between two steps of the
    collector: new objects, stores with their write barriers (lgc.h, lgc.c) and stores into
    stacks. Each keeps the invariant of the collector. *)

From Corelib Require Import ssreflect.
From stdpp Require Import base list gmap numbers strings.
From Stdlib Require Import ZArith Lia.
From S2P Require Import Prelude LuaHeap LuaGC LuaGCMark LuaGCInv LuaGCTri LuaGCAtomic LuaGCFinal LuaGCPhase LuaGCSweep LuaGCClose LuaGCStep.

Implicit Type g : global_State.

(** ** Objects stay alive *)

Definition keeps g g' : Prop := forall c, alive g c -> alive g' c.

#[export] Instance keeps_refl : Reflexive keeps.
Proof. by intros g c. Qed.
#[export] Instance keeps_trans : Transitive keeps.
Proof. intros g1 g2 g3 H1 H2 c Hc. by apply H2, H1. Qed.

Lemma keeps_put g o x : isdead (currentwhite g) (marked x) = false -> keeps g (put g o x).
Proof. intros Hd c (y & Hy & Hdy). destruct (decide (c = o)) as [->|]; [exists x; by rw /= lookup_insert_eq|exists y; by rw /= lookup_insert_ne]. Qed.

(** The object has the mark that it had. *)
Lemma keeps_put_same g o x b : heap g !! o = Some x -> keeps g (put g o (mkObject (marked x) b)).
Proof. intros Hx c (y & Hy & Hdy). destruct (decide (c = o)) as [->|]; [exists (mkObject (marked x) b); rw /= lookup_insert_eq; split; [done|]; simpl; congruence|exists y; by rw /= lookup_insert_ne]. Qed.

Lemma keeps_marking new g g' : marking [] new g g' -> keeps g g'.
Proof.
  intros HM c (y & Hy & Hd). assert (currentwhite g' = currentwhite g) as Ew by (by rw (m_frame _ _ _ _ HM)). destruct (m_some _ _ _ _ HM c y Hy) as (y' & Hy' & _ & Hm). exists y'. split; [done|].
  rw Ew. destruct Hm as [->|(_ & Hn & _)]; [done|by apply nonwhite_alive].
Qed.

(** ** Changes outside of the mark phase *)

(** No object that was swept changes its colour, and new objects are white. *)
Record quiet g g' : Prop := {
  q_state : gcstate g' = gcstate g;
  q_white : currentwhite g' = currentwhite g;
  q_tmu : tmudata g' = tmudata g;
  q_clean o : clean_at g o -> clean_at g' o;
  q_dead o x' : heap g' !! o = Some x' -> isdead (currentwhite g) (marked x') = true -> exists x, heap g !! o = Some x /\ isdead (currentwhite g) (marked x) = true;
  q_new o x' : heap g' !! o = Some x' -> clean (currentwhite g) x' \/ exists x, heap g !! o = Some x;
  q_strt o : o ∈ concat (strt g') -> o ∈ concat (strt g) \/ clean_at g' o;
  q_buckets : gcstate g = GCSsweepstring -> sweepstrgc g' = sweepstrgc g /\ length (strt g') = length (strt g) /\
    forall o, o ∈ concat (take (sweepstrgc g) (strt g')) -> o ∈ concat (take (sweepstrgc g) (strt g)) \/ clean_at g' o;
  q_sweepgc : (sweepgc g = 0%nat -> sweepgc g' = 0%nat) /\ ((sweepgc g <= length (rootgc g))%nat -> (sweepgc g' <= length (rootgc g'))%nat);
  q_prefix o : o ∈ take (sweepgc g') (rootgc g') -> o ∈ take (sweepgc g) (rootgc g) \/ clean_object g' o;
  q_ups o n top ups' uv : sk g' o = Some (SkThread n top ups') -> uv ∈ ups' -> clean_at g' uv \/ exists n top ups, sk g o = Some (SkThread n top ups) /\ uv ∈ ups
}.

Lemma quiet_phase g g' : quiet g g' -> gcstate g <> GCSpropagate -> phase_inv g -> phase_inv g'.
Proof.
  intros HQ Hne Hp. pose proof (q_state _ _ HQ) as Es. rw /phase_inv Es. rw /phase_inv in Hp.
  assert (all_clean g -> all_clean g') as Hall.
  { intros Hc o x' Hx' Hni. rw (q_tmu _ _ HQ) in Hni. rw (q_white _ _ HQ). destruct (q_new _ _ HQ o x' Hx') as [?|(x & Hx)]; [done|].
    destruct (q_clean _ _ HQ o) as (y & Hy & ?); [exists x; split; [done|by apply (Hc o)]|]. assert (y = x') as -> by congruence. by rw -(q_white _ _ HQ). }
  destruct (gcstate g) eqn:Hs; [..|].
  - destruct Hp as [Ht Hc]. rw (q_tmu _ _ HQ). split; [done|]. by rw -(q_tmu _ _ HQ); apply Hall.
  - done.
  - destruct Hp as (Hlt & Hsg & Hc). destruct (q_buckets _ _ HQ Hs) as (E1 & E2 & E3). rw E1 E2. split; [done|]. split; [by apply (q_sweepgc _ _ HQ)|].
    intros o [Ho|?]%E3; [|done]. by apply (q_clean _ _ HQ), Hc.
  - destruct Hp as (Hstr & Hlen & Hpre). split; [|split; [by apply (q_sweepgc _ _ HQ)|]].
    + intros o [Ho|?]%(q_strt _ _ HQ); [|done]. by apply (q_clean _ _ HQ), Hstr.
    + intros o [Ho|?]%(q_prefix _ _ HQ); [|done]. destruct (Hpre o Ho) as [H1 H2]. split; [by apply (q_clean _ _ HQ)|]. intros n top ups' Hk. apply Forall_forall. intros uv Huv.
      destruct (q_ups _ _ HQ o n top ups' uv Hk Huv) as [?|(n' & top' & ups & Hk' & Hin)]; [done|]. apply (q_clean _ _ HQ). by apply (proj1 (Forall_forall _ _) (H2 _ _ _ Hk')).
  - destruct Hp as [Ht Hc]. rw (q_tmu _ _ HQ). split; [done|]. by rw -(q_tmu _ _ HQ); apply Hall.
Qed.

(** The invariant after a change: in the mark phase its own part of it is to be shown. *)
Lemma inv_quiet g g' : inv g -> base g' -> quiet g g' -> mainthread g' = mainthread g -> l_registry g' = l_registry g ->
  (gcstate g = GCSpropagate -> none_dead g -> tri (fun _ => True) (tmudata g) [] g -> tri (fun _ => True) (tmudata g) [] g' /\ forall o, nonwhite g o -> nonwhite g' o) -> inv g'.
Proof.
  intros HI HI' HQ Em Er Htri. split; [done|]. pose proof (i_phase _ HI) as Hp. destruct (decide (gcstate g = GCSpropagate)) as [Hs|Hs]; [|by eapply quiet_phase].
  rw /phase_inv (q_state _ _ HQ) Hs (q_tmu _ _ HQ) Em Er. rw /phase_inv Hs in Hp. destruct Hp as (Hd & HT & Hm & Hreg).
  destruct (Htri Hs Hd HT) as [HT' Hn]. split; [|split; [done|split; [by apply Hn|]]].
  - intros o x' Hx'. rw (q_white _ _ HQ). destruct (isdead (currentwhite g) (marked x')) eqn:Hdx; [|done]. destruct (q_dead _ _ HQ o x' Hx' Hdx) as (x & Hx & Hd2).
    by rw (Hd o x Hx) in Hd2.
  - eapply Forall_impl; [exact Hreg|apply Hn].
Qed.

(** The invariant of the mark phase after a change of objects that are not black; of the objects in [C]
    only that they are not white. *)
Lemma tri_changed X C g g' : sane g' -> tri (fun _ => True) X C g -> gray g' = gray g -> grayagain g' = grayagain g -> weak g' = weak g ->
  (forall o x', heap g' !! o = Some x' -> iswhite (marked x') = false -> o ∉ C -> exists x, heap g !! o = Some x /\ marked x' = marked x /\ traversable (body x') = traversable (body x) /\
    is_string (body x') = is_string (body x) /\ open_upval (body x') = open_upval (body x) /\
    (isblack (marked x) = true -> o ∉ X -> forall c, c ∈ refs (heap g') (body x') -> nonwhite g c \/ c ∈ refs (heap g) (body x))) ->
  (forall o x, heap g !! o = Some x -> iswhite (marked x) = false -> o ∉ C -> exists x', heap g' !! o = Some x' /\ marked x' = marked x /\ traversable (body x') = traversable (body x)) ->
  (forall o, o ∈ C -> nonwhite g' o) -> tri (fun _ => True) X C g' /\ forall o, nonwhite g o -> nonwhite g' o.
Proof.
  intros Hsane HT E1 E2 E3 Hback Hkeep HC. assert (forall o, nonwhite g o -> nonwhite g' o) as Hn.
  { intros o (x & Hx & Hw). destruct (decide (o ∈ C)) as [|Hni]; [by apply HC|]. destruct (Hkeep o x Hx Hw Hni) as (x' & Hx' & Hm & _). exists x'. by rw Hm. }
  split; [|done]. split; rw ?E1 ?E2 ?E3.
  - intros o x' Hx' Hb HX Hni. destruct (iswhite (marked x')) eqn:Hw.
    + destruct (Hsane o x' Hx') as (_ & Hs & _). by rw Hw Hb in Hs.
    + destruct (Hback o x' Hx' Hw Hni) as (x & Hx & Hm & _ & _ & _ & Hr). rw Hm in Hb. destruct (t_black _ _ _ _ HT o x Hx Hb HX Hni) as (y & Hy & HF). assert (y = x) as -> by congruence.
      exists x'. split; [done|]. rw Forall_forall in HF. apply Forall_forall. intros c Hc. apply Hn. destruct (Hr Hb HX c Hc) as [?|?]; [done|by apply HF].
  - intros o x' Hx' Hg Hni. destruct (Hback o x' Hx') as (x & Hx & Hm & Ht & Hs & Ho & _); [by apply isgray_nonwhite|done|]. rw Hm in Hg. rw Hs Ho.
    destruct (t_gray _ _ _ _ HT o x Hx Hg Hni) as [?|[?|(? & _)]]; [by left|by right; left|right; right]. split; [done|by left].
  - apply HT.
  - intros o Ho Hni. destruct (t_waiting _ _ _ _ HT o Ho Hni) as (x & Hx & Hg & Ht). destruct (Hkeep o x Hx) as (x' & Hx' & Hm & Ht'); [by apply isgray_nonwhite|done|].
    exists x'. by rw Hm Ht'.
  - done.
Qed.

Lemma tri_quiet X g g' : sane g' -> tri (fun _ => True) X [] g -> gray g' = gray g -> grayagain g' = grayagain g -> weak g' = weak g ->
  (forall o x', heap g' !! o = Some x' -> iswhite (marked x') = false -> exists x, heap g !! o = Some x /\ marked x' = marked x /\ traversable (body x') = traversable (body x) /\
    is_string (body x') = is_string (body x) /\ open_upval (body x') = open_upval (body x) /\
    (isblack (marked x) = true -> o ∉ X -> forall c, c ∈ refs (heap g') (body x') -> nonwhite g c \/ c ∈ refs (heap g) (body x))) ->
  (forall o x, heap g !! o = Some x -> iswhite (marked x) = false -> exists x', heap g' !! o = Some x' /\ marked x' = marked x /\ traversable (body x') = traversable (body x)) ->
  tri (fun _ => True) X [] g' /\ forall o, nonwhite g o -> nonwhite g' o.
Proof. intros ? ? ? ? ? Hback Hkeep. apply tri_changed; try done; [intros o x' ? ? _; by apply Hback|intros o x ? ? _; by apply Hkeep|by intros o ?%elem_of_nil]. Qed.

(** ** New objects *)

(** An object is added to the heap and to a list. *)
Record added (o : loc) (k : skel) g g' : Prop := {
  a_sk c : sk g' c = if decide (c = o) then Some k else sk g c;
  a_root : k <> SkString /\ (forall c, c ∈ rootgc g' <-> c = o \/ c ∈ rootgc g) \/ k = SkString /\ rootgc g' = rootgc g;
  a_strt : k <> SkString /\ strt g' = strt g \/ k = SkString /\ (forall c, c ∈ concat (strt g') <-> c = o \/ c ∈ concat (strt g));
  a_tmu : tmudata g' = tmudata g;
  a_uv : uvhead g' = uvhead g;
  a_nodup : NoDup (rootgc g' ++ tmudata g');
  a_nodup_strt : NoDup (concat (strt g'));
  a_main : exists pre post, rootgc g' = pre ++ mainthread g :: post /\ forall c, c ∈ post -> c = o /\ k = SkUdata \/ c <> o /\ sk g c = Some SkUdata;
  a_mainthread : mainthread g' = mainthread g;
  a_running : running g' = running g
}.

Lemma shape_added o k g g' : shape g -> added o k g g' -> sk g o = None -> (forall th i, k <> SkOpen th i) ->
  (forall n top ups, k = SkThread n top ups -> ups = [] /\ (top <= n)%nat) -> shape g'.
Proof.
  intros HS HA Hk Hno Hth. pose proof (a_sk _ _ _ _ HA) as Hsk.
  assert (forall c k', sk g c = Some k' -> sk g' c = Some k') as Hkeep by (intros c k' Hc; rw Hsk; destruct (decide (c = o)) as [->|]; [congruence|done]).
  assert (forall c k', sk g' c = Some k' -> c = o /\ k' = k \/ c <> o /\ sk g c = Some k') as Hback.
  { intros c k'. rw Hsk. destruct (decide (c = o)); [intros [= <-]; by left|by right]. }
  assert (forall c, c ∈ rootgc g -> c ∈ rootgc g') as Hroot by (intros c Hc; destruct (a_root _ _ _ _ HA) as [[_ Hr]|[_ ->]]; [apply Hr; by right|done]).
  assert (forall c, c ∈ concat (strt g) -> c ∈ concat (strt g')) as Hstr by (intros c Hc; destruct (a_strt _ _ _ _ HA) as [[_ ->]|[_ Hr]]; [done|apply Hr; by right]).
  split; rw ?(a_tmu _ _ _ _ HA) ?(a_uv _ _ _ _ HA) ?(a_mainthread _ _ _ _ HA) ?(a_running _ _ _ _ HA).
  - intros c k' [[-> ->]|[Hne Hc]]%Hback.
    + destruct (a_root _ _ _ _ HA) as [[Hns Hr]|[-> _]]; [|destruct (a_strt _ _ _ _ HA) as [[? _]|[_ Hr]]; [done|apply Hr; by left]].
      assert (o ∈ rootgc g') as Hin by (apply Hr; by left). destruct k; simpl; try done; [|by destruct (Hno th i)]. apply elem_of_app. by left.
    + pose proof (s_home _ HS c k' Hc) as Hin. destruct k'; simpl in *; rw ?(a_tmu _ _ _ _ HA) ?(a_uv _ _ _ _ HA); auto. apply elem_of_app in Hin as [?|?]; apply elem_of_app; auto.
  - intros c Hc. destruct (a_root _ _ _ _ HA) as [[Hns Hr]|[-> Hr]].
    + apply Hr in Hc as [->|Hc]; [|destruct (s_root _ HS c Hc) as (k' & ? & ?); exists k'; auto]. exists k. rw Hsk. destruct (decide (o = o)); [|done]. split; [done|].
      destruct k; try done. by destruct (Hno th i).
    + rw Hr in Hc. destruct (s_root _ HS c Hc) as (k' & ? & ?). exists k'. auto.
  - intros c Hc. destruct (a_strt _ _ _ _ HA) as [[Hns Hr]|[-> Hr]]; [rw Hr in Hc; by apply Hkeep, (s_strt _ HS)|]. apply Hr in Hc as [->|Hc]; [|by apply Hkeep, (s_strt _ HS)].
    rw Hsk. by destruct (decide (o = o)).
  - intros c Hc. by apply Hkeep, (s_tmu _ HS).
  - intros c Hc. destruct (s_uv _ HS c Hc) as (th & i & ?). exists th, i. auto.
  - rw -(a_tmu _ _ _ _ HA). apply HA.
  - apply HA.
  - apply HS.
  - destruct (a_main _ _ _ _ HA) as (pre & post & Hr & Hp). exists pre, post. split; [done|]. apply Forall_forall. intros c [[-> ->]|[_ ?]]%Hp; [|by apply Hkeep].
    rw Hsk. by destruct (decide (o = o)).
  - destruct (s_mainthread _ HS) as (n & top & ups & ?). exists n, top, ups. auto.
  - destruct (s_running _ HS) as (n & top & ups & ?). exists n, top, ups. auto.
  - intros th n top ups [[-> <-]|[Hne Hc]]%Hback; [destruct (Hth n top ups eq_refl) as [-> ?]; split; [constructor|done]|].
    destruct (s_thread _ HS _ _ _ _ Hc) as (? & ? & HF). split; [done|]. split; [done|]. eapply Forall_impl; [exact HF|]. intros uv (i & ?). exists i. auto.
  - intros uv th i [[-> <-]|[Hne Hc]]%Hback; [by destruct (Hno th i)|]. destruct (s_open _ HS _ _ _ Hc) as (n & top & ups & ? & ?). exists n, top, ups. auto.
Qed.

(** A new object points to objects that are alive. *)
Lemma base_added o b g g' : base g -> heap g !! o = None -> heap g' = <[o := mkObject (luaC_white (currentwhite g)) b]> (heap g) -> added o (skel_of b) g g' ->
  (forall th i, skel_of b <> SkOpen th i) -> (forall n top ups, skel_of b = SkThread n top ups -> ups = [] /\ (top <= n)%nat) ->
  Forall (alive g) (refs (heap g) b) -> typed g b -> currentwhite g' = currentwhite g -> l_registry g' = l_registry g -> mt g' = mt g -> base g'.
Proof.
  intros HI Ho Hh HA Hno Hth Hr Hty Hw Hreg Hmt. assert (sk g o = None) as Hko by (by rw /sk Ho).
  pose proof (shape_added o _ g g' (i_shape _ HI) HA Hko Hno Hth) as HS. pose proof (i_white _ HI) as (wb & wf & Hone).
  assert (forall a i, allocated g a -> stack_slot (heap g') a i = stack_slot (heap g) a i) as Hslot.
  { intros a i [y Hy]. rw /stack_slot Hh lookup_insert_ne //. congruence. }
  assert (forall c k, alive g c -> sk g c = Some k -> sk g' c = Some k) as Hsk.
  { intros c k (y & Hy & _) Hc. rw (a_sk _ _ _ _ HA). destruct (decide (c = o)) as [->|]; [congruence|done]. }
  apply (base_transfer g); try done.
  - intros c y. rw Hh. destruct (decide (c = o)) as [->|]; [rw lookup_insert_eq; intros [= <-]|rw lookup_insert_ne //; apply (i_sane _ HI)].
    rw /sane_object /= Hone /iswhite /isblack /isgray /=. destruct wb; simpl; split_and!; try done; apply andb_false_r.
  - intros c y Hy Hd. rw Hh in Hy. destruct (decide (c = o)) as [->|Hne].
    + rw lookup_insert_eq in Hy. injection Hy as <-. simpl. assert (refs (heap g') b = refs (heap g) b) as ->; [|split; [done|]; eapply typed_mono; [done|done|]; intros; by apply Hsk].
      apply refs_slots. intros th i ->. by destruct (Hno th i).
    + rw lookup_insert_ne // in Hy. destruct (i_closed _ HI c y Hy Hd) as [HF Ht]. assert (refs (heap g') (body y) = refs (heap g) (body y)) as ->; [|split; [done|]; eapply typed_mono; [done|done|]; intros; by apply Hsk].
      apply refs_slots. intros th i Hb. apply Hslot. destruct (s_open _ (i_shape _ HI) c th i) as (? & ? & ? & (z & ? & _)%sk_inv & _); [by rw (sk_lookup _ _ _ Hy) Hb|]. by exists z.
  - intros c (y & Hy & Hd). exists y. rw Hh Hw lookup_insert_ne //. congruence.
  - rw /roots (a_mainthread _ _ _ _ HA) (a_running _ _ _ _ HA) Hreg Hmt (a_tmu _ _ _ _ HA). apply HI.
  - intros Hnil. pose proof (i_strt _ HI) as Hs. destruct (a_strt _ _ _ _ HA) as [[_ Hs']|[_ Hs']]; [congruence|]. rw Hnil in Hs'. destruct (Hs' o) as [_ Hin]. specialize (Hin (or_introl eq_refl)). by apply elem_of_nil in Hin.
  - intros c y. rw Hh (a_mainthread _ _ _ _ HA). destruct (decide (c = o)) as [->|]; [rw lookup_insert_eq; by intros [= <-]|rw lookup_insert_ne //; apply (i_fixed _ HI)].
Qed.

Lemma luaC_white_clean w b : one_white w -> clean w (mkObject (luaC_white w) b).
Proof. intros (wb & f & ->). by destruct wb. Qed.

(** The lists of swept objects with a new object. *)
Lemma inv_added o b g g' : inv g -> heap g !! o = None -> heap g' = <[o := mkObject (luaC_white (currentwhite g)) b]> (heap g) -> added o (skel_of b) g g' ->
  (forall th i, skel_of b <> SkOpen th i) -> (forall n top ups, skel_of b = SkThread n top ups -> ups = [] /\ (top <= n)%nat) ->
  Forall (alive g) (refs (heap g) b) -> typed g b ->
  g' = mkGlobal (heap g') (currentwhite g) (gcstate g) (strt g') (sweepstrgc g) (rootgc g') (sweepgc g') (gray g) (grayagain g) (weak g) (tmudata g) (uvhead g)
    (l_registry g) (mainthread g) (running g) (mt g) (tm_gc g) (tm_mode g) ->
  (gcstate g = GCSsweepstring -> length (strt g') = length (strt g) /\ forall c, c ∈ concat (take (sweepstrgc g) (strt g')) -> c ∈ concat (take (sweepstrgc g) (strt g)) \/ c = o) ->
  (sweepgc g = 0%nat -> sweepgc g' = 0%nat) -> ((sweepgc g <= length (rootgc g))%nat -> (sweepgc g' <= length (rootgc g'))%nat) ->
  (forall c, c ∈ take (sweepgc g') (rootgc g') -> c ∈ take (sweepgc g) (rootgc g) \/ c = o) -> inv g'.
Proof.
  intros HI Ho Hh HA Hno Hth Hr Hty Hg' Hbk Hsg Hlen Hpre.
  assert (base g') as HI' by (by eapply base_added; try done; [apply HI|rw Hg'..]). pose proof (luaC_white_clean (currentwhite g) b (i_white _ HI)) as Hclean.
  assert (currentwhite g' = currentwhite g /\ gray g' = gray g /\ grayagain g' = grayagain g /\ weak g' = weak g) as (Ew & E1 & E2 & E3) by (by rw Hg').
  assert (clean_at g' o) as Hco by (eexists; rw Hh lookup_insert_eq Ew; split; [done|exact Hclean]).
  assert (forall c y, heap g !! c = Some y -> heap g' !! c = Some y) as Hkeep by (intros c y Hy; rw Hh lookup_insert_ne //; congruence).
  assert (forall c y, heap g' !! c = Some y -> c = o /\ y = mkObject (luaC_white (currentwhite g)) b \/ c <> o /\ heap g !! c = Some y) as Hback.
  { intros c y. rw Hh. destruct (decide (c = o)) as [->|]; [rw lookup_insert_eq; intros [= <-]; by left|rw lookup_insert_ne //; by right]. }
  eapply inv_quiet; [done|done| |by rw Hg'|by rw Hg'|].
  - split; try (by rw Hg').
    + intros c (y & Hy & ?). exists y. rw Ew. auto.
    + intros c y [[-> ->]|[_ Hy]]%Hback Hd; [|by exists y]. destruct Hclean as [_ Hnd]. simpl in *. congruence.
    + intros c y [[-> ->]|[_ Hy]]%Hback; [by left|right; by exists y].
    + intros c Hc. destruct (a_strt _ _ _ _ HA) as [[_ Hs]|[_ Hs]]; [rw Hs in Hc; by left|]. apply Hs in Hc as [->|?]; [by right|by left].
    + intros Hs. destruct (Hbk Hs) as [? Hb2]. split; [by rw Hg'|]. split; [done|]. intros c [?| ->]%Hb2; [by left|by right].
    + intros c [?| ->]%Hpre; [by left|right]. split; [done|]. intros n top ups. rw (a_sk _ _ _ _ HA). destruct (decide (o = o)); [|done]. intros [= Hk]. by destruct (Hth _ _ _ Hk) as [-> _].
    + intros c n top ups uv. rw (a_sk _ _ _ _ HA). destruct (decide (c = o)) as [->|]; [|intros; right; by exists n, top, ups].
      intros [= Hk]. destruct (Hth _ _ _ Hk) as [-> _]. by intros ?%elem_of_nil.
  - intros _ _ HT. apply (tri_quiet _ g); try done; [apply HI'|..].
    + intros c y [[-> ->]|[Hne Hy]]%Hback Hw; [destruct Hclean; simpl in *; congruence|]. exists y. split_and!; try done. intros _ _.
      assert (refs (heap g') (body y) = refs (heap g) (body y)) as ->; [|by right]. apply refs_slots. intros th i Hb.
      destruct (s_open _ (i_shape _ HI) c th i) as (? & ? & ? & (z & Hz & _)%sk_inv & _); [by rw (sk_lookup _ _ _ Hy) Hb|]. by rw /stack_slot Hz (Hkeep _ _ Hz).
    + intros c y Hy _. exists y. auto.
Qed.

(** *** luaC_link() and luaS_newudata() *)

Lemma take_insert_pos {A} (pos s : nat) (o : A) r : (pos <= length r)%nat -> forall c, c ∈ take (if decide (pos < s)%nat then S s else s) (take pos r ++ o :: drop pos r) -> c ∈ take s r \/ c = o.
Proof.
  intros Hp c. destruct (decide (pos < s)%nat).
  - rw take_app_ge; [rw length_take; lia|]. rw length_take. rw [(pos `min` _)%nat]Nat.min_l; [lia|]. replace (S s - pos)%nat with (S (s - pos))%nat by lia. rw /= elem_of_app elem_of_cons.
    assert (take s r = take pos r ++ take (s - pos) (drop pos r)) as -> by (rw take_take_drop; f_equal; lia). rw elem_of_app. tauto.
  - rw take_app_le; [rw length_take; lia|]. rw take_take Nat.min_l; [lia|]. by left.
Qed.

(** An object is put into the list of all objects. *)
Lemma root_insert_inv g o b pos : inv g -> heap g !! o = None -> (forall th i, skel_of b <> SkOpen th i) -> skel_of b <> SkString ->
  (forall n top ups, skel_of b = SkThread n top ups -> ups = [] /\ (top <= n)%nat) -> Forall (alive g) (refs (heap g) b) -> typed g b ->
  (pos = 0%nat \/ pos = main_end g /\ skel_of b = SkUdata) -> inv (root_insert (put g o (mkObject (luaC_white (currentwhite g)) b)) pos o).
Proof.
  intros HI Ho Hno Hns Hth Hr Hty Hpos. pose proof (i_shape _ HI) as HS. destruct (main_end_spec g HS) as (pre & post & Hrt & He & _ & Hp). rw Forall_forall in Hp.
  assert (pos <= length (rootgc g))%nat as Hle by (destruct Hpos as [->|[-> _]]; [lia|]; rw He Hrt length_app /=; lia).
  assert (take pos (rootgc g) ++ o :: drop pos (rootgc g) ≡ₚ o :: rootgc g) as HP by (by rw -Permutation_middle take_drop).
  assert (sk g o = None) as Hko by (by rw /sk Ho). assert (o ∉ rootgc g ++ tmudata g) as Hni.
  { intros [Hin|Hin]%elem_of_app; [destruct (s_root _ HS o Hin) as (? & ? & _)|pose proof (s_tmu _ HS o Hin)]; congruence. }
  eapply (inv_added o b g); try done; simpl.
  - split; try done; simpl.
    + intros c. rw /sk /=. destruct (decide (c = o)) as [->|]; [by rw lookup_insert_eq|by rw lookup_insert_ne].
    + left. split; [done|]. intros c. by rw HP elem_of_cons.
    + by left.
    + rw HP /=. apply NoDup_cons. split; [done|apply HS].
    + apply HS.
    + destruct Hpos as [->|[-> Hu]].
      * exists (o :: pre), post. split; [by rw /= Hrt|]. intros c Hc. right. split; [|by apply Hp]. intros ->. apply Hp in Hc. congruence.
      * exists pre, (o :: post). split; [rw He Hrt take_app_ge; [lia|]; rw drop_app_ge; [lia|]; replace (S (length pre) - length pre)%nat with 1%nat by lia; by rw /= take_0 drop_0 -app_assoc|].
        intros c [->|Hc]%elem_of_cons; [by left|right]. split; [|by apply Hp]. intros ->. apply Hp in Hc. congruence.
  - intros _. split; [done|]. by left.
  - intros ->. destruct (decide (pos < 0)%nat); [lia|done].
  - intros Hsl. apply Permutation_length in HP. rw HP /=. destruct (decide _); lia.
  - by apply take_insert_pos.
Qed.

Lemma luaC_link_inv g o b : inv g -> heap g !! o = None -> traversable b = true \/ (exists v, b = BUpval (UClosed v)) ->
  (forall n top ups, skel_of b = SkThread n top ups -> ups = [] /\ (top <= n)%nat) -> Forall (alive g) (refs (heap g) b) -> typed g b -> inv (luaC_link g o b).
Proof.
  intros HI Ho Hk Hth Hr Hty. apply root_insert_inv; try done; [..|by left].
  - intros th i Heq. apply skel_open in Heq as ->. by destruct Hk as [?|(v & ?)].
  - intros Heq. apply skel_string in Heq as (s & ->). by destruct Hk as [?|(v & ?)].
Qed.

Lemma luaS_newudata_inv g o e : inv g -> heap g !! o = None -> alive g e -> inv (luaS_newudata g o e).
Proof.
  intros HI Ho He. rw /luaS_newudata. apply (root_insert_inv g o (BUdata None e) (main_end g)); try done; [|constructor|by right].
  by apply Forall_singleton.
Qed.

Lemma keeps_link g o b : heap g !! o = None -> keeps g (luaC_link g o b).
Proof. intros Ho c (y & Hy & Hd). exists y. rw /= lookup_insert_ne //. congruence. Qed.
Lemma keeps_newudata g o e : heap g !! o = None -> keeps g (luaS_newudata g o e).
Proof. intros Ho c (y & Hy & Hd). exists y. rw /= lookup_insert_ne //. congruence. Qed.

(** ** Strings *)

(** The string table changes its size. *)
Lemma inv_restrt g t : inv g -> gcstate g <> GCSsweepstring -> concat t ≡ₚ concat (strt g) -> t <> [] -> inv (set_strt g t (sweepstrgc g)).
Proof.
  intros HI Hs HP Ht. eapply inv_quiet; [done|by apply base_restrt; [apply HI|..]| |done|done|].
  - split; try done; simpl.
    + intros o x Hx Hd. by exists x.
    + intros o x Hx. right. by exists x.
    + intros o Ho. rw HP in Ho. by left.
    + intros o Ho. by left.
    + intros o n top ups uv Hk Hu. right. by exists n, top, ups.
  - intros _ _ HT. split; [|done]. split; apply HT.
Qed.

Lemma luaS_resize_inv g n : inv g -> (0 < n)%nat -> exists g', luaS_resize g n = Ok g' /\ inv g'.
Proof.
  intros HI Hn. destruct (luaS_resize_spec g n (i_base _ HI) Hn) as (g' & Hr & HI' & HP & Hg' & Hsame). exists g'. split; [done|].
  destruct (decide (gcstate g = GCSsweepstring)) as [Hs|Hs]; [by rw Hsame|]. rw Hg'. apply inv_restrt; [done|done|done|apply HI'].
Qed.

(** A dead object is made white again: what it points to must be alive. *)
Lemma changewhite_spec w m : one_white w -> isdead w m = true -> white0 m && white1 m = false -> isdead w (changewhite m) = false /\ iswhite (changewhite m) = true /\ white0 (changewhite m) && white1 (changewhite m) = false.
Proof. intros (b & f & ->). by destruct m as [[] [] ? ? ? ? ?], b. Qed.

Lemma inv_resurrect g o x : inv g -> heap g !! o = Some x -> isdead (currentwhite g) (marked x) = true -> Forall (alive g) (refs (heap g) (body x)) /\ typed g (body x) ->
  inv (put g o (mkObject (changewhite (marked x)) (body x))).
Proof.
  intros HI Hx Hd Hok. pose proof (i_sane _ HI o x Hx) as (H01 & Hwb & _ & _). destruct (changewhite_spec _ _ (i_white _ HI) Hd H01) as (Hd' & Hw' & H01').
  assert (iswhite (marked x) = true) as Hw by (destruct (iswhite (marked x)) eqn:Hw; [done|]; rw (nonwhite_alive _ _ Hw) in Hd; done). rw Hw /= in Hwb.
  set (y := mkObject (changewhite (marked x)) (body x)). assert (clean (currentwhite g) y) as Hcy by done.
  assert (base (put g o y)) as HI'.
  { apply base_recolour; try done; [apply HI| |by right]. assert (isblack (marked y) = false) as Hby by exact Hwb.
    assert (isgray (marked y) = false) as Hgy by (rw /isgray [iswhite _]Hw' andb_false_r //). split; [done|]. rw Hby Hgy !andb_false_r. done. }
  assert (forall c, clean_at g c -> clean_at (put g o y) c) as Hkeep by (intros c; by apply clean_put).
  eapply inv_quiet; [done|done| |done|done|].
  - split; try done; simpl.
    + intros c z Hz Hdz. apply put_lookup in Hz as [[-> ->]|[? Hz]]; [by exists x|by exists z].
    + intros c z Hz. apply put_lookup in Hz as [[-> ->]|[? Hz]]; [by left|right; by exists z].
    + intros c Hc. by left.
    + intros Hs. split; [done|]. split; [done|]. intros c Hc. by left.
    + intros c Hc. by left.
    + intros c n top ups uv. rw (put_sk g o x _ c Hx : sk (put g o y) c = sk g c). intros Hk Hu. right. by exists n, top, ups.
  - intros _ Hnd. by rw (Hnd o x Hx) in Hd.
Qed.

Lemma take_bucket_cons (i j : nat) (t : list (list loc)) l o c : t !! i = Some l -> c ∈ concat (take j (<[i := o :: l]> t)) -> c ∈ concat (take j t) \/ c = o.
Proof.
  intros Hi. destruct (decide (i < j)%nat).
  - rw take_insert_lt // => Hc. rw (concat_insert_cons i (take j t) l o) in Hc; [by rw lookup_take_lt|]. apply elem_of_cons in Hc as [?|?]; tauto.
  - rw take_insert_ge; [lia|]. by left.
Qed.

Lemma newlstr_inv g str new : inv g -> heap g !! new = None -> exists g', newlstr g str (luaS_hash str) new = Ok g' /\ inv g' /\
  heap g' = <[new := mkObject (luaC_white (currentwhite g)) (BString str)]> (heap g) /\ currentwhite g' = currentwhite g /\ gcstate g' = gcstate g.
Proof.
  intros HI Hnew. rw /newlstr /=. destruct (str_bucket_some str (strt g) (i_strt _ HI)) as (l & Hl). rw Hl. set (i := strbucket (luaS_hash str) (length (strt g))) in *.
  set (g1 := set_strt (put g new _) (<[i := new :: l]> (strt g)) (sweepstrgc g)). pose proof (i_shape _ HI) as HS. assert (sk g new = None) as Hko by (by rw /sk Hnew).
  pose proof (concat_insert_cons i (strt g) l new Hl) as HP. assert (new ∉ concat (strt g)) as Hni by (intros Hin; pose proof (s_strt _ HS new Hin); congruence).
  assert (inv g1) as HI1.
  { eapply (inv_added new (BString str) g); try done; simpl.
    - split; try done; simpl.
      + intros c. rw /sk /=. destruct (decide (c = new)) as [->|]; [by rw lookup_insert_eq|by rw lookup_insert_ne].
      + by right.
      + right. split; [done|]. intros c. by rw HP elem_of_cons.
      + apply HS.
      + rw HP. apply NoDup_cons. split; [done|apply HS].
      + destruct (s_main _ HS) as (pre & post & Hr & Hp). exists pre, post. split; [done|]. intros c Hc. right. pose proof (proj1 (Forall_forall _ _) Hp c Hc) as Hk. simpl in Hk. split; [congruence|done].
    - intros _. split; [by rw length_insert|]. intros c. by apply take_bucket_cons.
    - intros c Hc. by left. }
  assert (exists g', Ok g1 = Ok g' /\ inv g' /\ heap g' = <[new := mkObject (luaC_white (currentwhite g)) (BString str)]> (heap g) /\ currentwhite g' = currentwhite g /\ gcstate g' = gcstate g) as Hsame by (by exists g1).
  destruct (decide (length (strt g) < length (concat (<[i := new :: l]> (strt g))))%nat); [|exact Hsame]. destruct (decide (Z.of_nat (length (strt g)) <= (2 ^ 31 - 1) / 2)); [|exact Hsame].
  destruct (luaS_resize_spec g1 (length (strt g) * 2)) as (g2 & Hr & _ & _ & Hg2 & _); [apply HI1|pose proof (i_strt _ HI); destruct (strt g); [done|simpl; lia]|].
  destruct (luaS_resize_inv g1 (length (strt g) * 2)) as (g2' & Hr' & HI2); [done|pose proof (i_strt _ HI); destruct (strt g); [done|simpl; lia]|].
  rw Hr in Hr'. injection Hr' as <-. exists g2. split; [done|]. split; [done|]. by rw Hg2.
Qed.

Lemma find_string_spec os str g : Forall (fun o => sk g o = Some SkString) os ->
  exists r, find_string os str g = Ok r /\ match r with Some o => o ∈ os /\ exists x, heap g !! o = Some x /\ body x = BString str | None => Forall (fun o => string_of g o <> Ok str) os end.
Proof.
  induction os as [|o os IH]; intros Hos; [by exists None|]. apply Forall_cons in Hos as [Ho Hos]. destruct (sk_inv _ _ _ Ho) as (x & Hx & (s & Hb)%skel_string).
  assert (string_of g o = Ok s) as Hs by (by rw /string_of (get_eq _ _ _ Hx) Ok_bind Hb). cbn [find_string]. rw Hs Ok_bind. destruct (decide (s = str)) as [->|Hne].
  - exists (Some o). split; [done|]. split; [apply list_elem_of_here|by exists x].
  - destruct (IH Hos) as (r & -> & Hr). exists r. split; [done|]. destruct r as [o'|]; [destruct Hr as [? ?]; split; [by apply list_elem_of_further|done]|].
    apply Forall_cons. split; [|done]. rw Hs. congruence.
Qed.

(** The string is there afterwards, and it is alive. *)
Lemma luaS_newlstr_inv g str new : inv g -> heap g !! new = None ->
  exists o g', luaS_newlstr g str new = Ok (o, g') /\ inv g' /\ keeps g g' /\ gcstate g' = gcstate g /\ exists x, heap g' !! o = Some x /\ body x = BString str /\ isdead (currentwhite g') (marked x) = false.
Proof.
  intros HI Hnew. rw /luaS_newlstr. destruct (str_bucket_some str (strt g) (i_strt _ HI)) as (l & Hl). rw Hl.
  destruct (find_string_spec l str g) as (r & -> & Hr).
  { apply Forall_forall. intros o Ho. apply (s_strt _ (i_shape _ HI)). rw -(take_drop_middle _ _ _ Hl) concat_app /=. set_solver. }
  rw Ok_bind. destruct r as [o|].
  - destruct Hr as (_ & x & Hx & Hb). rw (get_eq _ _ _ Hx) Ok_bind. destruct (isdead (currentwhite g) (marked x)) eqn:Hd.
    + rw (set_marks_eq _ _ _ _ Hx) Ok_bind. exists o, (put g o (mkObject (changewhite (marked x)) (body x))). split; [done|]. split; [by apply inv_resurrect; [..|rw Hb]|].
      destruct (changewhite_spec _ _ (i_white _ HI) Hd) as (? & _); [by apply (i_sane _ HI o x)|]. split; [by apply keeps_put|]. split; [done|]. eexists. by rw /= lookup_insert_eq.
    + exists o, g. split; [done|]. split; [done|]. split; [done|]. split; [done|]. by exists x.
  - destruct (newlstr_inv g str new HI Hnew) as (g' & -> & HI' & Hh & Ew & Es). exists new, g'. split; [done|]. split; [done|]. rw Ew Hh. pose proof (luaC_white_clean _ (BString str) (i_white _ HI)) as [_ Hd].
    split; [|split; [done|eexists; by rw lookup_insert_eq]]. intros c (y & Hy & Hdy). exists y. rw Ew Hh lookup_insert_ne //. congruence.
Qed.
