(* ===== verification/LuaGCStore.v ===== *)
(** LuaGCStore: stores into objects, tables and stacks, with the write barriers of lgc.c. *)

From Corelib Require Import ssreflect.
From stdpp Require Import base list gmap numbers strings.
From Stdlib Require Import ZArith Lia.
From S2P Require Import Prelude LuaHeap LuaGC LuaGCMark LuaGCInv LuaGCTri LuaGCAtomic LuaGCFinal LuaGCPhase LuaGCSweep LuaGCClose LuaGCStep LuaGCMut.

Implicit Type g : global_State.

(** ** What a store may change *)

(** An object keeps its kind; a thread keeps its open upvalues, which point below the top. *)
Record store_ok g (o : loc) (x : GCObject) (b : gcbody) : Prop := {
  so_object : heap g !! o = Some x;
  so_traversable : traversable b = traversable (body x);
  so_closed : open_upval b = false;
  so_kind : skel_of b = skel_of (body x) \/ exists n top n' top' ups, skel_of (body x) = SkThread n top ups /\ skel_of b = SkThread n' top' ups /\ (top' <= n')%nat /\
    forall uv i, uv ∈ ups -> sk g uv = Some (SkOpen o i) -> (i < top')%nat;
  so_refs : Forall (alive g) (refs (heap g) b);
  so_typed : typed g b
}.

Section store.
Context (g : global_State) (o : loc) (x : GCObject) (b : gcbody) (HI : base g) (HO : store_ok g o x b).
Let g' : global_State := put g o (mkObject (marked x) b).

Lemma store_not_open th i : skel_of b <> SkOpen th i.
Proof using HO. intros Hk%skel_open. pose proof (so_closed _ _ _ _ HO) as Hc. by rw Hk in Hc. Qed.

Lemma store_sk c : sk g' c = if decide (c = o) then Some (skel_of b) else sk g c.
Proof using Type. rw /sk /g' /=. destruct (decide (c = o)) as [->|]; [by rw lookup_insert_eq|by rw lookup_insert_ne]. Qed.

Lemma store_keep c k : sk g c = Some k -> (forall a d e, k <> SkThread a d e) -> sk g' c = Some k.
Proof using HO.
  intros Hc Hk. rw store_sk. destruct (decide (c = o)) as [->|]; [|done]. rw (sk_lookup _ _ _ (so_object _ _ _ _ HO)) in Hc.
  destruct (so_kind _ _ _ _ HO) as [->|(n & top & n' & top' & ups & H1 & _)]; [done|]. rw H1 in Hc. injection Hc as <-. by destruct (Hk n top ups).
Qed.

Lemma store_thread c : (exists a d e, sk g c = Some (SkThread a d e)) -> exists a d e, sk g' c = Some (SkThread a d e).
Proof using HO.
  intros (n0 & top0 & ups0 & Hc). rw store_sk. destruct (decide (c = o)) as [->|]; [|eauto]. rw (sk_lookup _ _ _ (so_object _ _ _ _ HO)) in Hc.
  destruct (so_kind _ _ _ _ HO) as [->|(n & top & n' & top' & ups & _ & -> & _)]; eauto.
Qed.

Lemma store_shape : shape g'.
Proof using HI HO.
  pose proof (i_shape _ HI) as HS. pose proof (sk_lookup _ _ _ (so_object _ _ _ _ HO)) as Hko. destruct (so_kind _ _ _ _ HO) as [Hk|(n & top & n' & top' & ups & H1 & H2 & Hle & Hups)].
  { apply (shape_ext g); [|done|done]. intros c. rw store_sk. destruct (decide (c = o)) as [->|]; [|done]. by rw Hko Hk. }
  rw H1 in Hko. assert (forall c k, sk g' c = Some k -> c = o /\ k = SkThread n' top' ups \/ c <> o /\ sk g c = Some k) as Hback.
  { intros c k. rw store_sk H2. destruct (decide (c = o)); [intros [= <-]; by left|by right]. }
  split; simpl; try apply HS.
  - intros c k [[-> ->]|[_ Hc]]%Hback; [apply (s_home _ HS o _ Hko)|apply (s_home _ HS c k Hc)].
  - intros c Hc. destruct (s_root _ HS c Hc) as (k & Hk & ?). destruct (decide (c = o)) as [->|Hne]; [exists (SkThread n' top' ups)|exists k]; rw store_sk; [destruct (decide (o = o))|destruct (decide (c = o))]; try done. by rw H2.
  - intros c Hc. by apply store_keep; [apply (s_strt _ HS)|].
  - intros c Hc. by apply store_keep; [apply (s_tmu _ HS)|].
  - intros c Hc. destruct (s_uv _ HS c Hc) as (th & i & ?). exists th, i. by apply store_keep.
  - destruct (s_main _ HS) as (pre & post & Hr & Hp). exists pre, post. split; [done|]. eapply Forall_impl; [exact Hp|]. intros c Hc. by apply store_keep.
  - apply store_thread, HS.
  - apply store_thread, HS.
  - intros th a d e [[-> [= -> -> ->]]|[_ Hc]]%Hback.
    + destruct (s_thread _ HS _ _ _ _ Hko) as (? & _ & HF). split; [done|]. split; [done|]. eapply Forall_impl; [exact HF|]. intros uv (i & ?). exists i. by apply store_keep.
    + destruct (s_thread _ HS _ _ _ _ Hc) as (? & ? & HF). split; [done|]. split; [done|]. eapply Forall_impl; [exact HF|]. intros uv (i & ?). exists i. by apply store_keep.
  - intros uv th i [[_ ?]|[_ Hc]]%Hback; [done|]. destruct (s_open _ HS _ _ _ Hc) as (a & d & e & Hth & Hin & Hi). destruct (decide (th = o)) as [->|Hne].
    + rw Hko in Hth. injection Hth as <- <- <-. exists n', top', ups. rw store_sk H2. destruct (decide (o = o)); [|done]. split; [done|]. split; [done|by eapply Hups].
    + exists a, d, e. rw store_sk. by destruct (decide (th = o)).
Qed.

(** An open upvalue of a stack that changes points to a value of the stack. *)
Lemma store_slot_other th i : th <> o -> stack_slot (heap g') th i = stack_slot (heap g) th i.
Proof using Type. intros Hne. by rw /stack_slot /g' /= lookup_insert_ne. Qed.

Lemma store_refs : refs (heap g') b = refs (heap g) b.
Proof using HO. apply refs_slots. intros th i Hb. exfalso. apply (store_not_open th i). by rw Hb. Qed.

Lemma store_refs_other c y : heap g !! c = Some y -> c <> o -> (exists th i, sk g c = Some (SkOpen th i) /\ th = o /\ refs (heap g') (body y) ⊆ refs (heap g) b) \/ refs (heap g') (body y) = refs (heap g) (body y).
Proof using HI HO.
  intros Hy Hne. destruct (body y) as [| |[th i|]| | | | |] eqn:Hb; try by right. destruct (decide (th = o)) as [->|Hto]; [|right; by rw /= /upval_refs /= store_slot_other].
  left. exists o, i. assert (sk g c = Some (SkOpen o i)) as Hc by (by rw (sk_lookup _ _ _ Hy) Hb). split; [done|]. split; [done|].
  assert (sk g' c = Some (SkOpen o i)) as Hc' by (by apply store_keep). destruct (s_open _ store_shape _ _ _ Hc') as (n & top & ups & Hth & _ & Hi).
  rw store_sk in Hth. destruct (decide (o = o)); [|done]. injection Hth as (gt & st & cis & Hbt & _)%skel_thread.
  rw /= /upval_refs /= /stack_slot /g' /= lookup_insert_eq /= Hbt /=. destruct (st !! i) as [v|] eqn:Hv; [|set_solver].
  intros c' Hc2. apply elem_of_app. right. apply list_elem_of_bind. exists v. split; [done|]. apply (list_elem_of_lookup_2 _ i). by rw lookup_take_lt.
Qed.

Lemma store_base : base g'.
Proof using HI HO.
  pose proof (so_object _ _ _ _ HO) as Hx. pose proof store_shape as HS. apply (base_transfer g); try done.
  - intros c y Hy. apply put_lookup in Hy as [[-> ->]|[_ Hy]]; [|by apply (i_sane _ HI c)]. pose proof (i_sane _ HI o x Hx) as (H1 & H2 & H3 & H4). split; [done|]. split; [done|]. simpl.
    assert (never_black b = never_black (body x) /\ is_udata b = is_udata (body x)) as [-> ->]; [|done]. pose proof (so_closed _ _ _ _ HO) as Hc. pose proof (so_traversable _ _ _ _ HO) as Ht.
    destruct (so_kind _ _ _ _ HO) as [Hk|(n & top & n' & top' & ups & Hk1 & Hk2 & _)]; [destruct b as [| |[]| | | | |], (body x) as [| |[]| | | | |]; done|].
    apply skel_thread in Hk1 as (? & ? & ? & -> & _). apply skel_thread in Hk2 as (? & ? & ? & -> & _). done.
  - intros c y Hy Hd. assert (Forall (alive g) (refs (heap g') (body y)) /\ typed g (body y)) as [HF Ht].
    { apply put_lookup in Hy as [[-> ->]|[Hne Hy]]; [simpl; rw store_refs; split; apply HO|]. destruct (i_closed _ HI c y Hy Hd) as [HF Ht]. split; [|done].
      destruct (store_refs_other c y Hy Hne) as [(_ & _ & _ & _ & Hsub)|Heq]; [|by rw Heq]. pose proof (so_refs _ _ _ _ HO) as HFb. rw Forall_forall in HFb. apply Forall_forall. auto. }
    split; [done|]. destruct (body y); simpl in *; try done; [|destruct Ht as [Ht ?]; split; [|done]|]; (eapply Forall_impl; [exact Ht|]); intros c' Hc'; by apply store_keep.
  - intros c (y & Hy & Hd). destruct (decide (c = o)) as [->|]; [|exists y; by rw /g' /= lookup_insert_ne]. exists (mkObject (marked x) b). rw /g' /= lookup_insert_eq. split; [done|]. by assert (y = x) as -> by congruence.
  - apply HI.
  - apply HI.
  - intros c y Hy. apply put_lookup in Hy as [[-> ->]|[_ Hy]]; [|by apply (i_fixed _ HI c)]. simpl. intros Hf. destruct (i_fixed _ HI o x Hx Hf) as [Hk|?]; [left|by right].
    destruct (so_kind _ _ _ _ HO) as [Hk2|(n & top & n' & top' & ups & Hk1 & _)]; congruence.
Qed.

Lemma store_quiet : quiet g g'.
Proof using HO.
  pose proof (so_object _ _ _ _ HO) as Hx. split; try done; simpl.
  - intros c (y & Hy & Hc). destruct (decide (c = o)) as [->|]; [|exists y; by rw lookup_insert_ne]. exists (mkObject (marked x) b). rw lookup_insert_eq. split; [done|]. by assert (y = x) as -> by congruence.
  - intros c y Hy Hd. apply put_lookup in Hy as [[-> ->]|[_ Hy]]; [by exists x|by exists y].
  - intros c y Hy. right. apply put_lookup in Hy as [[-> ->]|[_ Hy]]; [by exists x|by exists y].
  - intros c Hc. by left.
  - intros Hs. split; [done|]. split; [done|]. intros c Hc. by left.
  - intros c Hc. by left.
  - intros c n top ups uv. rw store_sk. destruct (decide (c = o)) as [->|]; [|intros; right; by exists n, top, ups]. intros [= Hk] Hin. right.
    rw (sk_lookup _ _ _ Hx). destruct (so_kind _ _ _ _ HO) as [<-|(n1 & top1 & n' & top' & ups1 & -> & Hk2 & _)]; [by exists n, top, ups; rw Hk|]. rw Hk in Hk2. injection Hk2 as -> -> ->. by exists n1, top1, ups1.
Qed.

Lemma store_tri X : tri (fun _ => True) X [] g ->
  (isblack (marked x) = true -> o ∉ X -> forall c, c ∈ refs (heap g) b -> nonwhite g c \/ c ∈ refs (heap g) (body x)) ->
  tri (fun _ => True) X [] g' /\ forall c, nonwhite g c -> nonwhite g' c.
Proof using HI HO.
  intros HT Hbl. pose proof (so_object _ _ _ _ HO) as Hx. pose proof (so_closed _ _ _ _ HO) as Hcl. pose proof (so_traversable _ _ _ _ HO) as Htr.
  apply (tri_quiet _ g); try done; [apply store_base|..].
  - intros c y Hy Hw. apply put_lookup in Hy as [[-> ->]|[Hne Hy]].
    + exists x. simpl. rw Htr. split; [done|]. split; [done|]. split; [done|]. split; [|split; [|by intros H1 H2; rw store_refs; apply Hbl]].
      * destruct (so_kind _ _ _ _ HO) as [Hk|(n & top & n' & top' & ups & Hk1 & Hk2 & _)]; [by destruct b as [| |[]| | | | |], (body x) as [| |[]| | | | |]|].
        apply skel_thread in Hk1 as (? & ? & ? & -> & _). apply skel_thread in Hk2 as (? & ? & ? & -> & _). done.
      * rw Hcl. destruct (so_kind _ _ _ _ HO) as [Hk|(n & top & n' & top' & ups & Hk1 & _)]; [by destruct b as [| |[]| | | | |], (body x) as [| |[]| | | | |]|].
        by apply skel_thread in Hk1 as (? & ? & ? & -> & _).
    + exists y. split_and!; try done. intros Hb _ d Hd. right. destruct (store_refs_other c y Hy Hne) as [(th & i & Hk & _)|<-]; [|done]. exfalso.
      rw (sk_lookup _ _ _ Hy) in Hk. injection Hk as Hk%skel_open. destruct (i_sane _ HI c y Hy) as (_ & _ & Hnb & _). by rw Hk Hb in Hnb.
  - intros c y Hy _. destruct (decide (c = o)) as [->|]; [|exists y; by rw /g' /= lookup_insert_ne]. assert (y = x) as -> by congruence. exists (mkObject (marked x) b). by rw /g' /= lookup_insert_eq.
Qed.
End store.

(** ** Barriers *)

(** An object that is alive may become white outside of the mark phase. *)
Lemma inv_whiten g o x : inv g -> gcstate g <> GCSpropagate -> heap g !! o = Some x -> isdead (currentwhite g) (marked x) = false ->
  inv (put g o (mkObject (makewhite (currentwhite g) (marked x)) (body x))).
Proof.
  intros HI Hs Hx Hd. destruct (makewhite_alive _ (marked x) (i_white _ HI)) as (Hd1 & Hw1 & _). set (y := mkObject (makewhite (currentwhite g) (marked x)) (body x)).
  assert (clean (currentwhite g) y) as Hcy by done.
  eapply inv_quiet; [done|apply base_whiten; [apply HI|done|by left]| |done|done|done]. split; try done; simpl.
  - intros c. by apply clean_put.
  - intros c z Hz Hdz. apply put_lookup in Hz as [[-> ->]|[? Hz]]; [exfalso; simpl in Hdz; congruence|by exists z].
  - intros c z Hz. apply put_lookup in Hz as [[-> ->]|[? Hz]]; [by left|right; by exists z].
  - intros c Hc. by left.
  - intros _. split; [done|]. split; [done|]. intros c Hc. by left.
  - intros c Hc. by left.
  - intros c n top ups uv. rw (put_sk g o x _ c Hx : sk (put g o y) c = sk g c). intros Hk Hu. right. by exists n, top, ups.
Qed.

(** A store into an object that is not black, or of what is marked. *)
Lemma store_inv g o x b : inv g -> store_ok g o x b ->
  (gcstate g = GCSpropagate -> isblack (marked x) = true -> o ∉ tmudata g -> forall c, c ∈ refs (heap g) b -> nonwhite g c \/ c ∈ refs (heap g) (body x)) ->
  inv (put g o (mkObject (marked x) b)).
Proof.
  intros HI HO Hbl. eapply inv_quiet; [done|by apply store_base; [apply HI|]|by apply store_quiet|done|done|]. intros Hs _ HT. apply store_tri; [apply HI|done|done|by apply Hbl].
Qed.

Lemma set_body_eq g o x b : heap g !! o = Some x -> set_body g o b = Ok (put g o (mkObject (marked x) b)).
Proof. intros Hx. by rw /set_body (get_eq _ _ _ Hx). Qed.

Lemma tri_weaken D X o g : tri D X [] g -> tri D (o :: X) [] g.
Proof. intros HT. split; try apply HT. intros c x Hx Hb HX HC. apply (t_black _ _ _ _ HT c x Hx Hb); set_solver. Qed.

(** The objects stay what they are. *)
Definition same_sk g g' : Prop := running g' = running g /\ forall c, sk g' c = sk g c.

#[export] Instance same_sk_trans : Transitive same_sk.
Proof. intros g1 g2 g3 [E1 H1] [E2 H2]. split; [congruence|]. intros c. by rw H2. Qed.

Lemma same_sk_put g o x m b : heap g !! o = Some x -> skel_of b = skel_of (body x) -> same_sk g (put g o (mkObject m b)).
Proof.
  intros Hx Hb. split; [done|]. intros c. rw /sk /=. destruct (decide (c = o)) as [->|]; [by rw lookup_insert_eq Hx /= Hb|by rw lookup_insert_ne].
Qed.
Lemma same_sk_marking new g g' : marking [] new g g' -> same_sk g g'.
Proof. intros HM. split; [by rw (m_frame _ _ _ _ HM)|]. apply evolves_sk. by eapply marking_evolves. Qed.

(** The mark phase: a value is marked after a change; what is left to show is the invariant of that phase. *)
Lemma mark_after g1 c : base g1 -> none_dead g1 -> gcstate g1 = GCSpropagate -> nonwhite g1 (mainthread g1) -> Forall (nonwhite g1) (vref (l_registry g1)) -> is_white g1 c ->
  exists g2 new, reallymarkobject g1 c = Ok g2 /\ marking [] new g1 g2 /\ nonwhite g2 c /\ (tri (fun _ => True) (tmudata g1) [] g2 -> inv g2).
Proof.
  intros HB1 Hd1 Hs Hm Hreg Hw.
  assert (mbase g1) as HMB by (split; try apply HB1; [done|..]; intros a y Hy; destruct (i_closed _ HB1 a y Hy (Hd1 a y Hy)); [by apply alives_allocated|done]).
  destruct (reallymarkobject_spec g1 c) as (g2 & new & Hr & HM & HF); [by apply mbase_mark_ok|done|].
  exists g2, new. split; [done|]. split; [done|]. apply Forall_cons in HF as [HF _]. split; [done|]. intros HT2. pose proof (marking_evolves _ _ _ HM) as HE. pose proof (marking_mbase _ _ _ HMB HM) as HMB2.
  assert (roots g2 = roots g1 /\ tmudata g2 = tmudata g1 /\ strt g2 = strt g1 /\ gcstate g2 = gcstate g1 /\ mainthread g2 = mainthread g1 /\ l_registry g2 = l_registry g1)
    as (E1 & E2 & E3 & E4 & E5 & E6) by (by rw (m_frame _ _ _ _ HM)).
  apply mbase_inv; [done| |by rw E3; apply HB1|].
  - rw E1 E2. eapply Forall_impl; [apply alives_allocated, (i_roots _ HB1)|]. intros a. apply (evolves_allocated _ _ HE).
  - rw /phase_inv E2 E4 E5 E6 Hs. split; [apply (b_dead _ HMB2)|]. split; [done|]. split; [by apply (marking_nonwhite _ _ _ _ _ HM)|].
    eapply Forall_impl; [exact Hreg|]. intros a Ha. by apply (marking_nonwhite _ _ _ _ _ HM).
Qed.

Lemma barrierf_mark g o x b c : inv g -> gcstate g = GCSpropagate -> store_ok g o x b -> alive g c -> is_white g c ->
  (forall d, d ∈ refs (heap g) b -> d = c \/ d ∈ refs (heap g) (body x)) -> isblack (marked x) = true ->
  exists g', reallymarkobject (put g o (mkObject (marked x) b)) c = Ok g' /\ inv g' /\ keeps g g' /\ (skel_of b = skel_of (body x) -> same_sk g g').
Proof.
  intros HI Hs HO Hc Hw Hsub Hbl. pose proof (so_object _ _ _ _ HO) as Hx. assert (o <> c) as Hne.
  { intros <-. destruct Hw as (y & Hy & Hwy). assert (y = x) as -> by congruence. destruct (i_sane _ HI o x Hy) as (_ & Hsx & _). by rw Hwy Hbl in Hsx. }
  pose proof (i_phase _ HI) as Hp. rw /phase_inv Hs in Hp. destruct Hp as (Hd & HT & Hm & Hreg). set (g1 := put g o (mkObject (marked x) b)).
  destruct (store_tri g o x b (i_base _ HI) HO (o :: tmudata g) (tri_weaken _ _ _ _ HT)) as [HT1 Hn1]; [intros _ HX; set_solver|].
  destruct (mark_after g1 c) as (g2 & new & Hr & HM & HF & HI2).
  { apply store_base; [apply HI|done]. }
  { intros a y Hy. change (currentwhite g1) with (currentwhite g). apply put_lookup in Hy as [[-> ->]|[_ Hy]]; [|by apply (Hd a)]. simpl. by apply (Hd o x). }
  { done. }
  { by apply Hn1. }
  { eapply Forall_impl; [exact Hreg|]. apply Hn1. }
  { destruct Hw as (y & Hy & Hwy). exists y. by rw /g1 /= lookup_insert_ne. }
  exists g2. split; [done|]. split; [|split; [etrans; [by apply keeps_put_same|by eapply keeps_marking]|intros Hsb; etrans; [by eapply same_sk_put|by eapply same_sk_marking]]]. apply HI2. pose proof (tri_marking _ _ _ _ _ _ HT1 HM) as HT2. change (tmudata g1) with (tmudata g).
  destruct (decide (o ∈ tmudata g)) as [Hin|Hni]; [split; try apply HT2; intros a y Hy Hb HX HC; apply (t_black _ _ _ _ HT2 a y Hy Hb); [|done]; set_solver|].
  eapply tri_drop; [|exact HT2]. assert (heap g1 !! o = Some (mkObject (marked x) b)) as Ho1 by (rw /g1 /= lookup_insert_eq //).
  destruct (m_some _ _ _ _ HM o _ Ho1) as (y & Hy & Hby & _). exists y. split; [done|]. rw Hby (refs_same _ _ _ (marking_bodies _ _ _ _ HM)) /= (store_refs g o x b HO).
  apply Forall_forall. intros d [->|Hin]%Hsub; [done|]. apply (marking_nonwhite _ _ _ _ _ HM), Hn1.
  destruct (t_black _ _ _ _ HT o x Hx Hbl Hni (not_elem_of_nil _)) as (z & Hz & HFz). assert (z = x) as -> by congruence. by apply (proj1 (Forall_forall _ _) HFz).
Qed.

(** *** The forward barrier *)

(** What else a store adds must not be white if the object is black. *)
Definition store_refs_ok g (x : GCObject) (b : gcbody) (v : gcvalue) : Prop :=
  forall d, d ∈ refs (heap g) b -> d ∈ vref v \/ d ∈ refs (heap g) (body x) \/ (isblack (marked x) = true -> nonwhite g d).

Lemma store_covered g o x b v : inv g -> store_ok g o x b -> store_refs_ok g x b v -> Forall (nonwhite g) (vref v) -> inv (put g o (mkObject (marked x) b)).
Proof.
  intros HI HO Hsub Hv. apply store_inv; [done|done|]. intros _ Hbl _ c [Hc|[Hc|Hc]]%Hsub; [left|by right|left; by apply Hc]. by apply (proj1 (Forall_forall _ _) Hv).
Qed.

Lemma lookup_put_ne g o x c : c <> o -> heap (put g o x) !! c = heap g !! c.
Proof. intros Hne. by rw /= lookup_insert_ne. Qed.

Lemma store_object_inv g o x b v : inv g -> store_ok g o x b -> alive g o -> Forall (alive g) (vref v) ->
  (forall d, d ∈ refs (heap g) b -> d ∈ vref v \/ d ∈ refs (heap g) (body x)) -> exists g', store_object g o b v = Ok g' /\ inv g' /\ keeps g g' /\ (skel_of b = skel_of (body x) -> same_sk g g').
Proof.
  intros HI HO Ho Hv Hsub. pose proof (so_object _ _ _ _ HO) as Hx. rw /store_object (set_body_eq _ _ _ _ Hx) Ok_bind. set (g1 := put g o (mkObject (marked x) b)).
  assert (heap g1 !! o = Some (mkObject (marked x) b)) as Hx1 by (rw /g1 /= lookup_insert_eq //). pose proof (keeps_put_same g o x b Hx : keeps g g1) as HK. pose proof (same_sk_put g o x (marked x) b Hx : _ -> same_sk g g1) as HSK.
  assert (store_refs_ok g x b v) as Hsub' by (intros d [?|?]%Hsub; auto).
  destruct v as [| |c]; try (exists g1; split; [done|]; split; [by eapply store_covered|done]). apply Forall_cons in Hv as [(y & Hy & Hdy) _]. rw /luaC_barrier /luaC_objbarrier.
  assert (exists y1, heap g1 !! c = Some y1 /\ marked y1 = marked y) as (y1 & Hy1 & Hm1).
  { destruct (decide (c = o)) as [->|Hne]; [exists (mkObject (marked x) b); split; [done|]; simpl; congruence|]. exists y. by rw lookup_put_ne. }
  rw (get_eq _ _ _ Hy1) Ok_bind Hm1. destruct (iswhite (marked y)) eqn:Hw; [|exists g1; split; [done|]; split; [|done]; eapply store_covered; try done; apply Forall_singleton; by exists y].
  rw (get_eq _ _ _ Hx1) Ok_bind /=. destruct (isblack (marked x)) eqn:Hbl; [|exists g1; split; [done|]; split; [|done]; apply store_inv; [done|done|by intros _; congruence]].
  destruct Ho as (z & Hz & Hdz). assert (z = x) as -> by congruence. rw /luaC_barrierf (get_eq _ _ _ Hx1) Ok_bind (get_eq _ _ _ Hy1) Ok_bind /= Hbl Hm1 Hw Hdy Hdz /=.
  change (gcstate g1) with (gcstate g). destruct (decide (gcstate g = GCSpropagate)) as [Hs|Hs].
  - apply barrierf_mark; try done; [by exists y|by exists y|]. intros d [Hd|?]%Hsub; [left|by right]. by apply list_elem_of_singleton in Hd.
  - rw (set_marks_eq _ _ _ _ Hx1). eexists. split; [done|]. split; [apply (inv_whiten g1 o (mkObject (marked x) b)); [by apply store_inv|done|done|done]|].
    split; [etrans; [exact HK|]; apply keeps_put; simpl; by apply (makewhite_alive _ (marked x) (i_white _ HI))|].
    intros Hsb. etrans; [by apply HSK|]. by eapply same_sk_put.
Qed.

(** *** The backward barrier *)

(** A black table becomes gray and waits to be traversed again. *)
Lemma inv_barrierback g t x : inv g -> heap g !! t = Some x -> isblack (marked x) = true -> isdead (currentwhite g) (marked x) = false -> skel_of (body x) = SkTable ->
  inv (set_lists (put g t (mkObject (black2gray (marked x)) (body x))) (gray g) (t :: grayagain g) (weak g)).
Proof.
  intros HI Hx Hbl Hd Hk. pose proof (i_sane _ HI t x Hx) as Hsx. pose proof (sane_black _ Hsx Hbl) as Hw. destruct (skel_table _ Hk) as (m & a & ns & Hb).
  set (y := mkObject (black2gray (marked x)) (body x)). pose proof (black2gray_gray _ Hw) as Hgy. pose proof (isgray_nonwhite _ Hgy) as Hwy.
  assert (sane_object y) as Hsy by (destruct Hsx as (? & _); rw /sane_object /y /= Hb /=; split; [done|]; by rw andb_false_r).
  assert (base (put g t y)) as HB by (apply base_recolour; try done; [apply HI|by left]).
  set (g' := set_lists (put g t y) (gray g) (t :: grayagain g) (weak g)). assert (base g') as HB' by (by apply (base_ext (put g t y))).
  assert (forall c z, heap g' !! c = Some z -> c = t /\ z = y \/ c <> t /\ heap g !! c = Some z) as Hback by (intros c z; apply (put_lookup g t y)).
  eapply inv_quiet; [done|done| |done|done|].
  - split; try done; simpl.
    + intros c (z & Hz & Hc). destruct (decide (c = t)) as [->|]; [|exists z; by rw lookup_insert_ne]. exfalso. destruct Hc as [Hc _]. assert (z = x) as -> by congruence. congruence.
    + intros c z [[-> ->]|[_ Hz]]%Hback Hdz; [|by exists z]. exfalso. simpl in Hdz. by rw (nonwhite_alive _ _ Hwy) in Hdz.
    + intros c z [[-> ->]|[_ Hz]]%Hback; right; [by exists x|by exists z].
    + intros c Hc. by left.
    + intros _. split; [done|]. split; [done|]. intros c Hc. by left.
    + intros c Hc. by left.
    + intros c n top ups uv. rw (put_sk g t x _ c Hx : sk g' c = sk g c). intros Hc Hu. right. by exists n, top, ups.
  - intros _ _ HT. assert (evolves g g') as HE by (apply (evolves_put g t x); [done|apply similar_refl|done|simpl; congruence|done]).
    assert (t ∉ gray g ++ grayagain g ++ weak g) as Hni.
    { intros Hin. destruct (t_waiting _ _ _ _ HT t Hin (not_elem_of_nil _)) as (z & Hz & Hgz%isgray_nonblack & _). congruence. }
    split; [|intros c; apply (evolves_nonwhite _ _ HE)]. eapply (tri_leave _ _ _ t y).
    + eapply tri_modify; [apply HI|by apply tri_enter; [|exists x]|done|done|done| |].
      * rw /= -Permutation_middle. apply NoDup_cons. split; [done|apply HT].
      * intros c Hc. simpl. split_and!; try done. rw elem_of_cons. intuition.
    + by rw /= lookup_insert_eq.
    + right. split; [done|]. split; [by rw /= Hb|]. split; [left; apply list_elem_of_here|by left].
Qed.

Lemma store_table_inv g t x b v : inv g -> store_ok g t x b -> skel_of (body x) = SkTable -> alive g t -> Forall (alive g) (vref v) ->
  store_refs_ok g x b v -> exists g', store_table g t b v = Ok g' /\ inv g' /\ keeps g g' /\ (skel_of b = skel_of (body x) -> same_sk g g').
Proof.
  intros HI HO Hk Ht Hv Hsub. pose proof (so_object _ _ _ _ HO) as Hx. rw /store_table (set_body_eq _ _ _ _ Hx) Ok_bind. set (g1 := put g t (mkObject (marked x) b)).
  assert (heap g1 !! t = Some (mkObject (marked x) b)) as Hx1 by (rw /g1 /= lookup_insert_eq //). pose proof (keeps_put_same g t x b Hx : keeps g g1) as HK. pose proof (same_sk_put g t x (marked x) b Hx : _ -> same_sk g g1) as HSK.
  destruct v as [| |c]; try (exists g1; split; [done|]; split; [by eapply store_covered|done]). apply Forall_cons in Hv as [(y & Hy & Hdy) _]. rw /luaC_barriert /luaC_objbarriert.
  assert (exists y1, heap g1 !! c = Some y1 /\ marked y1 = marked y) as (y1 & Hy1 & Hm1).
  { destruct (decide (c = t)) as [->|Hne]; [exists (mkObject (marked x) b); split; [done|]; simpl; congruence|]. exists y. by rw lookup_put_ne. }
  rw (get_eq _ _ _ Hy1) Ok_bind Hm1. destruct (iswhite (marked y)) eqn:Hw; [|exists g1; split; [done|]; split; [|done]; eapply store_covered; try done; apply Forall_singleton; by exists y].
  rw (get_eq _ _ _ Hx1) Ok_bind /=. destruct (isblack (marked x)) eqn:Hbl; [|exists g1; split; [done|]; split; [|done]; apply store_inv; [done|done|by intros _; congruence]].
  destruct Ht as (z & Hz & Hdz). assert (z = x) as -> by congruence. rw /luaC_barrierback (get_eq _ _ _ Hx1) Ok_bind /= Hbl Hdz /=.
  assert (gcstate g <> GCSfinalize /\ gcstate g <> GCSpause) as Hph.
  { assert (~ all_clean g) as Hnc.
    { intros Hc. assert (t ∉ tmudata g) as Hni by (intros Hin; pose proof (s_tmu _ (i_shape _ HI) t Hin) as Hkt; rw (sk_lookup _ _ _ Hx) Hk in Hkt; done).
      destruct (Hc t x Hx Hni) as [Hwx _]. destruct (i_sane _ HI t x Hx) as (_ & Hsx & _). by rw Hwx Hbl in Hsx. }
    pose proof (i_phase _ HI) as Hp. split; intros Hs; rw /phase_inv Hs in Hp; exact (Hnc (proj2 Hp)). }
  rw bool_decide_true //= (set_marks_eq _ _ _ _ Hx1) Ok_bind. rw put_put. eexists. split; [done|]. simpl.
  split; [|split; [apply (keeps_put g t); apply nonwhite_alive, isgray_nonwhite, black2gray_gray, (sane_black _ (i_sane _ HI t x Hx) Hbl)|by apply same_sk_put]].
  pose proof (inv_barrierback g t x HI Hx Hbl Hdz Hk) as HI0. set (g0 := set_lists (put g t (mkObject (black2gray (marked x)) (body x))) (gray g) (t :: grayagain g) (weak g)) in *.
  assert (heap g0 !! t = Some (mkObject (black2gray (marked x)) (body x))) as Hx0 by (rw /g0 /= lookup_insert_eq //).
  assert (store_ok g0 t (mkObject (black2gray (marked x)) (body x)) b) as HO0.
  { assert (forall a, sk g0 a = sk g a) as Hsk by (intros a; apply (put_sk g t x _ a Hx)). assert (refs (heap g0) b = refs (heap g) b) as Hrefs.
    { apply refs_same. apply (put_bodies g t x _ Hx). }
    destruct HO as [_ ? ? Hkind HF Hty]. split; try done; [left; destruct Hkind as [?|(n & top & n' & top' & ups & Hk1 & _)]; [done|congruence]| |by apply (typed_sk g)]. rw Hrefs.
    eapply Forall_impl; [exact HF|]. intros a (w & Hwa & Hda). destruct (decide (a = t)) as [->|]; [|exists w; by rw /g0 /= lookup_insert_ne].
    eexists. split; [exact Hx0|]. simpl. apply nonwhite_alive, isgray_nonwhite, black2gray_gray, (sane_black _ (i_sane _ HI t x Hx) Hbl). }
  assert (inv (put g0 t (mkObject (black2gray (marked x)) b))) as HI2 by (by apply (store_inv g0 t _ b HI0 HO0)).
  assert (put g0 t (mkObject (black2gray (marked x)) b) = set_lists (put g t (mkObject (black2gray (marked x)) b)) (gray g) (t :: grayagain g) (weak g)) as <-; [|done].
  rw /g0 /put /= insert_insert_eq //.
Qed.

(** *** Stacks *)

(** Values are stored in a stack, and its top changes; there is no barrier. *)
Lemma store_stack_inv g th x b : inv g -> store_ok g th x b -> (exists n top ups, skel_of (body x) = SkThread n top ups) -> exists g', set_body g th b = Ok g' /\ inv g' /\ keeps g g'.
Proof.
  intros HI HO (n & top & ups & (gt & st & cis & Hb & _)%skel_thread). pose proof (so_object _ _ _ _ HO) as Hx. rw (set_body_eq _ _ _ _ Hx). eexists. split; [done|]. split; [|by apply keeps_put_same].
  apply store_inv; [done|done|]. intros _ Hbl. destruct (i_sane _ HI th x Hx) as (_ & _ & Hnb & _). by rw Hb Hbl in Hnb.
Qed.

