(* ===== verification/LuaGCUpval.v ===== *)
(** LuaGCUpval: the functions of lfunc.c that find, make and close the upvalues of running
    functions keep the invariant of the collector. *)

From Corelib Require Import ssreflect.
From stdpp Require Import base list gmap numbers strings.
From Stdlib Require Import ZArith Lia.
From S2P Require Import Prelude LuaHeap LuaGC LuaGCMark LuaGCInv LuaGCTri LuaGCAtomic LuaGCFinal LuaGCPhase LuaGCSweep LuaGCClose LuaGCStep LuaGCMut LuaGCStore.

Implicit Type g : global_State.

Definition is_closure (b : gcbody) : bool := match b with BLClosure _ _ _ | BCClosure _ _ => true | _ => false end.

(** ** luaF_findupval() *)

Lemma find_place_spec ups level g th : Forall (fun uv => exists i, sk g uv = Some (SkOpen th i)) ups ->
  exists before after r, find_place ups level g = Ok (before, after, r) /\ ups = before ++ after /\
    match r with Some p => p ∈ ups /\ sk g p = Some (SkOpen th level) | None => True end.
Proof.
  induction ups as [|p ups IH]; intros Hups; [by exists [], [], None|]. apply Forall_cons in Hups as [(i & Hp) Hups]. destruct (sk_inv _ _ _ Hp) as (x & Hx & Hb%skel_open).
  cbn [find_place]. rw (get_eq _ _ _ Hx) Ok_bind Hb. destruct (decide (level <= i)%nat); [|by exists [], (p :: ups), None].
  destruct (decide (i = level)) as [->|]; [exists [], (p :: ups), (Some p); split; [done|]; split; [done|]; split; [apply list_elem_of_here|done]|].
  destruct (IH Hups) as (before & after & r & -> & -> & Hr). rw Ok_bind. exists (p :: before), after, r. split; [done|]. split; [done|]. destruct r as [q|]; [|done].
  destruct Hr as [? ?]. split; [by apply list_elem_of_further|done].
Qed.

(** The value of an open upvalue of a thread that is alive is alive. *)
Lemma open_refs_alive g uv x th i : base g -> heap g !! uv = Some x -> body x = BUpval (UOpen th i) -> alive g th -> Forall (alive g) (refs (heap g) (body x)) /\ typed g (body x).
Proof.
  intros HI Hx Hb (y & Hy & Hd). rw Hb. split; [|done]. assert (sk g uv = Some (SkOpen th i)) as Huv by (by rw (sk_lookup _ _ _ Hx) Hb).
  destruct (s_open _ (i_shape _ HI) _ _ _ Huv) as (n & top & ups & Hth & _ & Hi). destruct (sk_inv _ _ _ Hth) as (z & Hz & (gt & st & cis & Hbz & _)%skel_thread). assert (z = y) as -> by congruence.
  destruct (i_closed _ HI th y Hy Hd) as [HF _]. rw /= /upval_refs /= /stack_slot Hy /= Hbz /=. destruct (st !! i) as [v|] eqn:Hv; [|done]. rw Hbz /= in HF. apply Forall_app in HF as [_ HF].
  rw Forall_forall in HF. apply Forall_forall. intros c Hc. apply HF. apply list_elem_of_bind. exists v. split; [done|]. apply (list_elem_of_lookup_2 _ i). by rw lookup_take_lt.
Qed.

Section new_upval.
Context (g : global_State) (th new : loc) (n top level : nat) (before after : list loc).
Context (HI : inv g) (Hth : sk g th = Some (SkThread n top (before ++ after))) (Hlevel : (level < top)%nat) (Hnew : heap g !! new = None) (Halive : alive g th).

Let y : GCObject := mkObject (luaC_white (currentwhite g)) (BUpval (UOpen th level)).
Let g' : global_State := set_uvhead (with_ups th (before ++ new :: after) (put g new y)) (new :: uvhead g).

Lemma new_ne : new <> th.
Proof using Hth Hnew. intros Heq. pose proof Hth as Ht. by rw -Heq /sk Hnew in Ht. Qed.

Lemma new_sk c : sk g' c = if decide (c = new) then Some (SkOpen th level) else if decide (c = th) then Some (SkThread n top (before ++ new :: after)) else sk g c.
Proof using Hth Hnew.
  pose proof new_ne as Hne. assert (sk (put g new y) th = Some (SkThread n top (before ++ after))) as Hth1 by (rw -Hth /sk /= lookup_insert_ne //).
  change (sk g' c) with (sk (with_ups th (before ++ new :: after) (put g new y)) c). rw (with_ups_sk _ _ _ _ _ _ _ Hth1).
  destruct (decide (c = th)) as [->|]; [destruct (decide (th = new)); [congruence|done]|]. rw /sk /=. destruct (decide (c = new)) as [->|]; [by rw lookup_insert_eq|by rw lookup_insert_ne].
Qed.

Lemma new_lookup c z' : heap g' !! c = Some z' -> c = new /\ z' = y \/ c <> new /\ exists z, heap g !! c = Some z /\ marked z' = marked z /\ (c <> th /\ z' = z \/ c = th /\ z' = set_ups (before ++ new :: after) z).
Proof using Hth Hnew.
  intros (z & Hz & Hm & Hor)%(with_ups_lookup th (before ++ new :: after) (put g new y)). apply put_lookup in Hz as [[-> ->]|[Hne Hz]]; [|right; split; [done|]; by exists z].
  left. split; [done|]. destruct Hor as [[_ ->]|[Heq _]]; [done|]. by destruct new_ne.
Qed.

Lemma new_keep c z : heap g !! c = Some z -> exists z', heap g' !! c = Some z' /\ marked z' = marked z.
Proof using Hnew.
  intros Hz. assert (c <> new) by congruence. rw /g' /=. destruct (decide (c = th)) as [->|]; [rw lookup_alter_eq lookup_insert_ne // Hz; by eexists|rw lookup_alter_ne // lookup_insert_ne //; by exists z].
Qed.

Lemma new_slots a j : stack_slot (heap g') a j = stack_slot (heap g) a j.
Proof using Hnew.
  rw /g' /= slot_set_ups. rw /stack_slot. destruct (decide (a = new)) as [->|]; [by rw lookup_insert_eq Hnew|by rw lookup_insert_ne].
Qed.

Lemma new_shape : shape g'.
Proof using HI Hth Hlevel Hnew.
  clear Halive. pose proof (i_shape _ HI) as HS. pose proof new_ne as Hne. pose proof new_sk as Hsk. assert (sk g new = None) as Hkn by (by rw /sk Hnew).
  assert (forall c k, sk g c = Some k -> c <> th -> sk g' c = Some k) as Hkeep.
  { intros c k Hc Hct. rw Hsk. destruct (decide (c = new)) as [->|]; [congruence|]. by destruct (decide (c = th)). }
  assert (forall c k, sk g c = Some k -> (forall a b d, k <> SkThread a b d) -> sk g' c = Some k) as Hkeep'.
  { intros c k Hc Hk. apply Hkeep; [done|]. intros ->. rw Hth in Hc. injection Hc as <-. by eapply Hk. }
  assert (sk g' th = Some (SkThread n top (before ++ new :: after))) as Hth' by (rw Hsk; destruct (decide (th = new)); [congruence|]; by destruct (decide (th = th))).
  assert (sk g' new = Some (SkOpen th level)) as Hnew' by (rw Hsk; by destruct (decide (new = new))).
  assert (forall c k, sk g' c = Some k -> c = new /\ k = SkOpen th level \/ c = th /\ k = SkThread n top (before ++ new :: after) \/ c <> new /\ c <> th /\ sk g c = Some k) as Hback.
  { intros c k. rw Hsk. destruct (decide (c = new)); [intros [= <-]; by left|]. destruct (decide (c = th)); [intros [= <-]; by right; left|by right; right]. }
  assert (forall c, (exists a b d, sk g c = Some (SkThread a b d)) -> exists a b d, sk g' c = Some (SkThread a b d)) as Hthr.
  { intros c (a & b & d & Hc). destruct (decide (c = th)) as [->|]; [eauto|]. exists a, b, d. by apply Hkeep. }
  destruct (s_thread _ HS _ _ _ _ Hth) as (Hnd & Htop & HF).
  split; try apply HS; rw /g' /=.
  - intros c k [[-> ->]|[[-> ->]|(_ & _ & Hc)]]%Hback; [apply list_elem_of_here|apply (s_home _ HS th _ Hth)|]. pose proof (s_home _ HS c k Hc) as Hin. destruct k; simpl in *; try done. by apply list_elem_of_further.
  - intros c Hc. destruct (s_root _ HS c Hc) as (k & Hk & Hr). destruct (decide (c = th)) as [->|]; [by eexists; split; [exact Hth'|]|]. exists k. split; [by apply Hkeep|done].
  - intros c Hc. by apply Hkeep'; [apply (s_strt _ HS)|].
  - intros c Hc. by apply Hkeep'; [apply (s_tmu _ HS)|].
  - intros c [->|Hc]%elem_of_cons; [by exists th, level|]. destruct (s_uv _ HS c Hc) as (a & i & ?). exists a, i. by apply Hkeep'.
  - apply NoDup_cons. split; [|apply HS]. intros Hin. destruct (s_uv _ HS new Hin) as (a & i & ?). congruence.
  - destruct (s_main _ HS) as (pre & post & Hr & Hp). exists pre, post. split; [done|]. eapply Forall_impl; [exact Hp|]. intros c Hc. by apply Hkeep'.
  - apply Hthr, HS.
  - apply Hthr, HS.
  - intros c a b d [[_ ?]|[[-> [= -> -> ->]]|(Hcn & Hct & Hc)]]%Hback; [done|..].
    + split; [|split; [done|]].
      * rw -Permutation_middle. apply NoDup_cons. split; [|done]. intros Hin. destruct (proj1 (Forall_forall _ _) HF new Hin) as (i & ?). congruence.
      * apply Forall_forall. intros uv Huv. assert (uv = new \/ uv ∈ before ++ after) as [->|Hin] by set_solver; [by exists level|].
        destruct (proj1 (Forall_forall _ _) HF uv Hin) as (i & ?). exists i. by apply Hkeep'.
    + destruct (s_thread _ HS _ _ _ _ Hc) as (? & ? & HF2). split; [done|]. split; [done|]. eapply Forall_impl; [exact HF2|]. intros uv (i & Huv). exists i. by apply Hkeep'.
  - intros uv a i [[-> [= -> ->]]|[[_ ?]|(Hun & Hut & Hc)]]%Hback; [|done|].
    + exists n, top, (before ++ new :: after). split; [done|]. split; [set_solver|done].
    + destruct (s_open _ HS _ _ _ Hc) as (n2 & top2 & ups2 & Ha & Hin & Hi). destruct (decide (a = th)) as [->|Hat].
      * rw Hth in Ha. injection Ha as <- <- <-. exists n, top, (before ++ new :: after). split; [done|]. split; [set_solver|done].
      * exists n2, top2, ups2. split; [by apply Hkeep|done].
Qed.

Lemma new_clean : clean (currentwhite g) y.
Proof using HI. apply luaC_white_clean, HI. Qed.

(** The value of the slot is alive as the thread is. *)
Lemma new_refs : Forall (alive g) (refs (heap g) (BUpval (UOpen th level))).
Proof using HI Hth Hlevel Halive.
  destruct Halive as (z & Hz & Hd). destruct (i_closed _ HI th z Hz Hd) as [HF _]. destruct (sk_inv _ _ _ Hth) as (z' & Hz' & (gt & st & cis & Hbz & _)%skel_thread). assert (z' = z) as -> by congruence.
  rw /= /upval_refs /= /stack_slot Hz /= Hbz /=. destruct (st !! level) as [v|] eqn:Hv; [|done]. rw Hbz /= in HF. apply Forall_app in HF as [_ HF].
  rw Forall_forall in HF. apply Forall_forall. intros c Hc. apply HF. apply list_elem_of_bind. exists v. split; [done|]. apply (list_elem_of_lookup_2 _ level). by rw lookup_take_lt.
Qed.

Lemma new_refs_eq c z' z : c <> new -> z' = z \/ z' = set_ups (before ++ new :: after) z -> refs (heap g') (body z') = refs (heap g) (body z).
Proof using Hnew.
  intros Hc [->| ->]; [apply refs_slots; intros a i _; apply new_slots|apply refs_set_ups; apply new_slots].
Qed.

Lemma new_base : base g'.
Proof using HI Hth Hlevel Hnew Halive.
  assert (forall c k, k = SkTable \/ k = SkString -> sk g c = Some k -> sk g' c = Some k) as Hsk.
  { intros c k Hk Hc. rw new_sk. destruct (decide (c = new)) as [->|]; [by rw /sk Hnew in Hc|]. destruct (decide (c = th)) as [->|]; [|done]. rw Hth in Hc. injection Hc as <-. by destruct Hk. }
  apply (base_transfer g); try done; [apply HI|apply new_shape|..].
  - intros c z' [[-> ->]|[_ (z & Hz & _ & Hor)]]%new_lookup.
    + destruct (i_white _ HI) as (wb & wf & Hwb). rw /sane_object /y /= Hwb /iswhite /isblack /isgray /=. by destruct wb.
    + destruct Hor as [[_ ->]|[_ ->]]; [|apply set_ups_sane]; by apply (i_sane _ HI c).
  - intros c z' [[-> ->]|[Hne (z & Hz & Hm & Hor)]]%new_lookup Hd.
    + rw (refs_slots (heap g)); [by intros a i _; apply new_slots|]. split; [apply new_refs|done].
    + rw Hm in Hd. destruct (i_closed _ HI c z Hz Hd) as [HF Ht]. rw (new_refs_eq c z' z Hne); [destruct Hor as [[_ ->]|[_ ->]]; auto|]. split; [done|].
      eapply (typed_mono g); [destruct Hor as [[_ ->]|[_ ->]]; [exact Ht|by apply set_ups_typed]| |by intros a k _; apply Hsk].
      destruct Hor as [[_ ->]|[_ ->]]; [done|]. by rw (refs_set_ups (heap g)).
  - intros c (z & Hz & Hd). destruct (new_keep c z Hz) as (z' & Hz' & Hm). exists z'. by rw Hm.
  - apply HI.
  - apply HI.
  - intros c z' [[-> ->]|[Hne (z & Hz & Hm & Hor)]]%new_lookup Hf; [done|]. rw Hm in Hf. destruct (i_fixed _ HI c z Hz Hf) as [Hk|?]; [|by right]. left.
    destruct Hor as [[_ ->]|[_ ->]]; [done|by apply set_ups_string].
Qed.

Lemma new_quiet : quiet g g'.
Proof using HI Hth Hnew.
  clear Halive Hlevel. split; try done.
  - intros c (z & Hz & Hc). destruct (new_keep c z Hz) as (z' & Hz' & Hm). exists z'. by rw /clean Hm.
  - intros c z' [[-> ->]|[_ (z & Hz & Hm & _)]]%new_lookup Hd; [|exists z; by rw -Hm]. exfalso. destruct new_clean. congruence.
  - intros c z' [[-> ->]|[_ (z & Hz & Hm & _)]]%new_lookup; [left; apply new_clean|right; by exists z].
  - intros c Hc. by left.
  - intros _. split; [done|]. split; [done|]. intros c Hc. by left.
  - intros c Hc. by left.
  - intros c a b d uv. rw new_sk. destruct (decide (c = new)); [done|]. destruct (decide (c = th)) as [->|]; [|intros Hc Hin; right; by exists a, b, d].
    intros [= <- <- <-] Hin. assert (uv = new \/ uv ∈ before ++ after) as [->|Hin'] by set_solver; [left|right; by exists n, top, (before ++ after)].
    exists y. rw /g' /= lookup_alter_ne; [apply not_eq_sym, new_ne|]. rw lookup_insert_eq. split; [done|apply new_clean].
Qed.

Lemma new_inv : inv g'.
Proof using HI Hth Hlevel Hnew Halive.
  eapply inv_quiet; [done|apply new_base|apply new_quiet|done|done|]. intros _ _ HT. apply (tri_quiet _ g); try done; [apply new_base|..].
  - intros c z' [[-> ->]|[Hne (z & Hz & Hm & Hor)]]%new_lookup Hw; [destruct new_clean; congruence|]. exists z. split; [done|]. split; [done|].
    assert (z' = z \/ z' = set_ups (before ++ new :: after) z) as Hor' by (destruct Hor as [[_ ->]|[_ ->]]; auto). rw (new_refs_eq c z' z Hne Hor').
    destruct Hor as [[_ ->]|[_ ->]]; [by split_and!; auto|]. rw /set_ups /=. by destruct (body z) as [| |[]| | | | |]; split_and!; auto.
  - intros c z Hz _. assert (c <> new) as Hcn by congruence. rw /g' /=. destruct (decide (c = th)) as [->|].
    + exists (set_ups (before ++ new :: after) z). rw lookup_alter_eq lookup_insert_ne // Hz. split; [done|]. split; [done|]. rw /set_ups /=. by destruct (body z).
    + exists z. rw lookup_alter_ne // lookup_insert_ne //.
Qed.
End new_upval.

Lemma keeps_ups th ups g : keeps g (with_ups th ups g).
Proof. intros c. by rw with_ups_alive. Qed.

(** The upvalue of a slot in use of a thread that is alive. *)
Lemma luaF_findupval_inv g th n top ups level new : inv g -> sk g th = Some (SkThread n top ups) -> alive g th -> (level < top)%nat -> heap g !! new = None ->
  exists uv g', luaF_findupval g th level new = Ok (uv, g') /\ inv g' /\ keeps g g' /\ sk g' uv = Some (SkOpen th level) /\ alive g' uv /\
    (exists ups', sk g' th = Some (SkThread n top ups')) /\ forall c x, heap g !! c = Some x -> is_closure (body x) = true -> heap g' !! c = Some x.
Proof.
  intros HI Hth Hal Hl Hnew. destruct (s_thread _ (i_shape _ HI) _ _ _ _ Hth) as (_ & _ & HF). destruct (find_place_spec ups level g th HF) as (before & after & r & Hp & -> & Hr).
  destruct (sk_inv _ _ _ Hth) as (z & Hz & (gt & st & cis & Hbz & _)%skel_thread). rw /luaF_findupval (get_eq _ _ _ Hz) Ok_bind Hbz Hp Ok_bind. destruct r as [p|].
  - destruct Hr as [_ Hsp]. destruct (sk_inv _ _ _ Hsp) as (x & Hx & Hb%skel_open). rw (get_eq _ _ _ Hx) Ok_bind.
    destruct (isdead (currentwhite g) (marked x)) eqn:Hd; [|exists p, g; split_and!; try done; [by exists x|by eexists]].
    rw (set_marks_eq _ _ _ _ Hx) Ok_bind. eexists _, _. split; [done|]. split; [apply inv_resurrect; [done..|exact (open_refs_alive g p x th level HI Hx Hb Hal)]|].
    destruct (changewhite_spec _ _ (i_white _ HI) Hd) as (Hd' & _); [by apply (i_sane _ HI p x)|]. split; [by apply keeps_put|]. split; [by rw (put_sk g p x)|].
    split; [eexists; by rw /= lookup_insert_eq|]. split; [eexists; by rw (put_sk g p x)|]. intros c z' Hz' Hc. rw /= lookup_insert_ne //. intros ->. assert (z' = x) as -> by congruence. by rw Hb in Hc.
  - assert (new <> th) as Hne by (intros ->; congruence). set (g1 := put g new (mkObject (luaC_white (currentwhite g)) (BUpval (UOpen th level)))).
    assert (sk g1 th = Some (SkThread n top (before ++ after))) as Hth1 by (by rw -Hth /sk /= lookup_insert_ne).
    pose proof (luaC_white_clean _ (BUpval (UOpen th level)) (i_white _ HI)) as [_ Hd]. rw (set_openupval_eq _ _ _ _ _ _ Hth1) Ok_bind. eexists _, _. split; [done|].
    split; [exact (new_inv g th new n top level before after HI Hth Hl Hnew Hal)|]. pose proof (new_sk g th new n top level before after Hth Hnew) as Hsk.
    split; [etrans; [by apply (keeps_put g new (mkObject (luaC_white (currentwhite g)) (BUpval (UOpen th level))))|apply keeps_ups]|].
    split; [rw Hsk; by destruct (decide (new = new))|]. split; [eexists; rw /= lookup_alter_ne // lookup_insert_eq; done|].
    split; [eexists; rw Hsk; destruct (decide (th = new)); [congruence|]; by destruct (decide (th = th))|].
    intros c z' Hz' Hc. assert (c <> new) by congruence. rw /= lookup_alter_ne ?lookup_insert_ne //. intros <-. assert (z' = z) as -> by congruence. by rw Hbz in Hc.
Qed.

(** ** luaF_close() *)

(** An upvalue that is closed, with the marks [m]. *)
Definition closed_as (uv th : loc) (R : list loc) (m : marks) (v : gcvalue) g : global_State :=
  root_insert (put (unlinkupval (with_ups th R g) uv) uv (mkObject m (BUpval (UClosed v)))) 0 uv.

Section close_upval.
Context (g : global_State) (uv th : loc) (i : nat) (R : list loc) (x : GCObject) (v : gcvalue) (n top : nat).
Context (HI : inv g) (Hth : sk g th = Some (SkThread n top (uv :: R))).
Context (Hx : heap g !! uv = Some x) (Hb : body x = BUpval (UOpen th i)) (Hv : stack_slot (heap g) th i = Some v).

Lemma closed_sk m c : sk (closed_as uv th R m v g) c = if decide (c = uv) then Some SkOther else if decide (c = th) then Some (SkThread n top R) else sk g c.
Proof using Hth.
  rw -(with_ups_sk th R g c n top (uv :: R) Hth) /sk /=. destruct (decide (c = uv)) as [->|]; [by rw lookup_insert_eq|by rw lookup_insert_ne].
Qed.

Lemma closed_thread m : sk (closed_as uv th R m v g) th = Some (SkThread n top R).
Proof using Hth Hx Hb.
  rw closed_sk. destruct (decide (th = uv)) as [Heq|]; [|by destruct (decide (th = th))]. pose proof Hth as Ht. by rw Heq (sk_lookup _ _ _ Hx) Hb in Ht.
Qed.

Lemma closed_lookup m c y' : heap (closed_as uv th R m v g) !! c = Some y' -> c = uv /\ y' = mkObject m (BUpval (UClosed v)) \/
  c <> uv /\ exists y, heap g !! c = Some y /\ marked y' = marked y /\ (y' = y \/ y' = set_ups R y).
Proof using.
  intros Hy. apply put_lookup in Hy as [?|[Hne (y & Hy & Hm & Hor)%with_ups_lookup]]; [by left|right]. split; [done|]. exists y. split; [done|]. split; [done|].
  destruct Hor as [[_ ->]|[_ ->]]; auto.
Qed.

Lemma closed_keep m c y : heap g !! c = Some y -> c <> uv -> exists y', heap (closed_as uv th R m v g) !! c = Some y' /\ marked y' = marked y /\ (y' = y \/ y' = set_ups R y).
Proof using.
  intros Hy Hne. rw /= lookup_insert_ne //. destruct (decide (c = th)) as [->|]; [rw lookup_alter_eq Hy /=; eexists; split; [done|]; auto|rw lookup_alter_ne //; exists y; auto].
Qed.

Lemma closed_slots m a j : stack_slot (heap (closed_as uv th R m v g)) a j = stack_slot (heap g) a j.
Proof using Hx Hb.
  rw /=. destruct (decide (a = uv)) as [->|Hne]; [by rw /stack_slot lookup_insert_eq Hx /= Hb|]. rw -(slot_set_ups (heap g) th R). by rw /stack_slot lookup_insert_ne.
Qed.

Lemma closed_refs m y y' : y' = y \/ y' = set_ups R y -> refs (heap (closed_as uv th R m v g)) (body y') = refs (heap g) (body y).
Proof using Hx Hb. intros [->| ->]; [apply refs_slots; intros a j _; apply closed_slots|apply refs_set_ups, closed_slots]. Qed.

Lemma closed_base m : isdead (currentwhite g) (marked x) = false -> sane_object (mkObject m (BUpval (UClosed v))) -> isdead (currentwhite g) m = false ->
  fixed m = fixed (marked x) -> base (closed_as uv th R m v g).
Proof using HI Hth Hx Hb Hv.
  intros Hd Hs Hdm Hf. assert (base (with_root [] g)) as HB by (apply (base_ext g); try done; apply HI).
  pose proof (base_close [] uv th i R g x v n top HB ltac:(apply not_elem_of_nil) Hth Hx Hb Hv Hd) as HC.
  assert (base (closed_as uv th R (marked x) v g)) as HC' by (by apply (base_ext (with_root [] (closed_upval uv th R x v g)))).
  assert (closed_as uv th R m v g = put (closed_as uv th R (marked x) v g) uv (mkObject m (BUpval (UClosed v)))) as ->.
  { rw /closed_as /root_insert /put /= insert_insert_eq //. }
  apply (base_recolour _ uv (mkObject (marked x) (BUpval (UClosed v)))); try done; [by rw /= lookup_insert_eq|by left].
Qed.

(** An upvalue that becomes white, or is so. *)
Lemma closed_quiet m : clean (currentwhite g) (mkObject m (BUpval (UClosed v))) -> quiet g (closed_as uv th R m v g).
Proof using HI Hth Hx Hb.
  intros Hcl. set (g' := closed_as uv th R m v g). assert (clean_at g' uv) as Huv by (eexists; split; [apply lookup_insert_eq|done]).
  split; try done.
  - intros c (y & Hy & Hc). destruct (decide (c = uv)) as [->|Hne]; [done|]. destruct (closed_keep m c y Hy Hne) as (y' & Hy' & Hm & _). exists y'. by rw /clean Hm.
  - intros c y' [[-> ->]|[_ (y & Hy & Hm & _)]]%closed_lookup Hd; [destruct Hcl; simpl in *; congruence|]. exists y. by rw -Hm.
  - intros c y' [[-> ->]|[_ (y & Hy & Hm & _)]]%closed_lookup; [by left|right; by exists y].
  - intros c Hc. by left.
  - intros _. split; [done|]. split; [done|]. intros c Hc. by left.
  - rw /g' /=. split; [intros ->; by destruct (decide (0 < 0)%nat); [lia|]|]. rw drop_0. destruct (decide (0 < sweepgc g)%nat); lia.
  - intros c. rw /g' /=. destruct (decide (0 < sweepgc g)%nat); [|by replace (sweepgc g) with 0%nat by lia; intros ?%elem_of_nil]. rw /= drop_0.
    intros [->|Hc]%elem_of_cons; [right|by left]. split; [done|]. intros a b d. rw closed_sk. by destruct (decide (uv = uv)).
  - intros c a b d u. rw closed_sk. destruct (decide (c = uv)); [done|]. destruct (decide (c = th)) as [->|]; [|intros Hc Hin; right; by exists a, b, d].
    intros [= <- <- <-] Hin. right. exists n, top, (uv :: R). split; [done|by apply list_elem_of_further].
Qed.

(** While objects are marked; an upvalue that is not white has yet to be looked at. *)
Lemma closed_tri m : sane (closed_as uv th R m v g) -> iswhite m = iswhite (marked x) -> tri (fun _ => True) (tmudata g) [] g ->
  tri (fun _ => True) (tmudata g) (if iswhite m then [] else [uv]) (closed_as uv th R m v g) /\ forall c, nonwhite g c -> nonwhite (closed_as uv th R m v g) c.
Proof using HI Hth Hx Hb Hv.
  intros Hs Hm HT. set (C := if iswhite m then [] else [uv]). assert (tri (fun _ => True) (tmudata g) C g) as HT'.
  { rw /C. destruct (iswhite m) eqn:Hw; [done|]. apply tri_enter; [done|]. exists x. split; [done|congruence]. }
  assert (forall c y, c ∉ C -> iswhite (marked y) = false -> (heap g !! c = Some y \/ c = uv /\ marked y = m) -> c <> uv) as Hne.
  { intros c y Hc Hw Hor ->. rw /C in Hc. destruct (iswhite m) eqn:Hwm; [|set_solver]. destruct Hor as [Hy|[_ ?]]; [|congruence]. assert (y = x) by congruence. congruence. }
  apply (tri_changed _ _ g); try done.
  - intros c y' Hy' Hw HC. destruct (closed_lookup _ _ _ Hy') as [[-> ->]|[_ (y & Hy & Hmy & Hor)]]; [by destruct (Hne uv _ HC Hw); auto|]. exists y. split; [done|]. split; [done|].
    rw (closed_refs m y y' Hor). destruct Hor as [->| ->]; [by split_and!; auto|]. rw /set_ups /=. by destruct (body y) as [| |[]| | | | |]; split_and!; auto.
  - intros c y Hy Hw HC. destruct (closed_keep m c y Hy) as (y' & Hy' & Hmy & Hor); [by apply (Hne c y); auto|]. exists y'. split; [done|]. split; [done|].
    destruct Hor as [->| ->]; [done|]. rw /set_ups /=. by destruct (body y).
  - intros c. rw /C. destruct (iswhite m) eqn:Hw; [by intros ?%elem_of_nil|]. intros ->%list_elem_of_singleton. eexists. split; [apply lookup_insert_eq|done].
Qed.

Lemma closed_keeps m : isdead (currentwhite g) m = false -> keeps g (closed_as uv th R m v g).
Proof using. intros Hd c Hc. by apply (keeps_put (unlinkupval (with_ups th R g) uv) uv (mkObject m (BUpval (UClosed v)))), (keeps_ups th R g). Qed.

(** *** The cases of luaC_linkupval() *)

Lemma close_white : iswhite (marked x) = true -> isdead (currentwhite g) (marked x) = false -> inv (closed_as uv th R (marked x) v g).
Proof using HI Hth Hx Hb Hv.
  intros Hw Hd. assert (sane_object (mkObject (marked x) (BUpval (UClosed v)))) as Hs.
  { destruct (i_sane _ HI uv x Hx) as (? & Hs & _). rw /sane_object /=. by rw Hw /= in Hs; rw Hs Hw. }
  eapply inv_quiet; [done|by apply closed_base|by apply closed_quiet|done|done|]. intros _ _ HT. destruct (closed_tri (marked x)) as [HT' Hn]; [by apply closed_base|done|done|].
  by rw Hw in HT'.
Qed.

Lemma close_sweep : isgray (marked x) = true -> gcstate g <> GCSpropagate -> inv (closed_as uv th R (makewhite (currentwhite g) (marked x)) v g).
Proof using HI Hth Hx Hb Hv.
  intros Hg Hs. destruct (makewhite_alive _ (marked x) (i_white _ HI)) as (Hd1 & Hw1 & _).
  eapply inv_quiet; [done| |by apply closed_quiet|done|done|done]. apply closed_base; try done; [by apply nonwhite_alive, isgray_nonwhite|].
  apply sane_makewhite, HI.
Qed.

Lemma close_mark : isgray (marked x) = true -> gcstate g = GCSpropagate ->
  exists g', luaC_barrier (closed_as uv th R (gray2black (marked x)) v g) uv v = Ok g' /\ inv g' /\ keeps g g' /\ sk g' th = Some (SkThread n top R).
Proof using HI Hth Hx Hb Hv.
  intros Hg Hst. pose proof (isgray_nonwhite _ Hg) as Hw. pose proof (nonwhite_alive (currentwhite g) _ Hw) as Hd. set (m := gray2black (marked x)). set (g1 := closed_as uv th R m v g).
  set (y := mkObject m (BUpval (UClosed v))). assert (heap g1 !! uv = Some y) as Hy by (by rw /g1 /= lookup_insert_eq).
  assert (sane_object y) as Hsy by (apply (sane_blacken (mkObject (marked x) (BUpval (UClosed v)))); [|done|done]; destruct (i_sane _ HI uv x Hx) as (H01 & ? & ? & ?); rw /sane_object /= H01 Hw /=; done).
  assert (iswhite m = false) as Hwm by done. assert (isdead (currentwhite g) m = false) as Hdm by (by apply nonwhite_alive).
  pose proof (closed_base m Hd Hsy Hdm eq_refl : base g1) as HB1. pose proof (i_phase _ HI) as Hp. rw /phase_inv Hst in Hp. destruct Hp as (Hnd & HT & Hmain & Hreg).
  destruct (closed_tri m) as [HT1 Hn]; [apply HB1|by rw Hw|done|]. rw Hwm in HT1. change (closed_as uv th R m v g) with g1 in HT1, Hn.
  assert (none_dead g1) as Hnd1.
  { intros c z' [[-> ->]|[_ (z & Hz & Hmz & _)]]%closed_lookup; [done|]. rw Hmz. by apply (Hnd c). }
  assert (Forall (nonwhite g1) (vref (l_registry g1))) as Hreg1 by (eapply Forall_impl; [exact Hreg|apply Hn]).
  assert (uv ∉ gray g1 ++ grayagain g1 ++ weak g1) as Hni.
  { intros Hin. destruct (t_waiting _ _ _ _ HT uv Hin (not_elem_of_nil _)) as (z & Hz & _ & Ht). assert (z = x) as -> by congruence. by rw Hb in Ht. }
  assert (Forall (nonwhite g1) (vref v) -> inv g1) as Hdone.
  { intros HF. split; [done|]. rw /phase_inv. change (gcstate g1) with (gcstate g). rw Hst. split; [done|]. split; [|split; [by apply Hn|done]].
    eapply (tri_leave _ _ _ uv y); [done|done|]. left. split; [done|]. split; [done|]. exists y. by rw /= /upval_refs /=. }
  assert (sk g1 th = Some (SkThread n top R)) as Hth1 by (by apply closed_thread). pose proof (closed_keeps m Hdm : keeps g g1) as HK.
  destruct v as [| |c] eqn:Hve; [exists g1; split; [done|]; split; [by apply Hdone|done]..|]. rw /luaC_barrier /luaC_objbarrier.
  assert (alive g1 c) as (z & Hz & Hdz).
  { destruct (i_closed _ HB1 uv y Hy) as [HF _]; [done|]. by apply Forall_cons in HF as [? _]. }
  rw (get_eq _ _ _ Hz) Ok_bind. destruct (iswhite (marked z)) eqn:Hwz; [|exists g1; split; [done|]; split; [|done]; apply Hdone, Forall_singleton; by exists z].
  rw (get_eq _ _ _ Hy) Ok_bind /= /luaC_barrierf (get_eq _ _ _ Hy) Ok_bind (get_eq _ _ _ Hz) Ok_bind /= Hwz Hdz Hdm /=. destruct (decide (gcstate g = GCSpropagate)); [|done].
  destruct (mark_after g1 c) as (g2 & new & Hr & HM & HF & HI2); [done|done|done|by apply Hn|done|by exists z|]. exists g2. split; [done|].
  split; [|split; [by etrans; [|eapply keeps_marking]|by rw (evolves_sk _ _ (marking_evolves _ _ _ HM))]]. apply HI2. destruct (m_some _ _ _ _ HM uv y Hy) as (y2 & Hy2 & Hb2 & Hm2). assert (iswhite (marked y) = true -> False) as Hyw by (simpl; congruence).
  assert (y2 = y) as -> by (destruct y2, Hm2 as [Heq|(? & _)]; [simpl in *; congruence|done]). destruct (marking_lists _ _ _ _ HM) as [El1 El2].
  eapply (tri_leave _ _ _ uv y); [by eapply tri_marking|done|]. left. split; [done|]. split; [|exists y; split; [done|]; by apply Forall_singleton].
  rw El1 El2 (m_gray _ _ _ _ HM). intros Hin. apply Hni. assert (uv ∉ new); [|set_solver]. intros Hnew. apply (white_nonwhite g1 uv); [by apply (m_fresh _ _ _ _ HM)|]. by exists y.
Qed.

Lemma linkupval_inv : isdead (currentwhite g) (marked x) = false ->
  exists g', luaC_linkupval (put (unlinkupval (with_ups th R g) uv) uv (mkObject (marked x) (BUpval (UClosed v)))) uv v = Ok g' /\ inv g' /\ keeps g g' /\ sk g' th = Some (SkThread n top R).
Proof using HI Hth Hx Hb Hv.
  intros Hd. rw /luaC_linkupval. change (root_insert _ 0 uv) with (closed_as uv th R (marked x) v g). set (g1 := closed_as uv th R (marked x) v g).
  assert (heap g1 !! uv = Some (mkObject (marked x) (BUpval (UClosed v)))) as Hy by (by rw /g1 /= lookup_insert_eq). rw (get_eq _ _ _ Hy) Ok_bind /=.
  assert (forall m, put g1 uv (mkObject m (BUpval (UClosed v))) = closed_as uv th R m v g) as Hput by (intros m; rw /g1 /closed_as /root_insert /put /= insert_insert_eq //).
  destruct (isgray (marked x)) eqn:Hg; [change (gcstate g1) with (gcstate g); destruct (decide (gcstate g = GCSpropagate)) as [Hs|Hs]|].
  - rw (set_marks_eq _ _ _ _ Hy) Ok_bind Hput. by apply close_mark.
  - rw (set_marks_eq _ _ _ _ Hy) Ok_bind Hput. assert (gcstate g <> GCSfinalize /\ gcstate g <> GCSpause) as Hph.
    { assert (~ all_clean g) as Hnc.
      { intros Hc. assert (uv ∉ tmudata g) as Hni by (intros Hin; pose proof (s_tmu _ (i_shape _ HI) uv Hin) as Hku; by rw (sk_lookup _ _ _ Hx) Hb in Hku).
        destruct (Hc uv x Hx Hni) as [Hwx _]. apply isgray_nonwhite in Hg. congruence. }
      pose proof (i_phase _ HI) as Hp. split; intros Hs2; rw /phase_inv Hs2 in Hp; exact (Hnc (proj2 Hp)). }
    rw bool_decide_true //=. eexists. split; [done|]. split; [by apply close_sweep|]. split; [|apply closed_thread].
    apply closed_keeps. by apply (makewhite_alive _ (marked x) (i_white _ HI)).
  - exists g1. split; [done|]. split; [|split; [by apply closed_keeps|apply closed_thread]]. apply close_white; [|done]. destruct (i_sane _ HI uv x Hx) as (_ & _ & Hnb & _). rw Hb /= in Hnb. by rw /isgray Hnb /= in Hg; apply negb_false_iff in Hg.
Qed.

(** A dead upvalue is freed. *)
Lemma close_dead : isdead (currentwhite g) (marked x) = true ->
  inv (free (unlinkupval (with_ups th R g) uv) uv) /\ keeps g (free (unlinkupval (with_ups th R g) uv) uv) /\ sk (free (unlinkupval (with_ups th R g) uv) uv) th = Some (SkThread n top R).
Proof using HI Hth Hx Hb.
  intros Hd. assert (uv <> th) as Hne by (intros Heq; pose proof Hth as Ht; by rw -Heq (sk_lookup _ _ _ Hx) Hb in Ht). rw -(with_ups_free _ _ _ _ Hne).
  set (g0 := free (unlinkupval g uv) uv). set (g' := with_ups th R g0).
  assert (base g') as HB by (apply (base_free_upval uv th i [] R g x); [rw /= (with_ups_id _ _ n top) //; apply HI|done..]).
  assert (forall c, c <> uv -> sk g0 c = sk g c) as Hsk0 by (intros c Hc; by rw /sk /= lookup_delete_ne).
  assert (forall c, sk g' c = if decide (c = th) then Some (SkThread n top R) else sk g0 c) as Hsk by (intros c; apply (with_ups_sk th R g0 c n top (uv :: R)); by rw Hsk0).
  assert (forall c y', heap g' !! c = Some y' -> c <> uv /\ exists y, heap g !! c = Some y /\ marked y' = marked y) as Hback.
  { intros c y' (y & Hy & Hm & _)%with_ups_lookup. change (delete uv (heap g) !! c = Some y) in Hy. apply lookup_delete_Some in Hy as [? Hy]. split; [congruence|]. by exists y. }
  split; [|split; [intros c Hc; apply with_ups_alive; apply (alive_delete g _ uv); [done|done|intros (? & ? & ?); congruence|done]|rw Hsk; by destruct (decide (th = th))]].
  eapply inv_quiet; [done|done| |done|done|intros _ Hnd; by rw (Hnd uv x Hx) in Hd]. split; try done.
  - intros c (y & Hy & Hc). assert (c <> uv) as Hcn by (intros ->; destruct Hc; congruence). change (heap g') with (alter (set_ups R) th (delete uv (heap g))).
    destruct (decide (c = th)) as [->|]; [exists (set_ups R y); rw lookup_alter_eq|exists y; rw lookup_alter_ne //]; by rw lookup_delete_ne // Hy.
  - intros c y' (_ & y & Hy & Hm)%Hback Hdy. exists y. by rw -Hm.
  - intros c y' (_ & y & Hy & _)%Hback. right. by exists y.
  - intros c Hc. by left.
  - intros _. split; [done|]. split; [done|]. intros c Hc. by left.
  - intros c Hc. by left.
  - intros c a b d u. rw Hsk. destruct (decide (c = th)) as [->|]; [intros [= <- <- <-] Hin; right; exists n, top, (uv :: R); split; [done|by apply list_elem_of_further]|].
    intros Hc Hin. right. exists a, b, d. split; [|done]. rw -Hsk0 //. intros ->. by rw /sk /= lookup_delete_eq in Hc.
Qed.
End close_upval.

Lemma close_loop_inv th level n top ups g : inv g -> sk g th = Some (SkThread n top ups) -> exists g', close_loop ups th level g = Ok g' /\ inv g' /\ keeps g g'.
Proof.
  revert g. induction ups as [|uv R IH]; intros g HI Hth; [by exists g|]. destruct (s_thread _ (i_shape _ HI) _ _ _ _ Hth) as (_ & _ & HF). apply Forall_cons in HF as [(i & Huv) _].
  destruct (sk_inv _ _ _ Huv) as (x & Hx & Hb%skel_open). destruct (shape_slot g uv th i (i_shape _ HI) Huv) as (v & Hv).
  destruct (decide (level <= i)%nat) as [Hl|Hl]; [|cbn [close_loop]; rw (get_eq _ _ _ Hx) Ok_bind Hb; destruct (decide (level <= i)%nat); [done|]; by exists g].
  assert (isblack (marked x) = false) as Hbl by (destruct (i_sane _ HI uv x Hx) as (_ & _ & Hnb & _); by rw Hb /= in Hnb).
  destruct (isdead (currentwhite g) (marked x)) eqn:Hd.
  - cbn [close_loop]. rw (get_eq _ _ _ Hx) Ok_bind Hb. destruct (decide (level <= i)%nat); [|done]. rw Hbl /= (set_openupval_eq _ _ _ _ _ _ Hth) Ok_bind. change (currentwhite (with_ups th R g)) with (currentwhite g). rw Hd.
    destruct (close_dead g uv th i R x n top HI Hth Hx Hb Hd) as (HI' & HK & Hth'). assert (heap (with_ups th R g) !! uv = Some x) as Hx'.
    { rw /= lookup_alter_ne //. intros ->. by rw (sk_lookup _ _ _ Hx) Hb in Hth. }
    rw /luaF_freeupval (get_eq _ _ _ Hx') Ok_bind Hb Ok_bind. destruct (IH _ HI' Hth') as (g' & ? & ? & ?). exists g'. split; [done|]. split; [done|by etrans].
  - rw (close_loop_cons uv th i R level g x v n top) //. destruct (linkupval_inv g uv th i R x v n top HI Hth Hx Hb Hv Hd) as (g1 & -> & HI' & HK & Hth'). rw Ok_bind. destruct (IH _ HI' Hth') as (g' & ? & ? & ?). exists g'. split; [done|]. split; [done|by etrans].
Qed.

(** The upvalues of a thread from a level on are closed. *)
Lemma luaF_close_inv g th n top ups level : inv g -> sk g th = Some (SkThread n top ups) -> exists g', luaF_close g th level = Ok g' /\ inv g' /\ keeps g g'.
Proof.
  intros HI Hth. destruct (sk_inv _ _ _ Hth) as (z & Hz & (gt & st & cis & Hbz & _)%skel_thread). rw /luaF_close (get_eq _ _ _ Hz) Ok_bind Hbz. by eapply close_loop_inv.
Qed.
