(* ===== verification/LuaState.v ===== *)
(** LuaState: how objects come to be and change outside of the collector: the state of
    src/liblua/src/lstate.c, the names of tag methods (ltm.c), reserved words (llex.c), new
    closures and upvalues (lfunc.c, lvm.c), and the functions of lapi.c and lvm.c that store
    in objects.

    A new object is at a location that is not in use ([alloc]); that there is no more memory
    is not modelled. What a function finds with index2adr() is an argument. *)

From Corelib Require Import ssreflect.
From stdpp Require Import base list gmap numbers strings.
From Stdlib Require Import ZArith Lia.
From S2P Require Import Prelude LuaLex LuaHeap LuaGC.

Implicit Type g : global_State.

Definition set_registry g v := mkGlobal (heap g) (currentwhite g) (gcstate g) (strt g) (sweepstrgc g) (rootgc g) (sweepgc g) (gray g)
  (grayagain g) (weak g) (tmudata g) (uvhead g) v (mainthread g) (running g) (mt g) (tm_gc g) (tm_mode g).
Definition set_tmnames g a b := mkGlobal (heap g) (currentwhite g) (gcstate g) (strt g) (sweepstrgc g) (rootgc g) (sweepgc g) (gray g)
  (grayagain g) (weak g) (tmudata g) (uvhead g) (l_registry g) (mainthread g) (running g) (mt g) a b.

(** ** Threads *)

Definition LUA_MINSTACK : nat := 20.
Definition EXTRA_STACK : nat := 5.
Definition BASIC_STACK_SIZE : nat := 2 * LUA_MINSTACK.
Definition NUM_TAGS : nat := 9.

Definition preinit_state : gcbody := BThread VNil [] 0 [] [].

(** The first slot is the function entry of the first call. *)
Definition stack_init g (L1 : loc) : res global_State :=
  x ← get g L1;
  match body x with
  | BThread gt _ _ _ ups => set_body g L1 (BThread gt (replicate (BASIC_STACK_SIZE + EXTRA_STACK) VNil) 1 [(1 + LUA_MINSTACK)%nat] ups)
  | _ => Err AssertFail
  end.

Definition gt g (th : loc) : res gcvalue :=
  x ← get g th;
  match body x with BThread v _ _ _ _ => Ok v | _ => Err AssertFail end.
Definition set_gt g (th : loc) (v : gcvalue) : res global_State :=
  x ← get g th;
  match body x with BThread _ st top cis ups => set_body g th (BThread v st top cis ups) | _ => Err AssertFail end.

(** The value at [L->top - 1], and [L->top--]. *)
Definition top_value g : res gcvalue :=
  x ← get g (running g);
  match body x with
  | BThread _ st top _ _ => match top with O => Err OutOfBounds | S i => match st !! i with Some v => Ok v | None => Err OutOfBounds end end
  | _ => Err AssertFail
  end.
Definition pop g : res global_State :=
  x ← get g (running g);
  match body x with
  | BThread v st top cis ups => set_body g (running g) (BThread v st (Nat.pred top) cis ups)
  | _ => Err AssertFail
  end.

Section state.
Context (alloc : gset loc -> loc).
Definition new_loc g : loc := alloc (dom (heap g)).

Definition luaH_new_table g (narray nhash : nat) : loc * global_State :=
  let o := new_loc g in
  (o, luaC_link g o (BTable None (replicate narray VNil) (replicate nhash (KNil, VNil)))).

Definition luaE_newthread g (L : loc) : res (loc * global_State) :=
  let L1 := new_loc g in
  let g := luaC_link g L1 preinit_state in
  g ← stack_init g L1;
  v ← gt g L;
  g ← set_gt g L1 v;
  x ← get g L1;
  _ ← c_assert (iswhite (marked x));
  Ok (L1, g).

(** ** The names that are never collected *)

Definition luaS_new g (str : list Z) : res (loc * global_State) := luaS_newlstr g str (new_loc g).
Definition setfixed (m : marks) : marks := Marks (white0 m) (white1 m) (black m) (bit3 m) (bit4 m) true (sfixed m).
Definition luaS_fix g (s : loc) : res global_State := set_marks g s setfixed.

Fixpoint fixed_names (names : list (list Z)) g : res (list loc * global_State) :=
  match names with
  | [] => Ok ([], g)
  | str :: names =>
      '(ts, g) ← luaS_new g str;
      g ← luaS_fix g ts;
      '(l, g) ← fixed_names names g;
      Ok (ts :: l, g)
  end.

Definition luaT_eventname : list (list Z) :=
  lit <$> ["__index"; "__newindex"; "__gc"; "__mode"; "__eq"; "__add"; "__sub"; "__mul"; "__div"; "__mod"; "__pow"; "__unm"; "__len"; "__lt"; "__le"; "__concat"; "__call"]%string.
Definition TM_GC : nat := 2.
Definition TM_MODE : nat := 3.
Definition luaT_init g : res global_State :=
  '(tmname, g) ← fixed_names luaT_eventname g;
  match tmname !! TM_GC, tmname !! TM_MODE with
  | Some a, Some b => Ok (set_tmnames g a b)
  | _, _ => Err OutOfBounds
  end.

Definition luaX_init g : res global_State :=
  '(_, g) ← fixed_names (take NUM_RESERVED luaX_tokens) g;
  Ok g.

Definition MEMERRMSG : list Z := lit "not enough memory".

(** ** The state *)

Definition f_luaopen g : res global_State :=
  let L := mainthread g in
  g ← stack_init g L;
  let '(t, g) := luaH_new_table g 0 2 in
  g ← set_gt g L (VRef t);
  let '(r, g) := luaH_new_table g 0 2 in
  let g := set_registry g (VRef r) in
  g ← luaS_resize g MINSTRTABSIZE;
  g ← luaT_init g;
  g ← luaX_init g;
  '(_, g) ← fixed_names [MEMERRMSG] g;
  Ok g.

(** The main thread is at location 1; there are no names of tag methods yet. *)
Definition lua_newstate : res global_State :=
  f_luaopen (mkGlobal {[ 1%positive := mkObject (Marks true false false false false true true) preinit_state ]} (Marks true false false false false true false)
    GCSpause [] 0 [1%positive] 0 [] [] [] [] [] VNil 1 1 (replicate NUM_TAGS None) 1 1).

(** ** New closures *)

(** The instruction after OP_CLOSURE for each upvalue: OP_GETUPVAL or OP_MOVE, with its argument B. *)
Inductive upvalue_desc := GetUpval (b : nat) | Move (b : nat).

Fixpoint closure_upvals (ds : list upvalue_desc) (th cl ncl : loc) (base : nat) g : res global_State :=
  match ds with
  | [] => Ok g
  | d :: ds =>
      '(uv, g) ← match d with
                 | GetUpval b =>
                     x ← get g cl;
                     match body x with
                     | BLClosure _ _ us => match us !! b with Some uv => Ok (uv, g) | None => Err OutOfBounds end
                     | _ => Err AssertFail
                     end
                 | Move b => luaF_findupval g th (base + b) (new_loc g)
                 end;
      x ← get g ncl;
      match body x with
      | BLClosure e p us => g ← set_body g ncl (BLClosure e p (us ++ [uv])); closure_upvals ds th cl ncl base g
      | _ => Err AssertFail
      end
  end.

(** OP_CLOSURE in the function [cl], run by [th]; the closure is stored in register [a] of [base]. *)
Definition op_closure g (th cl : loc) (base a bx : nat) (ds : list upvalue_desc) : res (loc * global_State) :=
  x ← get g cl;
  match body x with
  | BLClosure env p _ =>
      xp ← get g p;
      match body xp with
      | BProto _ _ _ ps _ =>
          match ps !! bx with
          | Some (Some p) =>
              let ncl := new_loc g in
              let g := luaC_link g ncl (BLClosure env p []) in
              g ← closure_upvals ds th cl ncl base g;
              x ← get g th;
              match body x with
              | BThread v st top cis ups =>
                  if decide (base + a < length st)%nat then
                    g ← set_body g th (BThread v (<[(base + a)%nat := VRef ncl]> st) top cis ups);
                    Ok (ncl, g)
                  else Err OutOfBounds
              | _ => Err AssertFail
              end
          | _ => Err OutOfBounds
          end
      | _ => Err AssertFail
      end
  | _ => Err AssertFail
  end.
End state.

(** ** Stores *)

(** A value is stored through a pointer to the value of an upvalue. *)
Definition set_upval_value g (uv : loc) (v : gcvalue) : res global_State :=
  x ← get g uv;
  match body x with
  | BUpval (UClosed _) => set_body g uv (BUpval (UClosed v))
  | BUpval (UOpen th i) =>
      y ← get g th;
      match body y with
      | BThread gt st top cis ups => if decide (i < length st)%nat then set_body g th (BThread gt (<[i := v]> st) top cis ups) else Err OutOfBounds
      | _ => Err AssertFail
      end
  | _ => Err AssertFail
  end.

(** OP_SETUPVAL *)
Definition op_setupval g (uv : loc) (v : gcvalue) : res global_State := g ← set_upval_value g uv v; luaC_barrier g uv v.

(** luaH_set() with the key [k] changes the table to [b] but for the value; newkey() has a barrier for the key.
    luaV_settable() or lua_rawset() store the value. *)
Definition settable g (t : loc) (b : gcbody) (k v : gcvalue) : res global_State := g ← luaC_barriert g t k; store_table g t b v.

Definition hvalue (v : gcvalue) : res loc := match v with VRef t => Ok t | _ => Err AssertFail end.

(** The type of a value; for one that is not collectable it is [plain]. *)
Definition value_type g (plain : nat) (v : gcvalue) : res nat :=
  match v with
  | VNil => Ok 0%nat
  | VPlain _ => Ok plain
  | VRef o =>
      x ← get g o;
      Ok (match body x with BString _ => 4 | BTable _ _ _ => 5 | BCClosure _ _ | BLClosure _ _ _ => 6 | BUdata _ _ => 7 | BThread _ _ _ _ _ => 8 | BProto _ _ _ _ _ => 9 | BUpval _ => 10 end)%nat
  end.

Definition lua_setmetatable g (obj : gcvalue) (plain : nat) : res global_State :=
  v ← top_value g;
  m ← match v with VNil => Ok None | _ => t ← hvalue v; Ok (Some t) end;
  let default g :=
    i ← value_type g plain obj;
    if decide (i < length (mt g))%nat then Ok (set_roots g (running g) (<[i := m]> (mt g))) else Err OutOfBounds in
  g ← match obj with
      | VRef o =>
          x ← get g o;
          match body x with
          | BTable _ a ns =>
              g ← set_body g o (BTable m a ns);
              match m with Some t => luaC_objbarriert g o t | None => Ok g end
          | BUdata _ e =>
              g ← set_body g o (BUdata m e);
              match m with Some t => luaC_objbarrier g o t | None => Ok g end
          | _ => default g
          end
      | _ => default g
      end;
  pop g.

Definition lua_setfenv g (o : gcvalue) : res (bool * global_State) :=
  v ← top_value g;
  t ← hvalue v;
  '(res, g) ← match o with
              | VRef o =>
                  x ← get g o;
                  match body x with
                  | BLClosure _ p us => g ← set_body g o (BLClosure t p us); g ← luaC_objbarrier g o t; Ok (true, g)
                  | BCClosure _ us => g ← set_body g o (BCClosure t us); g ← luaC_objbarrier g o t; Ok (true, g)
                  | BUdata m _ => g ← set_body g o (BUdata m t); g ← luaC_objbarrier g o t; Ok (true, g)
                  | BThread _ st top cis ups => g ← set_body g o (BThread (VRef t) st top cis ups); g ← luaC_objbarrier g o t; Ok (true, g)
                  | _ => Ok (false, g)
                  end
              | _ => Ok (false, g)
              end;
  g ← pop g;
  Ok (res, g).

(** The upvalue [n] of a function; [None] if there is none. *)
Inductive upvalue_ref := InClosure (i : nat) | InUpval (uv : loc).
Definition aux_upvalue g (f : gcvalue) (n : Z) : res (option upvalue_ref) :=
  match f with
  | VRef o =>
      x ← get g o;
      match body x with
      | BCClosure _ us => Ok (if decide (1 <= n <= Z.of_nat (length us)) then Some (InClosure (Z.to_nat (n - 1))) else None)
      | BLClosure _ p us =>
          xp ← get g p;
          match body xp with
          | BProto _ _ names _ _ =>
              if decide (1 <= n <= Z.of_nat (length names)) then
                match us !! Z.to_nat (n - 1) with Some uv => Ok (Some (InUpval uv)) | None => Err OutOfBounds end
              else Ok None
          | _ => Err AssertFail
          end
      | _ => Ok None
      end
  | _ => Ok None
  end.

(** The barrier of lua_setupvalue() is that of the closure, also where an upvalue holds the value. *)
Definition lua_setupvalue g (f : gcvalue) (n : Z) : res (bool * global_State) :=
  r ← aux_upvalue g f n;
  match r with
  | None => Ok (false, g)
  | Some r =>
      v ← top_value g;
      g ← pop g;
      cl ← hvalue f;
      g ← match r with
          | InUpval uv => set_upval_value g uv v
          | InClosure i =>
              x ← get g cl;
              match body x with
              | BCClosure e us => set_body g cl (BCClosure e (<[i := v]> us))
              | _ => Err AssertFail
              end
          end;
      g ← luaC_barrier g cl v;
      Ok (true, g)
  end.

(** lua_replace() with the index of the registry, of the globals, of the environment of the running function
    [func], or of one of its upvalues. *)
Inductive pseudo_index := RegistryIndex | GlobalsIndex | EnvironIndex (func : loc) | UpvalueIndex (func : loc) (i : nat).
Definition lua_replace g (idx : pseudo_index) : res global_State :=
  v ← top_value g;
  g ← match idx with
      | RegistryIndex => Ok (set_registry g v)
      | GlobalsIndex => set_gt g (running g) v
      | EnvironIndex func =>
          t ← hvalue v;
          x ← get g func;
          g ← match body x with
              | BCClosure _ us => set_body g func (BCClosure t us)
              | BLClosure _ p us => set_body g func (BLClosure t p us)
              | _ => Err AssertFail
              end;
          luaC_barrier g func v
      | UpvalueIndex func i =>
          x ← get g func;
          match body x with
          | BCClosure e us => if decide (i < length us)%nat then g ← set_body g func (BCClosure e (<[i := v]> us)); luaC_barrier g func v else Err OutOfBounds
          | _ => Err AssertFail
          end
      end;
  pop g.
