(* ===== verification/LuaGCOpen.v ===== *)
(** LuaGCOpen: the invariant of the collector holds in a new state (lua_newstate() of lstate.c),
    and changes of the roots keep it. *)

From Corelib Require Import ssreflect.
From stdpp Require Import base list gmap numbers strings.
From Stdlib Require Import ZArith Lia.
From S2P Require Import Prelude LuaLex LuaHeap LuaGC LuaGCMark LuaGCInv LuaGCTri LuaGCAtomic LuaGCFinal LuaGCPhase LuaGCSweep LuaGCClose LuaGCStep LuaGCMut LuaGCStore LuaGCUpval LuaState.

Implicit Type g : global_State.

(** ** Roots *)

(** Nothing changes but the roots. *)
Lemma quiet_roots g g' : heap g' = heap g -> currentwhite g' = currentwhite g -> gcstate g' = gcstate g -> strt g' = strt g -> sweepstrgc g' = sweepstrgc g ->
  rootgc g' = rootgc g -> sweepgc g' = sweepgc g -> tmudata g' = tmudata g -> quiet g g'.
Proof.
  intros E1 E2 E3 E4 E5 E6 E7 E8. split; try done; rw ?E1 ?E2 ?E4 ?E5 ?E6 ?E7.
  - intros o (x & Hx & Hc). exists x. by rw E1.
  - intros o x Hx Hd. by exists x.
  - intros o x Hx. right. by exists x.
  - intros o Ho. by left.
  - intros _. split; [done|]. split; [done|]. intros o Ho. by left.
  - done.
  - intros o Ho. by left.
  - intros o n top ups uv. rw /sk E1. intros Hk Hu. right. by exists n, top, ups.
Qed.

Lemma base_roots g g' : base g -> heap g' = heap g -> currentwhite g' = currentwhite g -> strt g' = strt g -> rootgc g' = rootgc g -> tmudata g' = tmudata g ->
  uvhead g' = uvhead g -> mainthread g' = mainthread g -> (exists n top ups, sk g (running g') = Some (SkThread n top ups)) -> Forall (alive g) (roots g') -> base g'.
Proof.
  intros HI E1 E2 E3 E4 E5 E6 E7 Hrun Hr. assert (forall o, sk g' o = sk g o) as Hsk by (intros o; by rw /sk E1). pose proof (i_shape _ HI) as HS.
  apply (base_transfer g); try done.
  - split; rw ?E3 ?E4 ?E5 ?E6 ?E7; try apply HS.
    + intros o k. rw Hsk. intros Hk. pose proof (s_home _ HS o k Hk) as Hin. by destruct k; rw /= ?E3 ?E4 ?E5 ?E6.
    + intros o Ho. rw Hsk. by apply (s_root _ HS).
    + intros o Ho. rw Hsk. by apply (s_strt _ HS).
    + intros o Ho. rw Hsk. by apply (s_tmu _ HS).
    + intros o Ho. destruct (s_uv _ HS o Ho) as (th & i & ?). exists th, i. by rw Hsk.
    + destruct (s_main _ HS) as (pre & post & ? & HF). exists pre, post. split; [done|]. eapply Forall_impl; [exact HF|]. intros o. by rw Hsk.
    + destruct (s_mainthread _ HS) as (n & top & ups & ?). exists n, top, ups. by rw Hsk.
    + destruct Hrun as (n & top & ups & ?). exists n, top, ups. by rw Hsk.
    + intros th n top ups. rw Hsk. intros Hth. destruct (s_thread _ HS _ _ _ _ Hth) as (? & ? & HF). split; [done|]. split; [done|]. eapply Forall_impl; [exact HF|]. intros uv (i & ?). exists i. by rw Hsk.
    + intros uv th i. rw Hsk. intros (n & top & ups & ? & ?)%(s_open _ HS). exists n, top, ups. by rw Hsk.
  - intros o x. rw E1. apply (i_sane _ HI).
  - intros o x Hx Hd. rw E1 in Hx |- *. destruct (i_closed _ HI o x Hx Hd). split; [done|by apply (typed_sk g)].
  - intros o (x & Hx & Hd). exists x. by rw E1 E2.
  - apply Forall_app. split; [done|]. rw E5. pose proof (i_roots _ HI) as HF. by apply Forall_app in HF as [_ ?].
  - rw E3. apply HI.
  - intros o x. rw E1 E7. apply (i_fixed _ HI).
Qed.

(** Another thread runs, and the metatables of types change. *)
Lemma set_roots_inv g th n top ups m : inv g -> sk g th = Some (SkThread n top ups) -> alive g th -> Forall (alive g) (m ≫= oref) -> inv (set_roots g th m).
Proof.
  intros HI Hth Ha Hm. eapply inv_quiet; [done| |by apply quiet_roots|done|done|by intros _ _ [? ? ? ? ?]; split].
  apply (base_roots g); try done; [apply HI|by eexists _, _, _|]. pose proof (i_roots _ HI) as HF. rw /roots in HF |- *. simpl in *. apply Forall_cons in HF as [? HF]. apply Forall_cons in HF as [_ HF].
  rw !Forall_app in HF. destruct HF as [[? _] _]. apply Forall_cons. split; [done|]. apply Forall_cons. split; [done|]. apply Forall_app. done.
Qed.

(** The registry is set before anything is collected. *)
Lemma set_registry_inv g v : inv g -> gcstate g <> GCSpropagate -> Forall (alive g) (vref v) -> inv (set_registry g v).
Proof.
  intros HI Hs Hv. split; [|eapply (quiet_phase g); [by apply quiet_roots|done|apply HI]]. apply (base_roots g); try done; [apply HI|apply (i_shape _ HI)|].
  pose proof (i_roots _ HI) as HF. rw /roots in HF |- *. simpl in *. apply Forall_cons in HF as [? HF]. apply Forall_cons in HF as [? HF]. rw !Forall_app in HF. destruct HF as [[_ ?] _].
  apply Forall_cons. split; [done|]. apply Forall_cons. split; [done|]. apply Forall_app. done.
Qed.

Lemma set_tmnames_inv g a b : inv g -> inv (set_tmnames g a b).
Proof.
  intros HI. eapply inv_quiet; [done| |by apply quiet_roots|done|done|by intros _ _ [? ? ? ? ?]; split]. apply (base_ext g); try done. apply HI.
Qed.

(** ** Names that are never collected *)

Lemma luaS_fix_inv g o x : inv g -> gcstate g <> GCSpropagate -> heap g !! o = Some x -> skel_of (body x) = SkString -> isdead (currentwhite g) (marked x) = false ->
  exists g', luaS_fix g o = Ok g' /\ inv g' /\ gcstate g' = gcstate g.
Proof.
  intros HI Hs Hx Hk Hd. rw /luaS_fix (set_marks_eq _ _ _ _ Hx). set (y := mkObject (setfixed (marked x)) (body x)). exists (put g o y). split; [done|]. split; [|done].
  pose proof (i_shape _ HI) as HS. assert (forall c, sk (put g o y) c = sk g c) as Hsk by (intros c; by apply put_sk).
  assert (forall b, refs (heap (put g o y)) b = refs (heap g) b) as Hrefs by (intros b; apply refs_same, put_bodies; done).
  split.
  - apply (base_transfer g); try done; [apply HI|apply (shape_ext g); done|..].
    + intros c z Hz. apply put_lookup in Hz as [[-> ->]|[_ Hz]]; [exact (i_sane _ HI o x Hx)|by apply (i_sane _ HI c)].
    + intros c z Hz Hdz. rw Hrefs. assert (Forall (alive g) (refs (heap g) (body z)) /\ typed g (body z)) as [? ?]; [|split; [done|by apply (typed_sk g)]].
      apply put_lookup in Hz as [[-> ->]|[_ Hz]]; [exact (i_closed _ HI o x Hx Hd)|by apply (i_closed _ HI c)].
    + by apply keeps_put.
    + apply HI.
    + apply HI.
    + intros c z Hz. apply put_lookup in Hz as [[-> ->]|[_ Hz]]; [by left|by apply (i_fixed _ HI c)].
  - eapply (quiet_phase g); [|done|apply HI]. split; try done; simpl.
    + intros c (z & Hz & Hc). destruct (decide (c = o)) as [->|]; [|exists z; by rw lookup_insert_ne]. exists y. rw lookup_insert_eq. split; [done|]. by assert (z = x) as -> by congruence.
    + intros c z Hz Hdz. apply put_lookup in Hz as [[-> ->]|[_ Hz]]; [by exists x|by exists z].
    + intros c z Hz. right. apply put_lookup in Hz as [[-> ->]|[_ Hz]]; [by exists x|by exists z].
    + intros c Hc. by left.
    + intros _. split; [done|]. split; [done|]. intros c Hc. by left.
    + intros c Hc. by left.
    + intros c n top ups uv. rw Hsk. intros Hc Hu. right. by exists n, top, ups.
Qed.

Section open.
Context (alloc : gset loc -> loc) (alloc_fresh : forall X, alloc X ∉ X).

Lemma new_loc_fresh g : heap g !! new_loc alloc g = None.
Proof using alloc_fresh. apply not_elem_of_dom, alloc_fresh. Qed.

Lemma fixed_names_inv names g : inv g -> gcstate g <> GCSpropagate ->
  exists l g', fixed_names alloc names g = Ok (l, g') /\ inv g' /\ gcstate g' = gcstate g /\ length l = length names.
Proof using alloc_fresh.
  revert g. induction names as [|str names IH]; intros g HI Hs; [by exists [], g|]. cbn [fixed_names]. rw /luaS_new.
  destruct (luaS_newlstr_inv g str (new_loc alloc g) HI (new_loc_fresh g)) as (o & g1 & -> & HI1 & _ & Es1 & x & Hx & Hb & Hd). rw Ok_bind.
  destruct (luaS_fix_inv g1 o x) as (g2 & -> & HI2 & Es2); [done|congruence|done|by rw Hb|done|]. rw Ok_bind.
  destruct (IH g2 HI2) as (l & g3 & -> & HI3 & Es3 & Hl); [congruence|]. rw Ok_bind. exists (o :: l), g3. split; [done|]. split; [done|]. split; [congruence|by rw /= Hl].
Qed.

(** ** The new state *)

(** The main thread alone. *)
Definition first_state : global_State :=
  mkGlobal {[ 1%positive := mkObject (Marks true false false false false true true) (BThread VNil (replicate 45 VNil) 1 [21%nat] []) ]} (Marks true false false false false true false)
    GCSpause (replicate MINSTRTABSIZE []) 0 [1%positive] 0 [] [] [] [] [] VNil 1 1 (replicate NUM_TAGS None) 1 1.

Lemma first_lookup o x : heap first_state !! o = Some x -> o = 1%positive /\ x = mkObject (Marks true false false false false true true) (BThread VNil (replicate 45 VNil) 1 [21%nat] []).
Proof using. rw /first_state [heap _]/=. by intros [<- <-]%lookup_singleton_Some. Qed.

Lemma first_sk o k : sk first_state o = Some k -> o = 1%positive /\ k = SkThread 45 1 [].
Proof using. intros (x & [-> ->]%first_lookup & <-)%sk_inv. done. Qed.

Lemma first_inv : inv first_state.
Proof using.
  assert (sk first_state 1%positive = Some (SkThread 45 1 [])) as Hm by (by rw /sk /= lookup_singleton_eq).
  assert (alive first_state 1%positive) as Ha by (eexists; split; [apply lookup_singleton_eq|done]).
  split.
  - split; try done.
    + split; try done; try (by eexists _, _, _).
      * intros o k [-> ->]%first_sk. apply list_elem_of_here.
      * intros o ->%list_elem_of_singleton. by eexists.
      * intros o []%elem_of_nil.
      * intros o []%elem_of_nil.
      * intros o []%elem_of_nil.
      * apply NoDup_singleton.
      * constructor.
      * constructor.
      * by exists [], [].
      * intros th n top ups [-> [= -> -> ->]]%first_sk. split; [constructor|]. split; [lia|done].
      * by intros uv th i [_ ?]%first_sk.
    + by exists true, true.
    + by intros o x [-> ->]%first_lookup.
    + intros o x [-> ->]%first_lookup _. split; [|done]. by vm_compute.
    + rw /roots /=. by repeat (apply Forall_cons; split).
    + intros o x [-> ->]%first_lookup _. by right.
  - split; [done|]. intros o x [-> ->]%first_lookup _. done.
Qed.

(** A new table points to nothing. *)
Lemma luaH_new_table_inv g narray nhash : inv g -> inv (luaH_new_table alloc g narray nhash).2.
Proof using alloc_fresh.
  intros HI. apply luaC_link_inv; try done; [apply new_loc_fresh|by left|..].
  - simpl. assert (forall k, replicate k VNil ≫= vref = []) as -> by (by induction k). assert (forall k, replicate k (KNil, VNil) ≫= nref = []) as -> by (by induction k). done.
  - split; [done|]. by induction nhash.
Qed.

Lemma lua_newstate_open : exists g, inv g /\ gcstate g = GCSpause /\ strt g = replicate MINSTRTABSIZE [] /\
  lua_newstate alloc = (g ← luaT_init alloc g; g ← luaX_init alloc g; '(_, g) ← fixed_names alloc [MEMERRMSG] g; Ok g).
Proof using alloc_fresh.
  pose proof first_inv as HI0. set (F := first_state) in *. pose proof (luaH_new_table_inv F 0 2 HI0) as HI1. set (t := new_loc alloc F). set (T := BTable None [] (replicate 2 (KNil, VNil))).
  set (F1 := luaC_link F t T). change (inv F1) in HI1. pose proof (new_loc_fresh F : heap F !! t = None) as Ht.
  assert (t <> 1%positive) as Htne by (intros Heq; rw Heq /F /= lookup_singleton_eq in Ht; done).
  set (x := mkObject (Marks true false false false false true true) (BThread VNil (replicate 45 VNil) 1 [21%nat] [])). assert (heap F1 !! 1%positive = Some x) as Hx by (rw /F1 /= lookup_insert_ne // lookup_singleton_eq //).
  set (b := BThread (VRef t) (replicate 45 VNil) 1 [21%nat] []).
  assert (alive F1 t) as Hat by (eexists; split; [rw /F1 /= lookup_insert_eq; done|done]).
  destruct (store_stack_inv F1 1%positive x b HI1) as (F2 & HF2 & HI2 & HK2); [|by eexists _, _, _|].
  { split; try done; [by left|]. rw /=. apply Forall_cons. split; [done|]. by vm_compute. }
  rw (set_body_eq _ _ _ _ Hx) in HF2. injection HF2 as HF2. pose proof (luaH_new_table_inv F2 0 2 HI2) as HI3. set (r := new_loc alloc F2). set (F3 := luaC_link F2 r T). change (inv F3) in HI3.
  assert (inv (set_registry F3 (VRef r))) as HI4.
  { apply set_registry_inv; [done|by rw /F3 -HF2|]. apply Forall_singleton. eexists. split; [rw /F3 /= lookup_insert_eq; done|]. apply (luaC_white_clean _ T (i_white _ HI2)). }
  exists (set_registry F3 (VRef r)). split; [done|]. split; [by rw /F3 -HF2|]. split; [by rw /F3 -HF2|].
  rw /lua_newstate /f_luaopen. set (g00 := mkGlobal _ _ _ [] _ _ _ _ _ _ _ _ _ _ _ _ _ _). change (mainthread g00) with 1%positive.
  assert (stack_init g00 1%positive = Ok (set_strt F [] 0)) as ->.
  { rw /stack_init (get_eq g00 1%positive (mkObject (Marks true false false false false true true) preinit_state)); [by rw /g00 /= lookup_singleton_eq|].
    rw Ok_bind /= (set_body_eq g00 1%positive (mkObject (Marks true false false false false true true) preinit_state)); [by rw /g00 /= lookup_singleton_eq|].
    rw /put /set_heap /g00 /= insert_singleton_eq. done. }
  rw Ok_bind. change (luaH_new_table alloc (set_strt F [] 0) 0 2) with (t, set_strt F1 [] 0). cbv beta iota.
  rw /set_gt (get_eq (set_strt F1 [] 0) 1%positive x) // Ok_bind. rw {1}/x. cbn [body]. rw (set_body_eq (set_strt F1 [] 0) 1%positive x) // Ok_bind.
  change (put (set_strt F1 [] 0) 1%positive _) with (set_strt (put F1 1%positive (mkObject (marked x) b)) [] 0). rw HF2.
  change (luaH_new_table alloc (set_strt F2 [] 0) 0 2) with (r, set_strt F3 [] 0). cbv beta iota.
  assert (luaS_resize (set_registry (set_strt F3 [] 0) (VRef r)) MINSTRTABSIZE = Ok (set_registry F3 (VRef r))) as ->; [|by rw Ok_bind].
  rw /luaS_resize /= /F3 -HF2 /=. done.
Qed.

Lemma lua_newstate_inv : exists g, lua_newstate alloc = Ok g /\ inv g /\ gcstate g = GCSpause.
Proof using alloc_fresh.
  destruct lua_newstate_open as (g & HI & Hs & _ & ->). rw /luaT_init. destruct (fixed_names_inv luaT_eventname g HI) as (l & g1 & -> & HI1 & Hs1 & Hl); [congruence|]. rw Ok_bind.
  destruct (lookup_lt_is_Some_2 l TM_GC) as (a & ->); [rw Hl; vm_compute; lia|]. destruct (lookup_lt_is_Some_2 l TM_MODE) as (b & ->); [rw Hl; vm_compute; lia|]. rw Ok_bind /luaX_init.
  destruct (fixed_names_inv (take NUM_RESERVED luaX_tokens) (set_tmnames g1 a b)) as (l2 & g2 & -> & HI2 & Hs2 & _); [by apply set_tmnames_inv|simpl; congruence|]. rw 2!Ok_bind.
  destruct (fixed_names_inv [MEMERRMSG] g2) as (l3 & g3 & -> & HI3 & Hs3 & _); [done|simpl in *; congruence|]. rw Ok_bind. exists g3. split; [done|]. split; [done|]. simpl in *; congruence.
Qed.
End open.
