(* ===== verification/LuaGCCycle.v ===== *)
(** LuaGCCycle: a cycle of the collector ends: when only the collector runs, steps of
    singlestep() (lgc.c) lead to its first phase from everywhere. *)

From Corelib Require Import ssreflect.
From stdpp Require Import base list gmap numbers strings.
From Stdlib Require Import ZArith Lia.
From S2P Require Import Prelude LuaHeap LuaGC LuaGCMark LuaGCInv LuaGCTri LuaGCPhase LuaGCSweep LuaGCClose LuaGCStep LuaState LuaGCOpen.

Implicit Type g : global_State.

Fixpoint gc_steps (n : nat) g : res global_State :=
  match n with
  | O => Ok g
  | S n => g ← singlestep g; gc_steps n g
  end.

Lemma gc_steps_app n k g g1 : gc_steps n g = Ok g1 -> gc_steps (n + k) g = gc_steps k g1.
Proof. revert g. induction n as [|n IH]; intros g; cbn [gc_steps Nat.add]; [by intros [= ->]|]. intros (g2 & -> & Hg)%bind_Ok. by apply IH. Qed.

(** From one phase to another. *)
Definition leads (s s' : gcphase) : Prop := forall g, inv g -> gcstate g = s -> exists n g', gc_steps n g = Ok g' /\ inv g' /\ gcstate g' = s'.

Lemma leads_trans s1 s2 s3 : leads s1 s2 -> leads s2 s3 -> leads s1 s3.
Proof.
  intros H1 H2 g HI Hs. destruct (H1 g HI Hs) as (n & g1 & Hn & HI1 & Hs1). destruct (H2 g1 HI1 Hs1) as (k & g2 & Hk & HI2 & Hs2). exists (n + k)%nat, g2. by rw (gc_steps_app _ _ _ _ Hn).
Qed.

(** A phase ends if its steps either do or have less to do next. *)
Lemma leads_measure s s' (left : global_State -> nat) :
  (forall g, inv g -> gcstate g = s -> exists g', singlestep g = Ok g' /\ inv g' /\ (gcstate g' = s' \/ gcstate g' = s /\ (left g' < left g)%nat)) -> leads s s'.
Proof.
  intros Hstep. assert (forall k g, (left g < k)%nat -> inv g -> gcstate g = s -> exists n g', gc_steps n g = Ok g' /\ inv g' /\ gcstate g' = s') as Hk; [|intros g; apply (Hk (S (left g))); lia].
  induction k as [|k IH]; intros g Hlt HI Hs; [lia|]. destruct (Hstep g HI Hs) as (g1 & Hr & HI1 & [Hs1|[Hs1 Hl]]).
  - exists 1%nat, g1. by rw /= Hr.
  - destruct (IH g1) as (n & g2 & Hn & ? & ?); [lia|done|done|]. exists (S n), g2. cbn [gc_steps]. by rw Hr Ok_bind.
Qed.

Lemma pause_leads : leads GCSpause GCSpropagate.
Proof.
  intros g HI Hs. destruct (singlestep_inv g HI) as (g' & Hr & HI'). exists 1%nat, g'. cbn [gc_steps]. rw Hr. split; [done|]. split; [done|]. rw /singlestep Hs /markroot in Hr.
  do 5 apply bind_Ok in Hr as (? & _ & Hr). by injection Hr as <-.
Qed.

Lemma propagate_leads : leads GCSpropagate GCSsweepstring.
Proof.
  apply (leads_measure _ _ work). intros g HI Hs. destruct (gray g) as [|o l] eqn:Hg.
  - destruct (singlestep_inv g HI) as (g' & Hr & HI'). exists g'. split; [done|]. split; [done|]. left. rw /singlestep Hs Hg /atomic in Hr. do 5 apply bind_Ok in Hr as (? & _ & Hr). by injection Hr as <-.
  - destruct (propagate_step g HI Hs) as (g' & Hr & HI' & Hs' & Hw); [by rw Hg|]. exists g'. rw /singlestep Hs Hg. split; [done|]. split; [done|]. by right.
Qed.

Lemma sweepstring_leads : leads GCSsweepstring GCSsweep.
Proof. apply (leads_measure _ _ (fun g => length (strt g) - sweepstrgc g)%nat). intros g HI Hs. by apply sweepstring_step. Qed.

Lemma sweep_leads : leads GCSsweep GCSfinalize.
Proof. apply (leads_measure _ _ sweep_left). intros g HI Hs. by apply sweep_step. Qed.

Lemma finalize_leads : leads GCSfinalize GCSpause.
Proof.
  apply (leads_measure _ _ (fun g => length (tmudata g))). intros g HI Hs. destruct (singlestep_inv g HI) as (g' & Hr & HI'). exists g'. split; [done|]. split; [done|]. rw /singlestep Hs in Hr.
  destruct (tmudata g) as [|o us] eqn:Ht; [left; by injection Hr as <-|]. right. rw /GCTM Ht in Hr. apply bind_Ok in Hr as (x & _ & [= <-]). split; [done|simpl; lia].
Qed.

Lemma cycle_leads s : leads s GCSpause.
Proof.
  pose proof finalize_leads as H5. pose proof (leads_trans _ _ _ sweep_leads H5) as H4. pose proof (leads_trans _ _ _ sweepstring_leads H4) as H3. pose proof (leads_trans _ _ _ propagate_leads H3) as H2.
  destruct s; [exact (leads_trans _ _ _ pause_leads H2)|exact H2|exact H3|exact H4|exact H5].
Qed.


