(* ===== verification/LuaGCOps.v ===== *)
(** LuaGCOps: the operations of LuaState keep the invariant of the collector, if the objects
    that they are given are alive. *)

From Corelib Require Import ssreflect.
From stdpp Require Import base list gmap numbers strings.
From Stdlib Require Import ZArith Lia.
From S2P Require Import Prelude LuaHeap LuaGC LuaGCMark LuaGCInv LuaGCTri LuaGCAtomic LuaGCFinal LuaGCPhase LuaGCSweep LuaGCClose LuaGCStep LuaGCMut LuaGCStore LuaGCUpval LuaState LuaGCOpen.

Implicit Type g : global_State.

(** ** Stacks *)

Lemma alive_lookup g o x : alive g o -> heap g !! o = Some x -> isdead (currentwhite g) (marked x) = false.
Proof. intros (y & Hy & Hd) Hx. by assert (x = y) as -> by congruence. Qed.

Lemma alive_refs g o x : base g -> alive g o -> heap g !! o = Some x -> Forall (alive g) (refs (heap g) (body x)).
Proof. intros HI Ha Hx. apply (i_closed _ HI o x Hx). exact (alive_lookup _ _ _ Ha Hx). Qed.
Lemma alive_typed g o x : base g -> alive g o -> heap g !! o = Some x -> typed g (body x).
Proof. intros HI Ha Hx. apply (i_closed _ HI o x Hx). exact (alive_lookup _ _ _ Ha Hx). Qed.

Lemma alive_stack g th x gt st top cis ups i v : base g -> alive g th -> heap g !! th = Some x -> body x = BThread gt st top cis ups -> st !! i = Some v -> (i < top)%nat -> Forall (alive g) (vref v).
Proof.
  intros HI Ha Hx Hb Hv Hi. pose proof (alive_refs _ _ _ HI Ha Hx) as HF. rw Hb /= in HF. apply Forall_app in HF as [_ HF]. rw Forall_forall in HF. apply Forall_forall. intros c Hc.
  apply HF, list_elem_of_bind. exists v. split; [done|]. apply (list_elem_of_lookup_2 _ i). by rw lookup_take_lt.
Qed.

(** The open upvalues of a thread are below a slot. *)
Definition upvals_below g (th : loc) (top : nat) : Prop :=
  forall n t ups uv i, sk g th = Some (SkThread n t ups) -> uv ∈ ups -> sk g uv = Some (SkOpen th i) -> (i < top)%nat.

(** A new body of a thread, with its open upvalues. *)
Lemma set_stack_inv g th n0 top0 ups gt st top cis : inv g -> sk g th = Some (SkThread n0 top0 ups) -> (top <= length st)%nat -> upvals_below g th top ->
  Forall (alive g) (vref gt ++ (take top st ≫= vref)) ->
  exists g', set_body g th (BThread gt st top cis ups) = Ok g' /\ inv g' /\ keeps g g' /\ running g' = running g /\ sk g' th = Some (SkThread (length st) top ups) /\ forall c, c <> th -> heap g' !! c = heap g !! c.
Proof.
  intros HI Hth Hle Hup HF. destruct (sk_inv _ _ _ Hth) as (x & Hx & Hk). destruct (store_stack_inv g th x (BThread gt st top cis ups) HI) as (g' & Hg' & HI' & HK).
  - destruct (skel_thread _ _ _ _ Hk) as (gt0 & st0 & cis0 & Hb & _). split; try done; [by rw Hb|]. right. exists n0, top0, (length st), top, ups. split; [done|]. split; [done|]. split; [done|].
    intros uv i Hu Hki. by eapply Hup.
  - by eexists _, _, _.
  - exists g'. split; [done|]. split; [done|]. split; [done|]. rw (set_body_eq _ _ _ _ Hx) in Hg'. injection Hg' as <-. split; [done|].
    split; [by rw /sk /= lookup_insert_eq|]. intros c Hc. by rw /= lookup_insert_ne.
Qed.

Lemma running_alive g : base g -> alive g (running g).
Proof. intros HI. apply (proj1 (Forall_forall _ _) (i_roots _ HI)). rw /roots. set_solver. Qed.

(** The stack of the running thread, and the value on its top. *)
Lemma running_thread g : base g -> exists x gt st top cis ups, heap g !! running g = Some x /\ body x = BThread gt st top cis ups /\ sk g (running g) = Some (SkThread (length st) top ups) /\ (top <= length st)%nat.
Proof.
  intros HI. destruct (s_running _ (i_shape _ HI)) as (n & top & ups & Hr). destruct (sk_inv _ _ _ Hr) as (x & Hx & (gt & st & cis & Hb & Hl)%skel_thread). destruct (s_thread _ (i_shape _ HI) _ _ _ _ Hr) as (_ & Hle & _).
  exists x, gt, st, top, cis, ups. subst n. done.
Qed.

Definition stack_top g : nat := match heap g !! running g with Some (mkObject _ (BThread _ _ top _ _)) => top | _ => 0%nat end.

Lemma stack_top_eq g n top ups : sk g (running g) = Some (SkThread n top ups) -> stack_top g = top.
Proof. intros (x & Hx & (? & ? & ? & Hb & _)%skel_thread)%sk_inv. rw /stack_top Hx. destruct x; simpl in *. by rw Hb. Qed.

Lemma top_value_spec g : base g -> (0 < stack_top g)%nat -> exists v, top_value g = Ok v /\ Forall (alive g) (vref v).
Proof.
  intros HI Hpos. destruct (running_thread g HI) as (x & gt & st & top & cis & ups & Hx & Hb & Hsk & Hle). rw (stack_top_eq _ _ _ _ Hsk) in Hpos.
  rw /top_value (get_eq _ _ _ Hx) Ok_bind Hb. destruct top as [|i]; [lia|]. destruct (lookup_lt_is_Some_2 st i) as (v & Hv); [lia|]. rw Hv. exists v. split; [done|].
  eapply alive_stack; [done|by apply running_alive|done|done|done|lia].
Qed.

Lemma pop_inv g : inv g -> upvals_below g (running g) (Nat.pred (stack_top g)) -> exists g', pop g = Ok g' /\ inv g' /\ keeps g g'.
Proof.
  intros HI Hup. destruct (running_thread g (i_base _ HI)) as (x & gt & st & top & cis & ups & Hx & Hb & Hsk & Hle). rw (stack_top_eq _ _ _ _ Hsk) in Hup.
  rw /pop (get_eq _ _ _ Hx) Ok_bind Hb. destruct (set_stack_inv g (running g) _ _ ups gt st (Nat.pred top) cis HI Hsk) as (g' & ? & ? & ? & _); [lia|done| |by exists g'].
  pose proof (alive_refs _ _ _ (i_base _ HI) (running_alive _ (i_base _ HI)) Hx) as HF. rw Hb /= in HF. apply Forall_app in HF as [? HF]. apply Forall_app. split; [done|].
  rw Forall_forall in HF. apply Forall_forall. intros c (v & Hc & Hv)%list_elem_of_bind. apply HF, list_elem_of_bind. exists v. split; [done|].
  apply list_elem_of_lookup in Hv as (i & Hv). apply lookup_take_Some in Hv as [Hv Hi]. apply (list_elem_of_lookup_2 _ i). rw lookup_take_lt //. lia.
Qed.

Lemma same_sk_upvals g g' th top : same_sk g g' -> upvals_below g th top -> upvals_below g' th top.
Proof. intros [_ Hsk] Hup n t ups uv i. rw !Hsk. apply Hup. Qed.
Lemma same_sk_top g g' : base g -> same_sk g g' -> stack_top g' = stack_top g.
Proof. intros HI [Er Hsk]. destruct (s_running _ (i_shape _ HI)) as (n & top & ups & Hr). rw (stack_top_eq g _ _ _ Hr). apply (stack_top_eq g' n top ups). by rw Hsk Er. Qed.

(** What a store leaves of the precondition of [pop]. *)
Lemma pop_after g g' : inv g -> inv g' -> keeps g g' -> same_sk g g' -> upvals_below g (running g) (Nat.pred (stack_top g)) -> exists g2, pop g' = Ok g2 /\ inv g2 /\ keeps g g2.
Proof.
  intros HI HI' HK HS Hup. destruct (pop_inv g' HI') as (g2 & ? & ? & ?); [|exists g2; split; [done|]; split; [done|by etrans]].
  rw (same_sk_top g g' (i_base _ HI) HS) (proj1 HS). by eapply same_sk_upvals.
Qed.

(** ** Stores *)

(** A store that keeps the kind of an object that is no thread. *)
Lemma store_ok_intro g o x b : heap g !! o = Some x -> skel_of b = skel_of (body x) -> traversable b = traversable (body x) -> open_upval b = false ->
  Forall (alive g) (refs (heap g) b) -> typed g b -> store_ok g o x b.
Proof. intros. split; try done. by left. Qed.

Lemma put_id g o x : heap g !! o = Some x -> put g o x = g.
Proof. intros Hx. rw /put insert_id //. by destruct g. Qed.

(** The backward barrier alone: the table is not black, or what it points to is not white. *)
Lemma barriert_inv g t x v : inv g -> heap g !! t = Some x -> skel_of (body x) = SkTable -> alive g t -> Forall (alive g) (vref v) ->
  exists g', luaC_barriert g t v = Ok g' /\ inv g' /\ keeps g g' /\ same_sk g g' /\
    exists x', heap g' !! t = Some x' /\ body x' = body x /\ (isblack (marked x') = true -> Forall (nonwhite g') (vref v)) /\ forall c, body <$> heap g' !! c = body <$> heap g !! c.
Proof.
  intros HI Hx Hk Ha Hv. destruct (store_table_inv g t x (body x) v HI) as (g' & Hg' & HI' & HK & HSK); try done.
  { apply store_ok_intro; try done; [by destruct (skel_table _ Hk) as (? & ? & ? & ->)|exact (alive_refs _ _ _ (i_base _ HI) Ha Hx)|exact (alive_typed _ _ _ (i_base _ HI) Ha Hx)]. }
  { intros d Hd. auto. }
  assert (set_body g t (body x) = Ok g) as Hid by (rw (set_body_eq _ _ _ _ Hx); f_equal; rw -{2}(put_id _ _ _ Hx); by destruct x).
  rw /store_table Hid Ok_bind in Hg'. exists g'. split; [done|]. split; [done|]. split; [done|]. split; [by apply HSK|].
  destruct v as [| |c]; simpl in Hg'; [injection Hg' as <-; exists x; done..|]. apply Forall_cons in Hv as [(y & Hy & Hdy) _].
  rw /luaC_objbarriert (get_eq _ _ _ Hy) Ok_bind in Hg'. destruct (iswhite (marked y)) eqn:Hw; [|injection Hg' as <-; exists x; split; [done|]; split; [done|]; split; [|done]; intros _; apply Forall_singleton; by exists y].
  rw (get_eq _ _ _ Hx) Ok_bind in Hg'. destruct (isblack (marked x)) eqn:Hbl; [|injection Hg' as <-; exists x; split; [done|]; split; [done|]; split; [congruence|done]].
  rw /luaC_barrierback (get_eq _ _ _ Hx) Ok_bind in Hg'. apply bind_Ok in Hg' as (_ & _ & Hg'). apply bind_Ok in Hg' as (_ & _ & Hg'). rw (set_marks_eq _ _ _ _ Hx) Ok_bind in Hg'. injection Hg' as <-.
  eexists. split; [by rw /= lookup_insert_eq|]. split; [done|]. split; [done|]. intros d. apply (put_bodies g t x _ Hx d).
Qed.

(** A new entry: a table with a key and a value that are alive. *)
Lemma settable_inv g t x b k v : inv g -> heap g !! t = Some x -> skel_of (body x) = SkTable -> skel_of b = SkTable -> alive g t -> Forall (alive g) (vref k) -> Forall (alive g) (vref v) ->
  (forall d, d ∈ refs (heap g) b -> d ∈ vref v \/ d ∈ vref k \/ d ∈ refs (heap g) (body x)) -> typed g b ->
  exists g', settable g t b k v = Ok g' /\ inv g' /\ keeps g g'.
Proof.
  intros HI Hx Hk Hkb Ha Hak Hav Hsub Hty. destruct (barriert_inv g t x k HI Hx Hk Ha Hak) as (g1 & Hg1 & HI1 & HK1 & HSK1 & x1 & Hx1 & Hb1 & Hbl & Hbodies).
  rw /settable Hg1 Ok_bind. assert (refs (heap g1) b = refs (heap g) b) as Hr1 by (by apply refs_same). assert (refs (heap g1) (body x1) = refs (heap g) (body x)) as Hr2 by (rw Hb1; by apply refs_same).
  assert (forall os, Forall (alive g) os -> Forall (alive g1) os) as HKs by (intros os HF; eapply Forall_impl; [exact HF|apply HK1]).
  destruct (store_table_inv g1 t x1 b v) as (g2 & Hg2 & HI2 & HK2 & _); try done.
  - apply store_ok_intro; try done; [by rw Hb1 Hk|rw Hb1; destruct (skel_table _ Hk) as (? & ? & ? & ->), (skel_table _ Hkb) as (? & ? & ? & ->); done|by destruct (skel_table _ Hkb) as (? & ? & ? & ->)| |by apply (typed_sk g); [apply HSK1|]].
    rw Hr1. apply Forall_forall. intros d Hd. pose proof (alive_refs _ _ _ (i_base _ HI) Ha Hx) as HFx. destruct (Hsub d Hd) as [?|[?|?]]; apply HK1; [by apply (proj1 (Forall_forall _ _) Hav)|by apply (proj1 (Forall_forall _ _) Hak)|by apply (proj1 (Forall_forall _ _) HFx)].
  - by rw Hb1.
  - by apply HK1.
  - by apply HKs.
  - intros d. rw Hr1 Hr2. intros [?|[Hd|?]]%Hsub; [by left| |by right; left]. right; right. intros Hblk. by apply (proj1 (Forall_forall _ _) (Hbl Hblk)).
  - exists g2. split; [done|]. split; [done|by etrans].
Qed.

(** *** A slot of a stack *)

(** The thread may be dead: an upvalue of it may be alive. *)
Section set_slot.
Context (g : global_State) (th : loc) (y : GCObject) (gt : gcvalue) (st : list gcvalue) (top : nat) (cis : list nat) (ups : list loc) (i : nat) (v : gcvalue).
Context (HI : inv g) (Hy : heap g !! th = Some y) (Hb : body y = BThread gt st top cis ups) (Hi : (i < length st)%nat) (Hv : Forall (alive g) (vref v)).

Let g' : global_State := put g th (mkObject (marked y) (BThread gt (<[i := v]> st) top cis ups)).

Lemma slot_same_sk : same_sk g g'.
Proof using Hy Hb. eapply same_sk_put; [done|]. by rw Hb /= length_insert. Qed.

Lemma slot_stack a j : stack_slot (heap g') a j = if decide (a = th /\ j = i) then Some v else stack_slot (heap g) a j.
Proof using Hy Hb Hi.
  rw /stack_slot /g' /=. destruct (decide (a = th)) as [->|]; [|rw lookup_insert_ne //; destruct (decide (a = th /\ j = i)) as [[? _]|]; done]. rw lookup_insert_eq Hy /= Hb.
  destruct (decide (th = th /\ j = i)) as [[_ ->]|Hne]; [by rw list_lookup_insert_eq|]. rw list_lookup_insert_ne //. intros ->. by apply Hne.
Qed.

(** An object other than the thread points to what it did, but for the upvalue of the slot. *)
Lemma slot_refs c z : heap g !! c = Some z -> c <> th -> refs (heap g') (body z) = refs (heap g) (body z) \/ open_upval (body z) = true /\ refs (heap g') (body z) = vref v.
Proof using Hy Hb Hi.
  intros Hz Hne. destruct (body z) as [| |[a j|]| | | | |]; try by left. rw /= /upval_refs /= slot_stack. destruct (decide (a = th /\ j = i)); [by right|by left].
Qed.

Lemma slot_thread_refs : refs (heap g') (BThread gt (<[i := v]> st) top cis ups) ⊆ vref v ++ refs (heap g) (body y).
Proof using Hy Hb Hi.
  clear HI Hv. rw Hb /=. intros c [Hc|(w & Hc & Hw)%list_elem_of_bind]%elem_of_app; [set_solver|]. apply list_elem_of_lookup in Hw as (j & Hw). apply lookup_take_Some in Hw as [Hw Hj].
  destruct (decide (j = i)) as [->|Hne]; [rw list_lookup_insert_eq // in Hw; injection Hw as <-; set_solver|]. rw list_lookup_insert_ne // in Hw. apply elem_of_app. right. apply elem_of_app. right.
  apply list_elem_of_bind. exists w. split; [done|]. apply (list_elem_of_lookup_2 _ j). by rw lookup_take_lt.
Qed.

Lemma slot_base : base g'.
Proof using HI Hy Hb Hi Hv.
  pose proof slot_same_sk as [_ Hsk]. apply (base_transfer g); try done; [apply HI|apply (shape_ext g); [done|done|apply HI]|..].
  - intros c z Hz. apply put_lookup in Hz as [[-> ->]|[_ Hz]]; [|by apply (i_sane _ HI c)]. pose proof (i_sane _ HI th y Hy) as Hs. by rw /sane_object Hb in Hs.
  - intros c z Hz Hd. assert (Forall (alive g) (refs (heap g') (body z)) /\ typed g (body z)) as [? ?]; [|split; [done|by apply (typed_sk g)]].
    apply put_lookup in Hz as [[-> ->]|[Hne Hz]].
    + destruct (i_closed _ HI th y Hy Hd) as [HF _]. split; [|done]. pose proof slot_thread_refs as Hsub. apply Forall_forall. intros c Hc. apply Hsub in Hc. rw Forall_forall in HF.
      apply elem_of_app in Hc as [?|?]; [by apply (proj1 (Forall_forall _ _) Hv)|auto].
    + destruct (i_closed _ HI c z Hz Hd) as [HF ?]. split; [|done]. by destruct (slot_refs c z Hz Hne) as [->|[_ ->]].
  - by apply keeps_put_same.
  - apply HI.
  - apply HI.
  - intros c z Hz. apply put_lookup in Hz as [[-> ->]|[_ Hz]]; [|by apply (i_fixed _ HI c)]. simpl. intros Hf. destruct (i_fixed _ HI th y Hy Hf) as [Hk|?]; [by rw Hb in Hk|by right].
Qed.

Lemma slot_inv : inv g'.
Proof using HI Hy Hb Hi Hv.
  pose proof slot_same_sk as [_ Hsk]. eapply inv_quiet; [done|apply slot_base| |done|done|].
  - split; try done; simpl.
    + intros c (z & Hz & Hc). destruct (decide (c = th)) as [->|]; [|exists z; by rw lookup_insert_ne]. eexists. rw lookup_insert_eq. split; [done|]. by assert (z = y) as -> by congruence.
    + intros c z Hz Hd. apply put_lookup in Hz as [[-> ->]|[_ Hz]]; [by exists y|by exists z].
    + intros c z Hz. right. apply put_lookup in Hz as [[-> ->]|[_ Hz]]; [by exists y|by exists z].
    + intros c Hc. by left.
    + intros _. split; [done|]. split; [done|]. intros c Hc. by left.
    + intros c Hc. by left.
    + intros c n t us uv. rw Hsk. intros Hc Hu. right. by exists n, t, us.
  - intros _ _ HT. apply (tri_quiet _ g); try done; [apply slot_base|..].
    + intros c z Hz Hw. apply put_lookup in Hz as [[-> ->]|[Hne Hz]].
      * exists y. rw Hb. split_and!; try done. intros Hbl. destruct (i_sane _ HI th y Hy) as (_ & _ & Hnb & _). by rw Hb Hbl in Hnb.
      * exists z. split_and!; try done. intros Hbl _ d Hd. right. destruct (slot_refs c z Hz Hne) as [<-|[Ho _]]; [done|]. destruct (i_sane _ HI c z Hz) as (_ & _ & Hnb & _). destruct (body z) as [| |[]| | | | |]; try done. by rw Hbl in Hnb.
    + intros c z Hz _. destruct (decide (c = th)) as [->|]; [|exists z; by rw /g' /= lookup_insert_ne]. assert (z = y) as -> by congruence. eexists. rw /g' /= lookup_insert_eq. by rw Hb.
Qed.
End set_slot.

(** OP_SETUPVAL: the upvalue has a value of its own, or is a slot of a stack. *)
Lemma op_setupval_inv g uv x u v : inv g -> heap g !! uv = Some x -> body x = BUpval u -> alive g uv -> Forall (alive g) (vref v) ->
  exists g', op_setupval g uv v = Ok g' /\ inv g' /\ keeps g g'.
Proof.
  intros HI Hx Hb Ha Hv. rw /op_setupval /set_upval_value (get_eq _ _ _ Hx) Ok_bind Hb. destruct u as [th i|w].
  - assert (sk g uv = Some (SkOpen th i)) as Huv by (by rw (sk_lookup _ _ _ Hx) Hb). destruct (s_open _ (i_shape _ HI) _ _ _ Huv) as (n & top & ups & Hth & _ & Hi).
    destruct (s_thread _ (i_shape _ HI) _ _ _ _ Hth) as (_ & Hle & _). destruct (sk_inv _ _ _ Hth) as (y & Hy & (gt & st & cis & Hby & Hl)%skel_thread). rw (get_eq _ _ _ Hy) Ok_bind Hby.
    destruct (decide (i < length st)%nat) as [Hlt|]; [|lia]. rw (set_body_eq _ _ _ _ Hy) Ok_bind. pose proof (slot_inv g th y gt st top cis ups i v HI Hy Hby Hlt Hv) as HI1.
    pose proof (keeps_put_same g th y (BThread gt (<[i:=v]> st) top cis ups) Hy) as HK. set (g1 := put g th _) in *. exists g1. split; [|done].
    assert (heap g1 !! uv = Some x) as Hx1 by (rw /g1 /= lookup_insert_ne //; intros ->; congruence).
    destruct v as [| |c]; try done. apply Forall_cons in Hv as [Hc _]. destruct (HK c Hc) as (z & Hz & _). rw /luaC_barrier /luaC_objbarrier (get_eq _ _ _ Hz) Ok_bind (get_eq _ _ _ Hx1) Ok_bind.
    destruct (i_sane _ HI uv x Hx) as (_ & _ & Hnb & _). rw Hb /= in Hnb. rw Hnb. by destruct (iswhite (marked z)).
  - change (exists g', store_object g uv (BUpval (UClosed v)) v = Ok g' /\ inv g' /\ keeps g g'). destruct (store_object_inv g uv x (BUpval (UClosed v)) v) as (g' & ? & ? & ? & _); try done; [|by left|by exists g'].
    by apply store_ok_intro; rw ?Hb.
Qed.

(** ** lua_setmetatable() and lua_setfenv() *)

Lemma set_body_store g o b t : (g ← set_body g o b; luaC_objbarrier g o t) = store_object g o b (VRef t).
Proof. done. Qed.
Lemma set_body_store_table g o b t : (g ← set_body g o b; luaC_objbarriert g o t) = store_table g o b (VRef t).
Proof. done. Qed.

(** The metatable of a table, or of a userdata. *)
Lemma set_table_mt g o x m0 a ns m : inv g -> heap g !! o = Some x -> body x = BTable m0 a ns -> alive g o -> Forall (fun t => alive g t /\ sk g t = Some SkTable) (oref m) ->
  exists g', (g ← set_body g o (BTable m a ns); match m with Some t => luaC_objbarriert g o t | None => Ok g end) = Ok g' /\ inv g' /\ keeps g g' /\ same_sk g g'.
Proof.
  intros HI Hx Hb Ha Hm. pose proof (alive_refs _ _ _ (i_base _ HI) Ha Hx) as HF. pose proof (alive_typed _ _ _ (i_base _ HI) Ha Hx) as Ht. rw Hb /= in HF, Ht. apply Forall_app in HF as [_ HF].
  assert (Forall (alive g) (oref m)) as Hma by (eapply Forall_impl; [exact Hm|]; by intros t [? _]). assert (Forall (fun t => sk g t = Some SkTable) (oref m)) as Hmt by (eapply Forall_impl; [exact Hm|]; by intros t [_ ?]).
  set (v := match m with Some t => VRef t | None => VNil end). assert (vref v = oref m) as Hv by (by rw /v; destruct m).
  destruct (store_table_inv g o x (BTable m a ns) v) as (g' & Hg' & HI' & HK & HSK); try done.
  - apply store_ok_intro; rw ?Hb //; [by apply Forall_app|]. split; [done|apply Ht].
  - by rw Hb.
  - by rw Hv.
  - intros d. rw Hv Hb /=. set_solver.
  - exists g'. split; [rw -Hg' /store_table /v; destruct m; [done|]; rw (set_body_eq _ _ _ _ Hx) //|]. split; [done|]. split; [done|]. apply HSK. by rw Hb.
Qed.
Lemma set_udata_mt g o x m0 e m : inv g -> heap g !! o = Some x -> body x = BUdata m0 e -> alive g o -> Forall (fun t => alive g t /\ sk g t = Some SkTable) (oref m) ->
  exists g', (g ← set_body g o (BUdata m e); match m with Some t => luaC_objbarrier g o t | None => Ok g end) = Ok g' /\ inv g' /\ keeps g g' /\ same_sk g g'.
Proof.
  intros HI Hx Hb Ha Hm. pose proof (alive_refs _ _ _ (i_base _ HI) Ha Hx) as HF. rw Hb /= in HF. apply Forall_app in HF as [_ HF].
  assert (Forall (alive g) (oref m)) as Hma by (eapply Forall_impl; [exact Hm|]; by intros t [? _]). assert (Forall (fun t => sk g t = Some SkTable) (oref m)) as Hmt by (eapply Forall_impl; [exact Hm|]; by intros t [_ ?]).
  set (v := match m with Some t => VRef t | None => VNil end). assert (vref v = oref m) as Hv by (by rw /v; destruct m).
  destruct (store_object_inv g o x (BUdata m e) v) as (g' & Hg' & HI' & HK & HSK); try done.
  - apply store_ok_intro; rw ?Hb //; by apply Forall_app.
  - by rw Hv.
  - intros d. rw Hv Hb /=. set_solver.
  - exists g'. split; [rw -Hg' /store_object /v; destruct m; [done|]; rw (set_body_eq _ _ _ _ Hx) //|]. split; [done|]. split; [done|]. apply HSK. by rw Hb.
Qed.

Definition top_table g (or_nil : bool) : Prop := match top_value g with Ok VNil => or_nil = true | Ok (VRef t) => sk g t = Some SkTable | _ => False end.

Lemma lua_setmetatable_inv g obj plain i : inv g -> (0 < stack_top g)%nat -> top_table g true -> upvals_below g (running g) (Nat.pred (stack_top g)) ->
  Forall (alive g) (vref obj) -> value_type g plain obj = Ok i -> (i < length (mt g))%nat -> exists g', lua_setmetatable g obj plain = Ok g' /\ inv g' /\ keeps g g'.
Proof.
  intros HI Hpos Htop Hup Hobj Htt Hi. destruct (top_value_spec g (i_base _ HI) Hpos) as (v & Hv & Hva). rw /lua_setmetatable Hv Ok_bind. rw /top_table Hv in Htop.
  assert (exists m, match v with VNil => Ok None | _ => t ← hvalue v; Ok (Some t) end = Ok m /\ Forall (fun t => alive g t /\ sk g t = Some SkTable) (oref m)) as (m & Hm & Hmo).
  { destruct v as [| |t]; [by exists None|done|]. exists (Some t). split; [done|]. apply Forall_cons in Hva as [? _]. by apply Forall_singleton. }
  rw Hm Ok_bind. cbv zeta.
  assert (exists g', (i ← value_type g plain obj; if decide (i < length (mt g))%nat then Ok (set_roots g (running g) (<[i := m]> (mt g))) else Err OutOfBounds) = Ok g' /\ inv g' /\ keeps g g' /\ same_sk g g') as Hdef.
  { rw Htt Ok_bind. destruct (decide (i < length (mt g))%nat); [|done]. destruct (s_running _ (i_shape _ HI)) as (n & top & ups & Hr). eexists. split; [done|]. split; [|split; [by intros c|by split]].
    eapply set_roots_inv; [done|exact Hr|by apply running_alive, HI|]. pose proof (i_roots _ HI) as HF. rw /roots in HF. apply Forall_app in HF as [HF _]. rw !Forall_cons in HF. destruct HF as (_ & _ & HF).
    apply Forall_app in HF as [_ HF]. rw Forall_forall in HF. apply Forall_forall. intros c (t & Hc & Hin)%list_elem_of_bind. apply list_elem_of_lookup in Hin as (j & Hj).
    apply list_lookup_insert_Some in Hj as [(_ & <- & _)|[_ Hj]]; [by apply (proj1 (Forall_forall _ _) Hmo c Hc)|]. apply HF, list_elem_of_bind. exists t. split; [done|by eapply list_elem_of_lookup_2]. }
  assert (forall r, (exists g', r = Ok g' /\ inv g' /\ keeps g g' /\ same_sk g g') -> exists g', (g ← r; pop g) = Ok g' /\ inv g' /\ keeps g g') as Hpop.
  { intros r (g1 & -> & HI1 & HK1 & HS1). rw Ok_bind. by apply (pop_after g). }
  apply Hpop. destruct obj as [| |o]; [exact Hdef..|]. apply Forall_cons in Hobj as [Ho _]. pose proof Ho as (x & Hx & _). rw (get_eq _ _ _ Hx) Ok_bind.
  destruct (body x) eqn:Hb; [exact Hdef|by eapply set_udata_mt|exact Hdef..|by eapply set_table_mt|exact Hdef|exact Hdef].
Qed.

(** A new environment. *)
Definition with_env (b : gcbody) (t : loc) : option gcbody :=
  match b with
  | BLClosure _ p us => Some (BLClosure t p us)
  | BCClosure _ us => Some (BCClosure t us)
  | BUdata m _ => Some (BUdata m t)
  | BThread _ st top cis ups => Some (BThread (VRef t) st top cis ups)
  | _ => None
  end.

Lemma set_env g o x b t : inv g -> heap g !! o = Some x -> with_env (body x) t = Some b -> alive g o -> alive g t ->
  exists g', (g ← set_body g o b; luaC_objbarrier g o t) = Ok g' /\ inv g' /\ keeps g g' /\ same_sk g g'.
Proof.
  intros HI Hx Hb Ha Ht. pose proof (alive_refs _ _ _ (i_base _ HI) Ha Hx) as HF. pose proof (alive_typed _ _ _ (i_base _ HI) Ha Hx) as Hty. rw set_body_store.
  assert (skel_of b = skel_of (body x)) as Hk by (destruct (body x); try done; by injection Hb as <-).
  assert (forall d, d ∈ refs (heap g) b -> d = t \/ d ∈ refs (heap g) (body x)) as Hsub by (destruct (body x); try done; injection Hb as <-; simpl; set_solver).
  destruct (store_object_inv g o x b (VRef t)) as (g' & Hg' & HI' & HK & HSK); try done; [|by apply Forall_singleton| |by exists g'; split_and!; auto].
  - apply store_ok_intro; try done; [destruct (body x); try done; by injection Hb as <-..| |].
    + rw Forall_forall in HF. apply Forall_forall. intros d [->|?]%Hsub; auto.
    + destruct (body x); try done; by injection Hb as <-.
  - intros d [->|?]%Hsub; [left; apply list_elem_of_here|by right].
Qed.

Lemma lua_setfenv_inv g obj : inv g -> (0 < stack_top g)%nat -> top_table g false -> upvals_below g (running g) (Nat.pred (stack_top g)) -> Forall (alive g) (vref obj) ->
  exists r g', lua_setfenv g obj = Ok (r, g') /\ inv g' /\ keeps g g'.
Proof.
  intros HI Hpos Htop Hup Hobj. destruct (top_value_spec g (i_base _ HI) Hpos) as (v & Hv & Hva). rw /lua_setfenv Hv Ok_bind. rw /top_table Hv in Htop. destruct v as [| |t]; [done..|]. rw Ok_bind. apply Forall_cons in Hva as [Ht _].
  assert (forall r : res (bool * global_State), (exists b g', r = Ok (b, g') /\ inv g' /\ keeps g g' /\ same_sk g g') -> exists b g', ('(r, g) ← r; g ← pop g; Ok (r, g)) = Ok (b, g') /\ inv g' /\ keeps g g') as Hpop.
  { intros r (b & g1 & -> & HI1 & HK1 & HS1). rw Ok_bind. destruct (pop_after g g1 HI HI1 HK1 HS1 Hup) as (g2 & -> & ? & ?). rw Ok_bind. by exists b, g2. }
  assert (exists b g', Ok (false, g) = Ok (b, g') /\ inv g' /\ keeps g g' /\ same_sk g g') as Hno by (by exists false, g; split_and!).
  apply Hpop. destruct obj as [| |o]; [exact Hno..|]. apply Forall_cons in Hobj as [Ho _]. pose proof Ho as (x & Hx & _). rw (get_eq _ _ _ Hx) Ok_bind.
  assert (forall b, with_env (body x) t = Some b -> exists r g', (g ← set_body g o b; g ← luaC_objbarrier g o t; Ok (true, g)) = Ok (r, g') /\ inv g' /\ keeps g g' /\ same_sk g g') as Hset.
  { intros b Hb. destruct (set_env g o x b t HI Hx Hb Ho Ht) as (g' & Hg' & ?). exists true, g'. split; [|done]. apply bind_Ok in Hg' as (g1 & -> & Hg'). by rw Ok_bind Hg' Ok_bind. }
  destruct (body x) eqn:Hb; [exact Hno|by apply Hset|exact Hno|by apply Hset|by apply Hset|exact Hno|exact Hno|by apply Hset].
Qed.
