(* ===== verification/LuaGCNew.v ===== *)
(** LuaGCNew: new threads (lstate.c) and closures (OP_CLOSURE of lvm.c) keep the invariant of
    the collector. *)

From Corelib Require Import ssreflect.
From stdpp Require Import base list gmap numbers strings.
From Stdlib Require Import ZArith Lia.
From S2P Require Import Prelude LuaHeap LuaGC LuaGCMark LuaGCInv LuaGCTri LuaGCAtomic LuaGCFinal LuaGCPhase LuaGCSweep LuaGCClose LuaGCStep LuaGCMut LuaGCStore LuaGCUpval LuaState LuaGCOpen LuaGCOps.

Implicit Type g : global_State.

Lemma link_alive g o b : one_white (currentwhite g) -> alive (luaC_link g o b) o.
Proof. intros Hw. eexists. split; [by rw /= lookup_insert_eq|]. apply (luaC_white_clean _ b Hw). Qed.

Lemma no_upvals_below g th n top t : sk g th = Some (SkThread n top []) -> upvals_below g th t.
Proof. intros Hth n' t' ups uv i Hth' Hin. rw Hth in Hth'. injection Hth' as <- <- <-. by apply elem_of_nil in Hin. Qed.

Lemma replicate_nil_refs k j : take j (replicate k VNil) ≫= vref = [].
Proof. revert j. induction k as [|k IH]; intros [|j]; try done. apply IH. Qed.

Section new.
Context (alloc : gset loc -> loc) (alloc_fresh : forall X, alloc X ∉ X).

Lemma luaE_newthread_inv g L n top ups : inv g -> sk g L = Some (SkThread n top ups) -> alive g L ->
  exists L1 g', luaE_newthread alloc g L = Ok (L1, g') /\ inv g' /\ keeps g g' /\ alive g' L1.
Proof using alloc_fresh.
  intros HI HL Ha. rw /luaE_newthread. set (L1 := new_loc alloc g). pose proof (new_loc_fresh alloc alloc_fresh g : heap g !! L1 = None) as Hfresh. set (g1 := luaC_link g L1 preinit_state).
  assert (L1 <> L) as Hne by (intros Heq; rw Heq in Hfresh; by rw /sk Hfresh in HL).
  assert (inv g1) as HI1 by (apply luaC_link_inv; try done; [by left|by intros ? ? ? [= <- <- <-]]). pose proof (link_alive g L1 preinit_state (i_white _ HI) : alive g1 L1) as Ha1.
  set (x1 := mkObject (luaC_white (currentwhite g)) preinit_state). assert (heap g1 !! L1 = Some x1) as Hx1 by (by rw /g1 /= lookup_insert_eq).
  assert (sk g1 L1 = Some (SkThread 0 0 [])) as Hs1 by (by rw (sk_lookup _ _ _ Hx1)). rw /stack_init (get_eq _ _ _ Hx1) Ok_bind /=.
  destruct (set_stack_inv g1 L1 0 0 [] VNil (replicate 45 VNil) 1 [21%nat] HI1 Hs1) as (g2 & Hg2 & HI2 & HK2 & _ & Hs2 & Ho2); [simpl; lia|by eapply no_upvals_below|done|].
  rw Hg2 Ok_bind. destruct (sk_inv _ _ _ HL) as (y & Hy & (v & st & cis & Hb & _)%skel_thread). assert (heap g2 !! L = Some y) as Hy2 by (rw Ho2 //; by rw /g1 /= lookup_insert_ne).
  rw /gt (get_eq _ _ _ Hy2) Ok_bind Hb Ok_bind. pose proof (keeps_link g L1 preinit_state Hfresh : keeps g g1) as HK1.
  rw (set_body_eq _ _ _ _ Hx1) in Hg2. injection Hg2 as Hg2. set (x2 := mkObject (marked x1) (BThread VNil (replicate 45 VNil) 1 [21%nat] [])). assert (heap g2 !! L1 = Some x2) as Hx2 by (by rw -Hg2 /= lookup_insert_eq).
  rw /set_gt (get_eq _ _ _ Hx2) Ok_bind. cbn [body x2].
  destruct (set_stack_inv g2 L1 45 1 [] v (replicate 45 VNil) 1 [21%nat] HI2) as (g3 & Hg3 & HI3 & HK3 & _); [by rw (sk_lookup _ _ _ Hx2)|simpl; lia|exact (no_upvals_below _ _ _ _ _ Hs2)| |].
  { rw replicate_nil_refs app_nil_r. pose proof (alive_refs _ _ _ (i_base _ HI) Ha Hy) as HF. rw Hb /= in HF. apply Forall_app in HF as [HF _]. eapply Forall_impl; [exact HF|]. intros c Hc. by apply HK2, HK1. }
  rw Hg3 Ok_bind. rw (set_body_eq _ _ _ _ Hx2) in Hg3. injection Hg3 as Hg3. assert (heap g3 !! L1 = Some (mkObject (marked x1) (BThread v (replicate 45 VNil) 1 [21%nat] []))) as Hx3 by (by rw -Hg3 /= lookup_insert_eq).
  rw (get_eq _ _ _ Hx3) Ok_bind /=. pose proof (luaC_white_clean _ preinit_state (i_white _ HI)) as [Hw _]. simpl in Hw. rw Hw /=. exists L1, g3. split; [done|]. split; [done|]. split; [intros c Hc; by apply HK3, HK2, HK1|]. by apply HK3, HK2.
Qed.

(** ** OP_CLOSURE *)

(** The upvalues that the instruction refers to are there. *)
Definition desc_ok (us : list loc) (top base : nat) (d : upvalue_desc) : Prop :=
  match d with GetUpval b => (b < length us)%nat | Move b => (base + b < top)%nat end.

Lemma closure_upvals_inv ds th cl ncl base n top ups env p us g x y e q vs : inv g -> sk g th = Some (SkThread n top ups) -> alive g th ->
  heap g !! cl = Some x -> body x = BLClosure env p us -> alive g cl -> heap g !! ncl = Some y -> body y = BLClosure e q vs -> iswhite (marked y) = true -> alive g ncl -> ncl <> cl ->
  Forall (desc_ok us top base) ds -> exists g', closure_upvals alloc ds th cl ncl base g = Ok g' /\ inv g' /\ keeps g g' /\ exists ups', sk g' th = Some (SkThread n top ups').
Proof using alloc_fresh.
  revert ups g y vs. induction ds as [|d ds IH]; intros ups g y vs HI Hth Hath Hx Hb Hacl Hy Hby Hw Han Hne Hds; [exists g; split_and!; eauto; by intros|].
  apply Forall_cons in Hds as [Hd Hds]. cbn [closure_upvals].
  assert (exists uv g1, match d with GetUpval b => x ← get g cl; match body x with BLClosure _ _ us => match us !! b with Some uv => Ok (uv, g) | None => Err OutOfBounds end | _ => Err AssertFail end
      | Move b => luaF_findupval g th (base + b) (new_loc alloc g) end = Ok (uv, g1) /\ inv g1 /\ keeps g g1 /\ alive g1 uv /\
      (exists ups', sk g1 th = Some (SkThread n top ups')) /\ heap g1 !! cl = Some x /\ heap g1 !! ncl = Some y) as (uv & g1 & Hr & HI1 & HK1 & Hau & (ups1 & Hth1) & Hx1 & Hy1).
  { destruct d as [b|b].
    - rw (get_eq _ _ _ Hx) Ok_bind Hb. destruct (lookup_lt_is_Some_2 us b Hd) as (uv & Hu). rw Hu. exists uv, g. split; [done|]. split; [done|]. split; [done|]. split; [|by eauto].
      pose proof (alive_refs _ _ _ (i_base _ HI) Hacl Hx) as HF. rw Hb /= in HF. rw !Forall_cons in HF. destruct HF as (_ & _ & HF). by eapply Forall_lookup_1.
    - destruct (luaF_findupval_inv g th n top ups (base + b) (new_loc alloc g) HI Hth Hath Hd (new_loc_fresh alloc alloc_fresh g)) as (uv & g1 & ? & ? & ? & _ & ? & ? & Hcl).
      exists uv, g1. split_and!; try done; apply Hcl; [done|by rw Hb|done|by rw Hby]. }
  rw Hr Ok_bind (get_eq _ _ _ Hy1) Ok_bind Hby (set_body_eq _ _ _ _ Hy1) Ok_bind. set (b' := BLClosure e q (vs ++ [uv])). assert (keeps g1 (put g1 ncl (mkObject (marked y) b'))) as HK2 by (by apply keeps_put_same).
  assert (inv (put g1 ncl (mkObject (marked y) b'))) as HI2.
  { apply store_inv; [done| |]; [apply store_ok_intro; rw ?Hby //|intros _ Hbl; destruct (i_sane _ HI ncl y Hy) as (_ & Hs & _); by rw Hw Hbl in Hs].
    pose proof (alive_refs _ _ _ (i_base _ HI1) (HK1 _ Han) Hy1) as HF. rw Hby /= in HF. rw /= !Forall_cons Forall_app in HF |- *. rw Forall_singleton. tauto. }
  destruct (IH ups1 (put g1 ncl (mkObject (marked y) b')) (mkObject (marked y) b') (vs ++ [uv])) as (g3 & ? & ? & HK3 & ?); try done.
  - assert (ncl <> th) by (intros ->; by rw (sk_lookup _ _ _ Hy1) Hby in Hth1). by rw /sk /= lookup_insert_ne.
  - by apply HK2, HK1.
  - by rw /= lookup_insert_ne.
  - by apply HK2, HK1.
  - by rw /= lookup_insert_eq.
  - by apply HK2, HK1.
  - exists g3. split; [done|]. split; [done|]. split; [|done]. intros c Hc. by apply HK3, HK2, HK1.
Qed.

Lemma op_closure_inv g th cl base a bx ds n top ups x env p us xp src k names ps lv q : inv g -> sk g th = Some (SkThread n top ups) -> alive g th ->
  heap g !! cl = Some x -> body x = BLClosure env p us -> alive g cl -> heap g !! p = Some xp -> body xp = BProto src k names ps lv -> ps !! bx = Some (Some q) ->
  Forall (desc_ok us top base) ds -> (base + a < n)%nat -> exists ncl g', op_closure alloc g th cl base a bx ds = Ok (ncl, g') /\ inv g' /\ keeps g g' /\ alive g' ncl.
Proof using alloc_fresh.
  intros HI Hth Hath Hx Hb Hacl Hxp Hbp Hq Hds Ha. rw /op_closure (get_eq _ _ _ Hx) Ok_bind Hb (get_eq _ _ _ Hxp) Ok_bind Hbp Hq. cbv zeta.
  set (ncl := new_loc alloc g). pose proof (new_loc_fresh alloc alloc_fresh g : heap g !! ncl = None) as Hfresh. set (g1 := luaC_link g ncl (BLClosure env q [])).
  pose proof (alive_refs _ _ _ (i_base _ HI) Hacl Hx) as HF. rw Hb /= in HF. rw !Forall_cons in HF. destruct HF as (Henv & Hp & _).
  assert (alive g q) as Haq.
  { pose proof (alive_refs _ _ _ (i_base _ HI) Hp Hxp) as HF. rw Hbp /= in HF. rw !Forall_app in HF. destruct HF as (_ & _ & _ & HF & _). rw Forall_forall in HF. apply HF, list_elem_of_bind.
    exists (Some q). split; [apply list_elem_of_here|by eapply list_elem_of_lookup_2]. }
  assert (inv g1) as HI1 by (apply luaC_link_inv; try done; [by left|by repeat (apply Forall_cons; split)]). pose proof (keeps_link g ncl (BLClosure env q []) Hfresh : keeps g g1) as HK1.
  assert (ncl <> cl /\ ncl <> th) as [Hnc Hnt] by (split; intros Heq; rw Heq in Hfresh; [congruence|by rw /sk Hfresh in Hth]).
  destruct (closure_upvals_inv ds th cl ncl base n top ups env p us g1 x (mkObject (luaC_white (currentwhite g)) (BLClosure env q [])) env q []) as (g2 & -> & HI2 & HK2 & ups2 & Hth2); try done.
  { by rw /sk /= lookup_insert_ne. }
  { by apply HK1. }
  { by rw /g1 /= lookup_insert_ne. }
  { by apply HK1. }
  { by rw /g1 /= lookup_insert_eq. }
  { apply (luaC_white_clean _ (BLClosure env q []) (i_white _ HI)). }
  { by apply link_alive, HI. }
  rw Ok_bind. destruct (sk_inv _ _ _ Hth2) as (y & Hy & (v & st & cis & Hby & Hl)%skel_thread). rw (get_eq _ _ _ Hy) Ok_bind Hby. destruct (decide (base + a < length st)%nat) as [Hlt|]; [|lia].
  rw (set_body_eq _ _ _ _ Hy) Ok_bind. eexists ncl, _. split; [done|]. assert (alive g2 ncl) as Han by (by apply HK2, link_alive, HI).
  split; [apply (slot_inv g2 th y v st top cis ups2 (base + a) (VRef ncl)); try done; by apply Forall_singleton|]. pose proof (keeps_put_same g2 th y (BThread v (<[(base + a)%nat := VRef ncl]> st) top cis ups2) Hy) as HK3.
  split; [intros c Hc; by apply HK3, HK2, HK1|by apply HK3].
Qed.
End new.
