(* ===== verification/LuaGCSafe.v ===== *)
(** LuaGCSafe: the program and the collector together. A run is a sequence of operations of the
    interpreter and steps of the collector (lgc.c, lapi.c, lvm.c, lfunc.c, lstate.c, lstring.c), in
    any order, from a new state. What the interpreter uses it has reached from the roots, or
    made since the last step of the collector. No object that it can reach is ever freed. *)

From Corelib Require Import ssreflect.
From stdpp Require Import base list gmap numbers strings.
From Stdlib Require Import ZArith Lia.
From S2P Require Import Prelude LuaHeap LuaGC LuaGCMark LuaGCInv LuaGCTri LuaGCAtomic LuaGCFinal LuaGCPhase LuaGCSweep LuaGCClose LuaGCStep LuaGCMut LuaGCStore LuaGCUpval LuaState LuaGCOpen LuaGCOps LuaGCNew.

Implicit Type g : global_State.
Implicit Type held : list loc.

(** ** Reachability *)

(** Objects that C code holds in variables count as roots. *)
Inductive reach g held : loc -> Prop :=
| reach_root o : o ∈ roots g ++ held -> reach g held o
| reach_ref o x c : reach g held o -> heap g !! o = Some x -> c ∈ refs (heap g) (body x) -> reach g held c.

Lemma reach_alive g held o : base g -> Forall (alive g) held -> reach g held o -> alive g o.
Proof.
  intros HI Hh Hr. induction Hr as [o Ho|o x c _ Ha Hx Hc].
  - apply elem_of_app in Ho as [Ho|Ho]; [apply (proj1 (Forall_forall _ _) (i_roots _ HI)); set_solver|by apply (proj1 (Forall_forall _ _) Hh)].
  - by apply (proj1 (Forall_forall _ _) (alive_refs _ _ _ HI Ha Hx)).
Qed.

Lemma reaches_alive g held os : base g -> Forall (alive g) held -> Forall (reach g held) os -> Forall (alive g) os.
Proof. intros HI Hh HF. eapply Forall_impl; [exact HF|]. intros o. by apply reach_alive. Qed.

(** ** Operations *)

Inductive operation :=
| Collect                                                        (* singlestep() *)
| FullgcReset                                                    (* the beginning of luaC_fullgc() *)
| FullgcMark                                                     (* its call of markroot() *)
| Link (b : gcbody)                                              (* luaC_link() *)
| NewUdata (e : loc)
| NewString (s : list Z)
| NewThread (L : loc)
| Closure (th cl : loc) (base a bx : nat) (ds : list upvalue_desc) (* OP_CLOSURE *)
| Close (th : loc) (level : nat)                                 (* luaF_close() *)
| SetUpval (uv : loc) (v : gcvalue)                              (* OP_SETUPVAL *)
| SetTable (t : loc) (b : gcbody) (k v : gcvalue)                (* luaV_settable(), lua_rawset() *)
| SetObject (o : loc) (b : gcbody) (v : gcvalue)                 (* a store followed by luaC_barrier() *)
| SetStack (th : loc) (gt : gcvalue) (st : list gcvalue) (top : nat) (cis : list nat)
| SetMetatable (obj : gcvalue) (plain : nat)                     (* lua_setmetatable() *)
| SetFenv (obj : gcvalue)                                        (* lua_setfenv() *)
| Resume (th : loc).                                             (* another thread calls the functions *)

Section runs.
Context (alloc : gset loc -> loc).

(** The objects that the operation makes or finds, and the state. A finalizer is called with its userdata. *)
Definition run_op (op : operation) g : res (list loc * global_State) :=
  match op with
  | Collect => g' ← singlestep g; Ok (match gcstate g with GCSfinalize => take 1 (tmudata g) | _ => [] end, g')
  | FullgcReset => Ok ([], fullgc_reset g)
  | FullgcMark => g' ← markroot g; Ok ([], g')
  | Link b => Ok ([new_loc alloc g], luaC_link g (new_loc alloc g) b)
  | NewUdata e => Ok ([new_loc alloc g], luaS_newudata g (new_loc alloc g) e)
  | NewString s => '(o, g) ← luaS_new alloc g s; Ok ([o], g)
  | NewThread L => '(o, g) ← luaE_newthread alloc g L; Ok ([o], g)
  | Closure th cl base a bx ds => '(o, g) ← op_closure alloc g th cl base a bx ds; Ok ([o], g)
  | Close th level => g ← luaF_close g th level; Ok ([], g)
  | SetUpval uv v => g ← op_setupval g uv v; Ok ([], g)
  | SetTable t b k v => g ← settable g t b k v; Ok ([], g)
  | SetObject o b v => g ← store_object g o b v; Ok ([], g)
  | SetStack th gt st top cis =>
      x ← get g th;
      match body x with
      | BThread _ _ _ _ ups => g ← set_body g th (BThread gt st top cis ups); Ok ([], g)
      | _ => Err AssertFail
      end
  | SetMetatable obj plain => g ← lua_setmetatable g obj plain; Ok ([], g)
  | SetFenv obj => '(_, g) ← lua_setfenv g obj; Ok ([], g)
  | Resume th => Ok ([], set_roots g th (mt g))
  end.

(** C code does not use what it held before the collector ran. *)
Definition now_held (op : operation) (l held : list loc) : list loc := match op with Collect | FullgcMark => l | _ => l ++ held end.

Fixpoint exec (ops : list operation) held g : res (list loc * global_State) :=
  match ops with
  | [] => Ok (held, g)
  | op :: ops => '(l, g) ← run_op op g; exec ops (now_held op l held) g
  end.

Definition is_thread g (th : loc) : Prop := exists n top ups, sk g th = Some (SkThread n top ups).
Definition plain_object (b : gcbody) : Prop := traversable b = true \/ exists v, b = BUpval (UClosed v).

(** What an operation is used with: what it is given it can reach, and it has the right type. *)
Definition allowed (op : operation) held g : Prop :=
  match op with
  | Collect | FullgcReset | NewString _ => True
  | FullgcMark => gcstate g = GCSfinalize
  | Link b => plain_object b /\ (forall n top ups, skel_of b <> SkThread n top ups) /\ Forall (reach g held) (refs (heap g) b) /\ typed g b
  | NewUdata e => reach g held e
  | NewThread L => reach g held L /\ is_thread g L
  | Closure th cl base a bx ds =>
      reach g held th /\ reach g held cl /\
      exists n top ups x env p us xp src k names ps lv q, sk g th = Some (SkThread n top ups) /\ heap g !! cl = Some x /\ body x = BLClosure env p us /\
        heap g !! p = Some xp /\ body xp = BProto src k names ps lv /\ ps !! bx = Some (Some q) /\ Forall (desc_ok us top base) ds /\ (base + a < n)%nat
  | Close th level => is_thread g th
  | SetUpval uv v => reach g held uv /\ Forall (reach g held) (vref v) /\ exists x u, heap g !! uv = Some x /\ body x = BUpval u
  | SetTable t b k v =>
      reach g held t /\ Forall (reach g held) (vref k ++ vref v) /\ skel_of b = SkTable /\ typed g b /\
      exists x, heap g !! t = Some x /\ skel_of (body x) = SkTable /\ forall d, d ∈ refs (heap g) b -> d ∈ vref v \/ d ∈ vref k \/ d ∈ refs (heap g) (body x)
  | SetObject o b v =>
      reach g held o /\ Forall (reach g held) (vref v) /\ typed g b /\ open_upval b = false /\ skel_of b <> SkString /\
      exists x, heap g !! o = Some x /\ skel_of b = skel_of (body x) /\ traversable b = traversable (body x) /\ forall d, d ∈ refs (heap g) b -> d ∈ vref v \/ d ∈ refs (heap g) (body x)
  | SetStack th gt st top cis => is_thread g th /\ (top <= length st)%nat /\ upvals_below g th top /\ Forall (reach g held) (vref gt ++ (take top st ≫= vref))
  | SetMetatable obj plain =>
      (0 < stack_top g)%nat /\ top_table g true /\ upvals_below g (running g) (Nat.pred (stack_top g)) /\ Forall (reach g held) (vref obj) /\
      exists i, value_type g plain obj = Ok i /\ (i < length (mt g))%nat
  | SetFenv obj => (0 < stack_top g)%nat /\ top_table g false /\ upvals_below g (running g) (Nat.pred (stack_top g)) /\ Forall (reach g held) (vref obj)
  | Resume th => is_thread g th /\ reach g held th
  end.

Fixpoint permitted (ops : list operation) held g : Prop :=
  match ops with
  | [] => True
  | op :: ops => allowed op held g /\ forall l g', run_op op g = Ok (l, g') -> permitted ops (now_held op l held) g'
  end.
End runs.

(** ** Every operation keeps the invariant *)

(** The userdata of the finalizer that is called is alive. *)
Lemma collect_held g g' : inv g -> singlestep g = Ok g' -> Forall (alive g') (match gcstate g with GCSfinalize => take 1 (tmudata g) | _ => [] end).
Proof.
  intros HI. rw /singlestep. destruct (gcstate g) eqn:Hs; try done. destruct (tmudata g) as [|o us] eqn:Ht; [done|]. rw /GCTM Ht. intros Hg. apply Forall_cons. split; [|done].
  apply bind_Ok in Hg as (x & Hx & [= <-]). rw /get in Hx. destruct (heap _ !! o) as [y|]; [|done]. injection Hx as ->. eexists. split; [by rw /= lookup_insert_eq|]. simpl. by apply (makewhite_alive _ (marked x) (i_white _ HI)).
Qed.

Section safe.
Context (alloc : gset loc -> loc) (alloc_fresh : forall X, alloc X ∉ X).

(** The state after an operation, and what is held then. *)
Definition step_ok g held (op : operation) (r : res (list loc * global_State)) : Prop := exists l g', r = Ok (l, g') /\ inv g' /\ Forall (alive g') (now_held op l held).

Lemma step_ok_keeps g held op l g' : inv g' -> keeps g g' -> Forall (alive g) held -> Forall (alive g') l -> Forall (alive g') (now_held op l held).
Proof using.
  intros HI HK Hh Hl. assert (Forall (alive g') (l ++ held)) by (apply Forall_app; split; [done|]; eapply Forall_impl; [exact Hh|apply HK]). by destruct op.
Qed.

(** An operation that returns a state, and one that returns an object too. *)
Lemma step_ok_state g held op r : Forall (alive g) held -> (exists g', r = Ok g' /\ inv g' /\ keeps g g') -> step_ok g held op (g ← r; Ok ([], g)).
Proof using. intros Hh (g' & -> & HI & HK). exists [], g'. split; [done|]. split; [done|]. by eapply step_ok_keeps. Qed.
Lemma step_ok_object g held op r : Forall (alive g) held -> (exists o g', r = Ok (o, g') /\ inv g' /\ keeps g g' /\ alive g' o) -> step_ok g held op ('(o, g) ← r; Ok ([o], g)).
Proof using. intros Hh (o & g' & -> & HI & HK & Ho). exists [o], g'. split; [done|]. split; [done|]. eapply step_ok_keeps; [done|done|done|by apply Forall_singleton]. Qed.

Lemma run_inv op held g : inv g -> Forall (alive g) held -> allowed op held g -> step_ok g held op (run_op alloc op g).
Proof using alloc_fresh.
  intros HI Hh Hal. pose proof (reach_alive g held) as Hra. pose proof (reaches_alive g held) as Hras. pose proof (i_base _ HI) as HB. pose proof (new_loc_fresh alloc alloc_fresh g) as Hfresh.
  destruct op as [| | |b|e|s|L|th cl bs a bx ds|th level|uv v|t b k v|o b v|th gt st top cis|obj plain|obj|th]; simpl in Hal; cbn [run_op].
  - destruct (singlestep_inv g HI) as (g' & Hg' & HI'). rw Hg' Ok_bind. eexists _, g'. split; [done|]. split; [done|]. by apply collect_held.
  - exists [], (fullgc_reset g). split; [done|]. split; [by apply fullgc_reset_inv|]. eapply step_ok_keeps; [by apply fullgc_reset_inv| |exact Hh|done].
    intros c Hc. rw /fullgc_reset. by destruct (decide (gcstate g = GCSpause \/ gcstate g = GCSpropagate)).
  - destruct (markroot_step g HI) as (g' & -> & HI'); [pose proof (i_phase _ HI) as Hp; rw /phase_inv Hal in Hp; exact (proj2 Hp)|]. by exists [], g'.
  - destruct Hal as (Hb & Hnt & Hr & Ht). eexists [_], _. split; [done|]. assert (inv (luaC_link g (new_loc alloc g) b)) as HI' by (apply luaC_link_inv; auto; intros n top ups Heq; by destruct (Hnt n top ups)).
    split; [done|]. eapply step_ok_keeps; [done|by apply keeps_link|done|]. apply Forall_singleton. by apply link_alive, HI.
  - eexists [_], _. split; [done|]. assert (inv (luaS_newudata g (new_loc alloc g) e)) as HI' by (apply luaS_newudata_inv; auto). split; [done|]. eapply step_ok_keeps; [done|by apply keeps_newudata|done|].
    apply Forall_singleton. eexists. split; [by rw /= lookup_insert_eq|]. apply (luaC_white_clean _ (BUdata None e) (i_white _ HI)).
  - apply step_ok_object; [done|]. destruct (luaS_newlstr_inv g s (new_loc alloc g) HI Hfresh) as (o & g' & ? & ? & ? & _ & x & Hx & _ & Hd). exists o, g'. split_and!; try done. by exists x.
  - apply step_ok_object; [done|]. destruct Hal as [Hr (n & top & ups & HL)]. eapply luaE_newthread_inv; [done|done|exact HL|by apply Hra].
  - apply step_ok_object; [done|]. destruct Hal as (Hrt & Hrc & n & top & ups & x & env & p & us & xp & src & k & names & ps & lv & q & ? & ? & ? & ? & ? & ? & ? & ?).
    eapply (op_closure_inv alloc alloc_fresh g th cl); try done; by apply Hra.
  - apply step_ok_state; [done|]. destruct Hal as (n & top & ups & Hth). by eapply luaF_close_inv.
  - apply step_ok_state; [done|]. destruct Hal as (Hu & Hv & x & u & Hx & Hb). eapply op_setupval_inv; [done|done|done|by apply Hra|by apply Hras].
  - apply step_ok_state; [done|]. destruct Hal as (Ht & [Hk Hv]%Forall_app & Hkb & Hty & x & Hx & Hkx & Hsub). eapply settable_inv; try done; [by apply Hra|by apply Hras|by apply Hras].
  - apply step_ok_state; [done|]. destruct Hal as (Ho & Hv & Hty & Hop & _ & x & Hx & Hk & Htr & Hsub). destruct (store_object_inv g o x b v HI) as (g' & ? & ? & ? & _); [|by apply Hra|by apply Hras|done|by exists g'].
    apply store_ok_intro; try done. apply Forall_forall. intros d [Hd|Hd]%Hsub; [by apply (proj1 (Forall_forall _ _) (Hras _ HB Hh Hv))|]. by apply (proj1 (Forall_forall _ _) (alive_refs _ _ _ HB (Hra o HB Hh Ho) Hx)).
  - destruct Hal as ((n & top0 & ups & Hth) & Hle & Hup & Hr). destruct (sk_inv _ _ _ Hth) as (x & Hx & (gt0 & st0 & cis0 & Hb & _)%skel_thread). rw (get_eq _ _ _ Hx) Ok_bind Hb.
    apply step_ok_state; [done|]. destruct (set_stack_inv g th n top0 ups gt st top cis HI Hth Hle Hup) as (g' & ? & ? & ? & _); [by apply Hras|by exists g'].
  - apply step_ok_state; [done|]. destruct Hal as (? & ? & ? & Ho & i & ? & ?). eapply lua_setmetatable_inv; try done. by apply Hras.
  - destruct Hal as (? & ? & ? & Ho). destruct (lua_setfenv_inv g obj) as (r & g' & -> & ? & ?); try done; [by apply Hras|]. rw Ok_bind. exists [], g'. split; [done|]. split; [done|by eapply step_ok_keeps].
  - destruct Hal as ((n & top & ups & Hth) & Hr). assert (inv (set_roots g th (mt g))) as HI'.
    { eapply set_roots_inv; [done|done|by apply Hra|]. pose proof (i_roots _ HI) as HF. rw /roots in HF. apply Forall_app in HF as [HF _]. rw !Forall_cons in HF. destruct HF as (_ & _ & HF). by apply Forall_app in HF as [_ ?]. }
    exists [], (set_roots g th (mt g)). split; [done|]. split; [done|]. eapply (step_ok_keeps g); [done|by intros c|done|done].
Qed.

Lemma exec_inv ops held g : inv g -> Forall (alive g) held -> permitted alloc ops held g -> exists held' g', exec alloc ops held g = Ok (held', g') /\ inv g' /\ Forall (alive g') held'.
Proof using alloc_fresh.
  revert held g. induction ops as [|op ops IH]; intros held g HI Hh Hp; [by exists held, g|]. destruct Hp as [Hal Hp]. destruct (run_inv op held g HI Hh Hal) as (l & g1 & Hr & HI1 & Hh1).
  cbn [exec]. rw Hr Ok_bind. apply IH; [done|done|by apply Hp].
Qed.
End safe.
