(* ===== verification/LuaGCFlaws.v ===== *)
(** LuaGCFlaws: stores of lapi.c whose write barrier is not enough, and an assertion of lgc.c
    that can fail, each shown by a run from a new state; and a run of the kind that LuaGCSafe
    shows to be safe. *)

From Corelib Require Import ssreflect.
From stdpp Require Import base list gmap numbers strings.
From Stdlib Require Import ZArith Lia.
From S2P Require Import Prelude LuaHeap LuaGC LuaGCMark LuaGCInv LuaGCPhase LuaGCOpen LuaGCOps LuaState LuaGCSafe.

Implicit Type g : global_State.

(** ** Safety *)


(** ** Runs *)

Definition start : global_State := match lua_newstate fresh with Ok g => g | Err _ => first_state end.
Definition after (ops : list operation) g : global_State := match exec fresh ops [] g with Ok (_, g) => g | Err _ => g end.

(** The stack of the main thread. *)
Definition main_stack (l : list gcvalue) : operation := SetStack 1 (VRef 2) (l ++ replicate (45 - length l) VNil) (length l) [21%nat].

(** *** lua_setupvalue() *)

(** Two functions share an upvalue. One of them is traversed, so that the upvalue is black; the other is not yet. *)
Definition shared_upvalue : list operation :=
  [NewString (lit "u"); Link (BProto None [] [Some 43%positive] [] []); Link (BUpval (UClosed VNil)); Link (BLClosure 2 44 [45%positive]); Link (BLClosure 2 44 [45%positive]);
   main_stack [VNil; VRef 46; VRef 47]] ++ replicate 5 Collect ++ [Link (BTable None [] []); main_stack [VNil; VRef 46; VRef 47; VRef 48]].

Definition setupvalue_state : global_State := match lua_setupvalue (after shared_upvalue start) (VRef 46) 1 with Ok (_, g) => g | Err _ => start end.

(** C37: lua_setupvalue() stores a new table in the upvalue, with the barrier of the closure, which is not black: the
    table is freed while the function can reach it, and the next cycle of the collector reads it. *)
Theorem setupvalue_use_after_free :
  lua_setupvalue (after shared_upvalue start) (VRef 46) 1 = Ok (true, setupvalue_state) /\
  reach (after (replicate 70 Collect) setupvalue_state) [] 48 /\ heap (after (replicate 70 Collect) setupvalue_state) !! 48%positive = None /\
  exec fresh (replicate 75 Collect) [] setupvalue_state = Err UseAfterFree.
Proof.
  split; [vm_compute; reflexivity|]. split; [|split; vm_compute; reflexivity].
  apply (reach_ref _ _ 45 (mkObject (Marks false true false false false false false) (BUpval (UClosed (VRef 48))))).
  - apply (reach_ref _ _ 46 (mkObject (Marks false true false false false false false) (BLClosure 2 44 [45%positive]))).
    + eapply (reach_ref _ _ 1); [apply reach_root; vm_compute; apply list_elem_of_here|vm_compute; reflexivity|]. vm_compute. apply list_elem_of_further, list_elem_of_here.
    + vm_compute. reflexivity.
    + vm_compute. apply list_elem_of_further, list_elem_of_further, list_elem_of_here.
  - vm_compute. reflexivity.
  - vm_compute. apply list_elem_of_here.
Qed.

(** *** lua_replace() *)

(** The registry was marked when the cycle began. *)
Definition marked_registry : list operation := replicate 3 Collect ++ [Link (BTable None [] []); main_stack [VNil; VRef 43]].
Definition replace_state : global_State := match lua_replace (after marked_registry start) RegistryIndex with Ok g => g | Err _ => start end.

(** lua_replace() with the index of the registry has no barrier, and the end of the mark phase does not mark the registry
    again: the new registry is freed at the end of the cycle, and the next cycle reads it. *)
Theorem replace_registry_use_after_free :
  lua_replace (after marked_registry start) RegistryIndex = Ok replace_state /\
  reach (after (replicate 68 Collect) replace_state) [] 43 /\ heap (after (replicate 68 Collect) replace_state) !! 43%positive = None /\
  exec fresh (replicate 69 Collect) [] replace_state = Err UseAfterFree.
Proof.
  split; [vm_compute; reflexivity|]. split; [|split; vm_compute; reflexivity]. apply reach_root. vm_compute. apply list_elem_of_further, list_elem_of_further, list_elem_of_here.
Qed.

(** *** luaC_barrierf() *)

(** A userdata with a finalizer is the key of a weak table, and there is no other pointer to it. *)
Definition weak_key : list operation :=
  [NewString (lit "k"); Link (BTable None [] [(KRef 7, VRef 43)]); Link (BTable None [] [(KRef 6, VPlain 1)]); NewUdata 2; main_stack [VNil; VRef 46; VRef 45]; SetMetatable (VRef 46) 0;
   Link (BTable (Some 44%positive) [] [(KRef 46, VPlain 1)]); main_stack [VNil; VRef 47]] ++ replicate 72 Collect ++ [Link (BTable None [] []); main_stack [VNil; VRef 47; VRef 48]].

(** Before its finalizer is called, when the collector is in its last phase, the userdata is black and can be reached: a
    store in it gets to luaC_barrierf(), whose second assertion fails. The invariant holds all the same. *)
Theorem barrierf_phase_fails :
  let g := after weak_key start in
  reach g [] 46 /\ gcstate g = GCSfinalize /\ luaC_objbarrier g 46 48 = luaC_barrierf g 46 48 /\ barrierf_phase g = false /\ exists g', lua_setmetatable g (VRef 46) 0 = Ok g'.
Proof.
  cbv zeta. split; [|split; [vm_compute; reflexivity|split; [vm_compute; reflexivity|split; [vm_compute; reflexivity|eexists; vm_compute; reflexivity]]]].
  eapply (reach_ref _ _ 47); [eapply (reach_ref _ _ 1); [apply reach_root; vm_compute; apply list_elem_of_here|vm_compute; reflexivity|]|vm_compute; reflexivity|].
  - vm_compute. apply list_elem_of_further, list_elem_of_here.
  - vm_compute. apply list_elem_of_further, list_elem_of_here.
Qed.

(** *** A run *)

Definition small_run : list operation := [NewString (lit "s"); main_stack [VNil; VRef 43]; Collect; Collect].

Lemma permitted_cons op ops held g l g' : allowed op held g -> run_op fresh op g = Ok (l, g') -> permitted fresh ops (now_held op l held) g' -> permitted fresh (op :: ops) held g.
Proof. intros Ha Hr Hp. split; [done|]. intros l2 g2. rw Hr. by intros [= <- <-]. Qed.

Definition with_string : global_State := match run_op fresh (NewString (lit "s")) start with Ok (_, g) => g | Err _ => start end.
Definition with_stack : global_State := match run_op fresh (main_stack [VNil; VRef 43]) with_string with Ok (_, g) => g | Err _ => start end.

Lemma small_run_permitted : permitted fresh small_run [] start.
Proof.
  apply (permitted_cons _ _ _ _ [43%positive] with_string); [exact I|vm_compute; reflexivity|]. apply (permitted_cons _ _ _ _ [] with_stack); [|vm_compute; reflexivity|].
  - split; [by do 3 eexists; vm_compute; reflexivity|]. split; [simpl; lia|]. split.
    + intros n t ups uv i Hk Hin. vm_compute in Hk. injection Hk as _ _ <-. destruct (not_elem_of_nil _ Hin).
    + apply Forall_cons. split; [|apply Forall_cons; split; [|done]].
      * eapply (reach_ref _ _ 1); [apply reach_root; vm_compute; apply list_elem_of_here|vm_compute; reflexivity|]. vm_compute. apply list_elem_of_here.
      * apply reach_root, elem_of_app. right. apply list_elem_of_here.
  - split; [exact I|]. intros l g _. split; [exact I|]. by intros l' g' _.
Qed.

