(* ===== verification/LuaGCKeep.v ===== *)
(** LuaGCKeep: what a step of the collector (singlestep() of lgc.c) does to the contents of the
    objects that it keeps: only entries of weak tables, keys without a value, unused slots of
    stacks, and upvalues of dead threads change. *)

From Corelib Require Import ssreflect.
From stdpp Require Import base list gmap numbers strings.
From Stdlib Require Import ZArith Lia.
From S2P Require Import Prelude LuaHeap LuaGC LuaGCMark LuaGCInv LuaGCTri LuaGCAtomic LuaGCPhase LuaGCSweep LuaGCStep LuaState LuaGCOpen LuaGCSafe LuaGCFlaws.

Implicit Type g : global_State.

(** ** Contents *)

Definition weak_bits (x : GCObject) : bool := bit3 (marked x) || bit4 (marked x).

(** A key without a value may become dead. *)
Definition same_entry (n n' : gckey * gcvalue) : Prop := n' = n \/ n.2 = VNil /\ n' = removeentry n.
(** An entry of a weak table may be removed. *)
Definition less_entry (n n' : gckey * gcvalue) : Prop := same_entry n n' \/ n' = removeentry (n.1, VNil).
Definition less_value (v v' : gcvalue) : Prop := v' = v \/ v' = VNil.

Definition content (x x' : GCObject) : Prop :=
  match body x, body x' with
  | BTable m a ns, BTable m' a' ns' =>
      m' = m /\ Forall2 less_value a a' /\ Forall2 less_entry ns ns' /\ (weak_bits x' = false -> a' = a /\ Forall2 same_entry ns ns') /\ (weak_bits x = true -> weak_bits x' = true)
  | BThread gt st top cis ups, BThread gt' st' top' cis' ups' => gt' = gt /\ length st' = length st /\ take top st' = take top st /\ top' = top /\ cis' = cis /\ ups' = ups
  | b, b' => b' = b
  end.

Lemma Forall2_same {A} (R : A -> A -> Prop) l : (forall a, R a a) -> Forall2 R l l.
Proof. intros HR. induction l; by constructor. Qed.

Lemma Forall2_trans {A} (R : A -> A -> Prop) l1 l2 l3 : (forall a b c, R a b -> R b c -> R a c) -> Forall2 R l1 l2 -> Forall2 R l2 l3 -> Forall2 R l1 l3.
Proof. intros HR H12. revert l3. induction H12 as [|a b l1 l2 Hab _ IH]; intros l3 H; inversion H; subst; constructor; [by eapply HR|auto]. Qed.

Lemma content_same x x' : body x' = body x -> (weak_bits x = true -> weak_bits x' = true) -> content x x'.
Proof.
  intros Hb Hw. rw /content Hb. destruct (body x); try done. split; [done|]. split; [by apply Forall2_same; left|]. split; [by apply Forall2_same; left; left|]. split; [|done].
  intros _. split; [done|]. by apply Forall2_same; left.
Qed.

Lemma same_entry_trans n1 n2 n3 : same_entry n1 n2 -> same_entry n2 n3 -> same_entry n1 n3.
Proof. intros [->|[Hn ->]]; [done|]. intros [->|[_ ->]]; right; (split; [done|]); [done|]. destruct n1 as [[] v]; done. Qed.
Lemma less_entry_trans n1 n2 n3 : less_entry n1 n2 -> less_entry n2 n3 -> less_entry n1 n3.
Proof.
  intros H12 [H23| ->].
  - destruct H12 as [H12| ->]; [left; by eapply same_entry_trans|]. right. destruct H23 as [->|[_ ->]]; [done|]. destruct n1 as [[] v]; done.
  - right. destruct H12 as [[->|[_ ->]]| ->]; destruct n1 as [[] v]; done.
Qed.

Lemma content_trans x1 x2 x3 : content x1 x2 -> content x2 x3 -> content x1 x3.
Proof.
  rw /content. destruct (body x1) as [| |v1| | |m1 a1 n1| |g1 s1 t1 c1 u1] eqn:B1; destruct (body x2) as [| |v2| | |m2 a2 n2| |g2 s2 t2 c2 u2] eqn:B2; try (intros [=]; done); try done; try (intros <-; done).
  - intros (-> & Ha & Hn & Hw & Hk). destruct (body x3) as [| |v3| | |m3 a3 n3| |]; try done. intros (-> & Ha' & Hn' & Hw' & Hk'). split; [done|].
    split; [eapply Forall2_trans; [|exact Ha|exact Ha']; intros u v w [->| ->] [->| ->]; rw /less_value; tauto|]. split; [by eapply Forall2_trans; [apply less_entry_trans|..]|]. split; [|auto].
    intros Hb. destruct (Hw' Hb) as [-> HF']. destruct Hw as [-> HF]; [destruct (weak_bits x2) eqn:H2; [rw Hk' // in Hb|done]|]. split; [done|]. by eapply Forall2_trans; [apply same_entry_trans|..].
  - intros (-> & Hl & Ht & -> & -> & ->). destruct (body x3); try done. intros (-> & Hl' & Ht' & -> & -> & ->). split_and!; congruence.
Qed.

(** What the phases of a collection do not change. *)
Definition statics g : list loc * list (list loc) := (roots g, strt g).

(** No object appears, and those that stay have their contents. *)
Definition contents_kept g g' : Prop := statics g' = statics g /\ forall o x', heap g' !! o = Some x' -> exists x, heap g !! o = Some x /\ content x x'.

#[export] Instance contents_kept_refl : Reflexive contents_kept.
Proof. intros g. split; [done|]. intros o x Hx. exists x. split; [done|]. by apply content_same. Qed.
#[export] Instance contents_kept_trans : Transitive contents_kept.
Proof. intros g1 g2 g3 [R1 H1] [R2 H2]. split; [congruence|]. intros o x3 H3. destruct (H2 o x3 H3) as (x2 & Hx2 & ?). destruct (H1 o x2 Hx2) as (x1 & Hx1 & ?). exists x1. split; [done|]. by eapply content_trans. Qed.

Lemma kept_heap g g' : heap g' = heap g -> statics g' = statics g -> contents_kept g g'.
Proof. intros Hh Hr. split; [done|]. intros o x. rw Hh. apply (contents_kept_refl g). Qed.

Lemma kept_put g o x x' : heap g !! o = Some x -> content x x' -> contents_kept g (put g o x').
Proof.
  intros Hx Hc. split; [done|]. intros c y Hy. simpl in Hy. destruct (decide (c = o)) as [->|]; [rw lookup_insert_eq in Hy; injection Hy as <-; by exists x|]. rw lookup_insert_ne // in Hy. by apply (contents_kept_refl g).
Qed.

(** ** Marks *)

(** Only marks change, and not the bits of weak tables. *)
Definition marks_only g g' : Prop :=
  statics g' = statics g /\ forall o, match heap g !! o, heap g' !! o with Some x, Some x' => body x' = body x /\ (weak_bits x = true -> weak_bits x' = true) | None, None => True | _, _ => False end.

#[export] Instance marks_only_refl : Reflexive marks_only.
Proof. intros g. split; [done|]. intros o. by destruct (heap g !! o). Qed.
#[export] Instance marks_only_trans : Transitive marks_only.
Proof.
  intros g1 g2 g3 [R1 H1] [R2 H2]. split; [congruence|]. intros o. specialize (H1 o). specialize (H2 o). destruct (heap g1 !! o) as [x|], (heap g2 !! o) as [y|], (heap g3 !! o) as [z|]; try done. destruct H1 as [H1 ?], H2 as [H2 ?]. split; [congruence|auto].
Qed.

Lemma marks_only_kept g g' : marks_only g g' -> contents_kept g g'.
Proof. intros [HR HM]. split; [done|]. intros o x' Hx'. specialize (HM o). rw Hx' in HM. destruct (heap g !! o) as [x|]; [|done]. exists x. split; [done|]. destruct HM. by apply content_same. Qed.

Lemma marks_only_lookup g g' o x : marks_only g g' -> heap g !! o = Some x -> exists x', heap g' !! o = Some x' /\ body x' = body x /\ (weak_bits x = true -> weak_bits x' = true).
Proof. intros [_ HM] Hx. specialize (HM o). rw Hx in HM. destruct (heap g' !! o) as [x'|]; [|done]. by exists x'. Qed.

(** Changes of marks that keep the bits. *)
Definition keeps_bits (f : marks -> marks) : Prop := forall m, bit3 m || bit4 m = true -> bit3 (f m) || bit4 (f m) = true.

Lemma set_marks_only g o f g' : keeps_bits f -> set_marks g o f = Ok g' -> marks_only g g'.
Proof.
  intros Hf (x & Hx & [= <-])%bind_Ok. rw /get in Hx. destruct (heap g !! o) as [y|] eqn:Hy; [|done]. injection Hx as ->. split; [done|]. intros c. simpl.
  destruct (decide (c = o)) as [->|]; [rw lookup_insert_eq Hy; split; [done|]; apply Hf|rw lookup_insert_ne //; by destruct (heap g !! c)].
Qed.

Lemma marks_heap g g' : heap g' = heap g -> statics g' = statics g -> marks_only g g'.
Proof. intros Hh Hr. split; [done|]. intros o. rw Hh. by destruct (heap g !! o). Qed.

Lemma reallymark_only fuel g o g' : reallymarkobject_ fuel g o = Ok g' -> marks_only g g'.
Proof.
  revert g o g'. induction fuel as [|fuel IH]; intros g o g'; [done|]. cbn [reallymarkobject_].
  assert (forall g t g', (x ← get g t; if iswhite (marked x) then reallymarkobject_ fuel g t else Ok g) = Ok g' -> marks_only g g') as Hm.
  { intros g1 t g2 (x & _ & H)%bind_Ok. destruct (iswhite (marked x)); [by apply (IH g1 t)|by injection H as <-]. }
  intros (x & _ & H)%bind_Ok. apply bind_Ok in H as (_ & _ & H). apply bind_Ok in H as (g1 & H1%set_marks_only & H); [|by intros ?]. etrans; [exact H1|]. destruct (body x) as [|m e|v| | | | |]; try (injection H as <-; by apply marks_heap).
  - apply bind_Ok in H as (g2 & H2%set_marks_only & H); [|by intros ?]. etrans; [exact H2|]. apply bind_Ok in H as (g3 & H3 & H). etrans; [|by apply (Hm g3 e)]. destruct m as [m|]; [by apply (Hm g2 m)|by injection H3 as <-].
  - apply bind_Ok in H as (w & _ & H). apply bind_Ok in H as (g2 & H2 & H). etrans; [|destruct v; [by injection H as <-|by apply set_marks_only in H; [|intros ?]]].
    destruct w as [| |p]; [by injection H2 as <-..|by apply (Hm g1 p)].
Qed.

Lemma markobject_only g o g' : markobject g o = Ok g' -> marks_only g g'.
Proof. intros (x & _ & H)%bind_Ok. destruct (iswhite (marked x)); [by eapply reallymark_only|by injection H as <-]. Qed.
Lemma markvalue_only g v g' : markvalue g v = Ok g' -> marks_only g g'.
Proof. destruct v; [by intros [= <-]..|apply markobject_only]. Qed.
Lemma marknull_only g o g' : marknull g o = Ok g' -> marks_only g g'.
Proof. destruct o; [apply markobject_only|by intros [= <-]]. Qed.
Lemma markobjects_only os g g' : markobjects g os = Ok g' -> marks_only g g'.
Proof. revert g. induction os as [|o os IH]; intros g; [by intros [= <-]|]. intros (g1 & H1%markobject_only & H)%bind_Ok. etrans; [exact H1|by apply IH]. Qed.
Lemma markstrings_only os g g' : markstrings g os = Ok g' -> marks_only g g'.
Proof.
  revert g. induction os as [|[o|] os IH]; intros g; [by intros [= <-]| |apply IH]. intros (g1 & H1%set_marks_only & H)%bind_Ok; [|by intros ?]. etrans; [exact H1|by apply IH].
Qed.

Lemma get_Some g o x : get g o = Ok x -> heap g !! o = Some x.
Proof. rw /get. destruct (heap g !! o); [by intros [= ->]|done]. Qed.

Ltac bind_inv H := let x := fresh "r" in let Hx := fresh "Hr" in apply bind_Ok in H as (x & Hx & H).

(** ** Traversals *)

Lemma traversetable_kept g h b g' : traversetable g h = Ok (b, g') -> contents_kept g g'.
Proof.
  intros (x & Hx & H)%bind_Ok. apply get_Some in Hx. destruct (body x) as [| | | | |m a ns| |] eqn:Hb; try done.
  bind_inv H. apply marknull_only in Hr. bind_inv H. destruct r0 as [wk wv]. bind_inv H. rename r into g1, r0 into g2.
  assert (marks_only g1 g2) as H2.
  { destruct (wk || wv) eqn:Hw; [|by injection Hr1 as <-]. bind_inv Hr1. injection Hr1 as <-. apply set_marks_only in Hr2; [|by intros mk]. etrans; [exact Hr2|by apply marks_heap]. }
  destruct (wk && wv); [injection H as _ <-; apply marks_only_kept; by etrans|]. bind_inv H. rename r into g3. bind_inv H. bind_inv H. rename r0 into g4. bind_inv H. rename r0 into y. injection H as _ <-.
  assert (marks_only g g4) as HM.
  { etrans; [exact Hr|]. etrans; [exact H2|]. etrans; [|by eapply markobjects_only]. destruct wv; [by injection Hr2 as <-|by eapply markobjects_only]. }
  apply get_Some in Hr5. destruct (marks_only_lookup _ _ _ _ HM Hx) as (y' & Hy' & Hby & Hwy). rw Hr5 in Hy'. injection Hy' as <-.
  etrans; [by apply marks_only_kept|]. apply (kept_put _ _ y); [done|]. rw /content Hby Hb /=. split; [done|]. split; [by apply Forall2_same; left|].
  assert (Forall2 same_entry ns (remove_empty <$> ns)) as HF.
  { apply Forall2_fmap_r, Forall2_same. intros [k []]; [by right|by left..]. }
  split; [by eapply Forall2_impl; [exact HF|left]|]. by split.
Qed.

Lemma traverseproto_only g s k us ps ls g' : traverseproto g s k us ps ls = Ok g' -> marks_only g g'.
Proof.
  intros H. bind_inv H. etrans; [by eapply markstrings_only|]. bind_inv H. etrans; [by eapply markobjects_only|].
  bind_inv H. etrans; [by eapply markstrings_only|]. bind_inv H. etrans; [by eapply markobjects_only|]. by eapply markstrings_only.
Qed.

Lemma traverseclosure_only g b g' : traverseclosure g b = Ok g' -> marks_only g g'.
Proof.
  destruct b; try done; intros H; bind_inv H; (etrans; [by eapply markobject_only|]); [by eapply markobjects_only|].
  bind_inv H. etrans; [by eapply markobject_only|]. by eapply markobjects_only.
Qed.

Lemma take_clear_slots st top lim : take top (clear_slots st top lim) = take top st.
Proof.
  apply list_eq. intros i. destruct (decide (i < top)%nat); [|rw !lookup_take_ge //; lia]. rw !lookup_take_lt // /clear_slots list_lookup_imap.
  destruct (st !! i); [|done]. simpl. rw decide_False //. lia.
Qed.

Lemma traversestack_kept g l g' : traversestack g l = Ok g' -> contents_kept g g'.
Proof.
  intros H. bind_inv H. apply get_Some in Hr. destruct (body r) as [| | | | | | |gt st top cis ups] eqn:Hb; try done.
  bind_inv H. bind_inv H. bind_inv H. injection H as <-. apply get_Some in Hr2.
  assert (marks_only g r1) as HM; [etrans; [by eapply markvalue_only|by eapply markobjects_only]|].
  destruct (marks_only_lookup _ _ _ _ HM Hr) as (y & Hy & Hby & _). rw Hr2 in Hy. injection Hy as <-.
  etrans; [by apply marks_only_kept|]. apply (kept_put _ _ r2); [done|]. rw /content Hby Hb /= length_imap take_clear_slots //.
Qed.

Lemma propagatemark_kept g g' : propagatemark g = Ok g' -> contents_kept g g'.
Proof.
  rw /propagatemark. destruct (gray g) as [|o rest]; [done|]. intros H. bind_inv H. bind_inv H. bind_inv H.
  apply set_marks_only in Hr1; [|by intros ?]. etrans; [by apply marks_only_kept|].
  destruct (body r); try done; try (etrans; [|apply marks_only_kept; first [by eapply traverseclosure_only|by eapply traverseproto_only]]; by apply kept_heap).
  - bind_inv H. destruct r2 as [[] g2]; [|injection H as <-; etrans; [|by eapply traversetable_kept]; by apply kept_heap].
    etrans; [|apply marks_only_kept; eapply set_marks_only; [|exact H]; by intros ?]. etrans; [|by eapply traversetable_kept]. by apply kept_heap.
  - bind_inv H. etrans; [|by eapply traversestack_kept]. apply marks_only_kept. etrans; [|eapply set_marks_only; [|exact Hr2]; by intros ?]. by apply marks_heap.
Qed.

Lemma propagateall_kept g g' : propagateall g = Ok g' -> contents_kept g g'.
Proof.
  rw /propagateall. generalize (S (size (heap g) + length (gray g))). intros fuel. revert g. induction fuel as [|fuel IH]; intros g; [done|]. cbn [propagateall_].
  destruct (gray g); [by intros [= <-]|]. intros H. bind_inv H. etrans; [by eapply propagatemark_kept|by apply IH].
Qed.

Lemma markmt_only g g' : markmt g = Ok g' -> marks_only g g'.
Proof. rw /markmt. generalize (mt g). intros ms. revert g. induction ms as [|m ms IH]; intros g; [by intros [= <-]|]. cbn [markmts]. intros H. bind_inv H. etrans; [by eapply marknull_only|by apply IH]. Qed.

Lemma markroot_kept g g' : markroot g = Ok g' -> contents_kept g g'.
Proof.
  intros H. bind_inv H. bind_inv H. bind_inv H. bind_inv H. bind_inv H. injection H as <-.
  apply marks_only_kept. apply markmt_only in Hr3. etrans; [|etrans; [exact Hr3|by apply marks_heap]]. etrans; [|by eapply markvalue_only]. etrans; [|by eapply markvalue_only]. etrans; [|by eapply markobject_only]. by apply marks_heap.
Qed.

(** ** The atomic step *)

Lemma remarkupvals_only g g' : remarkupvals g = Ok g' -> marks_only g g'.
Proof.
  rw /remarkupvals. generalize (uvhead g). intros uvs. revert g. induction uvs as [|uv uvs IH]; intros g; [by intros [= <-]|]. cbn [remark]. intros H. bind_inv H. bind_inv H. etrans; [|by apply IH].
  destruct (isgray (marked r)); [|by injection Hr0 as <-]. destruct (body r); try done. bind_inv Hr0. by eapply markvalue_only.
Qed.

Lemma separate_loop_only all us g s m g' : separate_loop all us g = Ok (s, m, g') -> marks_only g g'.
Proof.
  revert g s m g'. induction us as [|u us IH]; intros g s m g'; [by intros [= _ _ <-]|]. cbn [separate_loop]. intros H. bind_inv H. destruct (_ || isfinalized (marked r)).
  - bind_inv H. destruct r0 as [[s' m'] g1]. injection H as _ _ <-. by eapply IH.
  - destruct (body r); try done. bind_inv H. bind_inv H. bind_inv H. destruct r2 as [[s' m'] g1]. etrans; [eapply set_marks_only; [|exact Hr1]; intros mk _; reflexivity|]. etrans; [by eapply IH|]. by destruct r0; injection H as _ _ <-.
Qed.

Lemma marktmu_only g g' : marktmu g = Ok g' -> marks_only g g'.
Proof.
  rw /marktmu. generalize (tmudata g). intros us. revert g. induction us as [|u us IH]; intros g; [by intros [= <-]|]. cbn [marktmu_loop]. intros H. bind_inv H. etrans; [eapply set_marks_only; [|exact Hr]; by intros ?|].
  bind_inv H. etrans; [by eapply reallymark_only|by apply IH].
Qed.

Lemma iscleared_only g v k c g' : iscleared g v k = Ok (c, g') -> marks_only g g'.
Proof. destruct v; [by intros [= _ <-]..|]. intros H. bind_inv H. destruct (body r); try by injection H as _ <-. bind_inv H. injection H as _ <-. eapply set_marks_only; [|exact Hr0]. by intros ?. Qed.

Lemma clear_array_only vs g vs' g' : clear_array g vs = Ok (vs', g') -> marks_only g g' /\ Forall2 less_value vs vs'.
Proof.
  revert vs' g'. induction vs as [|v vs IH]; intros vs' g'; [by intros [= <- <-]|]. cbn [clear_array]. intros H. bind_inv H. destruct r as [ws g1]. bind_inv H. destruct r as [c g2]. injection H as <- <-.
  destruct (IH _ _ Hr) as [HM HF]. split; [etrans; [exact HM|by eapply iscleared_only]|]. constructor; [|done]. destruct c; [by right|by left].
Qed.

Lemma clear_nodes_only ns g ns' g' : clear_nodes g ns = Ok (ns', g') -> marks_only g g' /\ Forall2 less_entry ns ns'.
Proof.
  revert ns' g'. induction ns as [|n ns IH]; intros ns' g'; [by intros [= <- <-]|]. cbn [clear_nodes]. intros H. bind_inv H. destruct r as [ms g1]. destruct (IH _ _ Hr) as [HM HF].
  assert (forall n', n' = n \/ n' = removeentry (n.1, VNil) -> less_entry n n') as HL; [intros n' [->| ->]; [by left; left|by right]|].
  destruct n.2; [injection H as <- <-; split; [done|]; constructor; auto|..]; bind_inv H; destruct r as [c g2]; bind_inv H; destruct r as [d g3]; injection H as <- <-; apply iscleared_only in Hr0;
    (split; [etrans; [exact HM|]; etrans; [exact Hr0|]; destruct c; [by injection Hr1 as _ <-|by eapply iscleared_only]|constructor; [destruct d; auto|done]]).
Qed.

Lemma cleartable_kept l g g' : cleartable l g = Ok g' -> contents_kept g g'.
Proof.
  revert g. induction l as [|h l IH]; intros g; [by intros [= <-]|]. cbn [cleartable]. intros H. bind_inv H. apply get_Some in Hr. destruct (body r) as [| | | | |m a ns| |] eqn:Hb; try done.
  bind_inv H. destruct (bit3 (marked r) || bit4 (marked r)) eqn:Hbits; [|done]. bind_inv H. destruct r1 as [a' g1]. bind_inv H. destruct r1 as [ns' g2]. bind_inv H. apply get_Some in Hr3. apply clear_nodes_only in Hr2 as [HM2 HF2].
  assert (marks_only g g1 /\ Forall2 less_value a a') as [HM1 HF1].
  { destruct (bit4 (marked r)); [by apply clear_array_only|]. injection Hr1 as <- <-. split; [done|]. by apply Forall2_same; left. }
  assert (marks_only g g2) as HM; [by etrans|]. destruct (marks_only_lookup _ _ _ _ HM Hr) as (y & Hy & Hby & Hw). rw Hr3 in Hy. injection Hy as <-.
  etrans; [by apply marks_only_kept|]. etrans; [|by apply IH]. apply (kept_put _ _ r1); [done|]. rw /content Hby Hb /=.
  assert (weak_bits r1 = true) as Hw1; [by apply Hw|]. do 3 (split; [done|]). rw /weak_bits /=. rw /weak_bits in Hw1. by rw Hw1.
Qed.

Lemma atomic_kept g g' : atomic g = Ok g' -> contents_kept g g'.
Proof.
  intros H. bind_inv H. bind_inv H. bind_inv H. bind_inv H. bind_inv H. injection H as <-. apply cleartable_kept in Hr3. etrans; [|etrans; [exact Hr3|by apply kept_heap]].
  etrans; [|by eapply propagateall_kept]. etrans; [|by apply marks_only_kept, marktmu_only]. bind_inv Hr0. destruct r4 as [[s m] g1]. injection Hr0 as <-. apply separate_loop_only in Hr4.
  etrans; [|apply marks_only_kept; etrans; [exact Hr4|by apply marks_heap]]. clear -Hr. rename Hr into H.
  bind_inv H. etrans; [by apply marks_only_kept, remarkupvals_only|]. bind_inv H. etrans; [by eapply propagateall_kept|]. bind_inv H. bind_inv H. bind_inv H. bind_inv H. bind_inv H.
  etrans; [|by eapply propagateall_kept]. apply propagateall_kept in Hr5. etrans; [|etrans; [exact Hr5|by apply kept_heap]]. apply marks_only_kept. etrans; [|by eapply markmt_only]. etrans; [|by eapply markobject_only]. by apply marks_heap.
Qed.

(** ** Sweeping *)

(** Upvalues of a thread that is freed are closed: they have the value that the stack had. *)
Definition swept_body (h : gmap loc GCObject) (b b' : gcbody) : Prop :=
  b' = b \/
  (exists gt st top cis ups ups', b = BThread gt st top cis ups /\ b' = BThread gt st top cis ups') \/
  (exists th i w, b = BUpval (UOpen th i) /\ b' = BUpval (UClosed w) /\ stack_slot h th i = Some w).

Definition sweeps g g' : Prop :=
  statics g' = statics g /\
  forall o x', heap g' !! o = Some x' -> exists x, heap g !! o = Some x /\ swept_body (heap g) (body x) (body x') /\ (weak_bits x = true -> weak_bits x' = true).

Lemma swept_slot g g' th i w : sweeps g g' -> stack_slot (heap g') th i = Some w -> stack_slot (heap g) th i = Some w.
Proof.
  rw /stack_slot. intros [_ HS]. destruct (heap g' !! th) as [y|] eqn:Hy; [|done]. destruct (HS th y Hy) as (x & -> & Hb & _). simpl.
  destruct Hb as [->|[(? & ? & ? & ? & ? & ? & -> & ->)|(? & ? & ? & -> & -> & _)]]; done.
Qed.

#[export] Instance swept_refl : Reflexive sweeps.
Proof. intros g. split; [done|]. intros o x Hx. exists x. split; [done|]. split; [by left|done]. Qed.
#[export] Instance swept_trans : Transitive sweeps.
Proof.
  intros g1 g2 g3 H12 [R2 H2]. pose proof H12 as [R1 H1]. split; [congruence|]. intros o z Hz. destruct (H2 o z Hz) as (y & Hy & Hb2 & Hw2). destruct (H1 o y Hy) as (x & Hx & Hb1 & Hw1).
  exists x. split; [done|]. split; [|auto]. destruct Hb2 as [->|[(gt & st & top & cis & u & u' & E1 & ->)|(th & i & w & E1 & -> & Hs)]]; [done|..]; rw E1 in Hb1.
  - destruct Hb1 as [<-|[(? & ? & ? & ? & ? & ? & -> & [= -> -> -> -> ->])|(? & ? & ? & _ & [=] & _)]]; right; left; eauto 10.
  - apply (swept_slot _ _ _ _ _ H12) in Hs. destruct Hb1 as [<-|[(? & ? & ? & ? & ? & ? & _ & [=])|(? & ? & ? & _ & [=] & _)]]. right. right. eauto 10.
Qed.

Lemma marks_only_swept g g' : marks_only g g' -> sweeps g g'.
Proof. intros [HR HM]. split; [done|]. intros o x' Hx'. specialize (HM o). rw Hx' in HM. destruct (heap g !! o) as [x|]; [|done]. destruct HM as [Hb Hw]. exists x. split; [done|]. split; [by left|done]. Qed.

Lemma swept_heap g g' : heap g' = heap g -> statics g' = statics g -> sweeps g g'.
Proof. intros ? ?. by apply marks_only_swept, marks_heap. Qed.

Lemma swept_free g o : sweeps g (free g o).
Proof. split; [done|]. intros c x Hx. simpl in Hx. apply lookup_delete_Some in Hx as [_ Hx]. by apply (swept_refl g). Qed.

Lemma swept_put g o x b : heap g !! o = Some x -> swept_body (heap g) (body x) b -> sweeps g (put g o (mkObject (marked x) b)).
Proof.
  intros Hx Hb. split; [done|]. intros c y Hy. simpl in Hy. destruct (decide (c = o)) as [->|]; [rw lookup_insert_eq in Hy; injection Hy as <-; by exists x|]. rw lookup_insert_ne // in Hy. by apply (swept_refl g).
Qed.

Lemma barrier_only g p v g' : luaC_barrier g p v = Ok g' -> marks_only g g'.
Proof.
  destruct v; [by intros [= <-]..|]. intros H. bind_inv H. destruct (iswhite (marked r)); [|by injection H as <-]. bind_inv H. destruct (isblack (marked r0)); [|by injection H as <-].
  bind_inv H. bind_inv H. bind_inv H. destruct (decide _); [by eapply reallymark_only|]. eapply set_marks_only; [|exact H]. by intros ?.
Qed.

Lemma linkupval_only g uv v g' : luaC_linkupval g uv v = Ok g' -> marks_only g g'.
Proof.
  intros H. bind_inv H. destruct (isgray (marked r)); [|injection H as <-; by apply marks_heap]. destruct (decide _); bind_inv H; (apply set_marks_only in Hr0; [|by intros ?]); (etrans; [|etrans; [exact Hr0|]]); try by apply marks_heap.
  - by eapply barrier_only.
  - bind_inv H. by injection H as <-.
Qed.

Lemma freeupval_swept g uv g' : luaF_freeupval g uv = Ok g' -> sweeps g g'.
Proof. intros H. bind_inv H. destruct (body r) as [| |[]| | | | |]; try done; injection H as <-; [|apply swept_free]. etrans; [|apply swept_free]. by apply swept_heap. Qed.

Lemma set_openupval_swept g th ups g' : set_openupval g th ups = Ok g' -> sweeps g g' /\ forall o b, (exists x, heap g !! o = Some x /\ body x = BUpval b) -> heap g' !! o = heap g !! o.
Proof.
  intros H. bind_inv H. apply get_Some in Hr. destruct (body r) as [| | | | | | |gt st top cis u] eqn:Hb; try done. injection H as <-. split.
  - apply swept_put; [done|]. rw Hb. right. left. eauto 10.
  - intros o b (x & Hx & Hbx). simpl. apply lookup_insert_ne. intros <-. congruence.
Qed.

Lemma close_loop_swept ups th level g g' : close_loop ups th level g = Ok g' -> sweeps g g'.
Proof.
  revert g. induction ups as [|uv ups IH]; intros g; [by intros [= <-]|]. cbn [close_loop]. intros H. bind_inv H. apply get_Some in Hr. destruct (body r) as [| |[t i|]| | | | |] eqn:Hb; try done.
  destruct (decide (level <= i)%nat); [|by injection H as <-]. bind_inv H. bind_inv H. rename r1 into g1. apply set_openupval_swept in Hr1 as [H1 Hk]. etrans; [exact H1|]. assert (heap g1 !! uv = Some r) as Hr1; [rw (Hk _ (UOpen t i)) //; eauto|].
  destruct (isdead (currentwhite g1) (marked r)); [bind_inv H; etrans; [by eapply freeupval_swept|by apply IH]|]. bind_inv H. bind_inv H. etrans; [|by apply IH]. apply linkupval_only, marks_only_swept in Hr3.
  etrans; [|exact Hr3]. assert (stack_slot (heap g1) t i = Some r1) as Hs; [simpl in Hr2; destruct (stack_slot (heap g1) t i); [by injection Hr2 as ->|done]|].
  etrans; [|apply (swept_put _ _ r); [exact Hr1|rw Hb; right; right; eauto 10]]. by apply swept_heap.
Qed.

Lemma freeobj_swept g o g' : freeobj g o = Ok g' -> sweeps g g'.
Proof.
  intros H. bind_inv H. destruct (body r); try (injection H as <-; apply swept_free); [by eapply freeupval_swept|]. bind_inv H. bind_inv H. bind_inv Hr1. assert (sweeps g r1) as HS; [destruct (body r2); try done; by eapply close_loop_swept|]. etrans; [exact HS|].
  bind_inv H. destruct (body r3); try done. bind_inv H. injection H as <-. apply swept_free.
Qed.

Lemma sweepwholelist_swept l g l' g' : sweepwholelist l g = Ok (l', g') -> sweeps g g'.
Proof.
  revert g l'. induction l as [|o l IH]; intros g l'; [by intros [= _ <-]|]. cbn [sweepwholelist]. intros H. bind_inv H. destruct (notdead _ _); bind_inv H.
  - bind_inv H. destruct r1 as [l1 g1]. injection H as _ <-. apply set_marks_only in Hr0; [|by intros ?]. etrans; [by apply marks_only_swept|by eapply IH].
  - etrans; [by eapply freeobj_swept|by eapply IH].
Qed.

Lemma sweepcurr_swept g o g' : sweepcurr g o = Ok g' -> sweeps g g'.
Proof.
  intros H. bind_inv H. bind_inv H. etrans.
  - assert (sweeps g r0) as HS; [|exact HS]. destruct (body r); try by injection Hr0 as <-. bind_inv Hr0. destruct r1 as [u g1]. apply set_openupval_swept in Hr0 as [H1 _]. etrans; [by eapply sweepwholelist_swept|done].
  - destruct (notdead _ _); [|etrans; [|by eapply freeobj_swept]; by apply swept_heap]. bind_inv H. injection H as <-. apply set_marks_only in Hr1; [|by intros ?]. etrans; [by apply marks_only_swept|by apply swept_heap].
Qed.

Lemma sweeplist_swept n g g' : sweeplist n g = Ok g' -> sweeps g g'.
Proof.
  revert g. induction n as [|n IH]; intros g; [by intros [= <-]|]. cbn [sweeplist]. destruct (rootgc g !! sweepgc g); [|by intros [= <-]]. intros H. bind_inv H. etrans; [by eapply sweepcurr_swept|by apply IH].
Qed.

Lemma checkSizes_heap g g' : checkSizes g = Ok g' -> heap g' = heap g /\ roots g' = roots g.
Proof. rw /checkSizes /luaS_resize. destruct (decide _); [|by intros [= <-]]. destruct (decide _); [by intros [= <-]|]. intros H. bind_inv H. by injection H as <-. Qed.

(** ** A step *)

Definition kept_object (h : gmap loc GCObject) (x x' : GCObject) : Prop := content x x' \/ swept_body h (body x) (body x').

Lemma step_kept g g' : singlestep g = Ok g' -> roots g' = roots g /\ forall o x', heap g' !! o = Some x' -> exists x, heap g !! o = Some x /\ kept_object (heap g) x x'.
Proof.
  intros H. assert (contents_kept g g' \/ exists g1, sweeps g g1 /\ heap g' = heap g1 /\ roots g' = roots g1) as [[HR HK]|(g1 & [HR HK] & Hh & Hr)].
  { rw /singlestep in H. destruct (gcstate g); [left; by apply markroot_kept|left; destruct (gray g); [by apply atomic_kept|by apply propagatemark_kept]|right..].
    - destruct (strt g !! sweepstrgc g); [|done]. bind_inv H. destruct r as [l' g1]. injection H as <-. apply sweepwholelist_swept in Hr. exists g1. by destruct (decide _).
    - bind_inv H. apply sweeplist_swept in Hr. exists r. destruct (rootgc r !! sweepgc r); [by injection H as <-|]. bind_inv H. injection H as <-. by apply checkSizes_heap in Hr0.
    - rw /GCTM in H. destruct (tmudata g) as [|o us]; [injection H as <-; by exists g|]. apply set_marks_only, marks_only_swept in H; [|by intros ?]. exists g'. split; [|done]. etrans; [|exact H]. by apply swept_heap. }
  - split; [by apply (f_equal fst) in HR|]. intros o x' Hx'. destruct (HK o x' Hx') as (x & ? & ?). exists x. split; [done|by left].
  - split; [by rw Hr; apply (f_equal fst) in HR|]. intros o x' Hx'. rw Hh in Hx'. destruct (HK o x' Hx') as (x & ? & ? & _). exists x. split; [done|by right].
Qed.

(** *** Strong references *)

Definition weak_table (x : GCObject) : bool := match body x with BTable _ _ _ => weak_bits x | _ => false end.

(** What is reached from the roots, but not through tables that are weak after the step. *)
Inductive strong g g' : loc -> Prop :=
| strong_root o : o ∈ roots g -> strong g g' o
| strong_ref o x c : strong g g' o -> heap g !! o = Some x -> (forall x', heap g' !! o = Some x' -> weak_table x' = false) -> c ∈ refs (heap g) (body x) -> strong g g' c.

Lemma same_entry_refs ns ns' : Forall2 same_entry ns ns' -> ns' ≫= nref = ns ≫= nref.
Proof. induction 1 as [|n n' ns ns' Hn _ IH]; [done|]. rw !bind_cons IH. f_equal. destruct Hn as [->|[Hv ->]]; [done|]. by rw /nref /= Hv. Qed.

Section step.
Context (g g' : global_State) (HS : shape g') (HK : forall o x', heap g' !! o = Some x' -> exists x, heap g !! o = Some x /\ kept_object (heap g) x x').

Lemma kept_slot uv th i : sk g' uv = Some (SkOpen th i) -> stack_slot (heap g') th i = stack_slot (heap g) th i.
Proof using HS HK.
  intros Huv. destruct (s_open _ HS _ _ _ Huv) as (n & top & ups & Hth & _ & Hi). destruct (sk_inv _ _ _ Hth) as (y & Hy & (gt & st & cis & Hb & Hl)%skel_thread).
  destruct (HK th y Hy) as (x & Hx & Hc). rw /stack_slot Hy Hx /= Hb. destruct Hc as [Hc|Hc].
  - rw /content Hb in Hc. destruct (body x) as [| | | | | | |gt0 st0 top0 cis0 ups0]; try done. destruct Hc as (_ & _ & Ht & <- & _). rw -(lookup_take_lt st top i Hi) -(lookup_take_lt st0 top i Hi) Ht //.
  - rw Hb in Hc. destruct Hc as [<-|[(? & ? & ? & ? & ? & ? & -> & [= -> -> -> -> ->])|(? & ? & ? & _ & [=] & _)]]; done.
Qed.

Lemma kept_refs o x x' : heap g' !! o = Some x' -> kept_object (heap g) x x' -> weak_table x' = false -> refs (heap g') (body x') = refs (heap g) (body x).
Proof using HS HK.
  intros Hx' Hc Hw. assert (body x' = body x -> refs (heap g') (body x') = refs (heap g) (body x)) as Heq.
  { intros Hb. rw -Hb. destruct (body x') as [| |[th i|]| | | | |] eqn:Hb'; try done. rw /= /upval_refs /= (kept_slot o) //. by rw (sk_lookup _ _ _ Hx') Hb'. }
  destruct Hc as [Hc|[Hc|[(? & ? & ? & ? & ? & ? & -> & ->)|(th & i & w & -> & -> & Hs)]]]; [|by apply Heq|done|by rw /= /upval_refs /= Hs].
  rw /content in Hc. rw /weak_table in Hw. destruct (body x) as [| | | | |m a ns| |gt st top cis ups] eqn:Hb; try by apply Heq.
  - destruct (body x') as [| | | | |m' a' ns'| |] eqn:Hb'; try done. destruct Hc as (-> & _ & _ & Hn & _). destruct (Hn Hw) as [-> HF]. rw /= (same_entry_refs _ _ HF) //.
  - destruct (body x') eqn:Hb'; try done. destruct Hc as (-> & _ & Ht & -> & _). rw /= Ht //.
Qed.
End step.

Lemma strong_reach g g' o : inv g -> singlestep g = Ok g' -> inv g' -> strong g g' o -> reach g' [] o /\ exists x', heap g' !! o = Some x'.
Proof.
  intros HI Hst HI'. destruct (step_kept _ _ Hst) as [HR HK].
  assert (forall c, reach g' [] c -> exists x', heap g' !! c = Some x') as Ha.
  { intros c Hc. destruct (reach_alive g' [] c (i_base _ HI') (Forall_nil_2 _) Hc) as (x' & ? & _). by exists x'. }
  induction 1 as [o Ho|o x c _ [IH [x' Hx']] Hx Hw Hc].
  - assert (reach g' [] o); [constructor; rw HR; set_solver|]. auto.
  - assert (reach g' [] c); [|auto]. apply (reach_ref _ _ o x'); [done|done|]. destruct (HK o x' Hx') as (y & Hy & Hk). rw Hx in Hy. injection Hy as <-. rw (kept_refs g g' (i_shape _ HI') HK o x) //. by apply Hw.
Qed.

(** C4: The program does not see the collector. After any run from a new state, a step of the collector keeps every object
    that can be reached without weak tables, and its contents: tables lose only keys without a value, stacks only slots
    above the top, and an upvalue that is closed has the value that it had. *)
Theorem collector_transparent (alloc : gset loc -> loc) (ops : list operation) (g0 : global_State) : (forall X, alloc X ∉ X) -> lua_newstate alloc = Ok g0 -> permitted alloc ops [] g0 ->
  exists held g g', exec alloc ops [] g0 = Ok (held, g) /\ singlestep g = Ok g' /\
    forall o, strong g g' o -> exists x x', heap g !! o = Some x /\ heap g' !! o = Some x' /\ kept_object (heap g) x x'.
Proof.
  intros Hf Hg0 Hp. destruct (lua_newstate_inv alloc Hf) as (g & Hg & HI & _). rw Hg0 in Hg. injection Hg as <-.
  destruct (exec_inv alloc Hf ops [] g0 HI) as (held & g & Hr & HI' & _); [done|done|]. destruct (singlestep_inv g HI') as (g' & Hs & HI2). exists held, g, g'. split; [done|]. split; [done|].
  intros o Ho. destruct (strong_reach g g' o HI' Hs HI2 Ho) as [_ [x' Hx']]. destruct (step_kept _ _ Hs) as [_ HK]. destruct (HK o x' Hx') as (x & ? & ?). by exists x, x'.
Qed.

Lemma collector_transparent_witness : exists held g g', exec fresh small_run [] start = Ok (held, g) /\ singlestep g = Ok g' /\
  forall o, strong g g' o -> exists x x', heap g !! o = Some x /\ heap g' !! o = Some x' /\ kept_object (heap g) x x'.
Proof. apply (collector_transparent fresh small_run start); [exact is_fresh|vm_compute; reflexivity|exact small_run_permitted]. Defined.
