(* ===== verification/LuaIntern.v ===== *)
(** LuaIntern: strings of Lua are compared by their addresses (luaO_rawequalObj() of lobject.c,
    luaV_equalval() of lvm.c), because luaS_newlstr() of lstring.c makes no string twice. In
    every run of the interpreter and the collector no two objects are the same string: the
    string table finds a string that is there, in the phase that sweeps the table too, when
    the string may be dead, and after the table has changed its size. *)

From Corelib Require Import ssreflect.
From stdpp Require Import base list gmap numbers strings.
From Stdlib Require Import ZArith Lia.
From S2P Require Import Prelude LuaHeap LuaGC LuaGCMark LuaGCInv LuaGCAtomic LuaGCPhase LuaGCSweep LuaGCStep LuaGCMut LuaState LuaGCOpen LuaGCSafe LuaGCFlaws LuaGCKeep.

Implicit Type g : global_State.

(** ** Interned strings *)

(** A string is in the bucket of its hash value, and there is no other with the same characters. *)
Record interned g : Prop := {
  n_bucket i l o x s : strt g !! i = Some l -> o ∈ l -> heap g !! o = Some x -> body x = BString s -> strbucket (luaS_hash s) (length (strt g)) = i;
  n_unique o1 o2 x1 x2 s : heap g !! o1 = Some x1 -> heap g !! o2 = Some x2 -> body x1 = BString s -> body x2 = BString s -> o1 = o2
}.

(** The strings of the one state are strings of the other. *)
Definition strings_from g g' : Prop := forall o x' s, heap g' !! o = Some x' -> body x' = BString s -> exists x, heap g !! o = Some x /\ body x = BString s.

Lemma interned_sub g g' : length (strt g') = length (strt g) -> (forall i l', strt g' !! i = Some l' -> exists l, strt g !! i = Some l /\ l' ⊆ l) -> strings_from g g' -> interned g -> interned g'.
Proof.
  intros Hlen Hl Hs [HB HU]. split.
  - intros i l' o x' s (l & Hi & Hsub)%Hl Ho Hx' Hb. destruct (Hs o x' s Hx' Hb) as (x & ? & ?). rw Hlen. by apply (HB i l o x s Hi (Hsub o Ho)).
  - intros o1 o2 x1 x2 s H1 H2 B1 B2. destruct (Hs o1 x1 s H1 B1) as (y1 & ? & ?), (Hs o2 x2 s H2 B2) as (y2 & ? & ?). by apply (HU o1 o2 y1 y2 s).
Qed.

(** *** The string table *)

Lemma in_bucket (o : loc) (t : list (list loc)) : o ∈ concat t <-> exists i l, t !! i = Some l /\ o ∈ l.
Proof.
  rw list_elem_of_In in_concat. split; [intros (l & Hl & Ho)|intros (i & l & Hl & Ho)].
  - apply list_elem_of_In, list_elem_of_lookup_1 in Hl as (i & Hl). exists i, l. split; [done|by apply list_elem_of_In].
  - exists l. split; apply list_elem_of_In; [by eapply list_elem_of_lookup_2|done].
Qed.

Lemma rehash_strings_buckets os t g t' : rehash_strings os t g = Ok t' ->
  length t' = length t /\ forall i l o, t' !! i = Some l -> o ∈ l -> (exists l0, t !! i = Some l0 /\ o ∈ l0) \/ exists s, string_of g o = Ok s /\ strbucket (luaS_hash s) (length t) = i.
Proof.
  revert t. induction os as [|p os IH]; intros t; [intros [= <-]; split; [done|]; intros i l o Hi Ho; left; by exists l|]. cbn [rehash_strings]. intros H. bind_inv H.
  destruct (t !! strbucket (luaS_hash r) (length t)) as [l0|] eqn:Hl0; [|done]. apply IH in H as [Hlen Hin]. rw length_insert in Hlen. split; [done|]. intros i l o Hi Ho.
  destruct (Hin i l o Hi Ho) as [(l1 & Hl1 & Ho1)|(s & Hs & Hb)]; [|by right; exists s; rw length_insert in Hb].
  apply list_lookup_insert_Some in Hl1 as [(<- & <- & _)|[_ Hl1]]; [|by left; exists l1]. apply elem_of_cons in Ho1 as [->|Ho1]; [by right; exists r|by left; exists l0].
Qed.

Lemma resize_interned g n g' : luaS_resize g n = Ok g' -> interned g -> interned g'.
Proof.
  rw /luaS_resize. destruct (decide _); [by intros [= <-]|]. intros H [HB HU]. bind_inv H. injection H as <-. apply rehash_strings_buckets in Hr as [Hlen Hin]. split; [|done]. simpl.
  intros i l o x s Hi Ho Hx Hb. rw Hlen. destruct (Hin i l o Hi Ho) as [(l0 & Hl0 & Ho0)|(s' & Hs & <-)].
  - apply lookup_replicate in Hl0 as [-> _]. by apply elem_of_nil in Ho0.
  - rw /string_of (get_eq _ _ _ Hx) Ok_bind Hb in Hs. by injection Hs as ->.
Qed.

Lemma checkSizes_interned g g' : checkSizes g = Ok g' -> interned g -> interned g'.
Proof. rw /checkSizes. destruct (decide _); [apply resize_interned|by intros [= <-]]. Qed.

(** ** Operations that make no string *)

Definition no_strings g g' : Prop := strt g' = strt g /\ strings_from g g'.

#[export] Instance no_strings_refl : Reflexive no_strings.
Proof. intros g. split; [done|]. intros o x s Hx Hb. by exists x. Qed.
#[export] Instance no_strings_trans : Transitive no_strings.
Proof. intros g1 g2 g3 [E1 H1] [E2 H2]. split; [congruence|]. intros o x s Hx Hb. destruct (H2 o x s Hx Hb) as (y & Hy & Hby). by apply (H1 o y s). Qed.

Lemma no_strings_interned g g' : no_strings g g' -> interned g -> interned g'.
Proof. intros [E Hs]. apply interned_sub; [by rw E| |done]. intros i l. rw E. by exists l. Qed.

Lemma no_strings_heap g g' : heap g' = heap g -> strt g' = strt g -> no_strings g g'.
Proof. intros Hh Hs. split; [done|]. intros o x s. rw Hh. by exists x. Qed.

Definition not_string (b : gcbody) : Prop := match b with BString _ => False | _ => True end.

Lemma no_strings_put g o x : not_string (body x) -> no_strings g (put g o x).
Proof.
  intros Hn. split; [done|]. intros c y s Hy Hb. simpl in Hy. destruct (decide (c = o)) as [->|]; [rw lookup_insert_eq in Hy; injection Hy as <-; by rw Hb in Hn|]. rw lookup_insert_ne // in Hy. by exists y.
Qed.

Lemma no_strings_body g o b g' : not_string b -> set_body g o b = Ok g' -> no_strings g g'.
Proof. intros Hn H. bind_inv H. injection H as <-. by apply no_strings_put. Qed.

Lemma no_strings_marks g g' : marks_only g g' -> no_strings g g'.
Proof.
  intros [Hf HM]. split; [by apply (f_equal snd) in Hf|]. intros o x' s Hx' Hb. specialize (HM o). rw Hx' in HM. destruct (heap g !! o) as [x|]; [|done]. destruct HM as [HM _]. exists x. split; [done|congruence].
Qed.

(** *** New strings *)

Lemma newlstr_interned g str new g' : shape g -> heap g !! new = None -> (forall o x, heap g !! o = Some x -> body x <> BString str) ->
  newlstr g str (luaS_hash str) new = Ok g' -> interned g -> interned g'.
Proof.
  intros HS Hnew Hno H [HB HU]. rw /newlstr /= in H. set (i := strbucket (luaS_hash str) (length (strt g))) in *. destruct (strt g !! i) as [l|] eqn:Hl; [|done]. set (g1 := set_strt _ _ _) in H.
  assert (interned g1) as HI1.
  { assert (forall o x s, heap g1 !! o = Some x -> body x = BString s -> o = new /\ s = str \/ o <> new /\ heap g !! o = Some x) as Hcase.
    { intros o x s Hx Hb. simpl in Hx. destruct (decide (o = new)) as [->|]; [left; rw lookup_insert_eq in Hx; injection Hx as <-; by injection Hb as <-|right; by rw lookup_insert_ne in Hx]. }
    split.
    - simpl. intros j l' o x s Hj Ho Hx Hb. rw length_insert. destruct (Hcase o x s Hx Hb) as [[-> ->]|[Hne Hx0]].
      + apply list_lookup_insert_Some in Hj as [(<- & _)|[_ Hj]]; [done|]. exfalso. destruct (sk_inv g new SkString) as (y & Hy & _); [|congruence].
        apply (s_strt _ HS), in_bucket. by exists j, l'.
      + apply list_lookup_insert_Some in Hj as [(<- & <- & _)|[_ Hj]]; [|by apply (HB j l' o x s)]. apply elem_of_cons in Ho as [->|Ho]; [done|]. by apply (HB i l o x s).
    - intros o1 o2 x1 x2 s H1 H2 B1 B2. destruct (Hcase o1 x1 s H1 B1) as [[-> ->]|[N1 H1']], (Hcase o2 x2 _ H2 B2) as [[-> Hs]|[N2 H2']]; [done|by destruct (Hno o2 x2)|subst s; by destruct (Hno o1 x1)|by apply (HU o1 o2 x1 x2 s)]. }
  destruct (decide _); [|by injection H as <-]. destruct (decide _); [|by injection H as <-]. by eapply resize_interned.
Qed.

(** A string that is in the table is found. *)
Lemma luaS_newlstr_interned g str new o g' : inv g -> heap g !! new = None -> luaS_newlstr g str new = Ok (o, g') -> interned g -> interned g'.
Proof.
  intros HI Hnew H HN. pose proof (i_shape _ HI) as HS. rw /luaS_newlstr in H. destruct (strt g !! strbucket (luaS_hash str) (length (strt g))) as [l|] eqn:Hl; [|done].
  destruct (find_string_spec l str g) as (r & Hr & Hf). { apply Forall_forall. intros c Hc. apply (s_strt _ HS), in_bucket. by eexists _, l. }
  rw Hr Ok_bind in H. destruct r as [c|].
  - bind_inv H. bind_inv H. injection H as _ <-. destruct (isdead _ _); [|by injection Hr1 as <-]. apply (no_strings_interned g); [|done]. apply no_strings_marks. eapply set_marks_only; [|exact Hr1]. by intros ?.
  - bind_inv H. injection H as _ <-. eapply newlstr_interned; [exact HS|exact Hnew| |exact Hr0|exact HN]. intros c x Hx Hb.
    pose proof (s_home _ HS c _ (sk_lookup _ _ _ Hx)) as Hin. rw Hb /= in Hin. apply in_bucket in Hin as (i & l' & Hi & Hc).
    pose proof (n_bucket _ HN i l' c x str Hi Hc Hx Hb) as Hb'. rw Hb' Hi in Hl. injection Hl as ->. apply (proj1 (Forall_forall _ _) Hf c Hc). by rw /string_of (get_eq _ _ _ Hx) Ok_bind Hb.
Qed.

(** *** The collector *)

Lemma no_strings_contents g g' : contents_kept g g' -> no_strings g g'.
Proof.
  intros [Hf HK]. split; [by apply (f_equal snd) in Hf|]. intros o x' s Hx' Hb. destruct (HK o x' Hx') as (x & Hx & Hc). exists x. split; [done|]. rw /content Hb in Hc. by destruct (body x).
Qed.

Lemma no_strings_sweeps g g' : sweeps g g' -> no_strings g g'.
Proof.
  intros [Hf HK]. split; [by apply (f_equal snd) in Hf|]. intros o x' s Hx' Hb. destruct (HK o x' Hx') as (x & Hx & Hc & _). exists x. split; [done|]. rw Hb in Hc.
  destruct Hc as [<-|[(? & ? & ? & ? & ? & ? & _ & [=])|(? & ? & ? & _ & [=] & _)]]. done.
Qed.

Lemma sweepwholelist_sub l g l' g' : sweepwholelist l g = Ok (l', g') -> l' ⊆ l.
Proof.
  revert g l' g'. induction l as [|o l IH]; intros g l' g'; [by intros [= <- _]|]. cbn [sweepwholelist]. intros H. bind_inv H. destruct (notdead _ _); bind_inv H.
  - bind_inv H. destruct r1 as [l1 g1]. injection H as <- _. apply IH in Hr1. set_solver.
  - apply IH in H. set_solver.
Qed.

Lemma singlestep_interned g g' : singlestep g = Ok g' -> interned g -> interned g'.
Proof.
  intros H HN. rw /singlestep in H. destruct (gcstate g).
  - by eapply no_strings_interned; [apply no_strings_contents, markroot_kept|].
  - eapply no_strings_interned; [|done]. apply no_strings_contents. destruct (gray g); [by apply atomic_kept|by apply propagatemark_kept].
  - destruct (strt g !! sweepstrgc g) as [l|] eqn:Hl; [|done]. bind_inv H. destruct r as [l' g1]. injection H as <-. pose proof (sweepwholelist_sub _ _ _ _ Hr) as Hsub.
    apply sweepwholelist_swept, no_strings_sweeps in Hr as [Ht Hs]. apply (interned_sub g); [by destruct (decide _); rw /= length_insert Ht|..|done]; [|by destruct (decide _)].
    intros i k Hk. assert (<[sweepstrgc g := l']> (strt g) !! i = Some k) as Hk' by (by destruct (decide _); rw /= Ht in Hk). apply list_lookup_insert_Some in Hk' as [(<- & <- & _)|[_ Hk']]; [by exists l|by exists k].
  - bind_inv H. apply sweeplist_swept, no_strings_sweeps in Hr. apply (no_strings_interned g) in Hr; [|done]. destruct (rootgc r !! sweepgc r); [by injection H as <-|]. bind_inv H. injection H as <-.
    apply (no_strings_interned r0); [by apply no_strings_heap|]. by eapply checkSizes_interned.
  - rw /GCTM in H. destruct (tmudata g) as [|o us]; [injection H as <-; apply (no_strings_interned g); [by apply no_strings_heap|done]|].
    eapply no_strings_interned; [|done]. etrans; [|apply no_strings_marks; eapply set_marks_only; [|exact H]; by intros ?]. by apply no_strings_heap.
Qed.

(** *** The interpreter *)

Lemma objbarrier_only g p o g' : luaC_objbarrier g p o = Ok g' -> marks_only g g'.
Proof. apply (barrier_only g p (VRef o)). Qed.
Lemma objbarriert_only g t o g' : luaC_objbarriert g t o = Ok g' -> marks_only g g'.
Proof.
  intros H. bind_inv H. destruct (iswhite (marked r)); [|by injection H as <-]. bind_inv H. destruct (isblack (marked r0)); [|by injection H as <-]. bind_inv H. bind_inv H. bind_inv H. bind_inv H. injection H as <-.
  apply set_marks_only in Hr4; [|by intros ?]. etrans; [exact Hr4|by apply marks_heap].
Qed.
Lemma barriert_only g t v g' : luaC_barriert g t v = Ok g' -> marks_only g g'.
Proof. destruct v; [by intros [= <-]..|apply objbarriert_only]. Qed.

Lemma link_no_strings g o b : not_string b -> no_strings g (luaC_link g o b).
Proof. intros Hb. etrans; [apply (no_strings_put g o (mkObject (luaC_white (currentwhite g)) b) Hb)|by apply no_strings_heap]. Qed.

Lemma newthread_no_strings alloc g L r g' : luaE_newthread alloc g L = Ok (r, g') -> no_strings g g'.
Proof.
  intros H. bind_inv H. bind_inv H. bind_inv H. bind_inv H. bind_inv H. injection H as _ <-. etrans; [by apply (link_no_strings g (new_loc alloc g) preinit_state)|].
  bind_inv Hr. destruct (body r5); try done. etrans; [eapply no_strings_body; [|exact Hr]; done|]. bind_inv Hr1. destruct (body r6); try done. by eapply no_strings_body; [|exact Hr1].
Qed.

Lemma findupval_no_strings g th level new uv g' : luaF_findupval g th level new = Ok (uv, g') -> no_strings g g'.
Proof.
  intros H. bind_inv H. destruct (body r); try done. bind_inv H. destruct r0 as [[bef aft] [p|]]; bind_inv H.
  - bind_inv H. injection H as _ <-. destruct (isdead _ _); [|by injection Hr2 as <-]. apply no_strings_marks. eapply set_marks_only; [|exact Hr2]. by intros ?.
  - injection H as _ <-. apply set_openupval_swept in Hr1 as [Hr1 _]. apply no_strings_sweeps in Hr1. etrans; [|etrans; [exact Hr1|by apply no_strings_heap]]. by apply no_strings_put.
Qed.

Lemma closure_upvals_no_strings alloc ds th cl ncl bs g g' : closure_upvals alloc ds th cl ncl bs g = Ok g' -> no_strings g g'.
Proof.
  revert g. induction ds as [|d ds IH]; intros g; [by intros [= <-]|]. cbn [closure_upvals]. intros H. bind_inv H. destruct r as [uv g1]. bind_inv H. destruct (body r); try done. bind_inv H.
  etrans; [|by apply IH]. etrans; [|eapply no_strings_body; [|exact Hr1]; done]. destruct d; [|by eapply findupval_no_strings]. bind_inv Hr. destruct (body r1); try done. destruct (upvals0 !! b); [|done]. by injection Hr as _ <-.
Qed.

Lemma closure_no_strings alloc g th cl bs a bx ds o g' : op_closure alloc g th cl bs a bx ds = Ok (o, g') -> no_strings g g'.
Proof.
  intros H. bind_inv H. destruct (body r); try done. bind_inv H. destruct (body r0); try done. destruct (p0 !! bx) as [[q|]|]; try done. bind_inv H. bind_inv H. destruct (body r2); try done.
  destruct (decide _); [|done]. bind_inv H. injection H as _ <-. etrans; [|eapply no_strings_body; [|exact Hr3]; done]. etrans; [|by eapply closure_upvals_no_strings]. by apply link_no_strings.
Qed.

Lemma setupval_no_strings g uv v g' : op_setupval g uv v = Ok g' -> no_strings g g'.
Proof.
  intros H. bind_inv H. etrans; [|by eapply no_strings_marks, barrier_only]. bind_inv Hr. destruct (body r0) as [| |[th i|]| | | | |]; try done; [|by eapply no_strings_body; [|exact Hr]].
  bind_inv Hr. destruct (body r1); try done. destruct (decide _); [|done]. by eapply no_strings_body; [|exact Hr].
Qed.

Lemma pop_no_strings g g' : pop g = Ok g' -> no_strings g g'.
Proof. intros H. bind_inv H. destruct (body r); try done. by eapply no_strings_body; [|exact H]. Qed.

Lemma setmetatable_no_strings g obj plain g' : lua_setmetatable g obj plain = Ok g' -> no_strings g g'.
Proof.
  intros H. bind_inv H. bind_inv H. bind_inv H. etrans; [|by apply pop_no_strings].
  assert (forall g2, (i ← value_type g plain obj; if decide (i < length (mt g))%nat then Ok (set_roots g (running g) (<[i := r0]> (mt g))) else Err OutOfBounds) = Ok g2 -> no_strings g g2) as Hdef.
  { intros g2 H2. bind_inv H2. destruct (decide _); [|done]. injection H2 as <-. by apply no_strings_heap. }
  destruct obj as [| |o]; [by apply Hdef..|]. bind_inv Hr1. destruct (body r2); try by apply Hdef.
  - bind_inv Hr1. etrans; [eapply no_strings_body; [|exact Hr3]; done|]. destruct r0 as [l|]; [by apply no_strings_marks, (objbarrier_only _ o l)|by injection Hr1 as <-].
  - bind_inv Hr1. etrans; [eapply no_strings_body; [|exact Hr3]; done|]. destruct r0 as [l|]; [by apply no_strings_marks, (objbarriert_only _ o l)|by injection Hr1 as <-].
Qed.

Lemma setfenv_no_strings g obj b g' : lua_setfenv g obj = Ok (b, g') -> no_strings g g'.
Proof.
  intros H. bind_inv H. bind_inv H. bind_inv H. destruct r1 as [c g1]. bind_inv H. injection H as _ <-. etrans; [|by apply pop_no_strings].
  destruct obj as [| |o]; [by injection Hr1 as _ <-..|]. bind_inv Hr1.
  assert (forall bd, not_string bd -> (g ← set_body g o bd; g ← luaC_objbarrier g o r0; Ok (true, g)) = Ok (c, g1) -> no_strings g g1) as Hset.
  { intros bd Hbd H. bind_inv H. bind_inv H. injection H as _ <-. etrans; [eapply no_strings_body; [|exact Hr4]; done|]. by eapply no_strings_marks, objbarrier_only. }
  destruct (body r2); first [by injection Hr1 as _ <-|by eapply Hset; [|exact Hr1]].
Qed.

(** ** Runs *)

Section runs.
Context (alloc : gset loc -> loc) (alloc_fresh : forall X, alloc X ∉ X).

Lemma run_op_interned op held g l g' : inv g -> allowed op held g -> run_op alloc op g = Ok (l, g') -> interned g -> interned g'.
Proof using alloc_fresh.
  intros HI Hal Hr HN. assert (no_strings g g' -> interned g') as Hno by (intros H; by apply (no_strings_interned g)).
  destruct op as [| | |b|e|s|L|th cl bs a bx ds|th level|uv v|t b k v|o b v|th v st top cis|obj plain|obj|th]; cbn [run_op] in Hr.
  - bind_inv Hr. injection Hr as _ <-. by eapply singlestep_interned.
  - injection Hr as _ <-. apply Hno. rw /fullgc_reset. destruct (decide _); [by apply no_strings_heap|done].
  - bind_inv Hr. injection Hr as _ <-. by apply Hno, no_strings_contents, markroot_kept.
  - injection Hr as _ <-. apply Hno, link_no_strings. destruct Hal as [[Hb|[w ->]] _]; [by destruct b|done].
  - injection Hr as _ <-. apply Hno. etrans; [apply (no_strings_put g (new_loc alloc g) (mkObject (luaC_white (currentwhite g)) (BUdata None e))); done|by apply no_strings_heap].
  - bind_inv Hr. destruct r as [o g1]. injection Hr as _ <-. by eapply luaS_newlstr_interned; [|apply new_loc_fresh|..].
  - bind_inv Hr. destruct r as [o g1]. injection Hr as _ <-. by eapply Hno, newthread_no_strings.
  - bind_inv Hr. destruct r as [o g1]. injection Hr as _ <-. by eapply Hno, closure_no_strings.
  - bind_inv Hr. injection Hr as _ <-. apply Hno, no_strings_sweeps. bind_inv Hr0. destruct (body r0); try done. by eapply close_loop_swept.
  - bind_inv Hr. injection Hr as _ <-. by eapply Hno, setupval_no_strings.
  - bind_inv Hr. injection Hr as _ <-. destruct Hal as (_ & _ & Hb & _). bind_inv Hr0. bind_inv Hr0. apply Hno. etrans; [by eapply no_strings_marks, barriert_only|].
    etrans; [eapply no_strings_body; [|exact Hr1]; by destruct b|]. by eapply no_strings_marks, barriert_only.
  - bind_inv Hr. injection Hr as _ <-. destruct Hal as (_ & _ & _ & _ & Hb & _). bind_inv Hr0. apply Hno. etrans; [eapply no_strings_body; [|exact Hr]; by destruct b|]. by eapply no_strings_marks, barrier_only.
  - bind_inv Hr. destruct (body r); try done. bind_inv Hr. injection Hr as _ <-. by eapply Hno, no_strings_body; [|exact Hr1].
  - bind_inv Hr. injection Hr as _ <-. by eapply Hno, setmetatable_no_strings.
  - bind_inv Hr. destruct r as [c g1]. injection Hr as _ <-. by eapply Hno, setfenv_no_strings.
  - injection Hr as _ <-. by apply Hno, no_strings_heap.
Qed.

Lemma exec_interned ops held g : inv g -> Forall (alive g) held -> permitted alloc ops held g -> interned g -> exists held' g', exec alloc ops held g = Ok (held', g') /\ inv g' /\ interned g'.
Proof using alloc_fresh.
  revert held g. induction ops as [|op ops IH]; intros held g HI Hh Hp HN; [by exists held, g|]. destruct Hp as [Hal Hp]. destruct (run_inv alloc alloc_fresh op held g HI Hh Hal) as (l & g1 & Hr & HI1 & Hh1).
  cbn [exec]. rw Hr Ok_bind. apply IH; [done|done|by apply Hp|exact (run_op_interned op held g l g1 HI Hal Hr HN)].
Qed.

Lemma fixed_names_interned names g l g' : inv g -> gcstate g <> GCSpropagate -> fixed_names alloc names g = Ok (l, g') -> interned g -> interned g'.
Proof using alloc_fresh.
  revert g l. induction names as [|str names IH]; intros g l HI Hs; [by intros [= _ <-]|]. cbn [fixed_names]. rw /luaS_new. pose proof (new_loc_fresh alloc alloc_fresh g) as Hf.
  destruct (luaS_newlstr_inv g str (new_loc alloc g) HI Hf) as (o & g1 & Hn & HI1 & _ & Es1 & x & Hx & Hb & Hd). rw Hn Ok_bind.
  destruct (luaS_fix_inv g1 o x) as (g2 & Hfix & HI2 & Es2); [done|congruence|done|by rw Hb|done|]. rw Hfix Ok_bind. intros H HN. bind_inv H. destruct r as [l3 g3]. injection H as _ <-.
  apply (IH g2 l3 HI2); [congruence|done|]. eapply no_strings_interned; [apply no_strings_marks; eapply set_marks_only; [|exact Hfix]; by intros ?|]. by eapply luaS_newlstr_interned; [exact HI|exact Hf|exact Hn|].
Qed.

Lemma lua_newstate_interned g0 : lua_newstate alloc = Ok g0 -> interned g0.
Proof using alloc_fresh.
  destruct (lua_newstate_open alloc alloc_fresh) as (g & HI & Hs & Ht & ->). intros H.
  assert (interned g) as HN.
  { assert (concat (strt g) = []) as Hnil by (by rw Ht). assert (forall o x s, heap g !! o = Some x -> body x <> BString s) as Hno.
    { intros o x s Hx Hb. pose proof (s_home _ (i_shape _ HI) o _ (sk_lookup _ _ _ Hx)) as Hin. rw Hb /= Hnil in Hin. by apply elem_of_nil in Hin. }
    split; [intros i l o x s _ _ Hx Hb; by destruct (Hno o x s)|intros o1 o2 x1 x2 s Hx _ Hb _; by destruct (Hno o1 x1 s)]. }
  assert (forall names g l g', inv g -> gcstate g = GCSpause -> fixed_names alloc names g = Ok (l, g') -> interned g -> inv g' /\ gcstate g' = GCSpause /\ interned g') as Hfix.
  { intros names g1 l g2 HI1 Hs1 Hf HN1. destruct (fixed_names_inv alloc alloc_fresh names g1 HI1) as (l' & g2' & Hf' & HI2 & Hs2 & _); [congruence|]. rw Hf in Hf'. injection Hf' as <- <-.
    split; [done|]. split; [congruence|]. eapply fixed_names_interned; [exact HI1|congruence|exact Hf|exact HN1]. }
  bind_inv H. bind_inv Hr. destruct r0 as [l1 g1]. destruct (Hfix _ _ _ _ HI Hs Hr0 HN) as (HI1 & Hs1 & HN1). destruct (l1 !! TM_GC) as [a|]; [|done]. destruct (l1 !! TM_MODE) as [b|]; [|done]. injection Hr as <-.
  apply (no_strings_interned _ (set_tmnames g1 a b)) in HN1; [|by apply no_strings_heap]. apply (set_tmnames_inv _ a b) in HI1. bind_inv H. bind_inv Hr. destruct r0 as [l2 g2]. injection Hr as <-.
  destruct (Hfix _ _ _ _ HI1 Hs1 Hr1 HN1) as (HI2 & Hs2 & HN2). bind_inv H. destruct r as [l3 g3]. injection H as <-. by destruct (Hfix _ _ _ _ HI2 Hs2 Hr HN2) as (_ & _ & ?).
Qed.
End runs.

(** C34: In every run from a new state, with steps of the collector at any time, two objects that are strings with the
    same characters are the same object, so that comparing addresses compares strings. *)
Theorem strings_interned (alloc : gset loc -> loc) (ops : list operation) (g0 : global_State) : (forall X, alloc X ∉ X) -> lua_newstate alloc = Ok g0 -> permitted alloc ops [] g0 ->
  exists held g, exec alloc ops [] g0 = Ok (held, g) /\
    forall o1 o2 s1 s2, string_of g o1 = Ok s1 -> string_of g o2 = Ok s2 -> (s1 = s2 <-> o1 = o2).
Proof.
  intros Hf Hg0 Hp. destruct (lua_newstate_inv alloc Hf) as (g & Hg & HI & _). rw Hg0 in Hg. injection Hg as <-.
  destruct (exec_interned alloc Hf ops [] g0 HI) as (held & g & Hr & HI' & HN); [done|done|by apply (lua_newstate_interned alloc Hf)|]. exists held, g. split; [done|]. intros o1 o2 s1 s2 H1 H2.
  split; [intros <-|intros <-; congruence]. bind_inv H1. apply get_Some in Hr0. bind_inv H2. apply get_Some in Hr1. destruct (body r) eqn:B1; try done. destruct (body r0) eqn:B2; try done. injection H1 as ->. injection H2 as ->.
  by apply (n_unique _ HN o1 o2 r r0 s1).
Qed.

Lemma strings_interned_witness : exists held g, exec fresh small_run [] start = Ok (held, g) /\
  forall o1 o2 s1 s2, string_of g o1 = Ok s1 -> string_of g o2 = Ok s2 -> (s1 = s2 <-> o1 = o2).
Proof. apply (strings_interned fresh small_run start); [exact is_fresh|vm_compute; reflexivity|exact small_run_permitted]. Defined.
